(* ===== verification/_CoqProject ===== *)
-Q . S2P
Prelude.v
Utf8.v
F64.v
Message.v
EdgeWire.v
ChannelState.v
Async.v
Crypto.v
Conn.v
Requests.v
Accept.v
Handles.v
RxLoop.v
Address.v
ChannelDial.v
ChannelPool.v
ListenerManager.v
DnsMatcher.v
DnsServer.v
IpAddr.v
Services.v
InterceptResolver.v
HostTarget.v
DialTimeout.v
Host.v
Routes.v
Flows.v
Runner.v
PollTimer.v
DnsForward.v
DnsTcp.v
Splice.v
SpliceKill.v
TcpProxy.v
UdpProxy.v
VconnPump.v
Tasks.v
Rest.v
Http.v
Enroll.v
SessionCert.v
Client.v
ClientLogic.v
ClientRun.v
ClientSafety.v
OidcLogin.v
Wire.v
Construct.v
Listing.v
CommandLine.v
