(* ===== verification/Prelude.v ===== *)
(** * noa-sdk: a Rocq model of the OpenZiti client's core logic

    [noa-sdk] is an OpenZiti endpoint in Rust: it dials and hosts overlay services
    over channels to edge routers, and as a tunneler it answers DNS for intercepted
    names and moves their traffic.  This development models the logic of that
    program below its I/O: what is sent, received, registered, parsed and decided.
    All paths are under [src/src/].

    ** How the program's parts interact

    A channel is a TLS byte stream of frames ([channel/message.rs]), opened with a
    Hello exchange ([channel/connect.rs]).  Over it [edge/data/] multiplexes the
    connections and binds of one router: a shared state ([channel_state.rs]: maps of
    reply waiters, connections and binds, the sequence and connection-id counters),
    tasks that issue requests and wait for replies ([channel.rs]), the accept loop of
    a hosted service ([accept.rs]), the two halves of a connection ([conn.rs]) and one
    read loop that gives each frame to the task it is for ([rxloop.rs]).
    [edge/listener_manager/] keeps the right number of routers listening for a hosted
    service.  [tunnel/intercept/dns/] gives intercepted names addresses,
    [tunnel/intercept/dns_server/] answers DNS queries with them, and
    [tunnel/intercept/resolve/] decides from the services' configs which service a
    packet's destination belongs to.  The services come from the controller by polls
    ([edge/services.rs]), whose differences are the events that keep the table.  The
    loop of the combined runner ([combined/runner.rs]) puts these together: each TCP
    connection and each datagram the IP stack gives it is looked up in the table and
    dialed as a flow, registered under its service; a service event changes the table,
    cancels the flows of the service it replaces, whose pumps then stop, and moves the
    operating-system routes;
    DNS queries go to the DNS server, and from it to upstream resolvers or to peers.
    What the intercepting side writes in a dial's app data, the hosting side reads to
    find its target ([tunnel/resolve/]).  Both sides move the bytes with the same
    splice of a socket onto a connection ([tunnel/proxy.rs]); [tunnel/udp/] carries the
    datagrams of one local socket over a connection per source.

    Above the channels is the client ([edge/client/]): it holds the API session's
    token, the cache of Dial sessions and the services, which many tasks share - every
    call of [connect] or [bind], the timer that refreshes the token
    ([edge/refresh/timer.rs]), the one that refreshes the cached sessions
    ([edge/session_refresh/]) and the one that polls the services
    ([edge/service_refresh.rs]).  Each takes one lock at a time and awaits the
    controller in between; a refused request makes its task log in again under the
    [reauth_lock] ([edge/refresh/legacy.rs]).  The channels to routers are shared too:
    a connect takes the best of those in the pool ([edge/client/pool.rs]) and leaves
    tasks of their own to open the missing ones ([edge/channel/fanout.rs]).

    Before any of this an identity is enrolled ([enroll/]): a signed one-time token
    names a controller, whose CAs are trusted along a chain that starts with the
    token's signature.  With the identity the client logs in, by a certificate or by
    an OIDC flow ([edge/oidc/]), and a session without a certificate of its own gets
    one for the channels, renewed before it expires ([edge/session_cert_renew.rs]).
    These are conversations with a server, over TLS clients that trust different
    things.  A constructor of the client ([edge/client/construct.rs]) is such a
    conversation, from the login to the first certificate; the client it gives opens
    every channel with the TLS configuration of that identity or certificate, and a
    connect that finds the certificate stale renews it, under a lock of its own, and
    logs in again when the controller refuses.

    ** Files

    - [Prelude]: results, machine integers, bytes and strings, [BTreeMap] order,
      invariants along step relations, generic lemmas.
    - [Utf8]: [String::from_utf8] and [from_utf8_lossy].
    - [F64]: the binary64 numbers that durations are computed with, and how far they round.
    - [Message]: frames, the codec, the Hello exchange ([channel/]).
    - [EdgeWire]: the builders and classifiers of edge messages, the error type, the
      ConnInspect response ([edge/dial.rs], [edge/bind/wire.rs], [edge/data/wire.rs],
      [edge/data/inspect.rs], [edge/error.rs]).
    - [ChannelState]: the shared state of a channel, its operations one lock at a
      time, and its teardown as a step relation ([edge/data/channel_state.rs]).
    - [Async]: tasks as resumptions ([prog]) that meet an arbitrary environment at
      each await point: another task may change the state, the clock moves, a write
      may fail, a reply may come or the wait may end.  [run] is the scheduler.
    - [Crypto]: the class of the secret-stream cipher and of the key exchange
      ([edge/crypto.rs], whose primitives come from a library), its laws, and an
      instance.
    - [Conn]: both halves of a connection ([edge/data/conn.rs]).
    - [Requests]: dial, bind, unbind, token update, latency probe
      ([edge/data/channel.rs], [edge/data/channel_state.rs]).
    - [Accept]: the accept loop and the completion of a dial ([edge/data/accept.rs]).
    - [Handles]: the application's handles on a connection and on a hosted service, how
      they are made and closed ([edge/conn/service_conn.rs], [edge/bind/binding.rs]).
    - [RxLoop]: the read loop ([edge/data/rxloop.rs]).
    - [Address]: router addresses and the router filter ([channel/address.rs],
      [edge/router_filter.rs]).
    - [ChannelDial]: opening a channel to a router, its life and its end
      ([edge/channel/dial.rs], [edge/data/channel.rs]).
    - [ChannelPool]: the pool of channels, the openers that fill it and the connects
      that wait for them, as steps that interleave ([edge/client/pool.rs],
      [edge/channel/]).
    - [ListenerManager]: terminators, listen attempts, the scan and connect results
      over the registry interface ([edge/listener_manager/]).
    - [DnsMatcher]: names, wildcard domains and the address pool
      ([tunnel/intercept/dns/]).
    - [DnsServer]: the query parser, the response serializer and the router
      ([tunnel/intercept/dns_server/], [proxy_resolve/codec.rs]).
    - [IpAddr]: the standard library's addresses (parser and printer), the interface
      of the [ipnet] crate, and the address-or-CIDR parser of configs
      ([tunnel/resolve/allowed.rs]).
    - [Services]: the cache of services, its differences and listeners, a tick of
      the refresh timer ([edge/services.rs], [edge/client/services.rs],
      [edge/service_refresh.rs]).
    - [InterceptResolver]: the table from destinations to services, kept by service
      events over the DNS matcher ([tunnel/intercept/resolve/]).
    - [HostTarget]: the target of a hosted dial: the allow lists of a [host.v1] config
      and the translation of forwarded addresses ([tunnel/resolve/]).
    - [DialTimeout]: the timeout of a host, with the durations of Go
      ([tunnel/resolve/timeout.rs]).
    - [Host]: a hosted service served by local sockets: the accept loops and the task
      of a dial ([tunnel/host/]).
    - [Routes]: which networks the operating system routes to the tunnel, and their
      reference counts ([tunnel/intercept/routes/]).
    - [Flows]: the registry of live flows, the UDP flows and the dispatch of one
      datagram or connection ([tunnel/intercept/flows.rs], [udp/], [tcp.rs]).
    - [Runner]: the composition: a step relation whose steps are the turns of the
      combined loop, from the start of [main.rs] on ([combined/runner.rs], [tcp.rs],
      [udp/runner.rs]).
    - [PollTimer]: the delays of the service polls, computed in binary64, and the two
      loops that sleep them ([edge/service_refresh.rs], [combined/runner.rs]).
    - [DnsForward]: queries answered later, upstream or over the overlay
      ([udp/upstream.rs], [udp/dns_dispatch.rs], [proxy_resolve/]).
    - [DnsTcp]: the same DNS server over TCP: framing, the service of a connection,
      upstreams and peers reached over connections of their own ([dns_tcp/]).
    - [Splice]: the two pumps between a socket and a connection, as state machines
      driven by the operations that complete ([tunnel/proxy.rs],
      [tunnel/intercept/stream.rs]).
    - [SpliceKill]: the splice of an intercepted flow, which an event of its service
      cuts off ([tunnel/intercept/splice_kill.rs]).
    - [TcpProxy]: the local listeners of the TCP proxy and their mappings of services to
      ports ([tunnel/proxy.rs]).
    - [UdpProxy]: the UDP proxy: its manager and the task of each flow, interleaved
      ([tunnel/udp/]).
    - [VconnPump]: the task of an intercepted UDP flow, over the flow of the proxy
      ([tunnel/intercept/udp/]).
    - [Tasks]: tasks over a signature of operations, their interleavings, in which a
      task may be dropped at any await, and a logic of what a task may do, given what
      it knows, that is sound for them.
    - [Rest]: tokens, sessions, and the replies of the controller's API
      ([edge/auth_token.rs], [edge/model.rs], [edge/client/]).
    - [Http]: requests, replies, TLS clients and conversations: tasks whose operations
      an environment answers given the history, with the logic of [Tasks].
    - [Enroll]: the enrolment of an identity, with a one-time token, a CA's certificate
      or a password ([enroll/]).
    - [SessionCert]: session certificates, their renewal, and the TLS clients of an
      identity ([edge/session_cert.rs], [edge/session_cert_renew.rs],
      [edge/identity_tls.rs]).
    - [Client]: the client's state and its tasks, an operation for each lock, request
      and sleep ([edge/client/], [edge/conn/], [edge/refresh/],
      [edge/session_refresh/], [edge/channel/open.rs], [edge/bind/flow.rs]).
    - [ClientLogic]: what the operations mean, what each task knows and that it obeys.
    - [ClientRun]: a task run alone, and the timer of the cached sessions.
    - [ClientSafety]: the invariant of every interleaving, with its session certificate.
    - [OidcLogin]: the OIDC login and refresh ([edge/oidc/]).
    - [Wire]: the client's operations as HTTP requests, and its tasks with those
      conversations interleaved ([edge/client/], [oidc_glue.rs]).
    - [Construct]: the constructors of the client and its first authentication
      ([edge/client/construct.rs], [edge/client/auth.rs]).
    - [Listing]: the listing of services while the program starts, with the renewal of
      the session, the refresh on demand and the timers' start and end ([edge/client/]).
    - [CommandLine]: the program: flags, files and subcommands up to the loops they start
      ([main.rs], [routes/control_plane.rs]).

    A definition carries the name of the function it models; a part of a function is
    named after what it does and mapped to the function.

    ** What the theorems show

    - Codec: frames and streams of frames are read back as they were written,
      truncated or oversized ones are refused, the Hello exchange has the outcome its
      reply says (Message); addresses round-trip (Address).
    - Channel: connection ids are fresh and the allocator ends; after the teardown
      nothing stays registered, whatever the interleaving, except reply waiters
      inserted too late (ChannelState); every request's waiter is in place before its
      frame is written, and each request ends with the registrations its outcome calls
      for, in every schedule (Requests); a channel is opened exactly by a Result that says
      success, to a Hello with the session's token, and its end leaves nothing registered
      (ChannelDial), a binding's too, while closing a connection spares what shares its
      channel (Handles); accepted and refused dials send exactly the
      frames they should (Accept); each frame the loop reads goes to one place, in
      order, for each connection (RxLoop).
    - Connections: what one side writes the other reads, in order and once, with and
      without encryption, through the relabelling a router does; nothing follows a FIN
      (Conn).
    - Hosting: never more than the allowed number of terminators in any interleaving
      (ListenerManager); a dial reaches only what the config allows, and forwarded
      addresses are renumbered by the longest matching translation (HostTarget); a host
      hands each dial of its queue to one task, which splices only what the config
      allows and acknowledges the dial only then (Host), under a timeout that is
      positive, read exactly although its fractions are computed in floating point
      (DialTimeout).
    - DNS: names and addresses stay one to one through every history; lookups are
      stable, wildcards match the longest suffix, deregistering leaks nothing
      (DnsMatcher); queries round-trip, replies answer their query and fit, matched
      names are never sent upstream (DnsServer).
    - Interception: replaying the events of a poll gives the new cache, and the
      installed configs follow it (Services, InterceptResolver); the table dispatches
      exactly what the installed configs say after any history, and what the DNS
      server answers is dispatched (InterceptResolver).
    - The tunneler as a whole, in every run: each live flow is one its service's
      current config permits, an event cancels exactly the flows of the service it
      takes away, the routes are those the configs ask for and the policy allows, the
      start equals the one-shot construction (Runner); the app data of an intercepted
      flow names its target to the host (Flows); forwarded DNS queries are answered at
      most once, to the client that asked (DnsForward).
    - DNS over TCP: serving a connection ends, every query gets at most one reply, in
      order, and exactly one when the network helps; the bytes are those of the UDP path
      (DnsTcp).
    - Bytes: from socket to socket through two splices and a router nothing is lost,
      added or reordered, a splice ends once its reads do, and half-closes each side
      (Splice); every datagram of the UDP proxy is accounted for, the window in which a
      flow closes included, and dropped only on a full queue (UdpProxy).  The event that
      cancels a flow cuts off its pumps: nothing more is read, nothing is written but
      the frame under way, and each side is closed once, in a bounded number of turns
      (SpliceKill, VconnPump).  The mappings of the TCP proxy are read as written, and a
      bad one stops it before any listener (TcpProxy).
    - The pool, in every interleaving: a pooled channel goes to its router and is
      registered once, no alive one is displaced; a connect gets the best alive channel
      or the first that opens, fails only when all fail, and does not wait for ever
      (ChannelPool).
    - The client, in every interleaving of its tasks: a cached session is one the
      controller made for that service and never one that was evicted; a task logs in
      only if it was refused under the token that is still current; a connection's
      retry dials another session than its first dial; the session certificate stays
      one for its key, and a new one is minted only by a task that found it stale
      (ClientSafety).  All this holds of the tasks with their requests spelled out,
      because those runs refine the atomic ones (Wire).  What a tick of
      the session timer does to each cached session (ClientRun); the paged listing
      ends and is complete (Rest).
    - The conversations, whatever the other side answers: a secret of the OIDC login is
      sent only where the protocol has brought the client, tokens come only with our
      state and nonce, and a server that follows the protocol logs the client in
      (OidcLogin); an enrolment sends each request along the chain of trust from the
      signed token and nowhere else (Enroll); a burst of callers renews a session
      certificate once, leaf and end change together, and a chain in PEM reads back
      (SessionCert).
    - Making a client: credentials go only to servers the CAs verify and only where
      the login has come to, a certificate is asked for only with the session that was
      opened, the client is made of what was answered, and a server that follows the
      protocol makes one; an enrolled identity logs in over its own TLS client; from
      then on the client holds a certificate for the key that was drawn (Construct).
    - The program: whatever its arguments and the answers, it serves only with a client of
      an identity's file that has logged in, and sends nothing before but logins and
      listings; the interceptor it starts is one that [Runner] is about, and no run of it
      routes a controller's address to the tunnel; an enrolment that fails changes no
      file, one that succeeds writes the identity and removes the token - which is the
      identity just written when both have one path ([enrolled_over_token])
      (CommandLine).  The polls of services wait between 4.5 and 5.5 minutes, or between
      five seconds and two minutes when the controller is unavailable, and no delay
      overflows (PollTimer).

    ** Conventions and bounds

    An integer of width [w] is a [Z] with its wrap-around written out; strings that
    the code compares or slices are [string] (bytes), packets [list Z].  A [HashMap]
    or [BTreeMap] is a [gmap]; where the code iterates over one, the order is the sorted
    one ([btree_entries]) or is left to the statement.  Sequence numbers wrap as in a
    release build.  Loops that are not structural take fuel: the frame parser, the
    label loops of DNS and the suffix walk of names use one turn per byte left, the id
    allocator two turns per id in use and two more, each enough by the theorem about
    the function ([parse_frame_marshal], [query_name_roundtrip], [find_domain_spec],
    [next_conn_id_fresh]); the service of a DNS connection and the reading of an
    upstream's messages one turn per byte ([dns_tcp_exchanges],
    [read_matching_enough]); the terms of a duration one turn per byte
    ([go_duration_printed], [parse_terms_enough]); the accept loop of a host one turn
    per frame ([host_serves_queue]); the listing of services a turn per page
    ([list_services_complete], [list_pages_listed] for its conversation) - the program's
    start is unfinished while a bound on its pages or its logins is not enough, which
    [program_serves_authenticated] leaves open; the trimming of a token, the lines of a PEM block and
    the search of a common name one turn per byte ([cert_chain_reads_back]); the latency task and the timers run for ever, so their
    theorems are about turns.

    ** Not modelled

    Sockets, TLS and the TUN device; the [tokio] runtime beyond [Async] and [Tasks];
    HTTP itself and the controller behind it, whose answers are free except that it
    issues each session id once ([controller_ok]).  For [Client] a handshake with a
    router is one operation, that of [ChannelDial].  The counters
    for tests are left out.  The subcommands are followed to the loops they start; the
    sockets, the device and the routing socket they open succeed or fail as the system
    says.  X.509, CMS, JWT, URLs,
    base64 and the JSON that [serde_json] reads are parameters, as are the ciphers; the
    user-space IP stack; the system calls that change routes.  Metrics and logging have
    no effect on what is modelled and are left out. *)

From Stdlib Require Export ZArith Lia Ascii String.
From stdpp Require Export base list gmap strings pretty sorting option relations.

#[export] Set Default Goal Selector "!".

Declare Scope noa_scope.
Delimit Scope noa_scope with noa.

Create HintDb noa.
Create Rewrite HintDb noa.

Global Open Scope Z_scope.

(** ** Results

    Rust's [Result<A, E>]; [x ← e; k] is the [?] operator. *)

Inductive result (E A : Type) : Type :=
| Ok (a : A)
| Err (e : E).

Arguments Ok {E A} a.
Arguments Err {E A} e.

#[export] Instance result_bind {E} : MBind (result E) := λ A B f x,
  match x with Ok a => f a | Err e => Err e end.

#[export] Instance result_ret {E} : MRet (result E) := λ A a, Ok a.

#[export] Instance result_fmap {E} : FMap (result E) := λ A B f x,
  match x with Ok a => Ok (f a) | Err e => Err e end.

(** [Option::ok_or_else]. *)
Definition ok_or {E A} (e : E) (o : option A) : result E A :=
  match o with Some a => Ok a | None => Err e end.

(** [Result::map_err]. *)
Definition map_err {E E' A} (f : E → E') (r : result E A) : result E' A :=
  match r with Ok a => Ok a | Err e => Err (f e) end.

Definition is_ok {E A} (r : result E A) : bool :=
  match r with Ok _ => true | Err _ => false end.

Lemma bind_Ok {E A B} (r : result E A) (f : A → result E B) b :
  (r ≫= f) = Ok b → ∃ a, r = Ok a ∧ f a = Ok b.
Proof. destruct r as [a|e]; cbn; [eauto | discriminate]. Qed.

(** ** Case analysis *)

Ltac case_if :=
  match goal with
  | |- context [if ?b then _ else _] => destruct b eqn:?
  | H : context [if ?b then _ else _] |- _ => destruct b eqn:?
  end.

(** Boolean comparisons in the context, as propositions. *)
Ltac bool_to_prop :=
  repeat match goal with
  | H : (_ && _)%bool = true |- _ => apply andb_true_iff in H as [? ?]
  | H : (_ && _)%bool = false |- _ => apply andb_false_iff in H
  | H : (_ || _)%bool = true |- _ => apply orb_true_iff in H
  | H : (_ || _)%bool = false |- _ => apply orb_false_iff in H as [? ?]
  | H : negb _ = true |- _ => apply negb_true_iff in H
  | H : negb _ = false |- _ => apply negb_false_iff in H
  | H : (_ <? _) = true |- _ => apply Z.ltb_lt in H
  | H : (_ <? _) = false |- _ => apply Z.ltb_ge in H
  | H : (_ <=? _) = true |- _ => apply Z.leb_le in H
  | H : (_ <=? _) = false |- _ => apply Z.leb_gt in H
  | H : (_ =? _) = true |- _ => apply Z.eqb_eq in H
  | H : (_ =? _) = false |- _ => apply Z.eqb_neq in H
  end.

(** ** Machine integers

    An unsigned [w]-bit integer is a [Z] in [[0, 2^w)]; a signed one a [Z] in
    [[-2^(w-1), 2^(w-1))]. *)

Definition u8_max : Z := 255.
Definition u16_max : Z := 65535.
Definition u32_max : Z := 4294967295.
Definition u64_max : Z := 18446744073709551615.

Definition u32_ok (z : Z) : Prop := 0 <= z <= u32_max.
Definition i32_ok (z : Z) : Prop := -2147483648 <= z <= 2147483647.
Definition byte_ok (z : Z) : Prop := 0 <= z < 256.
Abbreviation bytes_ok := (Forall byte_ok).

#[export] Instance u32_ok_dec z : Decision (u32_ok z).
Proof. unfold u32_ok. apply _. Defined.
#[export] Instance i32_ok_dec z : Decision (i32_ok z).
Proof. unfold i32_ok. apply _. Defined.
#[export] Instance byte_ok_dec z : Decision (byte_ok z).
Proof. unfold byte_ok. apply _. Defined.

(** Closed decidable goals, by evaluation. *)
Ltac by_compute := apply (bool_decide_unpack _); vm_compute; exact I.

(** [wrapping_add], and [+] where the source has an atomic [fetch_add]. *)
Definition wrap_u32 (z : Z) : Z := z mod 4294967296.
Definition wrap_u64 (z : Z) : Z := z mod 18446744073709551616.
Definition wrap_u16 (z : Z) : Z := z mod 65536.

(** Two's complement reading of a 32-bit word. *)
Definition i32_of_u32 (w : Z) : Z := if w <? 2147483648 then w else w - 4294967296.
Definition wrap_i32 (z : Z) : Z := i32_of_u32 (wrap_u32 z).

(** [saturating_add] on [u32] and [saturating_sub] on any unsigned type. *)
Definition sat_add_u32 (a b : Z) : Z := Z.min (a + b) u32_max.
Definition sat_sub (a b : Z) : Z := Z.max 0 (a - b).

Lemma wrap_u32_id z : u32_ok z → wrap_u32 z = z.
Proof. unfold u32_ok, u32_max, wrap_u32. intros. apply Z.mod_small. lia. Qed.

Lemma wrap_u32_ok z : u32_ok (wrap_u32 z).
Proof.
  unfold u32_ok, u32_max, wrap_u32.
  pose proof (Z.mod_pos_bound z 4294967296). lia.
Qed.

Lemma wrap_i32_id z : i32_ok z → wrap_i32 z = z.
Proof.
  unfold i32_ok, wrap_i32, i32_of_u32, wrap_u32. intros.
  destruct (decide (0 <= z)).
  - rewrite Z.mod_small by lia. case_if; bool_to_prop; lia.
  - replace (z mod 4294967296) with (z + 4294967296).
    + case_if; bool_to_prop; lia.
    + rewrite <-(Z.mod_add z 1) by lia. rewrite Z.mod_small; lia.
Qed.

Lemma wrap_i32_ok z : i32_ok (wrap_i32 z).
Proof.
  unfold i32_ok, wrap_i32, i32_of_u32.
  pose proof (wrap_u32_ok z) as H. unfold u32_ok, u32_max in H.
  case_if; bool_to_prop; lia.
Qed.

#[export] Hint Resolve wrap_u32_ok wrap_i32_ok : noa.

(** ** Byte strings *)

(** [to_le_bytes] of the [n]-byte word [z mod 256^n] (two's complement). *)
Fixpoint le_bytes (n : nat) (z : Z) : list Z :=
  match n with
  | O => []
  | S n => z mod 256 :: le_bytes n (z / 256)
  end.

(** [from_le_bytes] (unsigned). *)
Fixpoint le_val (bs : list Z) : Z :=
  match bs with
  | [] => 0
  | b :: bs => b + 256 * le_val bs
  end.

(** [to_be_bytes] and [from_be_bytes]. *)
Definition be_bytes (n : nat) (z : Z) : list Z := reverse (le_bytes n z).
Definition be_val (bs : list Z) : Z := le_val (reverse bs).

Definition u32_to_le (z : Z) : list Z := le_bytes 4 z.
Definition i32_to_le (z : Z) : list Z := le_bytes 4 z.
Definition u64_to_le (z : Z) : list Z := le_bytes 8 z.
Definition u32_of_le (bs : list Z) : Z := le_val bs.
Definition i32_of_le (bs : list Z) : Z := i32_of_u32 (le_val bs).
Definition u16_to_be (z : Z) : list Z := be_bytes 2 z.
Definition u32_to_be (z : Z) : list Z := be_bytes 4 z.
Definition u16_of_be (bs : list Z) : Z := be_val bs.

Lemma length_le_bytes n z : length (le_bytes n z) = n.
Proof. revert z. induction n; intros; cbn; auto. Qed.

Lemma le_bytes_ok n z : bytes_ok (le_bytes n z).
Proof.
  revert z. induction n as [|n IH]; intros; cbn; constructor; [|apply IH].
  unfold byte_ok. pose proof (Z.mod_pos_bound z 256). lia.
Qed.

Lemma le_val_le_bytes n z : le_val (le_bytes n z) = z mod 256 ^ Z.of_nat n.
Proof.
  revert z. induction n as [|n IH]; intros z; cbn [le_bytes le_val].
  - by rewrite Z.mod_1_r.
  - rewrite IH, Nat2Z.inj_succ, Z.pow_succ_r by lia.
    rewrite Z.rem_mul_r by lia. lia.
Qed.

Lemma le_val_bound bs : bytes_ok bs → 0 <= le_val bs < 256 ^ Z.of_nat (length bs).
Proof.
  induction 1 as [|b bs Hb _ IH]; [cbn; lia|].
  cbn [le_val length]. rewrite Nat2Z.inj_succ, Z.pow_succ_r by lia.
  unfold byte_ok in Hb. lia.
Qed.

Lemma le_bytes_le_val bs : bytes_ok bs → le_bytes (length bs) (le_val bs) = bs.
Proof.
  induction 1 as [|b bs Hb _ IH]; [done|].
  cbn [le_val length le_bytes]. unfold byte_ok in Hb. f_equal.
  - rewrite Z.mul_comm, Z.mod_add by lia. apply Z.mod_small. lia.
  - rewrite Z.mul_comm, Z.div_add, Z.div_small by lia. done.
Qed.

Lemma u32_le_roundtrip z : u32_ok z → u32_of_le (u32_to_le z) = z.
Proof.
  intros H. unfold u32_of_le, u32_to_le. rewrite le_val_le_bytes.
  apply Z.mod_small. unfold u32_ok, u32_max in H. cbn. lia.
Qed.

Lemma i32_le_roundtrip z : i32_ok z → i32_of_le (i32_to_le z) = z.
Proof.
  intros H. unfold i32_of_le, i32_to_le. rewrite le_val_le_bytes.
  change (256 ^ Z.of_nat 4) with 4294967296. by apply wrap_i32_id.
Qed.

Lemma u32_to_le_inj a b : u32_ok a → u32_ok b → u32_to_le a = u32_to_le b → a = b.
Proof.
  intros Ha Hb H. rewrite <-(u32_le_roundtrip a), <-(u32_le_roundtrip b) by done. by f_equal.
Qed.

Lemma length_be_bytes n z : length (be_bytes n z) = n.
Proof. unfold be_bytes. by rewrite length_reverse, length_le_bytes. Qed.

Lemma be_val_be_bytes n z : be_val (be_bytes n z) = z mod 256 ^ Z.of_nat n.
Proof. unfold be_val, be_bytes. by rewrite reverse_involutive, le_val_le_bytes. Qed.

#[export] Hint Rewrite length_le_bytes length_be_bytes : noa.
#[export] Hint Resolve le_bytes_ok : noa.

(** A slice [l[i..j]] whose bounds have been checked. *)
Definition slice {A} (i j : nat) (l : list A) : list A := take (j - i) (drop i l).

Lemma length_slice {A} i j (l : list A) :
  (i ≤ j)%nat → (j ≤ length l)%nat → length (slice i j l) = (j - i)%nat.
Proof. intros. unfold slice. rewrite length_take, length_drop. lia. Qed.

Lemma slice_app_l {A} i j (l k : list A) :
  (j ≤ length l)%nat → slice i j (l ++ k) = slice i j l.
Proof.
  intros. unfold slice. destruct (decide (i ≤ j)%nat).
  - rewrite drop_app_le by lia. rewrite take_app_le by (rewrite length_drop; lia). done.
  - by replace (j - i)%nat with 0%nat by lia.
Qed.

Lemma slice_app_r {A} i j (l k : list A) :
  (length l ≤ i)%nat → slice i j (l ++ k) = slice (i - length l) (j - length l) k.
Proof.
  intros. unfold slice. rewrite drop_app_ge by lia. f_equal. lia.
Qed.

Lemma slice_all {A} (l : list A) n : n = length l → slice 0 n l = l.
Proof. intros ->. unfold slice. rewrite drop_0, Nat.sub_0_r. apply firstn_all. Qed.

(** The bytes of a Rust string; a [string] stands for its UTF-8 encoding. *)
Definition byte_of_ascii (a : ascii) : Z := Z.of_N (N_of_ascii a).
Definition ascii_of_byte (z : Z) : ascii := ascii_of_N (Z.to_N z).

Fixpoint bytes_of_string (s : string) : list Z :=
  match s with
  | EmptyString => []
  | String a s => byte_of_ascii a :: bytes_of_string s
  end.

Fixpoint string_of_bytes (bs : list Z) : string :=
  match bs with
  | [] => EmptyString
  | b :: bs => String (ascii_of_byte b) (string_of_bytes bs)
  end.

Lemma ascii_of_byte_of_ascii a : ascii_of_byte (byte_of_ascii a) = a.
Proof. unfold ascii_of_byte, byte_of_ascii. by rewrite N2Z.id, ascii_N_embedding. Qed.

Lemma byte_of_ascii_ok a : byte_ok (byte_of_ascii a).
Proof.
  unfold byte_ok, byte_of_ascii. pose proof (N_ascii_bounded a). lia.
Qed.

Lemma byte_of_ascii_of_byte b : byte_ok b → byte_of_ascii (ascii_of_byte b) = b.
Proof.
  unfold byte_ok, byte_of_ascii, ascii_of_byte. intros.
  rewrite N_ascii_embedding by lia. lia.
Qed.

Lemma string_of_bytes_of_string s : string_of_bytes (bytes_of_string s) = s.
Proof. induction s as [|a s IH]; cbn; [done|]. by rewrite ascii_of_byte_of_ascii, IH. Qed.

Lemma bytes_of_string_of_bytes bs : bytes_ok bs → bytes_of_string (string_of_bytes bs) = bs.
Proof. induction 1; cbn; [done|]. rewrite byte_of_ascii_of_byte by done. by f_equal. Qed.

Lemma bytes_of_string_ok s : bytes_ok (bytes_of_string s).
Proof. induction s; cbn; constructor; auto using byte_of_ascii_ok. Qed.

Lemma bytes_of_string_inj s t : bytes_of_string s = bytes_of_string t → s = t.
Proof.
  intros H. rewrite <-(string_of_bytes_of_string s), <-(string_of_bytes_of_string t). by f_equal.
Qed.

Lemma bytes_of_string_app s t :
  bytes_of_string (s +:+ t) = bytes_of_string s ++ bytes_of_string t.
Proof.
  induction s as [|a s IH]; [done|].
  change (byte_of_ascii a :: bytes_of_string (s +:+ t) = byte_of_ascii a :: (bytes_of_string s ++ bytes_of_string t)).
  by rewrite IH.
Qed.

Lemma length_bytes_of_string s : length (bytes_of_string s) = String.length s.
Proof. induction s; cbn; auto. Qed.

#[export] Hint Resolve bytes_of_string_ok : noa.

(** ** Ordered maps

    A [BTreeMap<i32, V>] is a [gmap Z V]; the loops over it see its entries
    in ascending key order. *)

Definition key_le {V} (a b : Z * V) : Prop := a.1 <= b.1.

#[export] Instance key_le_dec {V} (a b : Z * V) : Decision (key_le a b).
Proof. unfold key_le. apply _. Defined.

#[export] Instance key_le_total {V} : Total (@key_le V).
Proof. intros [a ?] [b ?]. unfold key_le. cbn. lia. Qed.

#[export] Instance key_le_trans {V} : Transitive (@key_le V).
Proof. intros [a ?] [b ?] [c ?]. unfold key_le. cbn. lia. Qed.

Definition btree_entries {V} (m : gmap Z V) : list (Z * V) :=
  merge_sort key_le (map_to_list m).

Lemma btree_entries_perm {V} (m : gmap Z V) : btree_entries m ≡ₚ map_to_list m.
Proof. apply merge_sort_Permutation. Qed.

Lemma btree_entries_sorted {V} (m : gmap Z V) : StronglySorted key_le (btree_entries m).
Proof. apply StronglySorted_merge_sort; apply _. Qed.

Lemma elem_of_btree_entries {V} (m : gmap Z V) k v :
  (k, v) ∈ btree_entries m ↔ m !! k = Some v.
Proof. rewrite btree_entries_perm. apply elem_of_map_to_list. Qed.

Lemma btree_entries_NoDup {V} (m : gmap Z V) : NoDup (btree_entries m).*1.
Proof. rewrite btree_entries_perm. apply NoDup_fst_map_to_list. Qed.

(** Inserting the entries one after the other rebuilds the map. *)
Lemma foldl_insert_entries {V} (l : list (Z * V)) (m : gmap Z V) :
  NoDup l.*1 → (∀ k, k ∈ l.*1 → m !! k = None) →
  foldl (λ acc kv, <[kv.1 := kv.2]> acc) m l = list_to_map l ∪ m.
Proof.
  revert m. induction l as [|[k v] l IH]; intros m Hnd Hm; cbn.
  - by rewrite (left_id_L ∅ (∪)).
  - apply NoDup_cons in Hnd as [Hk Hnd]. rewrite IH; [|done|].
    + rewrite <-insert_union_l, insert_union_r; [done|].
      by apply not_elem_of_list_to_map_1.
    + intros k' Hk'. cbn. rewrite lookup_insert_ne by (intros ->; done).
      apply Hm. cbn. by apply list_elem_of_further.
Qed.

Lemma foldl_insert_btree {V} (m : gmap Z V) :
  foldl (λ acc kv, <[kv.1 := kv.2]> acc) ∅ (btree_entries m) = m.
Proof.
  rewrite foldl_insert_entries.
  - rewrite (right_id_L ∅ (∪)).
    transitivity (list_to_map (map_to_list m) : gmap Z V).
    + apply list_to_map_proper; [apply btree_entries_NoDup | apply btree_entries_perm].
    + apply list_to_map_to_list.
  - apply btree_entries_NoDup.
  - intros. apply lookup_empty.
Qed.

(** ** Reachability *)

Section reach.
Context {A : Type} (step : A → A → Prop).

(** An invariant of the initial states that every step preserves holds of
    every reachable state. *)
Lemma invariant_rtc (Inv : A → Prop) a b :
  Inv a → (∀ x y, Inv x → step x y → Inv y) → rtc step a b → Inv b.
Proof. intros Ha Hstep. induction 1; eauto. Qed.
End reach.

(** ** Counting *)

(** The first index at which a test fails, or none below the bound. *)
Lemma first_failure (P : nat → bool) n :
  (∃ k, (k < n)%nat ∧ P k = false ∧ ∀ i, (i < k)%nat → P i = true) ∨ (∀ i, (i < n)%nat → P i = true).
Proof.
  induction n as [|n IH]; [right; lia|].
  destruct IH as [(k & Hk & Hf & Hi)|IH].
  - left. exists k. split_and!; auto.
  - destruct (P n) eqn:E.
    + right. intros i Hi. destruct (decide (i = n)) as [->|]; [done|]. apply IH. lia.
    + left. exists n. split_and!; auto.
Qed.

(** Pigeonhole: [|used| + 1] distinct ids are not all in [used]. *)
Lemma pigeonhole (used : gset Z) (f : nat → Z) :
  (∀ i j, (i ≤ size used)%nat → (j ≤ size used)%nat → f i = f j → i = j) →
  (∀ i, (i ≤ size used)%nat → f i ∈ used) → False.
Proof.
  intros Hinj Hin. set (ids := map f (List.seq 0 (S (size used)))).
  assert (Hnd : NoDup ids).
  { subst ids. apply NoDup_ListNoDup, NoDup_map_NoDup_ForallPairs; [|apply seq_NoDup].
    intros i j Hi%in_seq Hj%in_seq. apply Hinj; lia. }
  assert (Hsub : (list_to_set ids : gset Z) ⊆ used).
  { intros x Hx. apply elem_of_list_to_set in Hx. subst ids.
    apply list_elem_of_In, in_map_iff in Hx as (i & <- & Hi%in_seq). apply Hin. lia. }
  apply subseteq_size in Hsub. rewrite size_list_to_set in Hsub by done.
  subst ids. rewrite length_map, length_seq in Hsub. lia.
Qed.

(** ** Bits *)

(** An aligned base or-ed with an offset below the alignment is their sum. *)
Lemma lor_aligned b c k : 0 <= k → b mod 2 ^ k = 0 → 0 <= c < 2 ^ k → Z.lor b c = b + c.
Proof.
  intros Hk Hb Hc. rewrite <-Z.add_lor_land. enough (Z.land b c = 0) by lia.
  apply Z.bits_inj'. intros n Hn. rewrite Z.land_spec, Z.bits_0.
  destruct (decide (n < k)).
  - apply Z.mod_divide in Hb as [q ->]; [|lia]. by rewrite Z.mul_pow2_bits_low.
  - destruct (decide (c = 0)) as [->|]; [by rewrite Z.bits_0, andb_false_r|].
    rewrite (Z.bits_above_log2 c), andb_false_r; [done|lia|].
    apply Z.log2_lt_pow2; [lia|]. apply Z.lt_le_trans with (2 ^ k); [lia|]. apply Z.pow_le_mono_r; lia.
Qed.

(** Masking with the complement, in [w] bits, of [k] ones clears the [k] low bits. *)
Lemma land_lnot_ones a k w :
  0 <= k <= w → 0 <= a < 2 ^ w → Z.land a (Z.lxor (Z.ones k) (Z.ones w)) = a - a mod 2 ^ k.
Proof.
  intros Hk Ha. transitivity (Z.ldiff a (Z.ones k)).
  - apply Z.bits_inj'. intros n Hn. rewrite Z.land_spec, Z.lxor_spec, Z.ldiff_spec, !Z.testbit_ones by lia.
    destruct (decide (n < w)).
    + replace (n <? w) with true by (symmetry; apply Z.ltb_lt; lia).
      replace (0 <=? n) with true by (symmetry; apply Z.leb_le; lia). by rewrite xorb_true_r.
    + destruct (decide (a = 0)) as [->|]; [by rewrite Z.bits_0|].
      rewrite (Z.bits_above_log2 a n); [done|lia|].
      apply Z.log2_lt_pow2; [lia|]. apply Z.lt_le_trans with (2 ^ w); [lia|]. apply Z.pow_le_mono_r; lia.
  - rewrite Z.ldiff_ones_r, Z.shiftr_div_pow2, Z.shiftl_mul_pow2 by lia.
    pose proof (Z.div_mod a (2 ^ k) ltac:(lia)). lia.
Qed.
