(* ===== verification/Utf8.v ===== *)
(** * UTF-8: [str::from_utf8] and [String::from_utf8_lossy]

    The code turns wire bytes into strings with the two standard-library
    decoders.  They share one scanner, which looks at the front of the input
    and reports either a well-formed sequence or the maximal ill-formed part
    that [from_utf8_lossy] replaces by U+FFFD. *)

From S2P Require Import Prelude.

Definition in_range (lo hi b : Z) : bool := (lo <=? b) && (b <=? hi).

(** A continuation byte: [b & 192 == 128]. *)
Definition is_cont (b : Z) : bool := in_range 128 191 b.

(** The second-byte ranges that exclude overlong forms, surrogates and code
    points above U+10FFFF. *)
Definition second_ok (b0 b1 : Z) : bool :=
  if b0 =? 224 then in_range 160 191 b1
  else if b0 =? 237 then in_range 128 159 b1
  else if b0 =? 240 then in_range 144 191 b1
  else if b0 =? 244 then in_range 128 143 b1
  else is_cont b1.

(** Width announced by a leading byte; 0 when it cannot lead. *)
Definition lead_width (b : Z) : nat :=
  if b <? 128 then 1
  else if in_range 194 223 b then 2
  else if in_range 224 239 b then 3
  else if in_range 240 244 b then 4
  else 0.

(** [safe_get]: bytes past the end read as 0. *)
Definition get0 (bs : list Z) (i : nat) : Z := nth i bs 0.

(** One step of the scanner: (is the sequence well formed, how many bytes). *)
Definition utf8_next (bs : list Z) : bool * nat :=
  let b0 := get0 bs 0 in
  match lead_width b0 with
  | 1%nat => (true, 1%nat)
  | 2%nat => if is_cont (get0 bs 1) then (true, 2%nat) else (false, 1%nat)
  | 3%nat =>
      if second_ok b0 (get0 bs 1) then
        if is_cont (get0 bs 2) then (true, 3%nat) else (false, 2%nat)
      else (false, 1%nat)
  | 4%nat =>
      if second_ok b0 (get0 bs 1) then
        if is_cont (get0 bs 2) then
          if is_cont (get0 bs 3) then (true, 4%nat) else (false, 3%nat)
        else (false, 2%nat)
      else (false, 1%nat)
  | _ => (false, 1%nat)
  end.

Fixpoint utf8_valid_aux (fuel : nat) (bs : list Z) : bool :=
  match fuel, bs with
  | _, [] => true
  | O, _ => false
  | S fuel, _ =>
      let '(ok, n) := utf8_next bs in
      ok && utf8_valid_aux fuel (drop n bs)
  end.

Definition utf8_valid (bs : list Z) : bool := utf8_valid_aux (length bs) bs.

(** U+FFFD. *)
Definition replacement : list Z := [239; 191; 189].

Fixpoint lossy_aux (fuel : nat) (bs : list Z) : list Z :=
  match fuel, bs with
  | _, [] => []
  | O, _ => []
  | S fuel, _ =>
      let '(ok, n) := utf8_next bs in
      (if ok then take n bs else replacement) ++ lossy_aux fuel (drop n bs)
  end.

Definition lossy (bs : list Z) : list Z := lossy_aux (length bs) bs.

(** [std::str::from_utf8(bs).ok()]. *)
Definition from_utf8 (bs : list Z) : option string :=
  if utf8_valid bs then Some (string_of_bytes bs) else None.

(** [String::from_utf8_lossy(bs).into_owned()]. *)
Definition from_utf8_lossy (bs : list Z) : string := string_of_bytes (lossy bs).

(** ** Facts *)

Lemma utf8_next_pos bs : (1 ≤ (utf8_next bs).2 ≤ 4)%nat.
Proof.
  unfold utf8_next.
  repeat case_match; cbn; lia.
Qed.

Lemma lossy_aux_valid fuel bs :
  utf8_valid_aux fuel bs = true → lossy_aux fuel bs = bs.
Proof.
  revert bs. induction fuel as [|fuel IH]; intros [|b bs]; try done.
  cbn [utf8_valid_aux lossy_aux].
  destruct (utf8_next (b :: bs)) as [ok n]. intros [-> Hv]%andb_true_iff.
  rewrite (IH _ Hv). apply take_drop.
Qed.

(** A valid text is its own lossy decoding. *)
Lemma from_utf8_lossy_valid bs :
  utf8_valid bs = true → from_utf8_lossy bs = string_of_bytes bs.
Proof. intros H. unfold from_utf8_lossy, lossy. by rewrite lossy_aux_valid. Qed.

Lemma from_utf8_Some bs s :
  bytes_ok bs → from_utf8 bs = Some s → bytes_of_string s = bs.
Proof.
  unfold from_utf8. intros Hb. destruct (utf8_valid bs); [|done].
  intros [= <-]. by apply bytes_of_string_of_bytes.
Qed.

(** ASCII bytes are valid UTF-8. *)
Lemma utf8_valid_ascii bs :
  Forall (λ b, 0 <= b < 128) bs → utf8_valid bs = true.
Proof.
  unfold utf8_valid. induction 1 as [|b bs Hb Hbs IH]; [done|].
  cbn [length utf8_valid_aux]. unfold utf8_next, get0; cbn [nth].
  unfold lead_width. destruct (b <? 128) eqn:E; bool_to_prop; [|lia]. cbn. exact IH.
Qed.

(** The scanner only looks at the bytes it reports. *)
Lemma utf8_next_local bs n rest :
  utf8_next bs = (true, n) → (n ≤ length bs)%nat → utf8_next (take n bs ++ rest) = (true, n).
Proof.
  intros H Hn. pose proof (utf8_next_pos bs) as Hp. rewrite H in Hp. cbn in Hp.
  assert (Hg : ∀ i, (i < n)%nat → get0 (take n bs ++ rest) i = get0 bs i).
  { intros i Hi. unfold get0. rewrite app_nth1 by (rewrite length_take; lia).
    rewrite <-(take_drop n bs) at 2. rewrite app_nth1; [done|rewrite length_take; lia]. }
  unfold utf8_next in *. rewrite (Hg 0%nat) by lia.
  destruct (lead_width (get0 bs 0)) as [|[|[|[|[|]]]]]; try done.
  - destruct (is_cont (get0 bs 1)) eqn:E1; [|done].
    injection H as <-. rewrite (Hg 1%nat), E1 by lia. done.
  - destruct (second_ok (get0 bs 0) (get0 bs 1)) eqn:E1; [|done].
    destruct (is_cont (get0 bs 2)) eqn:E2; [|done].
    injection H as <-. rewrite (Hg 1%nat), (Hg 2%nat), E1, E2 by lia. done.
  - destruct (second_ok (get0 bs 0) (get0 bs 1)) eqn:E1; [|done].
    destruct (is_cont (get0 bs 2)) eqn:E2; [|done].
    destruct (is_cont (get0 bs 3)) eqn:E3; [|done].
    injection H as <-. rewrite (Hg 1%nat), (Hg 2%nat), (Hg 3%nat), E1, E2, E3 by lia. done.
Qed.

(** A sequence reported well formed lies inside the input: the bytes read past
    the end are 0, which is no continuation byte. *)
Lemma utf8_next_inside bs n :
  bs ≠ [] → utf8_next bs = (true, n) → (n ≤ length bs)%nat.
Proof.
  intros Hne H.
  assert (Hz : ∀ i, (length bs ≤ i)%nat → get0 bs i = 0).
  { intros. unfold get0. by apply nth_overflow. }
  destruct (decide (n ≤ length bs)%nat) as [|Hgt]; [done|exfalso].
  assert (Hlen : (1 ≤ length bs)%nat) by (destruct bs; cbn; [done|lia]).
  unfold utf8_next in H.
  destruct (lead_width (get0 bs 0)) as [|[|[|[|[|]]]]]; try done.
  - injection H as <-. lia.
  - destruct (is_cont (get0 bs 1)) eqn:E1; [|done]. injection H as <-.
    rewrite Hz in E1 by lia. done.
  - destruct (second_ok (get0 bs 0) (get0 bs 1)); [|done].
    destruct (is_cont (get0 bs 2)) eqn:E2; [|done]. injection H as <-.
    rewrite Hz in E2 by lia. done.
  - destruct (second_ok (get0 bs 0) (get0 bs 1)); [|done].
    destruct (is_cont (get0 bs 2)); [|done].
    destruct (is_cont (get0 bs 3)) eqn:E3; [|done]. injection H as <-.
    rewrite Hz in E3 by lia. done.
Qed.

Lemma utf8_valid_aux_mono fuel fuel' bs :
  (fuel ≤ fuel')%nat → utf8_valid_aux fuel bs = true → utf8_valid_aux fuel' bs = true.
Proof.
  revert fuel' bs. induction fuel as [|fuel IH]; intros [|fuel'] [|b bs] Hle H; try done; [lia|].
  cbn [utf8_valid_aux] in *. destruct (utf8_next (b :: bs)) as [ok n].
  apply andb_true_iff in H as [-> H]. cbn. apply (IH fuel'); [lia|done].
Qed.

Lemma utf8_valid_seq seq n rest fuel :
  seq ≠ [] → utf8_next (seq ++ rest) = (true, n) → length seq = n →
  utf8_valid_aux fuel rest = true →
  utf8_valid_aux (n + fuel) (seq ++ rest) = true.
Proof.
  intros Hne Hnx Hlen Hr. destruct n as [|n]; [by destruct seq|].
  cbn [Nat.add]. destruct (seq ++ rest) as [|b tl] eqn:E; [by destruct seq|].
  cbn [utf8_valid_aux]. rewrite Hnx. cbn [andb]. rewrite <-E.
  rewrite drop_app_length' by done. eapply utf8_valid_aux_mono; [|exact Hr]. lia.
Qed.

(** The lossy decoding is always valid UTF-8. *)
Lemma lossy_valid bs : utf8_valid (lossy bs) = true.
Proof.
  assert (Haux : ∀ fuel bs, (length bs ≤ fuel)%nat →
    utf8_valid_aux (length (lossy_aux fuel bs)) (lossy_aux fuel bs) = true).
  { induction fuel as [|fuel IH]; intros [|b tl] Hf; try done.
    cbn [lossy_aux]. destruct (utf8_next (b :: tl)) as [ok n] eqn:E.
    pose proof (utf8_next_pos (b :: tl)) as Hp. rewrite E in Hp. cbn [snd] in Hp.
    assert (Hd : (length (drop n (b :: tl)) ≤ fuel)%nat)
      by (rewrite length_drop; cbn [length] in *; lia).
    specialize (IH _ Hd). rewrite length_app. destruct ok.
    - pose proof (utf8_next_inside _ _ (ltac:(done) : b :: tl ≠ []) E) as Hin.
      assert (Hl : length (take n (b :: tl)) = n) by (rewrite length_take; lia).
      rewrite Hl. apply utf8_valid_seq; [|by apply utf8_next_local|done|done].
      intros Hnil. rewrite Hnil in Hl. cbn in Hl. lia.
    - apply (utf8_valid_seq replacement 3%nat); done. }
  unfold utf8_valid, lossy. by apply Haux.
Qed.

#[export] Hint Resolve lossy_valid : noa.
