(* ===== verification/F64.v ===== *)
(** * Binary64 arithmetic

    The [f64] operations that the code uses, as the standard library specifies them,
    and the bounds that rounding keeps: a result lies between two representable numbers
    when the exact one does. *)

From Stdlib Require Import SpecFloat.
From S2P Require Import Prelude.

(** [as f64] of an unsigned integer, [*], [/], [+], [-], [<=], [max], and [as u64],
    which truncates and saturates. *)
Definition f64 (z : Z) : spec_float := binary_normalize 53 1024 z 0 false.
Definition f64_mul : spec_float → spec_float → spec_float := SFmul 53 1024.
Definition f64_div : spec_float → spec_float → spec_float := SFdiv 53 1024.
Definition f64_add : spec_float → spec_float → spec_float := SFadd 53 1024.
Definition f64_sub : spec_float → spec_float → spec_float := SFsub 53 1024.
Definition f64_le : spec_float → spec_float → bool := SFleb.
Definition f64_max (x y : spec_float) : spec_float := if SFltb x y then y else x.
Definition f64_as_u64 (x : spec_float) : Z :=
  match x with
  | S754_finite false m e => Z.min (if 0 <=? e then Z.pos m * 2 ^ e else Z.pos m / 2 ^ (- e)) (2 ^ 64 - 1)
  | S754_infinity false => 2 ^ 64 - 1
  | _ => 0
  end.

(** ** Values *)

(** All that is compared here is a multiple of [2 ^ - SCALE]. *)
Definition SCALE : Z := 4000.
Definition scaled (m e : Z) : Z := m * 2 ^ (e + SCALE).
Definition value (x : spec_float) : Z := match x with S754_finite false m e => scaled (Z.pos m) e | _ => 0 end.

(** Zero or a positive number, with its mantissa and its exponent in range. *)
Definition nonneg (x : spec_float) : Prop :=
  match x with S754_zero false => True | S754_finite false m e => Z.pos m < 2 ^ 53 ∧ - 1074 <= e <= 971 | _ => False end.

(** What can be represented, of the numbers from zero on. *)
Definition representable (b : Z) : Prop := ∃ m e, 0 <= m < 2 ^ 53 ∧ - 1074 <= e <= 971 ∧ b = scaled m e.

Lemma representable_nat n : 0 <= n < 2 ^ 53 → representable (scaled n 0).
Proof. intros. exists n, 0. split; [done|]. split; [lia|reflexivity]. Qed.

Lemma representable_0 : representable 0.
Proof. exists 0, 0. split; [lia|]. split; [lia|]. unfold scaled. by rewrite Z.mul_0_l. Qed.

Definition between (lo hi : Z) (x : spec_float) : Prop := nonneg x ∧ lo <= value x <= hi.

Lemma scaled_nonneg m e : 0 <= m → 0 <= scaled m e.
Proof. intros. unfold scaled. apply Z.mul_nonneg_nonneg; [done|]. by apply Z.pow_nonneg. Qed.

Lemma scaled_shift m e n : 0 <= n → - SCALE <= e → scaled (m * 2 ^ n) e = scaled m (e + n).
Proof. intros. unfold scaled. replace (e + n + SCALE) with (n + (e + SCALE)) by lia. rewrite (Z.pow_add_r 2 n) by lia. ring. Qed.

Lemma scaled_le m m' e : - SCALE <= e → m <= m' ↔ scaled m e <= scaled m' e.
Proof. intros. unfold scaled. apply Z.mul_le_mono_pos_r. apply Z.pow_pos_nonneg; lia. Qed.

Lemma scaled_lt m m' e : - SCALE <= e → m < m' ↔ scaled m e < scaled m' e.
Proof. intros. unfold scaled. apply Z.mul_lt_mono_pos_r. apply Z.pow_pos_nonneg; lia. Qed.

Lemma digits2_pos_log2 p : Z.pos (digits2_pos p) = Z.log2 (Z.pos p) + 1.
Proof. induction p as [p IH|p IH|]; cbn [digits2_pos]; rewrite ?Pos2Z.inj_succ, ?IH; [rewrite Pos2Z.inj_xI, Z.log2_succ_double by lia; lia|rewrite Pos2Z.inj_xO, Z.log2_double by lia; lia|done]. Qed.

Lemma digits_bounds p : 2 ^ (Z.pos (digits2_pos p) - 1) <= Z.pos p < 2 ^ Z.pos (digits2_pos p).
Proof. rewrite digits2_pos_log2, Z.add_simpl_r. pose proof (Z.log2_spec (Z.pos p)). replace (Z.log2 (Z.pos p) + 1) with (Z.succ (Z.log2 (Z.pos p))) by lia. lia. Qed.

(** ** Shifting right *)

Lemma iter_pos_iter {A} (f : A → A) p x : SpecFloat.iter_pos f p x = Pos.iter f x p.
Proof.
  revert x. induction p as [p IH|p IH|]; intros x; cbn [SpecFloat.iter_pos]; [| |done].
  - rewrite !IH. rewrite Pos.xI_succ_xO, Pos.iter_succ_r. replace (p~0)%positive with (p + p)%positive by lia. by rewrite Pos.iter_add.
  - rewrite !IH. replace (p~0)%positive with (p + p)%positive by lia. by rewrite Pos.iter_add.
Qed.

(** A record after [n] shifts of [m]. *)
Definition shifted (m n : Z) (r : shr_record) : Prop :=
  shr_m r = m / 2 ^ n ∧ (shr_r r || shr_s r) = negb (m mod 2 ^ n =? 0).

Lemma shr_1_shifted m n r : 0 <= m → 0 <= n → shifted m n r → shifted m (n + 1) (shr_1 r).
Proof.
  intros Hm Hn [Hq Hs]. destruct r as [q g s]. cbn in Hq, Hs. unfold shifted.
  assert (Hp : 0 < 2 ^ n) by (by apply Z.pow_pos_nonneg).
  assert (H0 : 0 <= q) by (rewrite Hq; by apply Z.div_pos).
  assert (Hd : m / 2 ^ (n + 1) = q / 2) by (rewrite Z.pow_add_r, <-Z.div_div by lia; by rewrite Hq).
  assert (Hr : m mod 2 ^ (n + 1) = m mod 2 ^ n + 2 ^ n * (q mod 2)) by (rewrite Z.pow_add_r, Z.rem_mul_r by lia; by rewrite Hq).
  pose proof (Z.mod_pos_bound m (2 ^ n) Hp). rewrite Hd, Hr.
  assert (Hstep : shr_m (shr_1 (Build_shr_record q g s)) = q / 2 ∧ shr_r (shr_1 (Build_shr_record q g s)) = (q mod 2 =? 1) ∧ shr_s (shr_1 (Build_shr_record q g s)) = g || s).
  { destruct q as [|[p|p|]|p]; cbn [shr_1 shr_m shr_r shr_s]; try lia; [done| | |done]; (split; [|split; [|done]]).
    - by rewrite Pos2Z.inj_xI, Z.mul_comm, Z.div_add_l.
    - symmetry. apply Z.eqb_eq. rewrite Pos2Z.inj_xI, Z.add_comm, Z.mul_comm. by rewrite Z.mod_add.
    - by rewrite Pos2Z.inj_xO, Z.mul_comm, Z.div_mul.
    - symmetry. apply Z.eqb_neq. by rewrite Pos2Z.inj_xO, Z.mul_comm, Z.mod_mul. }
  destruct Hstep as (-> & -> & ->). split; [done|]. rewrite Hs.
  assert (Hq2 : q mod 2 = 0 ∨ q mod 2 = 1) by (pose proof (Z.mod_pos_bound q 2 eq_refl); lia).
  destruct Hq2 as [-> | ->], (Z.eqb_spec (m mod 2 ^ n) 0) as [->|]; cbn [negb orb Z.eqb]; rewrite ?Z.mul_0_r, ?Z.mul_1_r, ?Z.add_0_r; try done.
  - by rewrite (proj2 (Z.eqb_neq _ _)).
  - by rewrite (proj2 (Z.eqb_neq _ _)) by lia.
  - by rewrite (proj2 (Z.eqb_neq _ _)) by lia.
Qed.

Lemma shr_shifted m e n : 0 <= m → 0 <= n → ∃ r, shr (Build_shr_record m false false) e n = (r, e + n) ∧ shifted m n r.
Proof.
  intros Hm Hn. destruct n as [|p|p]; [|clear Hn|lia].
  - exists (Build_shr_record m false false). split; [by rewrite Z.add_0_r|]. split; cbn; [by rewrite Z.div_1_r|by rewrite Z.mod_1_r].
  - eexists. split; [cbn [shr]; done|]. rewrite iter_pos_iter. induction p as [|p IH] using Pos.peano_ind.
    + cbn [Pos.iter]. apply (shr_1_shifted m 0); [done|done|]. split; cbn; [by rewrite Z.div_1_r|by rewrite Z.mod_1_r].
    + rewrite Pos.iter_succ, Pos2Z.inj_succ, <-Z.add_1_r. apply shr_1_shifted; [done|lia|done].
Qed.

(** Where a rounding leaves the exponent. *)
Definition target (p : positive) (e : Z) : Z := Z.max e (fexp 53 1024 (Z.pos (digits2_pos p) + e)).

Lemma target_spec p e : target p e = Z.max e (Z.max (Z.pos (digits2_pos p) + e - 53) (- 1074)).
Proof. done. Qed.

Lemma shr_fexp_shifted p e :
  ∃ r, shr_fexp 53 1024 (Z.pos p) e loc_Exact = (r, target p e) ∧ shifted (Z.pos p) (target p e - e) r.
Proof.
  unfold shr_fexp. cbn [shr_record_of_loc Zdigits2]. destruct (Z.le_gt_cases (fexp 53 1024 (Z.pos (digits2_pos p) + e)) e) as [H|H].
  - assert (Ht : target p e = e) by (unfold target; lia). rewrite Ht, Z.sub_diag. exists (Build_shr_record (Z.pos p) false false). split.
    + destruct (fexp 53 1024 (Z.pos (digits2_pos p) + e) - e) eqn:E; [done|lia|done].
    + split; cbn; [by rewrite Z.div_1_r|by rewrite Z.mod_1_r].
  - assert (Ht : target p e = fexp 53 1024 (Z.pos (digits2_pos p) + e)) by (unfold target; lia). rewrite <-Ht in *.
    destruct (shr_shifted (Z.pos p) e (target p e - e)) as (r & -> & Hr); [lia|lia|]. exists r. split; [f_equal; lia|done].
Qed.

(** ** Rounding *)

Lemma target_range p e : e <= target p e ∧ - 1074 <= target p e.
Proof. rewrite target_spec. lia. Qed.

(** A representable number lies on the grid a rounding rounds to, or below all the
    results it can have. *)
Lemma grid p e b : representable b → - SCALE <= e →
  let t := target p e in
  t = e ∨ (∃ k, b = scaled k t) ∨ (b < scaled (2 ^ 52) t ∧ 2 ^ 52 <= Z.pos p / 2 ^ (t - e)).
Proof.
  intros (m' & e' & Hm & He' & ->) He t. destruct (target_range p e) as [Ht1 Ht2]. fold t in Ht1, Ht2.
  destruct (Z.le_gt_cases t e') as [Hte|Hte].
  - right; left. exists (m' * 2 ^ (e' - t)). rewrite scaled_shift by (unfold SCALE in *; lia). f_equal. lia.
  - destruct (Z.eq_dec t e) as [|Hne]; [by left|]. right; right.
    assert (Htd : t = Z.pos (digits2_pos p) + e - 53) by (subst t; rewrite target_spec in *; lia). pose proof (digits_bounds p) as [Hp _]. split.
    + apply Z.lt_le_trans with (scaled (2 ^ 53) e'); [apply scaled_lt; unfold SCALE in *; lia|].
      unfold scaled. rewrite <-!Z.pow_add_r by (unfold SCALE in *; lia). apply Z.pow_le_mono_r; lia.
    + apply Z.div_le_lower_bound; [apply Z.pow_pos_nonneg; lia|]. rewrite <-Z.pow_add_r by lia. etransitivity; [|exact Hp].
      apply Z.pow_le_mono_r; lia.
Qed.

Lemma truncate_above p e lo : representable lo → - SCALE <= e → lo <= scaled (Z.pos p) e →
  lo <= scaled (Z.pos p / 2 ^ (target p e - e)) (target p e).
Proof.
  intros Hlo He Hle. destruct (target_range p e) as [Ht1 Ht2]. destruct (grid p e lo Hlo He) as [E|[[k ->]|[Hlt Hge]]]; set (t := target p e) in *.
  - rewrite E, Z.sub_diag. by rewrite Z.div_1_r.
  - apply scaled_le; [lia|]. replace (scaled k t) with (scaled (k * 2 ^ (t - e)) e) in Hle by (rewrite scaled_shift by lia; f_equal; lia).
    apply scaled_le in Hle; [|lia]. apply Z.div_le_lower_bound; [apply Z.pow_pos_nonneg; lia|]. lia.
  - etransitivity; [by apply Z.lt_le_incl|]. apply scaled_le; lia.
Qed.

Lemma truncate_below p e hi : - SCALE <= e → scaled (Z.pos p) e <= hi → scaled (Z.pos p / 2 ^ (target p e - e)) (target p e) <= hi.
Proof.
  intros He Hle. destruct (target_range p e) as [Ht1 Ht2]. set (t := target p e) in *. etransitivity; [|exact Hle].
  replace (scaled (Z.pos p / 2 ^ (t - e)) t) with (scaled (Z.pos p / 2 ^ (t - e) * 2 ^ (t - e)) e) by (rewrite scaled_shift by lia; f_equal; lia).
  apply scaled_le; [lia|]. rewrite Z.mul_comm. apply Z.mul_div_le, Z.pow_pos_nonneg; lia.
Qed.

(** The mantissa that rounding to nearest gives. *)
Lemma nearest_range m n r : shifted m n r →
  let q := round_nearest_even (shr_m r) (loc_of_shr_record r) in
  m / 2 ^ n <= q ∧ q <= m / 2 ^ n + (if m mod 2 ^ n =? 0 then 0 else 1).
Proof.
  intros [Hq Hs]. rewrite <-Hq. destruct r as [q [] []]; cbn in *; destruct (m mod 2 ^ n =? 0); try done; try destruct (Z.even q); lia.
Qed.

Lemma nearest_below p e hi r : representable hi → - SCALE <= e → scaled (Z.pos p) e <= hi → shifted (Z.pos p) (target p e - e) r →
  scaled (round_nearest_even (shr_m r) (loc_of_shr_record r)) (target p e) <= hi.
Proof.
  intros Hhi He Hle Hr. destruct (target_range p e) as [Ht1 Ht2]. destruct (nearest_range _ _ _ Hr) as [_ Hq].
  set (q := round_nearest_even _ _) in *. assert (H2 : 0 < 2 ^ (target p e - e)) by (apply Z.pow_pos_nonneg; lia).
  destruct (grid p e hi Hhi He) as [E|[[k ->]|[Hlt Hge]]]; set (t := target p e) in *.
  - rewrite E, Z.sub_diag, Z.div_1_r, Z.mod_1_r in Hq. cbn in Hq. rewrite E. etransitivity; [|exact Hle]. apply scaled_le; lia.
  - apply scaled_le; [lia|]. replace (scaled k t) with (scaled (k * 2 ^ (t - e)) e) in Hle by (rewrite scaled_shift by lia; f_equal; lia).
    apply scaled_le in Hle; [|lia]. pose proof (Z.div_mod (Z.pos p) (2 ^ (t - e))). pose proof (Z.mod_pos_bound (Z.pos p) _ H2).
    destruct (Z.eqb_spec (Z.pos p mod 2 ^ (t - e)) 0); nia.
  - pose proof (truncate_below p e hi He Hle) as H. fold t in H. assert (scaled (2 ^ 52) t <= scaled (Z.pos p / 2 ^ (t - e)) t) by (apply scaled_le; lia). lia.
Qed.

Lemma truncated_small p e : Z.pos p / 2 ^ (target p e - e) < 2 ^ 53.
Proof.
  destruct (target_range p e) as [Ht _]. pose proof (digits_bounds p) as [_ Hp]. rewrite target_spec in *.
  apply Z.div_lt_upper_bound; [apply Z.pow_pos_nonneg; lia|]. rewrite <-Z.pow_add_r by lia. apply Z.lt_le_trans with (1 := Hp). apply Z.pow_le_mono_r; lia.
Qed.

Lemma representable_small b : representable b → b < 2 ^ (1024 + SCALE).
Proof.
  intros (m & e & Hm & He & ->). apply Z.lt_le_trans with (scaled (2 ^ 53) e); [apply scaled_lt; unfold SCALE; lia|].
  unfold scaled. rewrite <-Z.pow_add_r by (unfold SCALE; lia). apply Z.pow_le_mono_r; lia.
Qed.

Lemma target_small p e hi : - SCALE <= e <= 971 → representable hi → scaled (Z.pos p) e <= hi → target p e <= 971.
Proof.
  intros He Hhi%representable_small Hle. pose proof (digits_bounds p) as [Hp _]. rewrite target_spec.
  enough (Z.pos (digits2_pos p) + e <= 1024) by lia. apply Z.nlt_ge. intros H.
  enough (2 ^ (1024 + SCALE) <= scaled (Z.pos p) e) by lia. etransitivity; [|apply scaled_le; [lia|exact Hp]].
  unfold scaled. rewrite <-Z.pow_add_r by lia. apply Z.pow_le_mono_r; lia.
Qed.

(** A rounding to nearest stays between the representable numbers the exact value is between. *)
Lemma round_between p e lo hi : - SCALE <= e <= 971 → representable lo → representable hi →
  lo <= scaled (Z.pos p) e <= hi → between lo hi (binary_round_aux 53 1024 false (Z.pos p) e loc_Exact).
Proof.
  intros He Hlo Hhi [Hl Hh]. unfold binary_round_aux. destruct (shr_fexp_shifted p e) as (r & -> & Hr).
  pose proof (nearest_below p e hi r Hhi (proj1 He) Hh Hr) as Hq. pose proof (truncate_above p e lo Hlo (proj1 He) Hl) as Ht.
  destruct (nearest_range _ _ _ Hr) as [Hge _]. destruct (target_range p e) as [Ht1 Ht2]. pose proof (target_small p e hi He Hhi Hh) as Ht3.
  set (t := target p e) in *. set (q := round_nearest_even _ _) in *.
  assert (Hql : lo <= scaled q t) by (etransitivity; [exact Ht|]; apply scaled_le; lia).
  assert (Hq0 : 0 <= q) by (etransitivity; [|exact Hge]; apply Z.div_pos; [lia|apply Z.pow_pos_nonneg; lia]).
  destruct q as [|q|q]; [|clear Hq0|lia].
  - unfold shr_fexp. assert (Hf : fexp 53 1024 (Zdigits2 0 + t) - t <= 0) by (unfold fexp, emin; cbn [Zdigits2]; lia).
    destruct (fexp 53 1024 (Zdigits2 0 + t) - t); [| |]; [by split|lia|by split].
  - destruct (shr_fexp_shifted q t) as (r' & -> & Hr' & _). rewrite Hr'. destruct (target_range q t) as [Hs1 Hs2].
    pose proof (truncate_above q t lo Hlo ltac:(lia) Hql) as Ha. pose proof (truncate_below q t hi ltac:(lia) Hq) as Hb.
    pose proof (target_small q t hi ltac:(lia) Hhi Hq) as Hs3. change (1024 - 53) with 971.
    assert (Hd : 0 <= Z.pos q / 2 ^ (target q t - t)) by (apply Z.div_pos; [lia|apply Z.pow_pos_nonneg; lia]).
    pose proof (truncated_small q t) as Hm. destruct (Z.pos q / 2 ^ (target q t - t)) as [|m|m]; [|clear Hd|lia]; [by split|].
    rewrite (proj2 (Z.leb_le _ _) Hs3). split; [cbn; lia|done].
Qed.

(** ** Operations *)

Lemma shl_align_spec p e t : ∃ p', shl_align p e t = (p', Z.min e t) ∧ (- SCALE <= Z.min e t → scaled (Z.pos p') (Z.min e t) = scaled (Z.pos p) e).
Proof.
  unfold shl_align. destruct (t - e) as [|d|d] eqn:E.
  - exists p. replace (Z.min e t) with e by lia. done.
  - exists p. replace (Z.min e t) with e by lia. done.
  - exists (Pos.iter xO p d). replace (Z.min e t) with t by lia. split; [done|]. intros Ht.
    assert (Hd : Z.pos (Pos.iter xO p d) = Z.pos p * 2 ^ Z.pos d).
    { clear. induction d as [|d IH] using Pos.peano_ind; [cbn [Pos.iter]; rewrite Pos2Z.inj_xO, Z.pow_1_r; lia|].
      rewrite Pos.iter_succ, Pos2Z.inj_xO, IH, Pos2Z.inj_succ, Z.pow_succ_r by lia. ring. }
    rewrite Hd, scaled_shift by lia. f_equal. lia.
Qed.

Lemma binary_round_between p e lo hi : - SCALE <= e <= 971 → representable lo → representable hi → lo <= scaled (Z.pos p) e <= hi →
  between lo hi (binary_round 53 1024 false p e).
Proof.
  intros He Hlo Hhi Hp. unfold binary_round. set (t := fexp 53 1024 _).
  assert (Ht : - 1074 <= t) by (subst t; unfold fexp, emin; lia). destruct (shl_align_spec p e t) as (p' & -> & Hs).
  rewrite <-Hs in Hp by (unfold SCALE in *; lia). apply round_between; [unfold SCALE in *; lia|done..].
Qed.

Lemma f64_between z lo hi : 0 <= z → representable lo → representable hi → lo <= scaled z 0 <= hi → between lo hi (f64 z).
Proof.
  intros Hz Hlo Hhi H. unfold f64, binary_normalize. destruct z as [|p|p]; [|clear Hz|lia]; [by split|].
  apply binary_round_between; [unfold SCALE; lia|done..].
Qed.

Lemma value_nonneg x : 0 <= value x.
Proof. destruct x as [| | |[] m e]; cbn; [done..|]. by apply scaled_nonneg. Qed.

(** A number of moderate size has a moderate exponent. *)
Lemma moderate m e k : - 1074 <= e → scaled (Z.pos m) e < 2 ^ (k + SCALE) → e < k.
Proof.
  intros He H. apply Z.nle_gt. intros Hk. enough (2 ^ (k + SCALE) <= scaled (Z.pos m) e) by lia.
  etransitivity; [|apply (scaled_le 1); unfold SCALE; lia]. unfold scaled. rewrite Z.mul_1_l. apply Z.pow_le_mono_r; lia.
Qed.

Lemma f64_mul_between x y lo hi : nonneg x → nonneg y → value x < 2 ^ (400 + SCALE) → value y < 2 ^ (400 + SCALE) →
  representable lo → representable hi → lo * 2 ^ SCALE <= value x * value y <= hi * 2 ^ SCALE → between lo hi (f64_mul x y).
Proof.
  assert (HS : 0 < 2 ^ SCALE) by (by apply Z.pow_pos_nonneg).
  intros Hx Hy Hvx Hvy Hlo Hhi H. destruct x as [[]| | |[] m e]; try done; destruct y as [[]| | |[] m' e']; try done;
    cbn [f64_mul SFmul xorb value] in *; rewrite ?Z.mul_0_l, ?Z.mul_0_r in H; try (split; [done|cbn [value]; nia]).
  cbn in Hx, Hy. apply moderate in Hvx, Hvy; [|lia..]. apply round_between; [unfold SCALE; lia|done|done|].
  assert (E : scaled (Z.pos m) e * scaled (Z.pos m') e' = scaled (Z.pos (m * m')) (e + e') * 2 ^ SCALE).
  { unfold scaled. rewrite Pos2Z.inj_mul. replace (e + SCALE) with (e + e' + SCALE - e') by lia.
    replace (Z.pos m * 2 ^ (e + e' + SCALE - e') * (Z.pos m' * 2 ^ (e' + SCALE))) with
      (Z.pos m * Z.pos m' * (2 ^ (e + e' + SCALE - e') * 2 ^ (e' + SCALE))) by ring.
    rewrite <-Z.pow_add_r by (unfold SCALE; lia). replace (e + e' + SCALE - e' + (e' + SCALE)) with (e + e' + SCALE + SCALE) by lia.
    rewrite Z.pow_add_r by (unfold SCALE; lia). ring. }
  rewrite E in H. nia.
Qed.

Lemma f64_add_between x y lo hi : nonneg x → nonneg y → representable lo → representable hi →
  lo <= value x + value y <= hi → between lo hi (f64_add x y).
Proof.
  intros Hx Hy Hlo Hhi H. destruct x as [[]| | |[] m e]; try done; destruct y as [[]| | |[] m' e']; try done; cbn [value] in H;
    rewrite ?Z.add_0_l, ?Z.add_0_r in H; try by split.
  cbn in Hx, Hy. cbn [f64_add SFadd]. destruct (shl_align_spec m e (Z.min e e')) as (a & -> & Ha), (shl_align_spec m' e' (Z.min e e')) as (b & -> & Hb).
  cbn [fst cond_Zopp]. replace (Z.min e (Z.min e e')) with (Z.min e e') in * by lia. replace (Z.min e' (Z.min e e')) with (Z.min e e') in * by lia.
  rewrite <-Ha, <-Hb in H by (unfold SCALE; lia). rewrite <-Pos2Z.inj_add. cbn [binary_normalize].
  apply binary_round_between; [unfold SCALE; lia|done|done|]. unfold scaled in *. rewrite Pos2Z.inj_add. lia.
Qed.

Lemma f64_as_u64_between x a b : between (scaled a 0) (scaled b 0) x → 0 <= a → b < 2 ^ 64 → a <= f64_as_u64 x <= b.
Proof.
  intros [Hx Hv] Ha Hb. unfold scaled in Hv. assert (HS : 0 < 2 ^ (0 + SCALE)) by (by apply Z.pow_pos_nonneg).
  destruct x as [[]| | |[] m e]; try done; cbn [value f64_as_u64] in *; [nia|]. cbn in Hx.
  destruct (Z.leb_spec 0 e) as [He|He].
  - unfold scaled in Hv. replace (e + SCALE) with (e + (0 + SCALE)) in Hv by lia. rewrite (Z.pow_add_r 2 e (0 + SCALE)), Z.mul_assoc in Hv by (unfold SCALE; lia).
    assert (Hm : a <= Z.pos m * 2 ^ e <= b) by (split; apply (Z.mul_le_mono_pos_r _ _ _ HS); apply Hv). lia.
  - unfold scaled in Hv. assert (HE : 0 < 2 ^ - e) by (apply Z.pow_pos_nonneg; lia). assert (Hd : 0 < 2 ^ (e + SCALE)) by (apply Z.pow_pos_nonneg; unfold SCALE; lia).
    assert (E : 2 ^ (0 + SCALE) = 2 ^ (- e) * 2 ^ (e + SCALE)) by (rewrite <-(Z.pow_add_r 2 (- e) (e + SCALE)) by (unfold SCALE; lia); f_equal; lia). rewrite E in Hv.
    assert (Hm : a * 2 ^ (- e) <= Z.pos m ∧ Z.pos m <= b * 2 ^ (- e)) by (split; apply (Z.mul_le_mono_pos_r _ _ _ Hd); rewrite <-Z.mul_assoc; apply Hv).
    pose proof (Z.div_le_lower_bound (Z.pos m) (2 ^ - e) a HE ltac:(rewrite Z.mul_comm; apply Hm)). pose proof (Z.div_le_upper_bound (Z.pos m) (2 ^ - e) b HE ltac:(rewrite Z.mul_comm; apply Hm)). lia.
Qed.

Lemma between_mono lo hi lo' hi' x : between lo hi x → lo' <= lo → hi <= hi' → between lo' hi' x.
Proof. intros [? ?] ? ?. split; [done|lia]. Qed.

(** Dividing by [2 ^ 64] is exact. *)
Lemma f64_div_2_64 x : nonneg x → scaled 1 0 <= value x <= scaled (2 ^ 64) 0 → between 0 (scaled 1 0) (f64_div x (f64 (2 ^ 64))).
Proof.
  intros Hx Hv. change (f64 (2 ^ 64)) with (S754_finite false (2 ^ 52)%positive 12). assert (H1 : 0 < scaled 1 0) by (unfold scaled; by apply Z.mul_pos_pos, Z.pow_pos_nonneg).
  destruct x as [[]| | |[] m e]; try done. cbn in Hx. destruct Hx as [Hm He]. cbn [value] in Hv.
  assert (He0 : - 53 < e).
  { apply Z.nle_gt. intros H. assert (scaled (Z.pos m) e < scaled 1 0); [|lia]. apply Z.lt_le_trans with (scaled (2 ^ 53) e).
    - apply scaled_lt; [unfold SCALE|]; lia.
    - unfold scaled. rewrite Z.mul_1_l, <-Z.pow_add_r by (unfold SCALE; lia). apply Z.pow_le_mono_r; unfold SCALE; lia. }
  assert (He1 : e < 65) by (apply (moderate m e 65); [lia|]; apply Z.le_lt_trans with (1 := proj2 Hv); unfold scaled; rewrite <-Z.pow_add_r by done; by apply Z.pow_lt_mono_r).
  cbn [f64_div SFdiv]. unfold f64_div, SFdiv, SFdiv_core_binary. set (e' := Z.min _ (e - 12)).
  assert (Hd : Zdigits2 (Z.pos m) <= 53).
  { cbn [Zdigits2]. apply Z.nlt_ge. intros H. pose proof (digits_bounds m) as [Hd _]. enough (2 ^ 53 <= Z.pos m) by lia. etransitivity; [|exact Hd]. apply Z.pow_le_mono_r; lia. }
  assert (Hd0 : 0 < Zdigits2 (Z.pos m)) by done.
  assert (He' : - 1200 <= e' <= e - 64) by (subst e'; change (Zdigits2 (Z.pos (2 ^ 52))) with 53; unfold fexp, emin; lia).
  assert (Hs : ∃ s, e - 12 - e' = Z.pos s ∧ 52 <= Z.pos s) by (exists (Z.to_pos (e - 12 - e')); lia). destruct Hs as (s & Hse & Hs). rewrite Hse.
  rewrite Z.shiftl_mul_pow2 by lia.
  assert (E : Z.div_eucl (Z.pos m * 2 ^ Z.pos s) (Z.pos (2 ^ 52)) = (Z.pos m * 2 ^ (Z.pos s - 52), 0)).
  { assert (Hp : Z.pos m * 2 ^ Z.pos s = Z.pos m * 2 ^ (Z.pos s - 52) * 2 ^ 52) by (rewrite <-Z.mul_assoc, <-Z.pow_add_r by lia; do 2 f_equal; lia).
    change (Z.pos (2 ^ 52)) with (2 ^ 52). rewrite Hp. pose proof (Z.div_mul (Z.pos m * 2 ^ (Z.pos s - 52)) (2 ^ 52)) as Hq.
    pose proof (Z.mod_mul (Z.pos m * 2 ^ (Z.pos s - 52)) (2 ^ 52)) as Hr. unfold Z.div in Hq. unfold Z.modulo in Hr.
    destruct (Z.div_eucl _ _) as [q r]. rewrite Hq, Hr by done. done. }
  rewrite E. change (new_location (Z.pos (2 ^ 52)) 0) with loc_Exact.
  assert (Hq : ∃ q, Z.pos m * 2 ^ (Z.pos s - 52) = Z.pos q) by (exists (Z.to_pos (Z.pos m * 2 ^ (Z.pos s - 52))); rewrite Z2Pos.id; [done|]; apply Z.mul_pos_pos, Z.pow_pos_nonneg; lia).
  destruct Hq as (q & Hq). rewrite Hq. cbn [xorb]. apply round_between; [unfold SCALE; lia|exact representable_0|apply representable_nat; lia|].
  rewrite <-Hq, scaled_shift by (unfold SCALE; lia). replace (e' + (Z.pos s - 52)) with (e - 64) by lia. split; [by apply scaled_nonneg|].
  apply (Z.mul_le_mono_pos_r _ _ (2 ^ 64)); [done|]. destruct Hv as [_ Hv]. unfold scaled in *.
  replace (e + SCALE) with (e - 64 + SCALE + 64) in Hv by lia. rewrite (Z.pow_add_r 2 _ 64) in Hv by (unfold SCALE; lia). lia.
Qed.
