(* ===== verification/Message.v ===== *)
(** * The channel V2 codec: [src/channel/message.rs], [hello.rs], [connect.rs], [error.rs]

    [Message] and its wire form, the frame parser, the Hello/Result helpers and
    the framed reader, writer and handshake over a byte stream. *)

From S2P Require Import Prelude Utf8.

(** ** Errors (error.rs) *)

Inductive ChannelError : Type :=
| Frame (m : string)
| Io (m : string)
| HandshakeRejected (m : string)
| UnexpectedContentType (ct : Z)
| AddressParse (m : string).

#[export] Instance ChannelError_eq_dec : EqDecision ChannelError.
Proof. solve_decision. Defined.

(** ** Constants (message.rs) *)

Definition MAGIC_V2 : list Z := [3; 6; 9; 12].
Definition MAGIC_UNKNOWN_VERSION : list Z := [3; 6; 9; 10].
Definition DATA_SECTION_V2 : nat := 20.
Definition MAX_DATA_SECTION : Z := Z.shiftl 1 20.

Definition CT_HELLO : Z := 0.
Definition CT_PING : Z := 1.
Definition CT_RESULT : Z := 2.
Definition CT_LATENCY : Z := 3.
Definition CT_LATENCY_RESPONSE : Z := 4.

Definition HDR_CONNECTION_ID : Z := 0.
Definition HDR_REPLY_FOR : Z := 1.
Definition HDR_RESULT_SUCCESS : Z := 2.
Definition HDR_HELLO_VERSION : Z := 4.
Definition HDR_ID : Z := 8.
Definition HDR_PROBE_TIME : Z := 128.

Definition REFLECTED_HEADER_BIT_MASK : Z := Z.shiftl 1 7.
Definition MAX_REFLECTED_HEADER : Z := Z.shiftl 1 8 - 1.
Definition HELLO_SEQUENCE : Z := -1.

(** ** Messages *)

Record Message : Type := mkMessage {
  content_type : Z;
  sequence : Z;
  headers : gmap Z (list Z);
  body : list Z
}.

#[export] Instance Message_eq_dec : EqDecision Message.
Proof. solve_decision. Defined.

(** [Message::new]. *)
Definition Message_new (ct : Z) (b : list Z) : Message :=
  mkMessage ct (-1) ∅ b.

(** [msg.headers.insert(k, v)] and [msg.sequence = s]. *)
Definition with_header (k : Z) (v : list Z) (m : Message) : Message :=
  mkMessage (content_type m) (sequence m) (<[k := v]> (headers m)) (body m).
Definition with_sequence (s : Z) (m : Message) : Message :=
  mkMessage (content_type m) s (headers m) (body m).

(** The domain of the Rust type: 32-bit fields, byte-valued vectors. *)
Record msg_ok (m : Message) : Prop := {
  ok_ct : i32_ok (content_type m);
  ok_seq : i32_ok (sequence m);
  ok_keys : map_Forall (λ k v, i32_ok k ∧ bytes_ok v) (headers m);
  ok_body : bytes_ok (body m)
}.

(** [u32::try_from(l.len())]; [None] is the panic of its [expect]. *)
Definition u32_len (l : list Z) : option Z :=
  let n := Z.of_nat (length l) in if n <=? u32_max then Some n else None.

(** One TLV header: key, length, value. *)
Definition marshal_header (kv : Z * list Z) : option (list Z) :=
  len ← u32_len kv.2;
  Some (i32_to_le kv.1 ++ u32_to_le len ++ kv.2).

Fixpoint marshal_headers (es : list (Z * list Z)) : option (list Z) :=
  match es with
  | [] => Some []
  | kv :: es =>
      h ← marshal_header kv;
      hs ← marshal_headers es;
      Some (h ++ hs)
  end.

(** [Message::marshal_v2]; [None] is a panic of one of its [expect]s. *)
Definition marshal_v2 (m : Message) : option (list Z) :=
  hdr ← marshal_headers (btree_entries (headers m));
  hlen ← u32_len hdr;
  blen ← u32_len (body m);
  Some (MAGIC_V2 ++ i32_to_le (content_type m) ++ i32_to_le (sequence m)
          ++ u32_to_le hlen ++ u32_to_le blen ++ hdr ++ body m).

(** [format!("{:02x?}", bytes)]. *)
Definition hex_digit (d : Z) : string :=
  String (ascii_of_byte (if d <? 10 then 48 + d else 87 + d)) "".
Definition hex2 (b : Z) : string := hex_digit (b / 16) +:+ hex_digit (b mod 16).
Definition hex_list (bs : list Z) : string :=
  "[" +:+ String.concat ", " (map hex2 bs) +:+ "]".

Definition frame_lengths (section : list Z) : result ChannelError (Z * Z) :=
  if decide (length section < DATA_SECTION_V2)%nat then
    Err (Frame ("short message section: " +:+ pretty (length section) +:+ " < "
                  +:+ pretty DATA_SECTION_V2))
  else if decide (slice 0 4 section = MAGIC_UNKNOWN_VERSION) then
    Err (Frame "router replied with unknown-version response (V2 not accepted)")
  else if negb (bool_decide (slice 0 4 section = MAGIC_V2)) then
    Err (Frame ("bad magic: " +:+ hex_list (slice 0 4 section)))
  else
    let headers_length := u32_of_le (slice 12 16 section) in
    let body_length := u32_of_le (slice 16 20 section) in
    if MAX_DATA_SECTION <? sat_add_u32 headers_length body_length then
      Err (Frame ("message too large: headers=" +:+ pretty headers_length
                    +:+ " body=" +:+ pretty body_length))
    else Ok (headers_length, body_length).

(** [parse_headers]: [rest] is [data[i..]]; every turn consumes at least the
    eight bytes of a key and a length, so [length data] turns suffice. *)
Fixpoint parse_headers_loop (fuel : nat) (rest : list Z) (out : gmap Z (list Z))
    : result ChannelError (gmap Z (list Z)) :=
  match rest, fuel with
  | [], _ => Ok out
  | _, O => Ok out
  | _, S fuel =>
      if decide (length rest < 8)%nat then Err (Frame "truncated header meta-data")
      else
        let key := i32_of_le (slice 0 4 rest) in
        let len := Z.to_nat (u32_of_le (slice 4 8 rest)) in
        if decide (length rest < 8 + len)%nat then Err (Frame "truncated header data")
        else parse_headers_loop fuel (drop (8 + len) rest)
               (<[key := slice 8 (8 + len) rest]> out)
  end.

Definition parse_headers (data : list Z) : result ChannelError (gmap Z (list Z)) :=
  parse_headers_loop (length data) data ∅.

Definition parse_frame (full : list Z) : result ChannelError Message :=
  '(hlen, blen) ← frame_lengths full;
  let hlen := Z.to_nat hlen in
  let blen := Z.to_nat blen in
  let total := (DATA_SECTION_V2 + hlen + blen)%nat in
  if decide (length full < total)%nat then
    Err (Frame ("short frame: " +:+ pretty (length full) +:+ " < " +:+ pretty total))
  else
    let ct := i32_of_le (slice 4 8 full) in
    let sq := i32_of_le (slice 8 12 full) in
    hs ← parse_headers (slice DATA_SECTION_V2 (DATA_SECTION_V2 + hlen) full);
    let b := slice (DATA_SECTION_V2 + hlen) total full in
    Ok (mkMessage ct sq hs b).

(** ** Hello and Result (hello.rs) *)

Definition new_hello (id_token : string) (hs : gmap Z (list Z)) : Message :=
  mkMessage CT_HELLO HELLO_SEQUENCE hs (bytes_of_string id_token).

Definition result_success (m : Message) : bool :=
  match headers m !! HDR_RESULT_SUCCESS with
  | Some v => bool_decide (head v = Some 1)
  | None => false
  end.

Definition result_message (m : Message) : string := from_utf8_lossy (body m).

(** ** The framed stream (connect.rs)

    The read side of a stream is the list of bytes still to come; the text of
    an I/O error belongs to the runtime and is a parameter. *)

Section stream.
Context (eof_text : string).

(** [read_exact] into a buffer of [n] bytes. *)
Definition read_exact (n : nat) (s : list Z) : result ChannelError (list Z * list Z) :=
  if decide (length s < n)%nat then Err (Io eof_text) else Ok (take n s, drop n s).

Definition read_message (s : list Z) : result ChannelError (Message * list Z) :=
  '(section, s) ← read_exact DATA_SECTION_V2 s;
  '(hlen, blen) ← frame_lengths section;
  '(rest, s) ← read_exact (Z.to_nat hlen + Z.to_nat blen) s;
  m ← parse_frame (section ++ rest);
  Ok (m, s).

(** [write_message]: appends the frame to what the peer will read, or fails
    with the transport's error.  [None] is the panic of [marshal_v2]. *)
Definition write_message (fail : option string) (out : list Z) (m : Message)
    : option (result ChannelError (list Z)) :=
  bytes ← marshal_v2 m;
  Some match fail with
       | Some e => Err (Io e)
       | None => Ok (out ++ bytes)
       end.

(** [connect_channel], from the response bytes of the router and the outcome
    of the Hello write: the result and the bytes sent. *)
Definition connect_channel (fail : option string) (incoming : list Z) (hello : Message)
    : option (result ChannelError (Message * list Z * list Z)) :=
  w ← write_message fail [] hello;
  Some (out ← w;
        '(resp, rest) ← read_message incoming;
        if negb (content_type resp =? CT_RESULT) then
          Err (UnexpectedContentType (content_type resp))
        else if negb (result_success resp) then
          Err (HandshakeRejected (result_message resp))
        else Ok (resp, rest, out)).

(** The loop of a reader: [n] frames in a row. *)
Fixpoint read_frames (n : nat) (s : list Z)
    : result ChannelError (list Message * list Z) :=
  match n with
  | O => Ok ([], s)
  | S n =>
      '(m, s) ← read_message s;
      '(ms, s) ← read_frames n s;
      Ok (m :: ms, s)
  end.
End stream.

(** A message of the Rust type with two headers, out of key order on purpose. *)
Definition sample : Message :=
  with_header 1000 [1; 0; 0; 0] (with_header 2 [1] (Message_new CT_RESULT [104; 105])).

Definition sample_bytes : list Z :=
  [3;6;9;12; 2;0;0;0; 255;255;255;255; 21;0;0;0; 2;0;0;0;
   2;0;0;0; 1;0;0;0; 1; 232;3;0;0; 4;0;0;0; 1;0;0;0; 104;105].


(** ** The codec's lemmas *)

Lemma u32_len_Some l n :
  u32_len l = Some n ↔ n = Z.of_nat (length l) ∧ Z.of_nat (length l) <= u32_max.
Proof.
  unfold u32_len. case_if; bool_to_prop.
  - split; [intros [= <-]; auto | by intros [-> _]].
  - split; [done | lia].
Qed.

Lemma u32_len_ok l n : u32_len l = Some n → u32_ok n.
Proof. intros [-> ?]%u32_len_Some. unfold u32_ok. lia. Qed.

Lemma length_u32_to_le z : length (u32_to_le z) = 4%nat.
Proof. apply length_le_bytes. Qed.
Lemma length_i32_to_le z : length (i32_to_le z) = 4%nat.
Proof. apply length_le_bytes. Qed.
#[export] Hint Rewrite length_u32_to_le length_i32_to_le : noa.

Lemma marshal_header_Some kv bs :
  marshal_header kv = Some bs ↔
  bs = i32_to_le kv.1 ++ u32_to_le (Z.of_nat (length kv.2)) ++ kv.2 ∧
  Z.of_nat (length kv.2) <= u32_max.
Proof.
  unfold marshal_header. destruct (u32_len kv.2) as [n|] eqn:E; cbn.
  - apply u32_len_Some in E as [-> ?]. split; [by intros [= <-] | by intros [-> _]].
  - split; [done|]. intros [_ H]. exfalso. unfold u32_len in E.
    destruct (_ <=? _) eqn:F; [done|]. bool_to_prop. lia.
Qed.

Lemma marshal_headers_cons kv es bs :
  marshal_headers (kv :: es) = Some bs →
  ∃ h hs, marshal_header kv = Some h ∧ marshal_headers es = Some hs ∧ bs = h ++ hs.
Proof.
  cbn. destruct (marshal_header kv) as [h|]; [|done].
  destruct (marshal_headers es) as [hs|]; [|done]. intros [= <-]. eauto.
Qed.

(** Slices of [k ++ l ++ v ++ rest] with [|k| = |l| = 4]. *)
Lemma slice_tlv (k l v rest : list Z) :
  length k = 4%nat → length l = 4%nat →
  slice 0 4 (k ++ l ++ v ++ rest) = k ∧
  slice 4 8 (k ++ l ++ v ++ rest) = l ∧
  slice 8 (8 + length v) (k ++ l ++ v ++ rest) = v ∧
  drop (8 + length v) (k ++ l ++ v ++ rest) = rest.
Proof.
  intros Hk Hl. split_and!.
  - rewrite slice_app_l by lia. by apply slice_all.
  - rewrite slice_app_r by lia. rewrite Hk, slice_app_l by lia. by apply slice_all.
  - rewrite slice_app_r by lia. rewrite Hk, slice_app_r by lia. rewrite Hl, slice_app_l by lia.
    apply slice_all. lia.
  - rewrite !(assoc_L (++)). rewrite drop_app_length'; [done|]. rewrite !length_app. lia.
Qed.

Lemma parse_headers_loop_S fuel l out :
  l ≠ [] →
  parse_headers_loop (S fuel) l out =
    if decide (length l < 8)%nat then Err (Frame "truncated header meta-data")
    else
      let len := Z.to_nat (u32_of_le (slice 4 8 l)) in
      if decide (length l < 8 + len)%nat then Err (Frame "truncated header data")
      else parse_headers_loop fuel (drop (8 + len) l)
             (<[i32_of_le (slice 0 4 l) := slice 8 (8 + len) l]> out).
Proof. by destruct l. Qed.

Lemma parse_headers_loop_step fuel k v rest out :
  i32_ok k → Z.of_nat (length v) <= u32_max →
  parse_headers_loop (S fuel) (i32_to_le k ++ u32_to_le (Z.of_nat (length v)) ++ v ++ rest) out
  = parse_headers_loop fuel rest (<[k := v]> out).
Proof.
  intros Hk Hv.
  destruct (slice_tlv (i32_to_le k) (u32_to_le (Z.of_nat (length v))) v rest) as (E1 & E2 & E3 & E4);
    [apply length_i32_to_le | apply length_u32_to_le |].
  set (l := i32_to_le k ++ _) in *.
  assert (Hl : length l = (8 + length v + length rest)%nat).
  { subst l. rewrite !length_app, length_i32_to_le, length_u32_to_le. lia. }
  assert (Hlen : Z.to_nat (u32_of_le (slice 4 8 l)) = length v).
  { rewrite E2, u32_le_roundtrip by (unfold u32_ok; lia). lia. }
  rewrite parse_headers_loop_S by (intros ->; cbn in Hl; lia).
  cbv zeta. rewrite Hlen. rewrite decide_False by lia. rewrite decide_False by lia.
  by rewrite E1, E3, E4, i32_le_roundtrip.
Qed.

Lemma parse_headers_entries es bs rest fuel out :
  Forall (λ kv : Z * list Z, i32_ok kv.1) es → marshal_headers es = Some bs →
  (length es ≤ fuel)%nat →
  parse_headers_loop fuel (bs ++ rest) out
  = parse_headers_loop (fuel - length es) rest (foldl (λ acc kv, <[kv.1 := kv.2]> acc) out es).
Proof.
  intros Hok. revert bs fuel out.
  induction Hok as [|[k v] es Hk _ IH]; intros bs fuel out Hm Hf.
  - injection Hm as <-. cbn. by rewrite Nat.sub_0_r.
  - apply marshal_headers_cons in Hm as (h & hs & Hh & Hhs & ->).
    apply marshal_header_Some in Hh as [-> Hlen]. cbn [fst snd] in *.
    destruct fuel as [|fuel]; [cbn in Hf; lia|].
    rewrite <-!(assoc_L (++)). rewrite parse_headers_loop_step by done.
    cbn [length foldl Nat.sub] in *. apply IH; [done|lia].
Qed.

Lemma marshal_headers_length es bs :
  marshal_headers es = Some bs → (8 * length es ≤ length bs)%nat.
Proof.
  revert bs. induction es as [|kv es IH]; intros bs Hm; [cbn; lia|].
  apply marshal_headers_cons in Hm as (h & hs & Hh & Hhs & ->).
  apply marshal_header_Some in Hh as [-> _]. specialize (IH _ Hhs).
  rewrite !length_app, length_i32_to_le, length_u32_to_le. cbn [length]. lia.
Qed.

Lemma parse_headers_marshal m bs :
  map_Forall (λ k v, i32_ok k ∧ bytes_ok v) m →
  marshal_headers (btree_entries m) = Some bs → parse_headers bs = Ok m.
Proof.
  intros Hok Hm. unfold parse_headers.
  rewrite <-(app_nil_r bs) at 2.
  rewrite (parse_headers_entries (btree_entries m)); [|..].
  - rewrite foldl_insert_btree. by destruct (length bs - _)%nat.
  - apply Forall_forall. intros [k v] Hkv. apply elem_of_btree_entries in Hkv.
    by destruct (Hok _ _ Hkv).
  - done.
  - apply marshal_headers_length in Hm. lia.
Qed.

(** The four bytes-long fields of a section. *)
Lemma section_slices (mg a b c d tail : list Z) :
  length mg = 4%nat → length a = 4%nat → length b = 4%nat → length c = 4%nat → length d = 4%nat →
  let full := mg ++ a ++ b ++ c ++ d ++ tail in
  slice 0 4 full = mg ∧ slice 4 8 full = a ∧ slice 8 12 full = b ∧
  slice 12 16 full = c ∧ slice 16 20 full = d ∧
  ∀ i j, slice (20 + i) (20 + j) full = slice i j tail.
Proof.
  intros Hm Ha Hb Hc Hd full. subst full. split_and!.
  - rewrite slice_app_l by lia. by apply slice_all.
  - rewrite slice_app_r, Hm, slice_app_l by lia. by apply slice_all.
  - rewrite slice_app_r, Hm, slice_app_r, Ha, slice_app_l by lia. by apply slice_all.
  - rewrite slice_app_r, Hm, slice_app_r, Ha, slice_app_r, Hb, slice_app_l by lia. by apply slice_all.
  - rewrite slice_app_r, Hm, slice_app_r, Ha, slice_app_r, Hb, slice_app_r, Hc, slice_app_l by lia.
    by apply slice_all.
  - intros i j. do 5 rewrite slice_app_r by lia. rewrite Hm, Ha, Hb, Hc, Hd. f_equal; lia.
Qed.

Lemma MAX_DATA_SECTION_eq : MAX_DATA_SECTION = 1048576.
Proof. reflexivity. Qed.

Lemma marshal_v2_Some m bs :
  marshal_v2 m = Some bs →
  ∃ hdr, marshal_headers (btree_entries (headers m)) = Some hdr ∧
    Z.of_nat (length hdr) <= u32_max ∧ Z.of_nat (length (body m)) <= u32_max ∧
    bs = MAGIC_V2 ++ i32_to_le (content_type m) ++ i32_to_le (sequence m)
           ++ u32_to_le (Z.of_nat (length hdr)) ++ u32_to_le (Z.of_nat (length (body m)))
           ++ hdr ++ body m.
Proof.
  unfold marshal_v2. destruct (marshal_headers _) as [hdr|]; [|done]. cbn.
  destruct (u32_len hdr) as [n|] eqn:E1; [|done]. cbn.
  destruct (u32_len (body m)) as [k|] eqn:E2; [|done]. cbn. intros [= <-].
  apply u32_len_Some in E1 as [-> ?]. apply u32_len_Some in E2 as [-> ?]. eauto 10.
Qed.

Lemma marshal_v2_length m hdr bs :
  marshal_headers (btree_entries (headers m)) = Some hdr → marshal_v2 m = Some bs →
  length bs = (20 + length hdr + length (body m))%nat.
Proof.
  intros Hh (hdr' & Hh' & _ & _ & ->)%marshal_v2_Some.
  rewrite Hh in Hh'. injection Hh' as <-.
  rewrite !length_app, ?length_i32_to_le, ?length_u32_to_le. cbn. lia.
Qed.

(** What [frame_lengths] sees at the front of a marshalled message. *)
Lemma frame_lengths_section a b hlen blen tail :
  u32_ok hlen → u32_ok blen →
  frame_lengths (MAGIC_V2 ++ i32_to_le a ++ i32_to_le b ++ u32_to_le hlen ++ u32_to_le blen ++ tail)
  = if MAX_DATA_SECTION <? sat_add_u32 hlen blen then
      Err (Frame ("message too large: headers=" +:+ pretty hlen +:+ " body=" +:+ pretty blen))
    else Ok (hlen, blen).
Proof.
  intros Hh Hb.
  destruct (section_slices MAGIC_V2 (i32_to_le a) (i32_to_le b) (u32_to_le hlen) (u32_to_le blen) tail)
    as (E0 & _ & _ & E3 & E4 & _); [by rewrite ?length_i32_to_le, ?length_u32_to_le..|].
  unfold frame_lengths. rewrite decide_False; cycle 1.
  { rewrite !length_app, ?length_i32_to_le, ?length_u32_to_le. unfold DATA_SECTION_V2. cbn. lia. }
  rewrite E0, E3, E4, !u32_le_roundtrip by done. done.
Qed.

Lemma frame_lengths_prefix section tail :
  (20 ≤ length section)%nat → frame_lengths (section ++ tail) = frame_lengths section.
Proof.
  intros Hl. unfold frame_lengths, DATA_SECTION_V2. rewrite length_app.
  destruct (decide (length section + length tail < 20)%nat); [lia|].
  destruct (decide (length section < 20)%nat); [lia|].
  rewrite !slice_app_l by lia. done.
Qed.

Lemma frame_lengths_Ok section h b :
  frame_lengths section = Ok (h, b) →
  (20 ≤ length section)%nat ∧ slice 0 4 section = MAGIC_V2 ∧
  h = u32_of_le (slice 12 16 section) ∧ b = u32_of_le (slice 16 20 section) ∧
  sat_add_u32 h b <= MAX_DATA_SECTION.
Proof.
  unfold frame_lengths, DATA_SECTION_V2.
  destruct (decide (length section < 20)%nat); [done|].
  destruct (decide (slice 0 4 section = MAGIC_UNKNOWN_VERSION)); [done|].
  destruct (bool_decide (slice 0 4 section = MAGIC_V2)) eqn:E; [|done]. cbn.
  apply bool_decide_eq_true in E. destruct (_ <? _) eqn:F; [done|].
  intros [= <- <-]. bool_to_prop. split_and!; auto; lia.
Qed.

(** ** Properties *)

Lemma parse_frame_app (m : Message) (bs junk : list Z) :
  msg_ok m → marshal_v2 m = Some bs →
  Z.of_nat (length bs) <= Z.of_nat DATA_SECTION_V2 + MAX_DATA_SECTION →
  parse_frame (bs ++ junk) = Ok m.
Proof.
  intros Hok Hm Hcap. pose proof Hm as (hdr & Hhdr & Hhl & Hbl & ->)%marshal_v2_Some.
  pose proof (marshal_v2_length _ _ _ Hhdr Hm) as Hlen. unfold DATA_SECTION_V2 in *.
  unfold parse_frame, DATA_SECTION_V2. rewrite <-!(assoc_L (++)).
  rewrite frame_lengths_section by (unfold u32_ok; lia).
  unfold sat_add_u32 in *. rewrite MAX_DATA_SECTION_eq in *.
  rewrite Z.min_l by (unfold u32_max; lia).
  destruct (_ <? _) eqn:Hlt; bool_to_prop; [lia|]. cbn [mbind result_bind].
  rewrite !Nat2Z.id.
  destruct (section_slices MAGIC_V2 (i32_to_le (content_type m)) (i32_to_le (sequence m))
    (u32_to_le (Z.of_nat (length hdr))) (u32_to_le (Z.of_nat (length (body m)))) (hdr ++ body m ++ junk))
    as (_ & E1 & E2 & _ & _ & E5); [by rewrite ?length_i32_to_le, ?length_u32_to_le..|].
  rewrite decide_False; cycle 1.
  { rewrite !length_app, ?length_i32_to_le, ?length_u32_to_le. cbn. lia. }
  rewrite E1, E2. destruct Hok as [Hct Hsq Hk Hb]. rewrite !i32_le_roundtrip by done.
  pose proof (E5 0%nat (length hdr)) as Ehdr.
  pose proof (E5 (length hdr) (length hdr + length (body m))%nat) as Ebody.
  rewrite Nat.add_0_r in Ehdr. rewrite Nat.add_assoc in Ebody. rewrite Ehdr, Ebody.
  rewrite (slice_app_l 0), slice_all by lia.
  rewrite (parse_headers_marshal (headers m) hdr) by done. cbn [mbind result_bind].
  rewrite slice_app_r, Nat.sub_diag, slice_app_l by lia. rewrite slice_all by lia. by destruct m.
Qed.

Lemma over_cap a b :
  0 <= a <= u32_max → 0 <= b → MAX_DATA_SECTION < a + b →
  (MAX_DATA_SECTION <? sat_add_u32 a b) = true.
Proof.
  rewrite MAX_DATA_SECTION_eq. unfold sat_add_u32, u32_max. intros. apply Z.ltb_lt. lia.
Qed.

Lemma under_cap a b :
  0 <= a <= u32_max → 0 <= b → sat_add_u32 a b <= MAX_DATA_SECTION → a + b <= MAX_DATA_SECTION.
Proof. rewrite MAX_DATA_SECTION_eq. unfold sat_add_u32, u32_max. intros. lia. Qed.

(** A frame over the cap is refused: the reader has a bound on what one frame
    can make it allocate. *)
Lemma parse_frame_over_cap (m : Message) (bs junk : list Z) :
  marshal_v2 m = Some bs →
  Z.of_nat DATA_SECTION_V2 + MAX_DATA_SECTION < Z.of_nat (length bs) →
  is_ok (parse_frame (bs ++ junk)) = false.
Proof.
  intros Hm Hcap. pose proof Hm as (hdr & Hhdr & Hhl & Hbl & Hbs)%marshal_v2_Some.
  rewrite (marshal_v2_length _ _ _ Hhdr Hm) in Hcap. clear Hm. subst bs.
  unfold parse_frame. rewrite <-!(assoc_L (++)).
  rewrite frame_lengths_section by (unfold u32_ok; lia).
  rewrite over_cap; [reflexivity|lia|lia|]. unfold DATA_SECTION_V2 in Hcap. lia.
Qed.

(** The parser allocates at most the cap and only reads inside the buffer. *)
Lemma parse_frame_bounds full m :
  bytes_ok full → parse_frame full = Ok m →
  ∃ h b, frame_lengths full = Ok (h, b) ∧ h + b <= MAX_DATA_SECTION ∧
    20 + h + b <= Z.of_nat (length full) ∧ Z.of_nat (length (body m)) = b.
Proof.
  intros Hbytes H. unfold parse_frame in H.
  destruct (frame_lengths full) as [[h b]|] eqn:E; [|done]. cbn [mbind result_bind] in H.
  destruct (decide _) as [|Hlen]; [done|].
  destruct (parse_headers _) as [hs|]; [|done]. injection H as <-.
  apply frame_lengths_Ok in E as (Hl & _ & Hh & Hb & Hcap). unfold DATA_SECTION_V2 in *.
  assert (Hbound : ∀ i, (i + 4 ≤ length full)%nat →
    0 <= u32_of_le (slice i (i + 4) full) <= u32_max).
  { intros i Hi. pose proof (le_val_bound (slice i (i + 4) full)) as Hv.
    rewrite length_slice in Hv by lia. replace (i + 4 - i)%nat with 4%nat in Hv by lia.
    change (256 ^ Z.of_nat 4) with 4294967296 in Hv. unfold u32_of_le, u32_max.
    assert (bytes_ok (slice i (i + 4) full)) as Hs
      by (unfold slice; by apply Forall_take, Forall_drop).
    specialize (Hv Hs). lia. }
  pose proof (Hbound 12%nat ltac:(lia)) as H1. pose proof (Hbound 16%nat ltac:(lia)) as H2.
  change (12 + 4)%nat with 16%nat in H1. change (16 + 4)%nat with 20%nat in H2.
  rewrite <-Hh in H1. rewrite <-Hb in H2.
  assert (h + b <= MAX_DATA_SECTION) by (apply under_cap; [done|lia|done]).
  exists h, b. split_and!; [done|done|lia|].
  cbn [body]. rewrite length_slice by lia. lia.
Qed.

(** C32. Round trip and cap: [parse_frame] reads a message of the Rust type back
    unchanged from its [marshal_v2] bytes, whatever bytes follow the frame in
    the buffer, when the frame respects the one-megabyte cap, and refuses every
    frame over the cap. *)
Theorem parse_frame_marshal (m : Message) (bs junk : list Z) :
  msg_ok m → marshal_v2 m = Some bs →
  if bool_decide (Z.of_nat (length bs) <= Z.of_nat DATA_SECTION_V2 + MAX_DATA_SECTION)
  then parse_frame (bs ++ junk) = Ok m
  else is_ok (parse_frame (bs ++ junk)) = false.
Proof.
  intros Hok Hm. case_bool_decide as H.
  - by apply parse_frame_app.
  - apply (parse_frame_over_cap m); [done|lia].
Qed.

(** Truncation is detected: no strict prefix of a marshalled frame parses,
    so a reader never takes a partial frame for a message. *)
Theorem parse_frame_truncated (m : Message) (bs : list Z) (k : nat) :
  marshal_v2 m = Some bs → (k < length bs)%nat →
  ∃ e, parse_frame (take k bs) = Err (Frame e).
Proof.
  intros Hm Hk. pose proof Hm as (hdr & Hhdr & Hhl & Hbl & Hbs)%marshal_v2_Some.
  pose proof (marshal_v2_length _ _ _ Hhdr Hm) as Hlen.
  assert (Hkl : length (take k bs) = k) by (rewrite length_take; lia).
  unfold parse_frame. destruct (decide (k < 20)%nat) as [Hshort|Hlong].
  { unfold frame_lengths, DATA_SECTION_V2. rewrite decide_True by lia. eexists; reflexivity. }
  rewrite <-(frame_lengths_prefix (take k bs) (drop k bs)), take_drop by lia.
  rewrite Hbs, frame_lengths_section by (unfold u32_ok; lia). rewrite <-Hbs.
  destruct (_ <? _); cbn [mbind result_bind]; [eexists; reflexivity|].
  rewrite !Nat2Z.id, Hkl. unfold DATA_SECTION_V2.
  rewrite decide_True by lia. eexists; reflexivity.
Qed.

Lemma parse_frame_truncated_witness :
  marshal_v2 (Message_new CT_PING [7]) = Some [3;6;9;12; 1;0;0;0; 255;255;255;255; 0;0;0;0; 1;0;0;0; 7]
  ∧ ∃ e, parse_frame (take 20 [3;6;9;12; 1;0;0;0; 255;255;255;255; 0;0;0;0; 1;0;0;0; 7]) = Err (Frame e).
Proof.
  split; [vm_compute; reflexivity|].
  apply (parse_frame_truncated (Message_new CT_PING [7])); [vm_compute; reflexivity | cbn; lia].
Defined.

Lemma sample_ok : msg_ok sample.
Proof. constructor; by_compute. Qed.

Lemma parse_frame_marshal_witness :
  marshal_v2 sample = Some sample_bytes ∧ parse_frame (sample_bytes ++ [9; 9]) = Ok sample.
Proof.
  split; [vm_compute; reflexivity|].
  apply (parse_frame_marshal sample sample_bytes [9; 9]); [apply sample_ok | vm_compute; reflexivity].
Defined.

Lemma read_message_marshal eof m bs rest :
  msg_ok m → marshal_v2 m = Some bs →
  Z.of_nat (length bs) <= Z.of_nat DATA_SECTION_V2 + MAX_DATA_SECTION →
  read_message eof (bs ++ rest) = Ok (m, rest).
Proof.
  intros Hok Hm Hcap. pose proof Hm as (hdr & Hhdr & Hhl & Hbl & Hbs)%marshal_v2_Some.
  pose proof (marshal_v2_length _ _ _ Hhdr Hm) as Hlen.
  unfold read_message, read_exact, DATA_SECTION_V2.
  rewrite decide_False by (rewrite length_app; lia). cbn [mbind result_bind].
  assert (Hfl : frame_lengths (take 20 (bs ++ rest)) = Ok (Z.of_nat (length hdr), Z.of_nat (length (body m)))).
  { rewrite <-(frame_lengths_prefix _ (drop 20 (bs ++ rest))), take_drop
      by (rewrite length_take, length_app; lia).
    rewrite Hbs, <-!(assoc_L (++)), frame_lengths_section by (unfold u32_ok; lia).
    destruct (_ <? _) eqn:E; [exfalso|done]. bool_to_prop.
    unfold sat_add_u32, DATA_SECTION_V2 in *. lia. }
  rewrite Hfl. cbn [mbind result_bind]. rewrite !Nat2Z.id.
  rewrite decide_False by (rewrite length_drop, length_app; lia).
  assert (Hfull : take 20 (bs ++ rest) ++ take (length hdr + length (body m)) (drop 20 (bs ++ rest)) = bs).
  { rewrite <-(firstn_skipn 20 bs) at 3. rewrite take_app_le, drop_app_le by lia. f_equal.
    rewrite take_app_length'; [done|]. rewrite length_drop. lia. }
  cbn [mbind result_bind]. rewrite Hfull.
  pose proof (parse_frame_app m bs [] Hok Hm Hcap) as Hp. rewrite app_nil_r in Hp.
  rewrite Hp. cbn [mbind result_bind]. do 2 f_equal. rewrite drop_drop.
  rewrite drop_app_length'; [done|lia].
Qed.

(** Frames are self-delimiting: reading the stream right after a
    marshalled message yields that message and leaves exactly the bytes that
    follow it, for any sequence of messages written back to back. *)
Theorem read_frames_marshal (eof : string) (ms : list Message) (bss : list (list Z)) (rest : list Z) :
  Forall2 (λ m bs, msg_ok m ∧ marshal_v2 m = Some bs ∧
    Z.of_nat (length bs) <= Z.of_nat DATA_SECTION_V2 + MAX_DATA_SECTION) ms bss →
  read_frames eof (length ms) (concat bss ++ rest) = Ok (ms, rest).
Proof.
  induction 1 as [|m bs ms bss (Hok & Hm & Hcap) _ IH]; [done|].
  cbn [length read_frames concat]. rewrite <-(assoc_L (++)).
  rewrite (read_message_marshal eof m) by done. cbn [mbind result_bind]. by rewrite IH.
Qed.

Lemma read_frames_marshal_witness :
  read_frames "eof" 2 (concat [sample_bytes; sample_bytes] ++ [1]) = Ok ([sample; sample], [1]).
Proof.
  apply (read_frames_marshal "eof" [sample; sample] [sample_bytes; sample_bytes] [1]).
  assert (H : msg_ok sample ∧ marshal_v2 sample = Some sample_bytes ∧
    Z.of_nat (length sample_bytes) <= Z.of_nat DATA_SECTION_V2 + MAX_DATA_SECTION).
  { split_and!; [apply sample_ok | vm_compute; reflexivity | vm_compute; discriminate]. }
  constructor; [apply H|]. constructor; [apply H|]. constructor.
Defined.

(** The dialer's handshake, on every well-formed reply: any content type
    but Result is refused as such, a Result whose success header is not 1 is
    refused with its body as the reason, and only a successful Result is
    accepted; the bytes sent are the marshalled Hello. *)
Theorem connect_channel_reply (eof : string) (hello resp : Message) (hbytes rbytes rest : list Z) :
  marshal_v2 hello = Some hbytes →
  msg_ok resp → marshal_v2 resp = Some rbytes →
  Z.of_nat (length rbytes) <= Z.of_nat DATA_SECTION_V2 + MAX_DATA_SECTION →
  connect_channel eof None (rbytes ++ rest) hello = Some
    (if bool_decide (content_type resp ≠ CT_RESULT) then
       Err (UnexpectedContentType (content_type resp))
     else match headers resp !! HDR_RESULT_SUCCESS with
          | Some (1 :: _) => Ok (resp, rest, hbytes)
          | _ => Err (HandshakeRejected (from_utf8_lossy (body resp)))
          end).
Proof.
  intros Hh Hok Hr Hcap. unfold connect_channel, write_message. rewrite Hh.
  cbn [mbind option_bind result_bind app]. rewrite (read_message_marshal eof resp) by done.
  cbn [mbind result_bind]. f_equal.
  case_bool_decide as Hct.
  - destruct (_ =? _) eqn:E; bool_to_prop; done.
  - destruct (_ =? _) eqn:E; bool_to_prop; [|done]. cbn [negb].
    unfold result_success, result_message.
    destruct (headers resp !! HDR_RESULT_SUCCESS) as [[|v vs]|]; [done| |done].
    case_bool_decide as Hv; cbn in *.
    + by injection Hv as ->.
    + destruct v as [|[]|]; done.
Qed.

Lemma connect_channel_reply_witness :
  connect_channel "eof" None (sample_bytes ++ []) (Message_new CT_HELLO [])
  = Some (Ok (sample, [], [3;6;9;12; 0;0;0;0; 255;255;255;255; 0;0;0;0; 0;0;0;0])).
Proof.
  rewrite (connect_channel_reply "eof" (Message_new CT_HELLO []) sample
    [3;6;9;12; 0;0;0;0; 255;255;255;255; 0;0;0;0; 0;0;0;0] sample_bytes []).
  - vm_compute; reflexivity.
  - vm_compute; reflexivity.
  - apply sample_ok.
  - vm_compute; reflexivity.
  - vm_compute; discriminate.
Defined.
