(* ===== verification/EdgeWire.v ===== *)
(** * Edge messages: [src/edge/dial.rs], [bind/wire.rs], [data/wire.rs], [data/inspect.rs], [error.rs]

    The content types and header ids of the edge protocol, the message
    builders, the reply classifiers, the fixed-width header readers and the
    ConnInspect response codec. *)

From S2P Require Import Prelude Utf8 Message.

(** ** Errors (edge/error.rs) *)

Inductive EdgeError : Type :=
| IdentityLoad (m : string)
| TlsSetup (m : string)
| AuthHttp (status : Z) (code message : string)
| AuthResponse (m : string)
| MfaRequired
| TotpProviderRequired
| ServicesHttp (status : Z) (code message : string)
| ServicesResponse (m : string)
| ServiceUpdatesHttp (status : Z) (code message : string)
| ServiceUpdatesResponse (m : string)
| ControllerUnavailable
| SessionHttp (status : Z) (code message : string)
| SessionResponse (m : string)
| SessionCertHttp (status : Z) (code message : string)
| SessionCertResponse (m : string)
| OidcHttp (status : Z) (step message : string)
| OidcResponse (m : string)
| OidcNotSupported
| NotAuthenticated
| ServiceNotFound (name : string)
| NoTlsEdgeRouter
| ChannelTls (m : string)
| Channel (e : ChannelError)
| DialRejected (reason : string)
| BindRejected (reason : string)
| AcceptStartFailed (reason : string)
| ListenerClosed
| ChannelClosed
| WriteAfterClose
| Crypto (m : string)
| UnsupportedCrypto
| ConnectTimedOut (service : string) (timeout : Z)
| BindTimedOut (service : string) (timeout : Z)
| ExtJwtReauthUnsupported
| UpdateTokenFailed (reason : string)
| TotpProvider (m : string)
| TotpCodeRejected
| TotpEnrollmentRequired
| TotpEnrollmentCodeRejected
| ServiceConfig (config_type message : string)
| HostForwardConfig (m : string).

#[export] Instance EdgeError_eq_dec : EqDecision EdgeError.
Proof. solve_decision. Defined.

Definition DIAL_INVALID_SESSION_REASON : string := "invalid session".

Definition is_dial_invalid_session (e : EdgeError) : bool :=
  match e with
  | DialRejected reason => bool_decide (reason = DIAL_INVALID_SESSION_REASON)
  | _ => false
  end.

(** ** Content types and headers (dial.rs, bind/wire.rs, data/mod.rs, inspect.rs) *)

Definition CT_CONNECT : Z := 60783.
Definition CT_STATE_CONNECTED : Z := 60784.
Definition CT_STATE_CLOSED : Z := 60785.
Definition CT_DATA : Z := 60786.
Definition CT_DIAL : Z := 60787.
Definition CT_DIAL_SUCCESS : Z := 60788.
Definition CT_DIAL_FAILED : Z := 60789.
Definition CT_BIND : Z := 60790.
Definition CT_UNBIND : Z := 60791.
Definition CT_CONN_INSPECT_REQUEST : Z := 60798.
Definition CT_CONN_INSPECT_RESPONSE : Z := 60799.
Definition CT_BIND_SUCCESS : Z := 60800.
Definition CT_UPDATE_TOKEN_SUCCESS : Z := 60801.
Definition CT_UPDATE_TOKEN_FAILURE : Z := 60802.
Definition CT_UPDATE_TOKEN : Z := 60803.

Definition HDR_CONN_ID : Z := 1000.
Definition HDR_SEQ : Z := 1001.
Definition HDR_PUBLIC_KEY : Z := 1003.
Definition HDR_CALLER_ID : Z := 1008.
Definition HDR_CRYPTO_METHOD : Z := 1009.
Definition HDR_FLAGS : Z := 1010.
Definition HDR_APPDATA : Z := 1011.
Definition HDR_ROUTER_PROVIDED_CONN_ID : Z := 1012.
Definition HDR_LISTENER_ID : Z := 1021.
Definition HDR_CONN_TYPE : Z := 1022.
Definition HDR_SUPPORTS_INSPECT : Z := 1023.
Definition HDR_SUPPORTS_BIND_SUCCESS : Z := 1024.
Definition HDR_CONNECTION_MARKER : Z := 1025.
Definition HDR_CIRCUIT_ID : Z := 1026.
Definition HDR_USE_XGRESS_TO_SDK : Z := 1028.

Definition CRYPTO_METHOD_LIBSODIUM : Z := 0.
Definition FLAG_FIN : Z := 1.
Definition FLAG_MULTIPART : Z := 4.
Definition FLAG_MULTIPART_MSG : Z := 16.

(** ** Builders *)

(** The crypto headers [build_connect] and [build_bind] add for a key. *)
Definition with_pubkey (pubkey : option (list Z)) (m : Message) : Message :=
  match pubkey with
  | Some pk => with_header HDR_CRYPTO_METHOD [CRYPTO_METHOD_LIBSODIUM] (with_header HDR_PUBLIC_KEY pk m)
  | None => m
  end.

Definition build_connect (conn_id : Z) (token marker : string) (pubkey : option (list Z))
    (caller_id : option string) (app_data : option (list Z)) : Message :=
  let msg := Message_new CT_CONNECT (bytes_of_string token) in
  let msg := with_header HDR_CONN_ID (u32_to_le conn_id) msg in
  let msg := with_header HDR_CONNECTION_MARKER (bytes_of_string marker) msg in
  let msg := with_header HDR_USE_XGRESS_TO_SDK [0] msg in
  let msg := with_pubkey pubkey msg in
  let msg :=
    match caller_id with
    | Some name =>
        if bool_decide (name = ""%string) then msg
        else with_header HDR_CALLER_ID (bytes_of_string name) msg
    | None => msg
    end in
  match app_data with
  | Some bytes => with_header HDR_APPDATA bytes msg
  | None => msg
  end.

Definition build_data (conn_id : Z) (data : list Z) (first : bool) : Message :=
  let msg := with_header HDR_CONN_ID (u32_to_le conn_id) (Message_new CT_DATA data) in
  if first then with_header HDR_FLAGS (u32_to_le FLAG_MULTIPART) msg else msg.

Definition build_state_closed (conn_id : Z) : Message :=
  with_header HDR_CONN_ID (u32_to_le conn_id) (Message_new CT_STATE_CLOSED []).

Definition build_bind (conn_id : Z) (token listener_id : string) (pubkey : option (list Z)) : Message :=
  let msg := Message_new CT_BIND (bytes_of_string token) in
  let msg := with_header HDR_CONN_ID (u32_to_le conn_id) msg in
  let msg := with_header HDR_SUPPORTS_INSPECT [1] msg in
  let msg := with_header HDR_SUPPORTS_BIND_SUCCESS [1] msg in
  let msg := with_header HDR_USE_XGRESS_TO_SDK [0] msg in
  let msg := with_header HDR_ROUTER_PROVIDED_CONN_ID [1] msg in
  let msg := with_header HDR_LISTENER_ID (bytes_of_string listener_id) msg in
  with_pubkey pubkey msg.

Definition build_unbind (conn_id : Z) (token : string) : Message :=
  with_header HDR_CONN_ID (u32_to_le conn_id) (Message_new CT_UNBIND (bytes_of_string token)).

Definition build_dial_success (bind_conn_id child_conn_id : Z) : Message :=
  with_header HDR_CONN_ID (u32_to_le bind_conn_id)
    (Message_new CT_DIAL_SUCCESS (u32_to_le child_conn_id)).

Definition build_dial_failed (conn_id : Z) (reason : string) : Message :=
  with_header HDR_CONN_ID (u32_to_le conn_id) (Message_new CT_DIAL_FAILED (bytes_of_string reason)).

Definition build_update_token (token : list Z) : Message := Message_new CT_UPDATE_TOKEN token.

Definition build_latency_probe (now_nanos : Z) : Message :=
  with_header HDR_PROBE_TIME (u64_to_le now_nanos) (Message_new CT_LATENCY []).

(** The 16 random bytes of [new_listener_id] with the version and variant bits
    forced, printed as [8-4-4-4-12] hexadecimal digits. *)
Definition new_listener_id (b : list Z) : string :=
  let b := <[6%nat := Z.lor (Z.land (nth 6 b 0) 15) 64]> b in
  let b := <[8%nat := Z.lor (Z.land (nth 8 b 0) 63) 128]> b in
  let part i j := String.concat "" (map hex2 (slice i j b)) in
  part 0%nat 4%nat +:+ "-" +:+ part 4%nat 6%nat +:+ "-" +:+ part 6%nat 8%nat
    +:+ "-" +:+ part 8%nat 10%nat +:+ "-" +:+ part 10%nat 16%nat.

(** ** Classifiers *)

Definition classify_dial_reply (reply : Message) : result EdgeError Message :=
  if content_type reply =? CT_STATE_CONNECTED then Ok reply
  else if content_type reply =? CT_STATE_CLOSED then
    Err (DialRejected (from_utf8_lossy (body reply)))
  else Err (Channel (UnexpectedContentType (content_type reply))).

Definition classify_bind_reply (reply : Message) : result EdgeError unit :=
  if content_type reply =? CT_STATE_CONNECTED then Ok tt
  else if content_type reply =? CT_STATE_CLOSED then
    Err (BindRejected (from_utf8_lossy (body reply)))
  else Err (Channel (UnexpectedContentType (content_type reply))).

Definition classify_update_token_reply (reply : Message) : result EdgeError unit :=
  if content_type reply =? CT_UPDATE_TOKEN_SUCCESS then Ok tt
  else if content_type reply =? CT_UPDATE_TOKEN_FAILURE then
    Err (UpdateTokenFailed (from_utf8_lossy (body reply)))
  else Err (UpdateTokenFailed
    ("invalid content type " +:+ pretty (content_type reply) +:+ ", expected one of ["
       +:+ pretty CT_UPDATE_TOKEN_SUCCESS +:+ ", " +:+ pretty CT_UPDATE_TOKEN_FAILURE +:+ "]")).

(** ** Header readers (data/wire.rs): exactly four bytes, or nothing *)

Definition header_u32 (msg : Message) (key : Z) : option Z :=
  v ← headers msg !! key;
  if decide (length v = 4%nat) then Some (u32_of_le v) else None.

Definition header_i32 (msg : Message) (key : Z) : option Z :=
  v ← headers msg !! key;
  if decide (length v = 4%nat) then Some (i32_of_le v) else None.

(** ** ConnInspect (data/inspect.rs) *)

Inductive ConnType : Type := Invalid | Dial | Bind | Unknown.

#[export] Instance ConnType_eq_dec : EqDecision ConnType.
Proof. solve_decision. Defined.

(** [None] is the [unreachable!] arm. *)
Definition conn_type_byte (t : ConnType) : option Z :=
  match t with
  | Invalid => Some 0
  | Dial => Some 1
  | Bind => Some 2
  | Unknown => None
  end.

(** The test of the reflection loop. *)
Definition reflected (k : Z) : bool :=
  negb (Z.land k REFLECTED_HEADER_BIT_MASK =? 0) && (k <=? MAX_REFLECTED_HEADER).

(** The loop [for (&k, v) in &request.headers]. *)
Definition reflect_headers (request msg : Message) : Message :=
  foldl (λ m kv, if reflected kv.1 then with_header kv.1 kv.2 m else m) msg
    (btree_entries (headers request)).

Definition build_conn_inspect_response (conn_id : Z) (conn_type : ConnType) (b : list Z)
    (request : Message) : option Message :=
  t ← conn_type_byte conn_type;
  let msg := Message_new CT_CONN_INSPECT_RESPONSE b in
  let msg := with_header HDR_CONN_ID (u32_to_le conn_id) msg in
  let msg := with_header HDR_CONN_TYPE [t] msg in
  let msg := with_header HDR_REPLY_FOR (i32_to_le (sequence request)) msg in
  Some (reflect_headers request msg).

Definition dquote : string := String (ascii_of_byte 34) EmptyString.

(** The body [spawn_conn_inspect_reply] sends. *)
Definition conn_inspect_body (conn_id : Z) (conn_type : ConnType) : string :=
  if bool_decide (conn_type = Invalid) then "invalid conn id [" +:+ pretty conn_id +:+ "]"
  else "{" +:+ dquote +:+ "id" +:+ dquote +:+ ":" +:+ pretty conn_id +:+ "}".

(** ** Lemmas *)

Lemma headers_with_header k v m : headers (with_header k v m) = <[k := v]> (headers m).
Proof. done. Qed.

Lemma with_header_other k v m :
  content_type (with_header k v m) = content_type m ∧ sequence (with_header k v m) = sequence m ∧
  body (with_header k v m) = body m.
Proof. done. Qed.

Lemma header_u32_to_le msg key z :
  u32_ok z → headers msg !! key = Some (u32_to_le z) → header_u32 msg key = Some z.
Proof.
  intros Hz Hh. unfold header_u32. rewrite Hh. cbn [mbind option_bind].
  rewrite decide_True by apply length_le_bytes. by rewrite u32_le_roundtrip.
Qed.

Lemma header_i32_to_le msg key z :
  i32_ok z → headers msg !! key = Some (i32_to_le z) → header_i32 msg key = Some z.
Proof.
  intros Hz Hh. unfold header_i32. rewrite Hh. cbn [mbind option_bind].
  rewrite decide_True by apply length_le_bytes. by rewrite i32_le_roundtrip.
Qed.

Lemma header_u32_Some msg key z :
  header_u32 msg key = Some z →
  ∃ v, headers msg !! key = Some v ∧ length v = 4%nat ∧ z = u32_of_le v.
Proof.
  unfold header_u32. destruct (headers msg !! key) as [v|]; [|done]. cbn.
  case_decide; [|done]. intros [= <-]. eauto.
Qed.

(** Every request of the edge protocol carries its connection id. *)
Lemma build_data_conn_id c d f : headers (build_data c d f) !! HDR_CONN_ID = Some (u32_to_le c).
Proof. unfold build_data. destruct f; rewrite ?headers_with_header; by simplify_map_eq. Qed.

Lemma build_connect_conn_id c t mk pk cid ad :
  headers (build_connect c t mk pk cid ad) !! HDR_CONN_ID = Some (u32_to_le c).
Proof.
  unfold build_connect, with_pubkey.
  destruct pk, cid as [n|], ad; try case_bool_decide; rewrite ?headers_with_header; by simplify_map_eq.
Qed.

(** The reflection loop keeps the content type, sequence and body, and gives a
    key the request's value exactly when it is reflected. *)
Lemma reflect_fold l m :
  NoDup l.*1 →
  let r := foldl (λ m kv, if reflected kv.1 then with_header kv.1 kv.2 m else m) m l in
  content_type r = content_type m ∧ sequence r = sequence m ∧ body r = body m ∧
  ∀ k, headers r !! k = match (list_to_map l : gmap Z (list Z)) !! k with
                        | Some v => if reflected k then Some v else headers m !! k
                        | None => headers m !! k
                        end.
Proof.
  revert m. induction l as [|[k v] l IH]; intros m Hnd; cbn.
  - by split_and!.
  - apply NoDup_cons in Hnd as [Hk Hnd].
    destruct (IH (if reflected k then with_header k v m else m) Hnd) as (E1 & E2 & E3 & E4).
    split_and!.
    + rewrite E1. by destruct (reflected k).
    + rewrite E2. by destruct (reflected k).
    + rewrite E3. by destruct (reflected k).
    + intros k'. rewrite E4. destruct (decide (k' = k)) as [->|Hne].
      * rewrite lookup_insert_eq. rewrite (not_elem_of_list_to_map_1 _ _ Hk).
        destruct (reflected k); [|done]. by rewrite headers_with_header, lookup_insert_eq.
      * rewrite lookup_insert_ne by done. destruct (list_to_map l !! k') as [v'|] eqn:El.
        -- destruct (reflected k'); [done|]. destruct (reflected k); [|done].
           by rewrite headers_with_header, lookup_insert_ne.
        -- destruct (reflected k); [|done]. by rewrite headers_with_header, lookup_insert_ne.
Qed.

Lemma list_to_map_btree {V} (m : gmap Z V) : list_to_map (btree_entries m) = m.
Proof.
  transitivity (list_to_map (map_to_list m) : gmap Z V); [|apply list_to_map_to_list].
  apply list_to_map_proper; [apply btree_entries_NoDup | apply btree_entries_perm].
Qed.

Lemma reflect_headers_spec request m k :
  headers (reflect_headers request m) !! k =
    match headers request !! k with
    | Some v => if reflected k then Some v else headers m !! k
    | None => headers m !! k
    end.
Proof.
  unfold reflect_headers.
  destruct (reflect_fold (btree_entries (headers request)) m) as (_ & _ & _ & E);
    [apply btree_entries_NoDup|].
  rewrite E. by rewrite list_to_map_btree.
Qed.

(** ** Properties *)

(** The ConnInspect response: for the three types the classifier produces,
    every header is either one the responder computed (the connection id, the
    type byte and [ReplyFor] of the request's sequence, which no request header
    can override) or a copy of a request header whose key is in 128..255 or is
    negative with bit 7 set, and no other request header is copied. *)
Theorem conn_inspect_response_headers (conn_id : Z) (t : ConnType) (b : list Z) (request : Message) :
  t ≠ Unknown →
  ∃ r tb, build_conn_inspect_response conn_id t b request = Some r ∧
    conn_type_byte t = Some tb ∧
    content_type r = CT_CONN_INSPECT_RESPONSE ∧ body r = b ∧
    headers r !! HDR_CONN_ID = Some (u32_to_le conn_id) ∧
    headers r !! HDR_CONN_TYPE = Some [tb] ∧
    headers r !! HDR_REPLY_FOR = Some (i32_to_le (sequence request)) ∧
    (∀ k, k ≠ HDR_CONN_ID → k ≠ HDR_CONN_TYPE → k ≠ HDR_REPLY_FOR →
       headers r !! k = if reflected k then headers request !! k else None).
Proof.
  intros Ht. unfold build_conn_inspect_response.
  assert (∃ tb, conn_type_byte t = Some tb) as [tb Htb] by (destruct t; eauto; done).
  rewrite Htb. cbn [mbind option_bind].
  set (m := with_header HDR_REPLY_FOR _ _).
  exists (reflect_headers request m), tb.
  destruct (reflect_fold (btree_entries (headers request)) m) as (E1 & _ & E3 & _);
    [apply btree_entries_NoDup|].
  assert (Hm : ∀ k, headers m !! k =
    if decide (k = HDR_REPLY_FOR) then Some (i32_to_le (sequence request))
    else if decide (k = HDR_CONN_TYPE) then Some [tb]
    else if decide (k = HDR_CONN_ID) then Some (u32_to_le conn_id) else None).
  { intros k. subst m. rewrite !headers_with_header. cbn [headers Message_new].
    repeat case_decide; subst; by simplify_map_eq. }
  split_and!; try done.
  - rewrite reflect_headers_spec. cbn. rewrite Hm. by destruct (headers request !! _).
  - rewrite reflect_headers_spec. cbn. rewrite Hm. by destruct (headers request !! _).
  - rewrite reflect_headers_spec. cbn. rewrite Hm. by destruct (headers request !! _).
  - intros k H1 H2 H3. rewrite reflect_headers_spec, Hm.
    rewrite !decide_False by done.
    destruct (headers request !! k); by destruct (reflected k).
Qed.

Lemma conn_inspect_response_headers_witness :
  Bind ≠ Unknown ∧
  ∃ r tb, build_conn_inspect_response 7 Bind [1] (with_header 1022 [3] (with_header (-1) [9] (Message_new 60798 []))) = Some r
    ∧ conn_type_byte Bind = Some tb ∧ headers r !! HDR_CONN_TYPE = Some [tb] ∧ headers r !! (-1) = Some [9].
Proof.
  split; [done|].
  destruct (conn_inspect_response_headers 7 Bind [1]
    (with_header 1022 [3] (with_header (-1) [9] (Message_new 60798 []))) ltac:(done))
    as (r & tb & H1 & H2 & _ & _ & _ & H3 & _ & H4).
  exists r, tb. split_and!; [exact H1|exact H2|exact H3|].
  rewrite (H4 (-1)) by done. vm_compute. reflexivity.
Defined.

(** The reflected keys, spelled out: the predicate also covers the negative
    keys with bit 7 set, which a reading as the range 128..255 leaves out. *)
Lemma reflected_spec k :
  i32_ok k → reflected k = true ↔ Z.testbit k 7 = true ∧ (k < 0 ∨ 128 <= k <= 255).
Proof.
  unfold i32_ok, reflected. intros Hk.
  assert (Hland : Z.land k REFLECTED_HEADER_BIT_MASK = if Z.testbit k 7 then 128 else 0).
  { change REFLECTED_HEADER_BIT_MASK with (2 ^ 7). apply Z.bits_inj'. intros n Hn.
    rewrite Z.land_spec, Z.pow2_bits_eqb by lia.
    destruct (7 =? n) eqn:E; bool_to_prop.
    - subst n. by destruct (Z.testbit k 7).
    - rewrite andb_false_r. destruct (Z.testbit k 7); [|by rewrite Z.bits_0].
      change 128 with (2 ^ 7). rewrite Z.pow2_bits_false by lia. done. }
  rewrite Hland. change MAX_REFLECTED_HEADER with 255.
  destruct (Z.testbit k 7) eqn:T; cbn.
  - rewrite Z.leb_le. split; [|intros [_ ?]; lia]. intros Hle. split; [done|].
    destruct (decide (k < 0)); [by left|right]. split; [|done].
    destruct (decide (128 <= k)); [done|exfalso].
    assert (Z.testbit k 7 = false); [|congruence].
    apply Z.bits_above_log2; [lia|]. destruct (decide (k = 0)) as [->|]; [cbn; lia|].
    apply Z.log2_lt_pow2; lia.
  - split; [done|]. by intros [? _].
Qed.
