(* ===== verification/ChannelState.v ===== *)
(** * The shared channel state: [src/edge/data/mod.rs], [data/channel_state.rs], [data/inspect.rs]

    The mux maps, the sequence and connection-id allocators, the latency
    accumulator and the teardown, with the interleavings of a teardown with the
    other tasks of the channel. *)

From S2P Require Import Prelude Utf8 Message EdgeWire.

(** ** State (data/mod.rs)

    Senders are named by a number: [oneshot] waiters and [mpsc] queues have
    names of their own.  [wire] is what the write half has put on the
    transport; [last_read] is a number of milliseconds since [base]. *)

Record chan : Type := mkChan {
  waiters : gmap Z nat;
  conns : gmap Z nat;
  binds : gmap Z nat;
  seq : Z;
  next_id : Z;
  last_read : Z;
  closed : bool;
  latency_sum : Z;
  latency_count : Z;
  wire : list Message
}.

(** [ChannelState::new]. *)
Definition chan_new : chan := mkChan ∅ ∅ ∅ 0 0 0 false 0 0 [].

(** Field updates. *)
Definition set_waiters (w : gmap Z nat) (c : chan) : chan :=
  mkChan w (conns c) (binds c) (seq c) (next_id c) (last_read c) (closed c) (latency_sum c) (latency_count c) (wire c).
Definition set_conns (m : gmap Z nat) (c : chan) : chan :=
  mkChan (waiters c) m (binds c) (seq c) (next_id c) (last_read c) (closed c) (latency_sum c) (latency_count c) (wire c).
Definition set_binds (m : gmap Z nat) (c : chan) : chan :=
  mkChan (waiters c) (conns c) m (seq c) (next_id c) (last_read c) (closed c) (latency_sum c) (latency_count c) (wire c).
Definition set_seq (s : Z) (c : chan) : chan :=
  mkChan (waiters c) (conns c) (binds c) s (next_id c) (last_read c) (closed c) (latency_sum c) (latency_count c) (wire c).
Definition set_next_id (n : Z) (c : chan) : chan :=
  mkChan (waiters c) (conns c) (binds c) (seq c) n (last_read c) (closed c) (latency_sum c) (latency_count c) (wire c).
Definition set_last_read (t : Z) (c : chan) : chan :=
  mkChan (waiters c) (conns c) (binds c) (seq c) (next_id c) t (closed c) (latency_sum c) (latency_count c) (wire c).
Definition set_closed (b : bool) (c : chan) : chan :=
  mkChan (waiters c) (conns c) (binds c) (seq c) (next_id c) (last_read c) b (latency_sum c) (latency_count c) (wire c).
Definition set_latency (s n : Z) (c : chan) : chan :=
  mkChan (waiters c) (conns c) (binds c) (seq c) (next_id c) (last_read c) (closed c) s n (wire c).
Definition set_wire (w : list Message) (c : chan) : chan :=
  mkChan (waiters c) (conns c) (binds c) (seq c) (next_id c) (last_read c) (closed c) (latency_sum c) (latency_count c) w.

(** ** Connection ids (channel_state.rs) *)

Definition MIN_CONN_ID : Z := 0.
Definition MAX_CONN_ID : Z := u32_max / 2 - 1.

(** [alloc_conn_id]: [c] is the counter right after [fetch_add(1)], which is
    also the candidate.  [None] when [fuel] turns did not suffice. *)
Fixpoint alloc_loop (fuel : nat) (c min_id max_id : Z) (in_use : Z → bool) : option Z :=
  match fuel with
  | O => None
  | S fuel =>
      if in_use c then alloc_loop fuel (wrap_u32 (c + 1)) min_id max_id in_use
      else if (c <? min_id) || (max_id <=? c) then
        alloc_loop fuel (wrap_u32 (min_id + 1)) min_id max_id in_use
      else Some c
  end.

(** The result and the new value of the counter are the same number. *)
Definition alloc_conn_id (fuel : nat) (counter min_id max_id : Z) (in_use : Z → bool) : option Z :=
  alloc_loop fuel (wrap_u32 (counter + 1)) min_id max_id in_use.

Definition conn_id_in_use (c : chan) (id : Z) : bool :=
  bool_decide (is_Some (conns c !! id)) || bool_decide (is_Some (binds c !! id)).

(** Twice the number of ids in use, and one more turn for each rewind. *)
Definition next_conn_id_fuel (c : chan) : nat :=
  (2 * (size (dom (conns c) ∪ dom (binds c) : gset Z)) + 2)%nat.

Definition next_conn_id (c : chan) : option (Z * chan) :=
  id ← alloc_conn_id (next_conn_id_fuel c) (next_id c) MIN_CONN_ID MAX_CONN_ID (conn_id_in_use c);
  Some (id, set_next_id id c).

#[global] Arguments next_conn_id : simpl never.

(** ** Sequences, latency, liveness *)

Definition next_seq (c : chan) : Z * chan :=
  let s := wrap_i32 (seq c + 1) in (s, set_seq s c).

Definition record_latency (nanos : Z) (c : chan) : chan :=
  set_latency (wrap_u64 (latency_sum c + nanos)) (wrap_u64 (latency_count c + 1)) c.

Definition mean_latency_nanos (c : chan) : Z :=
  if latency_count c =? 0 then u64_max else latency_sum c / latency_count c.

Definition latency_sample_count (c : chan) : Z := latency_count c.

(** [now] is [elapsed_millis(base)]. *)
Definition note_read (now : Z) (c : chan) : chan := set_last_read now c.
Definition millis_since_last_read (now : Z) (c : chan) : Z := sat_sub now (last_read c).
Definition is_closed (c : chan) : bool := closed c.

(** ** Registration *)

Definition insert_waiter (s : Z) (w : nat) (c : chan) : chan := set_waiters (<[s := w]> (waiters c)) c.
Definition remove_waiter (s : Z) (c : chan) : chan := set_waiters (delete s (waiters c)) c.
Definition remove_conn (id : Z) (c : chan) : chan := set_conns (delete id (conns c)) c.
Definition remove_bind (id : Z) (c : chan) : chan := set_binds (delete id (binds c)) c.

(** The [closed] test and the insertion are made under the map's lock. *)
Definition register_conn (id : Z) (q : nat) (c : chan) : chan :=
  if closed c then c else set_conns (<[id := q]> (conns c)) c.
Definition register_bind (id : Z) (q : nat) (c : chan) : chan :=
  if closed c then c else set_binds (<[id := q]> (binds c)) c.

(** ** Teardown *)

(** [mark_closed] run without interference. *)
Definition mark_closed (c : chan) : chan :=
  if closed c then c
  else set_binds ∅ (set_conns ∅ (set_waiters ∅ (set_closed true c))).

(** [mark_closed] in its atomic steps: the compare-and-set, then one lock per
    map.  [Idle] also stands for the calls that lost the compare-and-set. *)
Inductive teardown : Type := Idle | Swapped | WaitersCleared | ConnsCleared | Finished.

#[export] Instance teardown_eq_dec : EqDecision teardown.
Proof. solve_decision. Defined.

Inductive teardown_step : chan * teardown → chan * teardown → Prop :=
| td_swap c : closed c = false → teardown_step (c, Idle) (set_closed true c, Swapped)
| td_waiters c : teardown_step (c, Swapped) (set_waiters ∅ c, WaitersCleared)
| td_conns c : teardown_step (c, WaitersCleared) (set_conns ∅ c, ConnsCleared)
| td_binds c : teardown_step (c, ConnsCleared) (set_binds ∅ c, Finished).

(** What any other task of the channel may do in between. *)
Inductive task_step : chan → chan → Prop :=
| ts_register_conn c id q : task_step c (register_conn id q c)
| ts_register_bind c id q : task_step c (register_bind id q c)
| ts_insert_waiter c s w : task_step c (insert_waiter s w c)
| ts_remove_waiter c s : task_step c (remove_waiter s c)
| ts_remove_conn c id : task_step c (remove_conn id c)
| ts_remove_bind c id : task_step c (remove_bind id c)
| ts_next_seq c : task_step c (next_seq c).2
| ts_next_conn_id c id c' : next_conn_id c = Some (id, c') → task_step c c'
| ts_record_latency c n : task_step c (record_latency n c)
| ts_note_read c t : task_step c (note_read t c)
| ts_write c m : task_step c (set_wire (wire c ++ [m]) c).

Inductive system_step : chan * teardown → chan * teardown → Prop :=
| sys_teardown s s' : teardown_step s s' → system_step s s'
| sys_task c c' t : task_step c c' → system_step (c, t) (c', t).

(** ** ConnInspect classification (inspect.rs) *)

Definition classify_conn_inspect (c : chan) (conn_id : Z) : ConnType :=
  if bool_decide (is_Some (conns c !! conn_id)) then Dial
  else if bool_decide (is_Some (binds c !! conn_id)) then Bind
  else Invalid.

(** ** Token push and dial rejection: the message sequences *)

(** [send_dial_failed]: the frame it writes and the state after taking a
    sequence number. *)
Definition dial_failed_reply (conn_id dial_seq : Z) (reason : string) (c : chan) : Message * chan :=
  let msg := with_header HDR_REPLY_FOR (i32_to_le dial_seq) (build_dial_failed conn_id reason) in
  let '(s, c) := next_seq c in
  (with_sequence s msg, c).

(** The teardown invariant. *)
Definition teardown_inv (s : chan * teardown) : Prop :=
  (closed s.1 = true ↔ s.2 ≠ Idle) ∧
  (s.2 = ConnsCleared ∨ s.2 = Finished → conns s.1 = ∅) ∧
  (s.2 = Finished → binds s.1 = ∅).

(** ** The allocator's lemmas *)

Section alloc.
Context (min_id max_id : Z) (in_use : Z → bool).

Lemma alloc_loop_mono fuel fuel' c id :
  (fuel ≤ fuel')%nat → alloc_loop fuel c min_id max_id in_use = Some id →
  alloc_loop fuel' c min_id max_id in_use = Some id.
Proof.
  revert fuel' c. induction fuel as [|fuel IH]; intros fuel' c Hle H; [done|].
  destruct fuel' as [|fuel']; [lia|]. cbn in *.
  repeat case_if; try done; apply IH; auto; lia.
Qed.

Lemma alloc_loop_sound fuel c id :
  u32_ok c → alloc_loop fuel c min_id max_id in_use = Some id →
  in_use id = false ∧ min_id <= id < max_id ∧ u32_ok id.
Proof.
  revert c. induction fuel as [|fuel IH]; intros c Hc H; [done|]. cbn in H.
  destruct (in_use c) eqn:E; [eapply IH, H; auto with noa|].
  destruct ((c <? min_id) || (max_id <=? c)) eqn:F; [eapply IH, H; auto with noa|].
  injection H as <-. bool_to_prop. split_and!; auto; lia.
Qed.

(** Skipping [k] ids in a row that are in use. *)
Lemma alloc_loop_skip k fuel c :
  (∀ i : nat, (i < k)%nat → in_use (wrap_u32 (c + Z.of_nat i)) = true) → u32_ok c →
  alloc_loop (k + fuel) c min_id max_id in_use
  = alloc_loop fuel (wrap_u32 (c + Z.of_nat k)) min_id max_id in_use.
Proof.
  revert c. induction k as [|k IH]; intros c Hk Hc.
  - cbn. by rewrite Z.add_0_r, wrap_u32_id.
  - cbn [Nat.add alloc_loop].
    pose proof (Hk 0%nat ltac:(lia)) as H0. cbn in H0. rewrite Z.add_0_r, wrap_u32_id in H0 by done.
    rewrite H0, IH; [|intros i Hi|auto with noa].
    + f_equal. unfold wrap_u32. rewrite Zplus_mod_idemp_l. f_equal. lia.
    + specialize (Hk (S i) ltac:(lia)). rewrite <-Hk. f_equal.
      unfold wrap_u32. rewrite Zplus_mod_idemp_l. f_equal. lia.
Qed.
End alloc.

(** Among [|used| + 1] consecutive ids, one is free. *)
Lemma consecutive_free (used : gset Z) (in_use : Z → bool) c :
  (∀ id, in_use id = true → id ∈ used) → Z.of_nat (size used) < u32_max →
  ∃ k, (k ≤ size used)%nat ∧ in_use (wrap_u32 (c + Z.of_nat k)) = false ∧
    ∀ i, (i < k)%nat → in_use (wrap_u32 (c + Z.of_nat i)) = true.
Proof.
  intros Hused Hsize.
  destruct (first_failure (λ i, in_use (wrap_u32 (c + Z.of_nat i))) (S (size used)))
    as [(k & Hk & Hf & Hi)|Hall]; [exists k; split_and!; auto; lia|exfalso].
  apply (pigeonhole used (λ i, wrap_u32 (c + Z.of_nat i))).
  - intros i j Hi Hj Heq. unfold u32_max, wrap_u32 in *.
    pose proof (Z.div_mod (c + Z.of_nat i) 4294967296 ltac:(lia)).
    pose proof (Z.div_mod (c + Z.of_nat j) 4294967296 ltac:(lia)). lia.
  - intros i Hi. apply Hused, Hall. lia.
Qed.

(** The loop ends as soon as some id of the range is free: at most one pass
    over the ids in use before a rewind and one after it. *)
Lemma alloc_loop_total (used : gset Z) (in_use : Z → bool) min_id max_id c free :
  (∀ id, in_use id = true → id ∈ used) → Z.of_nat (size used) < u32_max →
  u32_ok c → 0 <= min_id → max_id <= u32_max →
  min_id < free < max_id → in_use free = false →
  is_Some (alloc_loop (2 * size used + 2) c min_id max_id in_use).
Proof.
  intros Hused Hsize Hc Hmin Hmax Hfree Hf.
  (* once rewound, the first free id is in range *)
  assert (Hrewound : is_Some (alloc_loop (size used + 1) (wrap_u32 (min_id + 1)) min_id max_id in_use)).
  { destruct (consecutive_free used in_use (min_id + 1)) as (k & Hk & Hkf & Hki); [done..|].
    assert (Hr : wrap_u32 (min_id + 1) = min_id + 1)
      by (apply wrap_u32_id; unfold u32_ok, u32_max in *; lia).
    replace (size used + 1)%nat with (k + S (size used - k))%nat by lia.
    rewrite Hr, alloc_loop_skip; [|done|unfold u32_ok; lia].
    cbn [alloc_loop]. rewrite Hkf.
    assert (Hle : min_id + 1 + Z.of_nat k <= free).
    { destruct (decide (min_id + 1 + Z.of_nat k <= free)); [done|exfalso].
      specialize (Hki (Z.to_nat (free - (min_id + 1))) ltac:(lia)).
      replace (min_id + 1 + Z.of_nat (Z.to_nat (free - (min_id + 1)))) with free in Hki by lia.
      rewrite wrap_u32_id in Hki by (unfold u32_ok; lia). congruence. }
    rewrite wrap_u32_id by (unfold u32_ok; lia).
    destruct ((_ <? _) || _) eqn:E; [|eauto]. apply orb_true_iff in E as [E|E]; bool_to_prop; lia. }
  destruct (consecutive_free used in_use c) as (k & Hk & Hkf & Hki); [done..|].
  replace (2 * size used + 2)%nat with (k + S (2 * size used + 1 - k))%nat by lia.
  rewrite alloc_loop_skip by done. cbn [alloc_loop]. rewrite Hkf.
  destruct ((_ <? _) || _) eqn:E; [|eauto].
  destruct Hrewound as [id Hid]. exists id. eapply alloc_loop_mono, Hid. lia.
Qed.

(** Some id of a range is free when fewer ids are in use than the range has. *)
Lemma free_in_range (used : gset Z) lo hi :
  Z.of_nat (size used) < hi - lo - 1 → 0 <= lo → ∃ id, lo < id < hi ∧ id ∉ used.
Proof.
  intros Hsize Hlo.
  destruct (first_failure (λ i, bool_decide (lo + 1 + Z.of_nat i ∈ used)) (S (size used)))
    as [(k & Hk & Hf & _)|Hall].
  - exists (lo + 1 + Z.of_nat k). apply bool_decide_eq_false in Hf. split; [lia|done].
  - exfalso. apply (pigeonhole used (λ i, lo + 1 + Z.of_nat i)); [lia|].
    intros i Hi. specialize (Hall i ltac:(lia)). by apply bool_decide_eq_true in Hall.
Qed.

Lemma conn_id_in_use_spec c id :
  conn_id_in_use c id = true ↔ id ∈ (dom (conns c) ∪ dom (binds c) : gset Z).
Proof.
  unfold conn_id_in_use. rewrite orb_true_iff, !bool_decide_eq_true, elem_of_union, !elem_of_dom. done.
Qed.

Lemma next_conn_id_Some c id c' :
  u32_ok (next_id c) → next_conn_id c = Some (id, c') →
  conn_id_in_use c id = false ∧ MIN_CONN_ID <= id < MAX_CONN_ID ∧ c' = set_next_id id c.
Proof.
  intros Hc H. unfold next_conn_id in H.
  destruct (alloc_conn_id _ _ _ _ _) as [id'|] eqn:E; [|done]. cbn in H. injection H as <- <-.
  apply alloc_loop_sound in E as (? & ? & _); auto with noa.
Qed.

Lemma next_conn_id_total c :
  Z.of_nat (size (dom (conns c) ∪ dom (binds c) : gset Z)) < MAX_CONN_ID - 1 →
  ∃ id, next_conn_id c = Some (id, set_next_id id c).
Proof.
  intros Hsize. unfold next_conn_id, next_conn_id_fuel, alloc_conn_id.
  set (used := dom (conns c) ∪ dom (binds c)) in *.
  destruct (free_in_range used 0 MAX_CONN_ID) as (free & Hfree & Hnot); [lia..|].
  destruct (alloc_loop_total used (conn_id_in_use c) MIN_CONN_ID MAX_CONN_ID
    (wrap_u32 (next_id c + 1)) free) as [id Hid].
  - intros id. apply conn_id_in_use_spec.
  - change MAX_CONN_ID with 2147483646 in *. unfold u32_max. lia.
  - auto with noa.
  - done.
  - done.
  - done.
  - apply not_true_iff_false. by rewrite conn_id_in_use_spec.
  - rewrite Hid. cbn. eauto.
Qed.

(** ** Latency *)

Lemma record_latency_fold (c : chan) (samples : list Z) :
  latency_sum c + Z.of_nat (sum_list_with Z.to_nat samples) <= u64_max →
  latency_count c + Z.of_nat (length samples) <= u64_max →
  0 <= latency_sum c → 0 <= latency_count c → Forall (λ s, 0 <= s) samples →
  let c' := foldl (λ c s, record_latency s c) c samples in
  latency_sum c' = latency_sum c + Z.of_nat (sum_list_with Z.to_nat samples) ∧
  latency_count c' = latency_count c + Z.of_nat (length samples).
Proof.
  intros Hs Hn H0 H1 Hpos. revert c Hs Hn H0 H1.
  induction Hpos as [|s samples Hsp _ IH]; intros c Hs Hn H0 H1; cbn [foldl sum_list_with length] in *.
  { cbn. lia. }
  assert (E1 : latency_sum (record_latency s c) = latency_sum c + s).
  { cbn. unfold wrap_u64. apply Z.mod_small. unfold u64_max in *. cbn in Hs. lia. }
  assert (E2 : latency_count (record_latency s c) = latency_count c + 1).
  { cbn. unfold wrap_u64. apply Z.mod_small. unfold u64_max in *. cbn in Hn. lia. }
  destruct (IH (record_latency s c)) as [-> ->]; rewrite ?E1, ?E2; cbn in *; lia.
Qed.

Lemma sum_bounds lo hi (samples : list Z) :
  0 <= lo → Forall (λ s, lo <= s <= hi) samples →
  lo * Z.of_nat (length samples) <= Z.of_nat (sum_list_with Z.to_nat samples)
    <= hi * Z.of_nat (length samples).
Proof. intros Hlo. induction 1 as [|s l Hs _ IH]; cbn in *; lia. Qed.

(** ** Teardown *)

Lemma closed_mark_closed c : closed (mark_closed c) = true.
Proof. unfold mark_closed. by destruct (closed c) eqn:E. Qed.

(** The steps of a teardown, run alone, compute [mark_closed]. *)
Lemma teardown_mark_closed c :
  closed c = false → rtc teardown_step (c, Idle) (mark_closed c, Finished).
Proof.
  intros Hc. unfold mark_closed. rewrite Hc.
  eapply rtc_l; [by constructor|]. eapply rtc_l; [constructor|].
  eapply rtc_l; [constructor|]. eapply rtc_l; [constructor|]. apply rtc_refl.
Qed.

Lemma task_step_closed c c' : task_step c c' → closed c' = closed c.
Proof.
  destruct 1; try done.
  - unfold register_conn. by destruct (closed c) eqn:E.
  - unfold register_bind. by destruct (closed c) eqn:E.
  - unfold next_conn_id in H. destruct (alloc_conn_id _ _ _ _ _); [|done]. by injection H as <- <-.
Qed.

(** A closed channel gains no connection and no bind. *)
Lemma task_step_maps c c' :
  task_step c c' → closed c = true → conns c' ⊆ conns c ∧ binds c' ⊆ binds c.
Proof.
  destruct 1; intros Hc; cbn; try done.
  - unfold register_conn. by rewrite Hc.
  - unfold register_bind. by rewrite Hc.
  - split; [apply delete_subseteq|done].
  - split; [done|apply delete_subseteq].
  - unfold next_conn_id in H. destruct (alloc_conn_id _ _ _ _ _); [|done]. by injection H as <- <-.
Qed.

Lemma map_subseteq_empty (m : gmap Z nat) : m ⊆ ∅ → m = ∅.
Proof. intros H. apply map_eq. intros i. rewrite lookup_empty. destruct (m !! i) eqn:E; [|done].
  eapply lookup_weaken in E; [|done]. by rewrite lookup_empty in E. Qed.

Lemma teardown_inv_step s s' : teardown_inv s → system_step s s' → teardown_inv s'.
Proof.
  intros (Hcl & Hco & Hbi) Hstep. destruct Hstep as [s s' Htd|c c' t Ht].
  - destruct Htd; unfold teardown_inv in *; cbn in *; intuition congruence.
  - cbn in *. pose proof (task_step_closed _ _ Ht) as Hc.
    unfold teardown_inv. cbn [fst snd] in *. rewrite Hc. split_and!; [done|..].
    + intros Htd. pose proof (Hco Htd) as Hempty.
      destruct (task_step_maps _ _ Ht) as [Hsub _]; [apply Hcl; destruct Htd; congruence|].
      rewrite Hempty in Hsub. by apply map_subseteq_empty.
    + intros Htd. pose proof (Hbi Htd) as Hempty.
      destruct (task_step_maps _ _ Ht) as [_ Hsub]; [apply Hcl; congruence|].
      rewrite Hempty in Hsub. by apply map_subseteq_empty.
Qed.

(** ** Properties *)

(** The connection-id allocator: with fewer ids in use than the range
    holds, [next_conn_id] ends and returns an id that no connection and no bind
    of the channel uses, inside the client's range (so never one of the
    router's, which start at 2^31), that the inspector reports as unknown; only
    the counter changes. *)
Theorem next_conn_id_fresh (c : chan) :
  u32_ok (next_id c) →
  Z.of_nat (size (dom (conns c) ∪ dom (binds c) : gset Z)) < MAX_CONN_ID - 1 →
  ∃ id, next_conn_id c = Some (id, set_next_id id c) ∧
    conns c !! id = None ∧ binds c !! id = None ∧
    0 <= id < 2147483646 ∧ classify_conn_inspect c id = Invalid.
Proof.
  intros Hc Hsize. destruct (next_conn_id_total c Hsize) as [id Hid].
  destruct (next_conn_id_Some _ _ _ Hc Hid) as (Hfree & Hrange & _).
  unfold conn_id_in_use in Hfree. apply orb_false_iff in Hfree as [H1 H2].
  exists id. split_and!; [done|..].
  - apply bool_decide_eq_false in H1. by apply eq_None_not_Some.
  - apply bool_decide_eq_false in H2. by apply eq_None_not_Some.
  - apply Hrange.
  - apply Hrange.
  - unfold classify_conn_inspect. by rewrite H1, H2.
Qed.

(** At the top of the range with the first two ids taken, the allocator
    rewinds and skips them. *)
Lemma next_conn_id_fresh_witness :
  let c := set_next_id 2147483645 (register_bind 2 0 (register_conn 1 0 chan_new)) in
  next_conn_id c = Some (3, set_next_id 3 c) ∧ conns c !! 3 = None.
Proof.
  intros c. destruct (next_conn_id_fresh c) as (id & H & Hn & _).
  - by_compute.
  - vm_compute. reflexivity.
  - assert (E : next_conn_id c = Some (3, set_next_id 3 c)) by (vm_compute; reflexivity).
    split; [exact E|]. rewrite E in H. injection H as <-. exact Hn.
Defined.

(** C19. Teardown under interference: whatever the other tasks do between the
    steps of [mark_closed], the [closed] flag is up from its first step on, and
    once it has cleared a map no connection or bind is ever registered in it
    again, so every reader and listener of the channel sees its queue close. *)
Theorem teardown_no_registration (c : chan) (t : teardown) :
  rtc system_step (chan_new, Idle) (c, t) →
  (closed c = true ↔ t ≠ Idle) ∧
  (t = ConnsCleared ∨ t = Finished → conns c = ∅) ∧
  (t = Finished → binds c = ∅).
Proof.
  intros H. apply (invariant_rtc system_step teardown_inv (chan_new, Idle) (c, t)); [|apply teardown_inv_step|done].
  unfold teardown_inv. cbn. split_and!; [split; done| |done].
  by intros [|].
Qed.

(** A registration that races the teardown, in the middle of its steps. *)
Lemma teardown_no_registration_witness :
  let c := register_conn 5 1 (set_conns ∅ (set_waiters ∅ (set_closed true (register_conn 1 0 chan_new)))) in
  rtc system_step (chan_new, Idle) (c, ConnsCleared) ∧ conns c = ∅.
Proof.
  intros c.
  assert (H : rtc system_step (chan_new, Idle) (c, ConnsCleared)).
  { eapply rtc_l; [apply sys_task, (ts_register_conn _ 1 0)|].
    eapply rtc_l; [apply sys_teardown, td_swap; reflexivity|].
    eapply rtc_l; [apply sys_teardown, td_waiters|].
    eapply rtc_l; [apply sys_teardown, td_conns|].
    eapply rtc_l; [apply sys_task, (ts_register_conn _ 5 1)|]. apply rtc_refl. }
  split; [exact H|].
  destruct (teardown_no_registration c ConnsCleared H) as (_ & Hc & _). apply Hc. by left.
Defined.

(** The reply waiters are not protected the same way: an insertion that
    comes after the teardown has cleared them survives it, and the request that
    made it can only end by its own timeout or by a failed write. *)
Theorem waiter_can_outlive_teardown :
  ∃ c, rtc system_step (chan_new, Idle) (c, Finished) ∧ closed c = true ∧ waiters c !! 1 = Some 0%nat.
Proof.
  eexists. split; [|split].
  - eapply rtc_l; [apply sys_teardown, td_swap; reflexivity|].
    eapply rtc_l; [apply sys_teardown, td_waiters|].
    eapply rtc_l; [apply sys_task, (ts_insert_waiter _ 1 0)|].
    eapply rtc_l; [apply sys_teardown, td_conns|].
    eapply rtc_l; [apply sys_teardown, td_binds|]. apply rtc_refl.
  - reflexivity.
  - reflexivity.
Qed.

(** The pool's score: the mean of the recorded latencies lies between their
    extremes while the 64-bit accumulators do not overflow, and a channel with
    no sample sorts after every sampled one. *)
Theorem mean_latency_bounds (samples : list Z) (lo hi : Z) :
  0 <= lo → Forall (λ s, lo <= s <= hi) samples →
  Z.of_nat (length samples) <= u64_max → hi * Z.of_nat (length samples) <= u64_max →
  let c := foldl (λ c s, record_latency s c) chan_new samples in
  (samples = [] → mean_latency_nanos c = u64_max) ∧
  (samples ≠ [] → lo <= mean_latency_nanos c <= hi).
Proof.
  intros Hlo Hs Hn Hsum c. pose proof (sum_bounds lo hi samples Hlo Hs) as Hb.
  destruct (record_latency_fold chan_new samples) as [E1 E2]; cbn; [lia..| |].
  { eapply Forall_impl; [exact Hs|]. cbn. lia. }
  fold c in E1, E2. cbn in E1, E2. unfold mean_latency_nanos. rewrite E1, E2.
  destruct samples as [|s l]; [by split|]. split; [done|]. intros _.
  destruct (_ =? 0) eqn:E; bool_to_prop; [cbn in E; lia|].
  set (n := Z.of_nat (length (s :: l))) in *. assert (0 < n) by (subst n; cbn; lia).
  split; [apply Z.div_le_lower_bound; lia|].
  apply Z.div_le_upper_bound; lia.
Qed.

Lemma mean_latency_bounds_witness :
  3 <= mean_latency_nanos (foldl (λ c s, record_latency s c) chan_new [3; 10; 4]) <= 10.
Proof.
  apply (mean_latency_bounds [3; 10; 4] 3 10); [lia | repeat constructor; lia | cbn; unfold u64_max; lia.. | done].
Defined.
