(* ===== verification/Async.v ===== *)
(** * Tasks of a channel

    The [async fn]s of [src/edge/data/] as resumptions over the shared channel
    state: a task is a tree of atomic sections, frame writes, clock reads and
    waits for a reply.  The scheduler is an arbitrary stream of answers; before
    each step of a task it may run any other task ([interfere]). *)

From S2P Require Import Prelude Message EdgeWire ChannelState.

(** ** Tasks *)

(** What a [oneshot::Receiver] under [tokio::time::timeout] resolves to.  Under
    a plain [await], [Elapsed] stands for a wait that never resolves. *)
Inductive wait : Type := Got (m : Message) | Dropped | Elapsed.

Inductive prog (A : Type) : Type :=
| Ret (a : A)
| Atom (f : chan → chan) (k : chan → prog A)
| Now (k : Z → prog A)
| Write (m : Message) (k : option ChannelError → prog A)
| Shutdown (k : prog A)
| Await (timed : bool) (k : wait → prog A)
| Spin.
Arguments Ret {A} a.
Arguments Atom {A} f k.
Arguments Now {A} k.
Arguments Write {A} m k.
Arguments Shutdown {A} k.
Arguments Await {A} timed k.
Arguments Spin {A}.

#[export] Instance prog_ret : MRet prog := @Ret.

#[export] Instance prog_bind : MBind prog :=
  fix go A B (k : A → prog B) (p : prog A) : prog B :=
    match p with
    | Ret a => k a
    | Atom f k' => Atom f (λ c, go A B k (k' c))
    | Now k' => Now (λ t, go A B k (k' t))
    | Write m k' => Write m (λ r, go A B k (k' r))
    | Shutdown k' => Shutdown (go A B k k')
    | Await b k' => Await b (λ r, go A B k (k' r))
    | Spin => Spin
    end.

(** Atomic sections: a continuation sees the state the section started from. *)
Definition modify (f : chan → chan) : prog unit := Atom f (λ _, Ret tt).
Definition get_seq : prog Z := Atom (λ c, (next_seq c).2) (λ c, Ret (next_seq c).1).
Definition get_closed : prog bool := Atom id (λ c, Ret (is_closed c)).
Definition get_conn_id : prog Z :=
  Atom (λ c, match next_conn_id c with Some (_, c') => c' | None => c end)
       (λ c, match next_conn_id c with Some (id, _) => Ret id | None => Spin end).
Definition get_since_last_read (now : Z) : prog Z := Atom id (λ c, Ret (millis_since_last_read now c)).
Definition now : prog Z := Now Ret.
Definition write (m : Message) : prog (option ChannelError) := Write m Ret.
Definition shutdown : prog unit := Shutdown (Ret tt).
Definition await (timed : bool) : prog wait := Await timed Ret.

(** ** Scheduling *)

(** One answer of the scheduler.  [clock] is the number of nanoseconds since the
    channel's [base]; [write_err] is the outcome of a write. *)
Record ev : Type := Ev {
  interfere : chan → chan;
  clock : Z;
  write_err : option ChannelError;
  reply : wait
}.

Definition quiet : ev := Ev id 0 None Elapsed.

(** Frames a task wrote, with the state it wrote them in and the outcome. *)
Inductive event : Type :=
| Wrote (c : chan) (m : Message) (e : option ChannelError)
| ShutDown.

Record outcome (A : Type) : Type := Outcome {
  res : option A;
  final : chan;
  trace : list event;
  turn : nat
}.
Arguments Outcome {A} _ _ _ _.
Arguments res {A} _.
Arguments final {A} _.
Arguments trace {A} _.
Arguments turn {A} _.

Definition with_event {A} (e : event) (o : outcome A) : outcome A :=
  Outcome (res o) (final o) (e :: trace o) (turn o).

(** A task run to its end against the answers from the [n]-th on; [None] when it
    waits for ever. *)
Fixpoint run {A} (p : prog A) (env : nat → ev) (n : nat) (c : chan) : outcome A :=
  match p with
  | Ret a => Outcome (Some a) c [] n
  | Atom f k => let c := interfere (env n) c in run (k c) env (S n) (f c)
  | Now k => let c := interfere (env n) c in run (k (clock (env n))) env (S n) c
  | Write m k =>
      let c := interfere (env n) c in
      let e := write_err (env n) in
      let c' := if e is Some _ then c else set_wire (wire c ++ [m]) c in
      with_event (Wrote c m e) (run (k e) env (S n) c')
  | Shutdown k => let c := interfere (env n) c in with_event ShutDown (run k env (S n) c)
  | Await timed k =>
      let c := interfere (env n) c in
      match timed, reply (env n) with
      | false, Elapsed => Outcome None c [] (S n)
      | _, r => run (k r) env (S n) c
      end
  | Spin => Outcome None c [] n
  end.

(** The frames that reached the wire, in order. *)
Definition sent (tr : list event) : list Message :=
  omap (λ e, match e with Wrote _ m None => Some m | _ => None end) tr.

(** ** Interference *)

(** Interference that leaves a conn id, a bind id or a waiter alone. *)
Definition keeps_conn (id : Z) (env : nat → ev) : Prop :=
  ∀ n c, conns (interfere (env n) c) !! id = conns c !! id.
Definition keeps_bind (id : Z) (env : nat → ev) : Prop :=
  ∀ n c, binds (interfere (env n) c) !! id = binds c !! id.
Definition keeps_waiter (s : Z) (env : nat → ev) : Prop :=
  ∀ n c, waiters (interfere (env n) c) !! s = waiters c !! s.

(** A closed channel stays closed. *)
Definition keeps_closed (env : nat → ev) : Prop :=
  ∀ n c, closed c = true → closed (interfere (env n) c) = true.

(** ** Running a sequence *)

Lemma run_bind {A B} (p : prog A) (k : A → prog B) env n c :
  run (p ≫= k) env n c =
    let o := run p env n c in
    match res o with
    | Some a =>
        let o' := run (k a) env (turn o) (final o) in
        Outcome (res o') (final o') (trace o ++ trace o') (turn o')
    | None => Outcome None (final o) (trace o) (turn o)
    end.
Proof.
  revert n c. induction p as [a|f k' IH|k' IH|m k' IH|p IH|b k' IH|]; intros n c.
  - cbn. by destruct (run (k a) env n c).
  - exact (IH _ _ _).
  - exact (IH _ _ _).
  - cbn. fold (@mbind prog _). unfold with_event. rewrite IH. cbn.
    by destruct (res (run (k' _) _ _ _)).
  - cbn. unfold with_event. rewrite IH. cbn. by destruct (res (run p _ _ _)).
  - cbn. destruct b, (reply (env n)); try exact (IH _ _ _); done.
  - done.
Qed.

(** A sequence whose second half only returns. *)
Lemma run_map {A B} (p : prog A) (f : A → B) env n c :
  run (p ≫= λ a, mret (f a)) env n c =
    let o := run p env n c in Outcome (f <$> res o) (final o) (trace o) (turn o).
Proof. rewrite run_bind. cbn zeta. destruct (res (run p env n c)); cbn; by rewrite ?app_nil_r. Qed.

Lemma sent_app tr1 tr2 : sent (tr1 ++ tr2) = sent tr1 ++ sent tr2.
Proof. apply omap_app. Qed.
