(* ===== verification/Crypto.v ===== *)
(** * The end-to-end crypto interface: [src/edge/crypto.rs]

    [crypto.rs] wraps the [dryoc] crate, which is not under [src/].  The
    class states what the wrapper offers; [SecretStreamLaws] states the
    documented behaviour of [crypto_kx] and of the secretstream that the data
    path relies on.  [ToyStream] is an instance that satisfies the laws. *)

From S2P Require Import Prelude Message EdgeWire.

Definition STREAM_HEADER_BYTES : nat := 24.
Definition ABYTES : nat := 17.

Inductive CryptoError : Type := KeyExchange (s : string) | Stream (s : string).

(** [CryptoError::to_string]. *)
Definition crypto_error_string (e : CryptoError) : string :=
  match e with
  | KeyExchange s => "key exchange failed: " +:+ s
  | Stream s => "secretstream failed: " +:+ s
  end.

(** [KeyPair], [Encryptor] and [Decryptor].  [init_push] takes the random bytes
    the crate draws. *)
Class SecretStream := {
  KeyPair : Type;
  Encryptor : Type;
  Decryptor : Type;
  public_key : KeyPair → list Z;
  client_session_keys : KeyPair → list Z → result CryptoError (list Z * list Z);
  server_session_keys : KeyPair → list Z → result CryptoError (list Z * list Z);
  init_push : list Z → list Z → Encryptor * list Z;
  push : Encryptor → list Z → result CryptoError (list Z * Encryptor);
  init_pull : list Z → list Z → Decryptor;
  pull : Decryptor → list Z → result CryptoError (list Z * Decryptor)
}.

(** The documented behaviour: the two ends of an exchange derive each other's
    keys, the header has 24 bytes, and a pull stream in step with a push stream
    recovers each frame, which is [ABYTES] longer than its message. *)
Class SecretStreamLaws `{SecretStream} := {
  in_step : Encryptor → Decryptor → Prop;
  public_key_length kp : length (public_key kp) = 32%nat;
  kx_agree kc ks rx tx :
    client_session_keys kc (public_key ks) = Ok (rx, tx) →
    server_session_keys ks (public_key kc) = Ok (tx, rx);
  init_push_header tx r : length (init_push tx r).2 = STREAM_HEADER_BYTES;
  init_in_step tx r : in_step (init_push tx r).1 (init_pull tx (init_push tx r).2);
  push_total e d p : in_step e d → ∃ ct e', push e p = Ok (ct, e');
  push_pull e d p ct e' :
    in_step e d → push e p = Ok (ct, e') →
    length ct = (length p + ABYTES)%nat ∧ ∃ d', pull d ct = Ok (p, d') ∧ in_step e' d'
}.

(** ** A concrete instance

    Not a cipher: frames carry a counter and padding.  It shows that the laws
    can hold together, and the witnesses compute with it. *)
Module ToyStream.

Definition toy_client (kp peer : list Z) : result CryptoError (list Z * list Z) :=
  if decide (peer = replicate 32 0) then Err (KeyExchange "weak key") else Ok (peer, kp).
Definition toy_server (kp peer : list Z) : result CryptoError (list Z * list Z) := Ok (peer, kp).
Definition toy_public (kp : list Z) : list Z := resize 32 0 kp.
Definition toy_push (e : Z) (p : list Z) : result CryptoError (list Z * Z) :=
  Ok ((e mod 256 :: replicate 16 0) ++ p, e + 1).
Definition toy_pull (d : Z) (ct : list Z) : result CryptoError (list Z * Z) :=
  if decide (head ct = Some (d mod 256)) then Ok (drop 17 ct, d + 1) else Err (Stream "bad tag").

End ToyStream.

#[export] Instance toy_stream : SecretStream := {|
  KeyPair := list Z;
  Encryptor := Z;
  Decryptor := Z;
  public_key := ToyStream.toy_public;
  client_session_keys kp := ToyStream.toy_client (ToyStream.toy_public kp);
  server_session_keys kp := ToyStream.toy_server (ToyStream.toy_public kp);
  init_push _ r := (0, resize 24 0 r);
  push := ToyStream.toy_push;
  init_pull _ _ := 0;
  pull := ToyStream.toy_pull
|}.

#[export] Instance toy_stream_laws : SecretStreamLaws.
Proof.
  refine {| in_step := λ (e : @Encryptor toy_stream) (d : @Decryptor toy_stream), @eq Z e d |}; cbn.
  - intros kp. apply length_resize.
  - intros kc ks rx tx H. unfold ToyStream.toy_client, ToyStream.toy_server in *.
    destruct (decide _); [done|]. by injection H as <- <-.
  - intros _ r. apply length_resize.
  - done.
  - intros e d p _. unfold ToyStream.toy_push. eauto.
  - intros e d p ct e' <- H. injection H as <- <-. split.
    + cbn. unfold ABYTES. lia.
    + eexists. split; [|reflexivity]. unfold ToyStream.toy_pull. by rewrite decide_True.
Defined.
