(* ===== verification/Conn.v ===== *)
(** * Edge connections: [src/edge/data/conn.rs]

    The two halves of a multiplexed connection: framing, FIN and StateClosed,
    the lazy secretstream header on the read side. *)

From S2P Require Import Prelude Utf8 Message EdgeWire ChannelState Async Crypto.

Section conn.
Context `{SecretStream}.

(** ** State (data/mod.rs) *)

Record ConnCrypto : Type := mkConnCrypto {
  cc_sender : Encryptor;
  cc_decryptor : option Decryptor;
  cc_rx_key : option (list Z)
}.

Record ReadCrypto : Type := mkReadCrypto {
  decryptor : option Decryptor;
  rx_key : option (list Z)
}.

Record EdgeReadHalf : Type := mkReadHalf { read_eof : bool; crypto : option ReadCrypto }.

Record EdgeWriteHalf : Type := mkWriteHalf {
  conn_id : Z;
  first_write : bool;
  sender : option Encryptor
}.

(** [sent_fin] is the flag the halves share. *)
Record EdgeConn : Type := mkConn {
  circuit_id : option string;
  source_identity : option string;
  reader : EdgeReadHalf;
  writer : EdgeWriteHalf;
  sent_fin : bool
}.

Definition EdgeConn_new (id : Z) (circuit source : option string) (cr : option ConnCrypto) : EdgeConn :=
  let read_crypto := (λ cc, mkReadCrypto (cc_decryptor cc) (cc_rx_key cc)) <$> cr in
  let snd := cc_sender <$> cr in
  mkConn circuit source (mkReadHalf false read_crypto)
    (mkWriteHalf id (bool_decide (snd = None)) snd) false.

(** ** Reading *)

(** [Pending] when the queue is open and empty; [Panic] is the [expect]. *)
Inductive read_res : Type :=
| Pending
| Panic
| Done (r : result EdgeError (option (list Z))).

(** What one frame does to a read: go on, or stop with a result. *)
Definition set_eof (r : EdgeReadHalf) : EdgeReadHalf := mkReadHalf true (crypto r).

Definition has_fin (msg : Message) : bool :=
  negb (Z.land (default 0 (header_u32 msg HDR_FLAGS)) FLAG_FIN =? 0).

(** The end of each arm: [Ok(None)] once the end was seen, else the next frame. *)
Definition eof_or_next (r : EdgeReadHalf) : option read_res :=
  if read_eof r then Some (Done (Ok None)) else None.

(** The [CT_DATA] arm, [r] being the half after the FIN test. *)
Definition read_data (r : EdgeReadHalf) (b : list Z) : option read_res * EdgeReadHalf :=
  match crypto r with
  | None =>
      if bool_decide (b = []) then (eof_or_next r, r) else (Some (Done (Ok (Some b))), r)
  | Some (mkReadCrypto _ (Some key)) =>
      if negb (bool_decide (length b = STREAM_HEADER_BYTES)) then
        (Some (Done (Err (EdgeWire.Crypto ("stream header must be " +:+ pretty STREAM_HEADER_BYTES
           +:+ " bytes, got " +:+ pretty (length b))))), r)
      else
        let r := mkReadHalf (read_eof r) (Some (mkReadCrypto (Some (init_pull key b)) None)) in
        (eof_or_next r, r)
  | Some (mkReadCrypto d None) =>
      if bool_decide (b = []) then (eof_or_next r, r)
      else if (Z.of_nat (length b) <? Z.of_nat ABYTES) then
        (Some (Done (Err (EdgeWire.Crypto ("encrypted frame too short: " +:+ pretty (length b)
           +:+ " < " +:+ pretty ABYTES)))), r)
      else
        match d with
        | None => (Some Panic, r)
        | Some d =>
            match pull d b with
            | Err e => (Some (Done (Err (EdgeWire.Crypto (crypto_error_string e)))), r)
            | Ok (plain, d) =>
                let r := mkReadHalf (read_eof r) (Some (mkReadCrypto (Some d) None)) in
                if bool_decide (plain = []) then (eof_or_next r, r)
                else (Some (Done (Ok (Some plain))), r)
            end
        end
  end.

(** The [loop]: frames are received until one stops the read.  [open] says
    whether the queue's sender is still there once the frames are used up; the
    last component is the new value of [sent_fin]. *)
Fixpoint read_loop (q : list Message) (open : bool) (r : EdgeReadHalf) (fin : bool)
    : read_res * list Message * EdgeReadHalf * bool :=
  match q with
  | [] => if open then (Pending, [], r, fin) else (Done (Ok None), [], set_eof r, fin)
  | msg :: q =>
      if content_type msg =? CT_DATA then
        let r := if has_fin msg then set_eof r else r in
        match read_data r (body msg) with
        | (Some res, r) => (res, q, r, fin)
        | (None, r) => read_loop q open r fin
        end
      else if content_type msg =? CT_STATE_CLOSED then (Done (Ok None), q, set_eof r, true)
      else read_loop q open r fin
  end.

(** [EdgeReadHalf::read]. *)
Definition read (q : list Message) (open : bool) (r : EdgeReadHalf) (fin : bool)
    : read_res * list Message * EdgeReadHalf * bool :=
  if read_eof r then (Done (Ok None), q, r, fin) else read_loop q open r fin.

(** The reads of a caller that reads until it is told to stop: what it got, and
    how the last read ended.  Each read uses up a frame or ends. *)
Fixpoint read_all (fuel : nat) (q : list Message) (open : bool) (r : EdgeReadHalf) (fin : bool)
    : list (list Z) * read_res :=
  match fuel with
  | O => ([], Pending)
  | S fuel =>
      match read q open r fin with
      | (Done (Ok (Some b)), q, r, fin) =>
          let '(bs, e) := read_all fuel q open r fin in (b :: bs, e)
      | (e, _, _, _) => ([], e)
      end
  end.

(** ** Writing *)

(** [write_message(..).await.map_err(EdgeError::from)]. *)
Definition sent_result (e : option ChannelError) : result EdgeError unit :=
  match e with Some e => Err (Channel e) | None => Ok tt end.

(** A frame under the next sequence number of the channel. *)
Definition send (m : Message) : prog (option ChannelError) :=
  s ← get_seq; Async.write (with_sequence s m).

(** [EdgeWriteHalf::write]; [fin] is the value loaded from [sent_fin]. *)
Definition write (fin : bool) (w : EdgeWriteHalf) (data : list Z)
    : prog (result EdgeError unit * EdgeWriteHalf) :=
  if fin then mret (Err WriteAfterClose, w)
  else
    match (match sender w with
           | Some enc => map_err (λ e, EdgeWire.Crypto (crypto_error_string e))
                           (prod_map id Some <$> push enc data)
           | None => Ok (data, None)
           end) with
    | Err e => mret (Err e, w)
    | Ok (b, snd) =>
        let w' := mkWriteHalf (conn_id w) false snd in
        e ← send (build_data (conn_id w) b (first_write w));
        mret (sent_result e, w')
    end.

Definition fin_message (id : Z) : Message :=
  with_header HDR_FLAGS (u32_to_le FLAG_FIN) (build_data id [] false).

(** [EdgeWriteHalf::close_write]: the result and the new [sent_fin]. *)
Definition close_write (fin : bool) (w : EdgeWriteHalf) : prog (result EdgeError unit * bool) :=
  if fin then mret (Ok tt, fin)
  else e ← send (fin_message (conn_id w)); mret (sent_result e, true).

(** [EdgeWriteHalf::close]. *)
Definition close (w : EdgeWriteHalf) : prog (result EdgeError unit * bool) :=
  e ← send (build_state_closed (conn_id w));
  match e with
  | Some e => mret (Err (Channel e), true)
  | None => _ ← modify (remove_conn (conn_id w)); mret (Ok tt, true)
  end.

(** ** A connection's life: any sequence of calls on its write half, and the
    [sent_fin] a StateClosed sets from the read half *)

Inductive call : Type := CallWrite (data : list Z) | CallCloseWrite | CallClose | CallReadClosed.

Definition apply_call (o : call) (s : EdgeWriteHalf * bool)
    : prog (result EdgeError unit * (EdgeWriteHalf * bool)) :=
  let '(w, fin) := s in
  match o with
  | CallWrite data => '(r, w) ← write fin w data; mret (r, (w, fin))
  | CallCloseWrite => '(r, fin) ← close_write fin w; mret (r, (w, fin))
  | CallClose => '(r, fin) ← close w; mret (r, (w, fin))
  | CallReadClosed => mret (Ok tt, (w, true))
  end.

Fixpoint apply_calls (os : list call) (s : EdgeWriteHalf * bool)
    : prog (list (result EdgeError unit) * (EdgeWriteHalf * bool)) :=
  match os with
  | [] => mret ([], s)
  | o :: os =>
      '(r, s) ← apply_call o s;
      '(rs, s) ← apply_calls os s;
      mret (r :: rs, s)
  end.

(** ** Accept-side crypto setup *)

(** [v.first().copied()] of the crypto-method header. *)
Definition crypto_method (m : Message) : Z :=
  default CRYPTO_METHOD_LIBSODIUM (headers m !! HDR_CRYPTO_METHOD ≫= head).

(** [rnd] are the random bytes of [Encryptor::new]. *)
Definition server_crypto_setup (keypair : option KeyPair) (dial : Message) (rnd : list Z)
    : result EdgeError (option (ConnCrypto * list Z)) :=
  match keypair with
  | None => Ok None
  | Some kp =>
      match headers dial !! HDR_PUBLIC_KEY with
      | None => Ok None
      | Some pk =>
          if negb (crypto_method dial =? CRYPTO_METHOD_LIBSODIUM) then Err UnsupportedCrypto
          else if negb (bool_decide (length pk = 32%nat)) then
            Err (EdgeWire.Crypto ("dialer public key must be 32 bytes, got " +:+ pretty (length pk)))
          else
            '(rx, tx) ← map_err (λ e, EdgeWire.Crypto (crypto_error_string e)) (server_session_keys kp pk);
            let '(snd, hdr) := init_push tx rnd in
            Ok (Some (mkConnCrypto snd None (Some rx), hdr))
      end
  end.

(** ** What a connection's frames are *)

Definition is_data (m : Message) : bool := content_type m =? CT_DATA.

(** The data frames that reached the wire. *)
Definition data_frames (tr : list event) : list Message := List.filter is_data (sent tr).

(** Routers rewrite connection ids and sequence numbers, and keep the type, the
    body and the flags. *)
Record relayed (m m' : Message) : Prop := {
  relayed_type : content_type m' = content_type m;
  relayed_body : body m' = body m;
  relayed_flags : headers m' !! HDR_FLAGS = headers m !! HDR_FLAGS
}.

(** A write half and the read half at the other end of the circuit. *)
Definition peers `{!SecretStreamLaws} (w : EdgeWriteHalf) (r : EdgeReadHalf) : Prop :=
  read_eof r = false ∧
  match sender w, crypto r with
  | None, None => True
  | Some e, Some (mkReadCrypto (Some d) None) => in_step e d
  | _, _ => False
  end.

(** ** Lemmas: running the calls *)

Lemma run_send m env n c :
  run (send m) env n c =
    let c1 := interfere (env n) c in
    let m := with_sequence (next_seq c1).1 m in
    let c2 := interfere (env (S n)) (next_seq c1).2 in
    let e := write_err (env (S n)) in
    Outcome (Some e) (if e is Some _ then c2 else set_wire (wire c2 ++ [m]) c2) [Wrote c2 m e] (S (S n)).
Proof. reflexivity. Qed.

Lemma run_calls_cons o os s env n c r s' :
  res (run (apply_call o s) env n c) = Some (r, s') →
  ∃ c' n', trace (run (apply_calls (o :: os) s) env n c)
    = trace (run (apply_call o s) env n c) ++ trace (run (apply_calls os s') env n' c').
Proof.
  intros Hres. cbn [apply_calls]. rewrite run_bind. cbn zeta. rewrite Hres. cbn iota beta.
  eexists _, _. cbn [trace]. rewrite run_bind. cbn zeta.
  destruct (res (run (apply_calls os s') _ _ _)) as [[rs s2]|]; cbn; by rewrite ?app_nil_r.
Qed.

Lemma has_fin_build_data id b first s :
  has_fin (with_sequence s (build_data id b first)) = false.
Proof. by destruct first. Qed.

Lemma has_fin_fin_message id s : has_fin (with_sequence s (fin_message id)) = true.
Proof. reflexivity. Qed.

Lemma is_data_build_data id b first s : is_data (with_sequence s (build_data id b first)) = true.
Proof. by destruct first. Qed.

Lemma data_frames_app tr1 tr2 : data_frames (tr1 ++ tr2) = data_frames tr1 ++ data_frames tr2.
Proof. unfold data_frames. by rewrite sent_app, List.filter_app. Qed.

(** One call: what it sends, and what becomes of the shared flag. *)
Lemma apply_call_sent o w fin env n c :
  ∃ r w' fin', res (run (apply_call o (w, fin)) env n c) = Some (r, (w', fin')) ∧
    let data := data_frames (trace (run (apply_call o (w, fin)) env n c)) in
    (fin = true → fin' = true ∧ data = []) ∧
    (data = [] ∨ ∃ m, data = [m] ∧ (has_fin m = true → fin' = true)).
Proof.
  destruct o as [d| | |]; unfold apply_call.
  - unfold write. destruct fin; [cbn; eauto 10|].
    destruct (match sender w with Some _ => _ | None => _ end) as [[b snd]|e]; [|cbn; eauto 10].
    rewrite run_bind, run_map, run_send. cbn -[data_frames build_data].
    eexists _, _, _. split; [reflexivity|]. split; [done|].
    destruct (write_err (env (S n))); [by left|right].
    unfold data_frames. cbn -[build_data is_data]. rewrite is_data_build_data.
    eexists. split; [reflexivity|]. by rewrite has_fin_build_data.
  - unfold close_write. destruct fin; [cbn; eauto 10|].
    rewrite run_bind, run_map, run_send. cbn -[data_frames fin_message].
    eexists _, _, _. split; [reflexivity|]. split; [done|].
    destruct (write_err (env (S n))); [by left|right]. eauto.
  - unfold close. rewrite run_bind, run_bind, run_send. cbn zeta. cbn [res].
    destruct (write_err (env (S n))) eqn:E; cbn; eauto 10.
  - cbn. eauto 10.
Qed.

Lemma calls_after_fin os w env n c :
  data_frames (trace (run (apply_calls os (w, true)) env n c)) = [].
Proof.
  revert w n c. induction os as [|o os IH]; intros w n c; [done|].
  destruct (apply_call_sent o w true env n c) as (r & w' & fin' & Hres & Hfin & _).
  destruct (run_calls_cons o os _ env n c _ _ Hres) as (c' & n' & ->).
  destruct (Hfin eq_refl) as [-> Hnil]. by rewrite data_frames_app, Hnil, IH.
Qed.

(** ** Lemmas: frames and what a reader makes of them *)

Lemma relayed_has_fin m m' : relayed m m' → has_fin m' = has_fin m.
Proof. intros [_ _ Hf]. unfold has_fin, header_u32. by rewrite Hf. Qed.

Lemma read_all_skip fuel m q open r fin r' :
  read_eof r = false → content_type m = CT_DATA → has_fin m = false →
  read_data r (body m) = (None, r') → read_eof r' = false →
  read_all fuel (m :: q) open r fin = read_all fuel q open r' fin.
Proof.
  intros Hr Hct Hfin Hd Hr'. destruct fuel; [done|]. cbn [read_all]. unfold read.
  rewrite Hr, Hr'. cbn [read_loop]. by rewrite Hct, Z.eqb_refl, Hfin, Hd.
Qed.

Lemma read_all_some fuel m q open r fin r' b :
  read_eof r = false → content_type m = CT_DATA → has_fin m = false →
  read_data r (body m) = (Some (Done (Ok (Some b))), r') →
  read_all (S fuel) (m :: q) open r fin =
    (let '(bs, e) := read_all fuel q open r' fin in (b :: bs, e)).
Proof.
  intros Hr Hct Hfin Hd. cbn [read_all]. unfold read. rewrite Hr. cbn [read_loop].
  by rewrite Hct, Z.eqb_refl, Hfin, Hd.
Qed.

(** A FIN frame with no body ends the reads of a half in step. *)
Lemma read_all_fin fuel m q open r fin :
  read_eof r = false → content_type m = CT_DATA → has_fin m = true → body m = [] →
  match crypto r with Some c => rx_key c = None | None => True end →
  read_all (S fuel) (m :: q) open r fin = ([], Done (Ok None)).
Proof.
  intros Hr Hct Hfin Hb Hc. cbn [read_all]. unfold read. rewrite Hr. cbn [read_loop].
  rewrite Hct, Z.eqb_refl, Hfin, Hb. unfold read_data, set_eof. cbn [crypto].
  destruct (crypto r) as [[d k]|]; [cbn in Hc; subst k|]; rewrite bool_decide_true; done.
Qed.

Section peers.
Context `{!SecretStreamLaws}.

(** What a write puts on the wire, for a half in step with its peer. *)
Lemma peers_write w r data :
  peers w r →
  ∃ b snd r', (match sender w with
     | Some enc => map_err (λ e, EdgeWire.Crypto (crypto_error_string e)) (prod_map id Some <$> push enc data)
     | None => Ok (data, None) end) = Ok (b, snd) ∧
  peers (mkWriteHalf (conn_id w) false snd) r' ∧
  read_data r b = (if bool_decide (data = []) then None else Some (Done (Ok (Some data))), r').
Proof.
  intros [Hr Hp]. destruct (sender w) as [e|], r as [eof [[d k]|]]; cbn in Hr, Hp; subst eof; try done.
  - destruct d as [d|], k; try done.
    destruct (push_total e d data Hp) as (ct & e' & Hpush).
    destruct (push_pull e d data ct e' Hp Hpush) as (Hlen & d' & Hpull & Hstep).
    rewrite Hpush. exists ct, (Some e'), (mkReadHalf false (Some (mkReadCrypto (Some d') None))).
    split; [reflexivity|]. split; [split; [done|exact Hstep]|].
    unfold read_data. cbn [crypto]. rewrite bool_decide_false by (intros ->; cbn in Hlen; unfold ABYTES in *; lia).
    destruct (_ <? _) eqn:E; [bool_to_prop; lia|]. rewrite Hpull. by case_bool_decide.
  - exists data, None, (mkReadHalf false None). split; [reflexivity|]. split; [done|].
    unfold read_data. cbn [crypto]. by case_bool_decide.
Qed.

Lemma peers_fin w r : peers w r → match crypto r with Some c => rx_key c = None | None => True end.
Proof. intros [_ Hp]. destruct (sender w), (crypto r) as [[[d|] [k|]]|]; done. Qed.

(** The relayed frames of a stream of writes and its FIN, read back. *)
Lemma stream_frames datas w r env n c q open fin fuel :
  peers w r → (∀ n, write_err (env n) = None) → (length datas < fuel)%nat →
  Forall2 relayed (sent (trace (run (apply_calls (map CallWrite datas ++ [CallCloseWrite]) (w, false)) env n c))) q →
  read_all fuel q open r fin = (filter (λ d, d ≠ []) datas, Done (Ok None)).
Proof.
  intros Hp Henv. revert w r n c q fuel Hp. induction datas as [|d datas IH]; intros w r n c q fuel Hp Hfuel Hq.
  - assert (Hs : ∃ s, sent (trace (run (apply_calls [CallCloseWrite] (w, false)) env n c))
      = [with_sequence s (fin_message (conn_id w))]).
    { cbn. rewrite Henv. eauto. }
    cbn [map app] in Hq. destruct Hs as [s Hs]. rewrite Hs in Hq.
    apply Forall2_cons_inv_l in Hq as (m & q' & Hm & _ & ->).
    destruct fuel; [lia|]. rewrite read_all_fin; [done|apply Hp| | | |by eapply peers_fin].
    + by rewrite (relayed_type _ _ Hm).
    + rewrite (relayed_has_fin _ _ Hm). apply has_fin_fin_message.
    + by rewrite (relayed_body _ _ Hm).
  - destruct (peers_write w r d Hp) as (b & snd & r' & Hpush & Hp' & Hread).
    cbn [map app] in Hq.
    assert (Hcall : ∃ s n' c', run (apply_call (CallWrite d) (w, false)) env n c
      = Outcome (Some (Ok tt, (mkWriteHalf (conn_id w) false snd, false))) c'
          [Wrote (interfere (env (S n)) (next_seq (interfere (env n) c)).2)
             (with_sequence s (build_data (conn_id w) b (first_write w))) None] n').
    { unfold apply_call, write. rewrite Hpush. rewrite run_bind, run_map, run_send. cbn.
      rewrite Henv. eauto. }
    destruct Hcall as (s & n' & c' & Hcall).
    destruct (run_calls_cons (CallWrite d) (map CallWrite datas ++ [CallCloseWrite]) (w, false) env n c
      (Ok tt) (mkWriteHalf (conn_id w) false snd, false)) as (c2 & n2 & Htr); [by rewrite Hcall|].
    rewrite Htr, Hcall in Hq. cbn [trace] in Hq. rewrite sent_app in Hq.
    apply Forall2_cons_inv_l in Hq as (m & q' & Hm & Hq & ->).
    pose proof (relayed_type _ _ Hm) as Hct. pose proof (relayed_body _ _ Hm) as Hb.
    assert (Hnf : has_fin m = false).
    { rewrite (relayed_has_fin _ _ Hm). apply has_fin_build_data. }
    assert (Hbody : body m = b) by (rewrite Hb; by destruct (first_write w)).
    assert (Htype : content_type m = CT_DATA) by (rewrite Hct; by destruct (first_write w)).
    pose proof (proj1 Hp) as Hr. pose proof (proj1 Hp') as Hr'. cbn [length] in Hfuel. rewrite <-Hbody in Hread.
    case_bool_decide as Hd.
    + rewrite (read_all_skip fuel m q' open r fin r') by done.
      rewrite filter_cons_False by naive_solver. eapply IH; [done|lia|exact Hq].
    + destruct fuel; [lia|]. rewrite (read_all_some fuel m q' open r fin r' d) by done.
      rewrite filter_cons_True by done. erewrite IH; [done|done|lia|exact Hq].
Qed.

(** The header frame brings a fresh read half in step with its peer. *)
Lemma header_frame tx rnd id :
  let '(snd, hdr) := init_push tx rnd in
  let r := mkReadHalf false (Some (mkReadCrypto (Some (init_pull tx hdr)) None)) in
  read_data (mkReadHalf false (Some (mkReadCrypto None (Some tx)))) hdr = (None, r) ∧
  peers (mkWriteHalf id false (Some snd)) r.
Proof.
  pose proof (init_push_header tx rnd) as Hlen. pose proof (init_in_step tx rnd) as Hstep.
  destruct (init_push tx rnd) as [snd hdr]. cbn in *. split; [|by split].
  unfold read_data. cbn [crypto]. by rewrite bool_decide_true.
Qed.

Lemma server_crypto_setup_ok kh dial kc rx tx rnd :
  client_session_keys kc (public_key kh) = Ok (rx, tx) →
  headers dial !! HDR_PUBLIC_KEY = Some (public_key kc) →
  crypto_method dial = CRYPTO_METHOD_LIBSODIUM →
  server_crypto_setup (Some kh) dial rnd
  = Ok (Some (mkConnCrypto (init_push rx rnd).1 None (Some tx), (init_push rx rnd).2)).
Proof.
  intros Hk Hpk Hm. unfold server_crypto_setup.
  rewrite Hpk, Hm, Z.eqb_refl, bool_decide_true by apply public_key_length. cbn [negb].
  rewrite (kx_agree _ _ _ _ Hk). cbn. by destruct (init_push rx rnd).
Qed.

(** ** Properties *)

(** A half-closed connection: whatever a caller does with the write half,
    and whenever the peer's StateClosed is read, at most one FIN reaches the
    wire and no data frame follows it. *)
Theorem fin_is_last_data (os : list call) (w : EdgeWriteHalf) env n c pre m post :
  data_frames (trace (run (apply_calls os (w, false)) env n c)) = pre ++ m :: post →
  has_fin m = true → post = [].
Proof.
  intros Hd Hfin. revert w n c pre Hd. induction os as [|o os IH]; intros w n c pre Hd.
  { by destruct pre. }
  destruct (apply_call_sent o w false env n c) as (r & w' & fin' & Hres & _ & Hone).
  destruct (run_calls_cons o os _ env n c _ _ Hres) as (c' & n' & Htr).
  rewrite Htr, data_frames_app in Hd. destruct Hone as [Hnil|(m' & Hm' & Hm'fin)].
  - rewrite Hnil in Hd. destruct fin'; [|by eapply IH].
    rewrite calls_after_fin in Hd. by destruct pre.
  - rewrite Hm' in Hd. destruct pre as [|m'' pre]; injection Hd as <- Hd.
    + rewrite (Hm'fin Hfin) in Hd. by rewrite calls_after_fin in Hd.
    + destruct fin'; [rewrite calls_after_fin in Hd; by destruct pre|]. by eapply IH.
Qed.

(** C7. End to end, encrypted: a dialer's writes and its FIN, relayed to the
    host as frames that keep type, body and flags, are read back there as the
    same data in the same order (empty writes excepted), and then the end of
    the stream.  The keys are the ones the host derives from the dialer's
    header; the first relayed frame is the dialer's stream header. *)
Theorem encrypted_stream_delivery (kc kh : KeyPair) (dial : Message) (rx tx rc rh : list Z)
    (idc idh : Z) (datas : list (list Z)) env n c (q : list Message) (open : bool) circuit source :
  client_session_keys kc (public_key kh) = Ok (rx, tx) →
  headers dial !! HDR_PUBLIC_KEY = Some (public_key kc) →
  crypto_method dial = CRYPTO_METHOD_LIBSODIUM →
  (∀ n, write_err (env n) = None) →
  let '(snd, hdr) := init_push tx rc in
  let wr := writer (EdgeConn_new idc None None (Some (mkConnCrypto snd None (Some rx)))) in
  let stream := run (apply_calls (map CallWrite datas ++ [CallCloseWrite]) (wr, false)) env n c in
  Forall2 relayed (build_data idc hdr true :: sent (trace stream)) q →
  ∃ cc hh, server_crypto_setup (Some kh) dial rh = Ok (Some (cc, hh)) ∧
    read_all (S (length datas)) q open (reader (EdgeConn_new idh circuit source (Some cc))) false
    = (filter (λ d, d ≠ []) datas, Done (Ok None)).
Proof.
  intros Hk Hpk Hm Henv. pose proof (header_frame tx rc idc) as Hhdr.
  destruct (init_push tx rc) as [snd hdr]. destruct Hhdr as [Hread Hp].
  cbn zeta. intros Hq. rewrite (server_crypto_setup_ok _ _ _ _ _ _ Hk Hpk Hm).
  eexists _, _. split; [reflexivity|].
  apply Forall2_cons_inv_l in Hq as (m & q' & Hm' & Hq & ->).
  erewrite read_all_skip.
  - eapply stream_frames; [exact Hp|exact Henv|lia|exact Hq].
  - done.
  - by rewrite (relayed_type _ _ Hm').
  - rewrite (relayed_has_fin _ _ Hm'). reflexivity.
  - rewrite (relayed_body _ _ Hm'). exact Hread.
  - done.
Qed.

(** End to end, plaintext: the same for a service without encryption. *)
Theorem plain_stream_delivery (idc idh : Z) (datas : list (list Z)) env n c (q : list Message)
    (open : bool) circuit source :
  (∀ n, write_err (env n) = None) →
  let wr := writer (EdgeConn_new idc None None None) in
  let stream := run (apply_calls (map CallWrite datas ++ [CallCloseWrite]) (wr, false)) env n c in
  Forall2 relayed (sent (trace stream)) q →
  read_all (S (length datas)) q open (reader (EdgeConn_new idh circuit source None)) false
  = (filter (λ d, d ≠ []) datas, Done (Ok None)).
Proof. intros Henv wr stream Hq. by eapply stream_frames; [| |lia|exact Hq]. Qed.
End peers.
End conn.

(** The frames of two writes and a FIN, as a router would pass them on: under
    its own connection id. *)
Definition relay (m : Message) : Message := with_header HDR_CONN_ID (u32_to_le 9) (with_sequence 77 m).

Lemma relay_relayed ms : Forall2 relayed ms (map relay ms).
Proof.
  induction ms as [|m ms IH]; constructor; [|done].
  split; [done|done|]. cbn. by rewrite lookup_insert_ne.
Qed.

Lemma fin_is_last_data_witness :
  let os := [CallWrite [1]; CallCloseWrite; CallWrite [2]; CallCloseWrite; CallClose] in
  let tr := trace (run (apply_calls (H := toy_stream) os (mkWriteHalf (H := toy_stream) 5 true None, false))
    (λ _, quiet) 0 chan_new) in
  ∃ pre m post, data_frames tr = pre ++ m :: post ∧ has_fin m = true ∧ post = [].
Proof.
  intros os tr. eexists _, _, []. split; [|split; [|
    apply (fin_is_last_data (H := toy_stream) os (mkWriteHalf (H := toy_stream) 5 true None)
      (λ _, quiet) 0%nat chan_new [with_sequence 1 (build_data 5 [1] true)]
      (with_sequence 2 (fin_message 5)) [])]].
  - instantiate (2 := [_]). reflexivity.
  - reflexivity.
  - reflexivity.
  - reflexivity.
Defined.

Lemma plain_stream_delivery_witness :
  let s := run (apply_calls (H := toy_stream) (map CallWrite [[1; 2]; []; [3]] ++ [CallCloseWrite])
    (mkWriteHalf (H := toy_stream) 5 true None, false)) (λ _, quiet) 0 chan_new in
  read_all (H := toy_stream) 4 (map relay (sent (trace s))) true (mkReadHalf (H := toy_stream) false None) false
  = ([[1; 2]; [3]], Done (Ok None)).
Proof.
  intros s.
  apply (plain_stream_delivery (H := toy_stream) 5 6 [[1; 2]; []; [3]] (λ _, quiet) 0%nat chan_new
    (map relay (sent (trace s))) true None None); [reflexivity|apply relay_relayed].
Defined.

Lemma encrypted_stream_delivery_witness :
  let dial := with_header HDR_PUBLIC_KEY (replicate 32 1) (Message_new CT_DIAL []) in
  let s := run (apply_calls (H := toy_stream) (map CallWrite [[1; 2]; []; [3]] ++ [CallCloseWrite])
    (mkWriteHalf (H := toy_stream) 5 false (Some 0), false)) (λ _, quiet) 0 chan_new in
  let q := map relay (build_data 5 (replicate 24 0) true :: sent (trace s)) in
  ∃ cc hh, server_crypto_setup (H := toy_stream) (Some (replicate 32 2)) dial [] = Ok (Some (cc, hh)) ∧
    read_all (H := toy_stream) 4 q true (reader (EdgeConn_new (H := toy_stream) 6 None None (Some cc))) false
    = ([[1; 2]; [3]], Done (Ok None)).
Proof.
  intros dial s q.
  apply (encrypted_stream_delivery (H := toy_stream) (replicate 32 1) (replicate 32 2) dial
    (replicate 32 2) (replicate 32 1) [] [] 5 6 [[1; 2]; []; [3]] (λ _, quiet) 0%nat chan_new q true None None).
  - reflexivity.
  - reflexivity.
  - reflexivity.
  - reflexivity.
  - apply relay_relayed.
Defined.
