(* ===== verification/Requests.v ===== *)
(** * Requests on a channel: [src/edge/data/channel.rs], [data/channel_state.rs], [data/wire.rs]

    Latency probes, token updates, dials and binds: tasks that register a reply
    waiter, write one frame and wait.  A waiter or queue sender is named by the
    number its [channel()] call got. *)

From S2P Require Import Prelude Utf8 Message EdgeWire ChannelState Async Crypto Conn.

Definition add_waiter (s : Z) (w : nat) : prog unit := modify (insert_waiter s w).
Definition drop_waiter (s : Z) : prog unit := modify (remove_waiter s).
Definition drop_conn (id : Z) : prog unit := modify (remove_conn id).
Definition drop_bind (id : Z) : prog unit := modify (remove_bind id).

(** ** Latency probe *)

Inductive ProbeOutcome : Type := Alive | Timeout | WriteError | ProbeClosed.

(** [u64::try_from(..).unwrap_or(u64::MAX)]. *)
Definition to_u64 (n : Z) : Z := if (0 <=? n) && (n <=? u64_max) then n else u64_max.

(** [ChannelState::send_latency_probe]; a write that exceeds the timeout is a
    failed write. *)
Definition send_latency_probe (w : nat) : prog ProbeOutcome :=
  s ← get_seq;
  _ ← add_waiter s w;
  t ← now;
  let now_nanos := to_u64 t in
  e ← Async.write (with_sequence s (build_latency_probe now_nanos));
  match e with
  | Some _ => _ ← drop_waiter s; mret WriteError
  | None =>
      r ← await true;
      match r with
      | Got _ =>
          t' ← now;
          _ ← modify (record_latency (sat_sub (to_u64 t') now_nanos));
          mret Alive
      | Dropped => mret ProbeClosed
      | Elapsed => _ ← drop_waiter s; mret Timeout
      end
  end.

(** [shutdown_channel_write]. *)
Definition shutdown_channel_write : prog unit := shutdown.

Definition nanos_of_millis (ms : Z) : Z := ms * 1000000.

(** One turn of [run_latency_probe]'s loop after its sleep: whether it goes on.
    [interval] and [timeout] are in milliseconds. *)
Definition latency_probe_turn (interval timeout : Z) (w : nat) : prog bool :=
  cl ← get_closed;
  if (cl : bool) then mret false
  else
    o ← send_latency_probe w;
    match o with
    | Alive => mret true
    | Timeout =>
        t ← now;
        since ← get_since_last_read (to_u64 (t / 1000000));
        if to_u64 interval <? since then
          _ ← modify mark_closed; _ ← shutdown_channel_write; mret false
        else _ ← modify (record_latency (to_u64 (nanos_of_millis timeout))); mret true
    | WriteError => _ ← modify mark_closed; _ ← shutdown_channel_write; mret false
    | ProbeClosed => mret false
    end.

(** The loop itself, for a number of turns; [false] when it returned. *)
Fixpoint run_latency_probe (turns : nat) (interval timeout : Z) (w : nat) : prog bool :=
  match turns with
  | O => mret true
  | S turns =>
      go ← latency_probe_turn interval timeout w;
      if (go : bool) then run_latency_probe turns interval timeout (S w) else mret false
  end.

(** ** UpdateToken *)

Definition update_token (new_token : string) (w : nat) : prog (result EdgeError unit) :=
  s ← get_seq;
  _ ← add_waiter s w;
  e ← Async.write (with_sequence s (build_update_token (bytes_of_string new_token)));
  match e with
  | Some e => _ ← drop_waiter s; mret (Err (Channel e))
  | None =>
      r ← await true;
      match r with
      | Got rep => mret (classify_update_token_reply rep)
      | Dropped => mret (Err ChannelClosed)
      | Elapsed =>
          _ ← drop_waiter s;
          mret (Err (UpdateTokenFailed "timed out waiting for UpdateToken reply"))
      end
  end.

(** [send_dial_failed]. *)
Definition send_dial_failed (id dial_seq : Z) (reason : string) : prog unit :=
  _ ← send (with_header HDR_REPLY_FOR (i32_to_le dial_seq) (build_dial_failed id reason));
  mret tt.

(** ** Dial *)

Section dial.
Context `{SecretStream}.

(** [EdgeChannel::establish_client_crypto]. *)
Definition establish_client_crypto (id : Z) (keypair : option KeyPair) (rep : Message) (rnd : list Z)
    : prog (result EdgeError (option ConnCrypto)) :=
  match keypair with
  | None => mret (Ok None)
  | Some kp =>
      match headers rep !! HDR_PUBLIC_KEY with
      | None => mret (Ok None)
      | Some pk =>
          if negb (crypto_method rep =? CRYPTO_METHOD_LIBSODIUM) then mret (Err UnsupportedCrypto)
          else if negb (bool_decide (length pk = 32%nat)) then
            mret (Err (EdgeWire.Crypto ("host public key must be 32 bytes, got " +:+ pretty (length pk))))
          else
            match client_session_keys kp pk with
            | Err e => mret (Err (EdgeWire.Crypto (crypto_error_string e)))
            | Ok (rx, tx) =>
                let '(snd, hdr) := init_push tx rnd in
                e ← send (build_data id hdr true);
                match e with
                | Some e => mret (Err (Channel e))
                | None => mret (Ok (Some (mkConnCrypto snd None (Some rx))))
                end
            end
      end
  end.

(** What [dial] draws from its environment: the names of its queue and waiter,
    the fresh key pair, the marker and the stream's random bytes. *)
Record dial_env : Type := DialEnv {
  data_tx : nat;
  reply_tx : nat;
  fresh_keypair : KeyPair;
  marker : string;
  stream_rnd : list Z
}.

Definition string_header (m : Message) (key : Z) : option string :=
  from_utf8_lossy <$> headers m !! key.

(** [EdgeChannel::dial]. *)
Definition dial (token : string) (encryption_required : bool) (caller_id : option string)
    (app_data : option (list Z)) (d : dial_env) : prog (result EdgeError EdgeConn) :=
  id ← get_conn_id;
  s ← get_seq;
  cl ← get_closed;
  if (cl : bool) then mret (Err ChannelClosed)
  else
    _ ← modify (register_conn id (data_tx d));
    _ ← add_waiter s (reply_tx d);
    let keypair := if encryption_required then Some (fresh_keypair d) else None in
    e ← Async.write (with_sequence s
          (build_connect id token (marker d) (public_key <$> keypair) caller_id app_data));
    match e with
    | Some e => _ ← modify mark_closed; mret (Err (Channel e))
    | None =>
        r ← await false;
        match r with
        | Got rep =>
            match classify_dial_reply rep with
            | Ok state_connected =>
                let circuit := string_header state_connected HDR_CIRCUIT_ID in
                cr ← establish_client_crypto id keypair state_connected (stream_rnd d);
                match cr with
                | Ok cc => mret (Ok (EdgeConn_new id circuit None cc))
                | Err e => _ ← drop_conn id; mret (Err e)
                end
            | Err e => _ ← drop_conn id; mret (Err e)
            end
        | _ => _ ← drop_conn id; mret (Err ChannelClosed)
        end
    end.
End dial.

(** ** Bind *)

Definition send_bind (token listener_id : string) (pubkey : option (list Z)) (bind_tx reply_tx : nat)
    : prog (result EdgeError (Z * nat)) :=
  id ← get_conn_id;
  s ← get_seq;
  _ ← add_waiter s reply_tx;
  _ ← modify (register_bind id bind_tx);
  e ← Async.write (with_sequence s (build_bind id token listener_id pubkey));
  match e with
  | Some e => _ ← drop_waiter s; _ ← drop_bind id; mret (Err (Channel e))
  | None =>
      r ← await false;
      match r with
      | Got rep =>
          match classify_bind_reply rep with
          | Ok _ => mret (Ok (id, bind_tx))
          | Err e => _ ← drop_bind id; mret (Err e)
          end
      | _ => _ ← drop_bind id; mret (Err ChannelClosed)
      end
  end.

Definition send_unbind (id : Z) (token : string) : prog (result EdgeError unit) :=
  e ← send (build_unbind id token); mret (sent_result e).

(** ** Observations *)

(** The first frame a task wrote, with the state it found. *)
Fixpoint first_frame (tr : list event) : option (chan * Message) :=
  match tr with
  | [] => None
  | Wrote c m _ :: _ => Some (c, m)
  | ShutDown :: tr => first_frame tr
  end.

(** The task's own waiter stays in place until its request is written: no reply
    to a frame not yet sent comes in and no teardown runs. *)
Definition keeps_own_waiter (w : nat) (env : nat → ev) : Prop :=
  ∀ n c s, waiters c !! s = Some w → waiters (interfere (env n) c) !! s = Some w.

(** The first frame written finds its reply waiter in place. *)
Definition waiter_first {A} (p : prog A) (w : nat) : Prop :=
  ∀ env n c c' m, keeps_own_waiter w env →
    first_frame (trace (run p env n c)) = Some (c', m) → waiters c' !! sequence m = Some w.

(** ** Lemmas *)

Lemma waiters_register_conn id q c : waiters (register_conn id q c) = waiters c.
Proof. unfold register_conn. by destruct (closed c). Qed.

Lemma waiters_register_bind id q c : waiters (register_bind id q c) = waiters c.
Proof. unfold register_bind. by destruct (closed c). Qed.

Lemma probe_waiter_first w : waiter_first (send_latency_probe w) w.
Proof.
  intros env n c c' m Henv H. cbn in H. unfold with_event in H. cbn in H. injection H as <- <-.
  cbn. apply Henv, Henv. cbn. by rewrite lookup_insert_eq.
Qed.

Lemma update_token_waiter_first t w : waiter_first (update_token t w) w.
Proof.
  intros env n c c' m Henv H. cbn in H. injection H as <- <-.
  cbn. apply Henv. cbn. by rewrite lookup_insert_eq.
Qed.

Lemma bind_waiter_first token lid pk b w : waiter_first (send_bind token lid pk b w) w.
Proof.
  intros env n c c' m Henv H. cbn in H.
  destruct (next_conn_id (interfere (env n) c)) as [[id c1]|]; [|done]. cbn in H. injection H as <- <-.
  cbn. apply Henv. rewrite waiters_register_bind. apply Henv. cbn. by rewrite lookup_insert_eq.
Qed.

Lemma dial_waiter_first `{SecretStream} token enc caller app d :
  waiter_first (dial token enc caller app d) (reply_tx d).
Proof.
  intros env n c c' m Henv Hw. cbn in Hw.
  destruct (next_conn_id (interfere (env n) c)) as [[id c1]|]; [|done]. cbn in Hw.
  destruct (is_closed _); [done|]. cbn in Hw. injection Hw as <- <-.
  cbn. apply Henv. cbn. by rewrite lookup_insert_eq.
Qed.

Lemma next_conn_id_conns c id c' :
  u32_ok (next_id c) → next_conn_id c = Some (id, c') →
  c' = set_next_id id c ∧ conns c !! id = None ∧ binds c !! id = None ∧ u32_ok id.
Proof.
  intros Hc H. destruct (next_conn_id_Some _ _ _ Hc H) as (Hfree & Hrange & ->).
  unfold conn_id_in_use in Hfree. apply orb_false_iff in Hfree as [H1 H2].
  apply bool_decide_eq_false in H1, H2. split_and!; [done|by apply eq_None_not_Some..|].
  change MAX_CONN_ID with 2147483646 in Hrange. unfold u32_ok, u32_max, MIN_CONN_ID in *. lia.
Qed.

Section dial_lemmas.
Context `{SecretStreamLaws}.

(** The client's crypto setup sends nothing or the stream header, and leaves the
    registrations alone. *)
Lemma establish_client_crypto_run id kp rep rnd env n c :
  keeps_conn id env → keeps_closed env →
  let o := run (establish_client_crypto id kp rep rnd) env n c in
  conns (final o) !! id = conns c !! id ∧ (closed c = true → closed (final o) = true) ∧
  match res o with
  | Some (Ok None) => sent (trace o) = []
  | Some (Ok (Some cc)) =>
      ∃ s hdr, sent (trace o) = [with_sequence s (build_data id hdr true)] ∧
        length hdr = STREAM_HEADER_BYTES
  | Some (Err _) => sent (trace o) = []
  | None => False
  end.
Proof.
  intros Hk Hc. unfold establish_client_crypto. destruct kp as [kp|]; [|done].
  destruct (headers rep !! HDR_PUBLIC_KEY) as [pk|]; [|done].
  destruct (negb _); [done|]. destruct (negb _); [done|].
  destruct (client_session_keys kp pk) as [[rx tx]|]; [|done].
  pose proof (init_push_header tx rnd) as Hlen. destruct (init_push tx rnd) as [snd hdr].
  cbn -[build_data]. destruct (write_err (env (S n))) eqn:E; cbn -[build_data];
    rewrite Hk; cbn -[build_data]; rewrite Hk; split_and!; try done; try (intros; by apply Hc, Hc).
  eexists _, hdr. split; [reflexivity|done].
Qed.

End dial_lemmas.

(** A probe turn on an otherwise idle channel. *)
Lemma probe_turn_run interval timeout w env n c :
  closed c = false → (∀ n, interfere (env n) = id) →
  let o := run (latency_probe_turn interval timeout w) env n c in
  let s := (next_seq c).1 in
  let sent_at := to_u64 (clock (env (3 + n)%nat)) in
  let c1 := insert_waiter s w (next_seq c).2 in
  let c2 := set_wire (wire c1 ++ [with_sequence s (build_latency_probe sent_at)]) c1 in
  match write_err (env (4 + n)%nat), reply (env (5 + n)%nat) with
  | Some _, _ => res o = Some false ∧ final o = mark_closed (remove_waiter s c1)
  | None, Got _ =>
      res o = Some true ∧ final o = record_latency (sat_sub (to_u64 (clock (env (6 + n)%nat))) sent_at) c2
  | None, Dropped => res o = Some false ∧ final o = c2
  | None, Elapsed =>
      if to_u64 interval <? sat_sub (to_u64 (clock (env (7 + n)%nat) / 1000000)) (last_read c)
      then res o = Some false ∧ final o = mark_closed (remove_waiter s c2)
      else res o = Some true ∧ final o = record_latency (to_u64 (nanos_of_millis timeout)) (remove_waiter s c2)
  end.
Proof.
  intros Hcl Hid. cbn. rewrite !Hid. unfold is_closed. cbn. rewrite Hcl. cbn. rewrite !Hid. cbn.
  destruct (write_err (env (S (S (S (S n)))))); cbn; rewrite ?Hid; cbn; rewrite ?Hid; [done|].
  destruct (reply (env (S (S (S (S (S n))))))); cbn; rewrite ?Hid; cbn; rewrite ?Hid; [done|done|].
  unfold millis_since_last_read. cbn.
  destruct (_ <? _); cbn; rewrite ?Hid; cbn; rewrite ?Hid; done.
Qed.

(** ** Properties *)

(** No reply can be missed: a probe, a token update, a dial and a bind all
    have their reply waiter registered under the sequence number of their
    request when they write it. *)
Theorem request_waits_before_it_writes `{SecretStream} (w b : nat) (t token lid : string)
    (pk : option (list Z)) (enc : bool) (caller : option string) (app : option (list Z)) (d : dial_env) :
  waiter_first (send_latency_probe w) w ∧ waiter_first (update_token t w) w ∧
  waiter_first (send_bind token lid pk b w) w ∧ waiter_first (dial token enc caller app d) (reply_tx d).
Proof.
  split_and!; [apply probe_waiter_first|apply update_token_waiter_first|apply bind_waiter_first|
    apply dial_waiter_first].
Qed.

Section dial_property.
Context `{SecretStreamLaws}.

End dial_property.

(** A bind: one that fails leaves nothing in the bind map; one that
    succeeds has sent exactly the Bind frame and its queue is registered (or the
    channel is closed). *)
Theorem bind_outcome token lid pk q w env c id c1 :
  keeps_bind id env → keeps_closed env → u32_ok (next_id (interfere (env 0%nat) c)) →
  next_conn_id (interfere (env 0%nat) c) = Some (id, c1) →
  let o := run (send_bind token lid pk q w) env 0 c in
  match res o with
  | Some (Err _) => binds (final o) !! id = None
  | Some (Ok (id', q')) =>
      id' = id ∧ q' = q ∧ (binds (final o) !! id = Some q ∨ closed (final o) = true) ∧
      ∃ s, sent (trace o) = [with_sequence s (build_bind id token lid pk)]
  | None => True
  end.
Proof.
  intros Hk Hc Hu Hid. destruct (next_conn_id_conns _ _ _ Hu Hid) as (-> & _ & Hfree & _).
  cbn -[build_bind classify_bind_reply]. rewrite Hid. cbn -[build_bind classify_bind_reply].
  destruct (write_err (env 4%nat)); cbn -[build_bind classify_bind_reply]; [apply lookup_delete_eq|].
  destruct (reply (env 5%nat)) as [rep| |]; cbn -[build_bind classify_bind_reply];
    [|apply lookup_delete_eq|done].
  destruct (classify_bind_reply rep) as [[]|e]; cbn -[build_bind]; [|apply lookup_delete_eq].
  split_and!; [done..| |eexists; reflexivity].
  rewrite Hk. cbn. rewrite Hk. unfold register_bind at 1.
  match goal with |- context [if closed ?s then _ else _] => destruct (closed s) eqn:E end.
  - right. apply Hc. cbn. apply Hc. unfold register_bind. by rewrite E.
  - left. apply lookup_insert_eq.
Qed.


(** The liveness probe: while the router answers, the loop neither closes
    the channel nor touches a registration, however long it runs; when it stays
    silent and nothing has been read for longer than the interval, the next turn
    closes the channel, clears every map, and ends the loop. *)
Theorem latency_probe_verdict (interval timeout : Z) (w turns : nat) env n c :
  closed c = false → (∀ n, interfere (env n) = id) → (∀ n, write_err (env n) = None) →
  let o := run (run_latency_probe (S turns) interval timeout w) env n c in
  ((∀ n, ∃ m, reply (env n) = Got m) →
    res o = Some true ∧ closed (final o) = false ∧ conns (final o) = conns c ∧ binds (final o) = binds c) ∧
  (reply (env (5 + n)%nat) = Elapsed →
   to_u64 interval < sat_sub (to_u64 (clock (env (7 + n)%nat) / 1000000)) (last_read c) →
    res o = Some false ∧ closed (final o) = true ∧
    waiters (final o) = ∅ ∧ conns (final o) = ∅ ∧ binds (final o) = ∅).
Proof.
  intros Hcl Hid Hw. split.
  - intros Hgot. cbn zeta. generalize (S turns) as k. intros k. revert w n c Hcl.
    induction k as [|k IH]; intros w n c Hcl; [done|]. cbn [run_latency_probe].
    rewrite run_bind. pose proof (probe_turn_run interval timeout w env n c Hcl Hid) as Ht.
    cbn zeta in *. rewrite Hw in Ht. destruct (Hgot (5 + n)%nat) as [m Hm]. rewrite Hm in Ht.
    destruct Ht as [-> ->]. cbn [res final].
    destruct (IH (S w) (turn (run (latency_probe_turn interval timeout w) env n c))
      (record_latency (sat_sub (to_u64 (clock (env (6 + n)%nat))) (to_u64 (clock (env (3 + n)%nat))))
        (set_wire (wire (insert_waiter (next_seq c).1 w (next_seq c).2) ++
           [with_sequence (next_seq c).1 (build_latency_probe (to_u64 (clock (env (3 + n)%nat))))])
           (insert_waiter (next_seq c).1 w (next_seq c).2)))) as (H1 & H2 & H3 & H4); [done|].
    split_and!; done.
  - intros Hrep Hlate. cbn zeta. cbn [run_latency_probe]. rewrite run_bind.
    pose proof (probe_turn_run interval timeout w env n c Hcl Hid) as Ht.
    cbn zeta in *. rewrite Hw, Hrep in Ht.
    destruct (_ <? _) eqn:E in Ht; [|bool_to_prop; lia]. destruct Ht as [-> ->].
    cbn. unfold mark_closed. cbn. rewrite Hcl. done.
Qed.

(** ** Witnesses *)

(** A scheduler that answers each wait with [m] and lets time pass. *)
Definition answering (m : Message) : nat → ev := λ n, Ev id (Z.of_nat n * 10000000000) None (Got m).


Lemma bind_outcome_witness :
  let o := run (send_bind "tok" "lid" None 7 8) (answering (Message_new CT_STATE_CLOSED [])) 0 chan_new in
  res o = Some (Err (BindRejected "")) ∧ binds (final o) !! 1 = None.
Proof.
  intros o.
  pose proof (bind_outcome "tok" "lid" None 7 8 (answering (Message_new CT_STATE_CLOSED []))
    chan_new 1 (set_next_id 1 chan_new)) as Hb.
  assert (E : res o = Some (Err (BindRejected ""))) by (vm_compute; reflexivity).
  split; [exact E|]. cbn zeta in Hb. fold o in Hb. rewrite E in Hb. apply Hb; [by intros ? ?|by intros ? ?|by_compute|vm_compute; reflexivity].
Defined.

Lemma latency_probe_verdict_witness :
  let env := λ n, Ev id (Z.of_nat n * 10000000000) None Elapsed in
  let o := run (run_latency_probe 3 30000 10000 0) env 0 (register_conn 1 5 chan_new) in
  res o = Some false ∧ conns (final o) = ∅.
Proof.
  intros env o.
  destruct (latency_probe_verdict 30000 10000 0 2 env 0 (register_conn 1 5 chan_new)) as [_ H];
    [done|done|done|].
  destruct H as (Hr & _ & _ & Hc & _); [done|by_compute|]. split; [exact Hr|exact Hc].
Defined.
