(* ===== verification/Accept.v ===== *)
(** * Hosting: [src/edge/data/channel.rs] ([accept_pending]), [data/accept.rs]

    The accept loop of a bind and the two ways to complete an accepted dial. *)

From S2P Require Import Prelude Utf8 Message EdgeWire ChannelState Async Crypto Conn Requests.

Section accept.
Context `{SecretStream}.

(** ** State (data/mod.rs) *)

Record PendingAccept : Type := mkPending {
  bind_conn_id : Z;
  child_id : Z;
  router_provided : bool;
  dial_seq : Z;
  pa_circuit_id : option string;
  pa_source_identity : option string;
  app_data : option (list Z);
  crypto_setup : option (ConnCrypto * list Z)
}.

(** ** The accept loop *)

(** The child's id: the router's when the Dial carries one, else a fresh one. *)
Definition child_conn_id (msg : Message) : prog (Z * bool) :=
  match header_u32 msg HDR_ROUTER_PROVIDED_CONN_ID with
  | Some id => mret (id, true)
  | None => id ← get_conn_id; mret (id, false)
  end.

(** [EdgeChannel::accept_pending] on the frames of the bind's queue, which is
    closed after the last one; [q] names the next [mpsc] channel, [rnd q] are the
    random bytes of its stream header.  The second component is what is left in
    the queue. *)
Fixpoint accept_pending (bind_id : Z) (token : string) (keypair : option KeyPair)
    (rnd : nat → list Z) (q : nat) (inbox : list Message)
    : prog (result EdgeError PendingAccept * list Message) :=
  match inbox with
  | [] => mret (Err ListenerClosed, [])
  | msg :: inbox =>
      if content_type msg =? CT_STATE_CLOSED then mret (Err ListenerClosed, inbox)
      else if negb (content_type msg =? CT_DIAL) then accept_pending bind_id token keypair rnd q inbox
      else if negb (bool_decide (body msg = bytes_of_string token)) then
        _ ← send_dial_failed bind_id (sequence msg) "invalid token";
        accept_pending bind_id token keypair rnd q inbox
      else
        '(child, provided) ← child_conn_id msg;
        _ ← modify (register_conn child q);
        match server_crypto_setup keypair msg (rnd q) with
        | Err _ =>
            _ ← modify (remove_conn child);
            _ ← send_dial_failed bind_id (sequence msg) "failed to establish crypto session";
            accept_pending bind_id token keypair rnd (S q) inbox
        | Ok setup =>
            mret (Ok (mkPending bind_id child provided (sequence msg)
              (string_header msg HDR_CIRCUIT_ID) (string_header msg HDR_CALLER_ID)
              (headers msg !! HDR_APPDATA) setup), inbox)
        end
  end.

(** ** Completing an accepted dial *)

(** [await_start_reply], the waiter being already in place. *)
Definition await_start_reply (child dial_s reply_seq : Z) : prog (result EdgeError unit) :=
  r ← await true;
  match r with
  | Got m =>
      if content_type m =? CT_STATE_CONNECTED then mret (Ok tt)
      else
        _ ← send (build_state_closed child);
        _ ← modify (remove_conn child);
        mret (Err (AcceptStartFailed
          ("failed to receive start after dial. got " +:+ pretty (content_type m))))
  | _ =>
      _ ← modify (remove_waiter reply_seq);
      _ ← modify (remove_conn child);
      _ ← send_dial_failed child dial_s "start reply not received";
      mret (Err (AcceptStartFailed "start reply not received"))
  end.

(** The host's stream header, when the child is encrypted. *)
Definition send_stream_header (pa : PendingAccept) : prog (result EdgeError (option ConnCrypto)) :=
  match crypto_setup pa with
  | Some (cc, tx_header) =>
      e ← send (build_data (child_id pa) tx_header true);
      match e with
      | Some e => _ ← modify (remove_conn (child_id pa)); mret (Err (Channel e))
      | None => mret (Ok (Some cc))
      end
  | None => mret (Ok None)
  end.

(** The last part of a successful accept. *)
Definition finish_accept (pa : PendingAccept) : prog (result EdgeError EdgeConn) :=
  cr ← send_stream_header pa;
  match cr with
  | Err e => mret (Err e)
  | Ok cc => mret (Ok (EdgeConn_new (child_id pa) (pa_circuit_id pa) (pa_source_identity pa) cc))
  end.

(** The DialSuccess frame, up to its sequence number. *)
Definition dial_success_frame (pa : PendingAccept) : Message :=
  with_header HDR_REPLY_FOR (i32_to_le (dial_seq pa)) (build_dial_success (bind_conn_id pa) (child_id pa)).

Definition complete_success (pa : PendingAccept) (start_tx : nat) : prog (result EdgeError EdgeConn) :=
  cl ← (if router_provided pa then mret false else get_closed);
  if (cl : bool) then
    _ ← modify (remove_conn (child_id pa));
    _ ← send_dial_failed (child_id pa) (dial_seq pa) "start reply not received";
    mret (Err (AcceptStartFailed "start reply not received"))
  else
    reply_seq ← get_seq;
    _ ← (if router_provided pa then mret tt else modify (insert_waiter reply_seq start_tx));
    e ← Async.write (with_sequence reply_seq (dial_success_frame pa));
    match e with
    | Some e =>
        _ ← (if router_provided pa then mret tt else modify (remove_waiter reply_seq));
        _ ← modify (remove_conn (child_id pa));
        mret (Err (Channel e))
    | None =>
        st ← (if router_provided pa then mret (Ok tt)
              else await_start_reply (child_id pa) (dial_seq pa) reply_seq);
        match (st : result EdgeError unit) with
        | Err e => mret (Err e)
        | Ok _ => finish_accept pa
        end
    end.

Definition complete_failed (pa : PendingAccept) (reason : string) : prog unit :=
  _ ← send_dial_failed (bind_conn_id pa) (dial_seq pa) reason;
  _ ← send (build_state_closed (child_id pa));
  modify (remove_conn (child_id pa)).

(** [EdgeChannel::accept_next]. *)
Definition accept_next (bind_id : Z) (token : string) (keypair : option KeyPair) (rnd : nat → list Z)
    (q start_tx : nat) (inbox : list Message) : prog (result EdgeError EdgeConn * list Message) :=
  '(r, inbox) ← accept_pending bind_id token keypair rnd q inbox;
  match r with
  | Err e => mret (Err e, inbox)
  | Ok pa => conn ← complete_success pa start_tx; mret (conn, inbox)
  end.

(** ** What the loop sends *)

(** The rejection of one frame of the queue: none for what is not a Dial. *)
Definition rejection (token : string) (keypair : option KeyPair) (msg : Message)
    : option string :=
  if negb (content_type msg =? CT_DIAL) then None
  else if negb (bool_decide (body msg = bytes_of_string token)) then Some "invalid token"%string
  else if is_ok (server_crypto_setup keypair msg []) then None
  else Some "failed to establish crypto session"%string.

(** A Dial the loop returns. *)
Definition acceptable (token : string) (keypair : option KeyPair) (msg : Message) : bool :=
  (content_type msg =? CT_DIAL) && bool_decide (body msg = bytes_of_string token)
  && is_ok (server_crypto_setup keypair msg []).

Definition dial_failed_frame (id : Z) (dial_s : Z) (reason : string) : Message :=
  with_header HDR_REPLY_FOR (i32_to_le dial_s) (build_dial_failed id reason).

(** The rejections the loop owes for a prefix of the queue. *)
Definition rejections (bind_id : Z) (token : string) (keypair : option KeyPair)
    (pre : list Message) : list Message :=
  omap (λ msg, dial_failed_frame bind_id (sequence msg) <$> rejection token keypair msg) pre.

(** The frames sent, up to their sequence numbers. *)
Definition sends (tr : list event) (ms : list Message) : Prop :=
  Forall2 (λ m m', ∃ s, m' = with_sequence s m) ms (sent tr).

(** What the loop promises about a queue. *)
Definition accept_spec (bind_id : Z) (token : string) (keypair : option KeyPair) (inbox : list Message)
    (o : outcome (result EdgeError PendingAccept * list Message)) : Prop :=
  match res o with
  | Some (r, rest) =>
      ∃ pre, sends (trace o) (rejections bind_id token keypair pre) ∧
        Forall (λ m, content_type m ≠ CT_STATE_CLOSED ∧ acceptable token keypair m = false) pre ∧
        match r with
        | Ok pa =>
            ∃ msg, inbox = pre ++ msg :: rest ∧ acceptable token keypair msg = true ∧
              bind_conn_id pa = bind_id ∧ dial_seq pa = sequence msg ∧
              app_data pa = headers msg !! HDR_APPDATA ∧
              (if router_provided pa
               then header_u32 msg HDR_ROUTER_PROVIDED_CONN_ID = Some (child_id pa)
               else header_u32 msg HDR_ROUTER_PROVIDED_CONN_ID = None) ∧
              (is_Some (conns (final o) !! child_id pa) ∨ closed (final o) = true)
        | Err e =>
            e = ListenerClosed ∧
            ((rest = [] ∧ inbox = pre) ∨
             ∃ msg, content_type msg = CT_STATE_CLOSED ∧ inbox = pre ++ msg :: rest)
        end
  | None => Exists (λ m, content_type m = CT_DIAL ∧ header_u32 m HDR_ROUTER_PROVIDED_CONN_ID = None) inbox
  end.

(** The frames of a completed accept. *)
Definition success_frames (pa : PendingAccept) : list Message :=
  dial_success_frame pa
  :: match crypto_setup pa with
     | Some (_, hdr) => [build_data (child_id pa) hdr true]
     | None => []
     end.

(** ** Lemmas *)

Lemma server_crypto_setup_rnd kp msg r r' :
  is_ok (server_crypto_setup kp msg r) = is_ok (server_crypto_setup kp msg r').
Proof.
  unfold server_crypto_setup. destruct kp; [|done]. destruct (headers msg !! _); [|done].
  do 2 (destruct (negb _); [done|]). destruct (server_session_keys _ _) as [[rx tx]|]; [|done].
  cbn. by destruct (init_push tx r), (init_push tx r').
Qed.

Lemma sends_nil : sends [] [].
Proof. constructor. Qed.

Lemma sends_app tr1 tr2 ms1 ms2 : sends tr1 ms1 → sends tr2 ms2 → sends (tr1 ++ tr2) (ms1 ++ ms2).
Proof. unfold sends. rewrite sent_app. apply Forall2_app. Qed.

(** A sent frame: the sequence number is the only thing the state decides. *)
Lemma run_send_ok {A} m (k : option ChannelError → prog A) env n c :
  (∀ n, write_err (env n) = None) →
  ∃ c' tr, run (send m ≫= k) env n c
    = (let o := run (k None) env (S (S n)) c' in Outcome (res o) (final o) (tr ++ trace o) (turn o)) ∧
  sends tr [m].
Proof.
  intros Henv. rewrite run_bind, run_send. cbn zeta. cbn [res final trace turn]. rewrite Henv.
  eexists _, _. split; [reflexivity|]. constructor; [|constructor]. eauto.
Qed.

Lemma run_send_dial_failed {A} id s reason (k : unit → prog A) env n c :
  (∀ n, write_err (env n) = None) →
  ∃ c' tr, run (send_dial_failed id s reason ≫= k) env n c
    = (let o := run (k tt) env (S (S n)) c' in Outcome (res o) (final o) (tr ++ trace o) (turn o)) ∧
  sends tr [dial_failed_frame id s reason].
Proof.
  intros Henv. exact (run_send_ok _ (λ _, k tt) env n c Henv).
Qed.

(** The next task is a rejection: what it sends, and where the rest runs. *)
Ltac dial_failed_sent Henv c' tr Htr :=
  match goal with |- context [run (send_dial_failed ?id ?s ?reason ≫= ?k) ?env ?n ?c] =>
    destruct (run_send_dial_failed id s reason k env n c Henv) as (c' & tr & -> & Htr) end.

Lemma register_conn_lookup id q c :
  conns (register_conn id q c) !! id = Some q ∨ closed (register_conn id q c) = true.
Proof. unfold register_conn. destruct (closed c) eqn:E; [by right|left; apply lookup_insert_eq]. Qed.

(** A frame the loop passes over, with what it sends for it. *)
Lemma accept_spec_skip bind_id token kp m inbox o tr n :
  accept_spec bind_id token kp inbox o → content_type m ≠ CT_STATE_CLOSED →
  acceptable token kp m = false → sends tr (rejections bind_id token kp [m]) →
  accept_spec bind_id token kp (m :: inbox) (Outcome (res o) (final o) (tr ++ trace o) n).
Proof.
  intros Ho Hct Hacc Htr. unfold accept_spec in *. cbn [res trace final] in *.
  destruct (res o) as [[r rest]|]; [|by right].
  destruct Ho as (pre & Hs & Hpre & Hr). exists (m :: pre). split_and!.
  - change (m :: pre) with ([m] ++ pre). unfold rejections. rewrite omap_app. by apply sends_app.
  - by constructor.
  - destruct r as [pa|e].
    + destruct Hr as (msg & -> & Hrest). exists msg. split; [done|exact Hrest].
    + destruct Hr as [-> [[-> ->]|(msg & Hm & ->)]]; split; eauto.
Qed.

(** Where the child's id comes from. *)
Lemma run_child_conn_id {A} msg (k : Z * bool → prog A) env n c :
  (header_u32 msg HDR_ROUTER_PROVIDED_CONN_ID = None ∧ res (run (child_conn_id msg ≫= k) env n c) = None) ∨
  ∃ id provided n' c', run (child_conn_id msg ≫= k) env n c = run (k (id, provided)) env n' c' ∧
    header_u32 msg HDR_ROUTER_PROVIDED_CONN_ID = (if provided then Some id else None).
Proof.
  unfold child_conn_id. destruct (header_u32 msg _) as [id|].
  - right. by exists id, true, n, c.
  - cbn. destruct (next_conn_id (interfere (env n) c)) as [[id c']|]; [right|by left].
    exists id, false, (S n), c'. done.
Qed.

Lemma accept_pending_spec bind_id token kp rnd q inbox env n c :
  (∀ n, write_err (env n) = None) →
  accept_spec bind_id token kp inbox (run (accept_pending bind_id token kp rnd q inbox) env n c).
Proof.
  intros Henv. revert q n c. induction inbox as [|m inbox IH]; intros q n c; cbn [accept_pending].
  { exists []. split_and!; [apply sends_nil|done|done|by left]. }
  destruct (content_type m =? CT_STATE_CLOSED) eqn:Hcl; bool_to_prop.
  { exists []. split_and!; [apply sends_nil|done|done|right; eauto]. }
  destruct (negb (content_type m =? CT_DIAL)) eqn:Hd.
  { specialize (IH q n c). destruct (run _ _ _ _) as [o f tr k] in IH |- *.
    eapply (accept_spec_skip bind_id token kp m inbox (Outcome o f tr k) []) in IH; [exact IH|done|..].
    - unfold acceptable. apply negb_true_iff in Hd. by rewrite Hd.
    - unfold rejections, rejection. cbn. rewrite Hd. constructor. }
  destruct (negb (bool_decide _)) eqn:Hb.
  { dial_failed_sent Henv c' tr Htr.
    apply accept_spec_skip; [apply IH|done|..].
    - unfold acceptable. apply negb_true_iff in Hb. rewrite Hb. by destruct (_ =? _).
    - unfold rejections, rejection. cbn. rewrite Hd, Hb. exact Htr. }
  apply negb_false_iff in Hd as Hd', Hb as Hb'. bool_to_prop.
  match goal with |- context [run (child_conn_id m ≫= ?k) env n c] =>
    destruct (run_child_conn_id m k env n c) as [[Hnone Hres]|(id & provided & n' & c' & -> & Hprov)] end.
  { unfold accept_spec. rewrite Hres. left. by apply Z.eqb_eq in Hd'. }
  cbn [run mbind prog_bind modify]. set (c1 := register_conn id q _).
  destruct (server_crypto_setup kp m (rnd q)) as [setup|e] eqn:Hs.
  - cbn. exists []. split_and!; [apply sends_nil|done|]. exists m. cbn. split_and!; try done.
    + unfold acceptable. rewrite Hd', Hb'. cbn. by rewrite (server_crypto_setup_rnd kp m [] (rnd q)), Hs.
    + by destruct provided.
    + destruct (register_conn_lookup id q (interfere (env n') c')) as [Hl|Hl]; [left; eauto|by right].
  - cbn [run mbind prog_bind modify].
    dial_failed_sent Henv c3 tr Htr. apply accept_spec_skip; [apply IH|done|..].
    + unfold acceptable. rewrite (server_crypto_setup_rnd kp m [] (rnd q)), Hs. cbn. by rewrite andb_false_r.
    + unfold rejections, rejection. cbn. rewrite Hd, Hb, (server_crypto_setup_rnd kp m [] (rnd q)), Hs. exact Htr.
Qed.

Lemma run_finish_accept pa env n c :
  (∀ n, write_err (env n) = None) →
  let o := run (finish_accept pa) env n c in
  (∃ conn, res o = Some (Ok conn) ∧ conn_id (writer conn) = child_id pa ∧
    sender (writer conn) = cc_sender ∘ fst <$> crypto_setup pa) ∧
  sends (trace o) (drop 1 (success_frames pa)).
Proof.
  intros Henv. unfold finish_accept, send_stream_header, success_frames.
  destruct (crypto_setup pa) as [[cc hdr]|]; cbn -[build_data]; rewrite ?Henv; cbn -[build_data].
  - split; [eauto|]. constructor; [eauto|constructor].
  - split; [eauto|constructor].
Qed.

(** A success reply was written: the accept ends with an open connection. *)
Lemma run_opened pa x s env n c :
  (∀ n, write_err (env n) = None) →
  let o := run (finish_accept pa) env n c in
  (∃ conn, res o = Some (Ok conn) ∧ conn_id (writer conn) = child_id pa ∧
    sender (writer conn) = cc_sender ∘ fst <$> crypto_setup pa) ∧
  sends (Wrote x (with_sequence s (dial_success_frame pa)) None :: trace o) (success_frames pa).
Proof.
  intros Henv. destruct (run_finish_accept pa env n c Henv) as [Hres Hs].
  split; [exact Hres|]. constructor; [eauto|exact Hs].
Qed.

Lemma finish_accept_unregisters pa env n c e :
  res (run (finish_accept pa) env n c) = Some (Err e) →
  conns (final (run (finish_accept pa) env n c)) !! child_id pa = None.
Proof.
  unfold finish_accept, send_stream_header.
  destruct (crypto_setup pa) as [[cc hdr]|]; cbn -[build_data]; [|done].
  destruct (write_err (env (S n))); cbn -[build_data]; [|done].
  intros _. apply lookup_delete_eq.
Qed.

(** What completing an accept promises, when the frames can be written. *)
Definition completion_spec (pa : PendingAccept) (env : nat → ev) (c : chan) (o : outcome (result EdgeError EdgeConn)) : Prop :=
  let opened := (∃ conn, res o = Some (Ok conn) ∧ conn_id (writer conn) = child_id pa ∧
    sender (writer conn) = cc_sender ∘ fst <$> crypto_setup pa) ∧ sends (trace o) (success_frames pa) in
  let refused reason frames := res o = Some (Err (AcceptStartFailed reason)) ∧
    sends (trace o) frames ∧ conns (final o) !! child_id pa = None in
  let success := take 1 (success_frames pa) in
  let failed := dial_failed_frame (child_id pa) (dial_seq pa) "start reply not received" in
  if router_provided pa then opened
  else if closed (interfere (env 0%nat) c) then refused "start reply not received"%string [failed]
  else match reply (env 4%nat) with
       | Got m =>
           if content_type m =? CT_STATE_CONNECTED then opened
           else refused ("failed to receive start after dial. got " +:+ pretty (content_type m))
                  (success ++ [build_state_closed (child_id pa)])
       | _ => refused "start reply not received"%string (success ++ [failed])
       end.

Lemma complete_success_spec pa w env c :
  (∀ n, write_err (env n) = None) → keeps_conn (child_id pa) env → completion_spec pa env c (run (complete_success pa w) env 0 c).
Proof.
  unfold completion_spec. cbv zeta.
  intros Henv Hk. unfold complete_success.
  destruct (router_provided pa).
  { cbn -[dial_success_frame finish_accept success_frames]. rewrite Henv. by apply run_opened. }
  cbn -[dial_success_frame finish_accept success_frames build_state_closed dial_failed_frame i32_to_le].
  unfold is_closed.
  destruct (closed (interfere (env 0%nat) c));
    cbn -[dial_success_frame finish_accept success_frames build_state_closed build_dial_failed i32_to_le];
    rewrite ?Henv.
  { split_and!; [done|repeat econstructor|].
    cbn. rewrite Hk. cbn. rewrite Hk. apply lookup_delete_eq. }
  cbn -[dial_success_frame finish_accept success_frames build_state_closed build_dial_failed i32_to_le].
  destruct (reply (env 4%nat)) as [m| |];
    [destruct (content_type m =? CT_STATE_CONNECTED); [by apply run_opened|]|..];
    cbn -[dial_success_frame build_state_closed build_dial_failed i32_to_le]; rewrite ?Henv;
    (split_and!; [done|repeat econstructor|]).
  - apply lookup_delete_eq.
  - cbn. rewrite Hk. cbn. rewrite Hk. apply lookup_delete_eq.
  - cbn. rewrite Hk. cbn. rewrite Hk. apply lookup_delete_eq.
Qed.

(** ** Properties *)

(** C34. The accept loop: it answers each Dial it passes over with a DialFailed
    that names that Dial and the reason, in order, and sends nothing else; it
    stops at the first Dial with the bind's token and an acceptable key, whose
    child it has registered under the router's id when the Dial carries one, or
    when the bind is closed; it always stops, unless a Dial that carries no id
    finds the id space exhausted. *)
Theorem accept_pending_outcome bind_id token (kp : option KeyPair) rnd q inbox env n c :
  (∀ n, write_err (env n) = None) →
  accept_spec bind_id token kp inbox (run (accept_pending bind_id token kp rnd q inbox) env n c).
Proof. apply accept_pending_spec. Qed.

(** Completing an accept when the frames can be written: under a
    router-provided id the DialSuccess (and the stream header) goes out and the
    connection is open at once; under an id of ours the connection opens only
    on the router's StateConnected, and any other answer, silence or a closed
    channel ends it with the frames the router expects and no registration. *)
Theorem complete_success_outcome (pa : PendingAccept) (w : nat) env c :
  (∀ n, write_err (env n) = None) → keeps_conn (child_id pa) env →
  let o := run (complete_success pa w) env 0 c in
  let opened := (∃ conn, res o = Some (Ok conn) ∧ conn_id (writer conn) = child_id pa ∧
    sender (writer conn) = cc_sender ∘ fst <$> crypto_setup pa) ∧ sends (trace o) (success_frames pa) in
  let refused reason frames := res o = Some (Err (AcceptStartFailed reason)) ∧
    sends (trace o) frames ∧ conns (final o) !! child_id pa = None in
  let success := take 1 (success_frames pa) in
  let failed := dial_failed_frame (child_id pa) (dial_seq pa) "start reply not received" in
  if router_provided pa then opened
  else if closed (interfere (env 0%nat) c) then refused "start reply not received"%string [failed]
  else match reply (env 4%nat) with
       | Got m =>
           if content_type m =? CT_STATE_CONNECTED then opened
           else refused ("failed to receive start after dial. got " +:+ pretty (content_type m))
                  (success ++ [build_state_closed (child_id pa)])
       | _ => refused "start reply not received"%string (success ++ [failed])
       end.
Proof. exact (complete_success_spec pa w env c). Qed.

(** However a completion fails, write errors included, and when the host
    refuses the dial, the child's id is free again. *)
Theorem failed_accept_unregisters (pa : PendingAccept) (w : nat) (reason : string) env c :
  keeps_conn (child_id pa) env →
  (let o := run (complete_success pa w) env 0 c in
   ∀ e, res o = Some (Err e) → conns (final o) !! child_id pa = None) ∧
  conns (final (run (complete_failed pa reason) env 0 c)) !! child_id pa = None.
Proof.
  intros Hk. split; [|apply lookup_delete_eq].
  unfold complete_success. cbn zeta. intros e.
  destruct (router_provided pa); cbn -[finish_accept dial_success_frame].
  - destruct (write_err (env 1%nat)); [intros _; apply lookup_delete_eq|apply finish_accept_unregisters].
  - unfold is_closed. destruct (closed (interfere (env 0%nat) c)); cbn -[finish_accept dial_success_frame].
    { intros _. destruct (write_err (env 3%nat)); cbn; rewrite Hk; cbn; rewrite Hk; apply lookup_delete_eq. }
    destruct (write_err (env 3%nat)); cbn -[finish_accept dial_success_frame];
      [intros _; apply lookup_delete_eq|].
    destruct (reply (env 4%nat)) as [m| |];
      [destruct (content_type m =? CT_STATE_CONNECTED); [apply finish_accept_unregisters|]|..]; cbn;
      intros _; [apply lookup_delete_eq|..];
      destruct (write_err (env 8%nat)); cbn; rewrite Hk; cbn; rewrite Hk; apply lookup_delete_eq.
Qed.
End accept.

(** ** Witnesses *)

(** A bind queue: an unrelated frame, a Dial with a wrong token, a good Dial
    under the router's id, and a frame that stays in the queue. *)
Definition sample_inbox : list Message :=
  [ Message_new CT_DATA [1];
    with_sequence 41 (Message_new CT_DIAL (bytes_of_string "other"));
    with_sequence 42 (with_header HDR_ROUTER_PROVIDED_CONN_ID (u32_to_le 2147483650)
      (Message_new CT_DIAL (bytes_of_string "tok")));
    Message_new CT_STATE_CLOSED [] ].

Lemma accept_pending_outcome_witness :
  let o := run (accept_pending (H := toy_stream) 3 "tok" None (λ _, []) 0 sample_inbox)
    (λ _, quiet) 0 chan_new in
  accept_spec (H := toy_stream) 3 "tok" None sample_inbox o ∧
  length (sent (trace o)) = 1%nat ∧ conns (final o) !! 2147483650 = Some 0%nat.
Proof.
  intros o. split; [|by_compute].
  apply (accept_pending_outcome (H := toy_stream) 3 "tok" None (λ _, []) 0 sample_inbox (λ _, quiet) 0 chan_new).
  done.
Defined.

Definition sample_pending : PendingAccept (H := toy_stream) :=
  mkPending (H := toy_stream) 3 12 false 42 None None None
    (Some (mkConnCrypto (H := toy_stream) 0 None (Some [1]), replicate 24 0)).

Lemma complete_success_outcome_witness :
  let o := run (complete_success (H := toy_stream) sample_pending 5)
    (answering (Message_new CT_STATE_CONNECTED [])) 0 chan_new in
  (∃ conn, res o = Some (Ok conn) ∧ conn_id (writer conn) = 12) ∧ length (sent (trace o)) = 2%nat.
Proof.
  intros o.
  pose proof (complete_success_outcome (H := toy_stream) sample_pending 5
    (answering (Message_new CT_STATE_CONNECTED [])) chan_new) as Hc.
  destruct Hc as [(conn & Hres & Hid & _) _]; [done|by intros ? ?|].
  split; [exists conn; split; [exact Hres|exact Hid]|vm_compute; reflexivity].
Defined.

Lemma failed_accept_unregisters_witness :
  let o := run (complete_success (H := toy_stream) sample_pending 5) (λ _, quiet) 0
    (register_conn 12 0 chan_new) in
  res o = Some (Err (AcceptStartFailed "start reply not received")) ∧ conns (final o) !! 12 = None.
Proof.
  intros o.
  destruct (failed_accept_unregisters (H := toy_stream) sample_pending 5 "no" (λ _, quiet)
    (register_conn 12 0 chan_new)) as [H _]; [by intros ? ?|].
  assert (E : res o = Some (Err (AcceptStartFailed "start reply not received"))) by (vm_compute; reflexivity).
  split; [exact E|exact (H _ E)].
Defined.
