(* ===== verification/Handles.v ===== *)
(** * The application's handles: [src/edge/conn/service_conn.rs], [edge/bind/binding.rs]

    A connection that shares its channel with others, and the registration of a hosted
    service, which owns its channel: how each is made and closed. *)

From S2P Require Import Prelude Message EdgeWire ChannelState Async Crypto Conn Requests Accept.

Section handles.
Context `{SecretStream}.

(** ** Data *)

(** A channel is known by a number; the pool and other connections may hold it too. *)
Record ServiceConn : Type := mkServiceConn { sc_conn : EdgeConn; sc_channel : nat }.

Definition into_parts (s : ServiceConn) : EdgeReadHalf * EdgeWriteHalf * nat := (reader (sc_conn s), writer (sc_conn s), sc_channel s).

Record ServiceBinding : Type := mkBinding { b_conn_id : Z; b_token : string; b_queue : nat; b_keypair : option KeyPair }.

(** ** Operations *)

(** The channel is only let go of, which the pool that holds it does not notice. *)
Definition service_conn_close (s : ServiceConn) : prog (result EdgeError unit) :=
  '(r, _) ← close (writer (sc_conn s)); mret r.

(** The part of [bind_inner] over the channel it has opened; [keypair] is what is
    generated for an encrypted service. *)
Definition bind_over (token listener_id : string) (encryption_required : bool) (keypair : KeyPair) (bind_tx reply_tx : nat) :
    prog (result EdgeError ServiceBinding) :=
  let keypair := if encryption_required then Some keypair else None in
  r ← send_bind token listener_id (public_key <$> keypair) bind_tx reply_tx;
  mret match r with Ok (id, queue) => Ok (mkBinding id token queue keypair) | Err e => Err e end.

Definition binding_accept_pending (b : ServiceBinding) (rnd : nat → list Z) (child_tx : nat) (inbox : list Message) :
    prog (result EdgeError PendingAccept * list Message) :=
  accept_pending (b_conn_id b) (b_token b) (b_keypair b) rnd child_tx inbox.

Definition binding_accept (b : ServiceBinding) (rnd : nat → list Z) (child_tx start_tx : nat) (inbox : list Message) :
    prog (result EdgeError EdgeConn * list Message) :=
  accept_next (b_conn_id b) (b_token b) (b_keypair b) rnd child_tx start_tx inbox.

(** [EdgeChannel::close]; the read loop and the probe are aborted. *)
Definition close_channel : prog (result EdgeError unit) := _ ← shutdown; _ ← modify mark_closed; mret (Ok tt).

Definition binding_close (b : ServiceBinding) : prog (result EdgeError unit) :=
  _ ← send_unbind (b_conn_id b) (b_token b); close_channel.

(** ** Properties *)

(** A binding is what its Bind frame said: the router knows the id and the public key
    that the accepts then use.  Closing it succeeds whatever becomes of the Unbind, which
    is all that is sent, and closes the channel with all that is registered on it. *)
Theorem binding_lifetime token lid enc kp q w env c id c1 :
  keeps_bind id env → keeps_closed env → u32_ok (next_id (interfere (env 0%nat) c)) →
  next_conn_id (interfere (env 0%nat) c) = Some (id, c1) →
  let o := run (bind_over token lid enc kp q w) env 0 c in
  match res o with
  | Some (Err _) => binds (final o) !! id = None
  | Some (Ok b) =>
      b_conn_id b = id ∧ b_token b = token ∧ b_queue b = q ∧ (is_Some (b_keypair b) ↔ enc = true) ∧
      (binds (final o) !! id = Some q ∨ closed (final o) = true) ∧
      (∃ s, sent (trace o) = [with_sequence s (build_bind id token lid (public_key <$> b_keypair b))]) ∧
      ∀ env' n c', let o' := run (binding_close b) env' n c' in
        res o' = Some (Ok tt) ∧ closed (final o') = true ∧
        (∃ s, sent (trace o') = [] ∨ sent (trace o') = [with_sequence s (build_unbind id token)]) ∧
        ∃ before, final o' = mark_closed before ∧
          (closed before = false → waiters (final o') = ∅ ∧ conns (final o') = ∅ ∧ binds (final o') = ∅)
  | None => True
  end.
Proof.
  intros Hk Hc Hu Hid. unfold bind_over. cbv zeta. rewrite run_bind. cbv zeta.
  pose proof (bind_outcome token lid (public_key <$> (if enc then Some kp else None)) q w env c id c1 Hk Hc Hu Hid) as Hb. cbv zeta in Hb.
  set (o := run (send_bind _ _ _ _ _) env 0 c) in *. destruct (res o) as [[[id' q']|e]|]; [|exact Hb|done].
  destruct Hb as (-> & -> & Hreg & Hsent). cbn [res final trace run mret prog_ret b_conn_id b_token b_queue b_keypair].
  rewrite app_nil_r. do 3 (split; [done|]). split; [destruct enc; split; intros Henc; first [done|by eexists|by destruct Henc]|]. do 2 (split; [done|]).
  intros env' n c'. unfold binding_close, send_unbind, close_channel, Conn.send. cbn -[build_unbind mark_closed].
  set (before := interfere _ _). split_and!; [by destruct (write_err _)|apply closed_mark_closed| |].
  - eexists. destruct (write_err _); [by left|by right].
  - exists before. split; [done|]. unfold mark_closed. intros ->. done.
Qed.

(** Closing a connection leaves its channel open and everything else on it in place. *)
Theorem service_conn_close_spares s env n c :
  (∀ k, interfere (env k) = id) →
  let o := run (service_conn_close s) env n c in
  closed (final o) = closed c ∧ waiters (final o) = waiters c ∧ binds (final o) = binds c ∧
  (∀ id, id ≠ conn_id (writer (sc_conn s)) → conns (final o) !! id = conns c !! id) ∧
  match res o with Some (Ok _) => conns (final o) !! conn_id (writer (sc_conn s)) = None | Some (Err _) => sent (trace o) = [] | None => False end.
Proof.
  intros Hid. unfold service_conn_close, close, Conn.send. cbn -[build_state_closed]. rewrite !Hid. cbn -[build_state_closed].
  destruct (write_err _); cbn -[build_state_closed]; rewrite ?Hid; cbn -[build_state_closed].
  - by split_and!.
  - split_and!; [done..| |by apply lookup_delete_eq]. intros id Hne. by rewrite lookup_delete_ne.
Qed.

End handles.
