(* ===== verification/RxLoop.v ===== *)
(** * The read loop: [src/edge/data/rxloop.rs], and the ConnInspect responder of [data/inspect.rs]

    The loop is a task of the channel.  What the transport and the [select!]
    decide is given with each frame; what the loop hands over is returned. *)

From S2P Require Import Prelude Utf8 Message EdgeWire ChannelState Async Conn.

(** What becomes of a frame. *)
Inductive delivery : Type :=
| ToWaiter (w : nat) (m : Message)
| ToQueue (q : nat) (m : Message)
| Inspected (id : Z) (t : ConnType) (m : Message)
| Discarded (m : Message).

Definition get_waiter (s : Z) : prog (option nat) :=
  Atom (remove_waiter s) (λ c, Ret (waiters c !! s)).
Definition get_conn (id : Z) : prog (option nat) := Atom (λ c, c) (λ c, Ret (conns c !! id)).
Definition get_bind (id : Z) : prog (option nat) := Atom (λ c, c) (λ c, Ret (binds c !! id)).

(** [classify_conn_inspect]: one lock after the other. *)
Definition classify (id : Z) : prog ConnType :=
  child ← get_conn id;
  match child with
  | Some _ => mret Dial
  | None => b ← get_bind id; mret (if b is Some _ then Bind else Invalid)
  end.

(** The task [spawn_conn_inspect_reply] starts; [None] is the [unreachable!]. *)
Definition conn_inspect_reply (id : Z) (t : ConnType) (request : Message) : prog (option ChannelError) :=
  match build_conn_inspect_response id t (bytes_of_string (conn_inspect_body id t)) request with
  | None => Spin
  | Some m => send m
  end.

(** The queue the routing [match] picks. *)
Definition pick_queue (ct id : Z) : prog (option nat) :=
  if ct =? CT_DIAL then get_bind id
  else if ct =? CT_DATA then get_conn id
  else if ct =? CT_STATE_CLOSED then
    child ← get_conn id;
    match child with Some q => mret (Some q) | None => get_bind id end
  else mret None.

(** The frame past the reply test; the flag says whether the loop goes on, and
    [notified] whether the close notification wins the [select!]. *)
Definition route (msg : Message) (notified : bool) : prog (delivery * bool) :=
  match header_u32 msg HDR_CONN_ID with
  | None => mret (Discarded msg, true)
  | Some id =>
      if content_type msg =? CT_CONN_INSPECT_REQUEST then
        t ← classify id; mret (Inspected id t msg, true)
      else
        tx ← pick_queue (content_type msg) id;
        match tx with
        | None => mret (Discarded msg, true)
        | Some q =>
            cl ← get_closed;
            if (cl || notified)%bool then mret (Discarded msg, false)
            else mret (ToQueue q msg, true)
        end
  end.

(** One turn of the loop for a frame that was read. *)
Definition rx_turn (msg : Message) (notified : bool) : prog (delivery * bool) :=
  t ← now;
  _ ← modify (note_read (t / 1000000));
  match header_i32 msg HDR_REPLY_FOR with
  | Some reply_for =>
      w ← get_waiter reply_for;
      match w with
      | Some w => mret (ToWaiter w msg, true)
      | None => route msg notified
      end
  | None => route msg notified
  end.

(** [rx_loop] on the frames read until the transport ends or fails. *)
Fixpoint rx_loop (frames : list (Message * bool)) : prog (list delivery) :=
  match frames with
  | [] => _ ← modify mark_closed; mret []
  | (msg, notified) :: frames =>
      '(d, go) ← rx_turn msg notified;
      if (go : bool) then ds ← rx_loop frames; mret (d :: ds)
      else _ ← modify mark_closed; mret [d]
  end.

(** ** Observations *)

Definition queue_frames (q : nat) (ds : list delivery) : list Message :=
  omap (λ d, match d with ToQueue q' m => if decide (q' = q) then Some m else None | _ => None end) ds.

(** The frames of a connection: its data and its close. *)
Definition for_conn (id : Z) (m : Message) : bool :=
  bool_decide (header_u32 m HDR_CONN_ID = Some id)
  && ((content_type m =? CT_DATA) || (content_type m =? CT_STATE_CLOSED)).

Definition is_reply (m : Message) : bool := bool_decide (is_Some (header_i32 m HDR_REPLY_FOR)).

(** A task that cannot write. *)
Inductive no_write {A} : prog A → Prop :=
| nw_ret a : no_write (Ret a)
| nw_atom f k : (∀ c, no_write (k c)) → no_write (Atom f k)
| nw_now k : (∀ t, no_write (k t)) → no_write (Now k)
| nw_await b k : (∀ r, no_write (k r)) → no_write (Await b k)
| nw_spin : no_write Spin.

(** Where an idle, open channel sends a frame that is not a reply. *)
Definition destination (c : chan) (msg : Message) : delivery :=
  match header_u32 msg HDR_CONN_ID with
  | None => Discarded msg
  | Some id =>
      if content_type msg =? CT_CONN_INSPECT_REQUEST then Inspected id (classify_conn_inspect c id) msg
      else
        match (if content_type msg =? CT_DIAL then binds c !! id
               else if content_type msg =? CT_DATA then conns c !! id
               else if content_type msg =? CT_STATE_CLOSED then from_option Some (binds c !! id) (conns c !! id)
               else None) with
        | Some q => ToQueue q msg
        | None => Discarded msg
        end
  end.

(** ** Lemmas *)

Lemma no_write_bind {A B} (p : prog A) (k : A → prog B) :
  no_write p → (∀ a, no_write (k a)) → no_write (p ≫= k).
Proof. intros Hp Hk. induction Hp; cbn; try constructor; auto. Qed.

Lemma no_write_trace {A} (p : prog A) env n c : no_write p → trace (run p env n c) = [].
Proof.
  intros Hp. revert n c. induction Hp; intros n c; cbn; auto.
  destruct b, (reply (env n)); auto.
Qed.

Create HintDb nowrite.
#[export] Hint Constructors no_write : nowrite.
#[export] Hint Resolve no_write_bind : nowrite.

Lemma no_write_route msg nt : no_write (route msg nt).
Proof.
  unfold route. destruct (header_u32 _ _) as [id|]; [|constructor].
  destruct (_ =? _).
  - constructor. intros c. destruct (conns c !! id); repeat constructor.
  - apply no_write_bind.
    + unfold pick_queue. repeat case_if; try (repeat constructor); intros.
      destruct (conns c !! id); repeat constructor.
    + intros [q|]; [|constructor]. constructor. intros c. destruct (_ || _); constructor.
Qed.

Lemma no_write_rx_turn msg nt : no_write (rx_turn msg nt).
Proof.
  constructor. intros t. constructor. intros _. destruct (header_i32 _ _).
  - constructor. intros c. destruct (waiters c !! z); [constructor|apply no_write_route].
  - apply no_write_route.
Qed.

Lemma no_write_rx_loop frames : no_write (rx_loop frames).
Proof.
  induction frames as [|[msg nt] frames IH]; [repeat constructor|]. cbn [rx_loop].
  apply no_write_bind; [apply no_write_rx_turn|]. intros [d []]; [|repeat constructor].
  apply no_write_bind; [exact IH|constructor].
Qed.

(** The message a delivery is about. *)
Definition delivery_msg (d : delivery) : Message :=
  match d with ToWaiter _ m => m | ToQueue _ m => m | Inspected _ _ m => m | Discarded m => m end.

(** What a turn may hand over, whatever runs in between: the destination was in
    the map that its content type names. *)
Definition routed (msg : Message) (d : delivery) : Prop :=
  match d with
  | ToWaiter w m =>
      m = msg ∧ ∃ s c, header_i32 msg HDR_REPLY_FOR = Some s ∧ waiters c !! s = Some w
  | ToQueue q m =>
      m = msg ∧ ∃ id c, header_u32 msg HDR_CONN_ID = Some id ∧
        ((content_type msg = CT_DIAL ∧ binds c !! id = Some q) ∨
         (content_type msg = CT_DATA ∧ conns c !! id = Some q) ∨
         (content_type msg = CT_STATE_CLOSED ∧ (conns c !! id = Some q ∨ binds c !! id = Some q)))
  | Inspected id t m =>
      m = msg ∧ content_type msg = CT_CONN_INSPECT_REQUEST ∧ header_u32 msg HDR_CONN_ID = Some id ∧
      t ≠ Unknown
  | Discarded m => m = msg
  end.

Lemma run_pick_queue ct id env n c :
  ∃ r c' n', run (pick_queue ct id) env n c = Outcome (Some r) c' [] n' ∧
    ∀ q, r = Some q → ∃ c0,
      (ct = CT_DIAL ∧ binds c0 !! id = Some q) ∨ (ct = CT_DATA ∧ conns c0 !! id = Some q) ∨
      (ct = CT_STATE_CLOSED ∧ (conns c0 !! id = Some q ∨ binds c0 !! id = Some q)).
Proof.
  unfold pick_queue. repeat case_if; bool_to_prop; cbn.
  - eexists _, _, _. split; [reflexivity|]. intros q Hq. eauto.
  - eexists _, _, _. split; [reflexivity|]. intros q Hq. eauto 6.
  - destruct (conns _ !! id) eqn:E; cbn; (eexists _, _, _; split; [reflexivity|]).
    + intros q [= <-]. eauto 7.
    + intros q Hq. eauto 7.
  - eexists _, _, _. split; [reflexivity|done].
Qed.

Lemma run_route msg nt env n c :
  ∃ d go c' n', run (route msg nt) env n c = Outcome (Some (d, go)) c' [] n' ∧
    routed msg d ∧ (go = false → d = Discarded msg).
Proof.
  unfold route. destruct (header_u32 msg HDR_CONN_ID) as [id|] eqn:Hid; [|by eexists _, _, _, _].
  case_if; bool_to_prop.
  - unfold classify. cbn. destruct (conns _ !! id); cbn; [|destruct (binds _ !! id)];
      (eexists _, _, _, _; split; [reflexivity|done]).
  - rewrite run_bind. destruct (run_pick_queue (content_type msg) id env n c) as (r & c' & n' & -> & Hq).
    cbn. destruct r as [q|]; [|by eexists _, _, _, _].
    cbn. destruct (_ || nt); (eexists _, _, _, _; split; [reflexivity|]); [done|].
    split; [|done]. split; [done|]. destruct (Hq q eq_refl) as [c0 H]. by exists id, c0.
Qed.

Lemma run_rx_turn msg nt env n c :
  ∃ d go c' n', run (rx_turn msg nt) env n c = Outcome (Some (d, go)) c' [] n' ∧
    routed msg d ∧ (go = false → d = Discarded msg).
Proof.
  unfold rx_turn. cbn. destruct (header_i32 msg HDR_REPLY_FOR) as [s|] eqn:Hs; [|apply run_route].
  cbn. destruct (waiters _ !! s) as [w|] eqn:Hw; [|apply run_route].
  eexists _, _, _, _. split; [reflexivity|]. split; [|done]. split; [done|]. eauto.
Qed.

(** A turn with nothing else running, on an open channel. *)
Lemma run_route_quiet msg env n c :
  (∀ n, interfere (env n) = λ c, c) → closed c = false →
  ∃ n', run (route msg false) env n c = Outcome (Some (destination c msg, true)) c [] n'.
Proof.
  intros Hq Hcl. unfold route, destination.
  destruct (header_u32 msg HDR_CONN_ID) as [id|]; [|by eexists].
  destruct (content_type msg =? CT_CONN_INSPECT_REQUEST).
  { unfold classify, classify_conn_inspect. cbn. rewrite Hq.
    destruct (conns c !! id); cbn; rewrite ?Hq; [|destruct (binds c !! id)]; by eexists. }
  unfold pick_queue, is_closed.
  destruct (content_type msg =? CT_DIAL); [|destruct (content_type msg =? CT_DATA);
    [|destruct (content_type msg =? CT_STATE_CLOSED)]]; cbn; rewrite ?Hq.
  - destruct (binds c !! id); cbn; rewrite ?Hq; unfold is_closed; rewrite ?Hcl; by eexists.
  - destruct (conns c !! id); cbn; rewrite ?Hq; unfold is_closed; rewrite ?Hcl; by eexists.
  - destruct (conns c !! id); cbn; rewrite ?Hq; unfold is_closed; rewrite ?Hcl; [by eexists|].
    destruct (binds c !! id); cbn; rewrite ?Hq; unfold is_closed; rewrite ?Hcl; by eexists.
  - by eexists.
Qed.

Lemma run_rx_turn_quiet msg env n c :
  (∀ n, interfere (env n) = λ c, c) → closed c = false → is_reply msg = false →
  ∃ t n', run (rx_turn msg false) env n c
    = Outcome (Some (destination c msg, true)) (note_read t c) [] n'.
Proof.
  intros Hq Hcl Hrep. unfold is_reply in Hrep. apply bool_decide_eq_false in Hrep.
  unfold rx_turn. cbn. rewrite !Hq. destruct (header_i32 msg HDR_REPLY_FOR); [by destruct Hrep|].
  destruct (run_route_quiet msg env (S (S n)) (note_read (clock (env n) / 1000000) c) Hq Hcl) as [n' ->].
  by eexists _, _.
Qed.

(** A queue that serves one connection gets that connection's frames. *)
Lemma destination_queue c msg id q :
  conns c !! id = Some q → (∀ id', conns c !! id' = Some q → id' = id) → (∀ id', binds c !! id' ≠ Some q) →
  queue_frames q [destination c msg] = if for_conn id msg then [msg] else [].
Proof.
  intros Hc Huniq Hnob. unfold destination, for_conn.
  destruct (header_u32 msg HDR_CONN_ID) as [i|]; [|done].
  destruct (decide (i = id)) as [->|Hi]; [rewrite bool_decide_true by done|rewrite bool_decide_false by congruence];
    cbn [andb].
  - destruct (content_type msg =? CT_CONN_INSPECT_REQUEST) eqn:E1; [by rewrite (proj1 (Z.eqb_eq _ _) E1)|].
    destruct (content_type msg =? CT_DIAL) eqn:E2; [apply Z.eqb_eq in E2; rewrite E2; cbn|].
    { destruct (binds c !! id) as [q'|] eqn:Eb; [|done]. cbn.
      destruct (decide (q' = q)) as [->|]; [by destruct (Hnob id)|done]. }
    rewrite Hc. destruct (content_type msg =? CT_DATA); [cbn; by rewrite decide_True|].
    destruct (content_type msg =? CT_STATE_CLOSED); [|done].
    cbn. by rewrite decide_True.
  - destruct (content_type msg =? CT_CONN_INSPECT_REQUEST); [done|].
    match goal with |- context [match ?x with Some _ => _ | None => _ end] => destruct x as [q'|] eqn:E end; [|done].
    cbn. destruct (decide (q' = q)) as [->|]; [|done]. exfalso.
    destruct (content_type msg =? CT_DIAL); [by eapply Hnob|].
    destruct (content_type msg =? CT_DATA); [by eapply Hi, Huniq|].
    destruct (content_type msg =? CT_STATE_CLOSED); [|done].
    destruct (conns c !! i) eqn:Ei; cbn in E; [injection E as ->; by eapply Hi, Huniq|by eapply Hnob].
Qed.

(** ** Properties *)

(** The read loop under any interleaving: it writes nothing (so no peer
    can park it on a write), it ends when the transport does or when the
    channel is closed, it accounts for the frames it read one by one and in
    order, each handed only to a consumer its reply or connection id and its
    content type name, and it leaves the channel closed. *)
Theorem rx_loop_accounts (frames : list (Message * bool)) env n c :
  ∃ ds, res (run (rx_loop frames) env n c) = Some ds ∧
    trace (run (rx_loop frames) env n c) = [] ∧
    closed (final (run (rx_loop frames) env n c)) = true ∧
    Forall2 routed (take (length ds) (map fst frames)) ds.
Proof.
  revert n c. induction frames as [|[msg nt] frames IH]; intros n c; cbn [rx_loop].
  { exists []. split_and!; [done|done|apply closed_mark_closed|constructor]. }
  rewrite run_bind. destruct (run_rx_turn msg nt env n c) as (d & go & c' & n' & -> & Hd & Hgo). cbn.
  destruct go.
  - rewrite run_bind. destruct (IH n' c') as (ds & Hres & Htr & Hcl & Hall). cbn.
    rewrite Hres. cbn. rewrite Htr. exists (d :: ds). split_and!; [done|done|done|by constructor].
  - exists [d]. split_and!; [done|done|apply closed_mark_closed|]. cbn. rewrite take_0.
    constructor; [done|constructor].
Qed.

(** C8. In order and without loss: on an idle open channel the queue of a
    connection receives exactly the Data and StateClosed frames that carry its
    id, in the order the transport delivered them. *)
Theorem rx_loop_in_order (msgs : list Message) env n c id q :
  (∀ n, interfere (env n) = λ c, c) → closed c = false →
  conns c !! id = Some q → (∀ id', conns c !! id' = Some q → id' = id) → (∀ id', binds c !! id' ≠ Some q) →
  Forall (λ m, is_reply m = false) msgs →
  ∃ ds, res (run (rx_loop (map (λ m, (m, false)) msgs)) env n c) = Some ds ∧
    queue_frames q ds = List.filter (for_conn id) msgs.
Proof.
  intros Hq Hcl Hc Huniq Hnob Hrep. revert n c Hcl Hc Huniq Hnob.
  induction Hrep as [|m msgs Hm _ IH]; intros n c Hcl Hc Huniq Hnob; [by exists []|].
  cbn [map rx_loop]. rewrite run_bind.
  destruct (run_rx_turn_quiet m env n c Hq Hcl Hm) as (t & n' & ->). cbn. rewrite run_bind.
  destruct (IH n' (note_read t c)) as (ds & Hres & Hds); [done..|]. cbn. rewrite Hres. cbn.
  exists (destination c m :: ds). split; [done|].
  change (destination c m :: ds) with ([destination c m] ++ ds). unfold queue_frames in *.
  rewrite omap_app, Hds. pose proof (destination_queue c m id q Hc Huniq Hnob) as Hd.
  unfold queue_frames in Hd. rewrite Hd. by destruct (for_conn id m).
Qed.

(** Two connections and a bind; the frames of the first one come out. *)
Lemma rx_loop_in_order_witness :
  let c := register_bind 9 3 (register_conn 2 1 (register_conn 1 0 chan_new)) in
  let msgs := [build_data 1 [10] false; build_data 2 [20] false; build_state_closed 9;
               build_data 1 [11] false; build_state_closed 1] in
  ∃ ds, res (run (rx_loop (map (λ m, (m, false)) msgs)) (λ _, quiet) 0 c) = Some ds ∧
    queue_frames 0 ds = [build_data 1 [10] false; build_data 1 [11] false; build_state_closed 1].
Proof.
  intros c msgs. destruct (rx_loop_in_order msgs (λ _, quiet) 0 c 1 0) as (ds & Hres & Hq).
  - done.
  - done.
  - done.
  - intros id'. subst c. cbn. rewrite lookup_insert_Some, lookup_insert_Some. intros [[_ ?]|[_ [[? _]|[_ ?]]]]; done.
  - intros id'. subst c. cbn. rewrite lookup_insert_Some. intros [[_ ?]|[_ ?]]; done.
  - repeat constructor.
  - exists ds. split; [exact Hres|]. rewrite Hq. vm_compute. reflexivity.
Defined.
