(* ===== verification/Address.v ===== *)
(** * Router addresses: [src/channel/address.rs], [src/edge/router_filter.rs]

    [tls:host:port] addresses, and the string primitives ([strip_prefix],
    [split_once], [rsplit_once], [str::parse]) that the text-handling components
    share. *)

From S2P Require Import Prelude Message.
#[local] Open Scope string_scope.
#[local] Open Scope Z_scope.

(** ** String primitives of the standard library *)

Fixpoint strip_prefix (p s : string) : option string :=
  match p, s with
  | EmptyString, _ => Some s
  | String a p, String b s => if ascii_dec a b then strip_prefix p s else None
  | String _ _, EmptyString => None
  end.

(** [s.split_once(c)]: around the first [c]. *)
Fixpoint split_once (c : ascii) (s : string) : option (string * string) :=
  match s with
  | EmptyString => None
  | String a s =>
      if ascii_dec a c then Some (EmptyString, s)
      else '(l, r) ← split_once c s; Some (String a l, r)
  end.

(** [s.rsplit_once(c)]: around the last [c]. *)
Fixpoint rsplit_once (c : ascii) (s : string) : option (string * string) :=
  match s with
  | EmptyString => None
  | String a s =>
      match rsplit_once c s with
      | Some (l, r) => Some (String a l, r)
      | None => if ascii_dec a c then Some (EmptyString, s) else None
      end
  end.

(** [strip_suffix]. *)
Definition strip_suffix (suffix s : string) : option string :=
  let k := (String.length s - String.length suffix)%nat in
  if bool_decide (String.length suffix ≤ String.length s)%nat
     && bool_decide (String.substring k (String.length suffix) s = suffix)
  then Some (String.substring 0 k s) else None.

Definition starts_with (p s : string) : bool := bool_decide (is_Some (strip_prefix p s)).

Definition digit_val (a : ascii) : option Z :=
  let b := byte_of_ascii a in if (48 <=? b) && (b <=? 57) then Some (b - 48) else None.

Fixpoint digits_val (acc : Z) (s : string) : option Z :=
  match s with
  | EmptyString => Some acc
  | String a s => d ← digit_val a; digits_val (acc * 10 + d) s
  end.

(** [str::parse] of an unsigned type: an optional [+], at least one digit, and a
    value that fits. *)
Definition parse_unsigned (max : Z) (s : string) : option Z :=
  let s := default s (strip_prefix "+" s) in
  match s with
  | EmptyString => None
  | _ => v ← digits_val 0 s; if v <=? max then Some v else None
  end.

Definition parse_u16 : string → option Z := parse_unsigned u16_max.

(** ** The parser *)

Definition colon : ascii := ":".
Definition bracket : ascii := "]".

Definition split_host_port (hp : string) : option (string * string) :=
  match strip_prefix "[" hp with
  | Some rest =>
      '(host, after) ← split_once bracket rest;
      port ← strip_prefix ":" after;
      Some (host, port)
  | None => rsplit_once colon hp
  end.

Definition parse_tls_address (s : string) : result ChannelError (string * Z) :=
  host_port ← ok_or (AddressParse ("not a tls address: " +:+ s)) (strip_prefix "tls:" s);
  '(host, port_str) ← ok_or (AddressParse ("invalid host:port in " +:+ s)) (split_host_port host_port);
  port ← ok_or (AddressParse ("invalid port in " +:+ s)) (parse_u16 port_str);
  Ok (host, port).

(** ** The router filter: every url when there is none *)

Definition is_edge_router_url_accepted (filter : option (string → bool)) (url : string) : bool :=
  match filter with Some f => f url | None => true end.

(** ** Specification: how an address is written *)

(** Does a character occur? *)
Fixpoint occurs (c : ascii) (s : string) : bool :=
  match s with
  | EmptyString => false
  | String a s => if ascii_dec a c then true else occurs c s
  end.

(** An IPv6 literal is bracketed. *)
Definition format_tls (host : string) (port : Z) : string :=
  "tls:" +:+ (if occurs colon host then "[" +:+ host +:+ "]" else host) +:+ ":" +:+ pretty (Z.to_N port).

(** ** Lemmas *)

Lemma substring_app s t :
  String.substring 0 (String.length s) (s +:+ t) = s ∧ String.substring (String.length s) (String.length t) (s +:+ t) = t.
Proof.
  induction s as [|a s [IH1 IH2]].
  - split; [by destruct t|]. change (EmptyString +:+ t) with t. induction t as [|b t IHt]; [done|]. cbn. cbn in IHt. by rewrite IHt.
  - change (String a s +:+ t) with (String a (s +:+ t)). cbn. by rewrite IH1, IH2.
Qed.

Lemma substring_split k s :
  (k ≤ String.length s)%nat →
  s = String.substring 0 k s +:+ String.substring k (String.length s - k) s.
Proof.
  revert s. induction k as [|k IH]; intros s Hk.
  - rewrite Nat.sub_0_r. destruct (substring_app EmptyString s) as [_ Hs]. change (EmptyString +:+ s) with s in Hs.
    cbn [String.length] in Hs. rewrite Hs. by destruct s.
  - destruct s as [|a s]; cbn in *; [lia|].
    change (String a ?x +:+ ?y) with (String a (x +:+ y)). f_equal. apply IH. lia.
Qed.

Lemma length_string_app s t : String.length (s +:+ t) = (String.length s + String.length t)%nat.
Proof. induction s as [|a s IH]; [done|]. change (String a s +:+ t) with (String a (s +:+ t)). cbn. by rewrite IH. Qed.

Lemma string_app_assoc s t u : s +:+ (t +:+ u) = (s +:+ t) +:+ u.
Proof. induction s as [|a s IH]; [done|]. change (String a ?x +:+ ?y) with (String a (x +:+ y)). by rewrite IH. Qed.

Lemma strip_suffix_spec p s h : strip_suffix p s = Some h ↔ s = h +:+ p.
Proof.
  unfold strip_suffix. split.
  - destruct (_ && _) eqn:E; [|done]. intros [= <-]. apply andb_true_iff in E as [E1 E2].
    apply bool_decide_eq_true in E1. apply bool_decide_eq_true in E2. rewrite <-E2 at 2.
    pose proof (substring_split (String.length s - String.length p) s ltac:(lia)) as Hs.
    replace (String.length s - (String.length s - String.length p))%nat with (String.length p) in Hs by lia. exact Hs.
  - intros ->. rewrite length_string_app.
    replace (String.length h + String.length p - String.length p)%nat with (String.length h) by lia.
    destruct (substring_app h p) as [H1 H2]. rewrite H1, H2. rewrite !bool_decide_true by (done || lia). done.
Qed.

Lemma digit_val_pretty_N_char n : (n < 10)%N → digit_val (pretty_N_char n) = Some (Z.of_N n).
Proof.
  intros H. assert (n = 0 ∨ n = 1 ∨ n = 2 ∨ n = 3 ∨ n = 4 ∨ n = 5 ∨ n = 6 ∨ n = 7 ∨ n = 8 ∨ n = 9)%N
    as Hn by lia. by repeat destruct Hn as [->|Hn]; try rewrite Hn.
Qed.

Lemma digits_val_pretty_N_go x s : digits_val 0 (pretty_N_go x s) = digits_val (Z.of_N x) s.
Proof.
  revert s. induction (N.lt_wf_0 x) as [x _ IH]; intros s.
  destruct (decide (x = 0)%N) as [->|Hx]; [done|].
  rewrite pretty_N_go_step by lia. rewrite IH by (apply N.div_lt; lia).
  cbn [digits_val]. rewrite digit_val_pretty_N_char by (apply N.mod_lt; lia).
  cbn [mbind option_bind]. f_equal. pose proof (N.div_mod x 10 ltac:(lia)). lia.
Qed.

Lemma digits_val_pretty n : digits_val 0 (pretty n) = Some (Z.of_N n).
Proof.
  unfold pretty, pretty_N. destruct (decide (n = 0)%N) as [->|Hn]; [done|].
  by rewrite digits_val_pretty_N_go.
Qed.

(** All the characters of a decimal are digits. *)
Fixpoint all_digits (s : string) : bool :=
  match s with
  | EmptyString => true
  | String a s => bool_decide (is_Some (digit_val a)) && all_digits s
  end.

Lemma digits_val_all acc s v : digits_val acc s = Some v → all_digits s = true.
Proof.
  revert acc. induction s as [|a s IH]; intros acc H; [done|]. cbn in *.
  destruct (digit_val a) as [d|]; [|done]. rewrite bool_decide_true by eauto. by eapply IH.
Qed.

Lemma all_digits_occurs c s : all_digits s = true → digit_val c = None → occurs c s = false.
Proof.
  induction s as [|a s IH]; intros H Hc; [done|]. cbn in *. apply andb_true_iff in H as [Ha H].
  destruct (ascii_dec a c) as [->|]; [rewrite Hc in Ha; by apply bool_decide_eq_true in Ha as [? ?]|auto].
Qed.

Lemma pretty_N_nonempty (n : N) : pretty n ≠ "".
Proof.
  intros E. pose proof (digits_val_pretty n) as H. rewrite E in H. cbn in H.
  assert (n = 0)%N as -> by (injection H; lia). done.
Qed.

Lemma append_assoc s1 s2 s3 : (s1 +:+ s2) +:+ s3 = s1 +:+ (s2 +:+ s3).
Proof. induction s1 as [|a s1 IH]; [done|]. change (String a ((s1 +:+ s2) +:+ s3) = String a (s1 +:+ (s2 +:+ s3))). by rewrite IH. Qed.

Lemma strip_prefix_app p s : strip_prefix p (p +:+ s) = Some s.
Proof.
  induction p as [|a p IH]; [done|]. change (String a p +:+ s) with (String a (p +:+ s)). cbn.
  destruct (ascii_dec a a); [done|congruence].
Qed.

Lemma strip_prefix_Some p s r : strip_prefix p s = Some r → s = p +:+ r.
Proof.
  revert s. induction p as [|a p IH]; intros s H; cbn in H; [by injection H as ->|].
  destruct s as [|b s]; [done|]. destruct (ascii_dec a b) as [->|]; [|done].
  by rewrite (IH _ H).
Qed.

Lemma split_once_app c l r : occurs c l = false → split_once c (l +:+ String c r) = Some (l, r).
Proof.
  induction l as [|a l IH]; intros H.
  - change ("" +:+ String c r) with (String c r). cbn. destruct (ascii_dec c c); [done|congruence].
  - change (String a l +:+ String c r) with (String a (l +:+ String c r)). cbn in *.
    destruct (ascii_dec a c); [done|]. by rewrite (IH H).
Qed.

Lemma rsplit_once_None c s : occurs c s = false → rsplit_once c s = None.
Proof.
  induction s as [|a s IH]; intros H; [done|]. cbn in *. destruct (ascii_dec a c) eqn:E; [done|].
  by rewrite (IH H).
Qed.

Lemma rsplit_once_app c l r : occurs c r = false → rsplit_once c (l +:+ String c r) = Some (l, r).
Proof.
  intros H. induction l as [|a l IH].
  - change ("" +:+ String c r) with (String c r). cbn. rewrite (rsplit_once_None _ _ H). destruct (ascii_dec c c); [done|congruence].
  - change (String a l +:+ String c r) with (String a (l +:+ String c r)). cbn. by rewrite IH.
Qed.

(** The decimal form of a port is read back. *)
Lemma parse_u16_pretty p : 0 <= p <= u16_max → parse_u16 (pretty (Z.to_N p)) = Some p.
Proof.
  intros Hp. unfold parse_u16, parse_unsigned.
  pose proof (digits_val_pretty (Z.to_N p)) as Hd. pose proof (pretty_N_nonempty (Z.to_N p)) as Hne.
  destruct (pretty (Z.to_N p)) as [|a s]; [done|].
  assert (Hplus : strip_prefix "+" (String a s) = None).
  { apply digits_val_all in Hd. cbn [all_digits] in Hd. apply andb_true_iff in Hd as [Ha _].
    apply bool_decide_eq_true in Ha as [d Ha]. cbn [strip_prefix].
    destruct (ascii_dec "+" a) as [<-|]; [done|done]. }
  rewrite Hplus. cbn [default from_option id]. rewrite Hd. cbn [mbind option_bind].
  rewrite Z2N.id by lia. destruct (p <=? u16_max) eqn:E; [done|]. bool_to_prop. lia.
Qed.

Lemma digits_val_nonneg acc s v : 0 <= acc → digits_val acc s = Some v → 0 <= v.
Proof.
  revert acc. induction s as [|a s IH]; intros acc Hacc H; cbn in H; [by injection H as <-|].
  destruct (digit_val a) as [d|] eqn:E; [|done]. eapply IH; [|exact H].
  unfold digit_val in E. destruct (_ && _) eqn:F; [|done]. injection E as <-. bool_to_prop. lia.
Qed.

Lemma parse_unsigned_bounds max s v : parse_unsigned max s = Some v → 0 <= v <= max.
Proof.
  unfold parse_unsigned. destruct (default s _) as [|a t]; [done|].
  destruct (digits_val 0 (String a t)) as [v'|] eqn:E; [|done]. cbn [mbind option_bind].
  destruct (v' <=? max) eqn:F; [|done]. intros [= <-]. bool_to_prop. split; [|done].
  by eapply digits_val_nonneg, E.
Qed.

Lemma parse_u16_bounds s v : parse_u16 s = Some v → 0 <= v <= u16_max.
Proof. apply parse_unsigned_bounds. Qed.

Lemma split_host_port_format host port :
  occurs bracket host = false → strip_prefix "[" host = None → all_digits port = true →
  split_host_port ((if occurs colon host then "[" +:+ host +:+ "]" else host) +:+ ":" +:+ port)
  = Some (host, port).
Proof.
  intros Hb Hs Hd. unfold split_host_port. destruct (occurs colon host) eqn:Hc.
  - rewrite !append_assoc, strip_prefix_app.
    change ("]" +:+ ":" +:+ port) with (String bracket (":" +:+ port)).
    rewrite split_once_app by done. cbn [mbind option_bind]. by rewrite strip_prefix_app.
  - assert (Hn : strip_prefix "[" (host +:+ ":" +:+ port) = None).
    { destruct host as [|a host]; [done|].
      change (String a host +:+ ":" +:+ port) with (String a (host +:+ ":" +:+ port)).
      cbn [strip_prefix] in Hs |- *. by destruct (ascii_dec _ a). }
    rewrite Hn. change (":" +:+ port) with (String colon port). apply rsplit_once_app.
    by apply all_digits_occurs.
Qed.

(** ** Properties *)

(** The address parser reads back every address: a host without a closing
    bracket (bracketed when it holds a colon, as IPv6 literals do) and a port
    come out unchanged, and whatever parses has the [tls:] prefix and a port of
    16 bits. *)
Theorem parse_tls_address_format (s host : string) (port : Z) :
  (occurs bracket host = false → strip_prefix "[" host = None → 0 <= port <= u16_max →
   parse_tls_address (format_tls host port) = Ok (host, port)) ∧
  (parse_tls_address s = Ok (host, port) → 0 <= port <= u16_max ∧ ∃ rest, s = "tls:" +:+ rest).
Proof.
  split.
  - intros Hb Hs Hp. unfold parse_tls_address, format_tls. rewrite strip_prefix_app. cbn [ok_or mbind result_bind].
    rewrite split_host_port_format; [|done..|by eapply digits_val_all, digits_val_pretty].
    cbn [ok_or mbind result_bind]. by rewrite parse_u16_pretty.
  - unfold parse_tls_address. intros H.
    destruct (strip_prefix "tls:" s) as [rest|] eqn:Es; [|done]. cbn [ok_or mbind result_bind] in H.
    destruct (split_host_port rest) as [[h p]|]; [|done]. cbn [ok_or mbind result_bind] in H.
    destruct (parse_u16 p) as [port'|] eqn:Ep; [|done]. cbn [ok_or mbind result_bind] in H.
    injection H as -> ->. split; [by eapply parse_u16_bounds|]. exists rest. by apply strip_prefix_Some.
Qed.

Lemma parse_tls_address_format_witness :
  parse_tls_address "tls:[::1]:443" = Ok ("::1", 443) ∧ parse_tls_address "tls:er1.example:3022" = Ok ("er1.example", 3022).
Proof.
  split.
  - apply (proj1 (parse_tls_address_format "" "::1" 443)); [done|done|unfold u16_max; lia].
  - apply (proj1 (parse_tls_address_format "" "er1.example" 3022)); [done|done|unfold u16_max; lia].
Defined.
