(* ===== verification/ChannelDial.v ===== *)
(** * Opening a channel to a router: [src/edge/channel/dial.rs]

    The TCP and TLS connection, the Hello that carries the session token, and the
    channel that the router's Result makes; the life of that channel until it is closed
    or dropped ([edge/data/channel.rs]). *)

From S2P Require Import Prelude Utf8 Message EdgeWire ChannelState.

(** ** A channel *)

(** Its tasks, while they are there: whether each has finished. *)
Record EdgeChannel : Type := mkEdgeChannel {
  ch_state : chan;
  rx_task : option bool;
  probe_task : option bool;
  result_headers : gmap Z (list Z)
}.

Definition from_halves (headers : gmap Z (list Z)) : EdgeChannel := mkEdgeChannel chan_new (Some false) (Some false) headers.
Definition seed_latency (nanos : Z) (ch : EdgeChannel) : EdgeChannel :=
  mkEdgeChannel (record_latency nanos (ch_state ch)) (rx_task ch) (probe_task ch) (result_headers ch).
Definition router_id (ch : EdgeChannel) : option string := from_utf8_lossy <$> result_headers ch !! HDR_ID.
Definition hello_version (ch : EdgeChannel) : option string := from_utf8_lossy <$> result_headers ch !! HDR_HELLO_VERSION.
Definition channel_is_alive (ch : EdgeChannel) : bool :=
  negb (is_closed (ch_state ch)) && match rx_task ch with Some finished => negb finished | None => false end.

(** [Drop], and [close], which first shuts the write half down. *)
Definition channel_drop (ch : EdgeChannel) : EdgeChannel := mkEdgeChannel (mark_closed (ch_state ch)) None None (result_headers ch).
Definition channel_close (ch : EdgeChannel) : EdgeChannel := channel_drop ch.

(** ** The handshake *)

Definition HDR_SESSION_TOKEN : Z := 1002.

Definition build_channel_hello (api_token cn : string) : Message := new_hello cn {[ HDR_SESSION_TOKEN := bytes_of_string api_token ]}.

(** What the network does: connects, takes the name of the host for the certificate,
    completes TLS, takes the Hello or fails, and brings the bytes of the router; and the
    nanoseconds until then. *)
Record dialed : Type := mkDialed {
  tcp_connect : result string unit;
  server_name : result string unit;
  tls_connect : result string unit;
  hello_write : option string;
  incoming : list Z;
  connect_nanos : Z
}.

(** The channel, the bytes the router gets, and those after its Result, which the read
    loop gets.  [None] is the panic of a Hello too long to write. *)
Definition dial_handshake (eof_text host : string) (port : Z) (cn token : string) (d : dialed) :
    option (result EdgeError (EdgeChannel * list Z * list Z)) :=
  let at_host e := (host +:+ ": " +:+ e)%string in
  match (_ ← map_err (λ e, ChannelTls ("tcp connect " +:+ host +:+ ":" +:+ pretty port +:+ ": " +:+ e)) (tcp_connect d);
         _ ← map_err (λ e, ChannelTls ("server name " +:+ at_host e)) (server_name d);
         map_err (λ e, ChannelTls ("tls handshake " +:+ at_host e)) (tls_connect d)) with
  | Err e => Some (Err e)
  | Ok _ =>
      r ← connect_channel eof_text (hello_write d) (incoming d) (build_channel_hello token cn);
      Some ('(resp, rest, sent) ← map_err Channel r;
            Ok (seed_latency (Z.min (connect_nanos d) u64_max) (from_halves (headers resp)), sent, rest))
  end.

(** A router that says success and already sends two bytes more. *)
Definition sample_result : Message := mkMessage CT_RESULT 0 {[ HDR_RESULT_SUCCESS := [1] ]} [].
Definition sample_result_bytes : list Z :=
  [3;6;9;12; 2;0;0;0; 0;0;0;0; 9;0;0;0; 0;0;0;0; 2;0;0;0; 1;0;0;0; 1].
Definition sample_dialed : dialed := mkDialed (Ok tt) (Ok tt) (Ok tt) None (sample_result_bytes ++ [7; 7]) 5000000.

(** ** Properties *)

Lemma hello_ok token cn : msg_ok (build_channel_hello token cn).
Proof.
  split; cbn [content_type sequence headers body build_channel_hello new_hello].
  - unfold i32_ok, CT_HELLO. lia.
  - unfold i32_ok, HELLO_SEQUENCE. lia.
  - apply map_Forall_singleton. split; [unfold i32_ok, HDR_SESSION_TOKEN; lia|apply bytes_of_string_ok].
  - apply bytes_of_string_ok.
Qed.

Lemma u32_len_fits l : Z.of_nat (length l) <= u32_max → u32_len l = Some (Z.of_nat (length l)).
Proof. intros Hl. unfold u32_len. by rewrite (proj2 (Z.leb_le _ _) Hl). Qed.

(** The frame of a message whose headers are known. *)
Lemma marshal_v2_frame (m : Message) hdr :
  marshal_headers (btree_entries (headers m)) = Some hdr → Z.of_nat (length hdr) <= u32_max → Z.of_nat (length (body m)) <= u32_max →
  ∃ sent, marshal_v2 m = Some sent ∧ length sent = (20 + length hdr + length (body m))%nat.
Proof.
  intros Hh Hl Hb. unfold marshal_v2. rewrite Hh. cbn [mbind option_bind]. rewrite !u32_len_fits by done. cbn [mbind option_bind].
  eexists. split; [reflexivity|]. rewrite !length_app, ?length_i32_to_le, ?length_u32_to_le. change (length MAGIC_V2) with 4%nat. lia.
Qed.

(** One header. *)
Lemma marshal_header_one k v : Z.of_nat (length v) <= u32_max →
  ∃ hdr, marshal_headers [(k, v)] = Some hdr ∧ length hdr = (8 + length v)%nat.
Proof.
  intros Hv. cbn [marshal_headers]. unfold marshal_header. cbn [fst snd]. rewrite u32_len_fits by done. cbn [mbind option_bind].
  eexists. split; [reflexivity|]. rewrite !length_app, ?length_i32_to_le, ?length_u32_to_le. cbn [length]. lia.
Qed.

(** The frame of the Hello. *)
Lemma hello_frame token cn :
  Z.of_nat (String.length token) + 8 <= u32_max → Z.of_nat (String.length cn) <= u32_max →
  ∃ sent, marshal_v2 (build_channel_hello token cn) = Some sent ∧ Z.of_nat (length sent) = 28 + Z.of_nat (String.length token + String.length cn).
Proof.
  intros Ht Hc. destruct (marshal_header_one HDR_SESSION_TOKEN (bytes_of_string token)) as (hdr & Hm & Hl); rewrite length_bytes_of_string in *; [lia|].
  destruct (marshal_v2_frame (build_channel_hello token cn) hdr) as (sent & Hs & Hn).
  - by rewrite <-Hm.
  - lia.
  - unfold build_channel_hello, new_hello. cbn [body]. rewrite length_bytes_of_string. lia.
  - exists sent. split; [done|]. rewrite Hn. unfold build_channel_hello, new_hello. cbn [body]. rewrite length_bytes_of_string. lia.
Qed.

(** C27. Opening a channel, for every well-formed reply of the router: the bytes sent are one
    frame, in which the router reads the session token and the name; the channel is
    there exactly for a Result that says success, refused ones give the reason; it is
    alive, has nothing registered, its latency is that of the handshake, and the read
    loop gets the stream from right after the Result. *)
Theorem dial_handshake_opens eof host port cn token d resp rbytes rest :
  tcp_connect d = Ok tt → server_name d = Ok tt → tls_connect d = Ok tt → hello_write d = None →
  msg_ok resp → marshal_v2 resp = Some rbytes → Z.of_nat (length rbytes) <= Z.of_nat DATA_SECTION_V2 + MAX_DATA_SECTION →
  incoming d = rbytes ++ rest → 0 <= connect_nanos d →
  Z.of_nat (String.length token + String.length cn) + 8 <= MAX_DATA_SECTION →
  ∃ r, dial_handshake eof host port cn token d = Some r ∧
  match r with
  | Ok (ch, sent, stream) =>
      content_type resp = CT_RESULT ∧ (∃ v, headers resp !! HDR_RESULT_SUCCESS = Some (1 :: v)) ∧
      (∃ hello, read_message eof sent = Ok (hello, []) ∧ content_type hello = CT_HELLO ∧
         headers hello !! HDR_SESSION_TOKEN = Some (bytes_of_string token) ∧ body hello = bytes_of_string cn) ∧
      stream = rest ∧ channel_is_alive ch = true ∧ waiters (ch_state ch) = ∅ ∧ conns (ch_state ch) = ∅ ∧ binds (ch_state ch) = ∅ ∧
      mean_latency_nanos (ch_state ch) = Z.min (connect_nanos d) u64_max ∧ result_headers ch = headers resp
  | Err e =>
      e = Channel (UnexpectedContentType (content_type resp)) ∧ content_type resp ≠ CT_RESULT ∨
      e = Channel (HandshakeRejected (from_utf8_lossy (body resp))) ∧ ¬ ∃ v, headers resp !! HDR_RESULT_SUCCESS = Some (1 :: v)
  end.
Proof.
  intros Htcp Hname Htls Hw Hok Hr Hcap Hin Hn Hlen. change MAX_DATA_SECTION with 1048576 in Hlen. unfold dial_handshake. rewrite Htcp, Hname, Htls, Hw, Hin. cbn [map_err mbind result_bind].
  destruct (hello_frame token cn) as (sent & Hs & Hsl); [unfold u32_max; lia..|].
  rewrite (connect_channel_reply eof _ resp sent rbytes rest) by done. cbn [mbind option_bind]. eexists. split; [done|].
  case_bool_decide as Hct; cbn [map_err mbind result_bind]; [by left|].
  assert (Hread : read_message eof sent = Ok (build_channel_hello token cn, [])).
  { rewrite <-(app_nil_r sent). apply read_message_marshal; [apply hello_ok|done|]. change MAX_DATA_SECTION with 1048576. unfold DATA_SECTION_V2. lia. }
  destruct (headers resp !! HDR_RESULT_SUCCESS) as [[|b v]|] eqn:Eh; [right; split; [done|by intros [v Hv]]| |right; split; [done|by intros [v Hv]]].
  destruct (Z.eq_dec b 1) as [->|Hb]; [|destruct b as [|[]|]; try done; right; (split; [done|intros [v' Hv']; by simplify_eq])].
  cbn [map_err mbind result_bind]. split_and!; [done|by exists v| |done..| |done].
  - exists (build_channel_hello token cn). split_and!; [done|done|by apply lookup_singleton_eq|done].
  - unfold mean_latency_nanos, seed_latency, record_latency. cbn [ch_state latency_count set_latency from_halves chan_new latency_sum].
    change (wrap_u64 (0 + 1)) with 1. cbn [Z.eqb]. rewrite Z.div_1_r, Z.add_0_l. unfold wrap_u64, u64_max in *. apply Z.mod_small. lia.
Qed.

Lemma dial_handshake_opens_witness :
  match dial_handshake "eof" "router" 3022 "leaf" "token" sample_dialed with
  | Some (Ok (ch, sent, stream)) => stream = [7; 7] ∧ mean_latency_nanos (ch_state ch) = 5000000
  | _ => False
  end.
Proof.
  destruct (dial_handshake_opens "eof" "router" 3022 "leaf" "token" sample_dialed sample_result sample_result_bytes [7; 7])
    as ([[[ch sent] stream]|e] & E & P); try (vm_compute; first [reflexivity | discriminate]).
  - constructor; by_compute.
  - rewrite E. split; [apply P|]. destruct P as (_ & _ & _ & _ & _ & _ & _ & _ & P & _). rewrite P. reflexivity.
Defined.

(** Nothing stays registered on a channel that is closed or dropped, and it is never
    handed out again. *)
Theorem channel_dropped ch : 
  channel_is_alive (channel_drop ch) = false ∧ is_closed (ch_state (channel_drop ch)) = true ∧
  (is_closed (ch_state ch) = false →
     waiters (ch_state (channel_drop ch)) = ∅ ∧ conns (ch_state (channel_drop ch)) = ∅ ∧ binds (ch_state (channel_drop ch)) = ∅).
Proof.
  unfold channel_is_alive, channel_drop, is_closed, mark_closed. cbn [ch_state rx_task]. rewrite andb_false_r. split; [done|].
  destruct (closed (ch_state ch)) eqn:E; [by rewrite E|done].
Qed.
