(* ===== verification/ChannelPool.v ===== *)
(** * The pool of channels: [src/edge/client/pool.rs], [edge/channel/{open,fanout}.rs]

    The channels to edge routers that the connects of a client share: which of a
    session's routers have one, the openers that dial the others - tasks of their own,
    which outlive the connect that spawned them - and the registry of channels a new
    token is pushed to.  Each step below takes one lock or ends one wait. *)

From S2P Require Import Prelude EdgeWire Address.

(** ** State

    A channel of the store: its router, whether it is alive, its mean latency, whether
    its state has been dropped. *)
Record channel : Type := mkChannel { c_addr : string; c_alive : bool; c_mean : Z; c_gone : bool }.

Notation answer := (result EdgeError nat).

(** An opener: its router, the connect that waits for it, and where it is - before its
    first look at the pool, in the dial, between the pool and the registry, or done. *)
Inductive opener_phase : Type := Starting | Dialing | Registering (c : nat) | Over (r : answer).
Record opener : Type := mkOpener { o_addr : string; o_front : option nat; o_phase : opener_phase }.

(** A connect: the routers of its session and where it is - before the scoring, with a
    scored channel, building the configuration for openers, in [rx.recv], done - with
    the reports that wait, the openers it waits for and those that failed. *)
Inductive front_phase : Type :=
| Begin
| Found (c : nat)
| Configuring (hit : option nat) (addrs : list string)
| Waiting (last_err : option EdgeError)
| Done (r : answer).
Record front : Type := mkFront {
  f_addrs : list string;
  f_phase : front_phase;
  f_queue : list (nat * answer);
  f_spawned : list nat;
  f_seen : list nat
}.

(** Channels, connects and openers are numbered by one counter. *)
Record pool_state : Type := mkPool {
  pool : gmap string nat;
  chans : gmap nat channel;
  live : list nat;
  fronts : gmap nat front;
  openers : gmap nat opener;
  next : nat
}.

Definition pool_new : pool_state := mkPool ∅ ∅ [] ∅ ∅ 0.

Definition is_alive (s : pool_state) (c : nat) : bool := match chans s !! c with Some ch => c_alive ch | None => false end.
Definition pool_mean (s : pool_state) (c : nat) : Z := match chans s !! c with Some ch => c_mean ch | None => 0 end.
Definition is_gone (s : pool_state) (c : nat) : bool := match chans s !! c with Some ch => c_gone ch | None => true end.

Definition set_pool (p : gmap string nat) (s : pool_state) : pool_state := mkPool p (chans s) (live s) (fronts s) (openers s) (next s).
Definition set_chans (m : gmap nat channel) (s : pool_state) : pool_state := mkPool (pool s) m (live s) (fronts s) (openers s) (next s).
Definition set_live (l : list nat) (s : pool_state) : pool_state := mkPool (pool s) (chans s) l (fronts s) (openers s) (next s).
Definition set_fronts (m : gmap nat front) (s : pool_state) : pool_state := mkPool (pool s) (chans s) (live s) m (openers s) (next s).
Definition set_openers (m : gmap nat opener) (s : pool_state) : pool_state := mkPool (pool s) (chans s) (live s) (fronts s) m (next s).

Definition set_phase (i : nat) (p : front_phase) (f : front) (s : pool_state) : pool_state :=
  set_fronts (<[i := mkFront (f_addrs f) p (f_queue f) (f_spawned f) (f_seen f)]> (fronts s)) s.

(** ** The pool (pool.rs) *)

Definition pool_get_alive_one (addr : string) (s : pool_state) : option nat * pool_state :=
  match pool s !! addr with
  | Some c => if is_alive s c then (Some c, s) else (None, set_pool (delete addr (pool s)) s)
  | None => (None, s)
  end.

(** [min_by_key]: the first of the least. *)
Fixpoint min_by_mean (s : pool_state) (l : list nat) : option nat :=
  match l with
  | [] => None
  | c :: l =>
      match min_by_mean s l with
      | Some d => Some (if pool_mean s c <=? pool_mean s d then c else d)
      | None => Some c
      end
  end.

Definition alive_at (s : pool_state) (addr : string) : option nat := c ← pool s !! addr; if is_alive s c then Some c else None.

Definition pool_get_alive (addrs : list string) (s : pool_state) : option nat * pool_state :=
  let dead := List.filter (λ a, match pool s !! a with Some c => negb (is_alive s c) | None => false end) addrs in
  let candidates := omap (alive_at s) addrs in
  (min_by_mean s candidates, set_pool (foldr delete (pool s) dead) s).

Definition pool_unconnected (addrs : list string) (s : pool_state) : list string :=
  List.filter (λ a, negb (bool_decide (is_Some (alive_at s a)))) addrs.

(** The part of [pool_store_or_reuse_into] under the lock: the channel to use, and
    whether it is the new one. *)
Definition pool_store_or_reuse_into (addr : string) (c : nat) (s : pool_state) : nat * bool * pool_state :=
  match alive_at s addr with
  | Some existing => (existing, false, s)
  | None => (c, true, set_pool (<[addr := c]> (pool s)) s)
  end.

Definition register_live_channel_into (c : nat) (s : pool_state) : pool_state :=
  set_live (List.filter (λ d, negb (is_gone s d)) (live s) ++ [c]) s.

(** ** Openers (fanout.rs) *)

(** [tx.send]: only a connect that still waits gets it. *)
Definition report (j : nat) (o : opener) (r : answer) (s : pool_state) : pool_state :=
  let s := set_openers (<[j := mkOpener (o_addr o) (o_front o) (Over r)]> (openers s)) s in
  match (i ← o_front o; pair i <$> fronts s !! i) with
  | Some (i, f) =>
      match f_phase f with
      | Waiting _ => set_fronts (<[i := mkFront (f_addrs f) (f_phase f) (f_queue f ++ [(j, r)]) (f_spawned f) (f_seen f)]> (fronts s)) s
      | _ => s
      end
  | None => s
  end.

Definition set_opener (j : nat) (o : opener) (p : opener_phase) (s : pool_state) : pool_state :=
  set_openers (<[j := mkOpener (o_addr o) (o_front o) p]> (openers s)) s.

(** [tokio::spawn] for each address. *)
Fixpoint spawn_openers (front : option nat) (addrs : list string) (s : pool_state) : list nat * pool_state :=
  match addrs with
  | [] => ([], s)
  | a :: addrs =>
      let j := next s in
      let '(js, s) := spawn_openers front addrs
        (mkPool (pool s) (chans s) (live s) (fronts s) (<[j := mkOpener a front Starting]> (openers s)) (S j)) in
      (j :: js, s)
  end.

(** [open_and_pool_router], up to its dial. *)
Definition opener_starts (j : nat) (o : opener) (s : pool_state) : pool_state :=
  let '(existing, s) := pool_get_alive_one (o_addr o) s in
  match existing with
  | Some c => report j o (Ok c) s
  | None =>
      match parse_tls_address (o_addr o) with
      | Err e => report j o (Err (Channel e)) s
      | Ok _ => set_opener j o Dialing s
      end
  end.

(** The dial ends: [Ok] is the handshake's time and whether the channel is still alive. *)
Definition opener_dialed (j : nat) (o : opener) (r : result EdgeError (Z * bool)) (s : pool_state) : pool_state :=
  match r with
  | Err e => report j o (Err e) s
  | Ok (connect_nanos, alive) =>
      let c := next s in
      let s := mkPool (pool s) (<[c := mkChannel (o_addr o) alive connect_nanos false]> (chans s)) (live s) (fronts s) (openers s) (S c) in
      let '(used, new, s) := pool_store_or_reuse_into (o_addr o) c s in
      if new : bool then set_opener j o (Registering used) s else report j o (Ok used) s
  end.

(** ** Connects (open.rs: [open_or_reuse_pooled_channel], [fan_out_first_ok]) *)

Definition scored (i : nat) (f : front) (token : bool) (s : pool_state) : pool_state :=
  let '(hit, s) := pool_get_alive (f_addrs f) s in
  match hit with
  | Some c => set_phase i (Found c) f s
  | None => set_phase i (if token then Configuring None (f_addrs f) else Done (Err NotAuthenticated)) f s
  end.

(** [spawn_unconnected_router_openers], up to the configuration. *)
Definition spawns_unconnected (i : nat) (f : front) (c : nat) (token : bool) (s : pool_state) : pool_state :=
  match pool_unconnected (f_addrs f) s with
  | [] => set_phase i (Done (Ok c)) f s
  | unconnected => set_phase i (if token then Configuring (Some c) unconnected else Done (Ok c)) f s
  end.

Definition configured (i : nat) (f : front) (hit : option nat) (addrs : list string) (r : result EdgeError unit) (s : pool_state)
    : pool_state :=
  match hit, r with
  | Some c, Err _ => set_phase i (Done (Ok c)) f s
  | Some c, Ok _ => let '(_, s) := spawn_openers None addrs s in set_phase i (Done (Ok c)) f s
  | None, Err e => set_phase i (Done (Err e)) f s
  | None, Ok _ =>
      let '(js, s) := spawn_openers (Some i) addrs s in
      set_fronts (<[i := mkFront (f_addrs f) (Waiting None) [] js []]> (fronts s)) s
  end.

Definition is_over (s : pool_state) (j : nat) : bool :=
  match openers s !! j with Some o => match o_phase o with Over _ => true | _ => false end | None => true end.

(** [rx.recv]: [None] is a wait. *)
Definition received (i : nat) (f : front) (last_err : option EdgeError) (s : pool_state) : option pool_state :=
  match f_queue f with
  | (j, Ok c) :: q => Some (set_phase i (Done (Ok c)) f s)
  | (j, Err e) :: q =>
      Some (set_fronts (<[i := mkFront (f_addrs f) (Waiting (Some e)) q (f_spawned f) (j :: f_seen f)]> (fronts s)) s)
  | [] => if forallb (is_over s) (f_spawned f) then Some (set_phase i (Done (Err (default NoTlsEdgeRouter last_err))) f s) else None
  end.

(** ** The run *)

Inductive pool_event : Type :=
| Connects (addrs : list string)
| Scored (i : nat) (token : bool)
| Spawns (i : nat) (token : bool)
| Configured (i : nat) (r : result EdgeError unit)
| Receives (i : nat)
| Cancelled (i : nat)
| Starts (j : nat)
| Dialed (j : nat) (r : result EdgeError (Z * bool))
| TimesOut (j : nat)
| Registers (j : nat)
| Binds (addr : string)
| Dies (c : nat)
| Probed (c : nat) (mean : Z)
| Dropped (c : nat).

Definition DIAL_TIMED_OUT : EdgeError := ChannelTls "router dial timed out after 15s".

Definition registering (s : pool_state) (c : nat) : bool :=
  existsb (λ jo, match o_phase jo.2 with Registering d => bool_decide (d = c) | _ => false end) (map_to_list (openers s)).

(** A channel is dropped only when neither the pool nor an opener that registers it
    holds it. *)
Definition chan_pool_step (e : pool_event) (s : pool_state) : option pool_state :=
  match e with
  | Connects addrs =>
      if bool_decide (addrs = []) then None
      else Some (mkPool (pool s) (chans s) (live s) (<[next s := mkFront addrs Begin [] [] []]> (fronts s)) (openers s) (S (next s)))
  | Scored i token =>
      f ← fronts s !! i; match f_phase f with Begin => Some (scored i f token s) | _ => None end
  | Spawns i token =>
      f ← fronts s !! i; match f_phase f with Found c => Some (spawns_unconnected i f c token s) | _ => None end
  | Configured i r =>
      f ← fronts s !! i; match f_phase f with Configuring hit addrs => Some (configured i f hit addrs r s) | _ => None end
  | Receives i =>
      f ← fronts s !! i; match f_phase f with Waiting last_err => received i f last_err s | _ => None end
  | Cancelled i => Some (set_fronts (delete i (fronts s)) s)
  | Starts j =>
      o ← openers s !! j; match o_phase o with Starting => Some (opener_starts j o s) | _ => None end
  | Dialed j r =>
      o ← openers s !! j; match o_phase o with Dialing => Some (opener_dialed j o r s) | _ => None end
  | TimesOut j =>
      o ← openers s !! j; match o_phase o with Dialing => Some (report j o (Err DIAL_TIMED_OUT) s) | _ => None end
  | Registers j =>
      o ← openers s !! j;
      match o_phase o with Registering c => Some (report j o (Ok c) (register_live_channel_into c s)) | _ => None end
  | Binds addr =>
      let c := next s in
      Some (register_live_channel_into c
        (mkPool (pool s) (<[c := mkChannel addr true 0 false]> (chans s)) (live s) (fronts s) (openers s) (S c)))
  | Dies c => Some (set_chans (alter (λ ch, mkChannel (c_addr ch) false (c_mean ch) (c_gone ch)) c (chans s)) s)
  | Probed c mean => Some (set_chans (alter (λ ch, mkChannel (c_addr ch) (c_alive ch) mean (c_gone ch)) c (chans s)) s)
  | Dropped c =>
      if existsb (λ ac, bool_decide (ac.2 = c)) (map_to_list (pool s)) || registering s c then None
      else Some (set_chans (alter (λ ch, mkChannel (c_addr ch) false (c_mean ch) true) c (chans s)) s)
  end.

Fixpoint pool_run (es : list pool_event) (s : pool_state) : option pool_state :=
  match es with
  | [] => Some s
  | e :: es => s ← chan_pool_step e s; pool_run es s
  end.

(** ** Invariant *)

Definition chan_addr (s : pool_state) (c : nat) : option string := c_addr <$> chans s !! c.

(** The channel is one dialed to a router of the list. *)
Definition to_one_of (s : pool_state) (addrs : list string) (c : nat) : Prop := ∃ a, chan_addr s c = Some a ∧ a ∈ addrs.

Definition opener_ok (s : pool_state) (j : nat) (o : opener) : Prop :=
  match o_phase o with
  | Registering c => chan_addr s c = Some (o_addr o) ∧ c ∉ live s
  | Over (Ok c) => chan_addr s c = Some (o_addr o)
  | _ => True
  end.

(** A connect that waits: each of its openers is at work, has its report in the queue,
    or failed and was read. *)
Definition awaited_ok (s : pool_state) (i : nat) (f : front) (j : nat) : Prop :=
  ∃ o, openers s !! j = Some o ∧ o_front o = Some i ∧ o_addr o ∈ f_addrs f ∧
    match o_phase o with Over r => (j, r) ∈ f_queue f ∨ (j ∈ f_seen f ∧ ∃ e, r = Err e) | _ => True end.

Record waiting_ok (s : pool_state) (i : nat) (f : front) : Prop := {
  wo_all : ∀ a, a ∈ f_addrs f → ∃ j o, j ∈ f_spawned f ∧ openers s !! j = Some o ∧ o_addr o = a;
  wo_each : ∀ j, j ∈ f_spawned f → awaited_ok s i f j;
  wo_queue : ∀ j r, (j, r) ∈ f_queue f → ∃ o, openers s !! j = Some o ∧ o_phase o = Over r ∧ o_addr o ∈ f_addrs f
}.

Definition front_ok (s : pool_state) (i : nat) (f : front) : Prop :=
  match f_phase f with
  | Begin => True
  | Found c | Done (Ok c) => to_one_of s (f_addrs f) c
  | Configuring (Some c) addrs => to_one_of s (f_addrs f) c
  | Configuring None addrs => addrs = f_addrs f ∧ f_spawned f = []
  | Waiting _ => waiting_ok s i f
  | Done (Err e) =>
      f_spawned f = [] ∨ ∀ a, a ∈ f_addrs f → ∃ j o e', openers s !! j = Some o ∧ o_addr o = a ∧ o_phase o = Over (Err e')
  end.

Record chan_pool_ok (s : pool_state) : Prop := {
  po_pool : ∀ a c, pool s !! a = Some c →
    chan_addr s c = Some a ∧ is_gone s c = false ∧ (c ∈ live s ∨ ∃ j o, openers s !! j = Some o ∧ o_phase o = Registering c);
  po_live : NoDup (live s) ∧ ∀ c, c ∈ live s → is_Some (chans s !! c);
  po_one : ∀ j j' o o' c, openers s !! j = Some o → openers s !! j' = Some o' → o_phase o = Registering c → o_phase o' = Registering c → j = j';
  po_next : (∀ c, is_Some (chans s !! c) → (c < next s)%nat) ∧ (∀ j, is_Some (openers s !! j) → (j < next s)%nat) ∧
    (∀ j o i, openers s !! j = Some o → o_front o = Some i → (i < next s)%nat);
  po_openers : ∀ j o, openers s !! j = Some o → opener_ok s j o;
  po_fronts : ∀ i f, fronts s !! i = Some f → front_ok s i f;
  po_mine : ∀ j o i f, openers s !! j = Some o → o_front o = Some i → fronts s !! i = Some f → o_addr o ∈ f_addrs f;
  po_begin : ∀ i f, fronts s !! i = Some f → f_phase f = Begin ∨ (∃ c, f_phase f = Found c) → f_spawned f = [];
  po_ids : ∀ i, is_Some (fronts s !! i) → (i < next s)%nat
}.

(** ** Lemmas: growth *)

(** Channels keep their router, openers their place; what is over stays over, and
    nothing new is over among the openers of a connect. *)
Record pool_grows (s s' : pool_state) : Prop := {
  gr_chans : ∀ c a, chan_addr s c = Some a → chan_addr s' c = Some a;
  gr_openers : ∀ j o, openers s !! j = Some o →
    ∃ o', openers s' !! j = Some o' ∧ o_addr o' = o_addr o ∧ o_front o' = o_front o ∧ ∀ r, o_phase o = Over r → o_phase o' = Over r
}.

Definition settled (s s' : pool_state) (i : nat) : Prop :=
  ∀ j o o' r, openers s !! j = Some o → openers s' !! j = Some o' → o_front o = Some i → o_phase o' = Over r → o_phase o = Over r.

Lemma grows_refl s : pool_grows s s.
Proof. split; [done|]. intros j o Ho. by exists o. Qed.

Lemma grows_same s s' : chans s' = chans s → openers s' = openers s → pool_grows s s'.
Proof. intros Hc Ho. split; unfold chan_addr; rewrite ?Hc, ?Ho; [done|]. intros j o Hj. by exists o. Qed.

Lemma settled_same s s' i : openers s' = openers s → settled s s' i.
Proof. intros Ho j o o' r Hj Hj'. rewrite Ho in Hj'. by simplify_eq. Qed.

Lemma to_one_of_grows s s' addrs c : pool_grows s s' → to_one_of s addrs c → to_one_of s' addrs c.
Proof. intros Hg (a & Ha & Hin). exists a. split; [by eapply gr_chans|done]. Qed.

Lemma waiting_grows s s' i f : pool_grows s s' → settled s s' i → waiting_ok s i f → waiting_ok s' i f.
Proof.
  intros Hg Hs [Ha He Hq]. split.
  - intros a Hin. destruct (Ha a Hin) as (j & o & Hj & Ho & Hoa). destruct (gr_openers _ _ Hg j o Ho) as (o' & Ho' & Hoa' & _).
    exists j, o'. by rewrite Hoa', Hoa.
  - intros j Hj. destruct (He j Hj) as (o & Ho & Hof & Hoa & Hp). destruct (gr_openers _ _ Hg j o Ho) as (o' & Ho' & Hoa' & Hof' & Hov).
    exists o'. rewrite Hof', Hoa'. split_and!; [done|done|done|]. destruct (o_phase o') as [| | |r] eqn:E; try done.
    rewrite (Hs j o o' r Ho Ho' Hof E) in Hp. exact Hp.
  - intros j r Hin. destruct (Hq j r Hin) as (o & Ho & Hp & Hoa). destruct (gr_openers _ _ Hg j o Ho) as (o' & Ho' & Hoa' & _ & Hov).
    exists o'. rewrite Hoa'. by rewrite (Hov r Hp).
Qed.

Lemma front_grows s s' i f : pool_grows s s' → settled s s' i → front_ok s i f → front_ok s' i f.
Proof.
  intros Hg Hs. unfold front_ok. destruct (f_phase f) as [|c|[c|] addrs|le|[c|e]]; try done; try (by apply to_one_of_grows).
  - by apply waiting_grows.
  - intros [Hn|Hall]; [by left|right]. intros a Hin. destruct (Hall a Hin) as (j & o & e' & Ho & Hoa & Hp).
    destruct (gr_openers _ _ Hg j o Ho) as (o' & Ho' & Hoa' & _ & Hov). exists j, o', e'. by rewrite Hoa', (Hov _ Hp).
Qed.

(** A connect as it changes: it keeps its routers and has no opener too early. *)
Definition front_follows (s : pool_state) (i : nat) (f : front) : Prop :=
  (∃ f0, fronts s !! i = Some f0 ∧ f_addrs f = f_addrs f0) ∧
  (f_phase f = Begin ∨ (∃ c, f_phase f = Found c) → f_spawned f = []).

Lemma front_follows_same s i f : chan_pool_ok s → fronts s !! i = Some f → front_follows s i f.
Proof. intros Hok Hf. split; [by exists f|by eapply (po_begin _ Hok)]. Qed.

(** A change of the fronts only. *)
Lemma fronts_ok s m :
  chan_pool_ok s → (∀ i f, m !! i = Some f → front_ok s i f ∧ front_follows s i f) → chan_pool_ok (set_fronts m s).
Proof.
  intros [H1 H2 H3 H4 H5 H6 H7 H8 H9] Hm. split; try done.
  - intros i f Hf. cbn in Hf. eapply (front_grows s); [by apply grows_same|by apply settled_same|exact (proj1 (Hm i f Hf))].
  - intros j o i f Ho Hi Hf. destruct (Hm i f Hf) as (_ & (f0 & Hf0 & ->) & _). by eapply H7.
  - intros i f Hf. exact (proj2 (proj2 (Hm i f Hf))).
  - intros i [f Hf]. destruct (Hm i f Hf) as (_ & (f0 & Hf0 & _) & _). apply H9. by exists f0.
Qed.

Lemma set_front_ok s i f f0 :
  chan_pool_ok s → fronts s !! i = Some f0 → f_addrs f = f_addrs f0 → front_ok s i f →
  (f_phase f = Begin ∨ (∃ c, f_phase f = Found c) → f_spawned f = []) →
  chan_pool_ok (set_fronts (<[i := f]> (fronts s)) s).
Proof.
  intros Hok Hf0 Ha Hf Hb. apply fronts_ok; [done|]. intros i' f' [[<- <-]|[_ Hi']]%lookup_insert_Some.
  - split; [done|]. split; [by exists f0|done].
  - split; [by apply (po_fronts _ Hok)|by apply front_follows_same].
Qed.

(** Fewer pooled channels. *)
Lemma set_pool_ok s p : chan_pool_ok s → p ⊆ pool s → chan_pool_ok (set_pool p s).
Proof.
  intros [H1 H2 H3 H4 H5 H6 H7 H8 H9] Hp. split; try done.
  - intros a c Ha. cbn in Ha. apply H1. by eapply lookup_weaken.
  - intros i f Hf. eapply (front_grows s); [by apply grows_same|by apply settled_same|by apply H6].
Qed.

(** A channel changes, not its router; one that goes is not pooled. *)
Lemma set_chan_ok s c g :
  chan_pool_ok s → (∀ ch, c_addr (g ch) = c_addr ch) →
  (∀ ch, c_gone (g ch) = c_gone ch ∨ (∀ a, pool s !! a ≠ Some c)) →
  chan_pool_ok (set_chans (alter g c (chans s)) s).
Proof.
  intros [H1 H2 H3 H4 H5 H6 H7 H8 H9] Hg Hgone.
  assert (Haddr : ∀ d, chan_addr (set_chans (alter g c (chans s)) s) d = chan_addr s d).
  { intros d. unfold chan_addr. cbn. destruct (decide (d = c)) as [->|Hne]; [|by rewrite lookup_alter_ne].
    rewrite lookup_alter_eq. by destruct (chans s !! c); cbn; rewrite ?Hg. }
  assert (Hgr : pool_grows s (set_chans (alter g c (chans s)) s)).
  { split; [intros d a; by rewrite Haddr|]. intros j o Ho. by exists o. }
  split; try done.
  - intros a d Ha. cbn in Ha. destruct (H1 a d Ha) as (Hd & Hn & Hr). rewrite Haddr. split_and!; [done| |done].
    unfold is_gone in *. cbn. destruct (decide (d = c)) as [->|Hne]; [|by rewrite lookup_alter_ne].
    rewrite lookup_alter_eq. destruct (chans s !! c) as [ch|]; [|done]. cbn. destruct (Hgone ch) as [->|Hno]; [done|by destruct (Hno a)].
  - cbn. split; [apply H2|]. intros d Hd. rewrite lookup_alter_is_Some. by apply H2.
  - cbn. split; [|apply H4]. intros d Hd. rewrite lookup_alter_is_Some in Hd. by apply (proj1 H4).
  - intros j o Ho. specialize (H5 j o Ho). unfold opener_ok in *. destruct (o_phase o) as [| |d|[d|]]; rewrite ?Haddr; exact H5.
  - intros i f Hf. eapply (front_grows s); [done|by apply settled_same|by apply H6].
Qed.

(** ** Lemmas: the registry and the openers *)

(** A registry that keeps what is pooled, without what an opener will register. *)
Record live_ok (s : pool_state) (l : list nat) (except : option nat) : Prop := {
  lo_nodup : NoDup l;
  lo_chans : ∀ c, c ∈ l → is_Some (chans s !! c);
  lo_keeps : ∀ a c, pool s !! a = Some c → c ∈ live s → c ∈ l;
  lo_fresh : ∀ j o c, openers s !! j = Some o → o_phase o = Registering c → except ≠ Some j → c ∉ l
}.

Lemma live_same s except : chan_pool_ok s → live_ok s (live s) except.
Proof.
  intros Hok. destruct (po_live _ Hok) as [Hn Hc]. split; try done.
  intros j o c Ho Hp _. pose proof (po_openers _ Hok j o Ho) as H. unfold opener_ok in H. rewrite Hp in H. apply H.
Qed.

Lemma register_live_ok s c except :
  chan_pool_ok s → is_Some (chans s !! c) → c ∉ live s →
  (∀ j o, openers s !! j = Some o → o_phase o = Registering c → except = Some j) →
  live_ok s (live (register_live_channel_into c s)) except.
Proof.
  intros Hok Hc Hn Hone. pose proof (live_same s except Hok) as [L1 L2 L3 L4]. unfold register_live_channel_into. cbn.
  assert (Hin : ∀ d, d ∈ List.filter (λ d, negb (is_gone s d)) (live s) → d ∈ live s).
  { intros d Hd. apply list_elem_of_In, List.filter_In in Hd as [Hd _]. by apply list_elem_of_In. }
  split.
  - apply NoDup_app. split_and!.
    + apply NoDup_ListNoDup, List.NoDup_filter, NoDup_ListNoDup, L1.
    + intros d Hd ->%list_elem_of_singleton. by apply Hn, Hin.
    + apply NoDup_singleton.
  - intros d [Hd| ->%list_elem_of_singleton]%elem_of_app; [by apply L2, Hin|done].
  - intros a d Ha Hd. apply elem_of_app. left. apply list_elem_of_In, List.filter_In. split; [by apply list_elem_of_In|].
    destruct (po_pool _ Hok a d Ha) as (_ & -> & _). done.
  - intros j o d Ho Hp He [Hd| ->%list_elem_of_singleton]%elem_of_app; [by eapply L4, Hin|by apply He, (Hone j o)].
Qed.

(** An opener moves, with the registry and the connects that see it. *)
Lemma opener_moves_ok s j o p l m :
  chan_pool_ok s → openers s !! j = Some o → (∀ r, o_phase o ≠ Over r) → live_ok s l (Some j) →
  (∀ c, o_phase o = Registering c → c ∈ l) →
  (match p with
   | Registering c => chan_addr s c = Some (o_addr o) ∧ c ∉ l ∧ (∀ j' o', openers s !! j' = Some o' → o_phase o' ≠ Registering c)
   | Over (Ok c) => chan_addr s c = Some (o_addr o)
   | _ => True end) →
  (∀ i f, m !! i = Some f → front_ok (set_opener j o p s) i f ∧ front_follows s i f) →
  chan_pool_ok (set_fronts m (set_live l (set_opener j o p s))).
Proof.
  intros Hok Ho Hover [L1 L2 L3 L4] Hreg Hp Hm. destruct Hok as [H1 H2 H3 H4 H5 H6 H7 H8 H9].
  assert (Hlook : ∀ j' o', openers (set_opener j o p s) !! j' = Some o' → (j' = j ∧ o' = mkOpener (o_addr o) (o_front o) p) ∨ (j' ≠ j ∧ openers s !! j' = Some o')).
  { intros j' o' Hj'. cbn in Hj'. apply lookup_insert_Some in Hj' as [[<- <-]|[Hne Hj']]; [by left|right; by split]. }
  assert (Hback : ∀ j' o', openers (set_opener j o p s) !! j' = Some o' → ∃ o0, openers s !! j' = Some o0 ∧ o_front o' = o_front o0 ∧ o_addr o' = o_addr o0).
  { intros j' o' [[-> ->]|[_ Hj']]%Hlook; [by exists o|by exists o']. }
  split.
  - intros a c Ha. cbn in Ha. destruct (H1 a c Ha) as (Hc & Hg & Hr). split_and!; [done|done|]. cbn.
    destruct Hr as [Hr|(j' & o' & Hj' & Hp')]; [left; by eapply L3|].
    destruct (decide (j' = j)) as [->|Hne]; [left; simplify_eq; by apply Hreg|].
    right. exists j', o'. split; [|done]. by rewrite lookup_insert_ne.
  - by split.
  - intros j1 j2 o1 o2 c Hj1 Hj2 Hp1 Hp2. apply Hlook in Hj1 as [[-> ->]|[N1 Hj1]], Hj2 as [[-> ->]|[N2 Hj2]]; cbn in *; subst.
    + done.
    + destruct Hp as (_ & _ & Hp). by destruct (Hp _ _ Hj2).
    + destruct Hp as (_ & _ & Hp). by destruct (Hp _ _ Hj1).
    + by eapply H3.
  - split; [apply H4|]. split.
    + intros j' [o' (o0 & Hj' & _)%Hback]. apply (proj1 (proj2 H4)). by exists o0.
    + intros j' o' i (o0 & Hj' & -> & _)%Hback Hi. by eapply (proj2 (proj2 H4)).
  - intros j' o' [[-> ->]|[Hne Hj']]%Hlook.
    + unfold opener_ok. cbn. destruct p as [| |c|[c|]]; try done. destruct Hp as (Hc & Hl & _). by split.
    + specialize (H5 j' o' Hj'). unfold opener_ok in *. destruct (o_phase o') as [| |c|r] eqn:E; try done.
      split; [apply H5|]. cbn. eapply L4; [exact Hj'|exact E|by intros [= ->]].
  - intros i f Hf. eapply (front_grows (set_opener j o p s)); [by apply grows_same|by apply settled_same|exact (proj1 (Hm i f Hf))].
  - intros j' o' i f (o0 & Hj' & -> & ->)%Hback Hi Hf. destruct (Hm i f Hf) as (_ & (f0 & Hf0 & ->) & _). by eapply H7.
  - intros i f Hf. exact (proj2 (proj2 (Hm i f Hf))).
  - intros i [f Hf]. destruct (Hm i f Hf) as (_ & (f0 & Hf0 & _) & _). apply H9. by exists f0.
Qed.

Lemma set_opener_grows s j o p : openers s !! j = Some o → (∀ r, o_phase o ≠ Over r) → pool_grows s (set_opener j o p s).
Proof.
  intros Ho Hover. split; [done|]. intros j' o' Hj'. cbn. destruct (decide (j' = j)) as [->|Hne].
  - rewrite Ho in Hj'. injection Hj' as <-. rewrite lookup_insert_eq. eexists. split; [done|]. split_and!; [done|done|]. intros r Hr. by destruct (Hover r).
  - rewrite lookup_insert_ne by done. by exists o'.
Qed.

Lemma set_opener_settled s j o p i : openers s !! j = Some o → (∀ r, p ≠ Over r) ∨ o_front o ≠ Some i → settled s (set_opener j o p s) i.
Proof.
  intros Ho Hc j' o1 o2 r H1 H2 Hf Hr. cbn in H2. apply lookup_insert_Some in H2 as [[<- <-]|[_ H2]]; [|by simplify_eq].
  rewrite Ho in H1. injection H1 as <-. cbn in Hr. subst. by destruct Hc as [Hc|Hc]; [destruct (Hc r)|].
Qed.

(** A step of an opener that reports nothing. *)
Lemma set_opener_ok s j o p :
  chan_pool_ok s → openers s !! j = Some o → (∀ r, o_phase o ≠ Over r) → (∀ c, o_phase o ≠ Registering c) →
  (match p with
   | Registering c => chan_addr s c = Some (o_addr o) ∧ c ∉ live s ∧ (∀ j' o', openers s !! j' = Some o' → o_phase o' ≠ Registering c)
   | Over _ => False
   | _ => True end) →
  chan_pool_ok (set_opener j o p s).
Proof.
  intros Hok Ho Hover Hnr Hp.
  apply (opener_moves_ok s j o p (live s) (fronts s) Hok Ho Hover (live_same s _ Hok)).
  - intros c Hc. by destruct (Hnr c).
  - by destruct p as [| | |[]].
  - intros i f Hf. split; [|by apply front_follows_same].
    eapply (front_grows s); [by apply set_opener_grows| |by apply (po_fronts _ Hok)].
    apply set_opener_settled; [done|left]. by intros r ->.
Qed.

(** A connect that does not wait for the opener sees nothing of its report. *)
Lemma report_unseen s j o r i f :
  chan_pool_ok s → openers s !! j = Some o → (∀ r, o_phase o ≠ Over r) → fronts s !! i = Some f →
  o_front o ≠ Some i ∨ (∀ le, f_phase f ≠ Waiting le) → front_ok (set_opener j o (Over r) s) i f.
Proof.
  intros Hok Ho Hover Hf Hc. pose proof (po_fronts _ Hok i f Hf) as Hfo.
  pose proof (set_opener_grows s j o (Over r) Ho Hover) as Hg. destruct Hc as [Hc|Hc].
  - eapply (front_grows s); [done|by apply set_opener_settled; [|right]|done].
  - unfold front_ok in *. destruct (f_phase f) as [|c|[c|] addrs|le|[c|e]] eqn:E; try done; try (by eapply to_one_of_grows).
    + by destruct (Hc le).
    + destruct Hfo as [Hn|Hall]; [by left|right]. intros a Hin. destruct (Hall a Hin) as (j' & o' & e' & Ho' & Hoa & Hpp).
      destruct (gr_openers _ _ Hg j' o' Ho') as (o2 & Ho2 & Hoa2 & _ & Hov). exists j', o2, e'. by rewrite Hoa2, (Hov _ Hpp).
Qed.

(** One that waits has it in its queue. *)
Lemma report_seen s j o r i f le :
  chan_pool_ok s → openers s !! j = Some o → (∀ r, o_phase o ≠ Over r) → fronts s !! i = Some f → o_front o = Some i → f_phase f = Waiting le →
  waiting_ok (set_opener j o (Over r) s) i (mkFront (f_addrs f) (Waiting le) (f_queue f ++ [(j, r)]) (f_spawned f) (f_seen f)).
Proof.
  intros Hok Ho Hover Hf Ef Eph. pose proof (po_fronts _ Hok i f Hf) as Hfo. unfold front_ok in Hfo. rewrite Eph in Hfo.
  pose proof (set_opener_grows s j o (Over r) Ho Hover) as Hg. destruct Hfo as [Ha He Hq]. split; cbn [f_addrs f_queue f_spawned f_seen].
  - intros a Hin. destruct (Ha a Hin) as (j' & o' & Hj' & Ho' & Hoa). destruct (gr_openers _ _ Hg j' o' Ho') as (o2 & Ho2 & Hoa2 & _).
    exists j', o2. by rewrite Hoa2, Hoa.
  - intros j' Hj'. destruct (He j' Hj') as (o' & Ho' & Hof & Hoa & Hpp). unfold awaited_ok. cbn. destruct (decide (j' = j)) as [->|Hn].
    + rewrite Ho in Ho'. injection Ho' as <-. exists (mkOpener (o_addr o) (o_front o) (Over r)). rewrite lookup_insert_eq.
      split_and!; [done|done|done|]. left. apply elem_of_app. right. by apply list_elem_of_singleton.
    + exists o'. rewrite lookup_insert_ne by done. split_and!; [done|done|done|]. destruct (o_phase o') as [| | |r']; try done.
      destruct Hpp as [Hpp|Hpp]; [left; apply elem_of_app; by left|by right].
  - intros j' r' [Hin|Hin]%elem_of_app.
    + destruct (Hq j' r' Hin) as (o' & Ho' & Hpp & Hoa). destruct (gr_openers _ _ Hg j' o' Ho') as (o2 & Ho2 & Hoa2 & _ & Hov).
      exists o2. rewrite Hoa2. by rewrite (Hov _ Hpp).
    + apply list_elem_of_singleton in Hin as [= -> ->]. exists (mkOpener (o_addr o) (o_front o) (Over r)). cbn. rewrite lookup_insert_eq.
      split_and!; [done|done|]. by eapply (po_mine _ Hok).
Qed.

(** The report of an opener, over any registry that holds what it registered. *)
Lemma report_ok s j o r l :
  chan_pool_ok s → openers s !! j = Some o → (∀ r, o_phase o ≠ Over r) → live_ok s l (Some j) → (∀ c, o_phase o = Registering c → c ∈ l) →
  (∀ c, r = Ok c → chan_addr s c = Some (o_addr o)) →
  chan_pool_ok (report j o r (set_live l s)).
Proof.
  intros Hok Ho Hover Hl Hreg Hr.
  assert (Hmoves : ∀ m, (∀ i f, m !! i = Some f → front_ok (set_opener j o (Over r) s) i f ∧ front_follows s i f) →
    chan_pool_ok (set_fronts m (set_live l (set_opener j o (Over r) s)))).
  { intros m Hm. apply opener_moves_ok; try done. destruct r; [by apply Hr|done]. }
  assert (Hquiet : (∀ i f, fronts s !! i = Some f → o_front o ≠ Some i ∨ (∀ le, f_phase f ≠ Waiting le)) →
    chan_pool_ok (set_fronts (fronts s) (set_live l (set_opener j o (Over r) s)))).
  { intros Hc. apply Hmoves. intros i f Hf. split; [by apply report_unseen; [..|apply Hc]|by apply front_follows_same]. }
  unfold report. destruct (i ← o_front o; _) as [[i f]|] eqn:Em.
  - assert (Hif : o_front o = Some i ∧ fronts s !! i = Some f).
    { cbn in Em. destruct (o_front o) as [i'|]; cbn in Em; [|done]. destruct (fronts s !! i') as [f'|] eqn:E; cbn in Em; [|done]. by simplify_eq. }
    destruct Hif as [Ef Hf]. clear Em. destruct (f_phase f) as [|c|hit addrs|le|res] eqn:Eph.
    4: { apply (Hmoves (<[i := _]> (fronts s))). intros i' f' [[<- <-]|[Hne Hi']]%lookup_insert_Some.
      - split; [by apply report_seen|]. split; [by exists f|]. cbn. by intros [|[]].
      - split; [apply report_unseen; [done..|left; congruence]|by apply front_follows_same]. }
    all: apply Hquiet; intros i' f' Hf'; destruct (decide (i' = i)) as [->|];
      [right; rewrite Hf in Hf'; injection Hf' as <-; by rewrite Eph|left; congruence].
  - apply Hquiet. intros i f Hf. left. intros Ef. rewrite Ef in Em. cbn in Em. by rewrite Hf in Em.
Qed.

(** ** Lemmas: what is new *)

Lemma set_live_ok s l : chan_pool_ok s → live_ok s l None → chan_pool_ok (set_live l s).
Proof.
  intros [H1 H2 H3 H4 H5 H6 H7 H8 H9] [L1 L2 L3 L4]. split; try done.
  - intros a c Ha. destruct (H1 a c Ha) as (Hc & Hg & Hr). split_and!; [done|done|].
    destruct Hr as [Hr|Hr]; [left; by eapply L3|by right].
  - intros j o Ho. specialize (H5 j o Ho). unfold opener_ok in *. destruct (o_phase o) as [| |c|r] eqn:E; try done.
    split; [apply H5|]. by eapply L4.
  - intros i f Hf. eapply (front_grows s); [by apply grows_same|by apply settled_same|by apply H6].
Qed.

(** A channel just opened is in no registry and no opener has it. *)
Lemma chan_known s c : chan_pool_ok s → (next s ≤ c)%nat → chan_addr s c = None.
Proof.
  intros Hok Hc. unfold chan_addr. destruct (chans s !! c) as [ch|] eqn:E; [|done].
  pose proof (proj1 (po_next _ Hok) c (mk_is_Some _ _ E)). lia.
Qed.

Lemma fresh_not_live s : chan_pool_ok s → next s ∉ live s.
Proof. intros Hok Hin. destruct (proj2 (po_live _ Hok) _ Hin) as [ch Hch]. pose proof (chan_known s (next s) Hok (le_n _)) as H. unfold chan_addr in H. by rewrite Hch in H. Qed.

Lemma fresh_not_registering s j o : chan_pool_ok s → openers s !! j = Some o → o_phase o ≠ Registering (next s).
Proof.
  intros Hok Ho Hp. pose proof (po_openers _ Hok j o Ho) as H. unfold opener_ok in H. rewrite Hp in H.
  destruct H as [H _]. by rewrite (chan_known s _ Hok (le_n _)) in H.
Qed.

Definition with_chan (ch : channel) (s : pool_state) : pool_state :=
  mkPool (pool s) (<[next s := ch]> (chans s)) (live s) (fronts s) (openers s) (S (next s)).

Lemma with_chan_grows s ch : chan_pool_ok s → pool_grows s (with_chan ch s).
Proof.
  intros Hok. split; [|intros j o Ho; by exists o]. intros c a Hc. unfold chan_addr. cbn. rewrite lookup_insert_ne; [done|].
  intros <-. by rewrite (chan_known s _ Hok (le_n _)) in Hc.
Qed.

Lemma with_chan_ok s ch : chan_pool_ok s → chan_pool_ok (with_chan ch s).
Proof.
  intros Hok. pose proof (with_chan_grows s ch Hok) as Hg. pose proof Hok as [H1 H2 H3 H4 H5 H6 H7 H8 H9]. split; try done.
  - intros a c Ha. destruct (H1 a c Ha) as (Hc & Hgone & Hr). split_and!; [by eapply gr_chans| |done].
    unfold is_gone in *. cbn. rewrite lookup_insert_ne; [done|]. intros <-. by rewrite (chan_known s _ Hok (le_n _)) in Hc.
  - split; [apply H2|]. intros c Hc. cbn. apply lookup_insert_is_Some'. right. by apply H2.
  - cbn. split_and!.
    + intros c Hc. apply lookup_insert_is_Some' in Hc as [<-|Hc]; [lia|]. pose proof (proj1 H4 c Hc). lia.
    + intros j Hj. pose proof (proj1 (proj2 H4) j Hj). lia.
    + intros j o i Ho Hi. pose proof (proj2 (proj2 H4) j o i Ho Hi). lia.
  - intros j o Ho. specialize (H5 j o Ho). unfold opener_ok in *. destruct (o_phase o) as [| |c|[c|]]; try done.
    + split; [by eapply gr_chans, H5|apply H5].
    + by eapply gr_chans.
  - intros i f Hf. eapply (front_grows s); [done|by apply settled_same|by apply H6].
  - cbn. intros i Hi. pose proof (H9 i Hi). lia.
Qed.

(** A connect just begun. *)
Lemma with_front_ok s addrs :
  chan_pool_ok s → chan_pool_ok (mkPool (pool s) (chans s) (live s) (<[next s := mkFront addrs Begin [] [] []]> (fronts s)) (openers s) (S (next s))).
Proof.
  intros [H1 H2 H3 H4 H5 H6 H7 H8 H9]. split; try done; cbn [fronts openers next].
  - cbn. split_and!.
    + intros c Hc. pose proof (proj1 H4 c Hc). lia.
    + intros j Hj. pose proof (proj1 (proj2 H4) j Hj). lia.
    + intros j o i Ho Hi. pose proof (proj2 (proj2 H4) j o i Ho Hi). lia.
  - intros i f [[<- <-]|[_ Hi]]%lookup_insert_Some; [done|].
    eapply (front_grows s); [by apply grows_same|by apply settled_same|by apply H6].
  - intros j o i f Ho Hi [[<- <-]|[_ Hf]]%lookup_insert_Some; [|by eapply H7].
    pose proof (proj2 (proj2 H4) j o _ Ho Hi). lia.
  - intros i f [[<- <-]|[_ Hf]]%lookup_insert_Some; [done|by eapply H8].
  - intros i [->|Hi]%lookup_insert_is_Some'; [lia|]. pose proof (H9 i Hi). lia.
Qed.

Definition with_opener (a : string) (fr : option nat) (s : pool_state) : pool_state :=
  mkPool (pool s) (chans s) (live s) (fronts s) (<[next s := mkOpener a fr Starting]> (openers s)) (S (next s)).

Lemma opener_fresh s j o : chan_pool_ok s → openers s !! j = Some o → j ≠ next s.
Proof. intros Hok Ho ->. pose proof (proj1 (proj2 (po_next _ Hok)) _ (mk_is_Some _ _ Ho)). lia. Qed.

Lemma with_opener_lookup s a fr j o :
  openers (with_opener a fr s) !! j = Some o → (j = next s ∧ o = mkOpener a fr Starting) ∨ openers s !! j = Some o.
Proof. cbn. intros [[<- <-]|[_ H]]%lookup_insert_Some; [by left|by right]. Qed.

Lemma with_opener_ok s a fr :
  chan_pool_ok s → (∀ i, fr = Some i → (i < next s)%nat ∧ ∀ f, fronts s !! i = Some f → a ∈ f_addrs f) → chan_pool_ok (with_opener a fr s).
Proof.
  intros Hok Hfr. pose proof Hok as [H1 H2 H3 H4 H5 H6 H7 H8 H9].
  assert (Hg : pool_grows s (with_opener a fr s)).
  { split; [done|]. intros j o Ho. exists o. cbn. rewrite lookup_insert_ne; [done|]. apply not_eq_sym. by eapply opener_fresh. }
  split; try done.
  - intros b c Hb. destruct (H1 b c Hb) as (Hc & Hgone & Hr). split_and!; [done|done|]. destruct Hr as [Hr|(j & o & Ho & Hp)]; [by left|right].
    exists j, o. cbn. rewrite lookup_insert_ne; [done|]. apply not_eq_sym. by eapply opener_fresh.
  - intros j j' o o' c [[-> ->]|Ho]%with_opener_lookup [[-> ->]|Ho']%with_opener_lookup Hp Hp'; try done. by eapply H3.
  - cbn. split_and!.
    + intros c Hc. pose proof (proj1 H4 c Hc). lia.
    + intros j Hj. apply lookup_insert_is_Some' in Hj as [<-|Hj]; [lia|]. pose proof (proj1 (proj2 H4) j Hj). lia.
    + intros j o i [[-> ->]|Ho]%with_opener_lookup Hi; [|pose proof (proj2 (proj2 H4) j o i Ho Hi); lia].
      cbn in Hi. pose proof (proj1 (Hfr i Hi)). lia.
  - intros j o [[-> ->]|Ho]%with_opener_lookup; [done|exact (H5 j o Ho)].
  - intros i f Hf. eapply (front_grows s); [done| |by apply H6].
    intros j o o' r Ho [[-> ->]|Ho']%with_opener_lookup _ Hr; [done|by simplify_eq].
  - intros j o i f [[-> ->]|Ho]%with_opener_lookup Hi Hf; [|by eapply H7]. cbn in *. by apply (Hfr i Hi).
  - cbn. intros i Hi. pose proof (H9 i Hi). lia.
Qed.

(** What [spawn_openers] adds: an opener for each address, and nothing else. *)
Record openers_spawned (fr : option nat) (addrs : list string) (s : pool_state) (js : list nat) (s' : pool_state) : Prop := {
  sp_ok : chan_pool_ok s';
  sp_fronts : fronts s' = fronts s;
  sp_chans : chans s' = chans s;
  sp_pool : pool s' = pool s;
  sp_old : ∀ j o, openers s !! j = Some o → openers s' !! j = Some o;
  sp_all : ∀ a, a ∈ addrs → ∃ j, j ∈ js ∧ openers s' !! j = Some (mkOpener a fr Starting);
  sp_each : ∀ j, j ∈ js → ∃ a, a ∈ addrs ∧ openers s' !! j = Some (mkOpener a fr Starting)
}.

Lemma spawn_openers_spec fr addrs s :
  chan_pool_ok s → (∀ i, fr = Some i → (i < next s)%nat ∧ ∀ f a, fronts s !! i = Some f → a ∈ addrs → a ∈ f_addrs f) →
  openers_spawned fr addrs s (spawn_openers fr addrs s).1 (spawn_openers fr addrs s).2.
Proof.
  revert s. induction addrs as [|a addrs IH]; intros s Hok Hfr; cbn.
  { split; try done; intros x Hx; by apply elem_of_nil in Hx. }
  assert (Hok' : chan_pool_ok (with_opener a fr s)).
  { apply with_opener_ok; [done|]. intros i Hi. destruct (Hfr i Hi) as [Hn Hf]. split; [done|]. intros f Hf'. apply (Hf f a Hf'). left. }
  specialize (IH (with_opener a fr s) Hok'). fold (with_opener a fr s).
  destruct (spawn_openers fr addrs (with_opener a fr s)) as [js s'] eqn:E. cbn in *. destruct IH as [I1 I2 I3 I4 I5 I6 I7].
  { intros i Hi. destruct (Hfr i Hi) as [Hn Hf]. split; [lia|]. intros f b Hf' Hb. apply (Hf f b Hf'). by right. }
  assert (Hnew : openers s' !! next s = Some (mkOpener a fr Starting)) by (apply I5; cbn; by rewrite lookup_insert_eq).
  split; try done.
  - intros j o Ho. apply I5. cbn. rewrite lookup_insert_ne; [done|]. apply not_eq_sym. by eapply opener_fresh.
  - intros b [->|Hb]%elem_of_cons; [exists (next s); split; [left|done]|]. destruct (I6 b Hb) as (j & Hj & Ho). exists j. split; [by right|done].
  - intros j [->|Hj]%elem_of_cons; [exists a; split; [left|done]|]. destruct (I7 j Hj) as (b & Hb & Ho). exists b. split; [by right|done].
Qed.

Lemma spawned_grows fr addrs s js s' : openers_spawned fr addrs s js s' → pool_grows s s'.
Proof.
  intros Hs. split; [intros c a; unfold chan_addr; by rewrite (sp_chans _ _ _ _ _ Hs)|].
  intros j o Ho. exists o. by rewrite (sp_old _ _ _ _ _ Hs _ _ Ho).
Qed.

(** ** Lemmas: the pool *)

Lemma min_by_mean_in s l c : min_by_mean s l = Some c → c ∈ l.
Proof.
  revert c. induction l as [|d l IH]; intros c; cbn; [done|]. destruct (min_by_mean s l) as [e|]; intros [= <-]; [|left].
  case_match; [left|right; by apply IH].
Qed.

Lemma alive_at_Some s a c : alive_at s a = Some c ↔ pool s !! a = Some c ∧ is_alive s c = true.
Proof.
  unfold alive_at. destruct (pool s !! a) as [d|]; cbn; [|by split; [|intros [? _]]].
  destruct (is_alive s d) eqn:E; split; [by intros [= <-]|by intros [[= <-] _]|done|by intros [[= <-] ?]; congruence].
Qed.

Lemma foldr_delete_sub (l : list string) (p : gmap string nat) : foldr delete p l ⊆ p.
Proof. induction l as [|a l IH]; cbn; [done|]. etrans; [apply delete_subseteq|done]. Qed.

Lemma pooled_to s addrs a c : chan_pool_ok s → pool s !! a = Some c → a ∈ addrs → to_one_of s addrs c.
Proof. intros Hok Ha Hin. exists a. split; [by apply (po_pool _ Hok)|done]. Qed.

Lemma pool_get_alive_to s addrs c : chan_pool_ok s → (pool_get_alive addrs s).1 = Some c → to_one_of s addrs c.
Proof.
  intros Hok H%min_by_mean_in. apply list_elem_of_omap in H as (a & Ha & [Hp _]%alive_at_Some). by eapply pooled_to.
Qed.

Lemma pool_insert_ok s a c :
  chan_pool_ok s → chan_addr s c = Some a → is_gone s c = false → (∃ j o, openers s !! j = Some o ∧ o_phase o = Registering c) →
  chan_pool_ok (set_pool (<[a := c]> (pool s)) s).
Proof.
  intros [H1 H2 H3 H4 H5 H6 H7 H8 H9] Hc Hg Hr. split; try done.
  - intros b d Hb. cbn in Hb. apply lookup_insert_Some in Hb as [[<- <-]|[_ Hb]]; [by split_and!; [..|right]|by apply H1].
  - intros i f Hf. eapply (front_grows s); [by apply grows_same|by apply settled_same|by apply H6].
Qed.

(** ** Lemmas: the steps *)

Lemma phase_ok s i f p :
  chan_pool_ok s → fronts s !! i = Some f → p ≠ Begin → (∀ c, p = Found c → f_spawned f = []) →
  front_ok s i (mkFront (f_addrs f) p (f_queue f) (f_spawned f) (f_seen f)) → chan_pool_ok (set_phase i p f s).
Proof.
  intros Hok Hf Hb Hfound Hp. unfold set_phase. apply (set_front_ok s i _ f Hok Hf); [done|exact Hp|].
  cbn. intros [->|[c ->]]; [done|by eapply Hfound].
Qed.

Lemma scored_ok s i f token : chan_pool_ok s → fronts s !! i = Some f → f_phase f = Begin → chan_pool_ok (scored i f token s).
Proof.
  intros Hok Hf Hp. pose proof (po_begin _ Hok i f Hf (or_introl Hp)) as Hsp. unfold scored.
  pose proof (pool_get_alive_to s (f_addrs f)) as Hto.
  assert (Hok' : chan_pool_ok (pool_get_alive (f_addrs f) s).2) by (apply set_pool_ok; [done|apply foldr_delete_sub]).
  destruct (pool_get_alive (f_addrs f) s) as [[c|] s'] eqn:E; cbn in Hto, Hok'; injection E as _ <-.
  - apply phase_ok; [done|done|done|done|]. unfold front_ok. cbn. by apply Hto.
  - apply phase_ok; [done|done|by destruct token|by destruct token|]. unfold front_ok. destruct token; cbn; [by split|by left].
Qed.

Lemma spawns_unconnected_ok s i f c token :
  chan_pool_ok s → fronts s !! i = Some f → f_phase f = Found c → chan_pool_ok (spawns_unconnected i f c token s).
Proof.
  intros Hok Hf Hp. pose proof (po_fronts _ Hok i f Hf) as Hto. unfold front_ok in Hto. rewrite Hp in Hto.
  unfold spawns_unconnected. destruct (pool_unconnected _ s) as [|u us]; [by apply phase_ok|].
  destruct token; by apply phase_ok.
Qed.

Lemma configured_ok s i f hit addrs r :
  chan_pool_ok s → fronts s !! i = Some f → f_phase f = Configuring hit addrs → chan_pool_ok (configured i f hit addrs r s).
Proof.
  intros Hok Hf Hp. pose proof (po_fronts _ Hok i f Hf) as Hto. unfold front_ok in Hto. rewrite Hp in Hto.
  unfold configured. destruct hit as [c|], r as [[]|e].
  - pose proof (spawn_openers_spec None addrs s Hok) as Hs. destruct (spawn_openers None addrs s) as [js s'].
    specialize (Hs ltac:(done)). cbn in Hs. apply phase_ok; [apply Hs|by rewrite (sp_fronts _ _ _ _ _ Hs)|done|done|].
    unfold front_ok. cbn. eapply to_one_of_grows; [by eapply spawned_grows|done].
  - by apply phase_ok.
  - destruct Hto as [-> Hsp]. pose proof (spawn_openers_spec (Some i) (f_addrs f) s Hok) as Hs.
    destruct (spawn_openers (Some i) (f_addrs f) s) as [js s']. cbn in Hs.
    assert (Hs' : openers_spawned (Some i) (f_addrs f) s js s').
    { apply Hs. intros i' [= <-]. split; [apply (po_ids _ Hok); by exists f|]. intros f' a Hf' Ha. by simplify_eq. }
    clear Hs. apply (set_front_ok s' i _ f); [apply Hs'|by rewrite (sp_fronts _ _ _ _ _ Hs')|done| |cbn; by intros [|[]]].
    unfold front_ok. cbn. split; cbn [f_addrs f_queue f_spawned f_seen].
    + intros a Ha. destruct (sp_all _ _ _ _ _ Hs' a Ha) as (j & Hj & Ho). by eexists j, _.
    + intros j Hj. destruct (sp_each _ _ _ _ _ Hs' j Hj) as (a & Ha & Ho). eexists. split; [exact Ho|done].
    + intros j r' Hin. by apply elem_of_nil in Hin.
  - destruct Hto as [_ Hsp]. apply phase_ok; [done..|]. unfold front_ok. cbn. by left.
Qed.

Lemma is_over_spec s j o : openers s !! j = Some o → is_over s j = true → ∃ r, o_phase o = Over r.
Proof. intros Ho. unfold is_over. rewrite Ho. destruct (o_phase o) as [| | |r]; [done..|by exists r]. Qed.

Lemma received_ok s i f le s' :
  chan_pool_ok s → fronts s !! i = Some f → f_phase f = Waiting le → received i f le s = Some s' → chan_pool_ok s'.
Proof.
  intros Hok Hf Hp. pose proof (po_fronts _ Hok i f Hf) as Hw. unfold front_ok in Hw. rewrite Hp in Hw. destruct Hw as [Ha He Hq].
  unfold received. destruct (f_queue f) as [|[j [c|e]] q] eqn:Eq.
  - destruct (forallb (is_over s) (f_spawned f)) eqn:Eo; [|done]. intros [= <-]. apply phase_ok; [done..|]. unfold front_ok. cbn. right.
    intros a Hin. destruct (Ha a Hin) as (j & o & Hj & Ho & Hoa). rewrite forallb_forall in Eo.
    destruct (is_over_spec s j o Ho) as [r Hr]; [apply Eo; by apply list_elem_of_In|].
    destruct (He j Hj) as (o' & Ho' & _ & _ & Hpp). rewrite Ho in Ho'. injection Ho' as <-. rewrite Hr in Hpp.
    destruct Hpp as [Hpp|(_ & e & ->)]; [rewrite Eq in Hpp; by apply elem_of_nil in Hpp|]. by exists j, o, e.
  - intros [= <-]. apply phase_ok; [done..|]. unfold front_ok. cbn.
    destruct (Hq j (Ok c)) as (o & Ho & Hr & Hoa); [left|]. exists (o_addr o). split; [|done].
    pose proof (po_openers _ Hok j o Ho) as H. unfold opener_ok in H. by rewrite Hr in H.
  - intros [= <-]. apply (set_front_ok s i _ f Hok Hf); [done| |cbn; by intros [|[]]]. unfold front_ok. cbn.
    split; cbn [f_addrs f_queue f_spawned f_seen]; [done| |].
    + intros j' Hj'. destruct (He j' Hj') as (o & Ho & Hof & Hoa & Hpp). exists o. split_and!; [done..|].
      destruct (o_phase o) as [| | |r] eqn:Er; try done. cbn. destruct Hpp as [Hpp|[Hpp Hr]]; [|right; split; [by right|done]].
      rewrite Eq in Hpp. apply elem_of_cons in Hpp as [[= -> ->]|Hpp]; [right; split; [left|by exists e]|by left].
    + intros j' r Hin. apply Hq. by right.
Qed.

Lemma set_live_same s : set_live (live s) s = s.
Proof. by destruct s. Qed.

Lemma report_same_ok s j o r :
  chan_pool_ok s → openers s !! j = Some o → o_phase o = Starting ∨ o_phase o = Dialing → (∀ c, r = Ok c → chan_addr s c = Some (o_addr o)) →
  chan_pool_ok (report j o r s).
Proof.
  intros Hok Ho Hp Hr. rewrite <- (set_live_same s) at 1. apply report_ok; try done; [by destruct Hp as [-> | ->]|by apply live_same|].
  intros c Hc. rewrite Hc in Hp. by destruct Hp.
Qed.

Lemma pool_get_alive_one_ok s a : chan_pool_ok s → chan_pool_ok (pool_get_alive_one a s).2.
Proof.
  intros Hok. unfold pool_get_alive_one. destruct (pool s !! a) as [c|]; [|done]. destruct (is_alive s c); [done|].
  apply set_pool_ok; [done|apply delete_subseteq].
Qed.

Lemma opener_starts_ok s j o : chan_pool_ok s → openers s !! j = Some o → o_phase o = Starting → chan_pool_ok (opener_starts j o s).
Proof.
  intros Hok Ho Hp. unfold opener_starts. pose proof (pool_get_alive_one_ok s (o_addr o) Hok) as Hok'.
  assert (Hhit : ∀ c, (pool_get_alive_one (o_addr o) s).1 = Some c → chan_addr s c = Some (o_addr o)).
  { intros c. unfold pool_get_alive_one. destruct (pool s !! o_addr o) as [d|] eqn:E; [|done]. destruct (is_alive s d); [|done].
    intros [= <-]. by apply (po_pool _ Hok). }
  assert (Hsame : openers (pool_get_alive_one (o_addr o) s).2 = openers s ∧ chans (pool_get_alive_one (o_addr o) s).2 = chans s).
  { unfold pool_get_alive_one. destruct (pool s !! o_addr o) as [d|]; [|done]. by destruct (is_alive s d). }
  destruct (pool_get_alive_one (o_addr o) s) as [[c|] s']; cbn in *; destruct Hsame as [Hso Hsc]; rewrite <- Hso in Ho.
  - apply report_same_ok; [done|done|by left|]. intros d [= <-]. unfold chan_addr. rewrite Hsc. by apply Hhit.
  - destruct (parse_tls_address (o_addr o)) as [hp|e].
    + apply set_opener_ok; try done; by rewrite Hp.
    + by apply report_same_ok; [..|left|].
Qed.

(** The duplicate of an alive channel is dropped; a new one is pooled and registered. *)
Lemma opener_dialed_ok s j o r : chan_pool_ok s → openers s !! j = Some o → o_phase o = Dialing → chan_pool_ok (opener_dialed j o r s).
Proof.
  intros Hok Ho Hp. destruct r as [[rtt alive]|e]; cbn; [|by apply report_same_ok; [..|right|]].
  fold (with_chan (mkChannel (o_addr o) alive rtt false) s). set (s1 := with_chan _ s).
  assert (Hok1 : chan_pool_ok s1) by (by apply with_chan_ok).
  assert (Hnew : chan_addr s1 (next s) = Some (o_addr o)) by (unfold chan_addr; cbn; by rewrite lookup_insert_eq).
  unfold pool_store_or_reuse_into. destruct (alive_at s1 (o_addr o)) as [d|] eqn:Ed; cbn.
  - apply alive_at_Some in Ed as [Ed _]. apply report_same_ok; [done|exact Ho|by right|]. intros d' [= <-]. by apply (po_pool _ Hok1).
  - assert (Hreg : chan_pool_ok (set_opener j o (Registering (next s)) s1)).
    { apply set_opener_ok; [done|exact Ho|by rewrite Hp|by rewrite Hp|]. split_and!; [done|exact (fresh_not_live s Hok)|].
      intros j' o' Ho'. by eapply (fresh_not_registering s). }
    apply (pool_insert_ok _ (o_addr o) (next s) Hreg); [exact Hnew| |].
    + unfold is_gone. cbn. by rewrite lookup_insert_eq.
    + exists j, (mkOpener (o_addr o) (o_front o) (Registering (next s))). cbn. by rewrite lookup_insert_eq.
Qed.

Lemma registers_ok s j o c :
  chan_pool_ok s → openers s !! j = Some o → o_phase o = Registering c → chan_pool_ok (report j o (Ok c) (register_live_channel_into c s)).
Proof.
  intros Hok Ho Hp. pose proof (po_openers _ Hok j o Ho) as H. unfold opener_ok in H. rewrite Hp in H. destruct H as [Hc Hn].
  apply report_ok; [done|done|by rewrite Hp| | |by intros d [= <-]].
  - apply register_live_ok; [done| |done|].
    + unfold chan_addr in Hc. destruct (chans s !! c); [done|by cbn in Hc].
    + intros j' o' Ho' Hp'. f_equal. by eapply (po_one _ Hok).
  - intros d Hd. rewrite Hp in Hd. injection Hd as <-. apply elem_of_app. right. by apply list_elem_of_singleton.
Qed.

Lemma binds_ok s a : chan_pool_ok s → chan_pool_ok (register_live_channel_into (next s) (with_chan (mkChannel a true 0 false) s)).
Proof.
  intros Hok. assert (Hok' : chan_pool_ok (with_chan (mkChannel a true 0 false) s)) by (by apply with_chan_ok).
  apply (set_live_ok (with_chan _ s)); [done|]. apply register_live_ok; [done| |exact (fresh_not_live s Hok)|].
  - cbn. rewrite lookup_insert_eq. by eexists.
  - intros j o Ho Hp. by destruct (fresh_not_registering s j o Hok Ho).
Qed.

Lemma chan_pool_step_ok s e s' : chan_pool_ok s → chan_pool_step e s = Some s' → chan_pool_ok s'.
Proof.
  intros Hok. destruct e as [addrs|i token|i token|i r|i|i|j|j r|j|j|addr|c|c mean|c]; cbn.
  - case_bool_decide; intros [= <-]. by apply with_front_ok.
  - destruct (fronts s !! i) as [f|] eqn:Hf; cbn; [|done]. destruct (f_phase f) eqn:Hp; intros [= <-]. by apply scored_ok.
  - destruct (fronts s !! i) as [f|] eqn:Hf; cbn; [|done]. destruct (f_phase f) eqn:Hp; intros [= <-]. by apply spawns_unconnected_ok.
  - destruct (fronts s !! i) as [f|] eqn:Hf; cbn; [|done]. destruct (f_phase f) eqn:Hp; intros [= <-]. by apply configured_ok.
  - destruct (fronts s !! i) as [f|] eqn:Hf; cbn; [|done]. destruct (f_phase f) eqn:Hp; try done. by apply received_ok.
  - intros [= <-]. apply fronts_ok; [done|]. intros i' f [_ Hf]%lookup_delete_Some.
    split; [by apply (po_fronts _ Hok)|by apply front_follows_same].
  - destruct (openers s !! j) as [o|] eqn:Ho; cbn; [|done]. destruct (o_phase o) eqn:Hp; intros [= <-]. by apply opener_starts_ok.
  - destruct (openers s !! j) as [o|] eqn:Ho; cbn; [|done]. destruct (o_phase o) eqn:Hp; intros [= <-]. by apply opener_dialed_ok.
  - destruct (openers s !! j) as [o|] eqn:Ho; cbn; [|done]. destruct (o_phase o) eqn:Hp; intros [= <-]. by apply report_same_ok; [..|right|].
  - destruct (openers s !! j) as [o|] eqn:Ho; cbn; [|done]. destruct (o_phase o) as [| |c|] eqn:Hp; intros [= <-]. by apply registers_ok.
  - intros [= <-]. by apply binds_ok.
  - intros [= <-]. apply set_chan_ok; [done|done|by left].
  - intros [= <-]. apply set_chan_ok; [done|done|by left].
  - destruct (existsb _ _) eqn:Ep; cbn; [done|]. destruct (registering s c); intros [= <-]. apply set_chan_ok; [done|done|]. right.
    intros a Ha. apply not_true_iff_false in Ep. apply Ep, existsb_exists. exists (a, c).
    split; [by apply list_elem_of_In, elem_of_map_to_list|by apply bool_decide_eq_true].
Qed.

Lemma pool_run_ok es s s' : chan_pool_ok s → pool_run es s = Some s' → chan_pool_ok s'.
Proof.
  revert s. induction es as [|e es IH]; intros s Hok; cbn; [by intros [= <-]|].
  destruct (chan_pool_step e s) as [s1|] eqn:E; cbn; [|done]. apply IH. by eapply chan_pool_step_ok.
Qed.

Lemma pool_new_ok : chan_pool_ok pool_new.
Proof. split; cbn; try done; [split; [apply NoDup_nil_2|by intros c ?%elem_of_nil]|split_and!; by intros ? [? ?]|by intros i [? ?]]. Qed.

(** ** Lemmas: what a step keeps *)

Lemma foldr_delete_other (l : list string) (p : gmap string nat) a : a ∉ l → foldr delete p l !! a = p !! a.
Proof.
  induction l as [|b l IH]; cbn; [done|]. intros [Hne Hn]%not_elem_of_cons. rewrite lookup_delete_ne; [by apply IH|done].
Qed.

Lemma foldr_delete_in (l : list string) (p : gmap string nat) a : a ∈ l → foldr delete p l !! a = None.
Proof.
  induction l as [|b l IH]; cbn; [by intros ?%elem_of_nil|]. intros [->|Hin]%elem_of_cons; [by rewrite lookup_delete_eq|].
  destruct (decide (b = a)) as [->|Hne]; [by rewrite lookup_delete_eq|]. rewrite lookup_delete_ne; [by apply IH|done].
Qed.

Lemma spawn_openers_pool fr addrs s : pool (spawn_openers fr addrs s).2 = pool s.
Proof.
  revert s. induction addrs as [|a addrs IH]; intros s; cbn; [done|]. specialize (IH (with_opener a fr s)).
  fold (with_opener a fr s). by destruct (spawn_openers fr addrs (with_opener a fr s)).
Qed.

Lemma report_pool j o r s : pool (report j o r s) = pool s.
Proof. unfold report. cbn. destruct (i ← o_front o; _) as [[i f]|]; [|done]. by destruct (f_phase f). Qed.

(** A dead entry goes; an alive one stays. *)
Lemma evicted_other s addrs a c : pool s !! a = Some c → is_alive s c = true → pool (pool_get_alive addrs s).2 !! a = Some c.
Proof.
  intros Ha Hc. cbn. rewrite foldr_delete_other; [done|]. intros H%list_elem_of_In%List.filter_In. rewrite Ha, Hc in H. by destruct H.
Qed.

Lemma evicted_one_other s b a c : pool s !! a = Some c → is_alive s c = true → pool (pool_get_alive_one b s).2 !! a = Some c.
Proof.
  intros Ha Hc. unfold pool_get_alive_one. destruct (pool s !! b) as [d|] eqn:Hb; [|done]. destruct (is_alive s d) eqn:Hd; [done|].
  cbn. rewrite lookup_delete_ne; [done|]. intros ->. congruence.
Qed.

Lemma opener_starts_keeps s j o a c : pool s !! a = Some c → is_alive s c = true → pool (opener_starts j o s) !! a = Some c.
Proof.
  intros Ha Hc. pose proof (evicted_one_other s (o_addr o) a c Ha Hc) as H. unfold opener_starts.
  destruct (pool_get_alive_one (o_addr o) s) as [[d|] s']; cbn in H; [by rewrite report_pool|].
  destruct (parse_tls_address (o_addr o)); [done|by rewrite report_pool].
Qed.

Lemma opener_dialed_keeps s j o r a c :
  chan_pool_ok s → pool s !! a = Some c → is_alive s c = true → pool (opener_dialed j o r s) !! a = Some c.
Proof.
  intros Hok Ha Hc. destruct r as [[rtt alive]|e]; cbn; [|by rewrite report_pool].
  fold (with_chan (mkChannel (o_addr o) alive rtt false) s). set (s1 := with_chan _ s).
  unfold pool_store_or_reuse_into. destruct (alive_at s1 (o_addr o)) as [d|] eqn:Ed; cbn; [by rewrite report_pool|].
  rewrite lookup_insert_ne; [done|]. intros <-. enough (alive_at s1 (o_addr o) = Some c) by congruence.
  apply alive_at_Some. split; [done|]. unfold is_alive in *. cbn. rewrite lookup_insert_ne; [done|].
  intros Hn. destruct (po_pool _ Hok _ _ Ha) as [H _]. subst c. by rewrite (chan_known s _ Hok (le_n _)) in H.
Qed.

(** First writer wins: an alive channel is displaced by no step. *)
Lemma pool_step_keeps s e s' a c :
  chan_pool_ok s → chan_pool_step e s = Some s' → pool s !! a = Some c → is_alive s c = true → pool s' !! a = Some c.
Proof.
  intros Hok Hs Ha Hc. destruct e as [addrs|i token|i token|i r|i|i|j|j r|j|j|addr|d|d mean|d]; cbn in Hs.
  - case_bool_decide; by simplify_eq.
  - destruct (fronts s !! i) as [f|]; cbn in Hs; [|done]. destruct (f_phase f); simplify_eq.
    pose proof (evicted_other s (f_addrs f) a c Ha Hc) as H. unfold scored.
    cbn in H. unfold scored. cbn. destruct (min_by_mean _ _); exact H.
  - destruct (fronts s !! i) as [f|]; cbn in Hs; [|done]. destruct (f_phase f); simplify_eq. unfold spawns_unconnected.
    by destruct (pool_unconnected _ s).
  - destruct (fronts s !! i) as [f|]; cbn in Hs; [|done]. destruct (f_phase f) as [| |hit addrs| |]; simplify_eq. unfold configured.
    pose proof (λ fr, spawn_openers_pool fr addrs s) as H. destruct hit as [d|], r as [[]|e]; [|done| |done].
    + specialize (H None). destruct (spawn_openers None addrs s) as [js s']. cbn in *. by rewrite H.
    + specialize (H (Some i)). destruct (spawn_openers (Some i) addrs s) as [js s']. cbn in *. by rewrite H.
  - destruct (fronts s !! i) as [f|]; cbn in Hs; [|done]. destruct (f_phase f) as [| | |le|]; simplify_eq. unfold received in Hs.
    destruct (f_queue f) as [|[j [d|e]] q]; [destruct (forallb _ _)|..]; by simplify_eq.
  - by simplify_eq.
  - destruct (openers s !! j) as [o|]; cbn in Hs; [|done]. destruct (o_phase o); simplify_eq. by apply opener_starts_keeps.
  - destruct (openers s !! j) as [o|]; cbn in Hs; [|done]. destruct (o_phase o); simplify_eq. by apply opener_dialed_keeps.
  - destruct (openers s !! j) as [o|]; cbn in Hs; [|done]. destruct (o_phase o); simplify_eq. by rewrite report_pool.
  - destruct (openers s !! j) as [o|]; cbn in Hs; [|done]. destruct (o_phase o); simplify_eq. by rewrite report_pool.
  - by simplify_eq.
  - by simplify_eq.
  - by simplify_eq.
  - destruct (existsb _ _ || _); by simplify_eq.
Qed.

(** ** Lemmas: a connect that waits gets its answer *)

Definition phase_work (p : opener_phase) : nat :=
  match p with Starting => 4 | Dialing => 3 | Registering _ => 2 | Over _ => 0 end.
Definition opener_work (s : pool_state) (j : nat) : nat := match openers s !! j with Some o => phase_work (o_phase o) | None => 0 end.
Definition work (s : pool_state) (f : front) : nat := list_sum (List.map (opener_work s) (f_spawned f)) + length (f_queue f).

Lemma work_cons g (j : nat) l : list_sum (List.map g (j :: l)) = (g j + list_sum (List.map g l))%nat.
Proof. done. Qed.

Lemma work_moves s s' k j l :
  j ∈ l → (opener_work s' j + k ≤ opener_work s j)%nat → (∀ j', j' ≠ j → opener_work s' j' = opener_work s j') →
  (list_sum (List.map (opener_work s') l) + k ≤ list_sum (List.map (opener_work s) l))%nat.
Proof.
  intros Hj Hk Hne.
  assert (Hle : ∀ l, (list_sum (List.map (opener_work s') l) ≤ list_sum (List.map (opener_work s) l))%nat).
  { induction l0 as [|j' l0 IH]; [done|]. rewrite !work_cons. destruct (decide (j' = j)) as [->|Hn]; [lia|]. rewrite (Hne j' Hn). lia. }
  induction l as [|j' l IH]; [by apply elem_of_nil in Hj|]. rewrite !work_cons. specialize (Hle l). destruct (decide (j' = j)) as [->|Hn]; [lia|].
  rewrite (Hne j' Hn). apply elem_of_cons in Hj as [->|Hj]; [done|]. specialize (IH Hj). lia.
Qed.

(** The report of an opener that is waited for is in the queue. *)
Lemma report_queues s j o r i f le :
  o_front o = Some i → fronts s !! i = Some f → f_phase f = Waiting le →
  fronts (report j o r s) !! i = Some (mkFront (f_addrs f) (Waiting le) (f_queue f ++ [(j, r)]) (f_spawned f) (f_seen f)).
Proof. intros Ho Hf Hp. unfold report. cbn. rewrite Ho. cbn. rewrite Hf. cbn. rewrite Hp. cbn. by rewrite lookup_insert_eq. Qed.

Lemma report_openers s j o r : openers (report j o r s) = <[j := mkOpener (o_addr o) (o_front o) (Over r)]> (openers s).
Proof. unfold report. destruct (i ← o_front o; _) as [[i f]|]; [|done]. by destruct (f_phase f). Qed.

(** What one more step of the connect or of its openers brings. *)
Definition advances (s : pool_state) (i : nat) (f : front) : Prop :=
  ∃ e s' f', chan_pool_step e s = Some s' ∧ fronts s' !! i = Some f' ∧
    ((∃ r, f_phase f' = Done r) ∨ (∃ le, f_phase f' = Waiting le) ∧ (work s' f' < work s f)%nat).

Lemma report_advances s i f le j o e s0 r :
  fronts s0 !! i = Some f → openers s0 = openers s → f_phase f = Waiting le → openers s !! j = Some o → o_front o = Some i → j ∈ f_spawned f →
  (∀ r, o_phase o ≠ Over r) → chan_pool_step e s = Some (report j o r s0) → advances s i f.
Proof.
  intros Hf Hop Hp Ho Hof Hj Hover He. exists e, (report j o r s0). eexists. split_and!; [done|by eapply report_queues|].
  right. split; [by eexists|]. unfold work. cbn [f_spawned f_queue]. rewrite length_app.
  assert (Hk : (opener_work (report j o r s0) j + 2 ≤ opener_work s j)%nat).
  { unfold opener_work. rewrite report_openers, lookup_insert_eq, Ho. cbn. destruct (o_phase o) as [| | |r'] eqn:E; cbn; try lia. by destruct (Hover r'). }
  assert (Hne : ∀ j', j' ≠ j → opener_work (report j o r s0) j' = opener_work s j').
  { intros j' Hn. unfold opener_work. by rewrite report_openers, lookup_insert_ne, Hop. }
  pose proof (work_moves s _ 2 j (f_spawned f) Hj Hk Hne). cbn [length]. lia.
Qed.

Lemma opener_advances s i f le j o :
  fronts s !! i = Some f → f_phase f = Waiting le → openers s !! j = Some o → o_front o = Some i → j ∈ f_spawned f →
  (∀ r, o_phase o ≠ Over r) → advances s i f.
Proof.
  intros Hf Hp Ho Hof Hj Hover. destruct (o_phase o) as [| |c|r] eqn:E.
  - assert (He : chan_pool_step (Starts j) s = Some (opener_starts j o s)) by (cbn; rewrite Ho; cbn; by rewrite E).
    assert (Hsame : fronts (pool_get_alive_one (o_addr o) s).2 = fronts s ∧ openers (pool_get_alive_one (o_addr o) s).2 = openers s).
    { unfold pool_get_alive_one. destruct (pool s !! o_addr o) as [d|]; [|done]. by destruct (is_alive s d). }
    unfold opener_starts in He. destruct (pool_get_alive_one (o_addr o) s) as [[c|] s0]; cbn in Hsame; destruct Hsame as [Hsf Hso].
    + eapply (report_advances s i f le j o _ s0); rewrite ?Hsf; try done. by rewrite E.
    + destruct (parse_tls_address (o_addr o)) as [hp|e].
      2: { eapply (report_advances s i f le j o _ s0); rewrite ?Hsf; try done. by rewrite E. }
      exists (Starts j). eexists _, f. split_and!; [exact He|cbn; by rewrite Hsf|]. right. split; [by eexists|]. unfold work.
      enough (list_sum (List.map (opener_work (set_opener j o Dialing s0)) (f_spawned f)) + 1 ≤ list_sum (List.map (opener_work s) (f_spawned f)))%nat by lia.
      apply (work_moves s _ 1 j); [done|..].
      * unfold opener_work. cbn. by rewrite lookup_insert_eq, Ho, E.
      * intros j' Hn. unfold opener_work. cbn. by rewrite lookup_insert_ne, Hso.
  - apply (report_advances s i f le j o (TimesOut j) s (Err DIAL_TIMED_OUT)); try done; [by rewrite E|]. cbn. rewrite Ho. cbn. by rewrite E.
  - apply (report_advances s i f le j o (Registers j) (register_live_channel_into c s) (Ok c)); try done; [by rewrite E|]. cbn. rewrite Ho. cbn. by rewrite E.
  - by destruct (Hover r).
Qed.

Lemma waiting_advances s i f le : chan_pool_ok s → fronts s !! i = Some f → f_phase f = Waiting le → advances s i f.
Proof.
  intros Hok Hf Hp. assert (Hrecv : chan_pool_step (Receives i) s = received i f le s) by (cbn; rewrite Hf; cbn; by rewrite Hp).
  assert (Hdone : ∀ r, received i f le s = Some (set_phase i (Done r) f s) → advances s i f).
  { intros r Hr. exists (Receives i). eexists _, _. rewrite Hrecv. split_and!; [exact Hr|cbn; by rewrite lookup_insert_eq|]. left. by exists r. }
  unfold received in *. destruct (f_queue f) as [|[j [c|e]] q] eqn:Eq; [|by eapply Hdone|].
  - destruct (forallb (is_over s) (f_spawned f)) eqn:Eo; [by eapply Hdone|].
    pose proof (po_fronts _ Hok i f Hf) as Hw. unfold front_ok in Hw. rewrite Hp in Hw.
    assert (Hj : ∃ j, j ∈ f_spawned f ∧ is_over s j = false).
    { clear -Eo. induction (f_spawned f) as [|j l IH]; cbn in Eo; [done|]. destruct (is_over s j) eqn:E; cbn in Eo; [|by exists j; split; [left|]].
      destruct (IH Eo) as (j' & Hin & Hj'). exists j'. split; [by right|done]. }
    destruct Hj as (j & Hj & Hov). destruct (wo_each _ _ _ Hw j Hj) as (o & Ho & Hof & _). eapply opener_advances; try done.
    intros r Hr. unfold is_over in Hov. rewrite Ho, Hr in Hov. done.
  - exists (Receives i). eexists _, _. rewrite Hrecv. split_and!; [done|cbn; by rewrite lookup_insert_eq|]. right. split; [by eexists|].
    unfold work. cbn [f_spawned f_queue]. rewrite Eq. cbn [length].
    replace (List.map (opener_work (set_fronts _ s)) (f_spawned f)) with (List.map (opener_work s) (f_spawned f)) by done. lia.
Qed.

Lemma waiting_completes s i f le n :
  chan_pool_ok s → fronts s !! i = Some f → f_phase f = Waiting le → (work s f ≤ n)%nat →
  ∃ es s' f' r, pool_run es s = Some s' ∧ fronts s' !! i = Some f' ∧ f_phase f' = Done r ∧ (length es ≤ S n)%nat.
Proof.
  revert s f le. induction n as [|n IH]; intros s f le Hok Hf Hp Hn;
    destruct (waiting_advances s i f le Hok Hf Hp) as (e & s1 & f1 & He & Hf1 & [[r Hr]|[[le1 Hle] Hw]]).
  1, 3: exists [e], s1, f1, r; cbn; rewrite He; split_and!; [done..|lia].
  - lia.
  - destruct (IH s1 f1 le1) as (es & s' & f' & r & Hrun & Hf' & Hr & Hlen); [by eapply chan_pool_step_ok|done|done|lia|].
    exists (e :: es), s', f', r. cbn. rewrite He. cbn. split_and!; [done..|lia].
Qed.

(** ** Properties *)

(** C5. The pool of channels, after any steps of connects, openers, binds and channels
    that die: a pooled channel was dialed to the router it is pooled under, its state
    has not been dropped, and it is in the registry of live channels or an opener is
    about to put it there; no channel is registered twice, nor by a second opener.  And
    the first writer wins: no step takes an alive channel out of the pool, or replaces
    it. *)
Theorem channel_pool_sound es s :
  pool_run es pool_new = Some s →
  (∀ a c, pool s !! a = Some c →
    chan_addr s c = Some a ∧ is_gone s c = false ∧ (c ∈ live s ∨ ∃ j o, openers s !! j = Some o ∧ o_phase o = Registering c)) ∧
  NoDup (live s) ∧
  (∀ j o c, openers s !! j = Some o → o_phase o = Registering c →
    c ∉ live s ∧ ∀ j' o', openers s !! j' = Some o' → o_phase o' = Registering c → j' = j) ∧
  (∀ e s' a c, chan_pool_step e s = Some s' → pool s !! a = Some c → is_alive s c = true → pool s' !! a = Some c).
Proof.
  intros Hrun. pose proof (pool_run_ok es _ _ pool_new_ok Hrun) as Hok. split_and!; [apply Hok|apply Hok| |].
  - intros j o c Ho Hp. pose proof (po_openers _ Hok j o Ho) as H. unfold opener_ok in H. rewrite Hp in H.
    split; [apply H|]. intros j' o' Ho' Hp'. by eapply (po_one _ Hok).
  - intros e s' a c He. by eapply pool_step_keeps.
Qed.


Lemma min_by_mean_first s l c :
  min_by_mean s l = Some c →
  ∃ l1 l2, l = l1 ++ c :: l2 ∧ (∀ d, d ∈ l1 → pool_mean s c < pool_mean s d) ∧
    (∀ d, d ∈ l2 → pool_mean s c ≤ pool_mean s d).
Proof.
  revert c. induction l as [|x l IH]; intros c; cbn; [done|]. destruct (min_by_mean s l) as [e|] eqn:E.
  - destruct (IH e eq_refl) as (l1 & l2 & -> & H1 & H2). destruct (Z.leb_spec (pool_mean s x) (pool_mean s e)) as [Hle|Hlt]; intros [= <-].
    + exists [], (l1 ++ e :: l2). split_and!; [done|by intros d ?%elem_of_nil|]. intros d [Hd|[->|Hd]%elem_of_cons]%elem_of_app; [|done|].
      * specialize (H1 d Hd). lia.
      * specialize (H2 d Hd). lia.
    + exists (x :: l1), l2. split_and!; [done| |done]. intros d [->|Hd]%elem_of_cons; [done|by apply H1].
  - intros [= <-]. exists [], l. split_and!; [done|by intros d ?%elem_of_nil|]. destruct l as [|y l]; [by intros d ?%elem_of_nil|].
    cbn in E. by destruct (min_by_mean s l).
Qed.

(** The scoring of a session's routers: the channel is the first, in the order of
    the routers, of those with the least mean latency among the pooled channels that
    are alive, and there is none only when no router has one; the dead entries of these
    routers are evicted, and nothing else changes in the pool. *)
Theorem pool_get_alive_best addrs s :
  (match (pool_get_alive addrs s).1 with
   | Some c => ∃ l1 l2, omap (alive_at s) addrs = l1 ++ c :: l2 ∧
       (∀ d, d ∈ l1 → pool_mean s c < pool_mean s d) ∧ (∀ d, d ∈ l2 → pool_mean s c ≤ pool_mean s d)
   | None => ∀ a, a ∈ addrs → alive_at s a = None
   end) ∧
  ∀ a, pool (pool_get_alive addrs s).2 !! a = (if bool_decide (a ∈ addrs) then alive_at s a else pool s !! a).
Proof.
  split; cbn.
  - destruct (min_by_mean s (omap (alive_at s) addrs)) as [c|] eqn:E; [by apply min_by_mean_first|].
    intros a Ha. destruct (alive_at s a) as [c|] eqn:Hc; [|done].
    assert (Hin : c ∈ omap (alive_at s) addrs) by (apply list_elem_of_omap; by exists a).
    destruct (omap (alive_at s) addrs) as [|x l]; [by apply elem_of_nil in Hin|]. cbn in E. by destruct (min_by_mean s l).
  - intros a. set (dead := List.filter _ addrs).
    assert (Hdead : a ∈ dead ↔ a ∈ addrs ∧ match pool s !! a with Some c => negb (is_alive s c) | None => false end = true).
    { unfold dead. rewrite !list_elem_of_In. apply List.filter_In. }
    case_bool_decide as Hin; [|rewrite foldr_delete_other; [done|by rewrite Hdead; intros [? _]]].
    unfold alive_at. destruct (pool s !! a) as [c|] eqn:Ha; cbn.
    + destruct (is_alive s c) eqn:Hc; [rewrite foldr_delete_other; [done|rewrite Hdead; by intros [_ ?]]|]. apply foldr_delete_in. by rewrite Hdead.
    + rewrite foldr_delete_other; [done|]. rewrite Hdead. by intros [_ ?].
Qed.

(** ** Witnesses

    Two connects to one session: the first loses a router and waits for the other; the
    second finds that channel and leaves an opener for the lost router. *)

Definition demo_routers : list string := ["tls:r1:443"; "tls:r2:443"]%string.
Definition demo_lost : EdgeError := ChannelTls "connection refused".
Definition demo_steps : list pool_event :=
  [Connects demo_routers; Scored 0 true; Configured 0 (Ok tt); Starts 1; Starts 2; Dialed 1 (Err demo_lost); Receives 0; Dialed 2 (Ok (7, true))].
Definition demo_waits : pool_state := default pool_new (pool_run demo_steps pool_new).
Definition demo_more : list pool_event := [Registers 2; Receives 0; Connects demo_routers; Scored 4 true; Spawns 4 true; Configured 4 (Ok tt); Starts 5].
Definition demo_front (i : nat) (s : pool_state) : front := default (mkFront [] Begin [] [] []) (fronts s !! i).
Definition demo_settled : pool_state := default pool_new (pool_run (demo_steps ++ demo_more) pool_new).

Lemma channel_pool_sound_witness :
  pool_run (demo_steps ++ demo_more) pool_new = Some demo_settled ∧ pool demo_settled !! "tls:r2:443"%string = Some 3%nat ∧
  chan_addr demo_settled 3 = Some "tls:r2:443"%string ∧
  live demo_settled = [3%nat] ∧
  ∀ e s', chan_pool_step e demo_settled = Some s' → pool s' !! "tls:r2:443"%string = Some 3%nat.
Proof.
  assert (Hrun : pool_run (demo_steps ++ demo_more) pool_new = Some demo_settled) by (vm_compute; reflexivity).
  assert (Hp : pool demo_settled !! "tls:r2:443"%string = Some 3%nat) by (vm_compute; reflexivity).
  destruct (channel_pool_sound (demo_steps ++ demo_more) demo_settled Hrun) as (H1 & _ & _ & H4).
  split; [exact Hrun|]. split; [exact Hp|]. split; [apply H1; exact Hp|]. split; [vm_compute; reflexivity|].
  intros e s' He. apply (H4 e s' _ _ He Hp). vm_compute. reflexivity.
Defined.

