(* ===== verification/ListenerManager.v ===== *)
(** * The listener manager: [src/edge/listener_manager/]

    The attempt ledger, the cap on listeners, the scan that starts connects and
    the handling of a connect's result.  The registry of listeners is the trait
    [ListenerRegistry]: its answers may change from one call to the next. *)

From S2P Require Import Prelude Message Address.

(** ** The registry (registry.rs) *)

(** Each query returns its answer and the registry after it. *)
Class ListenerRegistry (R : Type) := {
  is_closed : R → bool * R;
  listener_count : R → Z * R;
  has_listener_for_router : string → R → bool * R
}.

(** ** The cap (listener_count.rs) *)

Definition DEFAULT_MAX_TERMINATORS : Z := 3.

(** [MaxTerminators::resolve]. *)
Definition resolve (max_terminators max_connections : Z) : Z :=
  let chosen := if negb (max_terminators =? 0) then max_terminators else max_connections in
  if chosen <? 1 then 1 else chosen.

Definition default_max_terminators : Z := resolve DEFAULT_MAX_TERMINATORS 0.

(** [saturating_add] of [usize]. *)
Definition sat_add_usize (a b : Z) : Z := Z.min (a + b) u64_max.

Definition needs_more_listeners (closed : bool) (count pending max : Z) : bool :=
  negb closed && (sat_add_usize count pending <? max).

Definition is_url_usable (filter : option (string → bool)) (url : string) : bool :=
  is_ok (parse_tls_address url) && is_edge_router_url_accepted filter url.

(** ** The session (model.rs): the routers and their urls in map order *)

Record SessionEdgeRouter : Type := mkRouter {
  name : string;
  supported_protocols : list (string * string)
}.

Definition get_usable_router_count (session : option (list SessionEdgeRouter))
    (filter : option (string → bool)) : Z :=
  match session with
  | None => 0
  | Some routers =>
      Z.of_nat (length (List.filter
        (λ r, existsb (λ kv, is_url_usable filter kv.2) (supported_protocols r)) routers))
  end.

(** ** The ledger (attempts.rs); instants are nanoseconds *)

Definition CONNECT_IN_PROGRESS_WINDOW : Z := 30000000000.

Record ListenAttempts : Type := mkAttempts {
  pending_listens : gmap string Z;
  listen_attempt_id : Z;
  connects : gmap string Z
}.

Definition attempts_new : ListenAttempts := mkAttempts ∅ 0 ∅.

(** [None] is the panic of the [expect] on a wrapped counter. *)
Definition next_attempt_id (a : ListenAttempts) : option (Z * ListenAttempts) :=
  let id := wrap_u64 (listen_attempt_id a + 1) in
  if id =? 0 then None else Some (id, mkAttempts (pending_listens a) id (connects a)).

Definition mark_pending (router : string) (id : Z) (a : ListenAttempts) : ListenAttempts :=
  mkAttempts (<[router := id]> (pending_listens a)) (listen_attempt_id a) (connects a).

Definition pending_count (a : ListenAttempts) : Z := Z.of_nat (size (pending_listens a)).

Definition is_pending (a : ListenAttempts) (router : string) : bool :=
  bool_decide (is_Some (pending_listens a !! router)).

Definition should_skip_router (a : ListenAttempts) (has_listener : bool) (router : string) : bool :=
  has_listener || is_pending a router.

Definition clear_pending_if_current (router : string) (id : Z) (a : ListenAttempts) : ListenAttempts :=
  if bool_decide (pending_listens a !! router = Some id) then
    mkAttempts (delete router (pending_listens a)) (listen_attempt_id a) (connects a)
  else a.

Definition connect_in_progress (a : ListenAttempts) (url : string) (now : Z) : bool :=
  match connects a !! url with
  | Some start => sat_sub now start <? CONNECT_IN_PROGRESS_WINDOW
  | None => false
  end.

Definition mark_connect_started (url : string) (now : Z) (a : ListenAttempts) : ListenAttempts :=
  mkAttempts (pending_listens a) (listen_attempt_id a) (<[url := now]> (connects a)).

Definition clear_connect (url : string) (a : ListenAttempts) : ListenAttempts :=
  mkAttempts (pending_listens a) (listen_attempt_id a) (delete url (connects a)).

(** ** The scan (scan.rs) *)

Record ConnectRequest : Type := mkRequest { router_name : string; router_url : string }.

Section scan.
Context `{ListenerRegistry R}.
Context (filter : option (string → bool)) (max : Z).
(** The [i]-th reading of the clock. *)
Context (now : nat → Z).

(** The gate, its arguments read in order. *)
Definition gate (a : ListenAttempts) (r : R) : bool * R :=
  let '(closed, r) := is_closed r in
  let '(count, r) := listener_count r in
  (needs_more_listeners closed count (pending_count a) max, r).

(** What a scan carries along: the ledger, the registry, the clock readings so
    far and the requests so far. *)
Record scan_state : Type := mkScan {
  sc_attempts : ListenAttempts;
  sc_registry : R;
  sc_clock : nat;
  sc_requests : list ConnectRequest
}.

(** The inner loop; the flag says that the function returned. *)
Fixpoint scan_urls (router : string) (urls : list string) (s : scan_state) : bool * scan_state :=
  match urls with
  | [] => (false, s)
  | url :: urls =>
      if negb (is_url_usable filter url) then scan_urls router urls s
      else if connect_in_progress (sc_attempts s) url (now (sc_clock s)) then
        scan_urls router urls (mkScan (sc_attempts s) (sc_registry s) (S (sc_clock s)) (sc_requests s))
      else
        let a := mark_connect_started url (now (S (sc_clock s))) (sc_attempts s) in
        let reqs := sc_requests s ++ [mkRequest router url] in
        let '(more, r) := gate a (sc_registry s) in
        let s := mkScan a r (S (S (sc_clock s))) reqs in
        if negb more then (true, s) else scan_urls router urls s
  end.

Fixpoint scan_routers (routers : list SessionEdgeRouter) (s : scan_state) : scan_state :=
  match routers with
  | [] => s
  | er :: routers =>
      let '(has, r) := has_listener_for_router (name er) (sc_registry s) in
      let s := mkScan (sc_attempts s) r (sc_clock s) (sc_requests s) in
      if should_skip_router (sc_attempts s) has (name er) then scan_routers routers s
      else
        let '(done, s) := scan_urls (name er) (map snd (supported_protocols er)) s in
        if (done : bool) then s else scan_routers routers s
  end.

Definition make_more_listeners (session : option (list SessionEdgeRouter)) (a : ListenAttempts) (r : R)
    (k : nat) : scan_state :=
  match session with
  | None => mkScan a r k []
  | Some routers =>
      let '(more, r) := gate a r in
      if negb more then mkScan a r k []
      else scan_routers routers (mkScan a r k [])
  end.

(** ** A connect's result (connect_result.rs) *)

(** The outer [None] is the panic of [next_attempt_id]. *)
Definition handle_router_connect_result (url : string) (connected : option string)
    (a : ListenAttempts) (r : R) : option (option Z * ListenAttempts * R) :=
  let a := clear_connect url a in
  match connected with
  | None => Some (None, a, r)
  | Some router =>
      let '(has, r) := has_listener_for_router router r in
      if should_skip_router a has router then Some (None, a, r)
      else
        let '(more, r) := gate a r in
        if negb more then Some (None, a, r)
        else
          '(id, a) ← next_attempt_id a;
          Some (Some id, mark_pending router id a, r)
  end.
End scan.

(** ** A registry of listeners, and the life of an attempt

    [MultiListener] and [createListener] are not in the repository yet.  The
    step relation states what the ledger is used for: a listen runs for the
    router whose attempt is pending, its end comes back with the attempt's id,
    late or not, and a listener may close at any time. *)

Record Registry : Type := mkRegistry { reg_closed : bool; listeners : gset string }.

#[export] Instance registry_instance : ListenerRegistry Registry := {|
  is_closed r := (reg_closed r, r);
  listener_count r := (Z.of_nat (size (listeners r)), r);
  has_listener_for_router n r := (bool_decide (n ∈ listeners r), r)
|}.

Inductive listen_step (max : Z) : ListenAttempts * Registry → ListenAttempts * Registry → Prop :=
| ls_result a r url connected minted a' r' :
    handle_router_connect_result max url connected a r = Some (minted, a', r') →
    listen_step max (a, r) (a', r')
| ls_scan a r now filter session k :
    listen_step max (a, r) (sc_attempts (make_more_listeners filter max now session a r k), r)
| ls_listening a r n :
    is_Some (pending_listens a !! n) →
    listen_step max (a, r) (a, mkRegistry (reg_closed r) ({[n]} ∪ listeners r))
| ls_ended a r n id : listen_step max (a, r) (clear_pending_if_current n id a, r)
| ls_lost a r n : listen_step max (a, r) (a, mkRegistry (reg_closed r) (listeners r ∖ {[n]}))
| ls_closed a r : listen_step max (a, r) (a, mkRegistry true (listeners r)).

(** At most [max] routers are listening or about to; every pending attempt has
    an id the counter has passed, and no two have the same. *)
Definition listen_inv (max : Z) (s : ListenAttempts * Registry) : Prop :=
  Z.of_nat (size (listeners s.2 ∪ dom (pending_listens s.1))) <= max ∧
  0 <= listen_attempt_id s.1 <= u64_max ∧
  (∀ n id, pending_listens s.1 !! n = Some id → 0 < id <= listen_attempt_id s.1) ∧
  (∀ n n' id, pending_listens s.1 !! n = Some id → pending_listens s.1 !! n' = Some id → n = n').

(** What a scan has done so far. *)
Record scan_inv {R} (filter : option (string → bool)) (now : nat → Z) (routers : list SessionEdgeRouter)
    (k : nat) (a : ListenAttempts) (s : @scan_state R) : Prop := {
  si_pending : pending_listens (sc_attempts s) = pending_listens a;
  si_id : listen_attempt_id (sc_attempts s) = listen_attempt_id a;
  si_clock : (k ≤ sc_clock s)%nat;
  si_requests : Forall (λ q, is_url_usable filter (router_url q) = true ∧
    is_pending a (router_name q) = false ∧
    (∃ er, er ∈ routers ∧ name er = router_name q ∧ router_url q ∈ map snd (supported_protocols er)) ∧
    ∃ i, (k ≤ i < sc_clock s)%nat ∧ connects (sc_attempts s) !! router_url q = Some (now i)) (sc_requests s);
  si_distinct : NoDup (map router_url (sc_requests s));
  si_others : ∀ url, url ∉ map router_url (sc_requests s) → connects (sc_attempts s) !! url = connects a !! url
}.

(** ** Lemmas *)

Lemma resolve_pos mt mc : 1 <= resolve mt mc.
Proof. unfold resolve. destruct (_ <? 1) eqn:E; bool_to_prop; lia. Qed.

Section scan_lemmas.
Context `{ListenerRegistry R}.
Context (filter : option (string → bool)) (max : Z) (now : nat → Z) (k : nat).
Context (routers : list SessionEdgeRouter) (a : ListenAttempts).
Context (window : ∀ i j, (k ≤ i)%nat → (i ≤ j)%nat → now j - now i < CONNECT_IN_PROGRESS_WINDOW).

(** A url that was requested is in progress. *)
Lemma requested_in_progress (s : @scan_state R) url i :
  scan_inv filter now routers k a s → url ∈ map router_url (sc_requests s) → (sc_clock s ≤ i)%nat →
  connect_in_progress (sc_attempts s) url (now i) = true.
Proof.
  intros Hs Hin Hi. apply list_elem_of_fmap in Hin as (q & -> & Hq).
  pose proof (si_requests _ _ _ _ _ _ Hs) as Hall. rewrite Forall_forall in Hall.
  destruct (Hall q Hq) as (_ & _ & _ & j & Hj & Hc). unfold connect_in_progress. rewrite Hc.
  apply Z.ltb_lt. unfold sat_sub. specialize (window j i ltac:(lia) ltac:(lia)).
  unfold CONNECT_IN_PROGRESS_WINDOW in *. lia.
Qed.

Lemma scan_inv_registry (s : @scan_state R) (r : R) :
  scan_inv filter now routers k a s →
  scan_inv filter now routers k a (mkScan (sc_attempts s) r (sc_clock s) (sc_requests s)).
Proof. by intros []. Qed.

Lemma scan_inv_tick (s : @scan_state R) (r : R) :
  scan_inv filter now routers k a s →
  scan_inv filter now routers k a (mkScan (sc_attempts s) r (S (sc_clock s)) (sc_requests s)).
Proof.
  intros [H1 H2 H3 H4 H5 H6]. split; cbn; auto.
  eapply Forall_impl; [exact H4|]. cbn. intros q (? & ? & ? & i & Hi & ?).
  do 3 (split; [done|]). exists i. split; [lia|done].
Qed.

Lemma scan_inv_request (s : @scan_state R) (r : R) er url :
  scan_inv filter now routers k a s → er ∈ routers → url ∈ map snd (supported_protocols er) →
  is_pending a (name er) = false → is_url_usable filter url = true →
  connect_in_progress (sc_attempts s) url (now (sc_clock s)) = false →
  scan_inv filter now routers k a
    (mkScan (mark_connect_started url (now (S (sc_clock s))) (sc_attempts s)) r (S (S (sc_clock s)))
       (sc_requests s ++ [mkRequest (name er) url])).
Proof.
  intros Hs Her Hurl Hp Hu Hc.
  assert (Hnew : url ∉ map router_url (sc_requests s)).
  { intros Hin. by rewrite (requested_in_progress s url (sc_clock s)) in Hc. }
  destruct Hs as [H1 H2 H3 H4 H5 H6]. split; cbn.
  - done.
  - done.
  - lia.
  - apply Forall_app. split.
    + apply Forall_forall. intros q Hq. pose proof (proj1 (Forall_forall _ _) H4 q Hq) as (? & ? & ? & i & Hi & Hcq).
      split_and!; auto. exists i. split; [lia|]. rewrite lookup_insert_ne; [done|].
      intros ->. apply Hnew. apply list_elem_of_fmap. eauto.
    + constructor; [|constructor]. cbn. split_and!; [done|done|by exists er|].
      exists (S (sc_clock s)). split; [lia|]. apply lookup_insert_eq.
  - rewrite map_app. apply NoDup_app. split_and!; [done| |apply NoDup_singleton].
    intros x Hx ->%list_elem_of_singleton. done.
  - intros url' Hn. rewrite map_app, not_elem_of_app in Hn. destruct Hn as [Hn Hne].
    rewrite lookup_insert_ne; [auto|]. intros ->. apply Hne. by apply list_elem_of_singleton.
Qed.

Lemma scan_urls_inv er urls (s : @scan_state R) :
  scan_inv filter now routers k a s → er ∈ routers → is_pending a (name er) = false →
  urls ⊆ map snd (supported_protocols er) →
  scan_inv filter now routers k a (scan_urls filter max now (name er) urls s).2.
Proof.
  intros Hs Her Hp. revert s Hs. induction urls as [|url urls IH]; intros s Hs Hsub; [done|]. cbn [scan_urls].
  assert (Hurl : url ∈ map snd (supported_protocols er)) by (apply Hsub; left).
  assert (Hsub' : urls ⊆ map snd (supported_protocols er)) by (intros u Hu; apply Hsub; by right).
  destruct (is_url_usable filter url) eqn:Hu; [cbn [negb]|by apply IH].
  destruct (connect_in_progress _ _ _) eqn:Hc; [apply IH; [by apply scan_inv_tick|done]|].
  destruct (gate max _ _) as [more r]. pose proof (scan_inv_request s r er url Hs Her Hurl Hp Hu Hc) as Hs'.
  destruct more; cbn [negb]; [by apply IH|exact Hs'].
Qed.

Lemma scan_routers_inv rs (s : @scan_state R) :
  rs ⊆ routers → scan_inv filter now routers k a s →
  scan_inv filter now routers k a (scan_routers filter max now rs s).
Proof.
  revert s. induction rs as [|er rs IH]; intros s Hsub Hs; [done|]. cbn [scan_routers].
  assert (Hsub' : rs ⊆ routers) by (intros x Hx; apply Hsub; by right).
  destruct (has_listener_for_router (name er) (sc_registry s)) as [has r].
  destruct (should_skip_router _ _ _) eqn:Hskip; [by apply IH, scan_inv_registry|].
  unfold should_skip_router in Hskip. apply orb_false_iff in Hskip as [_ Hskip]. cbn [sc_attempts] in Hskip.
  assert (Hp : is_pending a (name er) = false).
  { unfold is_pending in *. by rewrite (si_pending _ _ _ _ _ _ Hs) in Hskip. }
  pose proof (scan_urls_inv er (map snd (supported_protocols er)) _ (scan_inv_registry s r Hs)
    ltac:(apply Hsub; left) Hp ltac:(done)) as Hs'.
  destruct (scan_urls _ _ _ _ _ _) as [[] s']; [exact Hs'|by apply IH].
Qed.

Lemma make_more_listeners_inv (r : R) :
  scan_inv filter now routers k a (make_more_listeners filter max now (Some routers) a r k).
Proof.
  assert (H0 : ∀ r : R, scan_inv filter now routers k a (mkScan a r k [])).
  { intros r'. split; cbn; auto. apply NoDup_nil_2. }
  unfold make_more_listeners. destruct (gate max a r) as [more r']. destruct more; [|apply H0].
  by apply scan_routers_inv.
Qed.
End scan_lemmas.

(** The four ways a connect's result is handled. *)
Lemma handle_result_cases `{ListenerRegistry R} max url connected a (r : R) minted a' r' :
  handle_router_connect_result max url connected a r = Some (minted, a', r') →
  0 <= listen_attempt_id a <= u64_max →
  connects a' = delete url (connects a) ∧
  match minted with
  | None => pending_listens a' = pending_listens a ∧ listen_attempt_id a' = listen_attempt_id a
  | Some id =>
      id = listen_attempt_id a + 1 ∧ listen_attempt_id a' = id ∧ id <= u64_max ∧
      ∃ router r1, connected = Some router ∧ pending_listens a !! router = None ∧
        pending_listens a' = <[router := id]> (pending_listens a) ∧
        has_listener_for_router router r = (false, r1) ∧
        gate max (clear_connect url a) r1 = (true, r')
  end.
Proof.
  unfold handle_router_connect_result. intros H0 Hid.
  destruct connected as [router|]; [|by injection H0 as <- <- <-].
  destruct (has_listener_for_router router r) as [has r1] eqn:Hhas.
  destruct (should_skip_router _ has router) eqn:Hskip; [by injection H0 as <- <- <-|].
  destruct (gate max _ r1) as [more r2] eqn:Hg. destruct more; cbn [negb] in H0; [|by injection H0 as <- <- <-].
  unfold next_attempt_id in H0. cbn in H0.
  destruct (wrap_u64 _ =? 0) eqn:E; [done|]. cbn in H0. injection H0 as <- <- <-. cbn.
  unfold should_skip_router, is_pending in Hskip. apply orb_false_iff in Hskip as [-> Hp].
  apply bool_decide_eq_false in Hp. rewrite <-eq_None_not_Some in Hp.
  assert (Hw : wrap_u64 (listen_attempt_id a + 1) = listen_attempt_id a + 1 ∧ listen_attempt_id a + 1 <= u64_max).
  { unfold wrap_u64, u64_max in *. bool_to_prop.
    destruct (decide (listen_attempt_id a = 18446744073709551615)) as [Heq|Hne].
    - rewrite Heq in E. by vm_compute in E.
    - rewrite Z.mod_small; lia. }
  destruct Hw as [-> Hle]. split_and!; [done..|]. exists router, r1. split_and!; done.
Qed.

Lemma listen_inv_init max r : 0 <= max → listeners r = ∅ → listen_inv max (attempts_new, r).
Proof.
  intros Hmax Hr. unfold listen_inv. cbn [fst snd attempts_new pending_listens listen_attempt_id].
  rewrite Hr, dom_empty_L, (left_id_L ∅ (∪)), size_empty. split_and!; [lia|lia|unfold u64_max; lia| |].
  - intros n id H. by rewrite lookup_empty in H.
  - intros n n' id H. by rewrite lookup_empty in H.
Qed.

Lemma size_union_le (X Y : gset string) : (size (X ∪ Y) ≤ size X + size Y)%nat.
Proof. rewrite size_union_alt. apply Nat.add_le_mono_l, subseteq_size. set_solver. Qed.

Lemma listen_inv_mint max a r n id :
  listen_inv max (a, r) → id = listen_attempt_id a + 1 → id <= u64_max →
  sat_add_usize (Z.of_nat (size (listeners r))) (pending_count a) < max → max <= u64_max →
  pending_listens a !! n = None →
  ∀ a', pending_listens a' = <[n := id]> (pending_listens a) → listen_attempt_id a' = id → listen_inv max (a', r).
Proof.
  intros (Hsize & Hid & Hle & Hinj) Heq Hmax Hgate Hm Hn a' Hp Ha'. subst id. unfold listen_inv. cbn [fst snd] in *.
  rewrite Hp, Ha'. split_and!; try lia.
  - rewrite dom_insert_L. unfold sat_add_usize, pending_count in Hgate.
    assert (Hu : (size (listeners r ∪ ({[n]} ∪ dom (pending_listens a))) ≤ size (listeners r) + (1 + size (pending_listens a)))%nat).
    { etrans; [apply size_union_le|]. apply Nat.add_le_mono_l.
      etrans; [apply size_union_le|]. rewrite size_singleton, size_dom. lia. }
    lia.
  - intros n' id'. rewrite lookup_insert_Some. intros [[<- <-]|[_ H]]; [lia|]. specialize (Hle _ _ H). lia.
  - intros n1 n2 id'. rewrite !lookup_insert_Some.
    intros [[<- <-]|[Hne1 H1]] [[<- H2]|[Hne2 H2]]; try done.
    + specialize (Hle _ _ H2). lia.
    + specialize (Hle _ _ H1). lia.
    + by eapply Hinj.
Qed.

Lemma listen_inv_sub max a r a' r' :
  listen_inv max (a, r) → listeners r' ∪ dom (pending_listens a') ⊆ listeners r ∪ dom (pending_listens a) →
  pending_listens a' ⊆ pending_listens a → listen_attempt_id a' = listen_attempt_id a →
  listen_inv max (a', r').
Proof.
  intros (Hsize & Hid & Hle & Hinj) Hsub Hp Ha. unfold listen_inv. cbn [fst snd] in *. rewrite Ha.
  apply subseteq_size in Hsub. split_and!; [lia|lia|lia|..].
  - intros n id H. eapply Hle, lookup_weaken; done.
  - intros n n' id H1 H2. eapply Hinj; eapply lookup_weaken; done.
Qed.

Lemma scan_pending {R} `{ListenerRegistry R} filter max now session a (r : R) k :
  pending_listens (sc_attempts (make_more_listeners filter max now session a r k)) = pending_listens a ∧
  listen_attempt_id (sc_attempts (make_more_listeners filter max now session a r k)) = listen_attempt_id a.
Proof.
  assert (Hu : ∀ router urls (s : @scan_state R),
    pending_listens (sc_attempts (scan_urls filter max now router urls s).2) = pending_listens (sc_attempts s) ∧
    listen_attempt_id (sc_attempts (scan_urls filter max now router urls s).2) = listen_attempt_id (sc_attempts s)).
  { intros router urls. induction urls as [|url urls IH]; intros s; [done|]. cbn [scan_urls].
    destruct (is_url_usable _ _); cbn [negb]; [|apply IH].
    destruct (connect_in_progress _ _ _); [edestruct IH as [-> ->]; done|].
    destruct (gate _ _ _) as [[] r']; cbn [negb]; [edestruct IH as [-> ->]; done|done]. }
  assert (Hr : ∀ rs (s : @scan_state R),
    pending_listens (sc_attempts (scan_routers filter max now rs s)) = pending_listens (sc_attempts s) ∧
    listen_attempt_id (sc_attempts (scan_routers filter max now rs s)) = listen_attempt_id (sc_attempts s)).
  { induction rs as [|er rs IH]; intros s; [done|]. cbn [scan_routers].
    destruct (has_listener_for_router _ _) as [has r'].
    destruct (should_skip_router _ _ _); [edestruct IH as [-> ->]; done|].
    pose proof (Hu (name er) (map snd (supported_protocols er))
      (mkScan (sc_attempts s) r' (sc_clock s) (sc_requests s))) as Hs.
    destruct (scan_urls _ _ _ _ _ _) as [[] s']; cbn [snd sc_attempts] in Hs; [exact Hs|].
    destruct (IH s') as [-> ->]. exact Hs. }
  unfold make_more_listeners. destruct session as [rs|]; [|done].
  destruct (gate _ _ _) as [[] r']; cbn [negb]; [edestruct Hr as [-> ->]; done|done].
Qed.

Lemma listen_inv_step max s s' :
  max <= u64_max → listen_inv max s → listen_step max s s' → listen_inv max s'.
Proof.
  intros Hm Hinv Hstep. destruct Hstep as [a r url connected minted a' r' H|a r now filter session k|a r n Hp|a r n id|a r n|a r].
  - pose proof Hinv as (_ & Hid & _). destruct (handle_result_cases _ _ _ _ _ _ _ _ H Hid) as [_ Hcase].
    assert (Hr : r' = r).
    { unfold handle_router_connect_result in H. destruct connected; [|by injection H].
      cbn in H. destruct (should_skip_router _ _ _); [by injection H|].
      destruct (negb _); [by injection H|]. destruct (next_attempt_id _) as [[? ?]|]; [|done]. by injection H. }
    subst r'. destruct minted as [id|].
    + destruct Hcase as (Heq & Ha' & Hle & router & r1 & -> & Hn & Hp & Hhas & Hg).
      cbn in Hhas. injection Hhas as _ <-. cbn in Hg. injection Hg as Hg.
      unfold needs_more_listeners in Hg. apply andb_true_iff in Hg as [_ Hg]. apply Z.ltb_lt in Hg.
      by eapply listen_inv_mint.
    + destruct Hcase as [Hp Ha']. eapply listen_inv_sub; [exact Hinv|by rewrite Hp|by rewrite Hp|done].
  - destruct (scan_pending filter max now session a r k) as [Hp Hi].
    eapply listen_inv_sub; [exact Hinv|by rewrite Hp|by rewrite Hp|done].
  - eapply listen_inv_sub; [exact Hinv|cbn; apply elem_of_dom in Hp; set_solver|done|done].
  - eapply listen_inv_sub; [exact Hinv|..]; unfold clear_pending_if_current; case_bool_decide; cbn; try done.
    + rewrite dom_delete_L. set_solver.
    + apply delete_subseteq.
  - eapply listen_inv_sub; [exact Hinv|cbn; set_solver|done|done].
  - eapply listen_inv_sub; [exact Hinv|done|done|done].
Qed.

(** ** Properties *)

(** A scan over any registry, whose answers may change under it: every
    connect it asks for is to a usable url of a router of the session that has
    no listen pending, no url is asked for twice while the readings of the
    clock stay within the window, each is marked as started during the scan, and
    nothing else of the ledger changes. *)
Theorem scan_requests_sound `{ListenerRegistry R} (filter : option (string → bool)) (max : Z)
    (now : nat → Z) (k : nat) (routers : list SessionEdgeRouter) (a : ListenAttempts) (r : R) :
  (∀ i j, (k ≤ i)%nat → (i ≤ j)%nat → now j - now i < CONNECT_IN_PROGRESS_WINDOW) →
  scan_inv filter now routers k a (make_more_listeners filter max now (Some routers) a r k).
Proof. intros Hw. by apply make_more_listeners_inv. Qed.


(** A connect's result always frees its url; it starts a listen exactly
    when it brings a connection to a router without listener or pending attempt
    while more are wanted, under the next id of the counter, so that an id of an
    earlier attempt for that router can no longer clear the entry. *)
Theorem connect_result_outcome `{ListenerRegistry R} max url connected a (r : R) minted a' r' :
  handle_router_connect_result max url connected a r = Some (minted, a', r') →
  0 <= listen_attempt_id a <= u64_max →
  connects a' !! url = None ∧
  match minted with
  | None => pending_listens a' = pending_listens a ∧ listen_attempt_id a' = listen_attempt_id a
  | Some id =>
      id = listen_attempt_id a + 1 ∧ listen_attempt_id a' = id ∧
      ∃ router, connected = Some router ∧ is_pending a router = false ∧
        pending_listens a' !! router = Some id ∧
        ∀ old, old <= listen_attempt_id a → clear_pending_if_current router old a' = a'
  end.
Proof.
  intros H0 Hid. destruct (handle_result_cases _ _ _ _ _ _ _ _ H0 Hid) as [Hc Hcase].
  split; [rewrite Hc; apply lookup_delete_eq|]. destruct minted as [id|]; [|done].
  destruct Hcase as (Heq & Ha & _ & router & r1 & -> & Hn & Hp & _). split_and!; [done..|].
  exists router. assert (Hl : pending_listens a' !! router = Some id) by (rewrite Hp; apply lookup_insert_eq).
  split_and!; [done| |done|].
  - unfold is_pending. rewrite Hn. by apply bool_decide_eq_false_2; intros [? ?].
  - intros old Hold. unfold clear_pending_if_current. rewrite Hl, bool_decide_false; [done|].
    intros [= ->]. lia.
Qed.

(** ** Witnesses *)

Definition sample_routers : list SessionEdgeRouter :=
  [mkRouter "er1" [("tls", "tls:er1:3022"); ("ws", "ws:er1:80")];
   mkRouter "er2" [("tls", "tls:er2:3022"); ("tls2", "tls:er1:3022")]].

Lemma scan_requests_sound_witness :
  let s := make_more_listeners None 3 (λ i, Z.of_nat (Nat.min i 9)) (Some sample_routers) attempts_new
    (mkRegistry false {["er3"]}) 0 in
  sc_requests s = [mkRequest "er1" "tls:er1:3022"; mkRequest "er2" "tls:er2:3022"] ∧
  NoDup (map router_url (sc_requests s)).
Proof.
  intros s. split; [vm_compute; reflexivity|].
  apply (si_distinct None (λ i, Z.of_nat (Nat.min i 9)) sample_routers 0 attempts_new).
  apply scan_requests_sound. intros i j Hi Hj. unfold CONNECT_IN_PROGRESS_WINDOW. lia.
Defined.


Lemma connect_result_outcome_witness :
  ∃ a', handle_router_connect_result 3 "tls:er1:3022" (Some "er1") attempts_new (mkRegistry false ∅)
    = Some (Some 1, a', mkRegistry false ∅) ∧ clear_pending_if_current "er1" 0 a' = a'.
Proof.
  eexists. split; [vm_compute; reflexivity|].
  match goal with |- clear_pending_if_current _ _ ?a' = _ =>
    destruct (connect_result_outcome 3 "tls:er1:3022" (Some "er1") attempts_new (mkRegistry false ∅)
      (Some 1) a' (mkRegistry false ∅)) as (_ & _ & _ & router & Hr & _ & _ & Hclear) end.
  - vm_compute. reflexivity.
  - cbn. unfold u64_max. lia.
  - injection Hr as <-. apply Hclear. cbn. lia.
Defined.
