(* ===== verification/DnsMatcher.v ===== *)
(** * The DNS matcher: [src/tunnel/intercept/dns/]

    Hostname and wildcard-domain matching, the circular pool of synthetic
    addresses, and the reference counts that evict what an intercept leaves
    behind.  An IPv4 address is its 32-bit value. *)

From S2P Require Import Prelude Message Address.

(** ** Vocabulary (types.rs) *)

Inductive DnsMatchKind : Type := Hostname | Domain.

Record DnsMatch : Type := mkMatch { kind : DnsMatchKind; match_ip : Z }.

Inductive RegisterOutcome : Type :=
| Rejected
| RegDomain
| RegHostname (ip : Z)
| IpUnavailable.

Record DnsEntry : Type := mkEntry {
  ip : Z;
  domain : option string;
  intercepts : gset string
}.

(** ** Normalisation (normalize.rs) *)

Definition lower_ascii (a : ascii) : ascii :=
  let b := byte_of_ascii a in if (65 <=? b) && (b <=? 90) then ascii_of_byte (b + 32) else a.

(** [to_ascii_lowercase]. *)
Fixpoint lowercase (s : string) : string :=
  match s with
  | EmptyString => EmptyString
  | String a s => String (lower_ascii a) (lowercase s)
  end.

Definition MAX_DNS_NAME : nat := 256.

(** The normalised name, its [*.] prefix included, and whether it had one. *)
Definition check_name (name : string) : option (string * bool) :=
  let '(prefix, rest, is_domain) :=
    match strip_prefix "*." name with
    | Some rest => ("*."%string, rest, true)
    | None => (EmptyString, name, false)
    end in
  if decide (MAX_DNS_NAME ≤ String.length prefix + String.length rest)%nat then None
  else Some (prefix +:+ lowercase rest, is_domain).

(** [clean[2..]]. *)
Definition skip2 (s : string) : string :=
  match s with String _ (String _ s) => s | _ => EmptyString end.

Definition dot : ascii := ".".

(** The [while let] of [find_domain]: [Some] for each shorter suffix. *)
Fixpoint find_suffix (fuel : nat) (rest : string) (domains : gmap string (gset string)) : option string :=
  match fuel with
  | O => None
  | S fuel =>
      '(_, rest) ← split_once dot rest;
      if bool_decide (is_Some (domains !! rest)) then Some rest else find_suffix fuel rest domains
  end.

(** A name has fewer dots than characters. *)
Definition find_domain (hostname : string) (domains : gmap string (gset string)) : option string :=
  if bool_decide (is_Some (domains !! hostname)) then Some hostname
  else find_suffix (S (String.length hostname)) hostname domains.

(** ** The pool (pool.rs) *)

Record IpPool : Type := mkPool {
  base : Z;
  counter : Z;
  counter_mask : Z;
  capacity : Z
}.

(** [net] is the parsed CIDR: address and prefix length. *)
Definition seed (net : option (Z * Z)) : option IpPool :=
  '(addr, bits) ← net;
  if negb ((1 <=? bits) && (bits <=? 31)) then None
  else
    let host_bits := 32 - bits in
    let counter_mask := Z.shiftr u32_max (32 - host_bits) in
    let base := Z.land addr (Z.lxor counter_mask u32_max) in
    let capacity := Z.shiftl 1 host_bits - 2 in
    Some (mkPool base 1 counter_mask capacity).

Definition next_counter (p : IpPool) : Z :=
  let c := counter p + 1 in if c =? counter_mask p then 1 else c.

Definition candidate (p : IpPool) : Z := Z.lor (base p) (Z.land (counter p) (counter_mask p)).

Definition advance (p : IpPool) : IpPool := mkPool (base p) (next_counter p) (counter_mask p) (capacity p).

(** The [for _ in 0..capacity]. *)
Fixpoint allocate_loop (turns : nat) (p : IpPool) (is_occupied : Z → bool) : option Z * IpPool :=
  match turns with
  | O => (None, p)
  | S turns =>
      if is_occupied (candidate p) then allocate_loop turns (advance p) is_occupied
      else (Some (candidate p), advance p)
  end.

Definition allocate (p : IpPool) (occupied_count : Z) (is_occupied : Z → bool) : option Z * IpPool :=
  if capacity p <=? (if occupied_count <=? u32_max then occupied_count else u32_max) then (None, p)
  else allocate_loop (Z.to_nat (capacity p)) p is_occupied.

(** ** The matcher (matcher.rs) *)

Record DnsMatcher : Type := mkMatcher {
  hostnames : gmap string DnsEntry;
  domains : gmap string (gset string);
  ip_addresses : gmap Z string;
  pool : option IpPool
}.

Definition matcher_new : DnsMatcher := mkMatcher ∅ ∅ ∅ None.

Definition seed_pool (net : option (Z * Z)) (d : DnsMatcher) : bool * DnsMatcher :=
  match seed net with
  | Some p => (true, mkMatcher (hostnames d) (domains d) (ip_addresses d) (Some p))
  | None => (false, d)
  end.

Definition reserve (a : Z) (d : DnsMatcher) : DnsMatcher :=
  match ip_addresses d !! a with
  | Some _ => d
  | None => mkMatcher (hostnames d) (domains d) (<[a := EmptyString]> (ip_addresses d)) (pool d)
  end.

Definition allocate_ip (d : DnsMatcher) : option Z * DnsMatcher :=
  match pool d with
  | None => (None, d)
  | Some p =>
      let '(a, p) := allocate p (Z.of_nat (size (ip_addresses d)))
                       (λ a, bool_decide (is_Some (ip_addresses d !! a))) in
      (a, mkMatcher (hostnames d) (domains d) (ip_addresses d) (Some p))
  end.

(** A new entry for a hostname, with its address. *)
Definition add_entry (name : string) (e : DnsEntry) (d : DnsMatcher) : DnsMatcher :=
  mkMatcher (<[name := e]> (hostnames d)) (domains d) (<[ip e := name]> (ip_addresses d)) (pool d).

Definition register (address intercept : string) (d : DnsMatcher) : RegisterOutcome * DnsMatcher :=
  match check_name address with
  | None => (Rejected, d)
  | Some (clean, true) =>
      let suffix := skip2 clean in
      let owners := default ∅ (domains d !! suffix) in
      (RegDomain, mkMatcher (hostnames d) (<[suffix := {[intercept]} ∪ owners]> (domains d))
                    (ip_addresses d) (pool d))
  | Some (clean, false) =>
      match hostnames d !! clean with
      | Some e =>
          let e' := mkEntry (ip e) (domain e) ({[intercept]} ∪ intercepts e) in
          (RegHostname (ip e), mkMatcher (<[clean := e']> (hostnames d)) (domains d) (ip_addresses d) (pool d))
      | None =>
          match allocate_ip d with
          | (Some a, d) => (RegHostname a, add_entry clean (mkEntry a None {[intercept]}) d)
          | (None, d) => (IpUnavailable, d)
          end
      end
  end.

(** A domain that somebody owns. *)
Definition active (domains : gmap string (gset string)) (suffix : string) : bool :=
  match domains !! suffix with Some owners => negb (bool_decide (owners = ∅)) | None => false end.

(** The second pass on one entry: it goes when nobody claims it. *)
Definition release_entry (intercept : string) (domains : gmap string (gset string)) (e : DnsEntry)
    : option DnsEntry :=
  let owners := intercepts e ∖ {[intercept]} in
  if negb (bool_decide (owners = ∅)) || match domain e with Some s => active domains s | None => false end
  then Some (mkEntry (ip e) (domain e) owners) else None.

(** The addresses the second pass frees. *)
Definition freed (intercept : string) (domains : gmap string (gset string))
    (hostnames : gmap string DnsEntry) : list Z :=
  omap (λ kv, match release_entry intercept domains kv.2 with None => Some (ip kv.2) | Some _ => None end)
    (map_to_list hostnames).

Definition deregister_intercept (intercept : string) (d : DnsMatcher) : DnsMatcher :=
  let domains1 := (λ owners, owners ∖ {[intercept]}) <$> domains d in
  mkMatcher (omap (release_entry intercept domains1) (hostnames d))
    (filter (λ kv, kv.2 ≠ ∅) domains1)
    (foldr delete (ip_addresses d) (freed intercept domains1 (hostnames d)))
    (pool d).

Definition lookup_query (query : string) (d : DnsMatcher) : option DnsMatch * DnsMatcher :=
  match check_name query with
  | None => (None, d)
  | Some (_, true) => (None, d)
  | Some (clean, false) =>
      match hostnames d !! clean with
      | Some e => (Some (mkMatch (if domain e is Some _ then Domain else Hostname) (ip e)), d)
      | None =>
          match find_domain clean (domains d) with
          | None => (None, d)
          | Some suffix =>
              match allocate_ip d with
              | (Some a, d) => (Some (mkMatch Domain a), add_entry clean (mkEntry a (Some suffix) ∅) d)
              | (None, d) => (None, d)
              end
          end
      end
  end.

Definition reverse_lookup (a : Z) (d : DnsMatcher) : option string := ip_addresses d !! a.

Definition reverse_lookup_domain (a : Z) (d : DnsMatcher) : option string :=
  h ← ip_addresses d !! a;
  e ← hostnames d !! h;
  if ip e =? a then domain e else None.

Definition matched_domain (query : string) (d : DnsMatcher) : option string :=
  let clean := match check_name query with Some (clean, _) => clean | None => EmptyString end in
  find_domain clean (domains d).

Definition matches_domain (query : string) (d : DnsMatcher) : bool :=
  bool_decide (is_Some (matched_domain query d)).

Definition wildcard_suffix (address : string) : option string :=
  match check_name address with Some (clean, true) => Some (skip2 clean) | _ => None end.

(** ** Histories *)

Inductive dns_step : DnsMatcher → DnsMatcher → Prop :=
| ds_seed net d : (∀ a b, net = Some (a, b) → u32_ok a) → dns_step d (seed_pool net d).2
| ds_reserve a d : dns_step d (reserve a d)
| ds_register address intercept d : dns_step d (register address intercept d).2
| ds_deregister intercept d : dns_step d (deregister_intercept intercept d)
| ds_lookup query d : dns_step d (lookup_query query d).2.

(** Well-formed pools: a power-of-two range of at least two addresses, aligned
    base, counter between the network and the broadcast address. *)
Definition pool_ok (p : IpPool) : Prop :=
  ∃ k, 0 < k < 32 ∧ counter_mask p = 2 ^ k - 1 ∧ capacity p = 2 ^ k - 2 ∧
    0 <= base p < 2 ^ 32 ∧ base p mod 2 ^ k = 0 ∧ 1 <= counter p <= counter_mask p ∧
    (counter p < counter_mask p ∨ k = 1).

(** The matcher's invariant: the two directions of the address map agree (an
    address without a hostname of its own is a reserved one), nobody's entries
    are gone, and every domain has an owner. *)
Record matcher_ok (d : DnsMatcher) : Prop := {
  mo_forward h e : hostnames d !! h = Some e → ip_addresses d !! ip e = Some h;
  mo_reverse a h : ip_addresses d !! a = Some h →
    h = EmptyString ∨ ∃ e, hostnames d !! h = Some e ∧ ip e = a;
  mo_active h e : hostnames d !! h = Some e →
    intercepts e ≠ ∅ ∨ ∃ s, domain e = Some s ∧ active (domains d) s = true;
  mo_domains s owners : domains d !! s = Some owners → owners ≠ ∅;
  mo_pool p : pool d = Some p → pool_ok p
}.

(** Every claim an intercept has. *)
Definition claims (intercept : string) (d : DnsMatcher) : Prop :=
  (∃ h e, hostnames d !! h = Some e ∧ intercept ∈ intercepts e) ∨
  (∃ s owners, domains d !! s = Some owners ∧ intercept ∈ owners).

(** The lives of a pool: allocations with anything taken at each. *)
Inductive pool_step : IpPool → IpPool → Prop :=
| ps_allocate p (taken : gset Z) :
    pool_step p (allocate p (Z.of_nat (size taken)) (λ a, bool_decide (a ∈ taken))).2.

(** A dot-separated suffix of a name, the name itself included. *)
Inductive label_suffix : string → string → Prop :=
| ls_refl s : label_suffix s s
| ls_next s l r t : split_once dot s = Some (l, r) → label_suffix r t → label_suffix s t.

(** ** Lemmas: the pool *)

Lemma seed_ok net p :
  (∀ a b, net = Some (a, b) → u32_ok a) → seed net = Some p → pool_ok p ∧ counter p = 1.
Proof.
  intros Hnet H. unfold seed in H. destruct net as [[addr bits]|]; [|done]. cbn in H.
  destruct (negb _) eqn:E; [done|]. injection H as <-. bool_to_prop.
  pose proof (Hnet addr bits eq_refl) as Ha. clear Hnet. unfold u32_ok in Ha.
  split; [|done]. exists (32 - bits). cbn [counter_mask capacity base counter].
  change u32_max with (Z.ones 32). replace (32 - (32 - bits)) with bits by lia.
  rewrite Z.ones_equiv, (Z.shiftl_mul_pow2 1), Z.mul_1_l by lia.
  assert (Hm : Z.shiftr (Z.ones 32) bits = Z.ones (32 - bits)).
  { apply Z.bits_inj'. intros n Hn. rewrite Z.shiftr_spec, !Z.testbit_ones by lia.
    destruct (decide (n < 32 - bits)); [rewrite !(proj2 (Z.ltb_lt _ _)) by lia|rewrite !(proj2 (Z.ltb_ge _ _)) by lia];
      rewrite !(proj2 (Z.leb_le _ _)) by lia; done. }
  rewrite <-Z.ones_equiv, Hm, land_lnot_ones by (change (2 ^ 32) with (u32_max + 1); lia).
  rewrite Z.ones_equiv. assert (Hpow : 0 < 2 ^ (32 - bits)) by (apply Z.pow_pos_nonneg; lia).
  pose proof (Z.mod_pos_bound addr (2 ^ (32 - bits)) Hpow). pose proof (Z.mod_le addr (2 ^ (32 - bits)) ltac:(lia) Hpow).
  split_and!; try lia.
  - change (2 ^ 32) with (u32_max + 1). lia.
  - rewrite Zminus_mod_idemp_r, Z.sub_diag. done.
  - assert (2 ^ 1 <= 2 ^ (32 - bits)) by (apply Z.pow_le_mono_r; lia). lia.
  - destruct (decide (bits = 31)) as [->|]; [by right|left].
    assert (2 ^ 2 <= 2 ^ (32 - bits)) by (apply Z.pow_le_mono_r; lia). lia.
Qed.

(** The addresses of a pool: neither the network address nor the broadcast. *)
Definition in_pool (p : IpPool) (a : Z) : Prop := base p < a < base p + counter_mask p.

Lemma candidate_eq p : pool_ok p → candidate p = base p + counter p.
Proof.
  intros (k & Hk & Hm & Hc & Hb & Hal & H1 & Hlt). unfold candidate.
  rewrite Hm, Z.sub_1_r, <-Z.ones_equiv, Z.land_ones by lia. rewrite Z.mod_small by lia.
  apply lor_aligned with k; lia.
Qed.

(** The candidates run through the pool one by one and never repeat within a turn. *)
Definition nth_counter (p : IpPool) (i : Z) : Z := 1 + (counter p - 1 + i) mod (capacity p).

Lemma advance_ok p : pool_ok p → 0 < capacity p → pool_ok (advance p) ∧ counter (advance p) = nth_counter p 1.
Proof.
  intros (k & Hk & Hm & Hc & Hb & Hal & H1 & Hlt) Hcap. unfold nth_counter. cbn. unfold next_counter.
  destruct Hlt as [Hlt|Heq]; [|subst k; cbn in Hc; lia].
  destruct (counter p + 1 =? counter_mask p) eqn:E; bool_to_prop.
  - split; [|].
    + exists k. cbn. unfold next_counter. rewrite (proj2 (Z.eqb_eq _ _)) by done. split_and!; try done; try lia.
    + replace (counter p - 1 + 1) with (capacity p) by lia. rewrite Z.mod_same; lia.
  - split.
    + exists k. cbn. unfold next_counter. rewrite (proj2 (Z.eqb_neq _ _)) by done. split_and!; try done; try lia.
    + rewrite Z.mod_small; lia.
Qed.

Lemma nth_counter_advance p i :
  pool_ok p → 0 < capacity p → 0 <= i → nth_counter (advance p) i = nth_counter p (i + 1).
Proof.
  intros Hp Hc Hi. destruct (advance_ok p Hp Hc) as [_ Hn]. unfold nth_counter at 1. cbn [capacity advance] in *.
  rewrite Hn. unfold nth_counter. f_equal.
  replace (1 + (counter p - 1 + 1) mod capacity p - 1 + i) with ((counter p - 1 + 1) mod capacity p + i) by lia.
  rewrite Zplus_mod_idemp_l. f_equal. lia.
Qed.

Lemma nth_counter_bounds p i : 0 < capacity p → 1 <= nth_counter p i <= capacity p.
Proof.
  intros Hc. unfold nth_counter. pose proof (Z.mod_pos_bound (counter p - 1 + i) (capacity p) Hc). lia.
Qed.

Lemma nth_counter_0 p : pool_ok p → 0 < capacity p → nth_counter p 0 = counter p.
Proof.
  intros (k & Hk & Hm & Hc & Hb & Hal & H1 & Hlt) Hcap. unfold nth_counter.
  destruct Hlt as [Hlt|Heq]; [|subst k; cbn in Hc; lia]. rewrite Z.mod_small; lia.
Qed.

Lemma nth_counter_inj p i j :
  0 < capacity p → 0 <= i < capacity p → 0 <= j < capacity p → nth_counter p i = nth_counter p j → i = j.
Proof.
  intros Hc Hi Hj H. unfold nth_counter in H.
  pose proof (Z.div_mod (counter p - 1 + i) (capacity p) ltac:(lia)).
  pose proof (Z.div_mod (counter p - 1 + j) (capacity p) ltac:(lia)).
  assert ((counter p - 1 + i) / capacity p = (counter p - 1 + j) / capacity p) by nia. nia.
Qed.

(** The scan: the first candidate that is free, in the order of the turns. *)
Lemma allocate_loop_spec turns p occ :
  pool_ok p → 0 < capacity p →
  let '(r, p') := allocate_loop turns p occ in
  pool_ok p' ∧ base p' = base p ∧ counter_mask p' = counter_mask p ∧ capacity p' = capacity p ∧
  match r with
  | Some a => occ a = false ∧ in_pool p a
  | None => ∀ i : nat, (i < turns)%nat → occ (base p + nth_counter p (Z.of_nat i)) = true
  end.
Proof.
  intros Hp Hc. revert p Hp Hc. induction turns as [|turns IH]; intros p Hp Hc; cbn [allocate_loop].
  { split_and!; try done. intros i Hi. lia. }
  pose proof (nth_counter_0 p Hp Hc) as H0. pose proof (nth_counter_bounds p 0 Hc) as Hb. rewrite H0 in Hb.
  destruct (advance_ok p Hp Hc) as [Hadv _]. rewrite (candidate_eq p Hp).
  destruct (occ (base p + counter p)) eqn:E.
  - specialize (IH (advance p) Hadv Hc). destruct (allocate_loop turns (advance p) occ) as [r p'].
    destruct IH as (H1 & H2 & H3 & H4 & H5). split_and!; [done..|]. destruct r as [a|]; [done|].
    intros i Hi. destruct i as [|i]; [change (Z.of_nat 0) with 0; by rewrite H0|]. specialize (H5 i ltac:(lia)).
    rewrite nth_counter_advance in H5 by (done || lia). by replace (Z.of_nat (S i)) with (Z.of_nat i + 1) by lia.
  - split_and!; try done. unfold in_pool.
    destruct Hp as (k & Hk & Hm & Hcap & Hba & Hal & H1 & Hlt). lia.
Qed.

(** Clamping the count to 32 bits does not change the exhaustion test. *)
Lemma exhausted_clamp p n :
  pool_ok p → (capacity p <=? (if n <=? u32_max then n else u32_max)) = (capacity p <=? n).
Proof.
  intros (k & Hk & _ & Hc & _). assert (2 ^ k <= 2 ^ 31) by (apply Z.pow_le_mono_r; lia).
  destruct (n <=? u32_max) eqn:E; [done|]. bool_to_prop. unfold u32_max in *.
  transitivity true; [|symmetry]; apply Z.leb_le; lia.
Qed.

(** An allocation: a free address of the pool, and always one while fewer
    addresses are taken than the pool has. *)
Lemma allocate_spec p occ (taken : gset Z) :
  pool_ok p → (∀ a, occ a = true → a ∈ taken) →
  let '(r, p') := allocate p (Z.of_nat (size taken)) occ in
  pool_ok p' ∧ base p' = base p ∧ counter_mask p' = counter_mask p ∧ capacity p' = capacity p ∧
  match r with
  | Some a => occ a = false ∧ in_pool p a
  | None => capacity p <= Z.of_nat (size taken)
  end.
Proof.
  intros Hp Hocc. unfold allocate. rewrite exhausted_clamp by done.
  destruct (capacity p <=? _) eqn:Hfull; bool_to_prop; [by split_and!|].
  pose proof (allocate_loop_spec (Z.to_nat (capacity p)) p occ Hp ltac:(lia)) as H.
  destruct (allocate_loop _ _ _) as [r p']. destruct H as (Hp' & H1 & H2 & H3 & Hr).
  split_and!; try done. destruct r as [a|]; [done|].
  exfalso. apply (pigeonhole taken (λ i, base p + nth_counter p (Z.of_nat i))).
  - intros i j Hi Hj Heq. assert (Z.of_nat i = Z.of_nat j) by (eapply (nth_counter_inj p); lia). lia.
  - intros i Hi. apply Hocc, Hr. lia.
Qed.

Lemma allocate_ip_spec d :
  (∀ p, pool d = Some p → pool_ok p) →
  let '(r, d') := allocate_ip d in
  hostnames d' = hostnames d ∧ domains d' = domains d ∧ ip_addresses d' = ip_addresses d ∧
  (∀ p, pool d' = Some p → pool_ok p) ∧
  match r with
  | Some a => ip_addresses d !! a = None ∧ ∃ p, pool d = Some p ∧ in_pool p a
  | None => ∀ p, pool d = Some p → capacity p <= Z.of_nat (size (ip_addresses d))
  end.
Proof.
  intros Hp. unfold allocate_ip. destruct (pool d) as [p|] eqn:E; [|split_and!; try done; by rewrite E].
  pose proof (allocate_spec p (λ a, bool_decide (is_Some (ip_addresses d !! a))) (dom (ip_addresses d))
    (Hp p eq_refl)) as H.
  rewrite size_dom in H. destruct (allocate _ _ _) as [r p'].
  destruct H as (Hp' & _ & _ & _ & Hr); [intros a Ha; apply elem_of_dom; by apply bool_decide_eq_true in Ha|].
  cbn [pool hostnames domains ip_addresses]. split_and!; try done; [by intros ? [= <-]|].
  destruct r as [a|]; [|by intros ? [= <-]].
  destruct Hr as [Hocc Hin]. apply bool_decide_eq_false in Hocc. rewrite <-eq_None_not_Some in Hocc. eauto.
Qed.

(** ** Lemmas: the invariant *)

Lemma matcher_new_ok : matcher_ok matcher_new.
Proof. split; intros *; cbn; rewrite ?lookup_empty; done. Qed.

(** A fresh address for a fresh name. *)
Lemma add_entry_ok name e d :
  matcher_ok d → hostnames d !! name = None → ip_addresses d !! ip e = None →
  (intercepts e ≠ ∅ ∨ ∃ s, domain e = Some s ∧ active (domains d) s = true) →
  matcher_ok (add_entry name e d).
Proof.
  intros [Hf Hr Ha Hd Hp] Hn Hi He. split; cbn.
  - intros h e'. rewrite lookup_insert_Some. intros [[<- <-]|[Hne H]]; [apply lookup_insert_eq|].
    rewrite lookup_insert_ne; [by apply Hf|]. intros Heq. apply Hf in H. rewrite <-Heq, Hi in H. done.
  - intros a h. rewrite lookup_insert_Some. intros [[<- <-]|[Hne H]].
    + right. exists e. split; [apply lookup_insert_eq|done].
    + destruct (Hr a h H) as [->|(e' & He' & <-)]; [by left|right]. exists e'.
      rewrite lookup_insert_ne; [done|]. intros ->. congruence.
  - intros h e'. rewrite lookup_insert_Some. intros [[<- <-]|[Hne H]]; [done|by eapply Ha].
  - done.
  - done.
Qed.

Lemma allocate_ip_ok d : matcher_ok d → matcher_ok (allocate_ip d).2.
Proof.
  intros [Hf Hr Ha Hd Hp]. pose proof (allocate_ip_spec d Hp) as H.
  destruct (allocate_ip d) as [r d']. destruct H as (H1 & H2 & H3 & H4 & _). cbn.
  split; rewrite ?H1, ?H2, ?H3; done.
Qed.

Lemma active_insert doms s i o : active doms o = true → active (<[s := {[i]} ∪ default ∅ (doms !! s)]> doms) o = true.
Proof.
  unfold active. intros H. destruct (decide (o = s)) as [->|Hne].
  - rewrite lookup_insert_eq, bool_decide_false; [done|]. set_solver.
  - by rewrite lookup_insert_ne.
Qed.

Lemma register_ok address i d : matcher_ok d → matcher_ok (register address i d).2.
Proof.
  intros Hok. unfold register. destruct (check_name address) as [[clean []]|]; [..|done].
  - destruct Hok as [Hf Hr Ha Hd Hp]. split; cbn; try done.
    + intros h e He. destruct (Ha h e He) as [H|(s & Hs & Hact)]; [by left|right]. exists s.
      split; [done|]. by apply active_insert.
    + intros s owners. rewrite lookup_insert_Some. intros [[_ <-]|[_ H]]; [set_solver|by eapply Hd].
  - destruct (hostnames d !! clean) as [e|] eqn:E.
    + destruct Hok as [Hf Hr Ha Hd Hp]. split; cbn; try done.
      * intros h e'. rewrite lookup_insert_Some. intros [[<- <-]|[_ H]]; [exact (Hf _ _ E)|by apply Hf].
      * intros a h H. destruct (Hr a h H) as [->|(e' & He' & <-)]; [by left|right].
        destruct (decide (h = clean)) as [->|Hne].
        -- rewrite E in He'. injection He' as <-. eexists. split; [apply lookup_insert_eq|done].
        -- exists e'. by rewrite lookup_insert_ne.
      * intros h e'. rewrite lookup_insert_Some. intros [[_ <-]|[_ H]]; [left; cbn; set_solver|by eapply Ha].
    + pose proof (allocate_ip_spec d (mo_pool d Hok)) as H. pose proof (allocate_ip_ok d Hok) as Hok'.
      destruct (allocate_ip d) as [[a|] d']; cbn in *; [|done].
      destruct H as (H1 & H2 & H3 & _ & Ha & _). apply add_entry_ok; cbn; rewrite ?H1, ?H3; try done.
      left. set_solver.
Qed.

Lemma reserve_ok a d : matcher_ok d → matcher_ok (reserve a d).
Proof.
  intros Hok. unfold reserve. destruct (ip_addresses d !! a) as [h|] eqn:E; [done|].
  destruct Hok as [Hf Hr Ha Hd Hp]. split; cbn; try done.
  - intros h e H. rewrite lookup_insert_ne; [by apply Hf|]. intros ->. apply Hf in H. congruence.
  - intros a' h. rewrite lookup_insert_Some. intros [[_ <-]|[_ H]]; [by left|by apply Hr].
Qed.

(** ** Lemmas: deregistration *)

Definition remove_owner (i : string) (d : DnsMatcher) : gmap string (gset string) :=
  (λ owners, owners ∖ {[i]}) <$> domains d.

Lemma active_filter doms s : active (filter (λ kv, kv.2 ≠ ∅) doms) s = active doms s.
Proof.
  unfold active. destruct (doms !! s) as [o|] eqn:E.
  - destruct (decide (o = ∅)) as [->|Hne].
    + rewrite map_lookup_filter_None_2; [done|]. right. intros o Ho. rewrite E in Ho. injection Ho as <-. by intros [].
    + by rewrite (map_lookup_filter_Some_2 _ _ _ _ E Hne).
  - by rewrite map_lookup_filter_None_2 by (by left).
Qed.

Lemma elem_of_freed i doms hs a :
  a ∈ freed i doms hs ↔ ∃ h e, hs !! h = Some e ∧ release_entry i doms e = None ∧ ip e = a.
Proof.
  unfold freed. rewrite list_elem_of_omap. split.
  - intros ([h e] & Hin & H). apply elem_of_map_to_list in Hin. cbn in H.
    destruct (release_entry i doms e) eqn:E; [done|]. injection H as <-. eauto.
  - intros (h & e & Hin & E & <-). exists (h, e). split; [by apply elem_of_map_to_list|]. cbn. by rewrite E.
Qed.

Lemma release_entry_Some i doms e e' :
  release_entry i doms e = Some e' →
  e' = mkEntry (ip e) (domain e) (intercepts e ∖ {[i]}) ∧
  (intercepts e' ≠ ∅ ∨ ∃ s, domain e' = Some s ∧ active doms s = true).
Proof.
  unfold release_entry. intros H. destruct (_ || _) eqn:E; [|done]. injection H as <-. split; [done|]. cbn.
  apply orb_true_iff in E as [E|E].
  - apply negb_true_iff, bool_decide_eq_false in E. by left.
  - right. destruct (domain e) as [s|]; [eauto|done].
Qed.

Lemma deregister_hostnames i d h e' :
  hostnames (deregister_intercept i d) !! h = Some e' ↔
  ∃ e, hostnames d !! h = Some e ∧ release_entry i (remove_owner i d) e = Some e'.
Proof. cbn. fold (remove_owner i d). rewrite lookup_omap, bind_Some. done. Qed.

(** The reverse map keeps exactly the addresses of the surviving entries and the
    reserved ones. *)
Lemma deregister_addresses i d a h :
  matcher_ok d → ip_addresses (deregister_intercept i d) !! a = Some h ↔
  ip_addresses d !! a = Some h ∧
    ∀ h' e, hostnames d !! h' = Some e → ip e = a → is_Some (release_entry i (remove_owner i d) e).
Proof.
  intros Hok. cbn. fold (remove_owner i d). rewrite lookup_foldr_delete_Some, elem_of_freed. split.
  - intros [Hnot H]. split; [done|]. intros h' e He Ha. apply not_eq_None_Some. intros Hn. apply Hnot. eauto.
  - intros [H Hall]. split; [|done]. intros (h' & e & He & Hn & Ha).
    destruct (Hall h' e He Ha) as [? ?]. congruence.
Qed.

Lemma deregister_ok i d : matcher_ok d → matcher_ok (deregister_intercept i d).
Proof.
  intros Hok. pose proof Hok as [Hf Hr Ha Hd Hp]. split.
  - intros h e' (e & He & Hrel)%deregister_hostnames. apply deregister_addresses; [done|].
    pose proof (release_entry_Some _ _ _ _ Hrel) as [Heq _]. rewrite Heq. cbn. split; [by apply Hf|].
    intros h2 e2 He2 Hip. assert (h2 = h) as ->.
    { pose proof (Hf _ _ He2) as H2. rewrite Hip, (Hf _ _ He) in H2. by injection H2. }
    rewrite He in He2. injection He2 as <-. eauto.
  - intros a h [H Hall]%deregister_addresses; [|done]. destruct (Hr a h H) as [->|(e & He & <-)]; [by left|right].
    destruct (Hall h e He eq_refl) as [e' He']. exists e'. split; [apply deregister_hostnames; eauto|].
    by destruct (release_entry_Some _ _ _ _ He') as [-> _].
  - intros h e' (e & He & Hrel)%deregister_hostnames.
    destruct (release_entry_Some _ _ _ _ Hrel) as [_ [H|(s & Hs & Hact)]]; [by left|right]. exists s.
    split; [done|]. cbn. fold (remove_owner i d). by rewrite active_filter.
  - intros s owners. cbn. intros [_ H]%map_lookup_filter_Some. exact H.
  - exact Hp.
Qed.

(** Nothing of the intercept is left. *)
Lemma deregister_no_claims i d : ¬ claims i (deregister_intercept i d).
Proof.
  intros [(h & e' & (e & He & Hrel)%deregister_hostnames & Hin)|(s & owners & H & Hin)].
  - destruct (release_entry_Some _ _ _ _ Hrel) as [-> _]. cbn in Hin. set_solver.
  - cbn in H. apply map_lookup_filter_Some in H as [H _]. rewrite lookup_fmap in H.
    destruct (domains d !! s); [|done]. injection H as <-. set_solver.
Qed.

(** ** Lemmas: suffixes *)

Lemma split_once_length c s l r : split_once c s = Some (l, r) → (String.length r < String.length s)%nat.
Proof.
  revert l. induction s as [|a s IH]; intros l H; [done|]. cbn in H.
  destruct (ascii_dec a c); [injection H as <- <-; cbn; lia|].
  destruct (split_once c s) as [[l' r']|]; [|done]. injection H as <- <-. specialize (IH _ eq_refl). cbn. lia.
Qed.

Lemma find_suffix_Some fuel s doms t :
  find_suffix fuel s doms = Some t →
  is_Some (doms !! t) ∧ ∃ l r, split_once dot s = Some (l, r) ∧ label_suffix r t ∧
    ∀ u, label_suffix r u → is_Some (doms !! u) → (String.length u ≤ String.length t)%nat.
Proof.
  revert s. induction fuel as [|fuel IH]; intros s H; [done|]. cbn in H.
  destruct (split_once dot s) as [[l r]|] eqn:E; [|done]. cbn in H. case_bool_decide as Hd.
  - injection H as <-. split; [done|]. exists l, r. split_and!; [done|constructor|].
    intros u Hu _. clear -Hu. induction Hu as [|s l r t Hs _ IHu]; [done|].
    apply split_once_length in Hs. lia.
  - destruct (IH r H) as (Ht & l' & r' & Hs & Hsuf & Hmax). split; [done|]. exists l, r.
    split_and!; [done|by eapply ls_next|]. intros u Hu Hdu. inversion Hu as [|? ? ? ? Hs' Hu']; subst; [done|].
    rewrite Hs in Hs'. injection Hs' as <- <-. by apply Hmax.
Qed.

Lemma find_suffix_None fuel s doms :
  (String.length s < fuel)%nat → find_suffix fuel s doms = None →
  ∀ l r u, split_once dot s = Some (l, r) → label_suffix r u → doms !! u = None.
Proof.
  revert s. induction fuel as [|fuel IH]; intros s Hlen H l r u Hs Hu; [lia|]. cbn in H.
  rewrite Hs in H. cbn in H. case_bool_decide as Hd; [done|].
  inversion Hu as [|? l2 r2 ? Hs2 Hu2]; subst; [by apply eq_None_not_Some|].
  eapply (IH r); [|done..]. apply split_once_length in Hs. lia.
Qed.

(** The longest registered label suffix, when there is one. *)
Lemma find_domain_spec h doms :
  match find_domain h doms with
  | Some t => label_suffix h t ∧ is_Some (doms !! t) ∧
      ∀ u, label_suffix h u → is_Some (doms !! u) → (String.length u ≤ String.length t)%nat
  | None => ∀ u, label_suffix h u → doms !! u = None
  end.
Proof.
  unfold find_domain. case_bool_decide as Hd.
  - split_and!; [constructor|done|]. intros u Hu _. clear -Hu.
    induction Hu as [|s l r t Hs _ IHu]; [done|]. apply split_once_length in Hs. lia.
  - destruct (find_suffix _ h doms) as [t|] eqn:E.
    + destruct (find_suffix_Some _ _ _ _ E) as (Ht & l & r & Hs & Hsuf & Hmax).
      split_and!; [by eapply ls_next|done|]. intros u Hu Hdu.
      inversion Hu as [|? ? ? ? Hs' Hu']; subst; [done|]. rewrite Hs in Hs'. injection Hs' as <- <-. by apply Hmax.
    + intros u Hu. inversion Hu as [|? l r ? Hs Hu']; subst; [by apply eq_None_not_Some|].
      eapply find_suffix_None; [|exact E|exact Hs|exact Hu']. lia.
Qed.

(** ** Lemmas: lookups *)

Lemma find_domain_active d clean s :
  matcher_ok d → find_domain clean (domains d) = Some s → active (domains d) s = true.
Proof.
  intros Hok H. pose proof (find_domain_spec clean (domains d)) as Hs. rewrite H in Hs.
  destruct Hs as (_ & [owners Ho] & _). unfold active. rewrite Ho.
  apply negb_true_iff, bool_decide_eq_false. by eapply mo_domains.
Qed.

Lemma lookup_query_ok q d : matcher_ok d → matcher_ok (lookup_query q d).2.
Proof.
  intros Hok. unfold lookup_query. destruct (check_name q) as [[clean []]|]; [done| |done].
  destruct (hostnames d !! clean) as [e|] eqn:E; [done|].
  destruct (find_domain clean (domains d)) as [s|] eqn:Hs; [|done].
  pose proof (allocate_ip_spec d (mo_pool d Hok)) as H. pose proof (allocate_ip_ok d Hok) as Hok'.
  destruct (allocate_ip d) as [[a|] d']; cbn in *; [|done]. destruct H as (H1 & H2 & H3 & _ & Ha & _).
  apply add_entry_ok; cbn; rewrite ?H1, ?H2, ?H3; try done.
  right. exists s. split; [done|]. by apply find_domain_active with clean.
Qed.

Lemma dns_step_ok d d' : matcher_ok d → dns_step d d' → matcher_ok d'.
Proof.
  intros Hok Hstep. destruct Hstep as [net d Hnet|a d|ad i d|i d|q d].
  - unfold seed_pool. destruct (seed net) as [p|] eqn:E; [|done]. cbn.
    destruct Hok as [Hf Hr Ha Hd _]. split; cbn; try done.
    intros p' [= <-]. by eapply seed_ok.
  - by apply reserve_ok.
  - by apply register_ok.
  - by apply deregister_ok.
  - by apply lookup_query_ok.
Qed.

(** ** Properties *)

(** C40. Every history of seeding, reserving, registering, deregistering and
    querying keeps the matcher consistent: the two directions of the address
    map agree, so no two hostnames share an address; every entry is claimed by
    an intercept or by an owned domain; no domain is without an owner. *)
Theorem matcher_consistent (d : DnsMatcher) :
  rtc dns_step matcher_new d →
  matcher_ok d ∧
  ∀ h1 h2 e1 e2, hostnames d !! h1 = Some e1 → hostnames d !! h2 = Some e2 → ip e1 = ip e2 → h1 = h2.
Proof.
  intros H. assert (Hok : matcher_ok d).
  { apply (invariant_rtc dns_step matcher_ok matcher_new d); [apply matcher_new_ok|apply dns_step_ok|exact H]. }
  split; [exact Hok|]. intros h1 h2 e1 e2 H1 H2 Heq.
  apply (mo_forward _ Hok) in H1, H2. rewrite Heq in H1. congruence.
Qed.

(** A query, on a consistent matcher: an answer is the address of the
    normalised name, both ways, and stays the answer; a new address is only
    given under the longest registered label suffix of the name and is one that
    was free (so never a reserved one); and the query is answered whenever the
    name or a suffix is registered and the pool is not exhausted. *)
Theorem lookup_query_outcome (q clean : string) (d : DnsMatcher) :
  matcher_ok d → check_name q = Some (clean, false) →
  let '(r, d') := lookup_query q d in
  match r with
  | Some m =>
      reverse_lookup (match_ip m) d' = Some clean ∧ (lookup_query q d').1 = Some m ∧
      (hostnames d !! clean = None →
       ip_addresses d !! match_ip m = None ∧
       ∃ s, find_domain clean (domains d) = Some s ∧ reverse_lookup_domain (match_ip m) d' = Some s)
  | None =>
      hostnames d !! clean = None ∧
      (find_domain clean (domains d) = None ∨
       ∀ p, pool d = Some p → capacity p <= Z.of_nat (size (ip_addresses d)))
  end.
Proof.
  intros Hok Hq. pose proof (lookup_query_ok q d Hok) as Hok'. unfold lookup_query in *. rewrite Hq in *.
  destruct (hostnames d !! clean) as [e|] eqn:E.
  { cbn in *. split_and!; [by apply (mo_forward _ Hok)|by rewrite E|done]. }
  destruct (find_domain clean (domains d)) as [s|] eqn:Hs; [|split; [done|by left]].
  pose proof (allocate_ip_spec d (mo_pool d Hok)) as H.
  destruct (allocate_ip d) as [[a|] d'] eqn:Ealloc.
  - destruct H as (H1 & H2 & H3 & _ & Ha & _). cbn in *.
    split_and!; [by rewrite lookup_insert_eq|by rewrite lookup_insert_eq|]. intros _. split; [done|].
    exists s. split; [done|]. unfold reverse_lookup_domain. cbn. rewrite lookup_insert_eq. cbn.
    rewrite lookup_insert_eq. cbn. by rewrite Z.eqb_refl.
  - destruct H as (_ & _ & _ & _ & Hfull). split; [done|by right].
Qed.

(** Deregistering an intercept: nothing of it is left; an entry another
    intercept claims keeps its name and address; an evicted entry's address is
    free again unless reserved; and no query is answered afterwards on its
    behalf: whatever answers is claimed by someone else. *)
Theorem deregister_outcome (i : string) (d : DnsMatcher) :
  matcher_ok d →
  let d' := deregister_intercept i d in
  ¬ claims i d' ∧
  (∀ h e j, hostnames d !! h = Some e → j ∈ intercepts e → j ≠ i →
    ∃ e', hostnames d' !! h = Some e' ∧ ip e' = ip e ∧ j ∈ intercepts e') ∧
  (∀ h e, hostnames d !! h = Some e → hostnames d' !! h = None → ip_addresses d' !! ip e = None) ∧
  (∀ q m, (lookup_query q d').1 = Some m → ∃ j, j ≠ i ∧ claims j d').
Proof.
  intros Hok. pose proof (deregister_ok i d Hok) as Hok'. pose proof (deregister_no_claims i d) as Hno.
  cbn zeta. set (d' := deregister_intercept i d) in *. split; [done|].
  assert (Hclaimed : ∀ j, claims j d' → j ≠ i) by (intros j Hj ->; done).
  assert (Howned : ∀ s, active (domains d') s = true → ∃ j, j ≠ i ∧ claims j d').
  { intros s Hs. unfold active in Hs. destruct (domains d' !! s) as [o|] eqn:Ho; [|done].
    apply negb_true_iff, bool_decide_eq_false in Hs. apply set_choose_L in Hs as [j Hj]. exists j.
    assert (claims j d') by (right; eauto). auto. }
  split_and!.
  - intros h e j He Hj Hne. exists (mkEntry (ip e) (domain e) (intercepts e ∖ {[i]})).
    split_and!; [|done|cbn; set_solver]. apply deregister_hostnames. exists e. split; [done|].
    unfold release_entry. rewrite bool_decide_false; [done|]. set_solver.
  - intros h e He Hgone. apply eq_None_not_Some. intros [h' H]. apply (deregister_addresses i d) in H as [H Hall]; [|done].
    destruct (Hall h e He eq_refl) as [e' He']. assert (Hs : hostnames d' !! h = Some e').
    { apply deregister_hostnames. eauto. } congruence.
  - intros q m Hm. unfold lookup_query in Hm. destruct (check_name q) as [[clean []]|]; [done| |done].
    destruct (hostnames d' !! clean) as [e|] eqn:E.
    + destruct (mo_active _ Hok' _ _ E) as [Hne|(s & _ & Hact)]; [|by eapply Howned].
      apply set_choose_L in Hne as [j Hj]. exists j. assert (claims j d') by (left; eauto). auto.
    + destruct (find_domain clean (domains d')) as [s|] eqn:Hs; [|done].
      eapply Howned, find_domain_active; done.
Qed.

(** The address pool of any CIDR it accepts: an allocation is an address
    strictly between the network and the broadcast address that is not taken,
    whatever was allocated and freed before, and one is found as long as fewer
    are taken than the pool has. *)
Theorem allocate_fresh (net : option (Z * Z)) (p0 p : IpPool) (taken : gset Z) :
  (∀ a b, net = Some (a, b) → u32_ok a) → seed net = Some p0 → rtc pool_step p0 p →
  match (allocate p (Z.of_nat (size taken)) (λ a, bool_decide (a ∈ taken))).1 with
  | Some a => a ∉ taken ∧ base p0 < a < base p0 + counter_mask p0
  | None => capacity p0 <= Z.of_nat (size taken)
  end.
Proof.
  intros Hnet Hseed Hstep. destruct (seed_ok net p0 Hnet Hseed) as [Hp0 _].
  assert (Hinv : pool_ok p ∧ base p = base p0 ∧ counter_mask p = counter_mask p0 ∧ capacity p = capacity p0).
  { apply (invariant_rtc pool_step (λ p, pool_ok p ∧ base p = base p0 ∧
      counter_mask p = counter_mask p0 ∧ capacity p = capacity p0) p0 p); [done| |exact Hstep].
    intros p1 p2 (H1 & H2 & H3 & H4) H. destruct H as [p1 tk].
    pose proof (allocate_spec p1 (λ a, bool_decide (a ∈ tk)) tk H1) as H.
    destruct (allocate _ _ _) as [r p2]. destruct H as (? & ? & ? & ? & _); [by intros a ?%bool_decide_eq_true|].
    cbn. split_and!; congruence. }
  destruct Hinv as (Hp & Hb & Hm & Hc).
  pose proof (allocate_spec p (λ a, bool_decide (a ∈ taken)) taken Hp) as H.
  destruct (allocate _ _ _) as [r p']. destruct H as (_ & _ & _ & _ & Hr); [by intros a ?%bool_decide_eq_true|].
  cbn. destruct r as [a|]; [|lia]. destruct Hr as [Hocc Hin]. apply bool_decide_eq_false in Hocc.
  split; [done|]. unfold in_pool in Hin. lia.
Qed.

(** ** Witnesses *)

(** 100.64.0.0/29 with its first address reserved, a wildcard domain of one
    service and a hostname of another. *)
Definition sample_matcher : DnsMatcher :=
  (register "App.Example.org" "web"
    (register "*.Example.com" "svc"
      (reserve 1681915905 (seed_pool (Some (1681915904, 29)) matcher_new).2)).2).2.

Lemma sample_history : rtc dns_step matcher_new sample_matcher.
Proof.
  eapply rtc_l; [apply (ds_seed (Some (1681915904, 29))); intros a b [= <- <-]; unfold u32_ok, u32_max; lia|].
  eapply rtc_l; [apply ds_reserve|]. eapply rtc_l; [apply ds_register|].
  eapply rtc_l; [apply ds_register|]. apply rtc_refl.
Qed.

Lemma sample_matcher_ok : matcher_ok sample_matcher.
Proof.
  apply (invariant_rtc dns_step matcher_ok matcher_new); [apply matcher_new_ok|apply dns_step_ok|apply sample_history].
Qed.

Lemma matcher_consistent_witness : matcher_ok sample_matcher ∧ hostnames sample_matcher ≠ ∅.
Proof.
  split; [apply (matcher_consistent sample_matcher sample_history)|].
  intros H. assert (E : hostnames sample_matcher !! "app.example.org" = None) by (rewrite H; apply lookup_empty).
  vm_compute in E. discriminate.
Defined.

(** The reserved address is passed over; the name gets the next one but one. *)
Lemma lookup_query_outcome_witness :
  let '(r, d') := lookup_query "a.b.EXAMPLE.com" sample_matcher in
  r = Some (mkMatch Domain 1681915907) ∧ reverse_lookup 1681915907 d' = Some "a.b.example.com".
Proof.
  pose proof (lookup_query_outcome "a.b.EXAMPLE.com" "a.b.example.com" sample_matcher sample_matcher_ok) as H.
  assert (E : (lookup_query "a.b.EXAMPLE.com" sample_matcher).1 = Some (mkMatch Domain 1681915907))
    by (vm_compute; reflexivity).
  destruct (lookup_query "a.b.EXAMPLE.com" sample_matcher) as [r d'] eqn:Eq. cbn in E. subst r.
  destruct H as (Hr & _ & _); [vm_compute; reflexivity|]. split; [reflexivity|exact Hr].
Defined.

Lemma deregister_outcome_witness :
  ¬ claims "svc" (deregister_intercept "svc" sample_matcher) ∧
  (lookup_query "a.example.com" (deregister_intercept "svc" sample_matcher)).1 = None.
Proof.
  split; [apply (deregister_outcome "svc" sample_matcher sample_matcher_ok)|vm_compute; reflexivity].
Defined.

Lemma allocate_fresh_witness :
  ∃ p, seed (Some (1681915904, 29)) = Some p ∧
    (allocate p (Z.of_nat (size ({[1681915905; 1681915906]} : gset Z)))
      (λ a, bool_decide (a ∈ ({[1681915905; 1681915906]} : gset Z)))).1 = Some 1681915907 ∧
    1681915907 ∉ ({[1681915905; 1681915906]} : gset Z).
Proof.
  eexists. split; [vm_compute; reflexivity|].
  match goal with |- (allocate ?p _ _).1 = _ ∧ _ =>
    pose proof (allocate_fresh (Some (1681915904, 29)) p p {[1681915905; 1681915906]}) as H end.
  assert (E : (allocate (mkPool 1681915904 1 7 6) (Z.of_nat (size ({[1681915905; 1681915906]} : gset Z)))
    (λ a, bool_decide (a ∈ ({[1681915905; 1681915906]} : gset Z)))).1 = Some 1681915907) by (vm_compute; reflexivity).
  rewrite E in H. split; [exact E|]. apply H.
  - intros a b [= <- <-]. unfold u32_ok, u32_max. lia.
  - vm_compute. reflexivity.
  - apply rtc_refl.
Defined.
