(* ===== verification/DnsServer.v ===== *)
(** * The embedded DNS server: [src/tunnel/intercept/dns_server/], [proxy_resolve/codec.rs]

    The request parser, the response serializer and the routing of a query over
    the matcher.  Packets are lists of bytes; an address is its 32-bit value. *)

From S2P Require Import Prelude Utf8 Message EdgeWire Address DnsMatcher.

(** ** Vocabulary (types.rs) *)

Definition DNS_NO_ERROR : Z := 0.
Definition DNS_SERVFAIL : Z := 2.
Definition DNS_NOT_IMPL : Z := 4.
Definition DNS_REFUSE : Z := 5.

Definition NS_T_A : Z := 1.
Definition NS_T_MX : Z := 15.
Definition NS_T_TXT : Z := 16.
Definition NS_T_AAAA : Z := 28.
Definition NS_T_SRV : Z := 33.

Definition DNS_HEADER_LEN : nat := 12.
Definition DNS_BUF : Z := 4096.
Definition DNS_A_TTL : Z := 60.
Definition DNS_OPT : list Z := [0; 0; 41; 16; 0; 0; 0; 0; 0; 0; 0].

Record ProxyQuery : Type := mkProxyQuery {
  pq_domain : string;
  pq_id : Z;
  pq_name_strlen : nat;
  pq_json : list Z
}.

Inductive DnsAction : Type :=
| Respond (response : list Z)
| Drop
| ForwardUpstream (on_send_failure : list Z)
| ForwardProxy (q : ProxyQuery)
| RespondAndConnectProxy (response : list Z) (domain : string).

(** [i64] fields; [data] is the bytes of the string. *)
Record RespAnswer : Type := mkAnswer {
  atype : Z;
  ttl : Z;
  priority : Z;
  weight : Z;
  port : Z;
  data : list Z
}.

(** ** Bytes *)

(** [u16::from_be_bytes] of two bytes; [as u16], [as u32] of an [i64]. *)
Definition u16_be (hi lo : Z) : Z := hi * 256 + lo.
Definition be16 (z : Z) : list Z := [(z / 256) mod 256; z mod 256].
Definition be32 (z : Z) : list Z := be16 (z / 65536) ++ be16 z.

(** [position(|&b| b == c)]. *)
Fixpoint position (c : Z) (bs : list Z) : option nat :=
  match bs with
  | [] => None
  | b :: bs => if b =? c then Some O else S <$> position c bs
  end.

(** The bytes before the first NUL, and how many they are. *)
Definition c_strlen (bs : list Z) : nat := default (length bs) (position 0 bs).
Definition c_str (bs : list Z) : list Z := take (c_strlen bs) bs.

(** ** The parser (parser.rs) *)

Record ParsedQuery : Type := mkQuery {
  recursive : bool;
  qtype : Z;
  qname : list Z;
  name_strlen : nat
}.

(** The label loop: [packet[p..]] is [rest]; the bytes after the final zero and
    the dotted name.  Each turn uses up at least one byte. *)
Fixpoint parse_labels (fuel : nat) (rest name : list Z) : option (list Z * list Z) :=
  match fuel, rest with
  | S fuel, len :: rest =>
      if len =? 0 then Some (rest, name)
      else if bool_decide (length rest < Z.to_nat len)%nat then None
      else
        let name := if bool_decide (name = []) then name else name ++ [46] in
        parse_labels fuel (drop (Z.to_nat len) rest) (name ++ take (Z.to_nat len) rest)
  | _, _ => None
  end.

Definition parse_query (packet : list Z) : option ParsedQuery :=
  if (Z.of_nat (length packet) <? Z.of_nat DNS_HEADER_LEN) || (DNS_BUF <? Z.of_nat (length packet)) then None
  else
    let flags := u16_be (get0 packet 2) (get0 packet 3) in
    if negb (Z.land flags 32768 =? 0) then None
    else if negb (u16_be (get0 packet 4) (get0 packet 5) =? 1) then None
    else
      '(tail, name) ← parse_labels (length packet) (drop DNS_HEADER_LEN packet) [];
      match tail with
      | t0 :: t1 :: c0 :: c1 :: _ =>
          if negb (u16_be c0 c1 =? 1) then None
          else Some (mkQuery (negb (Z.land flags 256 =? 0)) (u16_be t0 t1) name (c_strlen name))
      | _ => None
      end.

(** ** The serializer (serializer.rs) *)

(** [format_name]; a turn per dot. *)
Fixpoint format_name (fuel : nat) (np : list Z) : list Z :=
  match fuel with
  | O => []
  | S fuel =>
      let d := position 46 np in
      let len := Z.of_nat (default (length np) d) mod 256 in
      if len =? 0 then [len]
      else
        len :: take (Z.to_nat len) np ++
          match d with
          | None => [0]
          | Some d => format_name fuel (drop (S d) np)
          end
  end.

Definition format_name_all (name : list Z) : list Z := format_name (S (length name)) name.

(** [DNS_BUF.saturating_sub(resp.len()) < n]. *)
Definition no_room (resp : list Z) (n : Z) : bool := sat_sub DNS_BUF (Z.of_nat (length resp)) <? n.

(** The record's part after its ten-byte prefix; the flag is [truncated]. *)
Definition format_rdata (a : RespAnswer) (addr : Z) (resp : list Z) : list Z * bool :=
  if atype a =? NS_T_A then
    if no_room resp (2 + 4) then (resp, true)
    else (resp ++ be16 4 ++ be32 addr, false)
  else if atype a =? NS_T_TXT then
    let d := c_str (data a) in
    let txtlen := Z.of_nat (length d) mod 65536 in
    let datalen := (txtlen + 1) mod 65536 in
    if no_room resp (3 + txtlen) then (resp, true)
    else (resp ++ be16 datalen ++ [txtlen mod 256] ++ take (Z.to_nat txtlen) d, false)
  else if atype a =? NS_T_MX then
    let d := c_str (data a) in
    let est := (Z.of_nat (length d) mod 65536 + 1) mod 65536 in
    if no_room resp (4 + est) then (resp ++ [0; 0], true)
    else
      let rdata := be16 (priority a) ++ format_name_all d in
      (resp ++ be16 (Z.of_nat (length rdata)) ++ rdata, false)
  else if atype a =? NS_T_SRV then
    let d := c_str (data a) in
    let est := (Z.of_nat (length d) mod 65536 + 1) mod 65536 in
    if no_room resp (8 + est) then (resp ++ [0; 0], true)
    else
      let rdata := be16 (priority a) ++ be16 (weight a) ++ be16 (port a) ++ format_name_all d in
      (resp ++ be16 (Z.of_nat (length rdata)) ++ rdata, false)
  else (resp, false).

(** The ['done] loop: what was written, the records counted and whether one did
    not fit. *)
Fixpoint format_answers (answers : list RespAnswer) (addr : Z) (resp : list Z) (count : Z)
    : list Z * Z * bool :=
  match answers with
  | [] => (resp, count, false)
  | a :: answers =>
      let count := (count + 1) mod 65536 in
      if no_room resp 10 then (resp, count, true)
      else
        let resp := resp ++ [192; 12] ++ be16 (atype a) ++ be16 1 ++ be32 (ttl a) in
        match format_rdata a addr resp with
        | (resp, true) => (resp, count, true)
        | (resp, false) => format_answers answers addr resp count
        end
  end.

(** Overwriting two bytes. *)
Definition set16 (i : nat) (z : Z) (resp : list Z) : list Z :=
  <[S i := z mod 256]> (<[i := (z / 256) mod 256]> resp).

Definition format_resp_answers (packet : list Z) (strlen : nat) (status : Z)
    (answers : option (list RespAnswer)) (addr : Z) (recursion_available : bool) : list Z :=
  let req := map (get0 packet) in
  let resp := req (List.seq 0 DNS_HEADER_LEN) in
  let resp := alter (Z.lor 128) 2%nat resp in
  let resp := alter (Z.lor (Z.land status 15)) 3%nat resp in
  let resp := if recursion_available then alter (Z.lor 128) 3%nat resp else resp in
  let resp := resp ++ req (List.seq DNS_HEADER_LEN (strlen + 2 + 4)) in
  let resp :=
    match answers with
    | Some answers =>
        if status =? DNS_NO_ERROR then
          let '(resp, count, truncated) := format_answers answers addr resp 0 in
          let resp := if (truncated : bool) then alter (Z.lor 2) 2%nat resp else resp in
          set16 6 count resp
        else resp
    | None => resp
    end in
  let resp := set16 10 1 resp in
  if 11 <? sat_sub DNS_BUF (Z.of_nat (length resp)) then resp ++ DNS_OPT else resp.

(** The dotted text of an address ([ip.to_string()]); the A branch does not read it. *)
Definition ip_string (a : Z) : string :=
  pretty ((a / 16777216) mod 256) +:+ "." +:+ pretty ((a / 65536) mod 256) +:+ "."
    +:+ pretty ((a / 256) mod 256) +:+ "." +:+ pretty (a mod 256).

Definition format_resp (packet : list Z) (strlen : nat) (status : Z) (a_answer : option Z)
    (recursion_available : bool) : list Z :=
  match a_answer with
  | Some a =>
      format_resp_answers packet strlen status
        (Some [mkAnswer NS_T_A DNS_A_TTL 0 0 0 (bytes_of_string (ip_string a))]) a recursion_available
  | None => format_resp_answers packet strlen status None 0 recursion_available
  end.

(** ** The JSON of a proxied query (proxy_resolve/codec.rs) *)

Definition hex_byte (n : Z) : Z := if n <? 10 then 48 + n else 87 + n.

Definition escape_byte (b : Z) : list Z :=
  if b =? 10 then [92; 110] else if b =? 8 then [92; 98] else if b =? 13 then [92; 114]
  else if b =? 9 then [92; 116] else if b =? 92 then [92; 92] else if b =? 34 then [92; 34]
  else if b <? 32 then [92; 117; 48; 48; hex_byte (b / 16); hex_byte (b mod 16)]
  else [b].

Definition escape_json_c (s : list Z) : list Z := concat (map escape_byte s).

(** A string literal with [`] for the double quote. *)
Definition quoted (s : string) : list Z := map (λ b, if b =? 96 then 34 else b) (bytes_of_string s).

Definition emit_dns_message_json (id : Z) (recursive : bool) (name : list Z) (qtype : Z) : list Z :=
  quoted "{`status`:0,`id`:" ++ bytes_of_string (pretty id) ++ quoted ",`recursive`:"
    ++ [if recursive then 49 else 48] ++ quoted ",`question`:[{`name`:`" ++ escape_json_c name
    ++ quoted "`,`type`:" ++ bytes_of_string (pretty qtype) ++ quoted "}]}".

(** ** The router (router.rs) *)

Definition proxied_type (t : Z) : bool := (t =? NS_T_MX) || (t =? NS_T_SRV) || (t =? NS_T_TXT).

Definition handle_query (d : DnsMatcher) (packet : list Z) (upstream_available proxy_available : bool)
    : DnsAction * DnsMatcher :=
  match parse_query packet with
  | None => (Drop, d)
  | Some q =>
      let forwards := upstream_available && recursive q in
      let matched := from_utf8 (take (name_strlen q) (qname q)) in
      let respond status a := Respond (format_resp packet (name_strlen q) status a upstream_available) in
      let forward := ForwardUpstream (format_resp packet (name_strlen q) DNS_REFUSE None true) in
      if (qtype q =? NS_T_A) || (qtype q =? NS_T_AAAA) then
        let '(m, d) := match matched with Some n => lookup_query n d | None => (None, d) end in
        match m with
        | Some m => (respond DNS_NO_ERROR (if qtype q =? NS_T_A then Some (match_ip m) else None), d)
        | None => (if forwards then forward else respond DNS_REFUSE None, d)
        end
      else
        match (n ← matched; matched_domain n d) with
        | Some domain =>
            (if proxy_available then
               if proxied_type (qtype q) then
                 let id := u16_be (get0 packet 0) (get0 packet 1) in
                 ForwardProxy (mkProxyQuery domain id (name_strlen q)
                   (emit_dns_message_json id (recursive q) (take (name_strlen q) (qname q)) (qtype q)))
               else RespondAndConnectProxy
                      (format_resp packet (name_strlen q) DNS_NOT_IMPL None upstream_available) domain
             else if proxied_type (qtype q) then respond DNS_SERVFAIL None
             else respond DNS_NOT_IMPL None, d)
        | None => (if forwards then forward else respond DNS_REFUSE None, d)
        end
  end.

(** ** Specification: queries and replies *)

Definition dotted (labels : list (list Z)) : list Z :=
  match labels with [] => [] | l :: ls => l ++ concat (map (cons 46) ls) end.

Definition encode_labels (labels : list (list Z)) : list Z :=
  concat (map (λ l, Z.of_nat (length l) :: l) labels) ++ [0].

(** A query for one name of class IN. *)
Definition encode_query (id flags : Z) (name : list Z) (qt : Z) : list Z :=
  be16 id ++ be16 flags ++ [0; 1; 0; 0; 0; 0; 0; 0] ++ name ++ be16 qt ++ [0; 1].

Definition label_ok (l : list Z) : Prop := (0 < length l < 256)%nat ∧ 46 ∉ l.

(** The local reply an action carries. *)
Definition reply_of (a : DnsAction) : option (list Z) :=
  match a with
  | Respond r => Some r
  | ForwardUpstream r => Some r
  | RespondAndConnectProxy r _ => Some r
  | Drop => None
  | ForwardProxy _ => None
  end.

(** The question section of a reply. *)
Definition question (packet : list Z) (strlen : nat) : list Z :=
  map (get0 packet) (List.seq DNS_HEADER_LEN (strlen + 2 + 4)).

(** A reply to [packet]: its id, the QR bit, its question echoed, ARCOUNT 1. *)
Definition replies_to (packet : list Z) (strlen : nat) (r : list Z) : Prop :=
  take 2 r = [get0 packet 0; get0 packet 1] ∧ Z.testbit (get0 r 2) 7 = true ∧
  slice 12 (18 + strlen) r = question packet strlen ∧ slice 10 12 r = [0; 1].

(** ** Lemmas: names *)

Lemma position_app_notin c l r : c ∉ l → position c (l ++ r) = (λ n, (length l + n)%nat) <$> position c r.
Proof.
  induction l as [|b l IH]; intros H; cbn; [by destruct (position c r)|].
  apply not_elem_of_cons in H as [Hb H]. rewrite (proj2 (Z.eqb_neq b c)) by done.
  rewrite (IH H). by destruct (position c r).
Qed.

Lemma position_notin c l : c ∉ l → position c l = None.
Proof. intros H. rewrite <-(app_nil_r l), position_app_notin by done. done. Qed.

Lemma format_name_dotted labels fuel :
  labels ≠ [] → Forall label_ok labels → (length labels ≤ fuel)%nat →
  format_name fuel (dotted labels) = encode_labels labels.
Proof.
  intros Hne Hok. revert fuel. induction Hok as [|l ls [Hlen Hdot] Hok IH]; intros fuel Hfuel; [done|].
  destruct fuel as [|fuel]; [cbn in Hfuel; lia|]. cbn [dotted format_name].
  destruct ls as [|l2 ls].
  - cbn [map concat]. rewrite app_nil_r, position_notin by done. cbn [default from_option].
    rewrite Z.mod_small, (proj2 (Z.eqb_neq _ _)) by lia. rewrite Nat2Z.id, firstn_all.
    unfold encode_labels. cbn. by rewrite app_nil_r.
  - change (concat (map (cons 46) (l2 :: ls))) with (46 :: dotted (l2 :: ls)).
    rewrite position_app_notin by done.
    set (k := default _ _). assert (k = length l) as Hk by (subst k; cbn; lia). clearbody k. subst k.
    rewrite Z.mod_small, (proj2 (Z.eqb_neq _ _)) by lia. rewrite Nat2Z.id, take_app_length.
    cbn [position fmap option_fmap option_map]. change (46 =? 46) with true. cbn iota.
    cbn [fmap option_fmap option_map]. rewrite Nat.add_0_r.
    replace (drop (S (length l)) (l ++ 46 :: dotted (l2 :: ls))) with (dotted (l2 :: ls)).
    2:{ replace (S (length l)) with (length l + 1)%nat by lia.
        by rewrite <-drop_drop, drop_app_length. }
    rewrite IH; [|done|cbn in *; lia].
    unfold encode_labels. cbn [map concat]. by rewrite <-!app_assoc.
Qed.

Lemma encode_labels_cons l ls : encode_labels (l :: ls) = Z.of_nat (length l) :: l ++ encode_labels ls.
Proof. unfold encode_labels. cbn. by rewrite <-app_assoc. Qed.

(** ** Lemmas: the label loop *)

Definition join (name : list Z) (labels : list (list Z)) : list Z :=
  foldl (λ n l, (if bool_decide (n = []) then n else n ++ [46]) ++ l) name labels.

Lemma join_more name labels :
  name ≠ [] → join name labels = name ++ concat (map (cons 46) labels).
Proof.
  revert name. induction labels as [|l ls IH]; intros name Hn; cbn; [by rewrite app_nil_r|].
  rewrite bool_decide_false by done. rewrite IH; [by rewrite <-!app_assoc|].
  intros [[? ?]%app_eq_nil ?]%app_eq_nil. done.
Qed.

Lemma join_dotted labels : Forall (λ l, l ≠ []) labels → join [] labels = dotted labels.
Proof. intros H. destruct H as [|l ls Hl H]; [done|]. exact (join_more l ls Hl). Qed.

Lemma parse_labels_encode fuel labels rest name :
  Forall (λ l, 0 < length l < 256)%nat labels → (length labels < fuel)%nat →
  parse_labels fuel (encode_labels labels ++ rest) name = Some (rest, join name labels).
Proof.
  intros H. revert fuel name. induction H as [|l ls Hl H IH]; intros [|fuel] name Hf; cbn in Hf; try lia; [done|].
  rewrite encode_labels_cons. cbn [app parse_labels]. rewrite (proj2 (Z.eqb_neq _ _)) by lia.
  rewrite Nat2Z.id, bool_decide_false by (rewrite !length_app; lia).
  rewrite <-app_assoc, drop_app_length, take_app_length. cbn [join foldl]. apply IH. lia.
Qed.

Lemma parse_labels_sound fuel rest name tail out :
  bytes_ok rest → parse_labels fuel rest name = Some (tail, out) →
  ∃ labels, rest = encode_labels labels ++ tail ∧ Forall (λ l, 0 < length l < 256)%nat labels ∧
    out = join name labels.
Proof.
  revert rest name. induction fuel as [|fuel IH]; intros rest name Hb H; [done|].
  destruct rest as [|len rest]; [done|]. cbn in H. apply Forall_cons in Hb as [Hlen Hb].
  destruct (len =? 0) eqn:E.
  - apply Z.eqb_eq in E. injection H as <- <-. subst len. exists []. done.
  - apply Z.eqb_neq in E. destruct (decide (length rest < Z.to_nat len)%nat) as [?|Hr];
      [by rewrite bool_decide_true in H by done|]. rewrite bool_decide_false in H by done.
    apply IH in H as (labels & Hrest & Hok & Hout); [|by apply Forall_drop].
    set (l := take (Z.to_nat len) rest) in *.
    assert (Hl : length l = Z.to_nat len) by (subst l; rewrite length_take; lia).
    unfold byte_ok in Hlen. exists (l :: labels). split_and!.
    + rewrite encode_labels_cons, Hl, Z2Nat.id by lia. cbn. rewrite <-app_assoc, <-Hrest. subst l.
      by rewrite take_drop.
    + constructor; [lia|done].
    + cbn. exact Hout.
Qed.

Lemma c_strlen_le bs : (c_strlen bs ≤ length bs)%nat.
Proof.
  unfold c_strlen. induction bs as [|b bs IH]; cbn; [lia|].
  destruct (b =? 0); cbn; [lia|]. destruct (position 0 bs); cbn in *; lia.
Qed.

Lemma length_dotted labels :
  labels ≠ [] → length (encode_labels labels) = (length (dotted labels) + 2)%nat.
Proof.
  destruct labels as [|l ls]; [done|]. intros _. rewrite encode_labels_cons. cbn [dotted length].
  rewrite !length_app. enough (length (encode_labels ls) = S (length (concat (map (cons 46) ls)))) by lia.
  induction ls as [|k ks IH]; [done|]. rewrite encode_labels_cons. cbn. rewrite !length_app. lia.
Qed.

Lemma be16_u16 hi lo : byte_ok hi → byte_ok lo → be16 (u16_be hi lo) = [hi; lo].
Proof.
  unfold byte_ok, be16, u16_be. intros. rewrite Z.div_add_l, (Z.div_small lo), Z.add_0_r by lia.
  rewrite Z.mod_small by lia. rewrite Z.add_comm, Z.mod_add, Z.mod_small by lia. done.
Qed.

Lemma u16_be16 z : 0 <= z < 65536 → u16_be ((z / 256) mod 256) (z mod 256) = z.
Proof.
  intros H. unfold u16_be. rewrite (Z.mod_small (z / 256)).
  - rewrite Z.mul_comm. symmetry. apply Z.div_mod. lia.
  - split; [apply Z.div_pos; lia|apply Z.div_lt_upper_bound; lia].
Qed.

Lemma length_encode_query id flags name qt : length (encode_query id flags name qt) = (16 + length name)%nat.
Proof. unfold encode_query. rewrite !length_app. cbn. lia. Qed.

Lemma parse_query_encode id flags labels qt rest :
  Forall (λ l, 0 < length l < 256)%nat labels → 0 <= flags < 65536 → Z.land flags 32768 = 0 → 0 <= qt < 65536 →
  Z.of_nat (length (encode_query id flags (encode_labels labels) qt ++ rest)) <= DNS_BUF →
  parse_query (encode_query id flags (encode_labels labels) qt ++ rest)
    = Some (mkQuery (negb (Z.land flags 256 =? 0)) qt (dotted labels) (c_strlen (dotted labels))).
Proof.
  intros Hl Hf Hqr Hqt Hlen. unfold parse_query.
  rewrite length_app, length_encode_query in *. change (Z.of_nat DNS_HEADER_LEN) with 12.
  rewrite (proj2 (Z.ltb_ge _ 12)), (proj2 (Z.ltb_ge DNS_BUF _)) by lia. cbn [orb].
  unfold encode_query. rewrite <-!app_assoc.
  change (drop DNS_HEADER_LEN (be16 id ++ be16 flags ++ [0; 1; 0; 0; 0; 0; 0; 0] ++ ?t)) with t.
  change (get0 (be16 id ++ be16 flags ++ ?t) 2) with ((flags / 256) mod 256).
  change (get0 (be16 id ++ be16 flags ++ ?t) 3) with (flags mod 256).
  rewrite u16_be16, Hqr by done.
  change (get0 (be16 id ++ be16 flags ++ [0; 1; 0; 0; 0; 0; 0; 0] ++ ?t) 4) with 0.
  change (get0 (be16 id ++ be16 flags ++ [0; 1; 0; 0; 0; 0; 0; 0] ++ ?t) 5) with 1.
  change (negb (0 =? 0)) with false. change (negb (u16_be 0 1 =? 1)) with false. cbn iota.
  rewrite (parse_labels_encode _ labels); [|done|].
  2:{ enough (length labels < length (encode_labels labels))%nat by lia. clear -Hl.
      induction Hl as [|l ls Hl _ IH]; [cbn; lia|]. rewrite encode_labels_cons. cbn. rewrite length_app. lia. }
  rewrite join_dotted by (eapply Forall_impl; [exact Hl|]; intros [|]; cbn; [lia|done]).
  cbn [mbind option_bind be16 app]. change (negb (u16_be 0 1 =? 1)) with false. cbn iota.
  by rewrite u16_be16.
Qed.

(** ** Lemmas: the layout of a response *)

Lemma format_rdata_app a addr r : ∃ ext, (format_rdata a addr r).1 = r ++ ext.
Proof.
  assert (Hnil : ∃ ext, r = r ++ ext) by (exists []; by rewrite app_nil_r).
  unfold format_rdata. repeat case_if; cbn; rewrite <-?app_assoc; eauto.
Qed.

Lemma format_answers_app answers addr r c : ∃ ext, (format_answers answers addr r c).1.1 = r ++ ext.
Proof.
  revert r c. induction answers as [|a answers IH]; intros r c; cbn; [exists []; by rewrite app_nil_r|].
  destruct (no_room r 10); [exists []; by rewrite app_nil_r|].
  match goal with |- context [format_rdata a addr ?r'] =>
    pose proof (format_rdata_app a addr r') as [ext He]; destruct (format_rdata a addr r') as [r2 []] end;
    cbn in *; subst r2.
  - rewrite <-!app_assoc. eauto.
  - match goal with |- context [format_answers answers addr ?r2 ?c2] => destruct (IH r2 c2) as [ext' He] end.
    rewrite He. rewrite <-!app_assoc. eauto.
Qed.

(** The header of a response; [h2], [h6] and [h7] depend on the answers and [ar]
    is the additional count. *)
Definition resp_header (packet : list Z) (status : Z) (ra : bool) (h2 h6 h7 : Z) (ar : list Z) : list Z :=
  let g := get0 packet in
  [g 0%nat; g 1%nat; h2;
   (if ra then Z.lor 128 (Z.lor (Z.land status 15) (g 3%nat)) else Z.lor (Z.land status 15) (g 3%nat));
   g 4%nat; g 5%nat; h6; h7; g 8%nat; g 9%nat] ++ ar.

Definition with_opt (r : list Z) : list Z := if 11 <? sat_sub DNS_BUF (Z.of_nat (length r)) then r ++ DNS_OPT else r.

(** The part before the OPT record, with and without answers. *)
Lemma format_resp_answers_none packet n status answers addr ra :
  answers = None ∨ status ≠ DNS_NO_ERROR →
  format_resp_answers packet n status answers addr ra
    = with_opt (resp_header packet status ra (Z.lor 128 (get0 packet 2)) (get0 packet 6) (get0 packet 7) [0; 1]
        ++ question packet n).
Proof.
  intros H. unfold format_resp_answers.
  assert (E : ∀ r, match answers with
    | Some answers => if status =? DNS_NO_ERROR then
        let '(resp, count, truncated) := format_answers answers addr r 0 in
        let resp := if (truncated : bool) then alter (Z.lor 2) 2%nat resp else resp in set16 6 count resp
        else r
    | None => r end = r).
  { intros r. destruct answers; [|done]. destruct H as [H|H]; [done|]. by rewrite (proj2 (Z.eqb_neq _ _)). }
  rewrite E. by destruct ra.
Qed.

Lemma format_resp_answers_some packet n answers addr ra :
  let base := resp_header packet DNS_NO_ERROR ra (Z.lor 128 (get0 packet 2)) (get0 packet 6) (get0 packet 7)
    [get0 packet 10; get0 packet 11] ++ question packet n in
  let '(_, count, truncated) := format_answers answers addr base 0 in
  ∀ ext, (format_answers answers addr base 0).1.1 = base ++ ext →
  format_resp_answers packet n DNS_NO_ERROR (Some answers) addr ra
    = with_opt (resp_header packet DNS_NO_ERROR ra
        (if truncated then Z.lor 2 (Z.lor 128 (get0 packet 2)) else Z.lor 128 (get0 packet 2))
        ((count / 256) mod 256) (count mod 256) [0; 1] ++ question packet n ++ ext).
Proof.
  intros base. destruct (format_answers answers addr base 0) as [[r count] t] eqn:E. cbn [fst]. intros ext ->.
  unfold format_resp_answers. change (DNS_NO_ERROR =? DNS_NO_ERROR) with true.
  match goal with |- context [format_answers answers addr ?b 0] =>
    replace b with base by (unfold base, resp_header; destruct ra; reflexivity) end.
  rewrite E. unfold base. rewrite <-app_assoc. destruct t, ra; reflexivity.
Qed.

Lemma with_opt_app r : ∃ ext, with_opt r = r ++ ext.
Proof. unfold with_opt. case_if; [eauto|]. exists []. by rewrite app_nil_r. Qed.

Lemma testbit_qr b : Z.testbit (Z.lor 128 b) 7 = true.
Proof. by rewrite Z.lor_spec. Qed.

(** Whatever the answers, the reply is a header, the question and a tail. *)
Lemma format_resp_answers_layout packet n status answers addr ra :
  ∃ h2 h6 h7 ext, Z.testbit h2 7 = true ∧
    format_resp_answers packet n status answers addr ra
      = resp_header packet status ra h2 h6 h7 [0; 1] ++ question packet n ++ ext.
Proof.
  destruct (decide (answers = None ∨ status ≠ DNS_NO_ERROR)) as [H|H].
  - rewrite format_resp_answers_none by done.
    match goal with |- context [with_opt ?r] => destruct (with_opt_app r) as [ext ->] end.
    rewrite <-app_assoc. do 4 eexists. split; [|done]. apply testbit_qr.
  - destruct (decide (status = DNS_NO_ERROR)) as [->|?]; [|tauto]. destruct answers as [answers|]; [|tauto].
    pose proof (format_resp_answers_some packet n answers addr ra) as Hr. cbn zeta in Hr.
    match type of Hr with context [format_answers answers addr ?b 0] =>
      destruct (format_answers_app answers addr b 0) as [ext He]; destruct (format_answers answers addr b 0)
        as [[r c] t] end.
    rewrite (Hr ext He). match goal with |- context [with_opt ?r] => destruct (with_opt_app r) as [ext' ->] end.
    rewrite <-!app_assoc. do 4 eexists. split; [|done].
    destruct t; [rewrite Z.lor_spec, testbit_qr; by rewrite orb_true_r|apply testbit_qr].
Qed.

Lemma length_question packet n : length (question packet n) = (n + 6)%nat.
Proof. unfold question. rewrite length_map, length_seq. lia. Qed.

Lemma format_resp_answers_replies packet n status answers addr ra :
  replies_to packet n (format_resp_answers packet n status answers addr ra).
Proof.
  destruct (format_resp_answers_layout packet n status answers addr ra) as (h2 & h6 & h7 & ext & Hbit & ->).
  split_and!; [done|exact Hbit| |done]. unfold slice.
  change (drop 12 (resp_header packet status ra h2 h6 h7 [0; 1] ++ ?t)) with t.
  replace (18 + n - 12)%nat with (length (question packet n)) by (rewrite length_question; lia).
  apply take_app_length.
Qed.

Lemma byte_ok_land z : byte_ok z ↔ Z.land z 255 = z.
Proof.
  change 255 with (Z.ones 8). rewrite Z.land_ones by done. unfold byte_ok. change (2 ^ 8) with 256.
  split; intros H; [by apply Z.mod_small|]. rewrite <-H. apply Z.mod_pos_bound. lia.
Qed.

Lemma byte_ok_lor a b : byte_ok a → byte_ok b → byte_ok (Z.lor a b).
Proof. rewrite !byte_ok_land, Z.land_lor_distr_l. congruence. Qed.

Lemma byte_ok_nibble z : byte_ok (Z.land z 15).
Proof.
  change 15 with (Z.ones 4). rewrite Z.land_ones by done. change (2 ^ 4) with 16.
  pose proof (Z.mod_pos_bound z 16). unfold byte_ok. lia.
Qed.

Lemma get0_ok bs i : bytes_ok bs → byte_ok (get0 bs i).
Proof.
  intros H. unfold get0. destruct (nth_in_or_default i bs 0) as [Hin| ->]; [|unfold byte_ok; lia].
  by eapply List.Forall_forall in Hin.
Qed.

Lemma qr_dropped r : byte_ok (get0 r 3) → Z.testbit (get0 r 2) 7 = true → parse_query r = None.
Proof.
  intros Hb Hbit. unfold parse_query. case_if; [done|].
  enough (Z.land (u16_be (get0 r 2) (get0 r 3)) 32768 ≠ 0) as H by (apply Z.eqb_neq in H; by rewrite H).
  intros H. apply (f_equal (λ z, Z.testbit z 15)) in H. rewrite Z.land_spec, Z.bits_0 in H.
  change (Z.testbit 32768 15) with true in H. rewrite andb_true_r in H. unfold byte_ok in Hb.
  change 15 with (7 + 8) in H. rewrite <-Z.div_pow2_bits in H by lia. unfold u16_be in H.
  change (2 ^ 8) with 256 in H. rewrite Z.div_add_l, Z.div_small, Z.add_0_r in H by lia. congruence.
Qed.

Lemma reply_dropped packet n status answers addr ra :
  bytes_ok packet → parse_query (format_resp_answers packet n status answers addr ra) = None.
Proof.
  intros Hb. destruct (format_resp_answers_layout packet n status answers addr ra) as (h2 & h6 & h7 & ext & Hbit & ->).
  apply qr_dropped; [|exact Hbit]. pose proof (get0_ok packet 3 Hb) as H3. pose proof (byte_ok_nibble status) as Hs.
  assert (byte_ok 128) by (unfold byte_ok; lia). cbn. destruct ra; repeat apply byte_ok_lor; done.
Qed.

(** ** Lemmas: sizes *)

Lemma with_opt_length r b :
  DNS_BUF <= b → Z.of_nat (length r) <= b → Z.of_nat (length (with_opt r)) <= b.
Proof.
  intros Hb H. unfold with_opt. destruct (11 <? _) eqn:E; [|done]. apply Z.ltb_lt in E. unfold sat_sub in E.
  rewrite length_app. change (length DNS_OPT) with 11%nat. lia.
Qed.

Lemma no_room_false r k : no_room r k = false → 0 < k → Z.of_nat (length r) + k <= DNS_BUF.
Proof. unfold no_room, sat_sub. intros H. apply Z.ltb_ge in H. lia. Qed.

Lemma position_lt c l d : position c l = Some d → (d < length l)%nat.
Proof.
  revert d. induction l as [|b l IH]; intros d H; [done|]. cbn in *. destruct (b =? c); [injection H; lia|].
  destruct (position c l); [|done]. injection H as <-. specialize (IH n eq_refl). lia.
Qed.

Lemma format_name_length fuel np : (length (format_name fuel np) ≤ length np + 2)%nat.
Proof.
  revert np. induction fuel as [|fuel IH]; intros np; cbn; [lia|]. case_if; cbn; [lia|].
  rewrite length_app. destruct (position 46 np) as [d|] eqn:E; cbn in *; rewrite length_take.
  - specialize (IH (drop (S d) np)). rewrite length_drop in IH. apply position_lt in E.
    pose proof (Z.mod_le (Z.of_nat d) 256). lia.
  - lia.
Qed.

Lemma c_str_length bs : (length (c_str bs) ≤ length bs)%nat.
Proof. unfold c_str. rewrite length_take. lia. Qed.

Lemma format_rdata_length a addr r :
  Z.of_nat (length (data a)) < 65535 → Z.of_nat (length r) <= DNS_BUF →
  Z.of_nat (length (format_rdata a addr r).1) <= (if (format_rdata a addr r).2 then 4098 else 4097).
Proof.
  intros Hd Hr. pose proof (c_str_length (data a)) as Hc. unfold DNS_BUF in Hr.
  pose proof (format_name_length (S (length (c_str (data a)))) (c_str (data a))) as Hn.
  set (d := c_str (data a)) in *. fold (format_name_all d) in Hn.
  assert (He : Z.of_nat (length d) mod 65536 = Z.of_nat (length d)) by (apply Z.mod_small; lia).
  unfold format_rdata. fold d. rewrite He, !(Z.mod_small (_ + 1)) by lia.
  case_if; [|case_if; [|case_if; [|case_if; [|cbn; lia]]]].
  all: destruct (no_room r _) eqn:E; [cbn [fst snd]; rewrite ?length_app; cbn [length]; lia|].
  all: apply no_room_false in E; [unfold DNS_BUF in E|lia].
  all: cbn [fst snd]; rewrite !length_app; cbn [length]; rewrite ?length_app, ?length_take; unfold be32;
    rewrite ?length_app; cbn [length be16]; lia.
Qed.

Lemma format_answers_length answers addr r c :
  Forall (λ a, Z.of_nat (length (data a)) < 65535) answers → Z.of_nat (length r) <= 4098 →
  Z.of_nat (length (format_answers answers addr r c).1.1) <= 4098.
Proof.
  intros H. revert r c. induction H as [|a answers Ha H IH]; intros r c Hr; [done|]. cbn.
  destruct (no_room r 10) eqn:E; [done|]. apply no_room_false in E; [|lia].
  match goal with |- context [format_rdata a addr ?r2] => pose proof (format_rdata_length a addr r2 Ha) as Hl;
    destruct (format_rdata a addr r2) as [r3 t] end.
  rewrite length_app in Hl. cbn in Hl. specialize (Hl ltac:(lia)). destruct t; [done|]. apply IH. cbn in Hl. lia.
Qed.

Lemma length_resp_header packet status ra h2 h6 h7 ar :
  length (resp_header packet status ra h2 h6 h7 ar) = (10 + length ar)%nat.
Proof. done. Qed.

Lemma format_resp_answers_bound packet n status answers addr ra :
  Z.of_nat n + 18 <= DNS_BUF →
  match answers with Some l => Forall (λ a, Z.of_nat (length (data a)) < 65535) l | None => True end →
  Z.of_nat (length (format_resp_answers packet n status answers addr ra)) <= 4098.
Proof.
  intros Hn Ha. unfold DNS_BUF in Hn.
  destruct (decide (answers = None ∨ status ≠ DNS_NO_ERROR)) as [H|H].
  - rewrite format_resp_answers_none by done. apply with_opt_length; [done|].
    rewrite length_app, length_resp_header, length_question. cbn. lia.
  - destruct (decide (status = DNS_NO_ERROR)) as [->|?]; [|tauto]. destruct answers as [answers|]; [|tauto].
    pose proof (format_resp_answers_some packet n answers addr ra) as Hr. cbn zeta in Hr.
    match type of Hr with context [format_answers answers addr ?b 0] =>
      destruct (format_answers_app answers addr b 0) as [ext He];
      pose proof (format_answers_length answers addr b 0 Ha) as Hl;
      destruct (format_answers answers addr b 0) as [[r c] t] end.
    rewrite (Hr ext He). apply with_opt_length; [done|]. cbn [fst] in *. subst r.
    rewrite !length_app, !length_resp_header, !length_question in *. cbn [length] in *. lia.
Qed.

(** The answer section with one A record. *)
Lemma format_answers_A r d addr :
  format_answers [mkAnswer NS_T_A DNS_A_TTL 0 0 0 d] addr r 0 =
    let pre := r ++ [192; 12; 0; 1; 0; 1; 0; 0; 0; 60] in
    if no_room r 10 then (r, 1, true) else if no_room pre 6 then (pre, 1, true)
    else (pre ++ [0; 4] ++ be32 addr, 1, false).
Proof.
  unfold format_answers. destruct (no_room r 10); [done|].
  change (be16 (atype (mkAnswer NS_T_A DNS_A_TTL 0 0 0 d))) with [0; 1].
  change (be16 1) with [0; 1]. change (be32 (ttl (mkAnswer NS_T_A DNS_A_TTL 0 0 0 d))) with [0; 0; 0; 60].
  unfold format_rdata. cbn [atype]. change (NS_T_A =? NS_T_A) with true. cbn iota zeta.
  change ([192; 12] ++ [0; 1] ++ [0; 1] ++ [0; 0; 0; 60]) with [192; 12; 0; 1; 0; 1; 0; 0; 0; 60].
  change (2 + 4) with 6. by destruct (no_room (r ++ _) 6).
Qed.


Lemma format_resp_bound packet n status a ra :
  Z.of_nat n + 18 <= DNS_BUF → Z.of_nat (length (format_resp packet n status a ra)) <= DNS_BUF.
Proof.
  intros Hn. unfold format_resp.
  assert (Hb : ∀ h2 h6 h7 ar, length ar = 2%nat →
    Z.of_nat (length (resp_header packet status ra h2 h6 h7 ar ++ question packet n)) <= DNS_BUF).
  { intros h2 h6 h7 ar Har. rewrite length_app, length_resp_header, length_question, Har. lia. }
  destruct a as [a|].
  2:{ rewrite format_resp_answers_none by tauto. apply with_opt_length; [done|]. by apply Hb. }
  destruct (decide (status = DNS_NO_ERROR)) as [->|Hs].
  2:{ rewrite format_resp_answers_none by tauto. apply with_opt_length; [done|]. by apply Hb. }
  match goal with |- context [format_resp_answers _ _ _ (Some ?l) _ _] =>
    pose proof (format_resp_answers_some packet n l a ra) as Hr end.
  cbn zeta in Hr. rewrite format_answers_A in Hr. cbn zeta in Hr.
  set (base := resp_header _ _ _ _ _ _ _ ++ _) in Hr.
  assert (Hbase : Z.of_nat (length base) <= DNS_BUF) by by apply Hb.
  assert (Hlen : ∀ h2 h6 h7 ext, length (resp_header packet DNS_NO_ERROR ra h2 h6 h7 [0; 1] ++ question packet n ++ ext)
    = length (base ++ ext)) by (intros; unfold base; by rewrite !length_app).
  destruct (no_room base 10) eqn:E1; [|destruct (no_room (base ++ _) 6) eqn:E2].
  - rewrite (Hr [] (eq_sym (app_nil_r _))). apply with_opt_length; [done|]. by rewrite Hlen, app_nil_r.
  - rewrite (Hr _ eq_refl). apply with_opt_length; [done|]. rewrite Hlen.
    apply no_room_false in E1; [|lia]. rewrite length_app. cbn [length]. lia.
  - rewrite (Hr _ (eq_sym (app_assoc _ _ _))). apply with_opt_length; [done|]. rewrite Hlen.
    apply no_room_false in E2; [|lia]. rewrite app_assoc, length_app. change (length ([0; 4] ++ be32 a)) with 6%nat. lia.
Qed.

Lemma format_resp_A packet n a ra :
  Z.of_nat n + 45 < DNS_BUF →
  format_resp packet n DNS_NO_ERROR (Some a) ra
    = resp_header packet DNS_NO_ERROR ra (Z.lor 128 (get0 packet 2)) 0 1 [0; 1] ++ question packet n
      ++ [192; 12; 0; 1; 0; 1; 0; 0; 0; 60; 0; 4] ++ be32 a ++ DNS_OPT.
Proof.
  intros Hn. unfold format_resp, DNS_BUF in *.
  match goal with |- context [format_resp_answers _ _ _ (Some ?l) _ _] =>
    pose proof (format_resp_answers_some packet n l a ra) as Hr end.
  cbn zeta in Hr. rewrite format_answers_A in Hr. cbn zeta in Hr.
  set (base := resp_header _ _ _ _ _ _ _ ++ _) in Hr.
  assert (Hbase : length base = (n + 18)%nat)
    by (unfold base; rewrite length_app, length_resp_header, length_question; cbn; lia).
  assert (Hroom : ∀ r k, 0 < k → Z.of_nat (length r) + k <= 4096 → no_room r k = false).
  { intros r k Hk Hr'. unfold no_room, sat_sub, DNS_BUF. apply Z.ltb_ge. lia. }
  rewrite !Hroom in Hr by (rewrite ?length_app, ?Hbase; cbn [length]; lia).
  rewrite (Hr _ (eq_sym (app_assoc _ _ _))). unfold with_opt, sat_sub, DNS_BUF.
  rewrite (proj2 (Z.ltb_lt 11 _)).
  - change ((1 / 256) mod 256) with 0. change (1 mod 256) with 1. by rewrite <-!app_assoc.
  - rewrite !length_app, length_resp_header, length_question. cbn [length be32 be16 app]. lia.
Qed.

Lemma parse_query_inv packet q :
  bytes_ok packet → parse_query packet = Some q →
  12 <= Z.of_nat (length packet) <= DNS_BUF ∧
  ∃ labels rest, Forall (λ l, 0 < length l < 256)%nat labels ∧ qname q = dotted labels ∧
    drop DNS_HEADER_LEN packet = encode_labels labels ++ be16 (qtype q) ++ [0; 1] ++ rest.
Proof.
  intros Hb H. unfold parse_query in H.
  destruct (_ || _) eqn:E; [done|]. apply orb_false_iff in E as [E1%Z.ltb_ge E2%Z.ltb_ge].
  change (Z.of_nat DNS_HEADER_LEN) with 12 in E1. split; [done|]. clear E1 E2.
  do 2 (case_if; [done|]). pose proof (Forall_drop byte_ok DNS_HEADER_LEN packet Hb) as Hd.
  destruct (parse_labels _ _ _) as [[tail name]|] eqn:El; [|done].
  apply parse_labels_sound in El as (labels & Hrest & Hok & ->); [|done].
  cbn [mbind option_bind] in H. destruct tail as [|t0 [|t1 [|c0 [|c1 rest]]]]; try done.
  rewrite Hrest in Hd. apply Forall_app in Hd as [_ Hd]. do 4 (apply Forall_cons in Hd as [? Hd]).
  destruct (u16_be c0 c1 =? 1) eqn:Ec; [|done]. cbn in H. apply Z.eqb_eq in Ec. injection H as <-. cbn [qname qtype].
  exists labels, rest. split_and!; [done| |].
  - rewrite join_dotted; [done|]. eapply Forall_impl; [exact Hok|]. intros [|]; cbn; [lia|done].
  - rewrite Hrest, be16_u16 by done. unfold u16_be, byte_ok in *. assert (c0 = 0 ∧ c1 = 1) as [-> ->] by lia. done.
Qed.

Lemma name_strlen_eq packet q : parse_query packet = Some q → name_strlen q = c_strlen (qname q).
Proof.
  unfold parse_query. intros H. do 3 (case_if; [done|]). destruct (parse_labels _ _ _) as [[tail name]|]; [|done].
  cbn [mbind option_bind] in H. destruct tail as [|? [|? [|? [|? ?]]]]; try done. case_if; [done|].
  by injection H as <-.
Qed.

Lemma strlen_bound packet q :
  bytes_ok packet → parse_query packet = Some q → Z.of_nat (name_strlen q) + 18 <= DNS_BUF.
Proof.
  intros Hb H. rewrite (name_strlen_eq packet q H). destruct (parse_query_inv packet q Hb H) as ([_ Hlen] & labels & rest & _ & Hn & Hd).
  apply (f_equal length) in Hd. rewrite length_drop, !length_app in Hd. cbn [length be16] in Hd.
  pose proof (c_strlen_le (qname q)) as Hc. rewrite Hn in *. unfold DNS_BUF, DNS_HEADER_LEN in *.
  destruct labels as [|l ls]; [cbn in *; lia|]. rewrite length_dotted in Hd by done. lia.
Qed.

Lemma land_pow2_testbit z k : 0 <= k → negb (Z.land z (2 ^ k) =? 0) = Z.testbit z k.
Proof.
  intros Hk. enough (Z.land z (2 ^ k) = if Z.testbit z k then 2 ^ k else 0) as ->.
  { pose proof (Z.pow_pos_nonneg 2 k). destruct (Z.testbit z k); [|done]. apply negb_true_iff, Z.eqb_neq. lia. }
  apply Z.bits_inj'. intros i Hi. rewrite Z.land_spec, Z.pow2_bits_eqb by done.
  destruct (Z.eqb_spec k i) as [<-|?].
  - destruct (Z.testbit z k); cbn; [by rewrite Z.pow2_bits_true|by rewrite Z.bits_0].
  - rewrite andb_false_r. destruct (Z.testbit z k); [|by rewrite Z.bits_0]. by rewrite Z.pow2_bits_false.
Qed.

Lemma label_count_dotted labels :
  Forall label_ok labels → (length labels ≤ S (length (dotted labels)))%nat.
Proof.
  intros H. destruct H as [|l ls _ H]; [cbn; lia|]. cbn. rewrite length_app.
  enough (length ls ≤ length (concat (map (cons 46%Z) ls)))%nat by lia.
  induction H; cbn; rewrite ?length_app; lia.
Qed.

(** ** Properties *)

(** Wire names: for all labels of 1 to 255 bytes the parser reads a query
    for them back (type, RD flag and dotted name, whatever follows the question),
    and if no label holds a dot the serializer writes the dotted name back as the
    same labels. *)
Theorem query_name_roundtrip (id flags : Z) (labels : list (list Z)) (qt : Z) (rest : list Z) :
  Forall (λ l, 0 < length l < 256)%nat labels → 0 <= flags < 32768 → 0 <= qt < 65536 →
  Z.of_nat (length (encode_query id flags (encode_labels labels) qt ++ rest)) <= DNS_BUF →
  parse_query (encode_query id flags (encode_labels labels) qt ++ rest)
    = Some (mkQuery (Z.testbit flags 8) qt (dotted labels) (c_strlen (dotted labels))) ∧
  (Forall label_ok labels → format_name_all (dotted labels) = encode_labels labels).
Proof.
  intros Hl Hf Hqt Hlen. split.
  - assert (Hqr : Z.land flags 32768 = 0).
    { pose proof (land_pow2_testbit flags 15) as H. change (2 ^ 15) with 32768 in H.
      rewrite (proj2 (Z.testbit_false flags 15 ltac:(lia))) in H;
        [apply Z.eqb_eq, negb_false_iff, H; lia|by rewrite Z.div_small by (change (2 ^ 15) with 32768; lia)]. }
    rewrite parse_query_encode by (done || lia). pose proof (land_pow2_testbit flags 8 ltac:(lia)) as H.
    change (2 ^ 8) with 256 in H. by rewrite H.
  - intros Hok. destruct labels as [|l ls]; [done|]. apply format_name_dotted; [done|done|].
    by apply label_count_dotted.
Qed.

(** Only such packets are queries: what the parser accepts is a header of
    at most 4096 bytes in all, and a question of class IN with the parsed type
    and name; so its name cannot overrun the response buffer. *)
Theorem parse_query_sound (packet : list Z) (q : ParsedQuery) :
  bytes_ok packet → parse_query packet = Some q →
  12 <= Z.of_nat (length packet) <= DNS_BUF ∧ Z.of_nat (name_strlen q) + 18 <= DNS_BUF ∧
  ∃ labels rest, Forall (λ l, 0 < length l < 256)%nat labels ∧ qname q = dotted labels ∧
    drop DNS_HEADER_LEN packet = encode_labels labels ++ be16 (qtype q) ++ [0; 1] ++ rest.
Proof.
  intros Hb H. destruct (parse_query_inv packet q Hb H) as [Hlen Hq].
  split; [exact Hlen|]. split; [by eapply strlen_bound|exact Hq].
Qed.

(** Every packet a query is answered with: it carries the query's id, the
    QR bit, one additional record, and echoes its question; it is at most 4096
    bytes; and the server itself drops such a packet, so that two servers never
    answer each other.  Nothing else is sent than this, or a proxied query. *)
Theorem handle_query_replies (d : DnsMatcher) (packet : list Z) (upstream proxy : bool) :
  bytes_ok packet →
  match reply_of (handle_query d packet upstream proxy).1 with
  | Some r =>
      ∃ q, parse_query packet = Some q ∧ replies_to packet (name_strlen q) r ∧
        Z.of_nat (length r) <= DNS_BUF ∧
        ∀ d' u p, handle_query d' r u p = (Drop, d')
  | None =>
      parse_query packet = None ∧ handle_query d packet upstream proxy = (Drop, d) ∨
      ∃ q, (handle_query d packet upstream proxy).1 = ForwardProxy q ∧ proxy = true
  end.
Proof.
  intros Hb.
  assert (Hall : ∀ q status a ra, parse_query packet = Some q →
    ∃ q', Some q = Some q' ∧ replies_to packet (name_strlen q') (format_resp packet (name_strlen q) status a ra) ∧
      Z.of_nat (length (format_resp packet (name_strlen q) status a ra)) <= DNS_BUF ∧
      ∀ d' u p, handle_query d' (format_resp packet (name_strlen q) status a ra) u p = (Drop, d')).
  { intros q status a ra Hq. exists q. split_and!; [done| | |].
    - destruct a; apply format_resp_answers_replies.
    - apply format_resp_bound. by eapply strlen_bound.
    - intros. unfold handle_query. by replace (parse_query (format_resp _ _ _ _ _)) with (@None ParsedQuery)
        by (symmetry; destruct a; by apply reply_dropped). }
  remember (handle_query d packet upstream proxy) as r eqn:Hr. unfold handle_query in Hr.
  destruct (parse_query packet) as [q|] eqn:Hq; [|subst r; by left].
  destruct ((qtype q =? NS_T_A) || _).
  - destruct (match from_utf8 _ with Some n => _ | None => _ end) as [[m|] d']; [subst r; by apply Hall|].
    subst r. case_if; by apply Hall.
  - destruct (_ ≫= _) as [dom|]; [|subst r; case_if; by apply Hall].
    destruct proxy, (proxied_type _); subst r; try (by apply Hall). right. eexists. split; reflexivity.
Qed.

(** An A query for a name the matcher answers (a name of up to 4050 bytes):
    the response, byte by byte, is the header with the QR and (with an upstream)
    RA bits, ANCOUNT and ARCOUNT 1, the question echoed, one A record of the
    name's address with TTL 60, and the OPT record; and the matcher keeps what
    the lookup registered. *)
Theorem handle_query_address (d d' : DnsMatcher) (packet : list Z) (upstream proxy : bool)
    (q : ParsedQuery) (n : string) (m : DnsMatch) :
  parse_query packet = Some q → qtype q = NS_T_A → Z.of_nat (name_strlen q) + 45 < DNS_BUF →
  from_utf8 (take (name_strlen q) (qname q)) = Some n → lookup_query n d = (Some m, d') →
  handle_query d packet upstream proxy =
    (Respond (resp_header packet DNS_NO_ERROR upstream (Z.lor 128 (get0 packet 2)) 0 1 [0; 1]
        ++ question packet (name_strlen q)
        ++ [192; 12; 0; 1; 0; 1; 0; 0; 0; 60; 0; 4] ++ be32 (match_ip m) ++ DNS_OPT), d').
Proof.
  intros Hq Ht Hlen Hn Hm. unfold handle_query. rewrite Hq, Ht, Hn, Hm.
  change ((NS_T_A =? NS_T_A) || (NS_T_A =? NS_T_AAAA)) with true. change (NS_T_A =? NS_T_A) with true.
  cbn iota. by rewrite format_resp_A.
Qed.

(** What a query's name matches, by its type. *)
Definition matched_name (d : DnsMatcher) (q : ParsedQuery) : Prop :=
  ∃ n, from_utf8 (take (name_strlen q) (qname q)) = Some n ∧
    if (qtype q =? NS_T_A) || (qtype q =? NS_T_AAAA) then is_Some (lookup_query n d).1
    else is_Some (matched_domain n d).

(** No name of the overlay leaks: a query is forwarded to the upstream
    resolver only if there is one, recursion is desired and the name is none of
    the matcher's; the proxy is asked only about MX, SRV and TXT records of a
    matched wildcard domain, with the query's id; and a query no name of the
    matcher's answers and that is not forwarded is refused. *)
Theorem handle_query_routes (d : DnsMatcher) (packet : list Z) (upstream proxy : bool) (q : ParsedQuery) :
  parse_query packet = Some q →
  match (handle_query d packet upstream proxy).1 with
  | ForwardUpstream _ => upstream = true ∧ recursive q = true ∧ ¬ matched_name d q
  | ForwardProxy pq =>
      proxy = true ∧ proxied_type (qtype q) = true ∧ pq_id pq = u16_be (get0 packet 0) (get0 packet 1) ∧
      ∃ n, from_utf8 (take (name_strlen q) (qname q)) = Some n ∧ matched_domain n d = Some (pq_domain pq)
  | RespondAndConnectProxy _ domain =>
      proxy = true ∧ proxied_type (qtype q) = false ∧
      ∃ n, from_utf8 (take (name_strlen q) (qname q)) = Some n ∧ matched_domain n d = Some domain
  | Respond r =>
      matched_name d q ∨
      (upstream && recursive q = false ∧ r = format_resp packet (name_strlen q) DNS_REFUSE None upstream)
  | Drop => False
  end.
Proof.
  intros Hq. unfold handle_query, matched_name. rewrite Hq.
  destruct ((qtype q =? NS_T_A) || (qtype q =? NS_T_AAAA)) eqn:Et.
  - destruct (from_utf8 _) as [n|] eqn:En.
    + destruct (lookup_query n d) as [[m|] d'] eqn:El.
      * left. exists n. split; [done|]. rewrite El. by eexists.
      * destruct (upstream && recursive q) eqn:Ef; [|by right].
        apply andb_true_iff in Ef as [? ?]. split_and!; [done|done|].
        intros (n' & [= <-] & Hs). rewrite El in Hs. by destruct Hs.
    + destruct (upstream && recursive q) eqn:Ef; [|by right].
      apply andb_true_iff in Ef as [? ?]. split_and!; [done|done|]. by intros (? & ? & ?).
  - destruct (from_utf8 _) as [n|] eqn:En; cbn [mbind option_bind].
    + destruct (matched_domain n d) as [dom|] eqn:Em.
      * destruct proxy, (proxied_type (qtype q)); cbn; try (by left; exists n; rewrite Em; eauto).
        -- split_and!; [done|done|done|]. eauto.
        -- split_and!; [done|done|]. eauto.
      * destruct (upstream && recursive q) eqn:Ef; [|by right].
        apply andb_true_iff in Ef as [? ?]. split_and!; [done|done|].
        intros (n' & [= <-] & Hs). rewrite Em in Hs. by destruct Hs.
    + destruct (upstream && recursive q) eqn:Ef; [|by right].
      apply andb_true_iff in Ef as [? ?]. split_and!; [done|done|]. by intros (? & ? & ?).
Qed.

(** A response with the records of a proxied answer, whatever their types
    and texts (of less than 65535 bytes) and however many, is at most two bytes
    longer than the response buffer of 4096, and still answers the query. *)
Theorem format_resp_answers_size (packet : list Z) (n : nat) (status : Z)
    (answers : option (list RespAnswer)) (addr : Z) (ra : bool) :
  Z.of_nat n + 18 <= DNS_BUF →
  match answers with Some l => Forall (λ a, Z.of_nat (length (data a)) < 65535) l | None => True end →
  Z.of_nat (length (format_resp_answers packet n status answers addr ra)) <= DNS_BUF + 2 ∧
  replies_to packet n (format_resp_answers packet n status answers addr ra).
Proof.
  intros Hn Ha. split; [by apply format_resp_answers_bound|apply format_resp_answers_replies].
Qed.

(** ** Witnesses *)

Definition sample_labels : list (list Z) := [bytes_of_string "a"; bytes_of_string "Example"; bytes_of_string "com"].
Definition sample_query : list Z := encode_query 4660 256 (encode_labels sample_labels) NS_T_A.

Lemma query_name_roundtrip_witness :
  parse_query sample_query = Some (mkQuery true NS_T_A (bytes_of_string "a.Example.com") 13) ∧
  format_name_all (bytes_of_string "a.Example.com") = encode_labels sample_labels.
Proof.
  assert (Hl : Forall label_ok sample_labels).
  { repeat constructor; cbn; try lia; by apply (bool_decide_unpack _). }
  destruct (query_name_roundtrip 4660 256 sample_labels NS_T_A []) as [H1 H2].
  - repeat constructor; cbn; lia.
  - lia.
  - unfold NS_T_A. lia.
  - vm_compute. discriminate.
  - split; [|exact (H2 Hl)]. rewrite app_nil_r in H1. exact H1.
Defined.

Lemma sample_query_ok : bytes_ok sample_query.
Proof. by_compute. Qed.

Lemma parse_query_sound_witness :
  ∃ q, parse_query sample_query = Some q ∧ Z.of_nat (name_strlen q) + 18 <= DNS_BUF.
Proof.
  eexists. split; [vm_compute; reflexivity|].
  apply (parse_query_sound sample_query _ sample_query_ok). vm_compute. reflexivity.
Defined.

Lemma handle_query_replies_witness :
  ∃ r, reply_of (handle_query sample_matcher sample_query true false).1 = Some r ∧
    ∀ d' u p, handle_query d' r u p = (Drop, d').
Proof.
  pose proof (handle_query_replies sample_matcher sample_query true false sample_query_ok) as H.
  assert (E : is_Some (reply_of (handle_query sample_matcher sample_query true false).1))
    by (vm_compute; eexists; reflexivity).
  destruct (reply_of _) as [r|]; [|by destruct E]. destruct H as (q & _ & _ & _ & H). eauto.
Defined.

Lemma handle_query_address_witness :
  (handle_query sample_matcher sample_query false true).1 =
    Respond ([18; 52; 129; 0; 0; 1; 0; 1; 0; 0; 0; 1] ++ encode_labels sample_labels ++ [0; 1; 0; 1]
      ++ [192; 12; 0; 1; 0; 1; 0; 0; 0; 60; 0; 4] ++ [100; 64; 0; 3] ++ DNS_OPT).
Proof.
  destruct (lookup_query "a.Example.com" sample_matcher) as [r d'] eqn:E.
  assert (Er : (lookup_query "a.Example.com" sample_matcher).1 = Some (mkMatch Domain 1681915907))
    by (vm_compute; reflexivity).
  rewrite E in Er. cbn [fst] in Er. subst r.
  rewrite (handle_query_address sample_matcher d' sample_query false true
    (mkQuery true NS_T_A (bytes_of_string "a.Example.com") 13) "a.Example.com" (mkMatch Domain 1681915907)).
  - vm_compute. reflexivity.
  - vm_compute. reflexivity.
  - reflexivity.
  - reflexivity.
  - vm_compute. reflexivity.
  - exact E.
Defined.

(** An MX query under the wildcard goes to the proxy, with the query's id. *)
Lemma handle_query_routes_witness :
  let packet := encode_query 4660 256 (encode_labels sample_labels) NS_T_MX in
  ∃ pq, (handle_query sample_matcher packet true true).1 = ForwardProxy pq ∧ pq_domain pq = "example.com" ∧
    pq_id pq = 4660.
Proof.
  intros packet.
  pose proof (handle_query_routes sample_matcher packet true true
    (mkQuery true NS_T_MX (bytes_of_string "a.Example.com") 13)) as H.
  assert (E : ∃ pq, (handle_query sample_matcher packet true true).1 = ForwardProxy pq ∧
    pq_domain pq = "example.com") by (vm_compute; eexists; split; reflexivity).
  destruct E as (pq & E & Ed). rewrite E in H. destruct H as (_ & _ & Hid & _); [vm_compute; reflexivity|].
  exists pq. split_and!; [exact E|exact Ed|exact Hid].
Defined.

(** A name of [k] one-letter labels and a two-letter one; the room an MX record
    needs is estimated one byte short, so that this one ends past the buffer. *)
Definition long_mx (k : nat) : RespAnswer :=
  mkAnswer NS_T_MX 60 10 0 0 (concat (replicate k [97; 46]) ++ [97; 97]).

Lemma format_resp_answers_size_witness :
  let r := format_resp_answers sample_query 13 DNS_NO_ERROR (Some [long_mx 2024]) 0 false in
  Z.of_nat (length r) = DNS_BUF + 1 ∧ replies_to sample_query 13 r.
Proof.
  split; [vm_compute; reflexivity|].
  apply (format_resp_answers_size sample_query 13 DNS_NO_ERROR (Some [long_mx 2024]) 0 false).
  - unfold DNS_BUF. lia.
  - constructor; [|constructor]. vm_compute. reflexivity.
Defined.
