(* ===== verification/IpAddr.v ===== *)
(** * IP addresses and networks: [src/tunnel/resolve/allowed.rs] ([parse_ip_or_cidr])

    The standard library's [IpAddr] (parser, printer, octets), the interface of
    the [ipnet] crate, and the address-or-CIDR parser that the host side and the
    intercept side share. *)

From S2P Require Import Prelude Message Address.

(** ** [std::net::IpAddr] *)

(** The 32-bit or 128-bit value of an address. *)
Inductive IpAddr : Type := V4 (a : Z) | V6 (a : Z).

#[export] Instance IpAddr_eq_dec : EqDecision IpAddr.
Proof. solve_decision. Defined.

#[export] Instance IpAddr_countable : Countable IpAddr.
Proof.
  apply (inj_countable' (λ i, match i with V4 a => inl a | V6 a => inr a end)
    (λ s, match s with inl a => V4 a | inr a => V6 a end)). by intros [].
Defined.

Definition width (i : IpAddr) : Z := match i with V4 _ => 32 | V6 _ => 128 end.
Definition ip_val (i : IpAddr) : Z := match i with V4 a => a | V6 a => a end.
Definition ip_ok (i : IpAddr) : Prop := 0 <= ip_val i < 2 ^ width i.

Definition octets (i : IpAddr) : list Z :=
  match i with V4 a => be_bytes 4 a | V6 a => be_bytes 16 a end.

(** The eight 16-bit groups. *)
Definition segments (a : Z) : list Z :=
  map (λ i, (a / 2 ^ (16 * (7 - Z.of_nat i))) mod 65536) (List.seq 0 8).
Definition of_segments (gs : list Z) : Z := foldl (λ acc g, acc * 65536 + g) 0 gs.

Definition to_ipv4_mapped (a : Z) : option Z :=
  if a / 2 ^ 32 =? 65535 then Some (a mod 2 ^ 32) else None.

(** [char::to_digit(radix)]. *)
Definition to_digit (radix : Z) (c : ascii) : option Z :=
  let b := byte_of_ascii c in
  let d := if (48 <=? b) && (b <=? 57) then b - 48
           else if (97 <=? b) && (b <=? 122) then b - 87
           else if (65 <=? b) && (b <=? 90) then b - 55 else radix in
  if d <? radix then Some d else None.

(** The digits of a number: its value, how many, and the rest; [None] when there
    are more than [max]. *)
Fixpoint read_digits (radix : Z) (max : nat) (acc : Z) (n : nat) (s : string) : option (Z * nat * string) :=
  match s with
  | String c s' =>
      match to_digit radix c with
      | Some d =>
          match max with
          | O => None
          | S max => read_digits radix max (acc * radix + d) (S n) s'
          end
      | None => Some (acc, n, s)
      end
  | EmptyString => Some (acc, n, EmptyString)
  end.

Definition zero_first (s : string) : bool :=
  match s with String c _ => bool_decide (c = "0"%char) | EmptyString => false end.

(** [read_number(radix, Some(max), allow_zero_prefix)] of a type up to [top]. *)
Definition read_number (radix : Z) (max : nat) (allow_zero_prefix : bool) (top : Z) (s : string)
    : option (Z * string) :=
  '(v, n, rest) ← read_digits radix max 0 0 s;
  if top <? v then None
  else if bool_decide (n = 0%nat) then None
  else if negb allow_zero_prefix && zero_first s && (1 <? Z.of_nat n) then None
  else Some (v, rest).

Definition read_char (c : string) (s : string) : option string := strip_prefix c s.

Definition read_ipv4 (s : string) : option (Z * string) :=
  let octet := read_number 10 3 false u8_max in
  '(a, s) ← octet s;
  s ← read_char "." s; '(b, s) ← octet s;
  s ← read_char "." s; '(c, s) ← octet s;
  s ← read_char "." s; '(d, s) ← octet s;
  Some (of_segments [a * 256 + b; c * 256 + d], s).

(** [read_groups] of [k] groups, [first] being the separator's [index == 0]: the
    groups read and whether they end in an IPv4 address. *)
Fixpoint read_groups (k : nat) (first : bool) (s : string) : list Z * bool * string :=
  match k with
  | O => ([], false, s)
  | S k' =>
      let after_sep := if first then Some s else read_char ":" s in
      match (if bool_decide (k' = 0%nat) then None else s1 ← after_sep; read_ipv4 s1) with
      | Some (a, s1) => ([a / 65536; a mod 65536], true, s1)
      | None =>
          match (s1 ← after_sep; read_number 16 4 true u16_max s1) with
          | Some (g, s1) => let '(gs, v4, s2) := read_groups k' false s1 in (g :: gs, v4, s2)
          | None => ([], false, s)
          end
      end
  end.

Definition read_ipv6 (s : string) : option (Z * string) :=
  let '(head, head_ipv4, s) := read_groups 8 true s in
  if bool_decide (length head = 8%nat) then Some (of_segments head, s)
  else if (head_ipv4 : bool) then None
  else
    s ← read_char ":" s; s ← read_char ":" s;
    let '(tail, _, s) := read_groups (8 - (length head + 1)) true s in
    Some (of_segments (head ++ replicate (8 - length head - length tail) 0 ++ tail), s).

(** [IpAddr::from_str(s).ok()]. *)
Definition ip_from_str (s : string) : option IpAddr :=
  '(i, rest) ← match read_ipv4 s with
               | Some (a, rest) => Some (V4 a, rest)
               | None => prod_map V6 id <$> read_ipv6 s
               end;
  if bool_decide (rest = EmptyString) then Some i else None.

(** [to_string]. *)
Definition show_v4 (a : Z) : string :=
  pretty (Z.to_N (a / 16777216)) +:+ "." +:+ pretty (Z.to_N ((a / 65536) mod 256)) +:+ "."
    +:+ pretty (Z.to_N ((a / 256) mod 256)) +:+ "." +:+ pretty (Z.to_N (a mod 256)).

(** [{:x}] of a 16-bit number. *)
Definition show_hex (g : Z) : string :=
  let d i := hex_digit ((g / 16 ^ i) mod 16) in
  if g <? 16 then d 0
  else if g <? 256 then d 1 +:+ d 0
  else if g <? 4096 then d 2 +:+ d 1 +:+ d 0
  else d 3 +:+ d 2 +:+ d 1 +:+ d 0.

Definition show_groups (gs : list Z) : string := String.concat ":" (map show_hex gs).

(** The longest run of zero groups, the first of them: (start, length). *)
Definition longest_zeroes (gs : list Z) : nat * nat :=
  let step := λ (st : nat * (nat * nat) * (nat * nat)) g,
    let '(i, cur, best) := st in
    if g =? 0 then
      let cur := ((if bool_decide (cur.2 = 0%nat) then i else cur.1), S cur.2) in
      (S i, cur, if bool_decide (best.2 < cur.2)%nat then cur else best)
    else (S i, (0%nat, 0%nat), best) in
  (foldl step (0%nat, (0%nat, 0%nat), (0%nat, 0%nat)) gs).2.

Definition show_v6 (a : Z) : string :=
  match to_ipv4_mapped a with
  | Some v4 => "::ffff:" +:+ show_v4 v4
  | None =>
      let gs := segments a in
      let '(start, len) := longest_zeroes gs in
      if bool_decide (1 < len)%nat
      then show_groups (take start gs) +:+ "::" +:+ show_groups (drop (start + len) gs)
      else show_groups gs
  end.

Definition ip_to_string (i : IpAddr) : string :=
  match i with V4 a => show_v4 a | V6 a => show_v6 a end.

(** ** The [ipnet] crate *)

(** [IpNet], [IpNet::new(ip, prefix).ok()] and [contains]. *)
Class IpNetLib := {
  IpNet : Type;
  net_eq_dec :: EqDecision IpNet;
  net_new : IpAddr → Z → option IpNet;
  net_contains : IpNet → IpAddr → bool
}.

(** Do two addresses of one family agree on their first [p] bits? *)
Definition same_prefix (p : Z) (a b : IpAddr) : bool :=
  match a, b with
  | V4 x, V4 y => x / 2 ^ (32 - p) =? y / 2 ^ (32 - p)
  | V6 x, V6 y => x / 2 ^ (128 - p) =? y / 2 ^ (128 - p)
  | _, _ => false
  end.

(** The crate's documented behaviour. *)
Class IpNetLaws `{IpNetLib} := {
  net_new_Some i p : 0 <= p → is_Some (net_new i p) ↔ p <= width i;
  net_new_contains i p n j : 0 <= p → net_new i p = Some n → net_contains n j = same_prefix p i j
}.

(** Address and prefix length, as written. *)
Definition cidr_new (i : IpAddr) (p : Z) : option (IpAddr * Z) := if p <=? width i then Some (i, p) else None.

#[export] Instance cidr_nets : IpNetLib := {|
  IpNet := IpAddr * Z;
  net_new := cidr_new;
  net_contains n j := same_prefix n.2 n.1 j
|}.

#[export] Instance cidr_nets_laws : IpNetLaws.
Proof.
  split.
  - intros i p _. cbn. unfold cidr_new. destruct (Z.leb_spec p (width i)); split; intros H'; try done; try lia.
  - intros i p n j _ H. cbn in *. unfold cidr_new in H. destruct (p <=? width i); [|done]. by injection H as <-.
Qed.

(** ** Addresses and CIDRs of a config *)

Definition slash : ascii := "/".

(** A multi-character token that starts with a sign or a zero. *)
Definition bad_bits (b : string) : bool :=
  match b with
  | String c (String _ _) => negb ((49 <=? byte_of_ascii c) && (byte_of_ascii c <=? 57))
  | _ => false
  end.

Definition unmap_v4_mapped (i : IpAddr) (prefix : Z) : IpAddr * Z :=
  match i with
  | V6 a => match to_ipv4_mapped a with
            | Some v4 => (V4 v4, sat_sub prefix 96)
            | None => (i, prefix)
            end
  | V4 _ => (i, prefix)
  end.

Definition parse_ip_or_cidr `{IpNetLib} (s : string) : option IpNet :=
  let '(addr, bits) := match split_once slash s with Some (a, b) => (a, Some b) | None => (s, None) end in
  if match bits with Some b => bad_bits b | None => false end then None
  else
    i ← ip_from_str addr;
    prefix ← match bits with None => Some (width i) | Some b => parse_unsigned u8_max b end;
    let '(i, prefix) := unmap_v4_mapped i prefix in
    net_new i prefix.

(** ** Parsed addresses are in range *)

Lemma to_digit_bounds r c d : to_digit r c = Some d → 0 <= d < r.
Proof.
  unfold to_digit. intros H. match type of H with (if ?x <? _ then _ else _) = _ => set (e := x) in * end.
  destruct (Z.ltb_spec e r); [|done]. injection H as <-. split; [|done]. subst e.
  pose proof (byte_of_ascii_ok c) as Hc. unfold byte_ok in Hc.
  repeat case_match; bool_to_prop; lia.
Qed.

Lemma read_digits_nonneg r max : ∀ acc n s v k rest,
  0 <= acc → 0 <= r → read_digits r max acc n s = Some (v, k, rest) → 0 <= v.
Proof.
  induction max as [|max IH]; intros acc n s v k rest Ha Hr H; destruct s as [|c s]; cbn in H; try by injection H as <- _ _.
  - destruct (to_digit r c); [done|]. by injection H as <- _ _.
  - destruct (to_digit r c) as [d|] eqn:E; [|by injection H as <- _ _].
    apply to_digit_bounds in E. eapply IH, H; nia.
Qed.

Lemma read_number_bounds r max z top s v rest :
  0 <= r → read_number r max z top s = Some (v, rest) → 0 <= v <= top.
Proof.
  unfold read_number. intros Hr H. destruct (read_digits r max 0 0 s) as [[[w n] rest']|] eqn:E; [|done].
  cbn in H. apply read_digits_nonneg in E; [|lia..]. destruct (Z.ltb_spec top w); [done|].
  destruct (bool_decide _); [done|]. destruct (_ && _); [done|]. injection H as <- _. lia.
Qed.

Definition group_ok (g : Z) : Prop := 0 <= g < 65536.

Lemma of_segments_acc gs acc :
  0 <= acc → Forall group_ok gs →
  0 <= foldl (λ acc g, acc * 65536 + g) acc gs < (acc + 1) * 65536 ^ Z.of_nat (length gs).
Proof.
  intros Ha Hg. revert acc Ha. induction Hg as [|g gs Hg _ IH]; intros acc Ha; [cbn; lia|].
  cbn [foldl length]. unfold group_ok in Hg. specialize (IH (acc * 65536 + g) ltac:(lia)).
  rewrite Nat2Z.inj_succ, Z.pow_succ_r by lia. nia.
Qed.

Lemma of_segments_bound gs n : length gs = n → Forall group_ok gs → 0 <= of_segments gs < 2 ^ (16 * Z.of_nat n).
Proof.
  intros <- Hg. rewrite Z.pow_mul_r by lia. pose proof (of_segments_acc gs 0 ltac:(lia) Hg). unfold of_segments.
  change (2 ^ 16) with 65536. lia.
Qed.

Lemma read_ipv4_ok s a rest : read_ipv4 s = Some (a, rest) → 0 <= a < 2 ^ 32.
Proof.
  unfold read_ipv4. intros H. repeat (match type of H with
    | context [read_number ?r ?m ?z ?t ?s ≫= _] =>
        let E := fresh "E" in destruct (read_number r m z t s) as [[? ?]|] eqn:E; [|done];
        apply read_number_bounds in E; [|lia]; cbn [mbind option_bind] in H
    | context [read_char ?c ?s ≫= _] => destruct (read_char c s); [|done]; cbn [mbind option_bind] in H
    end). injection H as <- _. apply (of_segments_bound _ 2); [done|].
  unfold group_ok, u8_max in *. repeat constructor; lia.
Qed.

Lemma read_groups_ok k : ∀ first s gs v4 rest,
  read_groups k first s = (gs, v4, rest) → Forall group_ok gs ∧ (length gs <= k)%nat.
Proof.
  induction k as [|k IH]; intros first s gs v4 rest H; cbn [read_groups] in H; [injection H as <- _ _; by split|].
  match type of H with match ?x with _ => _ end = _ => destruct x as [[a s1]|] eqn:E4 end.
  - injection H as <- _ _. destruct k as [|k]; [done|]. rewrite bool_decide_false in E4 by done.
    apply bind_Some in E4 as (s0 & _ & E4). apply read_ipv4_ok in E4. split; [|cbn; lia].
    pose proof (Z.mod_pos_bound a 65536). unfold group_ok.
    repeat constructor; try lia; [apply Z.div_pos; lia|apply Z.div_lt_upper_bound; lia].
  - match type of H with match ?x with _ => _ end = _ => destruct x as [[g s1]|] eqn:Eg end;
      [|injection H as <- _ _; split; [done|cbn; lia]].
    destruct (read_groups k false s1) as [[gs' v4'] s2] eqn:Er. injection H as <- _ _.
    apply IH in Er as [Hgs Hl]. apply bind_Some in Eg as (s0 & _ & Eg). apply read_number_bounds in Eg; [|lia].
    split; [constructor; [unfold group_ok, u16_max in *; lia|done]|cbn; lia].
Qed.

Lemma read_ipv6_ok s a rest : read_ipv6 s = Some (a, rest) → 0 <= a < 2 ^ 128.
Proof.
  unfold read_ipv6. intros H. destruct (read_groups 8 true s) as [[head h4] s1] eqn:E1.
  apply read_groups_ok in E1 as [Hh Hl]. case_bool_decide as Hlen.
  { injection H as <- _. by apply (of_segments_bound _ 8). }
  destruct h4; [done|]. apply bind_Some in H as (s2 & _ & H). apply bind_Some in H as (s3 & _ & H).
  destruct (read_groups (8 - (length head + 1)) true s3) as [[tail t4] s4] eqn:E2.
  apply read_groups_ok in E2 as [Ht Hl2]. injection H as <- _. apply (of_segments_bound _ 8).
  - rewrite !length_app, length_replicate. lia.
  - rewrite !Forall_app. split_and!; [done| |done]. apply Forall_replicate. unfold group_ok. lia.
Qed.

Lemma ip_from_str_ok s i : ip_from_str s = Some i → ip_ok i.
Proof.
  unfold ip_from_str. intros H. apply bind_Some in H as ([j rest] & Hj & H).
  case_bool_decide; [|done]. injection H as <-. destruct (read_ipv4 s) as [[a r]|] eqn:E.
  - injection Hj as <- _. by apply read_ipv4_ok in E.
  - destruct (read_ipv6 s) as [[a r]|] eqn:E6; [|done]. injection Hj as <- _. by apply read_ipv6_ok in E6.
Qed.

#[global] Arguments ip_from_str : simpl never.
#[global] Arguments parse_ip_or_cidr : simpl never.
