(* ===== verification/Services.v ===== *)
(** * The service cache: [src/edge/services.rs], [client/services.rs], [service_refresh.rs]

    What the controller lists is compared with the cache of services, the cache
    is updated and the differences go to the listeners as events. *)

From S2P Require Import Prelude Message EdgeWire.

(** [serde_json::Value]: compared, never inspected. *)
Class JsonLib := {
  Json : Type;
  json_eq_dec :: EqDecision Json
}.

#[export] Instance string_json : JsonLib := {| Json := string |}.

(** An inclusive range of a config ([edge/model.rs]). *)
Record PortRange : Type := mkRange { low : Z; high : Z }.

Section services.
Context `{JsonLib}.

Record Service : Type := mkService {
  svc_id : string;
  svc_name : string;
  encryption_required : bool;
  permissions : list string;
  config : gmap string Json;
  configs : list string
}.

Inductive ServiceEvent : Type :=
| Added (s : Service)
| Changed (s : Service)
| Removed (s : Service).

(** ** The differences (services.rs) *)

Definition service_details_equal (a b : Service) : bool :=
  bool_decide (svc_id a = svc_id b) && bool_decide (svc_name a = svc_name b) &&
  bool_decide (encryption_required a = encryption_required b) &&
  bool_decide (permissions a = permissions b) && bool_decide (configs a = configs b) &&
  bool_decide (config a = config b).

(** The ids of a listing. *)
Definition fetched_ids (fetched : list Service) : gset string := list_to_set (map svc_id fetched).

Definition removals (values : list Service) (fetched : list Service) : list ServiceEvent :=
  map Removed (List.filter (λ s, negb (bool_decide (svc_id s ∈ fetched_ids fetched))) values).

Definition upsert_event (cache : gmap string Service) (ids : gset string) (s : Service) : option ServiceEvent :=
  match cache !! svc_name s with
  | Some existing =>
      if bool_decide (svc_id existing ∈ ids) then
        if service_details_equal existing s then None else Some (Changed s)
      else Some (Added s)
  | None => Some (Added s)
  end.

(** [order] is the order [values()] goes through the map in, which is any. *)
Definition diff_services (order : gmap string Service → list Service) (cache : gmap string Service)
    (fetched : list Service) : list ServiceEvent :=
  removals (order cache) fetched ++ omap (upsert_event cache (fetched_ids fetched)) fetched.

Definition drop_removed (cache : gmap string Service) (ev : ServiceEvent) : gmap string Service :=
  match ev with Removed s => delete (svc_name s) cache | _ => cache end.

Definition apply_cache_update (cache : gmap string Service) (fetched : list Service)
    (events : list ServiceEvent) : gmap string Service :=
  foldl (λ c s, <[svc_name s := s]> c) (foldl drop_removed cache events) fetched.

(** ** The watcher: the cache and the listeners, callbacks being numbers *)

Record ServiceWatcher : Type := mkWatcher {
  cache : gmap string Service;
  listeners : list (Z * nat);
  next_listener : Z
}.

Definition watcher_new : ServiceWatcher := mkWatcher ∅ [] 0.

Definition add (cb : nat) (w : ServiceWatcher) : Z * ServiceWatcher :=
  (next_listener w, mkWatcher (cache w) (listeners w ++ [(next_listener w, cb)]) (wrap_u64 (next_listener w + 1))).

Definition remove (id : Z) (w : ServiceWatcher) : bool * ServiceWatcher :=
  let kept := List.filter (λ l, negb (l.1 =? id)) (listeners w) in
  (negb (bool_decide (length kept = length (listeners w))), mkWatcher (cache w) kept (next_listener w)).

(** The events, and the calls of the callbacks in order. *)
Definition process (order : gmap string Service → list Service) (fetched : list Service) (w : ServiceWatcher)
    : list ServiceEvent * list (nat * ServiceEvent) * ServiceWatcher :=
  let events := diff_services order (cache w) fetched in
  let w' := mkWatcher (apply_cache_update (cache w) fetched events) (listeners w) (next_listener w) in
  (events, concat (map (λ ev, map (λ l, (l.2, ev)) (listeners w')) events), w').

(** ** The client's side of a poll (client/services.rs) *)

Context {SessionDetail : Type}.

Record poll_state : Type := mkPoll {
  last_service_update : option Z;
  services : ServiceWatcher;
  dial_sessions : gmap string SessionDetail
}.

Definition evict_session (m : gmap string SessionDetail) (ev : ServiceEvent) : gmap string SessionDetail :=
  match ev with Removed s => delete (svc_id s) m | _ => m end.

Definition store_and_process (order : gmap string Service → list Service) (fetched : list Service)
    (new_ts : option Z) (st : poll_state) : list ServiceEvent * poll_state :=
  let '(events, _, w) := process order fetched (services st) in
  (events, mkPoll new_ts w (foldl evict_session (dial_sessions st) events)).

(** [reply] is the controller's answer to the update query. *)
Definition check_service_list_update (reply : result EdgeError Z) (last : option Z)
    : result EdgeError (bool * option Z) :=
  ts ← reply; Ok (negb (bool_decide (last = Some ts)), Some ts).

(** The rest of a tick, once the need for an update is known. *)
Definition update_if_needed (order : gmap string Service → list Service)
    (listing : result EdgeError (list Service)) (check : bool * option Z) (st : poll_state)
    : result EdgeError (list ServiceEvent) * poll_state :=
  if negb check.1 then (Ok [], st)
  else
    match listing with
    | Err e => (Err e, st)
    | Ok fetched => let '(evs, st) := store_and_process order fetched check.2 st in (Ok evs, st)
    end.

(** One tick of the refresh timer; [listing] is the answer to the list request,
    if it is made. *)
Definition service_refresh_tick (order : gmap string Service → list Service) (authenticated : bool)
    (reply : result EdgeError Z) (listing : result EdgeError (list Service)) (st : poll_state)
    : result EdgeError (list ServiceEvent) * poll_state :=
  if negb authenticated then (Err NotAuthenticated, st)
  else
    match check_service_list_update reply (last_service_update st) with
    | Ok check => update_if_needed order listing check st
    | Err (ServiceUpdatesHttp status code message) =>
        if status =? 503 then (Err ControllerUnavailable, st) else update_if_needed order listing (true, None) st
    | Err ControllerUnavailable => (Err ControllerUnavailable, st)
    | Err _ => update_if_needed order listing (true, None) st
    end.

(** ** Specification *)

(** The cache is keyed by the names of its services. *)
Definition cache_ok (c : gmap string Service) : Prop := ∀ n s, c !! n = Some s → svc_name s = n.

Definition is_order (order : gmap string Service → list Service) : Prop :=
  ∀ c, order c ≡ₚ (map_to_list c).*2.

(** What a listener that keeps its own map makes of an event. *)
Definition replay (c : gmap string Service) (ev : ServiceEvent) : gmap string Service :=
  match ev with
  | Added s | Changed s => <[svc_name s := s]> c
  | Removed s => delete (svc_name s) c
  end.

Definition by_name (l : list Service) : gmap string Service := list_to_map (map (λ s, (svc_name s, s)) l).

(** The services of the cache that are still listed. *)
Definition surviving (c : gmap string Service) (fetched : list Service) : gmap string Service :=
  filter (λ kv, svc_id kv.2 ∈ fetched_ids fetched) c.

(** The ids whose sessions a list of events evicts. *)
Definition removed_ids (evs : list ServiceEvent) : list string :=
  omap (λ ev, match ev with Removed s => Some (svc_id s) | _ => None end) evs.

(** [st'] is [st] after a listing was stored under a timestamp. *)
Record updated (order : gmap string Service → list Service) (fetched : list Service) (ts : option Z)
    (evs : list ServiceEvent) (st st' : poll_state) : Prop := {
  up_timestamp : last_service_update st' = ts;
  up_events : evs = (process order fetched (services st)).1.1;
  up_services : services st' = (process order fetched (services st)).2;
  up_sessions i : dial_sessions st' !! i =
    if bool_decide (i ∈ removed_ids evs) then None else dial_sessions st !! i
}.

End services.

#[global] Arguments process : simpl never.
#[global] Arguments store_and_process : simpl never.

Section proofs.
Context `{JsonLib}.
Implicit Types (c m : gmap string Service) (s : Service) (l fetched : list Service).

#[export] Instance Service_eq_dec : EqDecision Service.
Proof. solve_decision. Defined.

(** ** Lemmas *)

Lemma service_details_equal_spec a b : service_details_equal a b = true ↔ a = b.
Proof.
  unfold service_details_equal. rewrite !andb_true_iff, !bool_decide_eq_true.
  destruct a, b; cbn. split; [intros (((((-> & ->) & ->) & ->) & ->) & ->); done|by intros [= -> -> -> -> -> ->]].
Qed.

Lemma by_name_Some l n s : NoDup (map svc_name l) → by_name l !! n = Some s ↔ s ∈ l ∧ svc_name s = n.
Proof.
  intros Hnd. unfold by_name. rewrite <-elem_of_list_to_map.
  - rewrite list_elem_of_fmap. split.
    + intros (x & [= -> ->] & Hx). done.
    + intros [Hs <-]. by exists s.
  - unfold fmap. change (list_fmap _ _ fst (map ?f l)) with (map fst (map f l)). by rewrite map_map.
Qed.

Lemma foldl_insert_by_name l m :
  NoDup (map svc_name l) → foldl (λ c s, <[svc_name s := s]> c) m l = by_name l ∪ m.
Proof.
  revert m. induction l as [|s l IH]; intros m Hnd; cbn; [by rewrite (left_id_L ∅ (∪))|].
  apply NoDup_cons in Hnd as [Hs Hnd]. rewrite IH by done.
  change (by_name (s :: l)) with (<[svc_name s := s]> (by_name l)).
  rewrite <-insert_union_l, insert_union_r; [done|].
  apply eq_None_not_Some. intros [s' Hs']. apply by_name_Some in Hs' as [Hin Hn]; [|done].
  apply Hs. rewrite <-Hn. by apply list_elem_of_fmap_2.
Qed.

Lemma elem_of_removals values fetched ev :
  ev ∈ removals values fetched ↔ ∃ s, ev = Removed s ∧ s ∈ values ∧ svc_id s ∉ fetched_ids fetched.
Proof.
  unfold removals. rewrite list_elem_of_fmap. split.
  - intros (s & -> & Hs). apply list_elem_of_In, filter_In in Hs as [Hs Hf].
    exists s. split_and!; [done|by apply list_elem_of_In|]. by apply negb_true_iff, bool_decide_eq_false in Hf.
  - intros (s & -> & Hs & Hf). exists s. split; [done|]. apply list_elem_of_In, filter_In.
    split; [by apply list_elem_of_In|]. by apply negb_true_iff, bool_decide_eq_false.
Qed.

Lemma elem_of_order order c s : is_order order → cache_ok c → s ∈ order c ↔ c !! svc_name s = Some s.
Proof.
  intros Ho Hc. rewrite (Ho c), list_elem_of_fmap. split.
  - intros ([n s'] & -> & Hin). apply elem_of_map_to_list in Hin. cbn. by rewrite (Hc _ _ Hin).
  - intros Hs. exists (svc_name s, s). split; [done|by apply elem_of_map_to_list].
Qed.

(** Deleting the names of the removed services, upserts having no effect. *)
Lemma lookup_drop_removed evs m n s :
  foldl drop_removed m evs !! n = Some s ↔ m !! n = Some s ∧ ∀ s', Removed s' ∈ evs → svc_name s' ≠ n.
Proof.
  revert m. induction evs as [|ev evs IH]; intros m; cbn.
  { split; [|tauto]. intros Hm. split; [done|]. by intros s' ?%elem_of_nil. }
  rewrite IH. setoid_rewrite elem_of_cons. destruct ev as [s0|s0|s0]; cbn.
  1,2: split; intros [Hm Hr]; split; try done; intros s' Hin; apply Hr; solve [by destruct Hin|by right].
  rewrite lookup_delete_Some. split.
  - intros [[Hne Hm] Hr]. split; [done|]. intros s' [[= ->]|Hin]; [done|by apply Hr].
  - intros [Hm Hr]. split; [split; [|done]|]; [by apply Hr; left|]. intros s' Hin. apply Hr. by right.
Qed.

Lemma surviving_Some c fetched n s :
  surviving c fetched !! n = Some s ↔ c !! n = Some s ∧ svc_id s ∈ fetched_ids fetched.
Proof. unfold surviving. rewrite map_lookup_filter_Some. done. Qed.

Lemma elem_of_diff_removed order c fetched s :
  Removed s ∈ diff_services order c fetched ↔ s ∈ order c ∧ svc_id s ∉ fetched_ids fetched.
Proof.
  unfold diff_services. rewrite elem_of_app, elem_of_removals, list_elem_of_omap. split.
  - intros [(s' & [= <-] & ? & ?)|(s' & _ & Hu)]; [done|]. unfold upsert_event in Hu.
    repeat case_match; try discriminate.
  - intros [? ?]. left. eauto.
Qed.

Lemma drop_removed_surviving order c fetched :
  is_order order → cache_ok c → foldl drop_removed c (diff_services order c fetched) = surviving c fetched.
Proof.
  intros Ho Hc. apply map_eq. intros n. apply option_eq. intros s.
  rewrite lookup_drop_removed, surviving_Some. split; intros [Hs Hr]; (split; [done|]).
  - destruct (decide (svc_id s ∈ fetched_ids fetched)) as [?|Hn]; [done|]. exfalso.
    pose proof (Hc _ _ Hs) as Hname. eapply Hr; [|exact Hname].
    apply elem_of_diff_removed. split; [|done]. apply elem_of_order; [done|done|]. by rewrite Hname.
  - intros s' Hin Hname. apply elem_of_diff_removed in Hin as [Hin Hid]. apply elem_of_order in Hin; [|done|done].
    rewrite Hname in Hin. congruence.
Qed.

Lemma apply_cache_update_eq order c fetched :
  is_order order → cache_ok c → NoDup (map svc_name fetched) →
  apply_cache_update c fetched (diff_services order c fetched) = by_name fetched ∪ surviving c fetched.
Proof.
  intros Ho Hc Hnd. unfold apply_cache_update. by rewrite drop_removed_surviving, foldl_insert_by_name.
Qed.

Lemma cache_ok_union fetched c :
  cache_ok c → NoDup (map svc_name fetched) → cache_ok (by_name fetched ∪ surviving c fetched).
Proof.
  intros Hc Hnd n s Hs. apply lookup_union_Some_raw in Hs as [Hs|[_ Hs]].
  - by apply by_name_Some in Hs as [_ ?].
  - apply surviving_Some in Hs as [Hs _]. by apply Hc.
Qed.

Lemma replay_removals values fetched m :
  foldl replay m (removals values fetched) = foldl drop_removed m (removals values fetched).
Proof.
  unfold removals. generalize (List.filter (λ s, negb (bool_decide (svc_id s ∈ fetched_ids fetched))) values).
  intros l. revert m. induction l as [|s l IH]; intros m; cbn; [done|]. apply IH.
Qed.

(** Replaying upserts inserts what the events carry. *)
Lemma replay_upserts c ids fetched m :
  NoDup (map svc_name fetched) →
  (∀ s, s ∈ fetched → upsert_event c ids s = None → m !! svc_name s = Some s) →
  foldl replay m (omap (upsert_event c ids) fetched) = by_name fetched ∪ m.
Proof.
  revert m. induction fetched as [|s l IH]; intros m Hnd Hm; cbn; [by rewrite (left_id_L ∅ (∪))|].
  apply NoDup_cons in Hnd as [Hs Hnd].
  assert (Hne : ∀ s', s' ∈ l → svc_name s' ≠ svc_name s).
  { intros s' Hin Heq. apply Hs. rewrite <-Heq. by apply list_elem_of_fmap_2. }
  assert (Hfresh : by_name l !! svc_name s = None).
  { apply eq_None_not_Some. intros [s' Hs']. apply by_name_Some in Hs' as [Hin Hn]; [|done]. by eapply Hne. }
  change (by_name (s :: l)) with (<[svc_name s := s]> (by_name l)).
  assert (Hgo : foldl replay (<[svc_name s := s]> m) (omap (upsert_event c ids) l)
    = <[svc_name s := s]> (by_name l) ∪ m).
  { rewrite IH; [|done|].
    - rewrite <-insert_union_l, insert_union_r by done. done.
    - intros s' Hin Hu. rewrite lookup_insert_ne by (symmetry; by apply Hne). apply Hm; [by right|done]. }
  destruct (upsert_event c ids s) as [ev|] eqn:Hu.
  - assert (Hev : ∀ m, replay m ev = <[svc_name s := s]> m).
    { intros m'. unfold upsert_event in Hu. repeat case_match; try discriminate; by injection Hu as <-. }
    cbn. rewrite Hev. exact Hgo.
  - rewrite (insert_id m) in Hgo; [exact Hgo|]. apply Hm; [by left|done].
Qed.

Lemma elem_of_fetched_ids s fetched : s ∈ fetched → svc_id s ∈ fetched_ids fetched.
Proof. intros Hs. unfold fetched_ids. apply elem_of_list_to_set, list_elem_of_fmap_2. done. Qed.

Lemma upsert_unchanged c fetched s :
  upsert_event c (fetched_ids fetched) s = None → c !! svc_name s = Some s ∧ svc_id s ∈ fetched_ids fetched.
Proof.
  unfold upsert_event. intros Hu. destruct (c !! svc_name s) as [e|] eqn:E; [|done].
  case_bool_decide as Hid; [|done]. destruct (service_details_equal e s) eqn:Heq; [|done].
  apply service_details_equal_spec in Heq as ->. done.
Qed.

Lemma replay_diff order c fetched :
  is_order order → cache_ok c → NoDup (map svc_name fetched) →
  foldl replay c (diff_services order c fetched) = by_name fetched ∪ surviving c fetched.
Proof.
  intros Ho Hc Hnd. unfold diff_services. rewrite foldl_app, replay_removals.
  assert (Hr : foldl drop_removed c (removals (order c) fetched) = surviving c fetched).
  { rewrite <-(drop_removed_surviving order) by done. unfold diff_services. rewrite foldl_app.
    generalize (foldl drop_removed c (removals (order c) fetched)). intros m. symmetry.
    apply map_eq. intros n. apply option_eq. intros s. rewrite lookup_drop_removed. split; [tauto|].
    intros Hs. split; [done|]. intros s' Hin. apply list_elem_of_omap in Hin as (s2 & _ & Hu).
    unfold upsert_event in Hu. repeat case_match; discriminate. }
  rewrite Hr. apply replay_upserts; [done|]. intros s Hs Hu. apply upsert_unchanged in Hu as [Hu Hid].
  by apply surviving_Some.
Qed.

Lemma diff_settled order c fetched :
  is_order order → cache_ok c → NoDup (map svc_name fetched) →
  diff_services order (by_name fetched ∪ surviving c fetched) fetched = [].
Proof.
  intros Ho Hc Hnd. set (c' := _ ∪ _). assert (Hc' : cache_ok c') by by apply cache_ok_union.
  assert (Hids : ∀ n s, c' !! n = Some s → svc_id s ∈ fetched_ids fetched).
  { intros n s Hs. apply lookup_union_Some_raw in Hs as [Hs|[_ Hs]].
    - apply by_name_Some in Hs as [Hs _]; [|done]. by apply elem_of_fetched_ids.
    - by apply surviving_Some in Hs as [_ ?]. }
  unfold diff_services. assert (removals (order c') fetched = []) as ->.
  { destruct (removals (order c') fetched) as [|ev evs] eqn:E; [done|]. exfalso.
    assert (Hev : ev ∈ removals (order c') fetched) by (rewrite E; by left).
    apply elem_of_removals in Hev as (s & _ & Hs & Hid). apply elem_of_order in Hs; [|done|done].
    apply Hid. by eapply Hids. }
  cbn. destruct (omap _ fetched) as [|ev evs] eqn:E; [done|]. exfalso.
  assert (Hev : ev ∈ omap (upsert_event c' (fetched_ids fetched)) fetched) by (rewrite E; by left).
  apply list_elem_of_omap in Hev as (s & Hs & Hu).
  assert (Hcs : c' !! svc_name s = Some s) by (apply lookup_union_Some_l, by_name_Some; done).
  unfold upsert_event in Hu. rewrite Hcs in Hu. rewrite bool_decide_true in Hu by by apply elem_of_fetched_ids.
  rewrite (proj2 (service_details_equal_spec s s)) in Hu; done.
Qed.

Lemma lookup_evict {SD} evs (m : gmap string SD) i :
  foldl evict_session m evs !! i = if bool_decide (i ∈ removed_ids evs) then None else m !! i.
Proof.
  revert m. induction evs as [|ev evs IH]; intros m; [done|]. cbn [foldl]. rewrite IH.
  destruct ev as [s|s|s]; [done|done|]. cbn [removed_ids omap list_omap evict_session].
  destruct (decide (i = svc_id s)) as [->|Hne].
  - rewrite lookup_delete_eq. rewrite (bool_decide_true (svc_id s ∈ svc_id s :: _)) by by left. by case_bool_decide.
  - rewrite lookup_delete_ne by done. erewrite bool_decide_ext; [reflexivity|].
    rewrite elem_of_cons. split; [by right|by intros [?|?]].
Qed.

Lemma store_and_process_updated {SD} order fetched ts (st : poll_state (SessionDetail := SD)) :
  let '(evs, st') := store_and_process order fetched ts st in updated order fetched ts evs st st'.
Proof.
  unfold store_and_process. destruct (process _ _ _) as [[evs calls] w] eqn:E.
  split; cbn [last_service_update services dial_sessions]; rewrite ?E; try done. intros i. apply lookup_evict.
Qed.

(** ** Properties *)

(** A poll, when the listed names are distinct: the cache becomes the listed
    services, and those of the cached ones whose id is still listed under another
    name; a listener that replays the events on a copy of the old cache gets the
    new one, in whatever order the removals come; and listing the same again
    gives no event. *)
Theorem process_outcome order fetched (w : ServiceWatcher) :
  is_order order → cache_ok (cache w) → NoDup (map svc_name fetched) →
  let '(events, _, w') := process order fetched w in
  cache_ok (cache w') ∧
  (∀ n s, (cache w' !! n = Some s) ↔
    (s ∈ fetched ∧ svc_name s = n) ∨
    (¬ n ∈ map svc_name fetched) ∧ cache w !! n = Some s ∧ svc_id s ∈ fetched_ids fetched) ∧
  foldl replay (cache w) events = cache w' ∧
  (process order fetched w').1.1 = [].
Proof.
  intros Ho Hc Hnd. unfold process. cbn.
  rewrite (apply_cache_update_eq order) by done. split_and!.
  - by apply cache_ok_union.
  - intros n s. rewrite lookup_union_Some_raw, by_name_Some, surviving_Some by done.
    enough (by_name fetched !! n = None ↔ n ∉ map svc_name fetched) as -> by tauto.
    rewrite eq_None_not_Some. split; intros Hn Hex; apply Hn.
    + apply list_elem_of_fmap in Hex as (s' & -> & Hs'). exists s'. by apply by_name_Some.
    + destruct Hex as [s' Hs']. apply by_name_Some in Hs' as [Hs' <-]; [|done]. by apply list_elem_of_fmap_2.
  - by apply replay_diff.
  - by apply diff_settled.
Qed.

(** A tick of the refresh timer: after an error nothing has changed; the
    error is a missing login, an unavailable controller or the listing's; without a
    newer timestamp nothing is fetched; and after an update the timestamp is the
    checked one (none when the check failed), the cache went through [process],
    and exactly the dial sessions of the removed services are gone. *)
Theorem service_refresh_tick_outcome {SD} order auth reply listing (st : poll_state (SessionDetail := SD)) :
  let '(r, st') := service_refresh_tick order auth reply listing st in
  match r with
  | Err e => st' = st ∧ ((auth = false ∧ e = NotAuthenticated) ∨ e = ControllerUnavailable ∨ listing = Err e)
  | Ok evs =>
      auth = true ∧
      ((∃ ts, reply = Ok ts ∧ last_service_update st = Some ts ∧ evs = [] ∧ st' = st) ∨
       ∃ fetched ts, listing = Ok fetched ∧ updated order fetched ts evs st st' ∧
         match reply with Ok t => ts = Some t ∧ last_service_update st ≠ ts | Err _ => ts = None end)
  end.
Proof.
  unfold service_refresh_tick. destruct auth; cbn [negb]; [|auto].
  unfold check_service_list_update. destruct reply as [t|e]; cbn [mbind].
  - unfold update_if_needed. cbn. case_bool_decide as Ht; cbn; [split; [done|]; left; eauto|].
    destruct listing as [fetched|e]; [|split; [done|]; right; by right]. cbn.
    pose proof (store_and_process_updated order fetched (Some t) st) as Hu.
    destruct (store_and_process _ _ _ _). split; [done|]. right. eauto 6.
  - assert (Hgo : let '(r, st') := update_if_needed order listing (true, None) st in
      match r with
      | Err e => st' = st ∧ ((true = false ∧ e = NotAuthenticated) ∨ e = ControllerUnavailable ∨ listing = Err e)
      | Ok evs => true = true ∧
          ((∃ ts, @Err EdgeError Z e = Ok ts ∧ last_service_update st = Some ts ∧ evs = [] ∧ st' = st) ∨
           ∃ fetched ts, listing = Ok fetched ∧ updated order fetched ts evs st st' ∧ ts = None)
      end).
    { unfold update_if_needed. cbn. destruct listing as [fetched|e']; [|split; [done|]; right; by right]. cbn.
      pose proof (store_and_process_updated order fetched None st) as Hu.
      destruct (store_and_process _ _ _ _). split; [done|]. right. eauto 6. }
    destruct e; cbn [result_bind]; try exact Hgo; [|auto].
    match goal with |- context [if ?b then _ else _] => destruct b end; [auto|exact Hgo].
Qed.

End proofs.

(** ** Witnesses *)

Definition sample_service (i n : string) : Service := mkService i n true ["Dial"] ∅ [].
Definition sample_watcher : ServiceWatcher :=
  mkWatcher {[ "a" := sample_service "1" "a"; "b" := sample_service "2" "b"; "d" := sample_service "4" "d" ]} [(0, 7%nat)] 1.
Definition listed_order (c : gmap string Service) : list Service := (map_to_list c).*2.

(** Service 1 is renamed, b is replaced, d stays: the stale entry of a stays. *)
Definition sample_listing : list Service := [sample_service "1" "c"; sample_service "3" "b"; sample_service "4" "d"].

Lemma process_outcome_witness :
  let '(events, _, w) := process listed_order sample_listing sample_watcher in
  events = [Removed (sample_service "2" "b"); Added (sample_service "1" "c"); Added (sample_service "3" "b")] ∧
  foldl replay (cache sample_watcher) events = cache w ∧ is_Some (cache w !! "a").
Proof.
  pose proof (process_outcome listed_order sample_listing sample_watcher) as H.
  assert (E : (process listed_order sample_listing sample_watcher).1.1 =
    [Removed (sample_service "2" "b"); Added (sample_service "1" "c"); Added (sample_service "3" "b")])
    by (vm_compute; reflexivity).
  destruct (process listed_order sample_listing sample_watcher) as [[events calls] w] eqn:Ep. cbn in E. subst events.
  destruct H as (_ & Hc & Hr & _).
  - by intros c.
  - intros n s Hs. apply elem_of_map_to_list in Hs. vm_compute in Hs.
    repeat (apply elem_of_cons in Hs as [[= -> ->]|Hs]; [reflexivity|]). by apply elem_of_nil in Hs.
  - vm_compute. by_compute.
  - split; [done|]. split; [exact Hr|]. exists (sample_service "1" "a"). apply Hc. right.
    split; [by_compute|]. split; [vm_compute; reflexivity|by_compute].
Defined.

Lemma service_refresh_tick_outcome_witness :
  let st := mkPoll (Some 5) sample_watcher {[ "2" := 20%nat; "4" := 40%nat ]} in
  let '(r, st') := service_refresh_tick listed_order true (Ok 6) (Ok sample_listing) st in
  last_service_update st' = Some 6 ∧ dial_sessions st' !! "2" = None ∧ dial_sessions st' !! "4" = Some 40%nat.
Proof.
  intros st. pose proof (service_refresh_tick_outcome listed_order true (Ok 6) (Ok sample_listing) st) as H.
  assert (E : ∃ evs, (service_refresh_tick listed_order true (Ok 6) (Ok sample_listing) st).1 = Ok evs ∧
    removed_ids evs = ["2"]) by (vm_compute; eexists; split; reflexivity).
  destruct E as (evs & E & Er). destruct (service_refresh_tick _ _ _ _ st) as [r st'] eqn:Et. cbn in E. subst r.
  destruct H as [_ [(ts & [= <-] & [=] & _)|(fetched & ts & _ & [Hts _ _ Hs] & -> & _)]].
  split; [exact Hts|]. split; rewrite Hs, Er; reflexivity.
Defined.
