(* ===== verification/InterceptResolver.v ===== *)
(** * The intercept resolver: [src/tunnel/intercept/resolve/]

    From the [intercept.v1] configs of the services the identity can dial to the
    table that says which service a destination belongs to, kept up to date by
    service events and sharing the DNS matcher with the DNS server. *)

From S2P Require Import Prelude Message EdgeWire Address DnsMatcher IpAddr Services.
(** ** Configs (config.rs, mod.rs, edge/model.rs) *)

Definition INTERCEPT_V1_CONFIG_TYPE : string := "intercept.v1".

(** Durations in seconds. *)
Definition INTERCEPT_DIAL_TIMEOUT : Z := 5.
Definition DEFAULT_CONNECT_TIMEOUT : Z := 15.

Record DialOptions : Type := mkDialOptions { connect_timeout_seconds : option Z; identity : option string }.

Record InterceptV1Config : Type := mkConfig {
  protocols : list string;
  addresses : list string;
  port_ranges : list PortRange;
  dial_options : option DialOptions;
  source_ip : option string;
  allowed_source_addresses : list string
}.

Inductive Protocol : Type := Tcp | Udp.
Definition as_str (p : Protocol) : string := match p with Tcp => "tcp"%string | Udp => "udp"%string end.

Definition dial_timeout_for (cfg : InterceptV1Config) : Z :=
  match dial_options cfg ≫= connect_timeout_seconds with
  | Some secs => if secs =? 0 then DEFAULT_CONNECT_TIMEOUT else secs
  | None => INTERCEPT_DIAL_TIMEOUT
  end.

Section resolver.
Context `{JsonLib} `{IpNetLib}.
(** [serde_json::from_value::<InterceptV1Config>]; the error as its text. *)
Context (from_value : Json → result string InterceptV1Config).

Definition intercept_v1_config (svc : Service) : result EdgeError (option InterceptV1Config) :=
  match config svc !! INTERCEPT_V1_CONFIG_TYPE with
  | None => Ok None
  | Some value => map_err (ServiceConfig INTERCEPT_V1_CONFIG_TYPE) (cfg ← from_value value; Ok (Some cfg))
  end.

Definition build_allowed_sources (entries : list string) : option (list IpNet) :=
  if bool_decide (entries = []) then None
  else Some (omap parse_ip_or_cidr (List.filter (λ s, negb (starts_with "*" s)) entries)).

(** ** The tables (mod.rs, entry.rs) *)

Record InterceptEntry : Type := mkIntercept {
  cidr : IpNet;
  low_port : Z;
  high_port : Z;
  protocol : string;
  service : string;
  dial_timeout : Z;
  allowed_sources : option (list IpNet)
}.

Record WildcardEntry : Type := mkWildcard {
  suffix : string;
  w_low_port : Z;
  w_high_port : Z;
  w_protocol : string;
  w_service : string;
  w_dial_timeout : Z;
  w_allowed_sources : option (list IpNet)
}.

Record InterceptMatch : Type := mkInterceptMatch { m_service : string; m_dial_timeout : Z }.

Record RouteDelta : Type := mkDelta { removed : list IpNet; added : list IpNet }.
Record AppliedEvent : Type := mkApplied { routes : RouteDelta; kill_active : bool }.
Definition nothing : AppliedEvent := mkApplied (mkDelta [] []) false.

Record InterceptResolver : Type := mkResolver {
  entries : list InterceptEntry;
  wildcards : list WildcardEntry;
  dns : DnsMatcher;
  installed_configs : gmap string Json
}.

Definition source_allowed (sources : option (list IpNet)) (src_ip : IpAddr) : bool :=
  match sources with None => true | Some cidrs => existsb (λ c, net_contains c src_ip) cidrs end.

Definition entry_matches (e : InterceptEntry) (dst_ip : IpAddr) (dst_port : Z) (proto : Protocol)
    (src_ip : IpAddr) : bool :=
  bool_decide (protocol e = as_str proto) && net_contains (cidr e) dst_ip && (low_port e <=? dst_port)
    && (dst_port <=? high_port e) && source_allowed (allowed_sources e) src_ip.

Definition suffix_matches (w : WildcardEntry) (domain : string) : bool :=
  bool_decide (suffix w = domain)
    || bool_decide (is_Some (head ← strip_suffix (suffix w) domain; strip_suffix "." head)).

Definition wildcard_claims (w : WildcardEntry) (domain : string) (dst_port : Z) (proto : Protocol)
    (src_ip : IpAddr) : bool :=
  bool_decide (w_protocol w = as_str proto) && suffix_matches w domain && (w_low_port w <=? dst_port)
    && (dst_port <=? w_high_port w) && source_allowed (w_allowed_sources w) src_ip.

(** ** The lookup (lookup.rs) *)

Definition lookup (dst_ip : IpAddr) (dst_port : Z) (proto : Protocol) (src_ip : IpAddr)
    (r : InterceptResolver) : option InterceptMatch :=
  match List.find (λ e, entry_matches e dst_ip dst_port proto src_ip) (entries r) with
  | Some e => Some (mkInterceptMatch (service e) (dial_timeout e))
  | None =>
      match dst_ip with
      | V6 _ => None
      | V4 v4 =>
          domain ← reverse_lookup_domain v4 (dns r);
          w ← List.find (λ w, wildcard_claims w domain dst_port proto src_ip) (wildcards r);
          Some (mkInterceptMatch (w_service w) (w_dial_timeout w))
      end
  end.

Definition proxy_service (domain : string) (r : InterceptResolver) : option InterceptMatch :=
  w ← List.find (λ w, bool_decide (suffix w = domain)) (wildcards r);
  Some (mkInterceptMatch (w_service w) (w_dial_timeout w)).

Definition is_empty (r : InterceptResolver) : bool :=
  bool_decide (length (entries r) = 0%nat) && bool_decide (length (wildcards r) = 0%nat).

Definition intercept_cidrs (r : InterceptResolver) : list IpNet :=
  foldl (λ out e, if bool_decide (cidr e ∈ out) then out else out ++ [cidr e]) [] (entries r).

(** ** Changes (resolver.rs, literal.rs) *)

Definition literal_addrs (cfg : InterceptV1Config) : list IpNet := omap parse_ip_or_cidr (addresses cfg).

Definition literal_route_addrs (raw : Json) : list IpNet :=
  match from_value raw with Ok cfg => literal_addrs cfg | Err _ => [] end.

Definition remove_service (name : string) (r : InterceptResolver) : list IpNet * InterceptResolver :=
  (match installed_configs r !! name with Some raw => literal_route_addrs raw | None => [] end,
   mkResolver (List.filter (λ e, negb (bool_decide (service e = name))) (entries r))
     (List.filter (λ w, negb (bool_decide (w_service w = name))) (wildcards r))
     (deregister_intercept name (dns r)) (delete name (installed_configs r))).

(** The two inner loops, over protocols and port ranges. *)
Definition per_port {A} (cfg : InterceptV1Config) (f : string → PortRange → A) : list A :=
  concat (map (λ p, map (f p) (port_ranges cfg)) (protocols cfg)).

Definition entries_for (name : string) (cfg : InterceptV1Config) (c : IpNet) : list InterceptEntry :=
  per_port cfg (λ proto pr, mkIntercept c (low pr) (high pr) proto name (dial_timeout_for cfg)
    (build_allowed_sources (allowed_source_addresses cfg))).

Definition wildcards_for (name : string) (cfg : InterceptV1Config) (s : string) : list WildcardEntry :=
  per_port cfg (λ proto pr, mkWildcard s (low pr) (high pr) proto name (dial_timeout_for cfg)
    (build_allowed_sources (allowed_source_addresses cfg))).

(** One turn of the address loop.  The [unreachable!] of a domain without its
    [*.] and the [expect] of the host network leave the tables as they are. *)
Definition install_address (name : string) (cfg : InterceptV1Config) (r : InterceptResolver) (addr : string)
    : InterceptResolver :=
  if starts_with "*." addr then
    let d := (register addr name (dns r)).2 in
    let ws := match wildcard_suffix addr with Some s => wildcards_for name cfg s | None => [] end in
    mkResolver (entries r) (wildcards r ++ ws) d (installed_configs r)
  else
    let '(c, d) :=
      match parse_ip_or_cidr addr with
      | Some c => (Some c, dns r)
      | None =>
          match register addr name (dns r) with
          | (RegHostname a, d) => (net_new (V4 a) 32, d)
          | (_, d) => (None, d)
          end
      end in
    let es := match c with Some c => entries_for name cfg c | None => [] end in
    mkResolver (entries r ++ es) (wildcards r) d (installed_configs r).

Definition add_service (svc : Service) (r : InterceptResolver) : AppliedEvent * InterceptResolver :=
  let had_installed := bool_decide (is_Some (installed_configs r !! svc_name svc)) in
  if negb (existsb (λ p, bool_decide (p = "Dial"%string)) (permissions svc)) then
    let '(gone, r) := remove_service (svc_name svc) r in (mkApplied (mkDelta gone []) had_installed, r)
  else
    match intercept_v1_config svc, config svc !! INTERCEPT_V1_CONFIG_TYPE with
    | Ok (Some cfg), Some raw =>
        if bool_decide (installed_configs r !! svc_name svc = Some raw) then (nothing, r)
        else
          let '(gone, r) := remove_service (svc_name svc) r in
          let r := mkResolver (entries r) (wildcards r) (dns r) (<[svc_name svc := raw]> (installed_configs r)) in
          (mkApplied (mkDelta gone (literal_addrs cfg)) had_installed,
           foldl (install_address (svc_name svc) cfg) r (addresses cfg))
    | _, _ => (nothing, r)
    end.

Definition from_services_with_dns (svcs : list Service) (d : DnsMatcher) : InterceptResolver :=
  foldl (λ r svc, (add_service svc r).2) (mkResolver [] [] d ∅) svcs.

Definition from_services (svcs : list Service) : InterceptResolver := from_services_with_dns svcs matcher_new.

Definition apply_event (ev : ServiceEvent) (r : InterceptResolver) : AppliedEvent * InterceptResolver :=
  match ev with
  | Added svc | Changed svc => add_service svc r
  | Removed svc =>
      let '(gone, r) := remove_service (svc_name svc) r in (mkApplied (mkDelta gone []) true, r)
  end.

(** The DNS server's queries go through the same matcher ([dns_mut]). *)
Definition dns_query (q : string) (r : InterceptResolver) : InterceptResolver :=
  mkResolver (entries r) (wildcards r) (lookup_query q (dns r)).2 (installed_configs r).

End resolver.

(** ** Specification: what the installed configs say *)

(** A service's claim on a hostname's address. *)
Definition claim (i : string) (d : DnsMatcher) (name : string) (a : Z) : Prop :=
  ∃ e, hostnames d !! name = Some e ∧ i ∈ intercepts e ∧ ip e = a.

Section spec.
Context `{JsonLib} `{IpNetLib}.
Context (from_value : Json → result string InterceptV1Config).

(** The network an address of a service's config stands for: itself, or the
    address its hostname was given. *)
Definition addr_net (d : DnsMatcher) (i addr : string) (c : IpNet) : Prop :=
  starts_with "*." addr = false ∧
  (parse_ip_or_cidr addr = Some c ∨
   parse_ip_or_cidr addr = None ∧
     ∃ name a, check_name addr = Some (name, false) ∧ claim i d name a ∧ net_new (V4 a) 32 = Some c).

Definition spec_entry (conf : gmap string InterceptV1Config) (d : DnsMatcher) (e : InterceptEntry) : Prop :=
  ∃ cfg addr, conf !! service e = Some cfg ∧ addr ∈ addresses cfg ∧ addr_net d (service e) addr (cidr e) ∧
    e ∈ entries_for (service e) cfg (cidr e).

Definition spec_wildcard (conf : gmap string InterceptV1Config) (w : WildcardEntry) : Prop :=
  ∃ cfg addr, conf !! w_service w = Some cfg ∧ addr ∈ addresses cfg ∧ starts_with "*." addr = true ∧
    wildcard_suffix addr = Some (suffix w) ∧ w ∈ wildcards_for (w_service w) cfg (suffix w).

(** The tables hold exactly what the configs [conf] say, and only their services
    have claims on names. *)
Record resolver_spec (conf : gmap string InterceptV1Config) (r : InterceptResolver) : Prop := {
  rs_dns : matcher_ok (dns r);
  rs_entries e : e ∈ entries r ↔ spec_entry conf (dns r) e;
  rs_wildcards w : w ∈ wildcards r ↔ spec_wildcard conf w;
  rs_claims i : claims i (dns r) → is_Some (conf !! i)
}.

(** The configs of the installed services. *)
Definition conf_of (r : InterceptResolver) : gmap string InterceptV1Config :=
  omap (λ raw, match from_value raw with Ok cfg => Some cfg | Err _ => None end) (installed_configs r).

Definition resolver_ok (r : InterceptResolver) : Prop :=
  resolver_spec (conf_of r) r ∧
  ∀ n raw, installed_configs r !! n = Some raw → is_Some (conf_of r !! n).

(** What changes a resolver: service events and the queries of the DNS server. *)
Inductive resolver_step : InterceptResolver → InterceptResolver → Prop :=
| rs_event ev r : resolver_step r (apply_event from_value ev r).2
| rs_query q r : resolver_step r (dns_query q r).

(** A domain is a wildcard's when it is its suffix or below it. *)
Definition under (sfx domain : string) : Prop := domain = sfx ∨ ∃ head, domain = (head +:+ "." +:+ sfx)%string.

(** What a config intercepts: the protocol, port and source it permits... *)
Definition permits (cfg : InterceptV1Config) (port : Z) (proto : Protocol) (src : IpAddr) : Prop :=
  as_str proto ∈ protocols cfg ∧ (∃ pr, pr ∈ port_ranges cfg ∧ low pr <= port <= high pr) ∧
  source_allowed (build_allowed_sources (allowed_source_addresses cfg)) src = true.

(** ... and the destinations: the networks of its addresses, and the addresses the
    DNS server gave to names under its wildcards. *)
Definition by_address (r : InterceptResolver) (n : string) (cfg : InterceptV1Config) (dst : IpAddr) : Prop :=
  ∃ addr c, addr ∈ addresses cfg ∧ addr_net (dns r) n addr c ∧ net_contains c dst = true.

Definition by_wildcard (r : InterceptResolver) (cfg : InterceptV1Config) (dst : IpAddr) : Prop :=
  ∃ addr sfx v4 domain, addr ∈ addresses cfg ∧ starts_with "*." addr = true ∧ wildcard_suffix addr = Some sfx ∧
    dst = V4 v4 ∧ reverse_lookup_domain v4 (dns r) = Some domain ∧ under sfx domain.

(** A resolver as the tunneler makes it, before any event. *)
Definition initial (d : DnsMatcher) : InterceptResolver := mkResolver [] [] d ∅.
Definition fresh_dns (d : DnsMatcher) : Prop := matcher_ok d ∧ ∀ i, ¬ claims i d.

(** The installed configs follow a cache of services: a service's config is
    installed exactly if the service is there with the Dial permission; one whose
    config is missing or malformed may keep an earlier one. *)
Definition synced (c : gmap string Service) (r : InterceptResolver) : Prop :=
  ∀ n, match c !! n with
       | None => installed_configs r !! n = None
       | Some s =>
           if existsb (λ p, bool_decide (p = "Dial"%string)) (permissions s) then
             match intercept_v1_config from_value s with
             | Ok (Some _) => installed_configs r !! n = config s !! INTERCEPT_V1_CONFIG_TYPE
             | _ => True
             end
           else installed_configs r !! n = None
       end.

(** The events one after the other: what each did, and the resolver. *)
Fixpoint apply_events (evs : list ServiceEvent) (r : InterceptResolver) : list AppliedEvent * InterceptResolver :=
  match evs with
  | [] => ([], r)
  | ev :: evs =>
      let '(a, r) := apply_event from_value ev r in
      let '(l, r) := apply_events evs r in (a :: l, r)
  end.

Definition event_name (ev : ServiceEvent) : string :=
  match ev with Added s | Changed s | Removed s => svc_name s end.

(** The literal networks of all installed configs. *)
Definition map_routes (m : gmap string Json) : list IpNet :=
  concat (map (λ kv, literal_route_addrs from_value kv.2) (map_to_list m)).
Definition installed_routes (r : InterceptResolver) : list IpNet := map_routes (installed_configs r).

End spec.

(** ** Lemmas: claims *)

Lemma register_claim addr i d j name a :
  matcher_ok d →
  claim j (register addr i d).2 name a ↔
    claim j d name a ∨ (j = i ∧ check_name addr = Some (name, false) ∧ (register addr i d).1 = RegHostname a).
Proof.
  intros Hok. unfold register, claim. destruct (check_name addr) as [[clean []]|]; cbn;
    [by split; [left|intros [?|(_ & [=] & _)]]| |by split; [left|intros [?|(_ & [=] & _)]]].
  destruct (hostnames d !! clean) as [e|] eqn:E; cbn.
  - destruct (decide (name = clean)) as [->|Hne].
    + rewrite lookup_insert_eq, E. split.
      * intros (e' & [= <-] & Hin & <-). cbn in *. apply elem_of_union in Hin as [->%elem_of_singleton|Hin]; eauto.
      * intros [(e' & [= <-] & Hin & <-)|(-> & _ & [= <-])]; eexists; (split; [done|]); cbn; set_solver +Hin || set_solver +.
    + rewrite lookup_insert_ne by done. split; [by left|]. intros [?|(-> & [= ->] & _)]; done.
  - pose proof (allocate_ip_spec d (mo_pool d Hok)) as Ha. destruct (allocate_ip d) as [[b|] d']; cbn.
    + destruct Ha as (Hh & _). rewrite Hh. destruct (decide (name = clean)) as [->|Hne].
      * rewrite lookup_insert_eq, E. split.
        -- intros (e' & [= <-] & Hin & <-). right. cbn in *. by apply elem_of_singleton in Hin.
        -- intros [(e' & [=] & _)|(-> & _ & [= <-])]. eexists. split; [done|]. cbn. set_solver +.
      * rewrite lookup_insert_ne by done. split; [by left|]. intros [?|(-> & [= ->] & _)]; done.
    + destruct Ha as (Hh & _). rewrite Hh. split; [by left|]. by intros [?|(_ & _ & ?)].
Qed.

Lemma lookup_claim q d j name a :
  matcher_ok d → claim j (lookup_query q d).2 name a ↔ claim j d name a.
Proof.
  intros Hok. unfold lookup_query. destruct (check_name q) as [[clean []]|]; [done| |done].
  destruct (hostnames d !! clean) as [e|] eqn:E; [done|].
  destruct (find_domain clean (domains d)); [|done].
  pose proof (allocate_ip_spec d (mo_pool d Hok)) as Ha. unfold claim.
  destruct (allocate_ip d) as [[b|] d']; cbn; destruct Ha as (Hh & _); rewrite Hh; [|done].
  destruct (decide (name = clean)) as [->|Hne]; [|by rewrite lookup_insert_ne].
  rewrite lookup_insert_eq, E. split; [|by intros (? & ? & _)].
  intros (e' & [= <-] & Hin & _). cbn in Hin. set_solver.
Qed.

Lemma deregister_claim i d j name a :
  claim j (deregister_intercept i d) name a ↔ claim j d name a ∧ j ≠ i.
Proof.
  unfold claim. split.
  - intros (e' & (e & He & Hr)%deregister_hostnames & Hin & <-).
    destruct (release_entry_Some _ _ _ _ Hr) as [-> _]. cbn in *.
    apply elem_of_difference in Hin as [Hin Hne]. rewrite elem_of_singleton in Hne. split; [by exists e|done].
  - intros [(e & He & Hin & <-) Hne]. exists (mkEntry (ip e) (domain e) (intercepts e ∖ {[i]})).
    split; [|cbn; set_solver]. apply deregister_hostnames. exists e. split; [done|].
    unfold release_entry. rewrite bool_decide_false; [done|]. set_solver.
Qed.

Lemma register_domains addr i d s :
  matcher_ok d →
  domains (register addr i d).2 !! s = domains d !! s ∨
  domains (register addr i d).2 !! s = Some ({[i]} ∪ default ∅ (domains d !! s)).
Proof.
  intros Hok. unfold register. destruct (check_name addr) as [[clean []]|]; cbn; [| |by left].
  - destruct (decide (s = skip2 clean)) as [->|Hne]; [right; by rewrite lookup_insert_eq|left].
    by rewrite lookup_insert_ne.
  - destruct (hostnames d !! clean); [by left|]. pose proof (allocate_ip_spec d (mo_pool d Hok)) as Ha.
    left. destruct (allocate_ip d) as [[b|] d']; destruct Ha as (_ & Hd & _); cbn; by rewrite Hd.
Qed.

Lemma register_claims addr i d j : matcher_ok d → claims j (register addr i d).2 → claims j d ∨ j = i.
Proof.
  intros Hok [(h & e & He & Hin)|(s & o & Ho & Hin)].
  - assert (Hc : claim j (register addr i d).2 h (ip e)) by (exists e; done).
    apply (register_claim addr i d j h (ip e) Hok) in Hc as [(e' & He' & Hin' & _)|[-> _]]; [|by right].
    left. left. eauto.
  - destruct (register_domains addr i d s Hok) as [Heq|Heq]; rewrite Heq in Ho.
    + left. right. eauto.
    + injection Ho as <-. apply elem_of_union in Hin as [Hin|Hin]; [right; by apply elem_of_singleton in Hin|].
      left. right. destruct (domains d !! s) as [o|] eqn:E; cbn in Hin; [eauto|by apply not_elem_of_empty in Hin].
Qed.

Lemma lookup_claims q d j : matcher_ok d → claims j (lookup_query q d).2 → claims j d.
Proof.
  intros Hok [(h & e & He & Hin)|(s & o & Ho & Hin)].
  - assert (Hc : claim j (lookup_query q d).2 h (ip e)) by (exists e; done).
    apply (lookup_claim q d j h (ip e) Hok) in Hc as (e' & He' & Hin' & _). left. eauto.
  - right. exists s, o. split; [|done]. revert Ho. unfold lookup_query.
    destruct (check_name q) as [[clean []]|]; [done| |done]. destruct (hostnames d !! clean); [done|].
    destruct (find_domain clean (domains d)); [|done]. pose proof (allocate_ip_spec d (mo_pool d Hok)) as Ha.
    destruct (allocate_ip d) as [[b|] d']; destruct Ha as (_ & Hd & _); cbn; by rewrite Hd.
Qed.

Lemma deregister_claims i d j : claims j (deregister_intercept i d) → claims j d ∧ j ≠ i.
Proof.
  intros Hc. split; [|intros ->; by eapply deregister_no_claims].
  destruct Hc as [(h & e' & (e & He & Hr)%deregister_hostnames & Hin)|(s & o & Ho & Hin)].
  - destruct (release_entry_Some _ _ _ _ Hr) as [-> _]. left. exists h, e. cbn in Hin. split; [done|].
    by apply elem_of_difference in Hin as [? _].
  - cbn in Ho. apply map_lookup_filter_Some in Ho as [Ho _]. rewrite lookup_fmap in Ho.
    destruct (domains d !! s) as [o0|] eqn:E; [|done]. injection Ho as <-.
    apply elem_of_difference in Hin as [Hin _]. right. by exists s, o0.
Qed.

(** A registered name keeps its address. *)
Lemma register_existing addr i d name e :
  check_name addr = Some (name, false) → hostnames d !! name = Some e →
  (register addr i d).1 = RegHostname (ip e).
Proof. intros Hc He. unfold register. by rewrite Hc, He. Qed.

Lemma register_hostname addr i d a :
  (register addr i d).1 = RegHostname a → ∃ name, check_name addr = Some (name, false).
Proof. unfold register. destruct (check_name addr) as [[clean []]|]; [done|eauto|done]. Qed.

Lemma wildcard_not_hostname addr name : starts_with "*." addr = true → check_name addr ≠ Some (name, false).
Proof.
  unfold starts_with, check_name. destruct (strip_prefix "*." addr); [|done]. intros _. by case_decide.
Qed.

Lemma elem_of_filter_negb {A} (P : A → Prop) `{∀ x, Decision (P x)} x l :
  x ∈ List.filter (λ y, negb (bool_decide (P y))) l ↔ x ∈ l ∧ ¬ P x.
Proof.
  rewrite list_elem_of_In, filter_In, <-list_elem_of_In, negb_true_iff, bool_decide_eq_false. done.
Qed.

Lemma find_Some_elem {A} (f : A → bool) l x : List.find f l = Some x → x ∈ l ∧ f x = true.
Proof. intros Hf. apply find_some in Hf as [Hin Hf]. by rewrite list_elem_of_In. Qed.

Lemma find_None_elem {A} (f : A → bool) l x : List.find f l = None → x ∈ l → f x = false.
Proof. intros Hf Hin. eapply find_none; [exact Hf|by apply list_elem_of_In]. Qed.

Section lemmas.
Context `{JsonLib} `{IpNetLib}.
Context (from_value : Json → result string InterceptV1Config).
Implicit Types (conf : gmap string InterceptV1Config) (r : InterceptResolver) (d : DnsMatcher).

(** ** Lemmas: the specification *)

Lemma addr_net_claims d d' i addr c :
  (∀ name a, claim i d name a ↔ claim i d' name a) → addr_net d i addr c ↔ addr_net d' i addr c.
Proof. intros Hc. unfold addr_net. by setoid_rewrite Hc. Qed.

Lemma spec_entry_claims conf d d' e :
  (∀ name a, claim (service e) d name a ↔ claim (service e) d' name a) →
  spec_entry conf d e ↔ spec_entry conf d' e.
Proof.
  intros Hc. unfold spec_entry. split; intros (cfg & addr & H1 & H2 & H3 & H4); exists cfg, addr;
    (split_and!; [done|done| |done]); by eapply (addr_net_claims d d').
Qed.

Lemma spec_entry_conf conf conf' d e :
  conf !! service e = conf' !! service e → spec_entry conf d e ↔ spec_entry conf' d e.
Proof. intros Hc. unfold spec_entry. by rewrite Hc. Qed.

Lemma spec_wildcard_conf conf conf' w :
  conf !! w_service w = conf' !! w_service w → spec_wildcard conf w ↔ spec_wildcard conf' w.
Proof. intros Hc. unfold spec_wildcard. by rewrite Hc. Qed.

Lemma spec_entry_None conf d e : conf !! service e = None → ¬ spec_entry conf d e.
Proof. intros Hc (cfg & addr & Hs & _). congruence. Qed.

Lemma spec_wildcard_None conf w : conf !! w_service w = None → ¬ spec_wildcard conf w.
Proof. intros Hc (cfg & addr & Hs & _). congruence. Qed.

(** ** Lemmas: removal and queries *)

Lemma remove_service_spec conf name r :
  resolver_spec conf r → resolver_spec (delete name conf) (remove_service from_value name r).2.
Proof.
  intros [Hd He Hw Hc]. split; cbn.
  - by apply deregister_ok.
  - intros e. rewrite elem_of_filter_negb, He. destruct (decide (service e = name)) as [Heq|Hne].
    + split; [tauto|]. intros Hs. exfalso. eapply spec_entry_None, Hs. rewrite Heq. apply lookup_delete_eq.
    + rewrite (spec_entry_conf conf (delete name conf)) by by rewrite lookup_delete_ne.
      rewrite (spec_entry_claims _ (dns r) (deregister_intercept name (dns r))); [tauto|].
      intros n a. rewrite deregister_claim. tauto.
  - intros w. rewrite elem_of_filter_negb, Hw. destruct (decide (w_service w = name)) as [Heq|Hne].
    + split; [tauto|]. intros Hs. exfalso. eapply spec_wildcard_None, Hs. rewrite Heq. apply lookup_delete_eq.
    + rewrite (spec_wildcard_conf conf (delete name conf)) by by rewrite lookup_delete_ne. tauto.
  - intros i [Hi Hne]%deregister_claims. rewrite lookup_delete_ne by done. by apply Hc.
Qed.

Lemma dns_query_spec conf q r : resolver_spec conf r → resolver_spec conf (dns_query q r).
Proof.
  intros [Hd He Hw Hc]. split; cbn.
  - by apply lookup_query_ok.
  - intros e. rewrite He. apply spec_entry_claims. intros n a. symmetry. by apply lookup_claim.
  - done.
  - intros i Hi. eapply Hc, lookup_claims; done.
Qed.

(** ** Lemmas: installation, one address at a time *)

(** The config with the addresses handled so far. *)
Definition with_addresses (l : list string) (cfg : InterceptV1Config) : InterceptV1Config :=
  mkConfig (protocols cfg) l (port_ranges cfg) (dial_options cfg) (source_ip cfg) (allowed_source_addresses cfg).

Lemma install_nothing conf n cfg r :
  resolver_spec (delete n conf) r → resolver_spec (<[n := with_addresses [] cfg]> conf) r.
Proof.
  intros [Hd He Hw Hc]. split; [done| | |].
  - intros e. rewrite He. destruct (decide (service e = n)) as [Heq|Hne].
    + split; intros Hs; exfalso; [eapply spec_entry_None, Hs; rewrite Heq; apply lookup_delete_eq|].
      destruct Hs as (cfg' & addr & Hcfg & Hin & _). rewrite Heq, lookup_insert_eq in Hcfg. injection Hcfg as <-.
      by apply elem_of_nil in Hin.
    + apply spec_entry_conf. by rewrite lookup_delete_ne, lookup_insert_ne.
  - intros w. rewrite Hw. destruct (decide (w_service w = n)) as [Heq|Hne].
    + split; intros Hs; exfalso; [eapply spec_wildcard_None, Hs; rewrite Heq; apply lookup_delete_eq|].
      destruct Hs as (cfg' & addr & Hcfg & Hin & _). rewrite Heq, lookup_insert_eq in Hcfg. injection Hcfg as <-.
      by apply elem_of_nil in Hin.
    + apply spec_wildcard_conf. by rewrite lookup_delete_ne, lookup_insert_ne.
  - intros i Hi. destruct (decide (i = n)) as [->|Hne]; [by rewrite lookup_insert_eq|].
    rewrite lookup_insert_ne by done. apply Hc in Hi. by rewrite lookup_delete_ne in Hi.
Qed.

(** What one more address adds to the specification. *)
Lemma spec_entry_snoc conf n cfg l addr d e :
  spec_entry (<[n := with_addresses (l ++ [addr]) cfg]> conf) d e ↔
    spec_entry (<[n := with_addresses l cfg]> conf) d e ∨
    (service e = n ∧ addr_net d n addr (cidr e) ∧ e ∈ entries_for n cfg (cidr e)).
Proof.
  destruct (decide (service e = n)) as [<-|Hne].
  - unfold spec_entry. rewrite !lookup_insert_eq. split.
    + intros (cfg' & a & [= <-] & Hin & Hnet & He). cbn in Hin. apply elem_of_app in Hin as [Hin|Hin].
      * left. by exists (with_addresses l cfg), a.
      * apply list_elem_of_singleton in Hin as ->. by right.
    + intros [(cfg' & a & [= <-] & Hin & Hnet & He)|(_ & Hnet & He)]; eexists.
      * exists a. split_and!; [done|cbn in *; apply elem_of_app; by left|done|exact He].
      * exists addr. split_and!; [done|cbn; apply elem_of_app; right; by left|done|exact He].
  - rewrite (spec_entry_conf _ (<[n := with_addresses l cfg]> conf)) by by rewrite !lookup_insert_ne. tauto.
Qed.

Lemma spec_wildcard_snoc conf n cfg l addr w :
  spec_wildcard (<[n := with_addresses (l ++ [addr]) cfg]> conf) w ↔
    spec_wildcard (<[n := with_addresses l cfg]> conf) w ∨
    (w_service w = n ∧ starts_with "*." addr = true ∧ wildcard_suffix addr = Some (suffix w) ∧
      w ∈ wildcards_for n cfg (suffix w)).
Proof.
  destruct (decide (w_service w = n)) as [<-|Hne].
  - unfold spec_wildcard. rewrite !lookup_insert_eq. split.
    + intros (cfg' & a & [= <-] & Hin & Hs & Hx & Hw). cbn in Hin. apply elem_of_app in Hin as [Hin|Hin].
      * left. by exists (with_addresses l cfg), a.
      * apply list_elem_of_singleton in Hin as ->. by right.
    + intros [(cfg' & a & [= <-] & Hin & Hs & Hx & Hw)|(_ & Hs & Hx & Hw)]; eexists.
      * exists a. split_and!; [done|cbn in *; apply elem_of_app; by left|done|done|exact Hw].
      * exists addr. split_and!; [done|cbn; apply elem_of_app; right; by left|done|done|exact Hw].
  - rewrite (spec_wildcard_conf _ (<[n := with_addresses l cfg]> conf)) by by rewrite !lookup_insert_ne. tauto.
Qed.

Lemma elem_of_per_port {A} cfg (f : string → PortRange → A) x :
  x ∈ per_port cfg f ↔ ∃ p pr, p ∈ protocols cfg ∧ pr ∈ port_ranges cfg ∧ x = f p pr.
Proof.
  unfold per_port. rewrite list_elem_of_In, in_concat. split.
  - intros (l & Hl & Hx). apply in_map_iff in Hl as (p & <- & Hp). apply in_map_iff in Hx as (pr & <- & Hpr).
    exists p, pr. by rewrite !list_elem_of_In.
  - intros (p & pr & Hp & Hpr & ->). exists (map (f p) (port_ranges cfg)). rewrite !in_map_iff.
    rewrite list_elem_of_In in Hp. rewrite list_elem_of_In in Hpr. split; [by exists p|by exists pr].
Qed.

Lemma entries_for_inv n cfg c e : e ∈ entries_for n cfg c → service e = n ∧ cidr e = c.
Proof. intros (p & pr & _ & _ & ->)%elem_of_per_port. done. Qed.

Lemma wildcards_for_inv n cfg s w : w ∈ wildcards_for n cfg s → w_service w = n ∧ suffix w = s.
Proof. intros (p & pr & _ & _ & ->)%elem_of_per_port. done. Qed.

(** Registering for [n] leaves what the configs say of a service as it was, as
    long as it gives [n] no new claim. *)
Lemma register_spec_entry conf addr n d e :
  matcher_ok d →
  (service e ≠ n ∨ ∀ a, (register addr n d).1 ≠ RegHostname a) →
  spec_entry conf (register addr n d).2 e ↔ spec_entry conf d e.
Proof.
  intros Hok Hor. apply spec_entry_claims. intros name a. rewrite register_claim by done. split; [|by left].
  intros [Hc|(Hj & _ & Ho)]; [done|]. destruct Hor as [?|Hor]; [done|]. by apply Hor in Ho.
Qed.

Lemma claims_snoc conf n cfg l addr i :
  is_Some (<[n := with_addresses l cfg]> conf !! i) ∨ i = n →
  is_Some (<[n := with_addresses (l ++ [addr]) cfg]> conf !! i).
Proof.
  destruct (decide (i = n)) as [->|Hne]; [intros _; by rewrite lookup_insert_eq|].
  rewrite !lookup_insert_ne by done. by intros [?|?].
Qed.

(** The entries a hostname's registration calls for. *)
Lemma hostname_entries `{!IpNetLaws} conf n cfg l addr d a e :
  matcher_ok d → starts_with "*." addr = false → parse_ip_or_cidr addr = None →
  (register addr n d).1 = RegHostname a →
  (spec_entry (<[n := with_addresses (l ++ [addr]) cfg]> conf) (register addr n d).2 e ↔
    spec_entry (<[n := with_addresses l cfg]> conf) d e ∨
    ∃ c, net_new (V4 a) 32 = Some c ∧ e ∈ entries_for n cfg c).
Proof.
  intros Hok Hst Hp Ho. destruct (register_hostname _ _ _ _ Ho) as [name Hname].
  assert (Hclaim : claim n (register addr n d).2 name a) by (apply register_claim; [done|]; by right).
  assert (Huniq : ∀ a', claim n (register addr n d).2 name a' → a' = a).
  { intros a' (x & Hx & _ & <-). destruct Hclaim as (y & Hy & _ & <-). congruence. }
  destruct (decide (service e = n)) as [He|Hne].
  - split.
    + intros (cfg' & ad & Hcfg & Hin & Hnet & Hfor). rewrite He, lookup_insert_eq in Hcfg. injection Hcfg as <-.
      rewrite He in Hnet, Hfor. cbn in Hin.
      assert (Hnew : ∀ nm, check_name addr = Some (nm, false) → ∀ a', a' = a → net_new (V4 a') 32 = Some (cidr e) →
        ∃ c, net_new (V4 a) 32 = Some c ∧ e ∈ entries_for n cfg c) by (intros ? _ ? -> Hc; by exists (cidr e)).
      apply elem_of_app in Hin as [Hin|Hin].
      * destruct Hnet as [Hs [Hlit|(Hnone & nm & a' & Hnm & Hcl & Hc)]].
        -- left. exists (with_addresses l cfg), ad. rewrite He, lookup_insert_eq. split_and!; try done. split; [done|by left].
        -- apply register_claim in Hcl as [Hcl|(_ & Hnm' & Ho')]; [| |done].
           ++ left. exists (with_addresses l cfg), ad. rewrite He, lookup_insert_eq. split_and!; try done.
              split; [done|]. right. split; [done|]. by exists nm, a'.
           ++ right. eapply Hnew; [exact Hnm'| |exact Hc]. congruence.
      * apply list_elem_of_singleton in Hin as ->. destruct Hnet as [_ [Hlit|(_ & nm & a' & Hnm & Hcl & Hc)]]; [congruence|].
        right. eapply Hnew; [exact Hnm| |exact Hc]. apply Huniq. congruence.
    + intros [(cfg' & ad & Hcfg & Hin & Hnet & Hfor)|(c & Hc & Hfor)].
      * rewrite He, lookup_insert_eq in Hcfg. injection Hcfg as <-. rewrite He in Hnet, Hfor.
        exists (with_addresses (l ++ [addr]) cfg), ad. rewrite He, lookup_insert_eq. cbn in *.
        split_and!; [done|apply elem_of_app; by left| |done]. destruct Hnet as [Hs [Hlit|(Hnone & nm & a' & Hnm & Hcl & Hc)]].
        -- split; [done|by left].
        -- split; [done|]. right. split; [done|]. exists nm, a'. split_and!; try done. apply register_claim; [done|by left].
      * destruct (entries_for_inv _ _ _ _ Hfor) as [_ Hcid]. subst c.
        exists (with_addresses (l ++ [addr]) cfg), addr. rewrite He, lookup_insert_eq. cbn.
        split_and!; [done|apply elem_of_app; right; by left| |done]. split; [done|]. right. split; [done|]. eauto.
  - rewrite spec_entry_snoc, register_spec_entry by auto. split; [|].
    + intros [?|[? _]]; [by left|done].
    + intros [?|(c & _ & Hfor)]; [by left|]. by destruct (entries_for_inv _ _ _ _ Hfor).
Qed.


(** A literal address or a failed registration: no claims change for [n]. *)
Lemma spec_entry_literal conf n cfg l addr d e c :
  starts_with "*." addr = false → parse_ip_or_cidr addr = Some c →
  spec_entry (<[n := with_addresses (l ++ [addr]) cfg]> conf) d e ↔
    spec_entry (<[n := with_addresses l cfg]> conf) d e ∨ e ∈ entries_for n cfg c.
Proof.
  intros Hs Hp. rewrite spec_entry_snoc. apply or_iff_compat_l. split.
  - intros (_ & [_ [Hc|[Hc _]]] & Hfor); congruence.
  - intros Hfor. destruct (entries_for_inv _ _ _ _ Hfor) as [He Hc]. subst c. split_and!; [done| |done].
    split; [done|by left].
Qed.

Lemma failed_entries conf n cfg l addr d e :
  matcher_ok d → (starts_with "*." addr = true ∨ parse_ip_or_cidr addr = None) →
  (∀ a, (register addr n d).1 ≠ RegHostname a) →
  spec_entry (<[n := with_addresses (l ++ [addr]) cfg]> conf) (register addr n d).2 e ↔
    spec_entry (<[n := with_addresses l cfg]> conf) d e.
Proof.
  intros Hok Hor Ho. rewrite spec_entry_snoc, register_spec_entry by auto.
  split; [|by left]. intros [?|(_ & [Hs [Hc|(_ & nm & a & Hnm & Hcl & _)]] & _)]; [done| |].
  - destruct Hor as [?|?]; congruence.
  - apply register_claim in Hcl as [(x & Hx & _ & _)|(_ & _ & Hr)]; [|by apply Ho in Hr|done].
    exfalso. eapply Ho. by apply register_existing with nm.
Qed.

Lemma wildcards_literal conf n cfg l addr w :
  starts_with "*." addr = false →
  spec_wildcard (<[n := with_addresses (l ++ [addr]) cfg]> conf) w ↔
    spec_wildcard (<[n := with_addresses l cfg]> conf) w.
Proof. intros Hs. rewrite spec_wildcard_snoc. split; [intros [?|(_ & Hs' & _)]; [done|congruence]|by left]. Qed.

Lemma register_claims_conf conf n cfg l addr d i :
  matcher_ok d → (∀ j, claims j d → is_Some (<[n := with_addresses l cfg]> conf !! j)) →
  claims i (register addr n d).2 → is_Some (<[n := with_addresses (l ++ [addr]) cfg]> conf !! i).
Proof. intros Hok Hc Hi. apply claims_snoc. apply register_claims in Hi as [Hi| ->]; [left; by apply Hc|by right|done]. Qed.

Lemma install_address_spec `{!IpNetLaws} conf n cfg l addr r :
  resolver_spec (<[n := with_addresses l cfg]> conf) r →
  resolver_spec (<[n := with_addresses (l ++ [addr]) cfg]> conf) (install_address n cfg r addr).
Proof.
  intros [Hd He Hw Hc]. unfold install_address. destruct (starts_with "*." addr) eqn:Hs.
  { split; cbn.
    - by apply register_ok.
    - intros e. rewrite He, failed_entries; auto. intros a Ho. apply register_hostname in Ho as [nm Hnm].
      by eapply wildcard_not_hostname.
    - intros w. rewrite elem_of_app, Hw, spec_wildcard_snoc. apply or_iff_compat_l.
      destruct (wildcard_suffix addr) as [sfx|].
      + split; [intros Hin; destruct (wildcards_for_inv _ _ _ _ Hin) as [? <-]; done|by intros (_ & _ & [= <-] & Hin)].
      + split; [by intros ?%elem_of_nil|by intros (_ & _ & ? & _)].
    - intros i. by apply register_claims_conf. }
  destruct (parse_ip_or_cidr addr) as [c|] eqn:Hp.
  { split; cbn; [done| | |].
    - intros e. by rewrite elem_of_app, He, spec_entry_literal.
    - intros w. by rewrite Hw, wildcards_literal.
    - intros i Hi. apply claims_snoc. left. by apply Hc. }
  assert (Hrest : ∀ es, (∀ e, spec_entry (<[n := with_addresses (l ++ [addr]) cfg]> conf) (register addr n (dns r)).2 e ↔
      spec_entry (<[n := with_addresses l cfg]> conf) (dns r) e ∨ e ∈ es) →
    resolver_spec (<[n := with_addresses (l ++ [addr]) cfg]> conf)
      (mkResolver (entries r ++ es) (wildcards r) (register addr n (dns r)).2 (installed_configs r))).
  { intros es Hes. split; cbn.
    - by apply register_ok.
    - intros e. by rewrite elem_of_app, He, Hes.
    - intros w. by rewrite Hw, wildcards_literal.
    - intros i. by apply register_claims_conf. }
  destruct (register addr n (dns r)) as [o d'] eqn:Er.
  assert (Hfail : (∀ a, o ≠ RegHostname a) →
    resolver_spec (<[n := with_addresses (l ++ [addr]) cfg]> conf) (mkResolver (entries r ++ []) (wildcards r) d' (installed_configs r))).
  { intros Ho. apply Hrest. intros e. pose proof (failed_entries conf n cfg l addr (dns r) e Hd (or_intror Hp)) as Hf.
    rewrite Er in Hf. rewrite Hf by done. split; [by left|]. by intros [?|?%elem_of_nil]. }
  destruct o as [| |a|]; [by apply Hfail|by apply Hfail| |by apply Hfail].
  apply Hrest. intros e. pose proof (hostname_entries conf n cfg l addr (dns r) a e Hd Hs Hp) as Hh.
  rewrite Er in Hh. rewrite Hh by done. apply or_iff_compat_l. destruct (net_new (V4 a) 32) as [c|].
  - split; [by intros (? & [= <-] & ?)|by exists c].
  - split; [by intros (? & ? & _)|by intros ?%elem_of_nil].
Qed.

Lemma install_addresses_spec `{!IpNetLaws} conf n cfg l todo r :
  resolver_spec (<[n := with_addresses l cfg]> conf) r →
  resolver_spec (<[n := with_addresses (l ++ todo) cfg]> conf) (foldl (install_address n cfg) r todo).
Proof.
  revert l r. induction todo as [|addr todo IH]; intros l r Hr; [by rewrite app_nil_r|].
  cbn. rewrite (cons_middle addr), app_assoc. apply IH. by apply install_address_spec.
Qed.

Lemma install_address_installed n cfg r addr :
  installed_configs (install_address n cfg r addr) = installed_configs r.
Proof. unfold install_address. repeat case_match; done. Qed.

Lemma install_addresses_installed n cfg r todo :
  installed_configs (foldl (install_address n cfg) r todo) = installed_configs r.
Proof. revert r. induction todo as [|a todo IH]; intros r; [done|]. cbn. by rewrite IH, install_address_installed. Qed.


(** ** Lemmas: events *)

Definition parsed (m : gmap string Json) : gmap string InterceptV1Config :=
  omap (λ raw, match from_value raw with Ok cfg => Some cfg | Err _ => None end) m.

Lemma intercept_v1_config_Some svc cfg :
  intercept_v1_config from_value svc = Ok (Some cfg) →
  ∃ raw, config svc !! INTERCEPT_V1_CONFIG_TYPE = Some raw ∧ from_value raw = Ok cfg.
Proof.
  unfold intercept_v1_config. destruct (config svc !! _) as [raw|]; [|done].
  destruct (from_value raw) as [c|e] eqn:E; cbn; [|done]. intros [= <-]. eauto.
Qed.

(** The three outcomes of [add_service]. *)
Lemma add_service_cases svc r :
  let n := svc_name svc in
  let had := bool_decide (is_Some (installed_configs r !! n)) in
  let dial := existsb (λ p, bool_decide (p = "Dial"%string)) (permissions svc) in
  (dial = false ∧ add_service from_value svc r =
    (mkApplied (mkDelta (remove_service from_value n r).1 []) had, (remove_service from_value n r).2)) ∨
  (dial = true ∧ add_service from_value svc r = (nothing, r) ∧
    ∀ cfg, intercept_v1_config from_value svc = Ok (Some cfg) →
      installed_configs r !! n = config svc !! INTERCEPT_V1_CONFIG_TYPE) ∨
  ∃ cfg raw, dial = true ∧ intercept_v1_config from_value svc = Ok (Some cfg) ∧
    config svc !! INTERCEPT_V1_CONFIG_TYPE = Some raw ∧ from_value raw = Ok cfg ∧
    installed_configs r !! n ≠ Some raw ∧
    let r1 := (remove_service from_value n r).2 in
    add_service from_value svc r =
      (mkApplied (mkDelta (remove_service from_value n r).1 (literal_addrs cfg)) had,
       foldl (install_address n cfg)
         (mkResolver (entries r1) (wildcards r1) (dns r1) (<[n := raw]> (installed_configs r1))) (addresses cfg)).
Proof.
  intros n had dial. unfold add_service. fold n had dial. destruct dial; cbn [negb]; [right|left; done].
  destruct (intercept_v1_config from_value svc) as [[cfg|]|e] eqn:Ec; [|left; done..].
  destruct (intercept_v1_config_Some _ _ Ec) as (raw & Hraw & Hcfg). rewrite Hraw.
  case_bool_decide as Hsame; [left; split_and!; try done; intros ? _; by rewrite Hsame|right].
  exists cfg, raw. done.
Qed.

Lemma remove_service_ok name r : resolver_ok from_value r → resolver_ok from_value (remove_service from_value name r).2.
Proof.
  intros [Hs Hi]. apply (remove_service_spec _ name) in Hs. split.
  - unfold conf_of. cbn. rewrite omap_delete. exact Hs.
  - intros n raw Hn. unfold conf_of. cbn in *. rewrite omap_delete. apply lookup_delete_Some in Hn as [Hne Hn].
    rewrite lookup_delete_ne by done. by eapply Hi.
Qed.

Lemma with_all_addresses cfg : with_addresses (addresses cfg) cfg = cfg.
Proof. by destruct cfg. Qed.

Lemma install_ok `{!IpNetLaws} n raw cfg r :
  from_value raw = Ok cfg → resolver_ok from_value r →
  let r1 := (remove_service from_value n r).2 in
  resolver_ok from_value (foldl (install_address n cfg)
    (mkResolver (entries r1) (wildcards r1) (dns r1) (<[n := raw]> (installed_configs r1))) (addresses cfg)).
Proof.
  intros Hraw Hok r1. pose proof (remove_service_ok n r Hok) as [Hs1 Hi1]. fold r1 in Hs1, Hi1.
  set (r2 := mkResolver _ _ _ _).
  assert (Hconf : conf_of from_value (foldl (install_address n cfg) r2 (addresses cfg)) = <[n := cfg]> (conf_of from_value r1)).
  { unfold conf_of. rewrite install_addresses_installed. cbn [installed_configs r2]. rewrite omap_insert, Hraw. done. }
  assert (Hdel : delete n (conf_of from_value r1) = conf_of from_value r1).
  { apply delete_id. unfold conf_of. cbn. by rewrite lookup_omap, lookup_delete_eq. }
  split.
  - rewrite Hconf, <-(with_all_addresses cfg) at 1. apply (install_addresses_spec _ n cfg []).
    apply install_nothing. rewrite Hdel. destruct Hs1. by split.
  - intros m raw' Hm. rewrite Hconf. rewrite install_addresses_installed in Hm. cbn [installed_configs r2] in Hm.
    destruct (decide (m = n)) as [->|Hne]; [by rewrite lookup_insert_eq|].
    rewrite lookup_insert_ne in Hm by done. rewrite lookup_insert_ne by done. by eapply Hi1.
Qed.

Lemma apply_event_ok `{!IpNetLaws} ev r : resolver_ok from_value r → resolver_ok from_value (apply_event from_value ev r).2.
Proof.
  intros Hok. assert (Hadd : ∀ svc, resolver_ok from_value (add_service from_value svc r).2).
  { intros svc. destruct (add_service_cases svc r) as [[_ ->]|[(_ & -> & _)|(cfg & raw & _ & _ & _ & Hraw & _ & ->)]]; cbn [snd].
    - by apply remove_service_ok.
    - done.
    - by apply install_ok. }
  destruct ev as [svc|svc|svc]; [apply Hadd|apply Hadd|]. by apply (remove_service_ok (svc_name svc)).
Qed.

Lemma resolver_step_ok `{!IpNetLaws} r r' : resolver_ok from_value r → resolver_step from_value r r' → resolver_ok from_value r'.
Proof.
  intros Hok Hst. destruct Hst as [ev r|q r]; [by apply apply_event_ok|].
  destruct Hok as [Hs Hi]. split; [by apply dns_query_spec|done].
Qed.

Lemma initial_ok d : fresh_dns d → resolver_ok from_value (initial d).
Proof.
  intros [Hd Hc]. split; [split; cbn|].
  - done.
  - intros e. split; [by intros ?%elem_of_nil|]. intros (cfg & addr & Hcfg & _). by rewrite lookup_omap in Hcfg.
  - intros w. split; [by intros ?%elem_of_nil|]. intros (cfg & addr & Hcfg & _). by rewrite lookup_omap in Hcfg.
  - intros i Hi. by apply Hc in Hi.
  - done.
Qed.

Lemma history_ok `{!IpNetLaws} d r :
  fresh_dns d → rtc (resolver_step from_value) (initial d) r → resolver_ok from_value r.
Proof.
  intros Hd Hst. eapply invariant_rtc; [by apply initial_ok|intros ? ?; by apply resolver_step_ok|exact Hst].
Qed.


(** ** Lemmas: lookups *)

Lemma suffix_matches_spec (w : WildcardEntry) domain : suffix_matches w domain = true ↔ under (suffix w) domain.
Proof.
  unfold suffix_matches, under. rewrite orb_true_iff, !bool_decide_eq_true. split.
  - intros [->|[h Hh]]; [by left|right]. apply bind_Some in Hh as (x & Hx & Hh).
    apply strip_suffix_spec in Hx as ->. apply strip_suffix_spec in Hh as ->. exists h.
    by rewrite string_app_assoc.
  - intros [->|[h ->]]; [by left|right]. exists h. apply bind_Some. exists (h +:+ ".").
    rewrite !strip_suffix_spec. by rewrite string_app_assoc.
Qed.

Lemma entry_matches_permits n cfg c e dst port proto src :
  e ∈ entries_for n cfg c → entry_matches e dst port proto src = true →
  permits cfg port proto src ∧ net_contains c dst = true ∧ dial_timeout e = dial_timeout_for cfg.
Proof.
  intros (p & pr & Hp & Hpr & ->)%elem_of_per_port Hm. unfold entry_matches in Hm. cbn in Hm.
  rewrite !andb_true_iff, bool_decide_eq_true, !Z.leb_le in Hm. destruct Hm as ((((-> & Hc) & Hl) & Hh) & Hs).
  split_and!; [|done|done]. split_and!; [done| |done]. by exists pr.
Qed.

Lemma permits_entry n cfg c dst port proto src :
  permits cfg port proto src → net_contains c dst = true →
  ∃ e, e ∈ entries_for n cfg c ∧ entry_matches e dst port proto src = true.
Proof.
  intros (Hp & (pr & Hpr & Hl & Hh) & Hs) Hc. eexists. split.
  - apply elem_of_per_port. exists (as_str proto), pr. done.
  - unfold entry_matches. cbn. by rewrite bool_decide_true, Hc, Hs, !(proj2 (Z.leb_le _ _)) by done.
Qed.

Lemma wildcard_claims_permits n cfg s w domain port proto src :
  w ∈ wildcards_for n cfg s → wildcard_claims w domain port proto src = true →
  permits cfg port proto src ∧ under s domain ∧ w_dial_timeout w = dial_timeout_for cfg.
Proof.
  intros (p & pr & Hp & Hpr & ->)%elem_of_per_port Hm. unfold wildcard_claims in Hm. rewrite !andb_true_iff, suffix_matches_spec in Hm.
  cbn in Hm. rewrite bool_decide_eq_true, !Z.leb_le in Hm. destruct Hm as ((((-> & Hc) & Hl) & Hh) & Hs).
  split_and!; [|done|done]. split_and!; [done| |done]. by exists pr.
Qed.

Lemma permits_wildcard n cfg s domain port proto src :
  permits cfg port proto src → under s domain →
  ∃ w, w ∈ wildcards_for n cfg s ∧ wildcard_claims w domain port proto src = true.
Proof.
  intros (Hp & (pr & Hpr & Hl & Hh) & Hs) Hc. eexists. split.
  - apply elem_of_per_port. exists (as_str proto), pr. done.
  - unfold wildcard_claims. rewrite (proj2 (suffix_matches_spec _ _)) by exact Hc. cbn.
    by rewrite bool_decide_true, Hs, !(proj2 (Z.leb_le _ _)) by done.
Qed.

(** The lookup finds a service if and only if some installed config covers the
    destination, and then one that does. *)
Lemma lookup_spec r dst port proto src :
  resolver_ok from_value r →
  match lookup dst port proto src r with
  | Some m => ∃ cfg, conf_of from_value r !! m_service m = Some cfg ∧ m_dial_timeout m = dial_timeout_for cfg ∧
      permits cfg port proto src ∧ (by_address r (m_service m) cfg dst ∨ by_wildcard r cfg dst)
  | None => ∀ n cfg, conf_of from_value r !! n = Some cfg → permits cfg port proto src →
      ¬ by_address r n cfg dst ∧ ¬ by_wildcard r cfg dst
  end.
Proof.
  intros [[Hd He Hw Hc] _]. unfold lookup. destruct (List.find _ (entries r)) as [e|] eqn:Ef.
  { apply find_Some_elem in Ef as [Hin Hm]. apply He in Hin as (cfg & addr & Hcfg & Haddr & Hnet & Hfor).
    destruct (entry_matches_permits _ _ _ _ _ _ _ _ Hfor Hm) as (Hp & Hcon & Ht).
    exists cfg. split_and!; [done|done|done|]. left. by exists addr, (cidr e). }
  assert (Hno : ∀ n cfg, conf_of from_value r !! n = Some cfg → permits cfg port proto src → ¬ by_address r n cfg dst).
  { intros n cfg Hcfg Hp (addr & c & Haddr & Hnet & Hcon). destruct (permits_entry n cfg c dst port proto src Hp Hcon) as (e & Hfor & Hm).
    destruct (entries_for_inv _ _ _ _ Hfor) as [Hn Hci]. rewrite (find_None_elem _ _ e Ef) in Hm; [done|]. apply He. subst n c. by exists cfg, addr. }
  destruct dst as [v4|v6]; [|intros n cfg Hcfg Hp; split; [by eapply Hno|by intros (? & ? & ? & ? & _ & _ & _ & ? & _)]].
  destruct (reverse_lookup_domain v4 (dns r)) as [domain|] eqn:Er; cbn.
  2:{ intros n cfg Hcfg Hp. split; [by eapply Hno|]. intros (? & ? & v & dm & _ & _ & _ & [= <-] & Hr & _). congruence. }
  destruct (List.find _ (wildcards r)) as [w|] eqn:Efw; cbn.
  - apply find_Some_elem in Efw as [Hin Hm]. apply Hw in Hin as (cfg & addr & Hcfg & Haddr & Hs & Hsfx & Hfor).
    destruct (wildcard_claims_permits _ _ _ _ _ _ _ _ Hfor Hm) as (Hp & Hu & Ht).
    exists cfg. split_and!; [done|done|done|]. right. by exists addr, (suffix w), v4, domain.
  - intros n cfg Hcfg Hp. split; [by eapply Hno|].
    intros (addr & sfx & v & dm & Haddr & Hs & Hsfx & [= <-] & Hr & Hu). rewrite Er in Hr. injection Hr as <-.
    destruct (permits_wildcard n cfg sfx domain port proto src Hp Hu) as (w & Hfor & Hm).
    destruct (wildcards_for_inv _ _ _ _ Hfor) as [Hn Hsx]. rewrite (find_None_elem _ _ w Efw) in Hm; [done|].
    apply Hw. subst n sfx. by exists cfg, addr.
Qed.


(** ** Lemmas: what an event does to the installed configs *)

Lemma existsb_dial svc :
  existsb (λ p, bool_decide (p = "Dial"%string)) (permissions svc) = true ∨
  existsb (λ p, bool_decide (p = "Dial"%string)) (permissions svc) = false.
Proof. destruct (existsb _ _); auto. Qed.

Lemma event_installed_other ev r n :
  n ≠ event_name ev → installed_configs (apply_event from_value ev r).2 !! n = installed_configs r !! n.
Proof.
  intros Hne. assert (Hadd : ∀ svc, n ≠ svc_name svc →
    installed_configs (add_service from_value svc r).2 !! n = installed_configs r !! n).
  { intros svc Hn. destruct (add_service_cases svc r) as [[_ ->]|[(_ & -> & _)|(cfg & raw & _ & _ & _ & _ & _ & ->)]]; cbn [snd].
    - cbn. by rewrite lookup_delete_ne.
    - done.
    - rewrite install_addresses_installed. cbn. by rewrite lookup_insert_ne, lookup_delete_ne. }
  destruct ev as [svc|svc|svc]; cbn in *; [by apply Hadd..|]. by rewrite lookup_delete_ne.
Qed.

Lemma event_synced ev c r :
  synced from_value c r → synced from_value (replay c ev) (apply_event from_value ev r).2.
Proof.
  intros Hs n. destruct (decide (n = event_name ev)) as [->|Hne].
  2:{ rewrite event_installed_other by done. specialize (Hs n).
      destruct ev as [svc|svc|svc]; cbn in *; [by rewrite lookup_insert_ne..|by rewrite lookup_delete_ne]. }
  assert (Hadd : ∀ svc, (if existsb (λ p, bool_decide (p = "Dial"%string)) (permissions svc) then
      match intercept_v1_config from_value svc with
      | Ok (Some _) => installed_configs (add_service from_value svc r).2 !! svc_name svc = config svc !! INTERCEPT_V1_CONFIG_TYPE
      | _ => True end
    else installed_configs (add_service from_value svc r).2 !! svc_name svc = None)).
  { intros svc. destruct (add_service_cases svc r) as [[-> ->]|[(-> & -> & Hkeep)|(cfg & raw & -> & -> & Hraw & _ & _ & ->)]]; cbn [snd].
    - cbn. by rewrite lookup_delete_eq.
    - destruct (intercept_v1_config from_value svc) as [[cfg|]|]; [|done..]. by eapply Hkeep.
    - rewrite install_addresses_installed. cbn. by rewrite lookup_insert_eq, Hraw. }
  destruct ev as [svc|svc|svc]; cbn [event_name replay]; [rewrite lookup_insert_eq; apply Hadd..|].
  rewrite lookup_delete_eq. cbn. by rewrite lookup_delete_eq.
Qed.

Lemma events_synced evs c r :
  synced from_value c r → synced from_value (foldl replay c evs) (apply_events from_value evs r).2.
Proof.
  revert c r. induction evs as [|ev evs IH]; intros c r Hs; [done|]. cbn [foldl apply_events].
  pose proof (event_synced ev c r Hs) as H1. destruct (apply_event from_value ev r) as [a r1]. cbn [snd] in H1.
  specialize (IH _ _ H1). by destruct (apply_events from_value evs r1).
Qed.

Lemma map_routes_delete (m : gmap string Json) n :
  map_routes from_value m ≡ₚ
    match m !! n with Some raw => literal_route_addrs from_value raw | None => [] end ++ map_routes from_value (delete n m).
Proof.
  unfold map_routes. destruct (m !! n) as [raw|] eqn:E; [|by rewrite delete_id].
  by rewrite <-(map_to_list_delete m n raw E).
Qed.

Lemma map_routes_insert (m : gmap string Json) n raw :
  m !! n = None → map_routes from_value (<[n := raw]> m) ≡ₚ literal_route_addrs from_value raw ++ map_routes from_value m.
Proof. intros Hn. unfold map_routes. by rewrite (map_to_list_insert m n raw Hn). Qed.

(** The route delta of an event is what it changes: the networks it takes away
    were installed, those it adds are. *)
Lemma event_routes ev r :
  let '(a, r') := apply_event from_value ev r in
  ∃ k, installed_routes from_value r ≡ₚ removed (routes a) ++ k ∧ installed_routes from_value r' ≡ₚ added (routes a) ++ k.
Proof.
  assert (Hremove : ∀ n, let '(gone, r') := remove_service from_value n r in
    ∃ k, installed_routes from_value r ≡ₚ gone ++ k ∧ installed_routes from_value r' ≡ₚ [] ++ k).
  { intros n. eexists. split; [apply map_routes_delete|done]. }
  assert (Hadd : ∀ svc, let '(a, r') := add_service from_value svc r in
    ∃ k, installed_routes from_value r ≡ₚ removed (routes a) ++ k ∧ installed_routes from_value r' ≡ₚ added (routes a) ++ k).
  { intros svc. destruct (add_service_cases svc r) as [[_ ->]|[(_ & -> & _)|(cfg & raw & _ & _ & _ & Hraw & Hne & ->)]].
    - apply (Hremove (svc_name svc)).
    - by exists (installed_routes from_value r).
    - unfold installed_routes. rewrite install_addresses_installed. cbn [routes added removed].
      cbn [installed_configs remove_service fst snd]. eexists. split; [apply map_routes_delete|].
      rewrite map_routes_insert by apply lookup_delete_eq. unfold literal_route_addrs at 1. by rewrite Hraw. }
  destruct ev as [svc|svc|svc]; [apply Hadd..|apply (Hremove (svc_name svc))].
Qed.

(** An installed config that an event replaces or removes has its flows killed. *)
Lemma event_kills ev r n raw :
  let '(a, r') := apply_event from_value ev r in
  installed_configs r !! n = Some raw → installed_configs r' !! n ≠ Some raw →
  event_name ev = n ∧ kill_active a = true.
Proof.
  destruct (apply_event from_value ev r) as [a r'] eqn:E. intros Hn Hn'.
  destruct (decide (n = event_name ev)) as [->|Hne].
  2:{ pose proof (event_installed_other ev r n Hne) as Ho. rewrite E in Ho. cbn in Ho. congruence. }
  split; [done|].
  assert (Hadd : ∀ svc, svc_name svc = event_name ev → add_service from_value svc r = (a, r') → kill_active a = true).
  { intros svc Hs Ha. destruct (add_service_cases svc r) as [[_ Hc]|[(_ & Hc & _)|(cfg & c & _ & _ & _ & _ & _ & Hc)]];
      rewrite Ha in Hc; injection Hc as -> ->; cbn.
    - apply bool_decide_true. rewrite Hs. by eexists.
    - done.
    - apply bool_decide_true. rewrite Hs. by eexists. }
  destruct ev as [svc|svc|svc]; [by eapply Hadd..|]. cbn in E. by injection E as <- <-.
Qed.

(** ** Properties *)

(** The dispatch table, after any history of service events and DNS queries:
    a destination goes to a service exactly if some installed config intercepts
    it (protocol, port range and source permitted, and the destination in one of
    its networks, the address of one of its hostnames, or given to a name under
    one of its wildcards), and then to a service whose config does. *)
Theorem lookup_outcome `{!IpNetLaws} d r dst port proto src :
  fresh_dns d → rtc (resolver_step from_value) (initial d) r →
  match lookup dst port proto src r with
  | Some m => ∃ cfg, conf_of from_value r !! m_service m = Some cfg ∧ m_dial_timeout m = dial_timeout_for cfg ∧
      permits cfg port proto src ∧ (by_address r (m_service m) cfg dst ∨ by_wildcard r cfg dst)
  | None => ∀ n cfg, conf_of from_value r !! n = Some cfg → permits cfg port proto src →
      ¬ by_address r n cfg dst ∧ ¬ by_wildcard r cfg dst
  end.
Proof. intros Hd Hst. apply lookup_spec. by eapply history_ok. Qed.

(** What the DNS server answers is what the table dispatches: the address of
    a hostname that a service has a claim on, or of a name under one of its
    wildcards, reaches a service whenever the service's config permits the
    protocol, port and source. *)
Theorem dns_answer_dispatches `{!IpNetLaws} d r q m n cfg port proto src :
  fresh_dns d → rtc (resolver_step from_value) (initial d) r →
  (lookup_query q (dns r)).1 = Some m →
  conf_of from_value r !! n = Some cfg → permits cfg port proto src →
  (∃ addr name, addr ∈ addresses cfg ∧ starts_with "*." addr = false ∧ parse_ip_or_cidr addr = None ∧
     check_name addr = Some (name, false) ∧ claim n (dns r) name (match_ip m)) ∨
  (∃ addr sfx domain, addr ∈ addresses cfg ∧ starts_with "*." addr = true ∧ wildcard_suffix addr = Some sfx ∧
     reverse_lookup_domain (match_ip m) (lookup_query q (dns r)).2 = Some domain ∧ under sfx domain) →
  is_Some (lookup (V4 (match_ip m)) port proto src (dns_query q r)).
Proof.
  intros Hd Hst Hq Hcfg Hp Hor. pose proof (history_ok d r Hd Hst) as Hok.
  assert (Hok' : resolver_ok from_value (dns_query q r)) by (eapply resolver_step_ok; [exact Hok|constructor]).
  pose proof (lookup_spec (dns_query q r) (V4 (match_ip m)) port proto src Hok') as Hl.
  destruct (lookup _ _ _ _ _) as [mm|]; [by eexists|exfalso].
  destruct (Hl n cfg Hcfg Hp) as [Hna Hnw].
  destruct Hor as [(addr & name & Haddr & Hs & Hnone & Hname & Hcl)|(addr & sfx & dm & Haddr & Hs & Hsfx & Hr & Hu)].
  - destruct (net_new (V4 (match_ip m)) 32) as [c|] eqn:Ec.
    2:{ apply eq_None_not_Some in Ec. apply Ec. apply net_new_Some; [lia|]. cbn [width]. lia. }
    apply Hna. exists addr, c. split_and!; [done| |].
    + split; [done|]. right. split; [done|]. exists name, (match_ip m). split_and!; [done| |done].
      apply lookup_claim; [|done]. apply Hok.
    + rewrite (net_new_contains (V4 (match_ip m)) 32 c (V4 (match_ip m)) ltac:(lia) Ec). cbn. by rewrite Z.eqb_refl.
  - apply Hnw. by exists addr, sfx, (match_ip m), dm.
Qed.

(** C37. A poll of the controller and the table: if the installed configs follow
    the cache before a poll, they follow the new cache after its events, in
    whatever order removals come; so what is gone, or has lost the Dial
    permission, is no longer intercepted, and what is new or changed is. *)
Theorem poll_reconciles order fetched (w : ServiceWatcher) r :
  is_order order → cache_ok (cache w) → NoDup (map svc_name fetched) → synced from_value (cache w) r →
  let '(evs, _, w') := process order fetched w in
  synced from_value (cache w') (apply_events from_value evs r).2.
Proof.
  intros Ho Hc Hnd Hs. unfold process. cbn.
  rewrite (apply_cache_update_eq order), <-(replay_diff order) by done. by apply events_synced.
Qed.

End lemmas.

(** ** Witnesses *)

(** Configs by name, the pool of DnsMatcher's samples. *)
Definition sample_from_value (raw : string) : result string InterceptV1Config :=
  if bool_decide (raw = "web"%string) then
    Ok (mkConfig ["tcp"%string] ["10.1.0.0/16"%string; "app.example.org"%string] [mkRange 80 90] None None [])
  else if bool_decide (raw = "wild"%string) then
    Ok (mkConfig ["udp"%string] ["*.Example.com"%string] [mkRange 1 65535]
      (Some (mkDialOptions (Some 0) None)) None ["192.168.0.0/16"%string])
  else Err "no such config"%string.

Definition sample_dial (n raw : string) : Service :=
  mkService n n true ["Dial"%string] {[ INTERCEPT_V1_CONFIG_TYPE := raw ]} [].

Definition sample_dns : DnsMatcher := (seed_pool (Some (1681915904, 29)) matcher_new).2.
Definition sample_start : InterceptResolver := initial sample_dns.
Definition sample_events : list ServiceEvent := [Added (sample_dial "a" "web"); Added (sample_dial "b" "wild")].
Definition sample_resolver : InterceptResolver := (apply_events sample_from_value sample_events sample_start).2.

Lemma sample_fresh : fresh_dns sample_dns.
Proof.
  split.
  - assert (Hst : dns_step matcher_new sample_dns)
      by (apply (ds_seed (Some (1681915904, 29))); intros a b [= <- <-]; unfold u32_ok, u32_max; lia).
    apply dns_step_ok in Hst; [done|apply matcher_new_ok].
  - intros i [(h & e & He & _)|(s & o & Ho & _)].
    + change ((∅ : gmap string DnsEntry) !! h = Some e) in He. by rewrite lookup_empty in He.
    + change ((∅ : gmap string (gset string)) !! s = Some o) in Ho. by rewrite lookup_empty in Ho.
Qed.

Lemma sample_resolver_history : rtc (resolver_step sample_from_value) sample_start sample_resolver.
Proof.
  eapply rtc_l; [apply (rs_event _ (Added (sample_dial "a" "web")))|].
  eapply rtc_l; [apply (rs_event _ (Added (sample_dial "b" "wild")))|]. apply rtc_refl.
Qed.

Lemma lookup_outcome_witness :
  ∃ m, lookup (V4 167837953) 80 Tcp (V4 1) sample_resolver = Some m ∧ m_service m = "a"%string ∧
    ∃ cfg, conf_of sample_from_value sample_resolver !! "a"%string = Some cfg ∧ permits cfg 80 Tcp (V4 1).
Proof.
  pose proof (lookup_outcome sample_from_value sample_dns sample_resolver (V4 167837953) 80 Tcp (V4 1)
    sample_fresh sample_resolver_history) as H.
  assert (E : lookup (V4 167837953) 80 Tcp (V4 1) sample_resolver = Some (mkInterceptMatch "a" 5)) by (vm_compute; reflexivity).
  rewrite E in H. destruct H as (cfg & Hc & _ & Hp & _). eexists. split; [exact E|]. split; [done|]. by exists cfg.
Defined.

(** A name under the wildcard of b is answered and dispatched, to UDP only. *)
Lemma dns_answer_dispatches_witness :
  ∃ m, (lookup_query "x.example.com" (dns sample_resolver)).1 = Some m ∧
    is_Some (lookup (V4 (match_ip m)) 53 Udp (V4 3232235777) (dns_query "x.example.com" sample_resolver)).
Proof.
  assert (E : (lookup_query "x.example.com" (dns sample_resolver)).1 = Some (mkMatch Domain 1681915906))
    by (vm_compute; reflexivity).
  exists (mkMatch Domain 1681915906). split; [exact E|].
  eapply (@dns_answer_dispatches string_json cidr_nets sample_from_value _ sample_dns sample_resolver "x.example.com" _ "b").
  - exact sample_fresh.
  - exact sample_resolver_history.
  - exact E.
  - vm_compute. reflexivity.
  - split_and!; [by left|exists (mkRange 1 65535); split; [by left|cbn; lia]|vm_compute; reflexivity].
  - right. exists "*.Example.com"%string, "example.com"%string, "example.com"%string.
    split_and!; [by left|vm_compute; reflexivity..|by left].
Defined.

(** Service a loses the Dial permission and b is gone: nothing stays installed. *)
Lemma poll_reconciles_witness :
  let w := mkWatcher {[ "a"%string := sample_dial "a" "web"; "b"%string := sample_dial "b" "wild" ]} [] 0 in
  let fetched := [mkService "a" "a" true [] ∅ []] in
  let '(evs, _, w') := process listed_order fetched w in
  synced sample_from_value (cache w') (apply_events sample_from_value evs sample_resolver).2 ∧
  cache w' !! "b"%string = None.
Proof.
  intros w fetched. pose proof (poll_reconciles sample_from_value listed_order fetched w sample_resolver) as H.
  assert (Hb : cache (process listed_order fetched w).2 !! "b"%string = None) by (vm_compute; reflexivity).
  destruct (process listed_order fetched w) as [[evs calls] w']. split; [apply H|exact Hb].
  - by intros c.
  - intros n s Hs. apply elem_of_map_to_list in Hs. vm_compute in Hs.
    repeat (apply elem_of_cons in Hs as [[= -> ->]|Hs]; [reflexivity|]). by apply elem_of_nil in Hs.
  - vm_compute. by_compute.
  - intros n. destruct (decide (n = "a"%string)) as [->|Ha]; [vm_compute; reflexivity|].
    destruct (decide (n = "b"%string)) as [->|Hb']; [vm_compute; reflexivity|].
    cbn. rewrite lookup_insert_ne, lookup_singleton_ne by done.
    assert (Hi : installed_configs sample_resolver = {[ "a"%string := "web"%string; "b"%string := "wild"%string ]})
      by (vm_compute; reflexivity).
    by rewrite Hi, lookup_insert_ne, lookup_singleton_ne by done.
Defined.
