(* ===== verification/HostTarget.v ===== *)
(** * Targets of hosted dials: [src/tunnel/resolve/]

    Which protocol, address and port a dial to a hosted service reaches: the fixed
    ones of its [host.v1] config, or those the dialer asks for as far as the allow
    lists go; and the translation of a forwarded address. *)

From S2P Require Import Prelude Utf8 Message EdgeWire Address IpAddr Services.

(** ** Configs and app data (edge/model.rs, edge/dial.rs) *)

Record AddressTranslation : Type := mkTranslation { t_from : string; t_to : string; prefix_length : Z }.

Record HostV1ListenOptions : Type := mkListenOptions {
  connect_timeout_seconds : option Z;
  connect_timeout : option string
}.

Record HostV1Config : Type := mkHostConfig {
  protocol : string;
  forward_protocol : bool;
  allowed_protocols : list string;
  address : string;
  forward_address : bool;
  forward_address_translations : list AddressTranslation;
  allowed_addresses : list string;
  port : Z;
  forward_port : bool;
  allowed_port_ranges : list PortRange;
  allowed_source_addresses : list string;
  listen_options : option HostV1ListenOptions
}.

Definition APPDATA_KEY_PROTOCOL : string := "dst_protocol".
Definition APPDATA_KEY_HOSTNAME : string := "dst_hostname".
Definition APPDATA_KEY_IP : string := "dst_ip".
Definition APPDATA_KEY_PORT : string := "dst_port".
Definition APPDATA_KEY_SOURCE_ADDR : string := "source_addr".

(** [to_vec] is [serde_json]'s. *)
Definition build_app_data (to_vec : gmap string string → list Z) (protocol dst_ip dst_port : string)
    (dst_hostname source_addr : option string) : list Z :=
  let present k v m := match v with Some s => if bool_decide (s = EmptyString) then m else <[k := s]> m | None => m end in
  to_vec (present APPDATA_KEY_SOURCE_ADDR source_addr
    (<[APPDATA_KEY_PORT := dst_port]> (<[APPDATA_KEY_IP := dst_ip]>
      (present APPDATA_KEY_HOSTNAME dst_hostname (<[APPDATA_KEY_PROTOCOL := protocol]> (∅ : gmap string string)))))).

(** What [serde_json] makes of the app data: an object, whose fields are strings
    or something else, or another value. *)
Inductive AppValue : Type :=
| AppObject (fields : gmap string (option string))
| AppOther.

(** Unicode's lowercase table, from the UTF-8 bytes of one [char] to those of
    [char::to_lowercase]; on ASCII it is ASCII's. *)
Class CaseTable := {
  char_lower : list Z → list Z;
  char_lower_ascii b : 0 <= b < 128 → char_lower [b] = [if (65 <=? b) && (b <=? 90) then b + 32 else b]
}.

(** The table of ASCII, for computing. *)
#[export, refine] Instance ascii_case : CaseTable := {|
  char_lower bs := match bs with [b] => [if (65 <=? b) && (b <=? 90) then b + 32 else b] | _ => bs end
|}.
Proof. done. Defined.

Definition occurs_char (c : ascii) (s : string) : bool := occurs c s.

(** ** Allow lists (allowed.rs) *)

Section host.
Context `{IpNetLib} `{CaseTable}.

Inductive AllowedAddress : Type :=
| Cidr (net : IpNet)
| HostnameAddr (s : string)
| DomainAddr (s : string).

Inductive MatchValue : Type := MatchIp (i : IpAddr) | MatchStr (s : string).

(** One [char] at a time. *)
Fixpoint lower_bytes (fuel : nat) (bs : list Z) : list Z :=
  match fuel, bs with
  | S fuel, _ :: _ => let n := (utf8_next bs).2 in char_lower (take n bs) ++ lower_bytes fuel (drop n bs)
  | _, _ => []
  end.

Definition fold_lower (s : string) : string :=
  string_of_bytes (lower_bytes (String.length s) (bytes_of_string s)).

(** [&s[k..]]. *)
Definition drop_string (k : nat) (s : string) : string := String.substring k (String.length s - k) s.

Definition domain_allows (domain host : string) : bool :=
  if bool_decide (domain = "*"%string) then true
  else
    let host := fold_lower host in
    bool_decide (is_Some (strip_suffix (drop_string 1 domain) host)) || bool_decide (host = drop_string 2 domain).

Definition allows (a : AllowedAddress) (v : MatchValue) : bool :=
  match a, v with
  | Cidr net, MatchIp i => net_contains net i
  | HostnameAddr h, MatchStr s => bool_decide (fold_lower s = h)
  | DomainAddr d, MatchStr s => domain_allows d s
  | _, _ => false
  end.

Definition make_allowed_address (addr : string) : option AllowedAddress :=
  match addr with
  | EmptyString => None
  | String c rest =>
      if bool_decide (c = "*"%char) then
        let dotted := match rest with String d _ => bool_decide (d = "."%char) | EmptyString => false end in
        if negb (bool_decide (String.length addr = 1%nat)) && ((bool_decide (String.length addr < 3)%nat) || negb dotted)
        then None
        else Some (DomainAddr (fold_lower addr))
      else
        match parse_ip_or_cidr addr with
        | Some net => Some (Cidr net)
        | None => if occurs_char "%" addr then None else Some (HostnameAddr (fold_lower addr))
        end
  end.

Definition parse_allowed_addresses (entries : list string) : list AllowedAddress := omap make_allowed_address entries.

(** ** The parts of a target (hostcfg.rs) *)

Definition get_value (options : gmap string string) (key : string) : result string string :=
  ok_or (key +:+ " required but not provided") (options !! key).

Definition get_protocol (cfg : HostV1Config) (options : gmap string string) : result string string :=
  if negb (forward_protocol cfg) then Ok (protocol cfg)
  else
    p ← get_value options APPDATA_KEY_PROTOCOL;
    if bool_decide (p ∈ allowed_protocols cfg) then Ok p
    else Err ("protocol '" +:+ p +:+ "' is not in allowed protocols").

Definition not_allowed (a : string) : string := "address '" +:+ a +:+ "' is not in allowed addresses".

Definition get_address (cfg : HostV1Config) (options : gmap string string) : result string string :=
  if negb (forward_address cfg) then Ok (address cfg)
  else
    let allowed := parse_allowed_addresses (allowed_addresses cfg) in
    match options !! APPDATA_KEY_HOSTNAME with
    | Some h => if existsb (λ a, allows a (MatchStr h)) allowed then Ok h else Err (not_allowed h)
    | None =>
        a ← get_value options APPDATA_KEY_IP;
        if match ip_from_str a with Some i => existsb (λ x, allows x (MatchIp i)) allowed | None => false end
        then Ok a else Err (not_allowed a)
    end.

Definition get_port (cfg : HostV1Config) (options : gmap string string) : result string Z :=
  if negb (forward_port cfg) then Ok (port cfg)
  else
    s ← get_value options APPDATA_KEY_PORT;
    p ← ok_or ("invalid destination port " +:+ s) (parse_u16 s);
    if existsb (λ r, (low r <=? p) && (p <=? high r)) (allowed_port_ranges cfg) then Ok p
    else Err ("port " +:+ pretty (Z.to_N p) +:+ " is not in allowed port ranges").

(** ** The target (target.rs) *)

Record ResolvedTarget : Type := mkTarget {
  tg_protocol : string;
  tg_address : string;
  tg_port : Z;
  source_bind : option (IpAddr * Z)
}.

Definition socket_addr (t : ResolvedTarget) : string := tg_address t +:+ ":" +:+ pretty (Z.to_N (tg_port t)).

(** [s.split(':')]. *)
Fixpoint split (c : ascii) (s : string) : list string :=
  match s with
  | EmptyString => [EmptyString]
  | String a s =>
      if ascii_dec a c then EmptyString :: split c s
      else match split c s with [] => [String a EmptyString] | w :: ws => String a w :: ws end
  end.

Definition parse_source_bind (s : string) : result string (IpAddr * Z) :=
  '(ip_str, p) ← match split colon s with
                 | [a; b] => q ← ok_or ("failed to parse port '" +:+ b +:+ "'") (parse_u16 b); Ok (a, q)
                 | _ => Ok (s, 0)
                 end;
  i ← ok_or ("invalid source_addr IP '" +:+ ip_str +:+ "'") (ip_from_str ip_str);
  Ok (i, p).

(** [from_slice] is [serde_json]'s, the error as its text. *)
Definition parse_app_data (from_slice : list Z → result string AppValue) (app_data : option (list Z))
    : result string (gmap string string) :=
  match app_data with
  | None | Some [] => Ok ∅
  | Some b =>
      v ← map_err (λ e, "invalid appData: " +:+ e) (from_slice b);
      match v with
      | AppObject fields => Ok (omap id fields)
      | AppOther => Err "invalid appData: not a JSON object"%string
      end
  end.

Definition resolve_target (from_slice : list Z → result string AppValue) (cfg : HostV1Config)
    (app_data : option (list Z)) : result string ResolvedTarget :=
  options ← parse_app_data from_slice app_data;
  p ← get_protocol cfg options;
  a ← get_address cfg options;
  q ← get_port cfg options;
  src ← match options !! APPDATA_KEY_SOURCE_ADDR with
        | Some s => if bool_decide (s = EmptyString) then Ok None else b ← parse_source_bind s; Ok (Some b)
        | None => Ok None
        end;
  Ok (mkTarget p a q src).

End host.

(** ** Configs not supported yet (deferred.rs) *)

Definition DEFERRED_SOURCE_ADDR_CONFIG : string :=
  "host appData forwarding: a host.v1 allowedSourceAddresses is not yet supported (T4b-2d-3)".

Definition check_deferred_config (cfg : HostV1Config) : result string unit :=
  if bool_decide (allowed_source_addresses cfg = []) then Ok tt else Err DEFERRED_SOURCE_ADDR_CONFIG.

(** ** Translation (translate.rs) *)

Record AddressTranslationPrefix : Type := mkPrefix { from : IpAddr; to : IpAddr; bits : Z }.

Fixpoint parse_translations (xs : list AddressTranslation) : result string (list AddressTranslationPrefix) :=
  match xs with
  | [] => Ok []
  | x :: xs =>
      f ← ok_or ("failed to parse 'from' address translation '" +:+ t_from x +:+ "'") (ip_from_str (t_from x));
      t ← ok_or ("failed to parse 'to' address translation '" +:+ t_to x +:+ "'") (ip_from_str (t_to x));
      out ← parse_translations xs;
      Ok (mkPrefix f t (prefix_length x) :: out)
  end.

(** [sort_by(|a, b| b.bits.cmp(&a.bits))], a stable sort: each element goes after
    the earlier ones that are not shorter. *)
Fixpoint insert_desc (x : AddressTranslationPrefix) (l : list AddressTranslationPrefix)
    : list AddressTranslationPrefix :=
  match l with
  | [] => [x]
  | y :: l' => if bits x <=? bits y then y :: insert_desc x l' else x :: l
  end.

Definition sort_desc (l : list AddressTranslationPrefix) : list AddressTranslationPrefix :=
  foldl (λ acc x, insert_desc x acc) [] l.

Definition build_address_translations (cfg : HostV1Config) : result string (list AddressTranslationPrefix) :=
  if negb (forward_address cfg) || bool_decide (length (forward_address_translations cfg) = 0%nat) then Ok []
  else out ← parse_translations (forward_address_translations cfg); Ok (sort_desc out).

(** [!(0xFFu8 >> k)]. *)
Definition top_bits (k : Z) : Z := 255 - Z.shiftr 255 k.

(** The first [n] bits of two octet lists. *)
Definition masked_eq (x y : list Z) (n : Z) : bool :=
  let full := Z.to_nat (n / 8) in
  if negb (bool_decide (take full x = take full y)) then false
  else
    let rem := n mod 8 in
    if rem =? 0 then true
    else Z.land (get0 x full) (top_bits rem) =? Z.land (get0 y full) (top_bits rem).

Definition prefix_contains (f : IpAddr) (n : Z) (i : IpAddr) : bool :=
  match f, i with
  | V4 _, V4 _ => (n <=? 32) && masked_eq (octets f) (octets i) n
  | V6 _, V6 _ => (n <=? 128) && masked_eq (octets f) (octets i) n
  | _, _ => false
  end.

(** The octet loop, [n] being the bits left. *)
Fixpoint renumber (i t : list Z) (n : Z) : list Z :=
  match i, t with
  | a :: i, b :: t =>
      let mask := if 0 <? n then (if n <? 8 then top_bits n else 255) else 0 in
      Z.lor (Z.land b mask) (Z.land a (255 - mask)) :: renumber i t (n - 8)
  | _, _ => []
  end.

Definition translate_ip (i t : IpAddr) (n : Z) : option IpAddr :=
  match i, t with
  | V4 _, V4 _ => Some (V4 (be_val (renumber (octets i) (octets t) n)))
  | V6 _, V6 _ => Some (V6 (be_val (renumber (octets i) (octets t) n)))
  | _, _ => None
  end.

Fixpoint translate_loop (i : IpAddr) (ts : list AddressTranslationPrefix) : option IpAddr :=
  match ts with
  | [] => None
  | t :: ts =>
      match (if prefix_contains (from t) (bits t) i then translate_ip i (to t) (bits t) else None) with
      | Some j => Some j
      | None => translate_loop i ts
      end
  end.

Definition translate_address (a : string) (ts : list AddressTranslationPrefix) : string :=
  match ip_from_str a with
  | None => a
  | Some i => match translate_loop i ts with Some j => ip_to_string j | None => a end
  end.

(** ** Specification *)

Section spec.
Context `{IpNetLib} `{CaseTable}.

(** What an entry of the allow list says of a host name... *)
Definition entry_allows_host (e h : string) : Prop :=
  e = "*"%string ∨
  (∃ s, s ≠ EmptyString ∧ e = "*." +:+ s ∧
     (fold_lower h = fold_lower s ∨ ∃ pre, fold_lower h = pre +:+ "." +:+ fold_lower s)) ∨
  (e ≠ EmptyString ∧ starts_with "*" e = false ∧ parse_ip_or_cidr e = None ∧ occurs "%" e = false ∧
     fold_lower h = fold_lower e).

(** ... and of an address. *)
Definition entry_allows_ip (e : string) (i : IpAddr) : Prop :=
  starts_with "*" e = false ∧ ∃ net, parse_ip_or_cidr e = Some net ∧ net_contains net i = true.

(** The targets a dial with these options may have. *)
Record target_allowed (cfg : HostV1Config) (options : gmap string string) (p a : string) (q : Z) : Prop := {
  ta_protocol :
    if forward_protocol cfg then options !! APPDATA_KEY_PROTOCOL = Some p ∧ p ∈ allowed_protocols cfg
    else p = protocol cfg;
  ta_address :
    if forward_address cfg then
      match options !! APPDATA_KEY_HOSTNAME with
      | Some h => a = h ∧ ∃ e, e ∈ allowed_addresses cfg ∧ entry_allows_host e h
      | None => options !! APPDATA_KEY_IP = Some a ∧
          ∃ i e, ip_from_str a = Some i ∧ e ∈ allowed_addresses cfg ∧ entry_allows_ip e i
      end
    else a = address cfg;
  ta_port :
    if forward_port cfg then
      ∃ s r, options !! APPDATA_KEY_PORT = Some s ∧ parse_u16 s = Some q ∧ r ∈ allowed_port_ranges cfg ∧
        low r <= q <= high r
    else q = port cfg
}.
End spec.

(** The number of [w] bits with the first [n] bits of [t] and the others of [i]. *)
Definition rebase (i t n w : Z) : Z := (t / 2 ^ (w - n)) * 2 ^ (w - n) + i mod 2 ^ (w - n).

(** The address a translation gives, where it applies: [from] covers the address
    and [to] is of its family. *)
Definition moved (t : AddressTranslationPrefix) (i : IpAddr) : option IpAddr :=
  if (bits t <=? width i) && same_prefix (bits t) (from t) i then
    match i, to t with
    | V4 a, V4 b => Some (V4 (rebase a b (bits t) 32))
    | V6 a, V6 b => Some (V6 (rebase a b (bits t) 128))
    | _, _ => None
    end
  else None.

(** The best of a config's translations: the longest that applies, and of these
    the first. *)
Definition best_of (ts : list AddressTranslationPrefix) (i : IpAddr) (t : AddressTranslationPrefix) : Prop :=
  ∃ l r, ts = l ++ t :: r ∧ is_Some (moved t i) ∧
    (∀ t', t' ∈ l → is_Some (moved t' i) → bits t' < bits t) ∧
    (∀ t', t' ∈ r → is_Some (moved t' i) → bits t' <= bits t).

(** ** Lemmas: allow lists *)

Section lemmas.
Context `{IpNetLib} `{CaseTable}.

Lemma lower_bytes_ascii fuel b bs :
  0 <= b < 65 → lower_bytes (S fuel) (b :: bs) = b :: lower_bytes fuel bs.
Proof.
  intros Hb. cbn [lower_bytes]. assert (Hn : utf8_next (b :: bs) = (true, 1%nat)).
  { unfold utf8_next, get0, lead_width. cbn [nth]. rewrite (proj2 (Z.ltb_lt b 128)) by lia. done. }
  rewrite Hn. cbn [snd take drop]. rewrite char_lower_ascii by lia.
  rewrite (proj2 (Z.leb_gt 65 b)) by lia. done.
Qed.

Lemma fold_lower_wildcard s : fold_lower ("*." +:+ s) = "*." +:+ fold_lower s.
Proof.
  unfold fold_lower. change (bytes_of_string ("*." +:+ s)) with (42 :: 46 :: bytes_of_string s).
  change (String.length ("*." +:+ s)) with (S (S (String.length s))). rewrite !lower_bytes_ascii by lia. done.
Qed.

Lemma fold_lower_star : fold_lower "*" = "*"%string.
Proof. unfold fold_lower. change (bytes_of_string "*") with [42]. cbn [String.length]. by rewrite lower_bytes_ascii by lia. Qed.

Lemma drop_string_app s t : drop_string (String.length s) (s +:+ t) = t.
Proof.
  unfold drop_string. rewrite length_string_app. replace (_ + _ - _)%nat with (String.length t) by lia.
  apply substring_app.
Qed.

Lemma domain_allows_spec s h :
  s ≠ EmptyString →
  domain_allows (fold_lower ("*." +:+ s)) h = true ↔
    fold_lower h = fold_lower s ∨ ∃ pre, fold_lower h = pre +:+ "." +:+ fold_lower s.
Proof.
  intros Hs. rewrite fold_lower_wildcard. unfold domain_allows. rewrite bool_decide_false by done.
  assert (H1 : drop_string 1 ("*." +:+ fold_lower s) = "." +:+ fold_lower s) by exact (drop_string_app "*" _).
  assert (H2 : drop_string 2 ("*." +:+ fold_lower s) = fold_lower s) by exact (drop_string_app "*." _).
  rewrite H1, H2. clear H1 H2.
  rewrite orb_true_iff, !bool_decide_eq_true. split.
  - intros [[pre Hp]|?]; [right|by left]. exists pre. by apply strip_suffix_spec.
  - intros [?|[pre Hp]]; [by right|left]. exists pre. by apply strip_suffix_spec.
Qed.

Lemma starts_with_star c s : starts_with "*" (String c s) = bool_decide (c = "*"%char).
Proof.
  unfold starts_with. apply bool_decide_ext.
  change (strip_prefix "*" (String c s)) with (if ascii_dec "*" c then Some s else None).
  destruct (ascii_dec "*" c) as [<-|Hne].
  - split; [done|]. intros _. by eexists.
  - split; [by intros [? ?]|by intros ->].
Qed.

Lemma make_allowed_star rest h :
  (∃ a, make_allowed_address (String "*" rest) = Some a ∧ allows a (MatchStr h) = true) ↔
    entry_allows_host (String "*" rest) h.
Proof.
  unfold entry_allows_host, make_allowed_address. rewrite starts_with_star, bool_decide_true by done.
  destruct rest as [|d s].
  - cbn [String.length]. rewrite (bool_decide_true (1%nat = 1%nat)) by done. cbn [negb andb].
    rewrite fold_lower_star. split; [by left|]. intros _. by exists (DomainAddr "*").
  - change (String.length (String "*" (String d s))) with (S (S (String.length s))). cbn [negb].
    rewrite (bool_decide_false (S (S _) = 1%nat)) by lia. cbn [negb andb].
    assert (Hlen : bool_decide (S (S (String.length s)) < 3)%nat = bool_decide (s = EmptyString)).
    { apply bool_decide_ext. destruct s; cbn; split; intros ?; try done; lia. }
    rewrite Hlen. destruct (decide (s = EmptyString)) as [->|Hs].
    + cbn. split; [by intros (? & ? & _)|]. intros [[=]|[(s & Hne & Heq & _)|(_ & [=] & _)]].
      change ("*." +:+ s) with (String "*" (String "." s)) in Heq. injection Heq as _ <-. done.
    + rewrite (bool_decide_false (s = EmptyString)) by done. cbn beta iota zeta delta [orb].
      destruct (decide (d = "."%char)) as [Hd|Hd]; [rewrite (bool_decide_true (d = "."%char)) by done|rewrite (bool_decide_false (d = "."%char)) by done].
      * subst d. cbn [negb]. change (String "*" (String "." s)) with ("*." +:+ s). split.
         -- intros (a & [= <-] & Ha). right. left. exists s. split_and!; [done|done|]. by apply domain_allows_spec.
         -- intros [Heq|[(s' & Hne & Heq & Hor)|(_ & [=] & _)]].
            ++ change ("*." +:+ s) with (String "*" (String "." s)) in Heq. done.
            ++ change ("*." +:+ ?x) with (String "*" (String "." x)) in Heq. injection Heq as <-.
               eexists. split; [done|]. by apply domain_allows_spec.
      * cbn [negb]. split; [by intros (? & ? & _)|]. intros [[=]|[(s' & Hne & Heq & _)|(_ & [=] & _)]].
         change ("*." +:+ s') with (String "*" (String "." s')) in Heq. injection Heq as Hd' _. congruence.
Qed.

Lemma make_allowed_plain c rest h :
  c ≠ "*"%char →
  (∃ a, make_allowed_address (String c rest) = Some a ∧ allows a (MatchStr h) = true) ↔
    entry_allows_host (String c rest) h.
Proof.
  intros Hc. unfold entry_allows_host, make_allowed_address. rewrite starts_with_star, bool_decide_false by done.
  destruct (parse_ip_or_cidr (String c rest)) as [net|] eqn:Ep.
  - split; [by intros (? & [= <-] & ?)|]. intros [[= -> _]|[(s & _ & Heq & _)|(_ & _ & [=] & _)]]; [done|].
    change ("*." +:+ s) with (String "*" (String "." s)) in Heq. injection Heq as -> _. done.
  - unfold occurs_char. destruct (occurs "%" (String c rest)) eqn:Eo.
    + split; [by intros (? & ? & _)|]. intros [[= -> _]|[(s & _ & Heq & _)|(_ & _ & _ & [=] & _)]]; [done|].
      change ("*." +:+ s) with (String "*" (String "." s)) in Heq. injection Heq as -> _. done.
    + split.
      * intros (a & [= <-] & Ha). cbn in Ha. apply bool_decide_eq_true in Ha. right. right. done.
      * intros [[= -> _]|[(s & _ & Heq & _)|(_ & _ & _ & _ & Hf)]]; [done| |].
         -- change ("*." +:+ s) with (String "*" (String "." s)) in Heq. injection Heq as -> _. done.
         -- eexists. split; [done|]. cbn. by apply bool_decide_true.
Qed.

Lemma make_allowed_host e h :
  (∃ a, make_allowed_address e = Some a ∧ allows a (MatchStr h) = true) ↔ entry_allows_host e h.
Proof.
  destruct e as [|c rest].
  - split; [by intros (? & ? & _)|]. by intros [?|[(? & _ & ? & _)|(? & _)]].
  - destruct (decide (c = "*"%char)) as [->|Hc]; [apply make_allowed_star|by apply make_allowed_plain].
Qed.

Lemma make_allowed_ip e i :
  (∃ a, make_allowed_address e = Some a ∧ allows a (MatchIp i) = true) ↔ entry_allows_ip e i.
Proof.
  unfold entry_allows_ip, make_allowed_address. destruct e as [|c rest].
  - split; [by intros (? & ? & _)|]. intros (_ & net & Hp & _). by vm_compute in Hp.
  - rewrite starts_with_star. case_bool_decide as Hc.
    + split; [|by intros [? _]]. destruct (_ && _); [by intros (? & ? & _)|by intros (? & [= <-] & ?)].
    + destruct (parse_ip_or_cidr (String c rest)) as [net|].
      * split; [intros (? & [= <-] & ?); split; [done|by exists net]|intros (_ & ? & [= <-] & ?); by exists (Cidr net)].
      * split; [|by intros (_ & ? & ? & _)]. destruct (occurs_char _ _); [by intros (? & ? & _)|by intros (? & [= <-] & ?)].
Qed.

Lemma existsb_allowed entries v (P : string → Prop) :
  (∀ e, (∃ a, make_allowed_address e = Some a ∧ allows a v = true) ↔ P e) →
  existsb (λ a, allows a v) (parse_allowed_addresses entries) = true ↔ ∃ e, e ∈ entries ∧ P e.
Proof.
  intros HP. rewrite existsb_exists. unfold parse_allowed_addresses. setoid_rewrite <-HP. split.
  - intros (a & Hin & Ha). apply list_elem_of_In, list_elem_of_omap in Hin as (e & He & Hm). eauto.
  - intros (e & He & a & Hm & Ha). exists a. split; [|done]. apply list_elem_of_In, list_elem_of_omap. eauto.
Qed.

(** ** Lemmas: targets *)

Lemma get_value_Ok options key v : get_value options key = Ok v ↔ options !! key = Some v.
Proof. unfold get_value. destruct (options !! key); cbn; split; congruence. Qed.

Lemma get_protocol_Ok cfg options p :
  get_protocol cfg options = Ok p ↔
    if forward_protocol cfg then options !! APPDATA_KEY_PROTOCOL = Some p ∧ p ∈ allowed_protocols cfg
    else p = protocol cfg.
Proof.
  unfold get_protocol. destruct (forward_protocol cfg); cbn [negb]; [|split; congruence].
  rewrite <-get_value_Ok. destruct (get_value options APPDATA_KEY_PROTOCOL) as [v|e]; cbn; [|split; [done|by intros [? _]]].
  case_bool_decide; split; [intros [= <-]; by split|by intros [[= <-] _]|done|by intros [[= <-] ?]].
Qed.

Lemma get_address_Ok cfg options a :
  get_address cfg options = Ok a ↔
    if forward_address cfg then
      match options !! APPDATA_KEY_HOSTNAME with
      | Some h => a = h ∧ ∃ e, e ∈ allowed_addresses cfg ∧ entry_allows_host e h
      | None => options !! APPDATA_KEY_IP = Some a ∧
          ∃ i e, ip_from_str a = Some i ∧ e ∈ allowed_addresses cfg ∧ entry_allows_ip e i
      end
    else a = address cfg.
Proof.
  unfold get_address. destruct (forward_address cfg); cbn [negb]; [|split; congruence].
  destruct (options !! APPDATA_KEY_HOSTNAME) as [h|].
  - rewrite <-(existsb_allowed _ (MatchStr h) (λ e, entry_allows_host e h)) by (intros; apply make_allowed_host).
    destruct (existsb _ _); split; [by intros [= <-]|by intros [-> _]|done|by intros [_ ?]].
  - rewrite <-get_value_Ok. destruct (get_value options APPDATA_KEY_IP) as [v|e]; cbn; [|split; [done|by intros [? _]]].
    assert (Hiff : (match ip_from_str v with
        | Some i => existsb (λ x, allows x (MatchIp i)) (parse_allowed_addresses (allowed_addresses cfg)) | None => false end) = true ↔
      ∃ i e, ip_from_str v = Some i ∧ e ∈ allowed_addresses cfg ∧ entry_allows_ip e i).
    { destruct (ip_from_str v) as [i|]; [|split; [done|by intros (? & ? & ? & _)]].
      rewrite (existsb_allowed _ (MatchIp i) (λ e, entry_allows_ip e i)) by (intros; apply make_allowed_ip).
      split; [intros (e & ? & ?); by exists i, e|intros (? & e & [= <-] & ? & ?); by exists e]. }
    match goal with |- context [if ?b then Ok v else _] => destruct b end.
    + split; [intros [= <-]; split; [done|by apply Hiff]|by intros [[= <-] _]].
    + split; [done|]. intros [[= <-] Hex]. by apply Hiff in Hex.
Qed.

Lemma get_port_Ok cfg options q :
  get_port cfg options = Ok q ↔
    if forward_port cfg then
      ∃ s r, options !! APPDATA_KEY_PORT = Some s ∧ parse_u16 s = Some q ∧ r ∈ allowed_port_ranges cfg ∧
        low r <= q <= high r
    else q = port cfg.
Proof.
  unfold get_port. destruct (forward_port cfg); cbn [negb]; [|split; congruence].
  setoid_rewrite <-get_value_Ok. destruct (get_value options APPDATA_KEY_PORT) as [s|e]; cbn;
    [|split; [done|by intros (? & ? & ? & _)]].
  destruct (parse_u16 s) as [p|] eqn:Ep; cbn; [|split; [done|intros (? & ? & [= <-] & ? & _); congruence]].
  assert (Hiff : existsb (λ r, (low r <=? p) && (p <=? high r)) (allowed_port_ranges cfg) = true ↔
    ∃ r, r ∈ allowed_port_ranges cfg ∧ low r <= p <= high r).
  { rewrite existsb_exists. setoid_rewrite andb_true_iff. setoid_rewrite Z.leb_le. by setoid_rewrite list_elem_of_In. }
  destruct (existsb _ _); split.
  - intros [= <-]. destruct (proj1 Hiff eq_refl) as (r & Hr & Hq). by exists s, r.
  - intros (? & r & [= <-] & Hp & _). congruence.
  - done.
  - intros (? & r & [= <-] & Hp & Hr & Hq). assert (p = q) as <- by congruence.
    enough (false = true) by done. apply Hiff. by exists r.
Qed.

End lemmas.

(** ** Lemmas: octets *)

Lemma le_bytes_snoc n z : le_bytes (S n) z = le_bytes n z ++ [(z / 256 ^ Z.of_nat n) mod 256].
Proof.
  revert z. induction n as [|n IH]; intros z; [cbn; by rewrite Z.div_1_r|].
  change (le_bytes (S (S n)) z) with (z mod 256 :: le_bytes (S n) (z / 256)). rewrite IH.
  rewrite Z.div_div, Nat2Z.inj_succ, Z.pow_succ_r by lia. done.
Qed.

Lemma be_bytes_cons n z : be_bytes (S n) z = (z / 256 ^ Z.of_nat n) mod 256 :: be_bytes n z.
Proof. unfold be_bytes. rewrite le_bytes_snoc, reverse_app. done. Qed.

Lemma be_bytes_mod n z : be_bytes n (z mod 256 ^ Z.of_nat n) = be_bytes n z.
Proof.
  unfold be_bytes. f_equal. revert z. induction n as [|n IH]; intros z; [done|].
  rewrite Nat2Z.inj_succ, Z.pow_succ_r, Z.rem_mul_r by lia. cbn [le_bytes]. f_equal.
  - rewrite Z.mul_comm, Z.mod_add, Z.mod_mod by lia. done.
  - rewrite Z.mul_comm, Z.div_add, Z.div_small, Z.add_0_l by (try lia; apply Z.mod_pos_bound; lia). apply IH.
Qed.

Lemma le_val_app xs ys : le_val (xs ++ ys) = le_val xs + 256 ^ Z.of_nat (length xs) * le_val ys.
Proof.
  induction xs as [|x xs IH]; [cbn [app le_val length]; lia|].
  cbn [app le_val length]. rewrite IH, Nat2Z.inj_succ, Z.pow_succ_r by lia. lia.
Qed.

Lemma be_val_cons b bs : be_val (b :: bs) = b * 256 ^ Z.of_nat (length bs) + be_val bs.
Proof. unfold be_val. rewrite reverse_cons, le_val_app, length_reverse. cbn [le_val]. lia. Qed.

Lemma length_renumber i t n : length i = length t → length (renumber i t n) = length i.
Proof. revert t n. induction i; intros [|? t] n; cbn; auto. Qed.

(** The mask of a partial octet keeps the high bits of one octet and its
    complement the low bits of the other. *)
Lemma land_top_bits b n : byte_ok b → 0 < n < 8 → Z.land b (top_bits n) = b / 2 ^ (8 - n) * 2 ^ (8 - n).
Proof.
  intros Hb Hn. pose proof (land_lnot_ones b (8 - n) 8 ltac:(lia) Hb) as Hl.
  replace (Z.lxor (Z.ones (8 - n)) (Z.ones 8)) with (top_bits n) in Hl.
  - rewrite Hl. pose proof (Z.div_mod b (2 ^ (8 - n)) ltac:(lia)). lia.
  - assert (n = 1 ∨ n = 2 ∨ n = 3 ∨ n = 4 ∨ n = 5 ∨ n = 6 ∨ n = 7) by lia. by destruct_or!; subst n.
Qed.

Lemma land_low_bits a n : 0 < n < 8 → Z.land a (255 - top_bits n) = a mod 2 ^ (8 - n).
Proof.
  intros Hn. replace (255 - top_bits n) with (Z.ones (8 - n)); [apply Z.land_ones; lia|].
  assert (n = 1 ∨ n = 2 ∨ n = 3 ∨ n = 4 ∨ n = 5 ∨ n = 6 ∨ n = 7) by lia. by destruct_or!; subst n.
Qed.

Lemma renumber_octet a b n :
  byte_ok a → byte_ok b → 0 < n < 8 →
  Z.lor (Z.land b (top_bits n)) (Z.land a (255 - top_bits n)) = rebase a b n 8.
Proof.
  intros Ha Hb Hn. rewrite land_top_bits, land_low_bits by done. unfold rebase.
  apply (lor_aligned _ _ (8 - n)); [lia|by rewrite Z.mod_mul by lia|apply Z.mod_pos_bound; lia].
Qed.

Lemma land_byte a : byte_ok a → Z.land a 255 = a.
Proof. intros Ha. change 255 with (Z.ones 8). rewrite Z.land_ones by lia. by apply Z.mod_small. Qed.

(** ** Lemmas: translation *)

Lemma rebase_none i t n w : 0 <= w → n <= 0 → 0 <= i < 2 ^ w → 0 <= t < 2 ^ w → rebase i t n w = i.
Proof.
  intros Hw Hn Hi Ht. unfold rebase. assert (2 ^ w <= 2 ^ (w - n)) by (apply Z.pow_le_mono_r; lia).
  rewrite Z.div_small, Z.mod_small; lia.
Qed.

Lemma div_add_high b W t k j : 0 <= k → W = 2 ^ (k + j) → 0 <= j → (b * W + t) / 2 ^ k = b * 2 ^ j + t / 2 ^ k.
Proof.
  intros Hk -> Hj. rewrite Z.pow_add_r by lia.
  replace (b * (2 ^ k * 2 ^ j) + t) with (t + (b * 2 ^ j) * 2 ^ k) by lia. rewrite Z.div_add by lia. lia.
Qed.

Lemma pow_256 n : 256 ^ Z.of_nat n = 2 ^ (8 * Z.of_nat n).
Proof. by rewrite (Z.pow_mul_r 2 8) by lia. Qed.

(** The value of the first octet and of the rest. *)
Lemma octet_split n z :
  0 <= z < 2 ^ (8 * Z.of_nat (S n)) →
  ∃ a z', byte_ok a ∧ 0 <= z' < 2 ^ (8 * Z.of_nat n) ∧ z = a * 2 ^ (8 * Z.of_nat n) + z' ∧
    be_bytes (S n) z = a :: be_bytes n z'.
Proof.
  intros Hz. pose proof (pow_256 n) as H256. set (w := 8 * Z.of_nat n) in *.
  replace (8 * Z.of_nat (S n)) with (8 + w) in Hz by lia. rewrite Z.pow_add_r in Hz by lia. change (2 ^ 8) with 256 in Hz.
  assert (byte_ok (z / 2 ^ w)).
  { split; [apply Z.div_pos; lia|apply Z.div_lt_upper_bound; lia]. }
  exists (z / 2 ^ w), (z mod 2 ^ w). split; [done|]. split; [apply Z.mod_pos_bound; lia|]. split.
  - rewrite (Z.div_mod z (2 ^ w)) at 1 by lia. lia.
  - rewrite be_bytes_cons, <-(be_bytes_mod n z), H256. f_equal. apply Z.mod_small, H.
Qed.

Lemma rebase_octet a b i t p w :
  0 <= w → byte_ok a → byte_ok b → 0 <= i < 2 ^ w → 0 <= t < 2 ^ w → p < 8 →
  rebase (a * 2 ^ w + i) (b * 2 ^ w + t) p (w + 8) = rebase a b p 8 * 2 ^ w + i.
Proof.
  intros Hw Ha Hb Hi Ht Hp. unfold rebase. replace (w + 8 - p) with (w + (8 - p)) by lia.
  rewrite Z.pow_add_r by lia. rewrite <-!Z.div_div by lia.
  rewrite !Z.div_add_l, (Z.div_small t), Z.add_0_r by lia.
  rewrite Z.rem_mul_r by lia. rewrite Z.div_add_l, (Z.div_small i), Z.add_0_r by lia.
  rewrite (Z.add_comm (a * _) i), Z.mod_add, (Z.mod_small i) by lia. lia.
Qed.

Lemma rebase_below a b i t p w :
  0 <= p - 8 <= w → rebase (a * 2 ^ w + i) (b * 2 ^ w + t) p (w + 8) = b * 2 ^ w + rebase i t (p - 8) w.
Proof.
  intros Hp. unfold rebase. replace (w + 8 - p) with (w - (p - 8)) by lia. set (k := w - (p - 8)).
  replace (2 ^ w) with (2 ^ (p - 8) * 2 ^ k) by (rewrite <-Z.pow_add_r by lia; f_equal; lia).
  rewrite !Z.mul_assoc, Z.div_add_l by lia. rewrite (Z.add_comm (_ * _) i), Z.mod_add by lia. lia.
Qed.

Lemma renumber_val n : ∀ i t p,
  0 <= i < 2 ^ (8 * Z.of_nat n) → 0 <= t < 2 ^ (8 * Z.of_nat n) → p <= 8 * Z.of_nat n →
  be_val (renumber (be_bytes n i) (be_bytes n t) p) = rebase i t p (8 * Z.of_nat n).
Proof.
  induction n as [|n IH]; intros i t p Hi Ht Hp.
  - rewrite rebase_none by lia. cbn in *. lia.
  - destruct (octet_split n i Hi) as (a & i' & Ha & Hi' & -> & ->).
    destruct (octet_split n t Ht) as (b & t' & Hb & Ht' & -> & ->).
    cbn [renumber]. rewrite be_val_cons, length_renumber, length_be_bytes, IH by (rewrite ?length_be_bytes; lia).
    rewrite pow_256. replace (8 * Z.of_nat (S n)) with (8 * Z.of_nat n + 8) by lia.
    destruct (Z.ltb_spec 0 p); [destruct (Z.ltb_spec p 8)|].
    + rewrite renumber_octet, rebase_octet by (done || lia). by rewrite (rebase_none i') by lia.
    + rewrite rebase_below by lia. rewrite land_byte, Z.land_0_r, Z.lor_0_r by done. done.
    + rewrite rebase_octet, (rebase_none i'), (rebase_none a) by (done || lia).
      rewrite Z.land_0_r, Z.lor_0_l, land_byte by done. done.
Qed.

Lemma masked_eq_cons a b x y p :
  8 <= p → masked_eq (a :: x) (b :: y) p = (a =? b) && masked_eq x y (p - 8).
Proof.
  intros Hp. unfold masked_eq.
  assert (Hd : Z.to_nat (p / 8) = S (Z.to_nat ((p - 8) / 8))).
  { replace p with (p - 8 + 1 * 8) at 1 by lia. rewrite Z.div_add by lia.
    assert (0 <= (p - 8) / 8) by (apply Z.div_pos; lia). lia. }
  assert (Hm : p mod 8 = (p - 8) mod 8) by (rewrite <-(Z.mod_add (p - 8) 1) by lia; f_equal; lia).
  rewrite Hd, Hm. cbn [take]. unfold get0. cbn [nth]. destruct (Z.eqb_spec a b) as [->|Hab]; cbn [andb].
  - rewrite (bool_decide_ext (b :: _ = _) (take (Z.to_nat ((p - 8) / 8)) x = take (Z.to_nat ((p - 8) / 8)) y)); [done|].
    split; [by intros [= ->]|by intros ->].
  - rewrite bool_decide_false; [done|congruence].
Qed.

Lemma masked_eq_partial a b x y p :
  byte_ok a → byte_ok b → 0 <= p < 8 → masked_eq (a :: x) (b :: y) p = (a / 2 ^ (8 - p) =? b / 2 ^ (8 - p)).
Proof.
  intros Ha Hb Hp. unfold masked_eq. rewrite (Z.div_small p), (Z.mod_small p) by lia.
  change (Z.to_nat 0) with 0%nat. cbn [take]. rewrite bool_decide_true by done. cbn [negb].
  unfold get0. cbn [nth]. destruct (Z.eqb_spec p 0) as [->|Hne].
  - symmetry. apply Z.eqb_eq. unfold byte_ok in *. rewrite !Z.div_small; lia.
  - rewrite !land_top_bits by (done || lia). destruct (Z.eqb_spec (a / 2 ^ (8 - p)) (b / 2 ^ (8 - p))) as [->|Hab].
    + apply Z.eqb_refl.
    + apply Z.eqb_neq. intros Heq. apply Hab. eapply Z.mul_reg_r; [|exact Heq]. lia.
Qed.

(** The octet comparison is the comparison of the first [p] bits. *)
Lemma masked_eq_val n : ∀ x y p,
  0 <= x < 2 ^ (8 * Z.of_nat n) → 0 <= y < 2 ^ (8 * Z.of_nat n) → 0 <= p <= 8 * Z.of_nat n →
  masked_eq (be_bytes n x) (be_bytes n y) p = (x / 2 ^ (8 * Z.of_nat n - p) =? y / 2 ^ (8 * Z.of_nat n - p)).
Proof.
  induction n as [|n IH]; intros x y p Hx Hy Hp.
  - assert (x = y) as -> by (cbn in *; lia). assert (p = 0) as -> by lia. by rewrite Z.eqb_refl.
  - destruct (octet_split n x Hx) as (a & x' & Ha & Hx' & -> & ->).
    destruct (octet_split n y Hy) as (b & y' & Hb & Hy' & -> & ->).
    replace (8 * Z.of_nat (S n)) with (8 * Z.of_nat n + 8) in * by lia. set (w := 8 * Z.of_nat n) in *.
    destruct (Z.ltb_spec p 8).
    + rewrite masked_eq_partial by (done || lia). replace (w + 8 - p) with (w + (8 - p)) by lia.
      rewrite Z.pow_add_r, <-!Z.div_div, !Z.div_add_l, (Z.div_small x'), (Z.div_small y'), !Z.add_0_r by lia. done.
    + rewrite masked_eq_cons, IH by lia. replace (w + 8 - p) with (w - (p - 8)) by lia. set (k := w - (p - 8)).
      assert (Hw : 2 ^ w = 2 ^ (p - 8) * 2 ^ k) by (rewrite <-Z.pow_add_r by lia; f_equal; lia).
      rewrite Hw in Hx', Hy' |- *. rewrite !Z.mul_assoc, !Z.div_add_l by lia.
      assert (0 <= x' / 2 ^ k < 2 ^ (p - 8)) by (split; [apply Z.div_pos; lia|apply Z.div_lt_upper_bound; lia]).
      assert (0 <= y' / 2 ^ k < 2 ^ (p - 8)) by (split; [apply Z.div_pos; lia|apply Z.div_lt_upper_bound; lia]).
      apply eq_true_iff_eq. rewrite andb_true_iff, !Z.eqb_eq. split; [by intros [-> ->]|]. intros Heq.
      assert (a = b) as -> by nia. split; [done|lia].
Qed.

Lemma prefix_contains_same f p i :
  ip_ok f → ip_ok i → 0 <= p → prefix_contains f p i = (p <=? width i) && same_prefix p f i.
Proof.
  intros Hf Hi Hp. destruct f as [x|x], i as [y|y]; cbn [prefix_contains same_prefix width octets];
    rewrite ?andb_false_r; try done; unfold ip_ok in *; cbn [width ip_val] in *.
  - destruct (Z.leb_spec p 32); [|done]. by apply (masked_eq_val 4).
  - destruct (Z.leb_spec p 128); [|done]. by apply (masked_eq_val 16).
Qed.

(** Translations whose addresses and lengths are in range. *)
Definition translation_ok (t : AddressTranslationPrefix) : Prop := ip_ok (from t) ∧ ip_ok (to t) ∧ 0 <= bits t.

Lemma translation_moved t i :
  translation_ok t → ip_ok i →
  (if prefix_contains (from t) (bits t) i then translate_ip i (to t) (bits t) else None) = moved t i.
Proof.
  intros (Hf & Ht & Hb) Hi. unfold moved. rewrite prefix_contains_same by done.
  destruct (Z.leb_spec (bits t) (width i)) as [Hw|]; [|done]. destruct (same_prefix _ _ _); [|done]. cbn [andb].
  destruct i as [a|a], (to t) as [b|b]; cbn [translate_ip octets]; try done;
    unfold ip_ok in *; cbn [width ip_val] in *; do 2 f_equal.
  - by apply (renumber_val 4).
  - by apply (renumber_val 16).
Qed.

(** The first translation that applies. *)
Fixpoint first_moving (i : IpAddr) (ts : list AddressTranslationPrefix) : option AddressTranslationPrefix :=
  match ts with
  | [] => None
  | t :: ts => match moved t i with Some _ => Some t | None => first_moving i ts end
  end.

Lemma translate_loop_first i ts :
  ip_ok i → Forall translation_ok ts → translate_loop i ts = t ← first_moving i ts; moved t i.
Proof.
  intros Hi. induction 1 as [|t ts Ht _ IH]; [done|]. cbn [translate_loop first_moving].
  rewrite translation_moved by done. destruct (moved t i) eqn:E; [by cbn; rewrite E|done].
Qed.

Lemma first_moving_elem i ts t : first_moving i ts = Some t → t ∈ ts ∧ is_Some (moved t i).
Proof.
  induction ts as [|t' ts IH]; [done|]. cbn. destruct (moved t' i) eqn:E.
  - intros [= <-]. split; [by left|done].
  - intros Hf. apply IH in Hf as [? ?]. split; [by right|done].
Qed.

Lemma first_moving_None i ts : first_moving i ts = None ↔ ∀ t, t ∈ ts → moved t i = None.
Proof.
  induction ts as [|t ts IH]; cbn.
  - split; [|done]. intros _ t Ht. by apply not_elem_of_nil in Ht.
  - destruct (moved t i) eqn:E.
    + split; [done|]. intros Hall. rewrite (Hall t) in E; [done|by left].
    + rewrite IH. split; [|by auto using list_elem_of_further]. intros Hall t' [->|Ht]%elem_of_cons; auto.
Qed.

Definition desc (ts : list AddressTranslationPrefix) : Prop := StronglySorted (λ x y, bits y <= bits x) ts.

Lemma insert_desc_elem x y l : y ∈ insert_desc x l ↔ y = x ∨ y ∈ l.
Proof.
  induction l as [|z l IH]; cbn; [by rewrite !elem_of_cons|].
  destruct (bits x <=? bits z); rewrite !elem_of_cons; [rewrite IH|]; tauto.
Qed.

Lemma insert_desc_sorted x l : desc l → desc (insert_desc x l).
Proof.
  induction 1 as [|y l Hs IH Hy]; cbn; [by repeat constructor|].
  rewrite Forall_forall in Hy. destruct (Z.leb_spec (bits x) (bits y)).
  - constructor; [done|]. apply Forall_forall. intros z [->|Hz]%insert_desc_elem; auto.
  - constructor; [by constructor; [|rewrite Forall_forall]|]. apply Forall_forall.
    intros z [->|Hz]%elem_of_cons; [lia|]. specialize (Hy z Hz). lia.
Qed.

(** Inserting a translation changes which one applies first only if it is longer. *)
Lemma first_moving_insert i x l :
  desc l →
  first_moving i (insert_desc x l) =
    match first_moving i l with
    | Some y => match moved x i with Some _ => if bits x <=? bits y then Some y else Some x | None => Some y end
    | None => match moved x i with Some _ => Some x | None => None end
    end.
Proof.
  induction 1 as [|y l Hs IH Hy]; [done|]. cbn [insert_desc].
  destruct (Z.leb_spec (bits x) (bits y)) as [Hle|Hlt]; cbn [first_moving].
  - destruct (moved y i) eqn:E; [|exact IH]. destruct (moved x i); [|done]. by rewrite (proj2 (Z.leb_le _ _) Hle).
  - destruct (moved y i) eqn:E.
    + destruct (moved x i); [|done]. by rewrite (proj2 (Z.leb_gt _ _) Hlt).
    + destruct (moved x i) eqn:Ex; [|by destruct (first_moving i l)].
      destruct (first_moving i l) as [z|] eqn:Ez; [|done]. apply first_moving_elem in Ez as [Hz _].
      rewrite Forall_forall in Hy. specialize (Hy z Hz). by rewrite (proj2 (Z.leb_gt _ _)) by lia.
Qed.

Lemma sort_desc_snoc l x : sort_desc (l ++ [x]) = insert_desc x (sort_desc l).
Proof. unfold sort_desc. by rewrite foldl_app. Qed.

Lemma sort_desc_sorted l : desc (sort_desc l).
Proof.
  induction l as [|x l IH] using rev_ind; [constructor|]. rewrite sort_desc_snoc. by apply insert_desc_sorted.
Qed.

Lemma sort_desc_elem l y : y ∈ sort_desc l ↔ y ∈ l.
Proof.
  induction l as [|x l IH] using rev_ind; [done|]. rewrite sort_desc_snoc, insert_desc_elem, IH, elem_of_app, list_elem_of_singleton. tauto.
Qed.

(** The first of the sorted translations is the best of the config's. *)
Lemma first_moving_sort i l t : first_moving i (sort_desc l) = Some t → best_of l i t.
Proof.
  revert t. induction l as [|x l IH] using rev_ind; intros t; [done|].
  rewrite sort_desc_snoc, first_moving_insert by apply sort_desc_sorted.
  destruct (first_moving i (sort_desc l)) as [y|] eqn:Ey.
  - destruct (IH y eq_refl) as (l1 & l2 & -> & Hm & H1 & H2). intros Ht.
    assert (Hy : t = y ∧ (is_Some (moved x i) → bits x <= bits y) ∨ t = x ∧ is_Some (moved x i) ∧ bits y < bits x).
    { destruct (moved x i) eqn:Ex; [|injection Ht as <-; left; split; [done|by intros [? ?]]].
      destruct (Z.leb_spec (bits x) (bits y)); injection Ht as <-; [by left|right; by split_and!]. }
    destruct Hy as [[-> Hx]|(-> & Hx & Hlt)].
    + exists l1, (l2 ++ [x]). split; [by rewrite <-app_assoc|]. split_and!; [done..|].
      intros t' [?| ->%list_elem_of_singleton]%elem_of_app; auto.
    + exists (l1 ++ y :: l2), []. split_and!; [done|done| |by intros ? ?%not_elem_of_nil].
      intros t' [Ht'|[->|Ht']%elem_of_cons]%elem_of_app Hm'; [specialize (H1 t' Ht' Hm')|done|specialize (H2 t' Ht' Hm')]; lia.
  - destruct (moved x i) eqn:Ex; [|done]. intros [= <-]. exists l, []. split_and!; [done|by rewrite Ex| |by intros ? ?%not_elem_of_nil].
    intros t' Ht' [j Hj]. apply first_moving_None with (t := t') in Ey; [congruence|by apply sort_desc_elem].
Qed.

Lemma parse_translations_Ok xs ts :
  parse_translations xs = Ok ts →
  Forall2 (λ x t, ip_from_str (t_from x) = Some (from t) ∧ ip_from_str (t_to x) = Some (to t) ∧
    bits t = prefix_length x) xs ts.
Proof.
  revert ts. induction xs as [|x xs IH]; intros ts H; cbn in H; [injection H as <-; constructor|].
  destruct (ip_from_str (t_from x)) as [f|] eqn:Ef; [|done]. cbn in H.
  destruct (ip_from_str (t_to x)) as [t|] eqn:Et; [|done]. cbn in H.
  destruct (parse_translations xs) as [out|]; [|done]. injection H as <-. constructor; [done|by apply IH].
Qed.

Lemma parsed_translation_ok xs ts :
  Forall (λ x, 0 <= prefix_length x) xs → parse_translations xs = Ok ts → Forall translation_ok ts.
Proof.
  intros Hx H%parse_translations_Ok. induction H as [|x t xs ts (Hf & Ht & Hb) _ IH]; [constructor|].
  inversion_clear Hx. constructor; [|by apply IH]. unfold translation_ok. rewrite Hb.
  split_and!; [by eapply ip_from_str_ok..|done].
Qed.

(** ** Properties *)

(** What resolves from app data: options that allow it, and the source they ask for. *)
Definition resolves `{IpNetLib} `{CaseTable} (from_slice : list Z → result string AppValue) (cfg : HostV1Config)
    (app_data : option (list Z)) (t : ResolvedTarget) : Prop :=
  ∃ options, parse_app_data from_slice app_data = Ok options ∧
    target_allowed cfg options (tg_protocol t) (tg_address t) (tg_port t) ∧
    match options !! APPDATA_KEY_SOURCE_ADDR with
    | Some s => if bool_decide (s = EmptyString) then source_bind t = None
                else ∃ b, parse_source_bind s = Ok b ∧ source_bind t = Some b
    | None => source_bind t = None
    end.

Lemma resolve_target_spec `{IpNetLib} `{CaseTable} from_slice cfg app_data t :
  resolve_target from_slice cfg app_data = Ok t ↔ resolves from_slice cfg app_data t.
Proof.
  unfold resolves.
  unfold resolve_target. destruct (parse_app_data from_slice app_data) as [options|e]; cbn;
    [|split; [done|by intros (? & ? & _)]].
  assert (Hta : ∀ p a q, target_allowed cfg options p a q ↔
    get_protocol cfg options = Ok p ∧ get_address cfg options = Ok a ∧ get_port cfg options = Ok q).
  { intros. rewrite get_protocol_Ok, get_address_Ok, get_port_Ok. by split; [intros []|intros (? & ? & ?); split]. }
  split.
  - intros Hr. exists options. split; [done|]. rewrite Hta.
    destruct (get_protocol cfg options) as [p|]; [|done]. destruct (get_address cfg options) as [a|]; [|done].
    destruct (get_port cfg options) as [q|]; [|done]. cbn in Hr.
    destruct (options !! APPDATA_KEY_SOURCE_ADDR) as [s|]; [|by injection Hr as <-].
    case_bool_decide; [by injection Hr as <-|]. destruct (parse_source_bind s) as [b|]; [|done].
    cbn in Hr. injection Hr as <-. split; [done|]. by exists b.
  - intros (? & [= <-] & Ht & Hs). apply Hta in Ht as (-> & -> & ->). cbn.
    destruct (options !! APPDATA_KEY_SOURCE_ADDR) as [s|]; [|cbn; rewrite <-Hs; by destruct t].
    case_bool_decide; [cbn; rewrite <-Hs; by destruct t|]. destruct Hs as (b & -> & Hs). cbn. rewrite <-Hs. by destruct t.
Qed.

(** What a hosted dial may reach ([resolve_target]): a target is resolved exactly
    when its protocol, address and port are the configured ones, or - for those the
    config forwards - the ones the dialer asks for in the app data, each allowed by
    the config's lists: a protocol on the list; a host name equal to an entry, or
    under a wildcard entry, up to case; a literal address inside an entry's network; a port
    inside one of the ranges; and the source address, if one is given, is an address
    with or without a port. *)
Theorem resolve_target_allowed `{IpNetLib} `{CaseTable} from_slice cfg app_data t :
  resolve_target from_slice cfg app_data = Ok t ↔
    ∃ options, parse_app_data from_slice app_data = Ok options ∧
      target_allowed cfg options (tg_protocol t) (tg_address t) (tg_port t) ∧
      match options !! APPDATA_KEY_SOURCE_ADDR with
      | Some s => if bool_decide (s = EmptyString) then source_bind t = None
                  else ∃ b, parse_source_bind s = Ok b ∧ source_bind t = Some b
      | None => source_bind t = None
      end.
Proof. exact (resolve_target_spec from_slice cfg app_data t). Qed.

(** The app data of the examples: a forwarded dial to a host name. *)
Definition demo_app_data (b : list Z) : result string AppValue :=
  Ok (AppObject {[ APPDATA_KEY_PROTOCOL := Some "tcp"%string; APPDATA_KEY_HOSTNAME := Some "Db.Example.Com"%string;
                   APPDATA_KEY_PORT := Some "5432"%string ]}).

Definition demo_cfg : HostV1Config :=
  mkHostConfig "" true ["tcp"; "udp"]%string "" true [] ["10.0.0.0/8"; "*.example.com"]%string 0 true
    [{| low := 5000; high := 6000 |}] [] None.

Lemma resolve_target_allowed_witness :
  ∃ options, @parse_app_data demo_app_data (Some [1]) = Ok options ∧
    @target_allowed cidr_nets ascii_case demo_cfg options "tcp" "Db.Example.Com" 5432.
Proof.
  destruct (proj1 (@resolve_target_allowed cidr_nets ascii_case demo_app_data demo_cfg (Some [1])
    (mkTarget "tcp" "Db.Example.Com" 5432 None))) as (options & Ho & Ht & _).
  - vm_compute. reflexivity.
  - by exists options.
Defined.

(** Translation of forwarded addresses ([build_address_translations],
    [translate_address]): of the config's translations whose [from] covers the
    address, the longest is used (the first of equals), and the result is its [to]
    network with the host bits of the address; an address that no translation covers,
    or that is a name, stays as it is. *)
Theorem translate_longest cfg ts a :
  Forall (λ x, 0 <= prefix_length x) (forward_address_translations cfg) →
  build_address_translations cfg = Ok ts →
  ∃ parsed, (if forward_address cfg then parse_translations (forward_address_translations cfg) = Ok parsed else parsed = []) ∧
    match ip_from_str a with
    | None => translate_address a ts = a
    | Some i =>
        (∃ t j, best_of parsed i t ∧ moved t i = Some j ∧ translate_address a ts = ip_to_string j) ∨
        ((∀ t, t ∈ parsed → moved t i = None) ∧ translate_address a ts = a)
    end.
Proof.
  intros Hp Hb.
  assert (∃ parsed, ts = sort_desc parsed ∧ Forall translation_ok parsed ∧
    if forward_address cfg then parse_translations (forward_address_translations cfg) = Ok parsed else parsed = [])
    as (parsed & -> & Hok & Hparsed).
  { unfold build_address_translations in Hb. destruct (forward_address cfg); cbn [negb orb] in Hb; [|injection Hb as <-; by exists []].
    case_bool_decide as Hl; [apply nil_length_inv in Hl; rewrite Hl; injection Hb as <-; by exists []|].
    destruct (parse_translations _) as [out|] eqn:E; [|done]. injection Hb as <-. exists out. split_and!; [done| |done].
    by eapply parsed_translation_ok. }
  exists parsed. split; [done|]. unfold translate_address. destruct (ip_from_str a) as [i|] eqn:Ei; [|done].
  apply ip_from_str_ok in Ei. rewrite translate_loop_first; [|done|].
  - destruct (first_moving i (sort_desc parsed)) as [t|] eqn:Et; cbn.
    + pose proof (first_moving_elem _ _ _ Et) as [_ [j Hj]]. left. exists t, j. rewrite Hj.
      split_and!; [by apply first_moving_sort|done..].
    + right. split; [|done]. intros t Ht. apply first_moving_None with (t := t) in Et; [done|by apply sort_desc_elem].
  - rewrite Forall_forall in Hok |- *. intros t Ht. by apply Hok, sort_desc_elem.
Qed.

Definition demo_translations : HostV1Config :=
  mkHostConfig "tcp" false [] "" true
    [mkTranslation "10.0.0.0" "192.168.0.0" 8; mkTranslation "10.1.0.0" "172.16.0.0" 12]%string [] 80 false [] [] None.

Example translate_longest_witness :
  ∃ ts, build_address_translations demo_translations = Ok ts ∧
    translate_address "10.2.3.4" ts = "172.18.3.4"%string ∧ translate_address "10.200.3.4" ts = "192.200.3.4"%string ∧
    ∃ parsed, parse_translations (forward_address_translations demo_translations) = Ok parsed ∧
      ((∃ t j, best_of parsed (V4 167904004) t ∧ moved t (V4 167904004) = Some j ∧
          translate_address "10.2.3.4" ts = ip_to_string j) ∨
       ((∀ t, t ∈ parsed → moved t (V4 167904004) = None) ∧ translate_address "10.2.3.4" ts = "10.2.3.4"%string)).
Proof.
  eexists. split; [vm_compute; reflexivity|]. split; [vm_compute; reflexivity|]. split; [vm_compute; reflexivity|].
  apply (translate_longest demo_translations _ "10.2.3.4"); [by_compute|vm_compute; reflexivity].
Defined.
