(* ===== verification/DialTimeout.v ===== *)
(** * The dial timeout of a host: [src/tunnel/resolve/timeout.rs]

    The timeout of a [host.v1] config, which may be written as a duration of Go: a sign
    and terms such as [1.5h] or [300ms].  Fractions are computed in [f64], here the
    standard library's specification of binary64. *)

From Stdlib Require Import SpecFloat.
From S2P Require Import Prelude F64 Address HostTarget.

(** ** Numbers *)

(** [1 << 63]. *)
Definition LIMIT : Z := 2 ^ 63.

Definition fraction_nanos (f unit : Z) (scale : spec_float) : Z := f64_as_u64 (f64_mul (f64 f) (f64_div (f64 unit) scale)).

(** The run of digits at the head of a string, and the rest. *)
Fixpoint leading_int (x : Z) (s : string) : option (Z * string) :=
  match s with
  | EmptyString => Some (x, s)
  | String c rest =>
      match digit_val c with
      | None => Some (x, s)
      | Some d =>
          if LIMIT / 10 <? x then None
          else let x := x * 10 + d in if LIMIT <? x then None else leading_int x rest
      end
  end.

Fixpoint leading_fraction (x : Z) (scale : spec_float) (overflow : bool) (s : string) : Z * spec_float * string :=
  match s with
  | EmptyString => (x, scale, s)
  | String c rest =>
      match digit_val c with
      | None => (x, scale, s)
      | Some d =>
          if overflow || ((LIMIT - 1) / 10 <? x) then leading_fraction x scale true rest
          else
            let y := x * 10 + d in
            if LIMIT <? y then leading_fraction x scale true rest else leading_fraction y (f64_mul scale (f64 10)) false rest
      end
  end.

Definition unit_nanos (u : string) : option Z :=
  if bool_decide (u = "ns") then Some 1
  else if bool_decide (u = "us" ∨ u = "µs" ∨ u = "μs") then Some 1000
  else if bool_decide (u = "ms") then Some 1000000
  else if bool_decide (u = "s") then Some 1000000000
  else if bool_decide (u = "m") then Some 60000000000
  else if bool_decide (u = "h") then Some 3600000000000
  else None.

(** ** The parser *)

Definition numeric (c : ascii) : bool := bool_decide (c = "."%char) || bool_decide (is_Some (digit_val c)).

(** The run that is neither digit nor point, and the rest. *)
Fixpoint unit_run (s : string) : string * string :=
  match s with
  | EmptyString => (s, s)
  | String c rest => if numeric c then (EmptyString, s) else let '(u, rest) := unit_run rest in (String c u, rest)
  end.

(** The part after a point, if there is one: the fraction, its scale, the rest and
    whether there were digits. *)
Definition fraction_part (s : string) : Z * spec_float * string * bool :=
  match s with
  | String "." t =>
      let '(f, scale, rest) := leading_fraction 0 (f64 1) false t in
      (f, scale, rest, negb (String.length t =? String.length rest)%nat)
  | _ => (0, f64 1, s, false)
  end.

(** One term of the loop of [parse_go_duration]: its nanoseconds and the rest. *)
Definition parse_term (s : string) : option (Z * string) :=
  match s with
  | EmptyString => None
  | String c _ =>
      if negb (numeric c) then None
      else
        '(v, rest) ← leading_int 0 s;
        let pre := negb (String.length s =? String.length rest)%nat in
        let '(f, scale, rest, post) := fraction_part rest in
        if negb pre && negb post then None
        else
          let '(u, rest) := unit_run rest in
          if bool_decide (u = EmptyString) then None
          else
            unit ← unit_nanos u;
            if LIMIT / unit <? v then None
            else
              let v := v * unit in
              if 0 <? f then
                let v := wrap_u64 (v + fraction_nanos f unit scale) in
                if LIMIT <? v then None else Some (v, rest)
              else Some (v, rest)
  end.

Fixpoint parse_terms (fuel : nat) (d : Z) (s : string) : option Z :=
  match s, fuel with
  | EmptyString, _ => Some d
  | _, O => None
  | _, S fuel =>
      '(v, rest) ← parse_term s;
      let d := d + v in
      if 2 ^ 64 <=? d then None else if LIMIT <? d then None else parse_terms fuel d rest
  end.

(** The leading sign: is it a minus? *)
Definition leading_sign (s : string) : bool * string :=
  match s with
  | String "-" t => (true, t)
  | String "+" t => (false, t)
  | _ => (false, s)
  end.

Definition parse_go_duration (s : string) : option Z :=
  let '(neg, s) := leading_sign s in
  if bool_decide (s = "0") then Some 0
  else if bool_decide (s = EmptyString) then None
  else
    d ← parse_terms (String.length s) 0 s;
    if neg : bool then Some (- d) else if LIMIT - 1 <? d then None else Some d.

(** ** The timeout *)

Definition HOST_DIAL_TIMEOUT : Z := 5 * 1000000000.

Definition positive_duration_from_nanos (nanos : Z) : option Z := if 0 <? nanos then Some nanos else None.

(** In nanoseconds. *)
Definition get_dial_timeout (cfg : HostV1Config) (default : Z) : result string Z :=
  match listen_options cfg with
  | None => Ok default
  | Some opts =>
      match connect_timeout opts with
      | Some ct =>
          nanos ← ok_or ("invalid host.v1 connectTimeout '" +:+ ct +:+ "'") (parse_go_duration ct);
          ok_or ("host.v1 connectTimeout '" +:+ ct +:+ "' must be a positive duration") (positive_duration_from_nanos nanos)
      | None =>
          match connect_timeout_seconds opts with
          | Some secs =>
              if secs =? 0 then Err "host.v1 connectTimeoutSeconds must be a positive number of seconds"
              else Ok (secs * 1000000000)
          | None => Ok default
          end
      end
  end.

(** ** Specification *)

(** A term: a number, at most three digits after its point, a unit. *)
Record term : Type := mkTerm { number : N; fraction : string; unit_name : string }.

Definition nanos_of (t : term) : Z :=
  match unit_nanos (unit_name t), digits_val 0 (fraction t) with
  | Some unit, Some f => Z.of_N (number t) * unit + f * unit / 10 ^ Z.of_nat (String.length (fraction t))
  | _, _ => 0
  end.

Definition term_ok (t : term) : Prop :=
  is_Some (unit_nanos (unit_name t)) ∧ all_digits (fraction t) = true ∧ (String.length (fraction t) <= 3)%nat.

Definition print_term (t : term) : string :=
  pretty (number t) +:+ (if bool_decide (fraction t = EmptyString) then EmptyString else "." +:+ fraction t) +:+ unit_name t.

Fixpoint print_terms (ts : list term) : string := match ts with [] => EmptyString | t :: ts => print_term t +:+ print_terms ts end.

Fixpoint total (ts : list term) : Z := match ts with [] => 0 | t :: ts => nanos_of t + total ts end.

(** The seconds are a [u32]. *)
Definition secs_ok (cfg : HostV1Config) : Prop :=
  match listen_options cfg with
  | Some opts => ∀ secs, connect_timeout_seconds opts = Some secs → 0 <= secs < 2 ^ 32
  | None => True
  end.

(** ** Lemmas: runs of digits *)

(** A string that no digit and no point starts. *)
Definition stops (s : string) : Prop := match s with EmptyString => True | String c _ => numeric c = false end.

Lemma not_numeric c : numeric c = false → digit_val c = None ∧ c ≠ "."%char.
Proof.
  unfold numeric. intros [H1%bool_decide_eq_false H2%bool_decide_eq_false]%orb_false_iff. split; [|done].
  by apply eq_None_not_Some.
Qed.

Lemma digits_val_mono acc s v : 0 <= acc → digits_val acc s = Some v → acc <= v.
Proof.
  revert acc. induction s as [|a s IH]; intros acc Hacc H; cbn in H; [by injection H as <-|].
  destruct (digit_val a) as [d|] eqn:E; [|done]. unfold digit_val in E. destruct (_ && _) eqn:F; [|done]. injection E as <-. bool_to_prop.
  apply IH in H; lia.
Qed.

Lemma leading_int_digits s rest acc v :
  0 <= acc → digits_val acc s = Some v → v <= LIMIT → (match rest with String c _ => digit_val c = None | _ => True end) →
  leading_int acc (s +:+ rest) = Some (v, rest).
Proof.
  unfold LIMIT. revert acc. induction s as [|a s IH]; intros acc Hacc H Hv Hr.
  - injection H as <-. change (EmptyString +:+ rest) with rest. destruct rest as [|c rest]; [done|]. cbn. by rewrite Hr.
  - cbn in H. change (String a s +:+ rest) with (String a (s +:+ rest)). cbn.
    destruct (digit_val a) as [d|] eqn:E; [|done]. cbn in H. unfold digit_val in E. destruct (_ && _) eqn:F; [|done]. injection E as <-. bool_to_prop.
    assert (Hm : acc * 10 + (byte_of_ascii a - 48) <= v) by (eapply digits_val_mono; [lia|exact H]). unfold LIMIT.
    assert (Hacc2 : acc <= 2 ^ 63 / 10) by (apply Z.div_le_lower_bound; lia).
    rewrite (proj2 (Z.ltb_ge _ acc)), (proj2 (Z.ltb_ge _ (acc * 10 + _))) by lia. apply IH; [lia|done|done|done].
Qed.

(** The scale of so many digits. *)
Fixpoint scale_of (k : nat) (scale : spec_float) : spec_float := match k with O => scale | S k => scale_of k (f64_mul scale (f64 10)) end.

Lemma leading_fraction_digits s rest acc scale v :
  0 <= acc → digits_val acc s = Some v → v <= LIMIT - 1 → (match rest with String c _ => digit_val c = None | _ => True end) →
  leading_fraction acc scale false (s +:+ rest) = (v, scale_of (String.length s) scale, rest).
Proof.
  unfold LIMIT. revert acc scale. induction s as [|a s IH]; intros acc scale Hacc H Hv Hr.
  - injection H as <-. change (EmptyString +:+ rest) with rest. destruct rest as [|c rest]; [done|]. cbn. by rewrite Hr.
  - cbn in H. change (String a s +:+ rest) with (String a (s +:+ rest)). cbn [leading_fraction].
    destruct (digit_val a) as [d|] eqn:E; [|done]. cbn in H. unfold digit_val in E. destruct (_ && _) eqn:F; [|done]. injection E as <-. bool_to_prop.
    assert (Hm : acc * 10 + (byte_of_ascii a - 48) <= v) by (eapply digits_val_mono; [lia|exact H]). unfold LIMIT.
    assert (Hacc2 : acc <= (2 ^ 63 - 1) / 10) by (apply Z.div_le_lower_bound; lia).
    rewrite (proj2 (Z.ltb_ge _ acc)), (proj2 (Z.ltb_ge _ (acc * 10 + _))) by lia. cbn [orb]. apply IH; [lia|done|done|done].
Qed.

Lemma unit_run_app u rest : (∀ c, occurs c u = true → numeric c = false) → (match rest with String c _ => numeric c = true | _ => True end) →
  unit_run (u +:+ rest) = (u, rest).
Proof.
  intros Hu Hr. induction u as [|c u IH].
  - change (EmptyString +:+ rest) with rest. destruct rest as [|c rest]; [done|]. cbn. by rewrite Hr.
  - change (String c u +:+ rest) with (String c (u +:+ rest)). cbn. rewrite Hu by (cbn; by destruct (ascii_dec c c)).
    rewrite IH; [done|]. intros c' Hc'. apply Hu. cbn. by destruct (ascii_dec c c').
Qed.

Fixpoint plain (u : string) : bool := match u with EmptyString => true | String c u => negb (numeric c) && plain u end.

Lemma plain_occurs u c : plain u = true → occurs c u = true → numeric c = false.
Proof.
  induction u as [|a u IH]; [done|]. cbn. intros [Ha Hu]%andb_true_iff.
  destruct (ascii_dec a c) as [->|]; [intros _; by apply negb_true_iff|auto].
Qed.

(** The eight units. *)
Lemma unit_cases u k :
  unit_nanos u = Some k →
  (u ∈ ["ns"; "us"; "µs"; "μs"; "ms"; "s"; "m"; "h"]%string) ∧ (k ∈ [1; 1000; 1000000; 1000000000; 60000000000; 3600000000000]).
Proof.
  unfold unit_nanos. repeat case_bool_decide; intros [= <-]; destruct_or?; subst; split; set_solver.
Qed.

Lemma unit_plain u k : unit_nanos u = Some k → u ≠ EmptyString ∧ (∀ c, occurs c u = true → numeric c = false) ∧ stops u.
Proof.
  intros [Hu _]%unit_cases.
  repeat (apply elem_of_cons in Hu as [->|Hu]; [split_and!; [done|intros c; apply plain_occurs; reflexivity|reflexivity]|]).
  by apply not_elem_of_nil in Hu.
Qed.

(** ** Lemmas: terms *)

(** Up to three digits the computation in [f64] is exact: every fraction of every unit. *)
Definition exact_upto (k : nat) : bool :=
  forallb (λ unit, forallb (λ f, fraction_nanos (Z.of_nat f) unit (scale_of k (f64 1)) =? Z.of_nat f * unit / 10 ^ Z.of_nat k)
    (List.seq 0 (10 ^ k))) [1; 1000; 1000000; 1000000000; 60000000000; 3600000000000].

Lemma exact_fractions : forallb exact_upto (List.seq 0 4) = true.
Proof. vm_compute. reflexivity. Qed.

Lemma fraction_exact u unit k f :
  unit_nanos u = Some unit → (k <= 3)%nat → 0 <= f < 10 ^ Z.of_nat k →
  fraction_nanos f unit (scale_of k (f64 1)) = f * unit / 10 ^ Z.of_nat k.
Proof.
  intros [_ Hu]%unit_cases Hk Hf. pose proof exact_fractions as He. rewrite forallb_forall in He.
  assert (He2 : exact_upto k = true) by (apply He, in_seq; lia). unfold exact_upto in He2. rewrite forallb_forall in He2.
  apply list_elem_of_In in Hu. specialize (He2 unit Hu). rewrite forallb_forall in He2.
  specialize (He2 (Z.to_nat f)). rewrite Z2Nat.id in He2 by lia. apply Z.eqb_eq, He2, in_seq. split; [lia|].
  cbn [Nat.add]. apply Nat2Z.inj_lt. rewrite Nat2Z.inj_pow, Z2Nat.id by lia. exact (proj2 Hf).
Qed.

Lemma digits_val_bound acc s v : 0 <= acc → digits_val acc s = Some v → v < (acc + 1) * 10 ^ Z.of_nat (String.length s).
Proof.
  revert acc. induction s as [|a s IH]; intros acc Hacc H; cbn [digits_val] in H; [injection H as <-; cbn; lia|].
  destruct (digit_val a) as [d|] eqn:E; [|done]. cbn in H. unfold digit_val in E. destruct (_ && _) eqn:F; [|done]. injection E as <-. bool_to_prop.
  apply IH in H; [|lia]. cbn [String.length]. rewrite Nat2Z.inj_succ, Z.pow_succ_r by lia.
  assert (0 < 10 ^ Z.of_nat (String.length s)) by (apply Z.pow_pos_nonneg; lia). nia.
Qed.

Lemma digits_val_some acc s : all_digits s = true → is_Some (digits_val acc s).
Proof.
  revert acc. induction s as [|a s IH]; intros acc; cbn; [by eexists|]. intros [[d ->]%bool_decide_eq_true Hs]%andb_true_iff. cbn. by apply IH.
Qed.

Lemma stops_digit s : stops s → match s with String c _ => digit_val c = None | EmptyString => True end.
Proof. destruct s; [done|]. by intros [? _]%not_numeric. Qed.

Lemma stops_app u rest : u ≠ EmptyString → stops u → stops (u +:+ rest).
Proof. by destruct u. Qed.

(** The part of a printed term after its number. *)
Lemma fraction_part_print frac u rest :
  all_digits frac = true → (String.length frac <= 3)%nat → u ≠ EmptyString → stops u →
  ∃ f scale post, digits_val 0 frac = Some f ∧ (0 < f → scale = scale_of (String.length frac) (f64 1)) ∧
    fraction_part ((if bool_decide (frac = EmptyString) then EmptyString else "." +:+ frac) +:+ u +:+ rest) = (f, scale, u +:+ rest, post).
Proof.
  intros Hd Hl Hu Hs. destruct (digits_val_some 0 frac Hd) as [f Hf]. exists f. case_bool_decide as He.
  - subst frac. injection Hf as <-. exists (f64 1), false. split_and!; [done|done|].
    change (EmptyString +:+ ?t) with t. apply (stops_app u rest Hu) in Hs. unfold fraction_part.
    destruct (u +:+ rest) as [|c t] eqn:E; [done|]. apply not_numeric in Hs as [_ Hc].
    by destruct c as [[] [] [] [] [] [] [] []].
  - exists (scale_of (String.length frac) (f64 1)). eexists. split; [done|]. split; [done|].
    change (("." +:+ frac) +:+ u +:+ rest) with (String "." (frac +:+ (u +:+ rest))). cbn [fraction_part].
    erewrite leading_fraction_digits; [reflexivity|lia|exact Hf| |].
    + apply digits_val_bound in Hf; [|lia]. assert (10 ^ Z.of_nat (String.length frac) <= 10 ^ 3) by (apply Z.pow_le_mono_r; lia). unfold LIMIT. lia.
    + apply stops_digit. by apply stops_app.
Qed.

Lemma unit_pos u k : unit_nanos u = Some k → 0 < k.
Proof. intros [_ Hk]%unit_cases. repeat (apply elem_of_cons in Hk as [->|Hk]; [lia|]). by apply not_elem_of_nil in Hk. Qed.

Lemma nanos_nonneg t : 0 <= nanos_of t.
Proof.
  unfold nanos_of. destruct (unit_nanos (unit_name t)) as [k|] eqn:Ek; [|lia]. apply unit_pos in Ek.
  destruct (digits_val 0 (fraction t)) as [f|] eqn:Ef; [|lia]. apply digits_val_nonneg in Ef; [|lia].
  assert (0 <= f * k / 10 ^ Z.of_nat (String.length (fraction t))) by (apply Z.div_pos; [lia|apply Z.pow_pos_nonneg; lia]). lia.
Qed.

(** A number starts with a digit. *)
Lemma pretty_digit (n : N) : ∃ c s, pretty n = String c s ∧ is_Some (digit_val c).
Proof.
  pose proof (digits_val_pretty n) as Hd. pose proof (pretty_N_nonempty n) as Hne. destruct (pretty n) as [|c s]; [done|].
  exists c, s. split; [done|]. cbn in Hd. destruct (digit_val c); [by eexists|done].
Qed.

Lemma digit_numeric c : is_Some (digit_val c) → numeric c = true.
Proof. intros H. unfold numeric. by rewrite (bool_decide_eq_true_2 (is_Some _)), orb_true_r. Qed.

Lemma parse_print_term t rest :
  term_ok t → nanos_of t <= LIMIT → (match rest with String c _ => numeric c = true | EmptyString => True end) →
  parse_term (print_term t +:+ rest) = Some (nanos_of t, rest).
Proof.
  intros ([k Hk] & Hd & Hl) Hn Hr. destruct t as [n frac u]; cbn [number fraction unit_name] in *.
  destruct (unit_plain u k Hk) as (Hu & Hplain & Hs). pose proof (unit_pos u k Hk) as Hpos.
  destruct (fraction_part_print frac u rest Hd Hl Hu Hs) as (f & scale & post & Hf & Hscale & Hpart).
  unfold nanos_of in *. cbn [number fraction unit_name] in *. rewrite Hk, Hf in *.
  assert (Hf0 : 0 <= f) by (by eapply digits_val_nonneg; [|exact Hf]).
  assert (Hq : 0 <= f * k / 10 ^ Z.of_nat (String.length frac)) by (apply Z.div_pos; [lia|apply Z.pow_pos_nonneg; lia]).
  unfold print_term. cbn [number fraction unit_name]. rewrite <- !string_app_assoc. set (tail := _ +:+ (u +:+ rest)) in *.
  assert (Htail : match tail with String c _ => digit_val c = None | EmptyString => True end).
  { unfold tail. case_bool_decide; [apply stops_digit; exact (stops_app u rest Hu Hs)|done]. }
  destruct (pretty_digit n) as (c & s & Hp & Hc).
  assert (Hint : leading_int 0 (pretty n +:+ tail) = Some (Z.of_N n, tail)).
  { apply leading_int_digits; [lia|apply digits_val_pretty| |done]. nia. }
  assert (Hlen : (String.length (pretty n +:+ tail) =? String.length tail)%nat = false).
  { apply Nat.eqb_neq. rewrite length_string_app, Hp. cbn. lia. }
  unfold parse_term. destruct (pretty n +:+ tail) as [|c' s'] eqn:E; [by rewrite Hp in E|].
  assert (c' = c) as -> by (rewrite Hp in E; by injection E). rewrite (digit_numeric c Hc). cbn [negb].
  rewrite Hint. cbn [mbind option_bind]. rewrite Hlen. cbn [negb andb]. rewrite Hpart, (unit_run_app u rest Hplain Hr).
  rewrite (bool_decide_eq_false_2 _ Hu), Hk. cbn [mbind option_bind].
  rewrite (proj2 (Z.ltb_ge _ _)) by (apply Z.div_le_lower_bound; nia).
  destruct (0 <? f) eqn:Ef; bool_to_prop.
  - rewrite Hscale by done. pose proof (digits_val_bound _ _ _ (Z.le_refl 0) Hf) as Hfb.
    rewrite (fraction_exact u k _ f Hk Hl) by lia. unfold wrap_u64, LIMIT in *. rewrite Z.mod_small by lia.
    by rewrite (proj2 (Z.ltb_ge _ _)) by lia.
  - assert (f = 0) as -> by lia. by rewrite Z.mul_0_l, Z.div_0_l, Z.add_0_r by (apply Z.pow_nonzero; lia).
Qed.

Lemma print_terms_numeric ts : match print_terms ts with String c _ => numeric c = true | EmptyString => True end.
Proof.
  destruct ts as [|t ts]; [done|]. cbn. unfold print_term. destruct (pretty_digit (number t)) as (c & s & -> & Hc). by apply digit_numeric.
Qed.

Lemma parse_print_terms ts fuel d :
  Forall term_ok ts → 0 <= d → d + total ts <= LIMIT → (length ts <= fuel)%nat → parse_terms fuel d (print_terms ts) = Some (d + total ts).
Proof.
  intros Hts. revert fuel d. induction Hts as [|t ts Ht _ IH]; intros fuel d Hd Hl Hf.
  - cbn. destruct fuel; by rewrite Z.add_0_r.
  - cbn in Hf. destruct fuel as [|fuel]; [lia|]. pose proof (nanos_nonneg t) as Hn.
    assert (Htot : 0 <= total ts) by (clear; induction ts as [|t ts IH]; cbn; [lia|]; pose proof (nanos_nonneg t); lia).
    cbn [total print_terms] in *. pose proof (parse_print_term t (print_terms ts) Ht ltac:(lia) (print_terms_numeric ts)) as Hp.
    destruct (print_term t +:+ print_terms ts) as [|c s] eqn:E; [done|]. cbn [parse_terms]. rewrite Hp. cbn [mbind option_bind].
    unfold LIMIT in *. rewrite (proj2 (Z.leb_gt _ _)), (proj2 (Z.ltb_ge _ _)) by lia. rewrite IH by lia. by rewrite Z.add_assoc.
Qed.

(** Enough fuel: a term takes at least a byte. *)
Lemma unit_run_length s : (String.length (unit_run s).2 <= String.length s)%nat.
Proof. induction s as [|c s IH]; [done|]. cbn. destruct (numeric c); [done|]. destruct (unit_run s) as [u rest]. cbn in *. lia. Qed.

Lemma leading_int_length x s v rest : leading_int x s = Some (v, rest) → (String.length rest <= String.length s)%nat ∧ (0 <= x → 0 <= v).
Proof.
  revert x. induction s as [|c s IH]; intros x; cbn; [by intros [= <- <-]|]. destruct (digit_val c) as [d|] eqn:E.
  - destruct (_ <? _); [done|]. destruct (_ <? _); [done|]. intros [Hl Hv]%IH. split; [lia|]. intros Hx. apply Hv.
    unfold digit_val in E. destruct (_ && _) eqn:F; [|done]. injection E as <-. bool_to_prop. lia.
  - intros [= <- <-]. by split.
Qed.

Lemma leading_fraction_length x scale o s : (String.length (leading_fraction x scale o s).2 <= String.length s)%nat.
Proof.
  revert x scale o. induction s as [|c s IH]; intros x scale o; cbn; [lia|]. destruct (digit_val c); [|cbn; lia].
  destruct (_ || _); [specialize (IH x scale true); lia|]. destruct (_ <? _); [specialize (IH x scale true); lia|].
  match goal with |- context [leading_fraction ?y ?sc ?b s] => specialize (IH y sc b) end. lia.
Qed.

Lemma fraction_part_length s : (String.length (fraction_part s).1.2 <= String.length s)%nat.
Proof.
  destruct s as [|c s]; [done|]. destruct (decide (c = "."%char)) as [->|Hc].
  - cbn [fraction_part]. pose proof (leading_fraction_length 0 (f64 1) false s) as Hl.
    destruct (leading_fraction 0 (f64 1) false s) as [[f sc] r]. cbn in *. lia.
  - assert (fraction_part (String c s) = (0, f64 1, String c s, false)) as -> by (by destruct c as [[] [] [] [] [] [] [] []]). done.
Qed.

Lemma parse_term_shrinks s v rest : parse_term s = Some (v, rest) → (String.length rest < String.length s)%nat ∧ 0 <= v.
Proof.
  unfold parse_term. destruct s as [|c s]; [done|]. destruct (negb (numeric c)); [done|].
  destruct (leading_int 0 (String c s)) as [[v0 r0]|] eqn:Ei; [|done]. cbn [mbind option_bind].
  apply leading_int_length in Ei as [Hl0 Hv0]. specialize (Hv0 ltac:(lia)). pose proof (fraction_part_length r0) as Hl1.
  destruct (fraction_part r0) as [[[f scale] r1] post]. cbn [fst snd] in Hl1. destruct (_ && _); [done|].
  pose proof (unit_run_length r1) as Hl2. destruct (unit_run r1) as [u r2] eqn:Eu. cbn [snd] in Hl2. case_bool_decide as Hu; [done|].
  assert (Hl3 : (String.length r2 < String.length r1)%nat).
  { destruct r1 as [|c1 r1]; [cbn in Eu; by injection Eu as <- <-|]. cbn in Eu. destruct (numeric c1); [by injection Eu as <- <-|].
    pose proof (unit_run_length r1) as Hl. destruct (unit_run r1) as [u1 r2']. injection Eu as <- <-. cbn in *. lia. }
  destruct (unit_nanos u) as [k|] eqn:Ek; [|done]. cbn [mbind option_bind]. apply unit_pos in Ek.
  destruct (_ <? v0); [done|]. destruct (0 <? f).
  - destruct (_ <? _); [done|]. intros [= <- <-]. split; [lia|]. unfold wrap_u64. apply Z.mod_pos_bound. lia.
  - intros [= <- <-]. split; [lia|nia].
Qed.

(** More fuel than bytes changes nothing. *)
Lemma parse_terms_enough fuel1 fuel2 d s :
  (String.length s <= fuel1)%nat → (String.length s <= fuel2)%nat → parse_terms fuel1 d s = parse_terms fuel2 d s.
Proof.
  revert fuel2 d s. induction fuel1 as [|fuel1 IH]; intros fuel2 d s H1 H2; (destruct s as [|c s]; [by destruct fuel2|]); [cbn in H1; lia|].
  destruct fuel2 as [|fuel2]; [cbn in H2; lia|]. cbn [parse_terms]. destruct (parse_term (String c s)) as [[v rest]|] eqn:E; [|done].
  cbn [mbind option_bind]. apply parse_term_shrinks in E as [Hl _]. destruct (_ <=? _); [done|]. destruct (_ <? _); [done|]. cbn in *. apply IH; lia.
Qed.

Lemma parse_terms_bounds fuel d s n : 0 <= d <= LIMIT → parse_terms fuel d s = Some n → 0 <= n <= LIMIT.
Proof.
  revert d s. induction fuel as [|fuel IH]; intros d s Hd; (destruct s as [|c s]; [by intros [= <-]|]); [done|]. cbn [parse_terms].
  destruct (parse_term (String c s)) as [[v rest]|] eqn:E; [|done]. cbn [mbind option_bind]. apply parse_term_shrinks in E as [_ Hv].
  destruct (_ <=? _); [done|]. destruct (_ <? _) eqn:El; [done|]. bool_to_prop. apply IH. lia.
Qed.

Lemma go_duration_bounds s n : parse_go_duration s = Some n → - LIMIT <= n < LIMIT.
Proof.
  unfold parse_go_duration. destruct (leading_sign s) as [neg t].
  case_bool_decide; [intros [= <-]; unfold LIMIT; lia|]. case_bool_decide; [done|].
  destruct (parse_terms _ 0 t) as [d|] eqn:E; [|done]. apply parse_terms_bounds in E; [|unfold LIMIT; lia]. cbn [mbind option_bind].
  unfold LIMIT in *. destruct neg; [intros [= <-]; lia|]. destruct (_ <? d) eqn:El; [done|]. intros [= <-]. bool_to_prop. lia.
Qed.

Lemma print_terms_length ts : Forall term_ok ts → (2 * length ts <= String.length (print_terms ts))%nat.
Proof.
  induction 1 as [|t ts ([k Hk] & _) _ IH]; [done|]. cbn [print_terms length]. apply unit_plain in Hk as (Hu & _).
  unfold print_term. rewrite !length_string_app. destruct (pretty_digit (number t)) as (c & s & -> & _).
  destruct (unit_name t); [done|]. cbn in *. lia.
Qed.

Lemma dial_timeout_positive cfg d : get_dial_timeout cfg HOST_DIAL_TIMEOUT = Ok d → secs_ok cfg → 0 < d.
Proof.
  unfold get_dial_timeout, secs_ok. destruct (listen_options cfg) as [opts|]; [|intros [= <-] _; unfold HOST_DIAL_TIMEOUT; lia].
  destruct (connect_timeout opts) as [ct|].
  - destruct (parse_go_duration ct) as [n|]; [|done]. cbn. unfold positive_duration_from_nanos.
    destruct (0 <? n) eqn:E; [|done]. bool_to_prop. cbn. by intros [= <-].
  - destruct (connect_timeout_seconds opts) as [secs|]; [|intros [= <-] _; unfold HOST_DIAL_TIMEOUT; lia].
    destruct (secs =? 0) eqn:E; [done|]. bool_to_prop. intros [= <-] Hs. specialize (Hs secs eq_refl). lia.
Qed.

(** ** Properties *)


(** A host never dials without a bound and never gives up at once: whatever its
    config says, the timeout it resolves is positive and below 2^63 nanoseconds; it is
    the default when the config sets none; and a [connectTimeout] that does not parse
    or is not positive keeps the service from being hosted, whatever the seconds. *)
Theorem dial_timeout_bounds (cfg : HostV1Config) (default : Z) :
  0 < default < LIMIT →
  secs_ok cfg →
  match get_dial_timeout cfg default with
  | Ok d => 0 < d < LIMIT ∧
      ((opts ← listen_options cfg; connect_timeout opts) = None → (opts ← listen_options cfg; connect_timeout_seconds opts) = None → d = default)
  | Err _ => ∃ opts, listen_options cfg = Some opts ∧
      match connect_timeout opts with
      | Some ct => ∀ n, parse_go_duration ct = Some n → n <= 0
      | None => connect_timeout_seconds opts = Some 0
      end
  end.
Proof.
  unfold secs_ok, get_dial_timeout. intros Hd Hs. destruct (listen_options cfg) as [opts|]; [|done].
  cbn [mbind option_bind]. destruct (connect_timeout opts) as [ct|] eqn:Ect.
  - destruct (parse_go_duration ct) as [n|] eqn:En; cbn; [|exists opts; split; [done|]; rewrite Ect; intros n Hn; congruence].
    unfold positive_duration_from_nanos. destruct (0 <? n) eqn:E; bool_to_prop; cbn.
    + split; [|done]. pose proof (go_duration_bounds ct n En). lia.
    + exists opts. split; [done|]. rewrite Ect. intros m Hm. rewrite En in Hm. injection Hm as <-. done.
  - destruct (connect_timeout_seconds opts) as [secs|] eqn:Es; [|done]. specialize (Hs secs eq_refl).
    destruct (secs =? 0) eqn:E; bool_to_prop.
    + exists opts. split; [done|]. by rewrite Ect, Es, E.
    + split; [unfold LIMIT; lia|done].
Qed.

(** ** Witnesses *)

(** [1h0.25m1.5s]. *)
Definition demo_terms : list term := [mkTerm 1 "" "h"; mkTerm 0 "25" "m"; mkTerm 1 "5" "s"].


Definition demo_timeouts (secs : option Z) (ct : option string) : HostV1Config :=
  mkHostConfig "tcp" false [] "127.0.0.1" false [] [] 80 false [] [] (Some (mkListenOptions secs ct)).

Lemma dial_timeout_bounds_witness :
  get_dial_timeout (demo_timeouts (Some 7) (Some "300ms"%string)) HOST_DIAL_TIMEOUT = Ok 300000000 ∧ 0 < 300000000 < LIMIT.
Proof.
  assert (He : get_dial_timeout (demo_timeouts (Some 7) (Some "300ms"%string)) HOST_DIAL_TIMEOUT = Ok 300000000) by (vm_compute; reflexivity).
  pose proof (dial_timeout_bounds (demo_timeouts (Some 7) (Some "300ms"%string)) HOST_DIAL_TIMEOUT) as Hb. rewrite He in Hb.
  split; [exact He|]. apply Hb.
  - unfold HOST_DIAL_TIMEOUT, LIMIT. lia.
  - intros secs [= <-]. lia.
Defined.
