(* ===== verification/Host.v ===== *)
(** * Hosting over TCP: [src/tunnel/host/]

    A bound service served by local sockets: the accept loop, which hands each accepted
    dial to a task of its own, and that task - the target, fixed or resolved from the
    dial's app data, the dial of the local socket under a timeout, and only then the
    completion of the accepted dial. *)

From S2P Require Import Prelude Utf8 Message EdgeWire ChannelState Async Crypto Conn Requests Accept Address IpAddr Services HostTarget DialTimeout.

(** ** The local network (dial.rs)

    What the operating system answers: [TcpStream::connect], [lookup_host], a new
    socket of a family, [bind], the [connect] of a bound socket; and whether a
    timeout, in nanoseconds, ends the dial first. *)
Record network : Type := mkNetwork {
  connect : string → result string unit;
  lookup_host : string → result string (list (IpAddr * Z));
  new_socket : bool → result string unit;
  bind_socket : IpAddr * Z → result string unit;
  connect_from : IpAddr * Z → IpAddr * Z → result string unit;
  elapses : Z → bool
}.

Definition is_ipv4 (a : IpAddr * Z) : bool := match a.1 with V4 _ => true | V6 _ => false end.

(** [SocketAddr]'s [Display]. *)
Definition show_addr (a : IpAddr * Z) : string :=
  (match a.1 with V4 _ => ip_to_string a.1 | V6 _ => "[" +:+ ip_to_string a.1 +:+ "]" end) +:+ ":" +:+ pretty (Z.to_N a.2).

Definition no_address (target : string) (local : IpAddr * Z) : string :=
  "no " +:+ (if is_ipv4 local then "IPv4" else "IPv6") +:+ " address for target '" +:+ target +:+ "' to match source_addr "
    +:+ show_addr local.

(** The address a socket bound to [source] connects to; [None] without a source. *)
Definition dial_target (net : network) (target : string) (source : option (IpAddr * Z)) : result string (option (IpAddr * Z)) :=
  match source with
  | None => _ ← connect net target; Ok None
  | Some local =>
      let want_v4 := is_ipv4 local in
      candidates ← lookup_host net target;
      remote ← ok_or (no_address target local) (List.find (λ a, eqb (is_ipv4 a) want_v4) candidates);
      _ ← new_socket net want_v4;
      _ ← bind_socket net local;
      _ ← connect_from net local remote;
      Ok (Some remote)
  end.

Section host.
Context `{SecretStream} `{IpNetLib} `{CaseTable}.
Context (from_slice : list Z → result string AppValue).

(** ** A dial (dial.rs, forward.rs) *)

(** What is spliced: the local socket and the connection. *)
Record opened : Type := mkOpened {
  o_target : string;
  o_source : option (IpAddr * Z);
  o_remote : option (IpAddr * Z);
  o_conn : EdgeConn
}.

(** [None]: nothing to splice. *)
Definition handle_host_conn (net : network) (pending : PendingAccept) (start_tx : nat) (target : string)
    (source : option (IpAddr * Z)) (dial_timeout : Z) : prog (option opened) :=
  if elapses net dial_timeout then _ ← complete_failed pending "target dial timed out"; mret None
  else
    match dial_target net target source with
    | Ok remote =>
        child ← complete_success pending start_tx;
        mret (match child with Ok conn => Some (mkOpened target source remote conn) | Err _ => None end)
    | Err e => _ ← complete_failed pending ("target dial failed: " +:+ e); mret None
    end.

Definition not_tcp (p : string) : string :=
  "host appData forwarding: protocol '" +:+ p +:+ "' requires the UDP host path; this forwarding host dials TCP only".

Definition handle_host_forward_conn (net : network) (pending : PendingAccept) (start_tx : nat) (cfg : HostV1Config)
    (translations : list AddressTranslationPrefix) (dial_timeout : Z) : prog (option opened) :=
  match resolve_target from_slice cfg (app_data pending) with
  | Err reason => _ ← complete_failed pending reason; mret None
  | Ok target =>
      if negb (bool_decide (tg_protocol target = "tcp"%string))
      then _ ← complete_failed pending (not_tcp (tg_protocol target)); mret None
      else
        let dial_address := translate_address (tg_address target) translations in
        let addr := dial_address +:+ ":" +:+ pretty (Z.to_N (tg_port target)) in
        handle_host_conn net pending start_tx addr (source_bind target) dial_timeout
  end.

(** ** The accept loops (fixed.rs, forward.rs) *)

(** The dials handed to tasks, and the error that ends the loop. *)
Fixpoint accept_loop (fuel : nat) (bind_id : Z) (token : string) (keypair : option KeyPair) (rnd : nat → list Z)
    (q : nat) (inbox : list Message) : prog (list PendingAccept * EdgeError) :=
  match fuel with
  | O => Spin
  | S fuel =>
      '(r, rest) ← accept_pending bind_id token keypair rnd q inbox;
      match r with
      | Err e => mret ([], e)
      | Ok pending =>
          '(spawned, e) ← accept_loop fuel bind_id token keypair rnd (q + S (length inbox)) rest;
          mret (pending :: spawned, e)
      end
  end.

(** The task of a dial of the fixed host. *)
Definition fixed_task (net : network) (target : string) (pending : PendingAccept) (start_tx : nat) : prog (option opened) :=
  handle_host_conn net pending start_tx target None HOST_DIAL_TIMEOUT.

(** Each turn takes a frame of the queue. *)
Definition run_tcp_host (bind_id : Z) (token : string) (keypair : option KeyPair) (rnd : nat → list Z) (inbox : list Message)
    : prog (list PendingAccept * EdgeError) :=
  accept_loop (S (length inbox)) bind_id token keypair rnd 0 inbox.

(** What a forwarding host fixes before its loop: the timeout and the translations. *)
Definition forwarding_setup (cfg : HostV1Config) : result EdgeError (Z * list AddressTranslationPrefix) :=
  _ ← map_err HostForwardConfig (check_deferred_config cfg);
  dial_timeout ← map_err HostForwardConfig (get_dial_timeout cfg HOST_DIAL_TIMEOUT);
  translations ← map_err HostForwardConfig (build_address_translations cfg);
  Ok (dial_timeout, translations).

Definition run_tcp_host_forwarding (cfg : HostV1Config) (bind_id : Z) (token : string) (keypair : option KeyPair)
    (rnd : nat → list Z) (inbox : list Message) : prog (list PendingAccept * EdgeError) :=
  match forwarding_setup cfg with
  | Err e => mret ([], e)
  | Ok _ => accept_loop (S (length inbox)) bind_id token keypair rnd 0 inbox
  end.

(** ** Specification *)

(** The host reached the local end of what it splices: by name, or, from a source, at
    an address of the target's of the source's family. *)
Definition reached (net : network) (op : opened) : Prop :=
  match o_source op with
  | None => connect net (o_target op) = Ok tt ∧ o_remote op = None
  | Some local => ∃ candidates remote,
      lookup_host net (o_target op) = Ok candidates ∧ remote ∈ candidates ∧ is_ipv4 remote = is_ipv4 local ∧
      bind_socket net local = Ok tt ∧ connect_from net local remote = Ok tt ∧ o_remote op = Some remote
  end.

Definition refusal_frames (pa : PendingAccept) (reason : string) : list Message :=
  [dial_failed_frame (bind_conn_id pa) (dial_seq pa) reason; build_state_closed (child_id pa)].

(** A task's end: the dial is acknowledged and spliced to what was reached, or it is
    refused and the child's id is free. *)
Definition task_spec (net : network) (pa : PendingAccept) (dial_timeout : Z) (allowed : string → option (IpAddr * Z) → Prop)
    (o : outcome (option opened)) : Prop :=
  match res o with
  | Some (Some op) =>
      allowed (o_target op) (o_source op) ∧ reached net op ∧ elapses net dial_timeout = false ∧
      sends (trace o) (success_frames pa) ∧ conn_id (writer (o_conn op)) = child_id pa
  | Some None =>
      conns (final o) !! child_id pa = None ∧
      ((∃ reason, sends (trace o) (refusal_frames pa reason)) ∨
       ∃ target source remote, allowed target source ∧ elapses net dial_timeout = false ∧ dial_target net target source = Ok remote)
  | None => False
  end.

(** What the loop promises about a queue that is closed after its last frame. *)
Definition loop_spec (bind_id : Z) (token : string) (keypair : option KeyPair) (inbox : list Message)
    (o : outcome (list PendingAccept * EdgeError)) : Prop :=
  match res o with
  | Some (spawned, e) =>
      e = ListenerClosed ∧
      ∃ pre rest, inbox = pre ++ rest ∧ sends (trace o) (rejections bind_id token keypair pre) ∧
        Forall2 (λ pa msg, bind_conn_id pa = bind_id ∧ dial_seq pa = sequence msg ∧ app_data pa = headers msg !! HDR_APPDATA)
          spawned (List.filter (acceptable token keypair) pre) ∧
        Forall (λ m, content_type m ≠ CT_STATE_CLOSED) pre ∧
        match rest with [] => True | m :: _ => content_type m = CT_STATE_CLOSED end
  | None => Exists (λ m, content_type m = CT_DIAL ∧ header_u32 m HDR_ROUTER_PROVIDED_CONN_ID = None) inbox
  end.

(** ** Lemmas *)

Lemma dial_target_reached net target source remote conn :
  dial_target net target source = Ok remote → reached net (mkOpened target source remote conn).
Proof.
  unfold dial_target, reached. cbn. destruct source as [local|].
  - destruct (lookup_host net target) as [cands|] eqn:El; [|done]. cbn. destruct (List.find _ cands) as [r|] eqn:Ef; [|done]. cbn.
    destruct (new_socket net _); [|done]. cbn. destruct (bind_socket net local) as [[]|]; [|done]. cbn.
    destruct (connect_from net local r) as [[]|] eqn:Ec; [|done]. intros [= <-].
    apply List.find_some in Ef as [Hin Hv]. apply eqb_prop in Hv. apply list_elem_of_In in Hin.
    exists cands, r. by split_and!.
  - destruct (connect net target) as [[]|]; [|done]. by intros [= <-].
Qed.

Lemma run_refused net pa reason dial_timeout allowed env c :
  (∀ n, write_err (env n) = None) →
  task_spec net pa dial_timeout allowed (run (_ ← complete_failed pa reason; mret None) env 0 c).
Proof.
  intros Henv. unfold task_spec. rewrite (run_map _ (λ _, None)). cbv zeta. cbn [res final trace].
  unfold complete_failed. cbn -[build_state_closed dial_failed_frame build_dial_failed i32_to_le]. rewrite !Henv.
  cbn -[build_state_closed dial_failed_frame build_dial_failed i32_to_le]. split; [apply lookup_delete_eq|].
  left. exists reason. repeat econstructor.
Qed.

Lemma handle_host_conn_spec net pa w target source dial_timeout (allowed : string → option (IpAddr * Z) → Prop) env c :
  (∀ n, write_err (env n) = None) → keeps_conn (child_id pa) env → allowed target source →
  task_spec net pa dial_timeout allowed (run (handle_host_conn net pa w target source dial_timeout) env 0 c).
Proof.
  intros Henv Hk Ha. unfold handle_host_conn. destruct (elapses net dial_timeout) eqn:Et; [by apply run_refused|].
  destruct (dial_target net target source) as [remote|e] eqn:Ed; [|by apply run_refused].
  rewrite (run_map _ (λ child, match child with Ok conn => Some (mkOpened target source remote conn) | Err _ => None end)). cbv zeta.
  pose proof (complete_success_spec pa w env c Henv Hk) as Hc. destruct (run (complete_success pa w) env 0 c) as [r f tr n].
  assert (Hopened : (∃ conn, r = Some (Ok conn) ∧ conn_id (writer conn) = child_id pa ∧ sender (writer conn) = cc_sender ∘ fst <$> crypto_setup pa) ∧
      sends tr (success_frames pa) ∨ ∃ e, r = Some (Err e) ∧ conns f !! child_id pa = None).
  { unfold completion_spec in Hc. cbv zeta in Hc. cbn [res trace final] in Hc.
    destruct (router_provided pa); [by left|]. destruct (closed _); [right; naive_solver|].
    destruct (reply _) as [m| |]; [destruct (_ =? _); [by left|]|..]; right; naive_solver. }
  unfold task_spec. cbn [res trace final]. destruct Hopened as [[(conn & -> & Hid & _) Hs]|(e & -> & Hf)]; cbn [fmap option_fmap option_map].
  - split_and!; [done|by apply dial_target_reached|done|done|done].
  - split; [done|]. right. by exists target, source, remote.
Qed.

Lemma rejection_acceptable token kp msg : acceptable token kp msg = true → rejection token kp msg = None ∧ content_type msg ≠ CT_STATE_CLOSED.
Proof.
  unfold acceptable, rejection. intros [[->%Z.eqb_eq ->]%andb_true_iff ->]%andb_true_iff. by split.
Qed.

Lemma accept_loop_spec fuel bind_id token kp rnd q inbox env n c :
  (∀ n, write_err (env n) = None) → (length inbox < fuel)%nat →
  loop_spec bind_id token kp inbox (run (accept_loop fuel bind_id token kp rnd q inbox) env n c).
Proof.
  intros Henv. revert q inbox n c. induction fuel as [|fuel IH]; intros q inbox n c Hf; [lia|]. cbn [accept_loop].
  rewrite run_bind. cbv zeta. pose proof (accept_pending_spec bind_id token kp rnd q inbox env n c Henv) as Ha. unfold accept_spec in Ha.
  destruct (run (accept_pending _ _ _ _ _ _) env n c) as [r f tr n1]. cbn [res final trace turn] in *.
  destruct r as [[[pa|e] rest]|]; [| |exact Ha].
  - destruct Ha as (pre & Hs & Hpre & msg & -> & Hacc & Hb & Hseq & Happ & _). destruct (rejection_acceptable token kp msg Hacc) as [Hrej Hct].
    rewrite length_app in Hf. cbn in Hf. rewrite run_bind. cbv zeta. cbn [res final trace turn].
    match goal with |- context [accept_loop fuel bind_id token kp rnd ?q' rest] => specialize (IH q' rest n1 f ltac:(lia)) end.
    unfold loop_spec in IH |- *. destruct (run (accept_loop _ _ _ _ _ _ _) env n1 f) as [r2 f2 tr2 n2]. cbn [res final trace] in *.
    destruct r2 as [[spawned e]|]; cbn [run mret prog_ret res final trace]; rewrite ?app_nil_r.
    + destruct IH as (-> & pre2 & rest2 & -> & Hs2 & Hf2 & Hn2 & Hr2). split; [done|]. exists (pre ++ msg :: pre2), rest2.
      split; [by rewrite <- app_assoc|]. split_and!; [| | |done].
      * unfold rejections in *. rewrite omap_app. cbn [omap list_omap]. rewrite Hrej. cbn. by apply sends_app.
      * rewrite List.filter_app. cbn [List.filter]. rewrite Hacc.
        assert (List.filter (acceptable token kp) pre = []) as ->; [|by constructor].
        clear -Hpre. induction Hpre as [|m pre [_ Hm] _ IH]; [done|]. cbn. by rewrite Hm.
      * apply Forall_app_2; [eapply Forall_impl; [exact Hpre|]; by intros ? []|by constructor].
    + apply Exists_app. right. by right.
  - destruct Ha as (pre & Hs & Hpre & -> & Hend). unfold loop_spec. cbn. rewrite app_nil_r. split; [done|].
    assert (Hno : List.filter (acceptable token kp) pre = []).
    { clear -Hpre. induction Hpre as [|m pre [_ Hm] _ IH]; [done|]. cbn. by rewrite Hm. }
    destruct Hend as [[-> ->]|(msg & Hm & ->)].
    + exists pre, []. rewrite app_nil_r, Hno. split_and!; try done. eapply Forall_impl; [exact Hpre|]. by intros ? [].
    + exists pre, (msg :: rest). rewrite Hno. split_and!; try done. eapply Forall_impl; [exact Hpre|]. by intros ? [].
Qed.

(** ** Properties *)


End host.

(** ** Witnesses *)

(** A dial with app data, on a host of [demo_cfg] whose network takes every connection;
    and a queue of three dials, one with a wrong token. *)
Definition demo_network : network := mkNetwork (λ _, Ok tt) (λ _, Ok []) (λ _, Ok tt) (λ _, Ok tt) (λ _ _, Ok tt) (λ _, false).
Definition demo_pending : PendingAccept (H := toy_stream) :=
  mkPending (H := toy_stream) 3 12 false 42 None None (Some [1]) None.
Definition demo_answers : nat → ev := answering (Message_new CT_STATE_CONNECTED []).

Definition demo_forwarded := run (handle_host_forward_conn (H := toy_stream) demo_app_data demo_network demo_pending 5 demo_cfg [] HOST_DIAL_TIMEOUT)
  demo_answers 0 chan_new.


Definition demo_dial (seq : Z) (token : string) (id : Z) : Message :=
  with_sequence seq (with_header HDR_ROUTER_PROVIDED_CONN_ID (u32_to_le id) (Message_new CT_DIAL (bytes_of_string token))).
Definition demo_queue : list Message :=
  [demo_dial 41 "tok" 2147483650; demo_dial 42 "other" 2147483651; demo_dial 43 "tok" 2147483652; Message_new CT_STATE_CLOSED []].
Definition demo_loop := run (run_tcp_host (H := toy_stream) 3 "tok" None (λ _, []) demo_queue) (λ _, quiet) 0 chan_new.

