(* ===== verification/Routes.v ===== *)
(** * Routes of the operating system: [src/tunnel/intercept/routes/]

    Which intercepted networks get a route to the tunnel device, the plan for a
    snapshot of them, and the reference counts that keep the routes while services
    come and go.  The system calls are a trace of operations; whether one succeeds
    changes nothing in the program's state. *)

From S2P Require Import Prelude Message Address DnsMatcher IpAddr Services InterceptResolver.

(** What the routes use of [ipnet] besides [IpNetLib]: hashing, the family, [trunc]
    and containment of networks. *)
Class NetOps `{IpNetLib} := {
  net_countable :: Countable IpNet;
  net_v4 : IpNet → bool;
  net_trunc : IpNet → IpNet;
  net_covers : IpNet → IpNet → bool
}.

(** As [ipnet] documents them, on addresses as written. *)
#[export] Instance cidr_ops : NetOps := {|
  net_countable := prod_countable;
  net_v4 n := match n.1 with V4 _ => true | V6 _ => false end;
  net_trunc n := (match n.1 with V4 a => V4 (a / 2 ^ (32 - n.2) * 2 ^ (32 - n.2))
                           | V6 a => V6 (a / 2 ^ (128 - n.2) * 2 ^ (128 - n.2)) end, n.2);
  net_covers m n := (m.2 <=? n.2) && same_prefix m.2 m.1 n.1
|}.

Section routes.
Context `{NetOps}.

(** ** The policy (policy.rs) *)

Definition route_allowed (cidr on_link : IpNet) (control_plane : list IpAddr) : bool :=
  if negb (net_v4 cidr) then false
  else if net_covers on_link cidr then false
  else if existsb (λ cp, net_contains cidr cp) control_plane then false
  else true.

(** ** The plan of a snapshot (snapshot.rs) *)

Definition plan_routes (intercept_cidrs : list IpNet) (utun_addr utun_prefix : Z) (control_plane : list IpAddr)
    : list IpNet :=
  match net_new (V4 utun_addr) utun_prefix with
  | None => []
  | Some on_link_v4 =>
      let on_link := net_trunc on_link_v4 in
      foldl (λ planned cidr,
          if negb (route_allowed cidr on_link control_plane) then planned
          else if bool_decide (cidr ∈ planned) then planned else planned ++ [cidr])
        [] intercept_cidrs
  end.

(** [InstalledRoutes]: the routes of a plan that the operating system took, and their
    end.  It refuses a network that has a route, and perhaps others. *)
Fixpoint install (refuses : IpNet → bool) (planned : list IpNet) (os : gset IpNet) : list IpNet * gset IpNet :=
  match planned with
  | [] => ([], os)
  | net :: planned =>
      if refuses net || bool_decide (net ∈ os) then install refuses planned os
      else let '(installed, os) := install refuses planned ({[net]} ∪ os) in (net :: installed, os)
  end.

Definition drop_installed (installed : list IpNet) (os : gset IpNet) : gset IpNet := foldl (λ os net, os ∖ {[net]}) os installed.

(** ** The living routes (lifecycle.rs, ops.rs) *)

Inductive RouteOp : Type := AddRoute (cidr : IpNet) | DeleteRoute (cidr : IpNet).

Record RouteLifecycle : Type := mkLifecycle {
  counts : gmap IpNet nat;
  on_link : IpNet;
  control_plane : list IpAddr
}.

Definition lifecycle_new (utun_addr utun_prefix : Z) (control_plane : list IpAddr) : option RouteLifecycle :=
  n ← net_new (V4 utun_addr) utun_prefix;
  Some (mkLifecycle ∅ (net_trunc n) control_plane).

Definition set_counts (m : gmap IpNet nat) (rl : RouteLifecycle) : RouteLifecycle :=
  mkLifecycle m (on_link rl) (control_plane rl).

Definition allowed (rl : RouteLifecycle) (cidr : IpNet) : bool := route_allowed cidr (on_link rl) (control_plane rl).

(** The operations return the system calls they make. *)
Definition add_route (cidr : IpNet) (rl : RouteLifecycle) : list RouteOp * RouteLifecycle :=
  if negb (allowed rl cidr) then ([], rl)
  else
    let count := S (default 0%nat (counts rl !! cidr)) in
    ((if bool_decide (count = 1%nat) then [AddRoute cidr] else []), set_counts (<[cidr := count]> (counts rl)) rl).

Definition delete_route (cidr : IpNet) (rl : RouteLifecycle) : list RouteOp * RouteLifecycle :=
  if negb (allowed rl cidr) then ([], rl)
  else
    match counts rl !! cidr with
    | None => ([], rl)
    | Some count =>
        let count := (count - 1)%nat in
        if bool_decide (count = 0%nat) then ([DeleteRoute cidr], set_counts (delete cidr (counts rl)) rl)
        else ([], set_counts (<[cidr := count]> (counts rl)) rl)
    end.

Fixpoint for_each (f : IpNet → RouteLifecycle → list RouteOp * RouteLifecycle) (cidrs : list IpNet)
    (rl : RouteLifecycle) : list RouteOp * RouteLifecycle :=
  match cidrs with
  | [] => ([], rl)
  | c :: cidrs => let '(ops, rl) := f c rl in let '(ops', rl) := for_each f cidrs rl in (ops ++ ops', rl)
  end.

Definition apply_delta (delta : RouteDelta) (rl : RouteLifecycle) : list RouteOp * RouteLifecycle :=
  let '(ops, rl) := for_each delete_route (removed delta) rl in
  let '(ops', rl) := for_each add_route (added delta) rl in (ops ++ ops', rl).

Definition installed (rl : RouteLifecycle) : nat := size (counts rl).

(** [Drop], in the order [keys()] gives. *)
Definition drop_lifecycle (rl : RouteLifecycle) : list RouteOp := map (λ kv, DeleteRoute kv.1) (map_to_list (counts rl)).

(** ** Specification *)

(** The routes of the operating system after the calls, if each succeeds... *)
Definition replay_op (os : gset IpNet) (op : RouteOp) : gset IpNet :=
  match op with AddRoute c => {[c]} ∪ os | DeleteRoute c => os ∖ {[c]} end.

(** ... and each call is needed: a route is added when it is not there and deleted
    when it is. *)
Inductive calls_needed : gset IpNet → list RouteOp → gset IpNet → Prop :=
| cn_nil os : calls_needed os [] os
| cn_add os c ops os' : c ∉ os → calls_needed ({[c]} ∪ os) ops os' → calls_needed os (AddRoute c :: ops) os'
| cn_delete os c ops os' : c ∈ os → calls_needed (os ∖ {[c]}) ops os' → calls_needed os (DeleteRoute c :: ops) os'.

(** How often a network occurs in a list. *)
Definition occurrences (c : IpNet) (l : list IpNet) : nat := length (List.filter (λ x, bool_decide (x = c)) l).

(** The counts are those of the allowed networks of a list; none is zero. *)
Definition positive (n : nat) : option nat := match n with O => None | S _ => Some n end.
Definition counts_match (rl : RouteLifecycle) (l : list IpNet) : Prop :=
  ∀ c, counts rl !! c = if allowed rl c then positive (occurrences c l) else None.

(** ** Lemmas *)

Lemma occurrences_eq c l : occurrences c (c :: l) = S (occurrences c l).
Proof. unfold occurrences. cbn. by rewrite bool_decide_true. Qed.

Lemma occurrences_ne c x l : x ≠ c → occurrences c (x :: l) = occurrences c l.
Proof. intros Hx. unfold occurrences. cbn. by rewrite bool_decide_false. Qed.

Lemma occurrences_perm c l k : l ≡ₚ k → occurrences c l = occurrences c k.
Proof.
  induction 1 as [|x l k _ IH|x y l|l k m _ IH1 _ IH2]; [done| | |congruence].
  - unfold occurrences in *. cbn. by case_bool_decide; cbn; rewrite IH.
  - unfold occurrences. cbn. by destruct (bool_decide (x = c)), (bool_decide (y = c)).
Qed.

Lemma counts_match_perm rl l k : l ≡ₚ k → counts_match rl l → counts_match rl k.
Proof. intros Hp Hm c. by rewrite (Hm c), !(occurrences_perm c l k Hp). Qed.

Lemma calls_needed_app os ops os' ops' os'' :
  calls_needed os ops os' → calls_needed os' ops' os'' → calls_needed os (ops ++ ops') os''.
Proof. induction 1; cbn; [done|constructor; auto..]. Qed.

(** The networks that have a route. *)
Definition routed (rl : RouteLifecycle) : gset IpNet := dom (counts rl).

Lemma add_route_spec c rl l :
  counts_match rl l →
  let '(ops, rl') := add_route c rl in
  counts_match rl' (c :: l) ∧ calls_needed (routed rl) ops (routed rl') ∧
    on_link rl' = on_link rl ∧ control_plane rl' = control_plane rl.
Proof.
  intros Hm. unfold add_route. destruct (allowed rl c) eqn:Ea; cbn [negb].
  - pose proof (Hm c) as Hc. rewrite Ea in Hc. split_and!; [| |done..].
    + intros x. change (allowed _ x) with (allowed rl x). cbn [counts set_counts]. destruct (decide (x = c)) as [->|Hx].
      * rewrite lookup_insert_eq, Ea, occurrences_eq, Hc. by destruct (occurrences c l).
      * rewrite lookup_insert_ne, occurrences_ne by congruence. apply Hm.
    + unfold routed. cbn [counts set_counts]. rewrite dom_insert_L, Hc. destruct (occurrences c l) as [|k]; cbn [positive] in *.
      * rewrite bool_decide_true by done. constructor; [|constructor]. by rewrite not_elem_of_dom.
      * cbn [default from_option id]. rewrite bool_decide_false by done.
        assert (c ∈ dom (counts rl)) as Hin by (rewrite elem_of_dom; by eexists).
        replace ({[c]} ∪ dom (counts rl)) with (dom (counts rl)) by set_solver. constructor.
  - split_and!; [|constructor|done..]. intros x. specialize (Hm x). destruct (decide (x = c)) as [->|Hx].
    + by rewrite Ea in *.
    + by rewrite occurrences_ne by congruence.
Qed.

Lemma delete_route_spec c rl l :
  counts_match rl (c :: l) →
  let '(ops, rl') := delete_route c rl in
  counts_match rl' l ∧ calls_needed (routed rl) ops (routed rl') ∧
    on_link rl' = on_link rl ∧ control_plane rl' = control_plane rl.
Proof.
  intros Hm. unfold delete_route. destruct (allowed rl c) eqn:Ea; cbn [negb].
  - pose proof (Hm c) as Hc. rewrite Ea, occurrences_eq in Hc. cbn [positive] in Hc. rewrite Hc.
    replace (S (occurrences c l) - 1)%nat with (occurrences c l) by lia.
    assert (Hother : ∀ x, x ≠ c → counts rl !! x = if allowed rl x then positive (occurrences x l) else None).
    { intros x Hx. by rewrite (Hm x), occurrences_ne by congruence. }
    case_bool_decide as H1; (split_and!; [| |done..]); unfold routed; cbn [counts set_counts].
    + intros x. change (allowed _ x) with (allowed rl x). cbn [counts set_counts]. destruct (decide (x = c)) as [->|Hx].
      * by rewrite lookup_delete_eq, Ea, H1.
      * rewrite lookup_delete_ne by congruence. by apply Hother.
    + rewrite dom_delete_L. constructor; [|constructor]. rewrite elem_of_dom. by eexists.
    + intros x. change (allowed _ x) with (allowed rl x). cbn [counts set_counts]. destruct (decide (x = c)) as [->|Hx].
      * rewrite lookup_insert_eq, Ea. by destruct (occurrences c l).
      * rewrite lookup_insert_ne by congruence. by apply Hother.
    + rewrite dom_insert_lookup_L by done. constructor.
  - split_and!; [|constructor|done..]. intros x. specialize (Hm x). destruct (decide (x = c)) as [->|Hx].
    + by rewrite Ea in *.
    + by rewrite occurrences_ne in Hm by congruence.
Qed.

Lemma for_each_add cidrs rl l :
  counts_match rl l →
  let '(ops, rl') := for_each add_route cidrs rl in
  counts_match rl' (cidrs ++ l) ∧ calls_needed (routed rl) ops (routed rl') ∧
    on_link rl' = on_link rl ∧ control_plane rl' = control_plane rl.
Proof.
  revert rl l. induction cidrs as [|c cidrs IH]; intros rl l Hm; [split_and!; [done|constructor|done..]|].
  cbn [for_each]. pose proof (add_route_spec c rl l Hm) as Hc. destruct (add_route c rl) as [ops rl1].
  destruct Hc as (Hm1 & Hn1 & Hl1 & Hp1). specialize (IH rl1 (c :: l) Hm1). destruct (for_each add_route cidrs rl1) as [ops' rl2].
  destruct IH as (Hm2 & Hn2 & Hl2 & Hp2). split_and!; [|by eapply calls_needed_app|congruence..].
  eapply counts_match_perm, Hm2. symmetry. apply Permutation_middle.
Qed.

Lemma for_each_delete cidrs rl l :
  counts_match rl (cidrs ++ l) →
  let '(ops, rl') := for_each delete_route cidrs rl in
  counts_match rl' l ∧ calls_needed (routed rl) ops (routed rl') ∧
    on_link rl' = on_link rl ∧ control_plane rl' = control_plane rl.
Proof.
  revert rl. induction cidrs as [|c cidrs IH]; intros rl Hm; [split_and!; [done|constructor|done..]|].
  cbn [for_each]. pose proof (delete_route_spec c rl _ Hm) as Hc. destruct (delete_route c rl) as [ops rl1].
  destruct Hc as (Hm1 & Hn1 & Hl1 & Hp1). specialize (IH rl1 Hm1). destruct (for_each delete_route cidrs rl1) as [ops' rl2].
  destruct IH as (Hm2 & Hn2 & Hl2 & Hp2). split_and!; [done|by eapply calls_needed_app|congruence..].
Qed.

(** What a delta does to routes that follow a list: what it removes was there. *)
Lemma apply_delta_spec delta rl l k l' :
  l ≡ₚ removed delta ++ k → l' ≡ₚ added delta ++ k → counts_match rl l →
  let '(ops, rl') := apply_delta delta rl in
  counts_match rl' l' ∧ calls_needed (routed rl) ops (routed rl') ∧
    on_link rl' = on_link rl ∧ control_plane rl' = control_plane rl.
Proof.
  intros Hl Hl' Hm. unfold apply_delta. pose proof (for_each_delete (removed delta) rl k (counts_match_perm _ _ _ Hl Hm)) as H1.
  destruct (for_each delete_route (removed delta) rl) as [ops rl1]. destruct H1 as (Hm1 & Hn1 & Hl1 & Hp1).
  pose proof (for_each_add (added delta) rl1 k Hm1) as H2. destruct (for_each add_route (added delta) rl1) as [ops' rl2].
  destruct H2 as (Hm2 & Hn2 & Hl2 & Hp2).
  split_and!; [by eapply counts_match_perm|by eapply calls_needed_app|congruence..].
Qed.

Lemma lifecycle_new_spec a p cp rl : lifecycle_new a p cp = Some rl → counts_match rl [] ∧ routed rl = ∅ ∧ control_plane rl = cp.
Proof.
  unfold lifecycle_new. intros (n & _ & [= <-])%bind_Some. split_and!; [|apply dom_empty_L|done].
  intros c. cbn. rewrite lookup_empty. by destruct (allowed _ c).
Qed.

Lemma drop_needed (l : list (IpNet * nat)) os :
  NoDup l.*1 → (∀ c, c ∈ os ↔ c ∈ l.*1) → calls_needed os (map (λ kv, DeleteRoute kv.1) l) ∅.
Proof.
  revert os. induction l as [|[c n] l IH]; intros os Hnd Ho; cbn in *.
  - replace os with (∅ : gset IpNet); [constructor|]. apply set_eq. intros x. rewrite Ho. set_solver.
  - inversion_clear Hnd as [|? ? Hc Hl]. constructor; [apply Ho; by left|]. apply IH; [done|].
    intros x. rewrite elem_of_difference, Ho, elem_of_singleton, elem_of_cons. split; [naive_solver|].
    intros Hx. split; [by right|]. by intros ->.
Qed.

(** Dropping the lifecycle takes every route away, each once. *)
Lemma drop_lifecycle_spec rl : calls_needed (routed rl) (drop_lifecycle rl) ∅.
Proof.
  apply drop_needed; [apply NoDup_fst_map_to_list|]. intros c. unfold routed. rewrite elem_of_dom, list_elem_of_fmap. split.
  - intros [n Hn]. exists (c, n). split; [done|by apply elem_of_map_to_list].
  - intros ([c' n] & -> & Hn%elem_of_map_to_list). by eexists.
Qed.

(** A network with a route is allowed. *)
Lemma routed_allowed rl l c : counts_match rl l → c ∈ routed rl ↔ allowed rl c = true ∧ c ∈ l.
Proof.
  intros Hm. unfold routed. rewrite elem_of_dom, (Hm c).
  assert (Ho : is_Some (positive (occurrences c l)) ↔ c ∈ l).
  { unfold occurrences. split.
    - intros [n Hn]. destruct (List.filter (λ x, bool_decide (x = c)) l) as [|x k] eqn:E; [done|].
      assert (Hin : x ∈ List.filter (λ x, bool_decide (x = c)) l) by (rewrite E; by left).
      apply list_elem_of_In, filter_In in Hin as [Hin Hx]. apply bool_decide_eq_true in Hx as ->. by apply list_elem_of_In.
    - intros Hin. assert (Hf : In c (List.filter (λ x, bool_decide (x = c)) l)).
      { apply filter_In. split; [by apply list_elem_of_In|by apply bool_decide_true]. }
      destruct (List.filter _ l); [done|by eexists]. }
  destruct (allowed rl c); [|split; [by intros [? ?]|by intros [? _]]]. rewrite Ho. tauto.
Qed.

Lemma route_allowed_spec c ol cp :
  route_allowed c ol cp = true ↔ net_v4 c = true ∧ net_covers ol c = false ∧ ∀ a, a ∈ cp → net_contains c a = false.
Proof.
  unfold route_allowed. destruct (net_v4 c); cbn; [|split; [done|by intros [? _]]].
  destruct (net_covers ol c); [split; [done|by intros (_ & ? & _)]|]. destruct (existsb _ cp) eqn:E.
  - split; [done|]. intros (_ & _ & Hn). apply existsb_exists in E as (a & Ha%list_elem_of_In & Hc). rewrite (Hn a Ha) in Hc. done.
  - split; [|done]. intros _. split_and!; [done..|]. intros a Ha. destruct (net_contains c a) eqn:Ec; [|done].
    enough (existsb (λ cp0, net_contains c cp0) cp = true) by congruence.
    apply existsb_exists. exists a. split; [by apply list_elem_of_In|done].
Qed.

(** What a plan installs is gone with it, and nothing else: routes that were there
    already, the plan's own networks included, stay. *)
Lemma install_drop refuses planned os :
  let '(installed, os') := install refuses planned os in
  os' = list_to_set installed ∪ os ∧ list_to_set installed ## os ∧ (∀ net, net ∈ installed → net ∈ planned) ∧ drop_installed installed os' = os.
Proof.
  assert (Hdrop : ∀ installed (os : gset IpNet), drop_installed installed os = os ∖ list_to_set installed).
  { intros l. unfold drop_installed. induction l as [|net l IH]; intros os0; cbn [foldl list_to_set]; [set_solver|]. rewrite IH. set_solver. }
  assert (Hins : ∀ os, let '(installed, os') := install refuses planned os in
    os' = list_to_set installed ∪ os ∧ list_to_set installed ## os ∧ ∀ net, net ∈ installed → net ∈ planned).
  { induction planned as [|net planned IH]; intros os0; cbn; [set_solver|]. destruct (refuses net || bool_decide (net ∈ os0)) eqn:E.
    - pose proof (IH os0) as Hi. destruct (install refuses planned os0). set_solver.
    - apply orb_false_iff in E as [_ E]. apply bool_decide_eq_false in E. pose proof (IH ({[net]} ∪ os0)) as Hi.
      destruct (install refuses planned ({[net]} ∪ os0)) as [l os1]. destruct Hi as (-> & Hd & Hl). cbn. set_solver. }
  specialize (Hins os). destruct (install refuses planned os) as [l os']. destruct Hins as (-> & Hd & Hl). split_and!; [done..|]. rewrite Hdrop. set_solver.
Qed.

(** The plan holds the allowed networks, each once, in the order of the list. *)
Lemma plan_routes_spec l a p cp n :
  net_new (V4 a) p = Some n →
  NoDup (plan_routes l a p cp) ∧
  (∀ c, c ∈ plan_routes l a p cp ↔ c ∈ l ∧ route_allowed c (net_trunc n) cp = true) ∧
  (∀ l', plan_routes l a p cp `prefix_of` plan_routes (l ++ l') a p cp).
Proof.
  intros Hn. unfold plan_routes. rewrite Hn. set (f := λ planned cidr, _).
  assert (Hpre : ∀ l acc, acc `prefix_of` foldl f acc l).
  { induction l0 as [|c l0 IH]; intros acc; [done|]. cbn. etrans; [|apply IH]. unfold f.
    destruct (negb _); [done|]. case_bool_decide; [done|by apply prefix_app_r]. }
  split_and!; [| |intros l'; rewrite foldl_app; apply Hpre].
  - assert (Hg : ∀ acc, NoDup acc → NoDup (foldl f acc l)); [|apply Hg; constructor].
    clear Hpre. induction l as [|c l IH]; intros acc Hacc; [done|]. cbn. apply IH. unfold f.
    destruct (negb _); [done|]. case_bool_decide; [done|]. apply NoDup_app. split_and!; [done| |apply NoDup_singleton].
    intros x Hx ->%list_elem_of_singleton. done.
  - intros c. assert (Hg : ∀ acc, c ∈ foldl f acc l ↔ c ∈ acc ∨ c ∈ l ∧ route_allowed c (net_trunc n) cp = true).
    + clear Hpre. induction l as [|x l IH]; intros acc; [cbn; set_solver|]. cbn. rewrite IH, elem_of_cons. unfold f.
      destruct (route_allowed x (net_trunc n) cp) eqn:Ea; cbn [negb].
      * case_bool_decide; [naive_solver|]. rewrite elem_of_app, list_elem_of_singleton. naive_solver.
      * naive_solver congruence.
    + rewrite Hg. split; [by intros [?%elem_of_nil|?]|auto].
Qed.

End routes.
