(* ===== verification/Flows.v ===== *)
(** * Intercepted flows: [src/tunnel/intercept/flows.rs], [.../udp/flow.rs, vconn.rs]

    The registry of live flows per service, by which the flows of a service that
    goes away are killed, and the table of virtual UDP connections.  A kill token is
    known by a number; which tokens still have a task is part of the caller's
    state. *)

From S2P Require Import Prelude Message Address DnsMatcher IpAddr Services InterceptResolver HostTarget.

(** An address and a port. *)
Definition SocketAddr : Type := IpAddr * Z.

(** ** The registry (flows.rs) *)

(** [kill] is the token that the flow's task owns; the registry's handle on it is
    weak, so that it is live while the task is. *)
Record RegisteredFlow : Type := mkFlow {
  rf_proto : Protocol;
  rf_src : SocketAddr;
  rf_dst : SocketAddr;
  kill : Z
}.

Record FlowRegistry : Type := mkRegistry {
  flows : gmap string (list RegisteredFlow);
  registered_total : Z
}.

Definition registry_new : FlowRegistry := mkRegistry ∅ 0.

Definition is_live (live : gset Z) (f : RegisteredFlow) : bool := bool_decide (kill f ∈ live).

(** [token] is the new token. *)
Definition register_flow (live : gset Z) (token : Z) (service : string) (proto : Protocol) (src dst : SocketAddr)
    (reg : FlowRegistry) : FlowRegistry :=
  let bucket := List.filter (is_live live) (default [] (flows reg !! service)) ++ [mkFlow proto src dst token] in
  mkRegistry (<[service := bucket]> (flows reg)) (wrap_u64 (registered_total reg + 1)).

(** The tokens it cancels, one per flow killed. *)
Definition kill_service (live : gset Z) (service : string) (reg : FlowRegistry) : list Z * FlowRegistry :=
  match flows reg !! service with
  | None => ([], reg)
  | Some bucket => (map kill (List.filter (is_live live) bucket), mkRegistry (delete service (flows reg)) (registered_total reg))
  end.

(** ** Virtual connections (udp/mod.rs, udp/flow.rs) *)

Definition VCONN_QUEUE_DEPTH : nat := 16.

(** Milliseconds. *)
Definition VCONN_IDLE_TIMEOUT : Z := 5 * 60 * 1000.

(** A flow is its client and its destination. *)
Definition FlowKey : Type := SocketAddr * SocketAddr.

(** The handle of a virtual connection: its queue, whose receiver the task may have
    dropped, the time of its last activity and the flag the task sets. *)
Record Vconn : Type := mkVconn {
  queue : list (list Z);
  receiving : bool;
  last_use : Z;
  closed : bool
}.

Inductive RouteAction : Type := Deliver | CreateNew.

Definition route_decision (key : FlowKey) (conns : gmap FlowKey Vconn) : RouteAction * gmap FlowKey Vconn :=
  match conns !! key with
  | Some v => if negb (closed v) then (Deliver, conns) else (CreateNew, delete key conns)
  | None => (CreateNew, conns)
  end.

(** [try_send]: a full queue or a dropped receiver loses the datagram. *)
Definition try_send (datagram : list Z) (v : Vconn) : Vconn :=
  if receiving v && bool_decide (length (queue v) < VCONN_QUEUE_DEPTH)%nat
  then mkVconn (queue v ++ [datagram]) (receiving v) (last_use v) (closed v) else v.

Definition deliver (datagram : list Z) (v : Vconn) : Vconn := try_send datagram v.

(** [duration_since] is zero when the clock is behind. *)
Definition keeps (idle_timeout now : Z) (v : Vconn) : bool :=
  if closed v then false else Z.max 0 (now - last_use v) <=? idle_timeout.

Definition drop_expired (idle_timeout now : Z) (conns : gmap FlowKey Vconn) : gmap FlowKey Vconn :=
  filter (λ kv, keeps idle_timeout now kv.2 = true) conns.

(** ** Dials (udp/vconn.rs, tcp.rs) *)

(** What a flow's task is given; the protocol, client and destination tell flows
    apart. *)
Record Dial : Type := mkDial { d_service : string; d_timeout : Z; d_dst_hostname : option string }.

Section dial.
Context `{JsonLib} `{IpNetLib}.

(** What the resolver says of a new flow. *)
Definition dial_for (dst : SocketAddr) (proto : Protocol) (src : SocketAddr) (r : InterceptResolver) : option Dial :=
  m ← lookup dst.1 dst.2 proto src.1 r;
  Some (mkDial (m_service m) (m_dial_timeout m)
    (match dst.1 with V4 v4 => reverse_lookup v4 (dns r) | V6 _ => None end)).
End dial.

(** [create_vconn] and its [route_datagram]: the table, and the flow to start with
    its token, registered under [token]. *)
Definition create_vconn (live : gset Z) (token now : Z) (dial : Dial) (key : FlowKey) (first : list Z)
    (conns : gmap FlowKey Vconn) (reg : FlowRegistry) : gmap FlowKey Vconn * FlowRegistry :=
  (<[key := try_send first (mkVconn [] true now false)]> conns,
   register_flow live token (d_service dial) Udp key.1 key.2 reg).

Definition route_datagram `{JsonLib} `{IpNetLib} (live : gset Z) (token now : Z) (r : InterceptResolver) (dst src : SocketAddr)
    (datagram : list Z) (conns : gmap FlowKey Vconn) (reg : FlowRegistry)
    : gmap FlowKey Vconn * FlowRegistry * option Dial :=
  let key : FlowKey := (src, dst) in
  match route_decision key conns with
  | (Deliver, conns) =>
      (match conns !! key with Some v => <[key := deliver datagram v]> conns | None => conns end, reg, None)
  | (CreateNew, conns) =>
      match dial_for dst Udp src r with
      | None => (conns, reg, None)
      | Some dial => let '(conns, reg) := create_vconn live token now dial key datagram conns reg in (conns, reg, Some dial)
      end
  end.

(** The destination of the embedded DNS server. *)
Definition DNS_SERVER_PORT : Z := 53.
Definition is_dns_server_datagram (dst : SocketAddr) (dns_server_ip : option Z) : bool :=
  match dns_server_ip with
  | Some ip => bool_decide (dst.1 = V4 ip) && (dst.2 =? DNS_SERVER_PORT)
  | None => false
  end.
Definition is_dns_tcp (dst : SocketAddr) (dns_server_ip : option Z) : bool :=
  match dns_server_ip with Some ip => bool_decide (dst.1 = V4 ip) && (dst.2 =? 53) | None => false end.

(** The app data of a flow's dial. *)
Definition intercept_appdata (to_vec : gmap string string → list Z) (proto : Protocol) (dst : SocketAddr)
    (dst_hostname : option string) : list Z :=
  build_app_data to_vec (as_str proto) (ip_to_string dst.1) (pretty (Z.to_N dst.2))
    (h ← dst_hostname; if bool_decide (h = EmptyString) then None else Some h) None.

(** ** Lemmas *)

(** Every live token of a service is in its bucket. *)
Definition registered (reg : FlowRegistry) (service : string) (token : Z) : Prop :=
  ∃ bucket f, flows reg !! service = Some bucket ∧ f ∈ bucket ∧ kill f = token.

Lemma register_flow_new live token service proto src dst reg :
  registered (register_flow live token service proto src dst reg) service token.
Proof.
  unfold registered, register_flow. cbn. eexists _, (mkFlow proto src dst token). rewrite lookup_insert_eq.
  split_and!; [done|set_solver|done].
Qed.

Lemma register_flow_other live token service proto src dst reg n t :
  t ∈ live → registered reg n t → registered (register_flow live token service proto src dst reg) n t.
Proof.
  intros Ht (bucket & f & Hb & Hf & <-). unfold registered, register_flow. cbn. destruct (decide (n = service)) as [->|Hne].
  - eexists _, f. rewrite lookup_insert_eq, Hb. split_and!; [done| |done]. apply elem_of_app. left.
    apply list_elem_of_In, filter_In. split; [by apply list_elem_of_In|by apply bool_decide_true].
  - exists bucket, f. by rewrite lookup_insert_ne.
Qed.

Lemma register_flow_inv live token service proto src dst reg n t :
  registered (register_flow live token service proto src dst reg) n t → (t = token ∧ n = service) ∨ registered reg n t.
Proof.
  unfold registered, register_flow. cbn. intros (bucket & f & Hb & Hf & <-). destruct (decide (n = service)) as [->|Hne].
  - rewrite lookup_insert_eq in Hb. injection Hb as <-. apply elem_of_app in Hf as [Hf| ->%list_elem_of_singleton]; [|by left].
    apply list_elem_of_In, filter_In in Hf as [Hf%list_elem_of_In _]. destruct (flows reg !! service) as [b|] eqn:E; [|by apply elem_of_nil in Hf].
    right. by exists b, f.
  - rewrite lookup_insert_ne in Hb by done. right. by exists bucket, f.
Qed.

(** Killing a service cancels its live flows, and those only. *)
Lemma kill_service_spec live service reg :
  let '(tokens, reg') := kill_service live service reg in
  (∀ t, t ∈ tokens ↔ t ∈ live ∧ registered reg service t) ∧
  (∀ n t, registered reg' n t ↔ registered reg n t ∧ n ≠ service).
Proof.
  unfold kill_service. destruct (flows reg !! service) as [bucket|] eqn:Eb.
  - split.
    + intros t. rewrite list_elem_of_In, in_map_iff. setoid_rewrite filter_In. split.
      * intros (f & <- & Hf%list_elem_of_In & Hl). apply bool_decide_eq_true in Hl. split; [done|]. by exists bucket, f.
      * intros [Hl (b & f & Hb & Hf & <-)]. rewrite Eb in Hb. injection Hb as <-. exists f.
        split_and!; [done|by apply list_elem_of_In|by apply bool_decide_true].
    + intros n t. unfold registered. cbn. destruct (decide (n = service)) as [->|Hne].
      * rewrite lookup_delete_eq. split; [by intros (? & ? & ? & _)|by intros [_ ?]].
      * rewrite lookup_delete_ne by done. split; [by intros ?; split|by intros [? _]].
  - split.
    + intros t. split; [by intros ?%elem_of_nil|]. intros [_ (? & ? & ? & _)]. congruence.
    + intros n t. split; [|by intros [? _]]. intros (b & f & Hb & ?). split; [by exists b, f|]. intros ->. congruence.
Qed.

Lemma try_send_length v datagram : (length (queue v) <= VCONN_QUEUE_DEPTH → length (queue (try_send datagram v)) <= VCONN_QUEUE_DEPTH)%nat.
Proof.
  intros Hl. unfold try_send. destruct (receiving v); [|done]. case_bool_decide; [|done]. cbn [andb queue]. rewrite length_app. cbn. lia.
Qed.

(** A datagram changes its own flow's entry only: it joins the queue of an open
    virtual connection, if there is room; otherwise, where a service intercepts the
    destination, a new one starts with it. *)
Lemma route_datagram_spec `{JsonLib} `{IpNetLib} live token now r dst src datagram conns reg :
  let key : FlowKey := (src, dst) in
  let '(conns', reg', started) := route_datagram live token now r dst src datagram conns reg in
  (∀ k, k ≠ key → conns' !! k = conns !! k) ∧
  match conns !! key with
  | Some (mkVconn q rx lu false) =>
      started = None ∧ reg' = reg ∧
      conns' !! key = Some (mkVconn (if rx && bool_decide (length q < VCONN_QUEUE_DEPTH)%nat then q ++ [datagram] else q) rx lu false)
  | _ =>
      started = dial_for dst Udp src r ∧
      match started with
      | None => reg' = reg ∧ conns' !! key = None
      | Some dial => conns' !! key = Some (mkVconn [datagram] true now false) ∧ registered reg' (d_service dial) token
      end
  end.
Proof.
  intros key. unfold route_datagram, route_decision. fold key. destruct (conns !! key) as [[q rx lu []]|] eqn:E; cbn [negb closed]; cbn iota beta.
  - destruct (dial_for dst Udp src r) as [dial|]; cbn; split.
    + intros k Hk. by rewrite lookup_insert_ne, lookup_delete_ne.
    + split; [done|]. rewrite lookup_insert_eq. split; [done|apply register_flow_new].
    + intros k Hk. by rewrite lookup_delete_ne.
    + split; [done|]. split; [done|apply lookup_delete_eq].
  - rewrite E. split; [intros k Hk; by rewrite lookup_insert_ne|]. split_and!; [done|done|]. rewrite lookup_insert_eq.
    unfold deliver, try_send. cbn [receiving queue last_use closed]. by destruct (rx && _).
  - destruct (dial_for dst Udp src r) as [dial|]; cbn; split.
    + intros k Hk. by rewrite lookup_insert_ne.
    + split; [done|]. rewrite lookup_insert_eq. split; [done|apply register_flow_new].
    + done.
    + done.
Qed.

(** A tick keeps exactly the open connections that were active within the timeout. *)
Lemma drop_expired_spec timeout now conns key v :
  drop_expired timeout now conns !! key = Some v ↔
    conns !! key = Some v ∧ closed v = false ∧ Z.max 0 (now - last_use v) <= timeout.
Proof.
  unfold drop_expired. rewrite map_lookup_filter_Some. cbn. unfold keeps. destruct (closed v).
  - split; [by intros [_ ?]|by intros (_ & ? & _)].
  - rewrite Z.leb_le. tauto.
Qed.

(** ** Lemmas: what a dial asks for *)

Definition nonempty (s : option string) : option string := x ← s; if bool_decide (x = EmptyString) then None else Some x.

(** The options a host reads from the app data. *)
Lemma app_data_options to_vec from_slice protocol ip port hostname source :
  (∀ m, from_slice (to_vec m) = Ok (AppObject (Some <$> m))) → (∀ m, to_vec m ≠ []) →
  ∃ options, parse_app_data from_slice (Some (build_app_data to_vec protocol ip port hostname source)) = Ok options ∧
    options !! APPDATA_KEY_PROTOCOL = Some protocol ∧ options !! APPDATA_KEY_IP = Some ip ∧
    options !! APPDATA_KEY_PORT = Some port ∧ options !! APPDATA_KEY_HOSTNAME = nonempty hostname ∧
    options !! APPDATA_KEY_SOURCE_ADDR = nonempty source.
Proof.
  intros Hlaw Hne. unfold build_app_data. set (m := match source with Some _ => _ | None => _ end).
  exists m. split.
  - unfold parse_app_data. destruct (to_vec m) as [|b bs] eqn:E; [by apply Hne in E|]. rewrite <-E, Hlaw. cbn.
    f_equal. apply map_eq. intros k. rewrite lookup_omap, lookup_fmap. by destruct (m !! k).
  - subst m. unfold nonempty. destruct source as [s|]; [case_bool_decide|]; (destruct hostname as [h|]; [case_bool_decide|]);
      cbn; rewrite ?bool_decide_true, ?bool_decide_false by done; split_and!; by simplify_map_eq.
Qed.

(** ** Properties *)

Section props.
Context `{IpNetLib} `{CaseTable}.

(** What the dialing tunneler asks for is what the hosting one dials: for a service
    that forwards protocol, address and port, the app data of an intercepted flow -
    written by one side, read by the other - resolves to the flow's protocol and port
    and to the name its destination was resolved from, or else its address; if the
    host's lists allow them, and to nothing if they do not. *)
Theorem intercepted_target to_vec from_slice cfg proto dst hostname t :
  (∀ m, from_slice (to_vec m) = Ok (AppObject (Some <$> m))) → (∀ m, to_vec m ≠ []) → 0 <= dst.2 <= u16_max →
  forward_protocol cfg = true → forward_address cfg = true → forward_port cfg = true →
  let address := default (ip_to_string dst.1) (nonempty hostname) in
  resolve_target from_slice cfg (Some (intercept_appdata to_vec proto dst hostname)) = Ok t ↔
    t = mkTarget (as_str proto) address dst.2 None ∧
    as_str proto ∈ allowed_protocols cfg ∧
    match nonempty hostname with
    | Some h => ∃ e, e ∈ allowed_addresses cfg ∧ entry_allows_host e h
    | None => ∃ i e, ip_from_str address = Some i ∧ e ∈ allowed_addresses cfg ∧ entry_allows_ip e i
    end ∧
    ∃ r, r ∈ allowed_port_ranges cfg ∧ low r <= dst.2 <= high r.
Proof.
  intros Hlaw Hne Hport Hfp Hfa Hfq address. unfold intercept_appdata.
  destruct (app_data_options to_vec from_slice (as_str proto) (ip_to_string dst.1) (pretty (Z.to_N dst.2))
    (nonempty hostname) None Hlaw Hne) as (options & Ho & Hp & Hi & Hq & Hh & Hs).
  assert (Hnn : nonempty (nonempty hostname) = nonempty hostname).
  { destruct hostname as [h|]; [|done]. cbn. case_bool_decide; cbn; [done|]. by rewrite bool_decide_false. }
  rewrite Hnn in Hh. change (h ← hostname; _) with (nonempty hostname).
  unfold resolve_target. rewrite Ho. cbn [mbind result_bind]. rewrite Hs. cbn [nonempty option_bind mbind].
  split.
  - destruct (get_protocol cfg options) as [p|] eqn:Ep; [|done]. destruct (get_address cfg options) as [a|] eqn:Ea; [|done].
    destruct (get_port cfg options) as [q|] eqn:Eq; [|done]. cbn. intros [= <-].
    apply get_protocol_Ok in Ep. apply get_address_Ok in Ea. apply get_port_Ok in Eq. rewrite Hfp in Ep. rewrite Hfa in Ea. rewrite Hfq in Eq.
    rewrite Hp in Ep. destruct Ep as [[= <-] Hpin]. destruct Eq as (s & r & Hs' & Hsq & Hr & Hrange). rewrite Hq in Hs'. injection Hs' as <-.
    rewrite parse_u16_pretty in Hsq by done. injection Hsq as <-. rewrite Hh in Ea. subst address.
    destruct (nonempty hostname) as [h|]; [destruct Ea as [-> He]|rewrite Hi in Ea; destruct Ea as [[= <-] He]];
      (split_and!; [done|done|exact He|by exists r]).
  - intros (-> & Hpin & Haddr & r & Hr & Hrange).
    rewrite (proj2 (get_protocol_Ok cfg options (as_str proto))) by (rewrite Hfp; done).
    rewrite (proj2 (get_address_Ok cfg options address)).
    2:{ rewrite Hfa, Hh. subst address. destruct (nonempty hostname); [done|]. rewrite Hi. done. }
    rewrite (proj2 (get_port_Ok cfg options dst.2)); [done|].
    rewrite Hfq. exists (pretty (Z.to_N dst.2)), r. rewrite parse_u16_pretty by done. done.
Qed.
End props.

(** ** Witness *)

(** A concrete pair of writer and reader. *)
Definition demo_to_vec (m : gmap string string) : list Z := [Z.pos (encode m)].
Definition demo_from_slice (bs : list Z) : result string AppValue :=
  match bs with
  | [Z.pos p] => match decode p with Some m => Ok (AppObject (Some <$> (m : gmap string string))) | None => Err EmptyString end
  | _ => Err EmptyString
  end.

Lemma intercepted_target_witness :
  resolve_target demo_from_slice demo_cfg
    (Some (intercept_appdata demo_to_vec Tcp (V4 1681915907, 5432) (Some "Db.Example.Com"%string)))
  = Ok (mkTarget "tcp" "Db.Example.Com" 5432 None).
Proof.
  apply (@intercepted_target cidr_nets ascii_case demo_to_vec demo_from_slice demo_cfg Tcp (V4 1681915907, 5432)
    (Some "Db.Example.Com"%string)); [|done|unfold u16_max; cbn; lia|done|done|done|].
  - intros m. unfold demo_from_slice, demo_to_vec. by rewrite decode_encode.
  - split; [done|]. split; [by left|]. split.
    + exists "*.example.com"%string. split; [by right; left|]. right. left. exists "example.com"%string.
      split; [done|]. split; [done|]. right. exists "db"%string. vm_compute. reflexivity.
    + exists (mkRange 5000 6000). split; [by left|cbn; lia].
Defined.
