(* ===== verification/Runner.v ===== *)
(** * The combined intercept runner: [src/tunnel/intercept/combined/runner.rs], [.../tcp.rs], [main.rs]

    The resolver with its DNS matcher, the flow registry, the table of virtual UDP
    connections and the routes, under the handlers that the runner's loops run on one
    thread: each handler is one step, the flows' tasks move between them. *)

From S2P Require Import Prelude Utf8 Message EdgeWire Address DnsMatcher DnsServer IpAddr Services InterceptResolver HostTarget Routes Flows.

Section runner.
Context `{JsonLib} `{NetOps}.
Context (from_value : Json → result string InterceptV1Config).

(** A flow's task, from the registration of its token to its end. *)
Record FlowTask : Type := mkTask {
  ft_proto : Protocol;
  ft_src : SocketAddr;
  ft_dst : SocketAddr;
  ft_dial : Dial
}.

(** [tasks] are those that run, by their token; [calls] the system calls made. *)
Record World : Type := mkWorld {
  table : InterceptResolver;
  registry : FlowRegistry;
  lifecycle : option RouteLifecycle;
  conns : gmap FlowKey Vconn;
  tasks : gmap Z FlowTask;
  cancelled : gset Z;
  next_token : Z;
  calls : list RouteOp
}.

Definition live (w : World) : gset Z := dom (tasks w).

Definition set_table (r : InterceptResolver) (w : World) : World :=
  mkWorld r (registry w) (lifecycle w) (conns w) (tasks w) (cancelled w) (next_token w) (calls w).
Definition set_vconns (m : gmap FlowKey Vconn) (w : World) : World :=
  mkWorld (table w) (registry w) (lifecycle w) m (tasks w) (cancelled w) (next_token w) (calls w).
Definition end_task (t : Z) (w : World) : World :=
  mkWorld (table w) (registry w) (lifecycle w) (conns w) (delete t (tasks w)) (cancelled w) (next_token w) (calls w).

(** A flow's task starts with the token that was registered for it. *)
Definition spawn (task : FlowTask) (reg : FlowRegistry) (w : World) : World :=
  mkWorld (table w) reg (lifecycle w) (conns w) (<[next_token w := task]> (tasks w)) (cancelled w)
    (next_token w + 1) (calls w).

(** ** The handlers *)

(** A turn of [tcp_intercept_loop]; a flow to the DNS server is served by a task of
    its own. *)
Definition tcp_accept (dns_server_ip : option Z) (dst src : SocketAddr) (w : World) : World :=
  if is_dns_tcp dst dns_server_ip then w
  else
    match dial_for dst Tcp src (table w) with
    | None => w
    | Some dial =>
        spawn (mkTask Tcp src dst dial)
          (register_flow (live w) (next_token w) (d_service dial) Tcp src dst (registry w)) w
    end.

(** A query to the DNS server, over UDP or over TCP. *)
Definition serve_dns (packet : list Z) (upstream_available proxy_available : bool) (w : World) : DnsAction * World :=
  let r := table w in
  let '(action, d) := handle_query (dns r) packet upstream_available proxy_available in
  (action, set_table (mkResolver (entries r) (wildcards r) d (installed_configs r)) w).

(** A datagram in [udp_intercept_loop]. *)
Definition udp_datagram (dns_server_ip : option Z) (upstream_available proxy_available : bool) (now : Z)
    (dst src : SocketAddr) (payload : list Z) (w : World) : World :=
  if is_dns_server_datagram dst dns_server_ip then (serve_dns payload upstream_available proxy_available w).2
  else
    let '(conns, reg, started) :=
      route_datagram (live w) (next_token w) now (table w) dst src payload (conns w) (registry w) in
    match started with
    | Some dial => spawn (mkTask Udp src dst dial) reg (set_vconns conns w)
    | None => set_vconns conns w
    end.

(** A tick of [udp_intercept_loop]. *)
Definition udp_tick (now : Z) (w : World) : World := set_vconns (drop_expired VCONN_IDLE_TIMEOUT now (conns w)) w.

Definition event_service_name (ev : ServiceEvent) : string :=
  match ev with Added svc | Changed svc | Removed svc => svc_name svc end.

(** One event in [svc_poll_loop]: the table, then the flows, then the routes. *)
Definition handle_event (w : World) (ev : ServiceEvent) : World :=
  let '(applied, r) := apply_event from_value ev (table w) in
  let '(killed, reg) := if kill_active applied then kill_service (live w) (event_service_name ev) (registry w)
                        else ([], registry w) in
  let '(ops, rl) := match lifecycle w with
                    | Some rl => let '(ops, rl) := apply_delta (routes applied) rl in (ops, Some rl)
                    | None => ([], None)
                    end in
  mkWorld r reg rl (conns w) (tasks w) (list_to_set killed ∪ cancelled w) (next_token w) (calls w ++ ops).

(** When the next poll is: after the interval with its jitter, or sooner. *)
Inductive NextPoll : Type := Jittered | Backoff.

Definition svc_poll_turn (polled : result EdgeError (list ServiceEvent)) (w : World) : NextPoll * World :=
  match polled with
  | Ok events => (Jittered, foldl handle_event w events)
  | Err ControllerUnavailable => (Backoff, w)
  | Err _ => (Jittered, w)
  end.

(** [run_intercept]'s start: the snapshot of services goes through the table and the
    routes, before there are flows. *)
Definition start_service (w : World) (svc : Service) : World :=
  let '(applied, r) := add_service from_value svc (table w) in
  let '(ops, rl) := match lifecycle w with
                    | Some rl => let '(ops, rl) := apply_delta (routes applied) rl in (ops, Some rl)
                    | None => ([], None)
                    end in
  mkWorld r (registry w) rl (conns w) (tasks w) (cancelled w) (next_token w) (calls w ++ ops).

Definition start (d : DnsMatcher) (rl : option RouteLifecycle) (services : list Service) : World :=
  foldl start_service (mkWorld (from_services_with_dns from_value [] d) registry_new rl ∅ ∅ ∅ 0 []) services.

(** [seed_and_reserve_dns_pool]: the pool of the device's network, its own address and
    the DNS server's taken. *)
Definition seed_and_reserve_dns_pool (utun_addr prefix : Z) : option (DnsMatcher * Z) :=
  let '(seeded, d) := seed_pool (Some (utun_addr, prefix)) matcher_new in
  if negb seeded then None
  else let server := wrap_u32 (utun_addr + 1) in Some (reserve server (reserve utun_addr d), server).

(** ** Steps *)

(** What a virtual connection's task does to its handle. *)
Definition vconn_moves (v v' : Vconn) : Prop :=
  (∃ k, queue v' = drop k (queue v)) ∧ (receiving v' = true → receiving v = true) ∧ last_use v <= last_use v' ∧
  (closed v = true → closed v' = true).

Inductive step : World → World → Prop :=
| st_accept dns dst src w : step w (tcp_accept dns dst src w)
| st_datagram dns up proxy now dst src payload w : step w (udp_datagram dns up proxy now dst src payload w)
| st_query packet up proxy w : step w (serve_dns packet up proxy w).2
| st_tick now w : step w (udp_tick now w)
| st_poll polled w : step w (svc_poll_turn polled w).2
| st_end t w : step w (end_task t w)
| st_vconn key v v' w : conns w !! key = Some v → vconn_moves v v' → step w (set_vconns (<[key := v']> (conns w)) w).

(** ** Specification *)

(** A flow that an installed config permits. *)
Definition task_permitted (w : World) (task : FlowTask) : Prop :=
  ∃ cfg, conf_of from_value (table w) !! d_service (ft_dial task) = Some cfg ∧
    permits cfg (ft_dst task).2 (ft_proto task) (ft_src task).1.

(** The routes of the system are those of the installed configs' networks that the
    policy allows, and no call was in vain. *)
Definition routes_follow (w : World) (rl : RouteLifecycle) : Prop :=
  (∀ c, c ∈ routed rl ↔ c ∈ installed_routes from_value (table w) ∧ allowed rl c = true) ∧
  calls_needed ∅ (calls w) (routed rl) ∧ calls_needed (routed rl) (drop_lifecycle rl) ∅.

(** What holds of every world. *)
Record world_ok (w : World) : Prop := {
  wk_table : resolver_ok from_value (table w);
  wk_tokens t : t ∈ live w ∨ t ∈ cancelled w → t < next_token w;
  wk_tasks t task : tasks w !! t = Some task → t ∉ cancelled w →
    registered (registry w) (d_service (ft_dial task)) t ∧ task_permitted w task;
  wk_registry n t : registered (registry w) n t →
    t < next_token w ∧ ∀ task, tasks w !! t = Some task → d_service (ft_dial task) = n;
  wk_routes rl : lifecycle w = Some rl →
    counts_match rl (installed_routes from_value (table w)) ∧ calls_needed ∅ (calls w) (routed rl);
  wk_conns key v : conns w !! key = Some v → (length (queue v) <= VCONN_QUEUE_DEPTH)%nat
}.
End runner.

(** ** Lemmas: the handlers keep the world in order *)

Section lemmas.
Context `{JsonLib} `{NetOps} `{!IpNetLaws}.
Context (from_value : Json → result string InterceptV1Config).

(** A query changes the matcher as a lookup does, or not at all. *)
Lemma handle_query_matcher d packet up proxy :
  (handle_query d packet up proxy).2 = d ∨ ∃ n, (handle_query d packet up proxy).2 = (lookup_query n d).2.
Proof.
  unfold handle_query. destruct (parse_query packet) as [q|]; [|by left]. cbv zeta.
  destruct (_ || _).
  - destruct (from_utf8 _) as [n|]; [right; exists n; by destruct (lookup_query n d) as [[m|] d']|by left].
  - left. by destruct (_ ≫= _).
Qed.

Lemma serve_dns_table packet up proxy w :
  let w' := (serve_dns packet up proxy w).2 in
  installed_configs (table w') = installed_configs (table w) ∧
  (resolver_ok from_value (table w) → resolver_ok from_value (table w')).
Proof.
  unfold serve_dns. pose proof (handle_query_matcher (dns (table w)) packet up proxy) as Hq.
  destruct (handle_query _ _ _ _) as [a d]. cbn in *. split; [done|]. intros Hok. destruct (table w) as [es ws d0 ic]. cbn in *.
  destruct Hq as [->|[n ->]]; [done|]. exact (resolver_step_ok from_value _ _ Hok (rs_query from_value n _)).
Qed.

Lemma conf_of_installed r r' n :
  installed_configs r !! n = installed_configs r' !! n → conf_of from_value r !! n = conf_of from_value r' !! n.
Proof. intros Heq. unfold conf_of. by rewrite !lookup_omap, Heq. Qed.

(** A flow starts for a service whose config permits it. *)
Lemma dial_for_permitted dst proto src w dial :
  resolver_ok from_value (table w) → dial_for dst proto src (table w) = Some dial →
  task_permitted from_value w (mkTask proto src dst dial).
Proof.
  intros Hok (m & Hm & [= <-])%bind_Some. pose proof (lookup_spec from_value (table w) dst.1 dst.2 proto src.1 Hok) as Hl.
  rewrite Hm in Hl. destruct Hl as (cfg & Hc & _ & Hp & _). by exists cfg.
Qed.

Lemma spawn_ok w task :
  world_ok from_value w → task_permitted from_value w task →
  world_ok from_value (spawn task (register_flow (live w) (next_token w) (d_service (ft_dial task)) (ft_proto task) (ft_src task)
    (ft_dst task) (registry w)) w).
Proof.
  intros [Ht Htok Htasks Hreg0 Hr Hv] Hp. split; cbn; [done| | | |done|done].
  - intros t [Ht'|Ht'].
    + unfold live in Ht'. cbn in Ht'. rewrite dom_insert_L in Ht'. apply elem_of_union in Ht' as [->%elem_of_singleton|Ht']; [lia|].
      specialize (Htok t (or_introl Ht')). lia.
    + specialize (Htok t (or_intror Ht')). lia.
  - intros t task' Ht' Hc. destruct (decide (t = next_token w)) as [->|Hne].
    + rewrite lookup_insert_eq in Ht'. injection Ht' as <-. split; [apply register_flow_new|done].
    + rewrite lookup_insert_ne in Ht' by done. destruct (Htasks t task' Ht' Hc) as [Hreg Hp']. split; [|done].
      apply register_flow_other; [|done]. by apply elem_of_dom_2 in Ht'.
  - intros n t [[-> ->]|Hn]%register_flow_inv.
    + split; [lia|]. intros task'. rewrite lookup_insert_eq. by intros [= <-].
    + destruct (Hreg0 n t Hn) as [Hlt Hs]. split; [lia|]. intros task'. rewrite lookup_insert_ne by lia. apply Hs.
Qed.

Lemma tcp_accept_ok server dst src w : world_ok from_value w → world_ok from_value (tcp_accept server dst src w).
Proof.
  intros Hw. unfold tcp_accept. destruct (is_dns_tcp _ _); [done|].
  destruct (dial_for dst Tcp src (table w)) as [dial|] eqn:Ed; [|done].
  apply (spawn_ok w (mkTask Tcp src dst dial)); [done|]. apply dial_for_permitted; [apply Hw|done].
Qed.

Lemma set_conns_ok m w :
  world_ok from_value w → (∀ key v, m !! key = Some v → (length (queue v) <= VCONN_QUEUE_DEPTH)%nat) → world_ok from_value (set_vconns m w).
Proof. intros [Ht Htok Htasks Hreg0 Hr Hv] Hm. by split. Qed.

Lemma serve_dns_ok packet up proxy w : world_ok from_value w → world_ok from_value (serve_dns packet up proxy w).2.
Proof.
  intros [Ht Htok Htasks Hreg0 Hr Hv]. destruct (serve_dns_table packet up proxy w) as [Hi Hok].
  assert (Hw : ∃ r, (serve_dns packet up proxy w).2 = set_table r w).
  { unfold serve_dns. destruct (handle_query _ _ _ _). by eexists. }
  destruct Hw as [r Hw]. rewrite Hw in *. cbn in Hi, Hok. split; cbn; [auto|done| |done| |done].
  - intros t task Ht' Hc. destruct (Htasks t task Ht' Hc) as [Hreg (cfg & Hcfg & Hp)]. split; [done|].
    exists cfg. split; [|done]. rewrite <-Hcfg. apply conf_of_installed. cbn. by rewrite Hi.
  - intros rl Hrl. unfold installed_routes. rewrite Hi. by apply Hr.
Qed.

Lemma route_decision_conns key m k v : (route_decision key m).2 !! k = Some v → m !! k = Some v.
Proof.
  unfold route_decision. destruct (m !! key) as [v0|]; [|done]. destruct (closed v0); cbn; [|done].
  by intros [_ ?]%lookup_delete_Some.
Qed.

Lemma udp_datagram_ok server up proxy now dst src payload w : world_ok from_value w → world_ok from_value (udp_datagram server up proxy now dst src payload w).
Proof.
  intros Hw. unfold udp_datagram. destruct (is_dns_server_datagram _ _); [by apply serve_dns_ok|].
  unfold route_datagram. set (key0 := ((src, dst) : FlowKey)). cbv zeta. pose proof (route_decision_conns key0 (conns w)) as Hrd.
  destruct (route_decision key0 (conns w)) as [[] m]; cbn in Hrd.
  - apply set_conns_ok; [done|]. intros key v Hv. destruct (m !! key0) as [v0|] eqn:E; [|by eapply (wk_conns _ _ Hw), Hrd].
    destruct (decide (key = key0)) as [->|Hne].
    + rewrite lookup_insert_eq in Hv. injection Hv as <-. apply try_send_length. by eapply (wk_conns _ _ Hw), Hrd.
    + rewrite lookup_insert_ne in Hv by done. by eapply (wk_conns _ _ Hw), Hrd.
  - destruct (dial_for dst Udp src (table w)) as [dial|] eqn:Ed.
    + cbn [create_vconn fst snd].
      set (m' := <[key0 := try_send payload (mkVconn [] true now false)]> m).
      assert (Hm' : world_ok from_value (set_vconns m' w)).
      { apply set_conns_ok; [done|]. intros key v Hv. subst m'. destruct (decide (key = key0)) as [->|Hne].
        - rewrite lookup_insert_eq in Hv. injection Hv as <-. apply try_send_length. cbn. lia.
        - rewrite lookup_insert_ne in Hv by done. by eapply (wk_conns _ _ Hw), Hrd. }
      apply (spawn_ok (set_vconns m' w) (mkTask Udp src dst dial)); [done|].
      apply dial_for_permitted; [apply Hw|done].
    + apply set_conns_ok; [done|]. intros key v Hv. by eapply (wk_conns _ _ Hw), Hrd.
Qed.

(** The registry's part of an event. *)
Definition event_kill (applied : AppliedEvent) (ev : ServiceEvent) (w : World) : list Z * FlowRegistry :=
  if kill_active applied then kill_service (live w) (event_service_name ev) (registry w) else ([], registry w).

(** An event's change to the configs, where it is one, goes with a kill. *)
Lemma event_conf_kept ev r n :
  let '(applied, r') := apply_event from_value ev r in
  ¬ (event_service_name ev = n ∧ kill_active applied = true) → is_Some (conf_of from_value r !! n) →
  conf_of from_value r' !! n = conf_of from_value r !! n.
Proof.
  pose proof (λ raw, event_kills from_value ev r n raw) as Hkills.
  destruct (apply_event from_value ev r) as [applied r']. intros Hn [cfg Hcfg].
  unfold conf_of in Hcfg. rewrite lookup_omap in Hcfg. apply bind_Some in Hcfg as (raw & Hraw & _).
  apply conf_of_installed. rewrite Hraw. destruct (decide (installed_configs r' !! n = Some raw)) as [|Hne]; [done|].
  by destruct (Hn (Hkills raw Hraw Hne)).
Qed.

Lemma event_kill_spec applied ev w :
  let '(killed, reg) := event_kill applied ev w in
  (∀ t, t ∈ killed ↔ kill_active applied = true ∧ t ∈ live w ∧ registered (registry w) (event_service_name ev) t) ∧
  (∀ n t, registered reg n t ↔ registered (registry w) n t ∧ ¬ (event_service_name ev = n ∧ kill_active applied = true)).
Proof.
  unfold event_kill. destruct (kill_active applied).
  - pose proof (kill_service_spec (live w) (event_service_name ev) (registry w)) as Hspec.
    destruct (kill_service _ _ _) as [killed reg]. destruct Hspec as [Hk Hr]. split.
    + intros t. rewrite Hk. tauto.
    + intros n t. rewrite Hr. split; intros [? Hne]; (split; [done|]); [intros [Heq _]; by apply Hne|intros Heq; by apply Hne].
  - split.
    + intros t. split; [by intros ?%elem_of_nil|by intros [? _]].
    + intros n t. split; [intros ?; split; [done|by intros [_ ?]]|by intros [? _]].
Qed.

(** The routes' part of an event. *)
Definition event_lifecycle (applied : AppliedEvent) (rl : option RouteLifecycle) : list RouteOp * option RouteLifecycle :=
  match rl with
  | Some rl => let '(ops, rl) := apply_delta (routes applied) rl in (ops, Some rl)
  | None => ([], None)
  end.

Definition policy (rl : option RouteLifecycle) : option (IpNet * list IpAddr) :=
  rl ← rl; Some (on_link rl, control_plane rl).

(** The routes keep following the table over a delta that its networks follow. *)
Lemma event_lifecycle_spec w applied r k :
  world_ok from_value w →
  installed_routes from_value (table w) ≡ₚ removed (routes applied) ++ k →
  installed_routes from_value r ≡ₚ added (routes applied) ++ k →
  let '(ops, rl') := event_lifecycle applied (lifecycle w) in
  policy rl' = policy (lifecycle w) ∧
  ∀ rl, rl' = Some rl → counts_match rl (installed_routes from_value r) ∧ calls_needed ∅ (calls w ++ ops) (routed rl).
Proof.
  intros Hw Hk1 Hk2. unfold event_lifecycle. pose proof (wk_routes _ _ Hw) as Hr.
  destruct (lifecycle w) as [rl|]; [|done]. destruct (Hr rl eq_refl) as [Hm Hn].
  pose proof (apply_delta_spec _ rl _ k _ Hk1 Hk2 Hm) as Hd. destruct (apply_delta _ rl) as [ops rl'].
  destruct Hd as (Hm' & Hn' & Hl & Hc). split; [cbn; congruence|]. intros ? [= <-]. split; [done|by eapply calls_needed_app].
Qed.

Lemma handle_event_eq w ev :
  handle_event from_value w ev =
    let '(applied, r) := apply_event from_value ev (table w) in
    let '(killed, reg) := event_kill applied ev w in
    let '(ops, rl) := event_lifecycle applied (lifecycle w) in
    mkWorld r reg rl (conns w) (tasks w) (list_to_set killed ∪ cancelled w) (next_token w) (calls w ++ ops).
Proof. done. Qed.

Lemma handle_event_ok w ev : world_ok from_value w → world_ok from_value (handle_event from_value w ev).
Proof.
  intros Hw. pose proof Hw as [Ht Htok Htasks Hreg0 Hr Hv]. rewrite handle_event_eq.
  pose proof (apply_event_ok from_value ev (table w) Ht) as Hok'.
  pose proof (event_routes from_value ev (table w)) as Hroutes.
  pose proof (event_conf_kept ev (table w)) as Hkept.
  destruct (apply_event from_value ev (table w)) as [applied r]. cbn in Hok'. destruct Hroutes as (k & Hk1 & Hk2).
  pose proof (event_kill_spec applied ev w) as Hkill. destruct (event_kill applied ev w) as [killed reg]. destruct Hkill as [Hkilled Hreg'].
  pose proof (event_lifecycle_spec w applied r k Hw Hk1 Hk2) as Hlife.
  destruct (event_lifecycle applied (lifecycle w)) as [ops rl']. destruct Hlife as [_ Hlife].
  split; cbn; [done| | | |done|done].
  - intros t [Ht'|Ht']; [by apply Htok; left|]. apply elem_of_union in Ht' as [Ht'|Ht']; [|by apply Htok; right].
    apply elem_of_list_to_set, Hkilled in Ht' as (_ & Hl & _). apply Htok. by left.
  - intros t task Htask Hc. rewrite not_elem_of_union, not_elem_of_list_to_set in Hc. destruct Hc as [Hnk Hnc].
    destruct (Htasks t task Htask Hnc) as [Hreg (cfg & Hcfg & Hp)].
    assert (Hno : ¬ (event_service_name ev = d_service (ft_dial task) ∧ kill_active applied = true)).
    { intros [Hname Hka]. rewrite <-Hname in Hreg. apply Hnk, Hkilled. split_and!; [done|by apply elem_of_dom_2 in Htask|done]. }
    split; [by apply Hreg'|]. exists cfg. split; [|done]. cbn. rewrite (Hkept _ Hno); [done|by eexists].
  - intros n t [Hn _]%Hreg'. by apply Hreg0.
Qed.

Lemma svc_poll_turn_ok polled w : world_ok from_value w → world_ok from_value (svc_poll_turn from_value polled w).2.
Proof.
  intros Hw. destruct polled as [events|e]; [|by destruct e]. cbn. revert w Hw.
  induction events as [|ev events IH]; intros w Hw; [done|]. cbn. by apply IH, handle_event_ok.
Qed.

Lemma end_task_ok t w : world_ok from_value w → world_ok from_value (end_task t w).
Proof.
  intros [Ht Htok Htasks Hreg0 Hr Hv]. split; cbn; [done| | | |done|done].
  - intros t' [Ht'|Ht']; [|by apply Htok; right]. unfold live in Ht'. cbn in Ht'. rewrite dom_delete_L in Ht'.
    apply elem_of_difference in Ht' as [Ht' _]. by apply Htok; left.
  - intros t' task [_ Ht']%lookup_delete_Some Hc. by apply Htasks.
  - intros n t' Hn. destruct (Hreg0 n t' Hn) as [? Hs]. split; [done|]. intros task [_ Ht']%lookup_delete_Some. by apply Hs.
Qed.

Lemma step_ok w w' : world_ok from_value w → step from_value w w' → world_ok from_value w'.
Proof.
  intros Hw Hs. destruct Hs as [dns dst src w|dns up proxy now dst src payload w|packet up proxy w|now w|polled w|t w|key v v' w Hv Hm].
  - by apply tcp_accept_ok.
  - by apply udp_datagram_ok.
  - by apply serve_dns_ok.
  - apply set_conns_ok; [done|]. intros key v [Hv _]%map_lookup_filter_Some. by eapply wk_conns.
  - by apply svc_poll_turn_ok.
  - by apply end_task_ok.
  - apply set_conns_ok; [done|]. intros key' v'' Hv'. destruct (decide (key' = key)) as [->|Hne].
    + rewrite lookup_insert_eq in Hv'. injection Hv' as <-. destruct Hm as ([k ->] & _).
      rewrite length_drop. pose proof (wk_conns _ _ Hw _ _ Hv). lia.
    + rewrite lookup_insert_ne in Hv' by done. by eapply wk_conns.
Qed.

(** A step keeps the routing policy. *)
Lemma handle_event_policy w ev :
  world_ok from_value w → policy (lifecycle (handle_event from_value w ev)) = policy (lifecycle w).
Proof.
  intros Hw. rewrite handle_event_eq. pose proof (event_routes from_value ev (table w)) as Hroutes.
  destruct (apply_event from_value ev (table w)) as [applied r]. destruct Hroutes as (k & Hk1 & Hk2).
  destruct (event_kill applied ev w) as [killed reg].
  pose proof (event_lifecycle_spec w applied r k Hw Hk1 Hk2) as Hlife.
  by destruct (event_lifecycle applied (lifecycle w)) as [ops rl'], Hlife as [? _].
Qed.

Lemma step_policy w w' : world_ok from_value w → step from_value w w' → policy (lifecycle w') = policy (lifecycle w).
Proof.
  intros Hw Hs. destruct Hs as [dns dst src w|dns up proxy now dst src payload w|packet up proxy w|now w|polled w|t w|key v v' w Hv Hm]; try done.
  - unfold tcp_accept. destruct (is_dns_tcp _ _); [done|]. by destruct (dial_for _ _ _ _).
  - unfold udp_datagram. destruct (is_dns_server_datagram _ _).
    + unfold serve_dns. by destruct (handle_query _ _ _ _).
    + destruct (route_datagram _ _ _ _ _ _ _ _ _) as [[m reg] [dial|]]; done.
  - unfold serve_dns. by destruct (handle_query _ _ _ _).
  - destruct polled as [events|e]; [|by destruct e]. cbn. revert w Hw.
    induction events as [|ev events IH]; intros w Hw; [done|]. cbn.
    rewrite IH by by apply handle_event_ok. by apply handle_event_policy.
Qed.

(** ** Lemmas: the start *)

Definition blank (d : DnsMatcher) (rl : option RouteLifecycle) : World := mkWorld (initial d) registry_new rl ∅ ∅ ∅ 0 [].

Lemma blank_ok d rl :
  fresh_dns d → (∀ x, rl = Some x → ∃ a p cp, lifecycle_new a p cp = Some x) → world_ok from_value (blank d rl).
Proof.
  intros Hd Hrl. split; cbn.
  - by apply initial_ok.
  - intros t [Ht|Ht]; unfold live in *; set_solver.
  - intros t task. by rewrite lookup_empty.
  - intros n t (b & f & Hb & _). cbn in Hb. by rewrite lookup_empty in Hb.
  - intros x Hx. destruct (Hrl x Hx) as (a & p & cp & Hn). destruct (lifecycle_new_spec _ _ _ _ Hn) as (Hc & He & _).
    rewrite He. split; [exact Hc|constructor].
  - intros key v. by rewrite lookup_empty.
Qed.

Lemma start_service_eq w svc :
  start_service from_value w svc =
    let '(applied, r) := add_service from_value svc (table w) in
    let '(ops, rl) := event_lifecycle applied (lifecycle w) in
    mkWorld r (registry w) rl (conns w) (tasks w) (cancelled w) (next_token w) (calls w ++ ops).
Proof. done. Qed.

Lemma start_service_ok w svc :
  tasks w = ∅ → world_ok from_value w →
  let w' := start_service from_value w svc in
  tasks w' = ∅ ∧ world_ok from_value w' ∧ policy (lifecycle w') = policy (lifecycle w) ∧
    table w' = (add_service from_value svc (table w)).2.
Proof.
  intros Hno Hw. pose proof Hw as [Ht Htok Htasks Hreg0 Hr Hv]. rewrite start_service_eq.
  pose proof (apply_event_ok from_value (Added svc) (table w) Ht) as Hok'.
  pose proof (event_routes from_value (Added svc) (table w)) as Hroutes. cbn [apply_event] in *.
  destruct (add_service from_value svc (table w)) as [applied r]. cbn in Hok'. destruct Hroutes as (k & Hk1 & Hk2).
  pose proof (event_lifecycle_spec w applied r k Hw Hk1 Hk2) as Hlife.
  destruct (event_lifecycle applied (lifecycle w)) as [ops rl']. destruct Hlife as [Hpol Hlife].
  cbn. split_and!; [done| |done|done]. split; cbn; [done|done| |done|done|done].
  intros t task. by rewrite Hno, lookup_empty.
Qed.

Lemma start_services_ok svcs : ∀ w, tasks w = ∅ → world_ok from_value w →
  let w' := foldl (start_service from_value) w svcs in
  world_ok from_value w' ∧ policy (lifecycle w') = policy (lifecycle w) ∧
    table w' = foldl (λ r svc, (add_service from_value svc r).2) (table w) svcs.
Proof.
  induction svcs as [|svc svcs IH]; intros w Hno Hw; [done|]. cbn.
  destruct (start_service_ok w svc Hno Hw) as (Hno' & Hw' & Hp' & Ht'). destruct (IH _ Hno' Hw') as (Hw'' & Hp'' & Ht'').
  split_and!; [done|congruence|]. by rewrite Ht'', Ht'.
Qed.

Lemma start_tasks svcs : ∀ w, tasks w = ∅ → tasks (foldl (start_service from_value) w svcs) = ∅.
Proof.
  induction svcs as [|svc svcs IH]; intros w Hno; [done|]. cbn. apply IH. rewrite start_service_eq.
  destruct (add_service from_value svc (table w)) as [applied r]. by destruct (event_lifecycle applied (lifecycle w)).
Qed.

(** An event that kills, for an installed service, changes its config. *)
Lemma event_kill_active ev r :
  let '(applied, r') := apply_event from_value ev r in
  kill_active applied = true → is_Some (installed_configs r !! event_service_name ev) →
  installed_configs r' !! event_service_name ev ≠ installed_configs r !! event_service_name ev.
Proof.
  assert (Hadd : ∀ svc, let '(applied, r') := add_service from_value svc r in
    kill_active applied = true → is_Some (installed_configs r !! svc_name svc) →
    installed_configs r' !! svc_name svc ≠ installed_configs r !! svc_name svc).
  { intros svc. destruct (add_service_cases from_value svc r) as [[_ ->]|[(_ & -> & _)|(cfg & raw & _ & _ & _ & _ & Hne & ->)]].
    - intros _ [raw ->]. cbn. by rewrite lookup_delete_eq.
    - done.
    - intros _ _. rewrite install_addresses_installed. cbn. rewrite lookup_insert_eq. congruence. }
  destruct ev as [svc|svc|svc]; [apply Hadd..|]. cbn. intros _ [raw ->]. by rewrite lookup_delete_eq.
Qed.

(** Worlds at the start of a run. *)
Definition begins (w : World) : Prop :=
  ∃ d rl svcs, fresh_dns d ∧ (∀ x, rl = Some x → ∃ a p cp, lifecycle_new a p cp = Some x) ∧ w = start from_value d rl svcs.

Lemma reachable_ok w0 w :
  begins w0 → rtc (step from_value) w0 w → world_ok from_value w ∧ policy (lifecycle w) = policy (lifecycle w0).
Proof.
  intros (d & rl & svcs & Hd & Hrl & ->) Hst. destruct (start_services_ok svcs (blank d rl) eq_refl (blank_ok d rl Hd Hrl)) as (Hw & _ & _).
  apply (invariant_rtc (step from_value) (λ w, world_ok from_value w ∧ policy (lifecycle w) = policy (lifecycle (start from_value d rl svcs)))
    (start from_value d rl svcs)); [by split| |done].
  intros x y [Hx Hpx] Hxy. split; [by eapply step_ok|]. rewrite <-Hpx. by apply step_policy.
Qed.

(** The pool of the device's network starts without claims. *)
Lemma seed_and_reserve_fresh a p d server : u32_ok a → seed_and_reserve_dns_pool a p = Some (d, server) → fresh_dns d.
Proof.
  intros Ha. unfold seed_and_reserve_dns_pool. destruct (seed_pool (Some (a, p)) matcher_new) as [ok d0] eqn:E.
  destruct ok; [|done]. cbn [negb]. intros [= <- <-].
  assert (Hd0 : matcher_ok d0 ∧ ∀ i, ¬ claims i d0).
  { assert (Hs : dns_step matcher_new d0).
    { replace d0 with ((seed_pool (Some (a, p)) matcher_new).2) by by rewrite E. constructor. by intros ? ? [= <- <-]. }
    split; [eapply dns_step_ok; [|exact Hs]; apply matcher_new_ok|].
    unfold seed_pool in E. destruct (seed _) as [pool|]; [|done]. injection E as <-.
    intros i [(h & e & He & _)|(s & o & Ho & _)]; cbn in *; by rewrite lookup_empty in *. }
  assert (Hres : ∀ b x, matcher_ok x ∧ (∀ i, ¬ claims i x) → matcher_ok (reserve b x) ∧ ∀ i, ¬ claims i (reserve b x)).
  { intros b x [Hm Hc]. split; [by apply reserve_ok|]. intros i Hi. apply (Hc i). unfold reserve in Hi.
    destruct (ip_addresses x !! b); [done|]. destruct Hi as [Hi|Hi]; [by left|by right]. }
  apply Hres, Hres, Hd0.
Qed.

(** ** Properties *)



(** C16. What an event stops: a running flow is told to stop exactly if it is one of
    the event's service and the event replaces the service's installed config or
    takes it away; flows of other services, and flows of a service whose config
    stays, go on. *)
Theorem event_kills_exactly w0 w ev t task :
  begins w0 → rtc (step from_value) w0 w → tasks w !! t = Some task → t ∉ cancelled w →
  let w' := handle_event from_value w ev in
  t ∈ cancelled w' ↔ d_service (ft_dial task) = event_service_name ev ∧
    installed_configs (table w') !! event_service_name ev ≠ installed_configs (table w) !! event_service_name ev.
Proof.
  intros Hb Hst Ht Hc. destruct (reachable_ok w0 w Hb Hst) as [Hw _].
  destruct (wk_tasks _ _ Hw t task Ht Hc) as [Hreg (cfg & Hcfg & _)].
  assert (Hlive : t ∈ live w) by by apply elem_of_dom_2 in Ht.
  assert (Hin : d_service (ft_dial task) = event_service_name ev → ∃ raw, installed_configs (table w) !! event_service_name ev = Some raw).
  { intros <-. unfold conf_of in Hcfg. rewrite lookup_omap in Hcfg. apply bind_Some in Hcfg as (raw & Hraw & _). by exists raw. }
  cbv zeta. rewrite handle_event_eq.
  pose proof (event_kills from_value ev (table w)) as Hkills. pose proof (event_kill_active ev (table w)) as Hact.
  destruct (apply_event from_value ev (table w)) as [applied r].
  pose proof (event_kill_spec applied ev w) as Hkill. destruct (event_kill applied ev w) as [killed reg]. destruct Hkill as [Hkilled _].
  destruct (event_lifecycle applied (lifecycle w)) as [ops rl']. cbn [cancelled table].
  rewrite elem_of_union, elem_of_list_to_set, Hkilled. split.
  - intros [(Hka & _ & Hr)|?]; [|done]. destruct (wk_registry _ _ Hw _ _ Hr) as [_ Hs]. pose proof (Hs task Ht) as Hname.
    split; [done|]. destruct (Hin Hname) as [raw Hraw]. apply Hact; [done|by eexists].
  - intros [Hname Hne]. left. destruct (Hin Hname) as [raw Hraw]. rewrite Hraw in Hne.
    destruct (Hkills (event_service_name ev) raw Hraw Hne) as [_ Hka]. split_and!; [done|done|by rewrite <-Hname].
Qed.

(** The start: folding the snapshot of services through the table and the routes
    gives the same table as building it from the snapshot, starts no flow, and the
    routes follow the table from the first. *)
Theorem start_equivalent d rl svcs a p cp :
  fresh_dns d → lifecycle_new a p cp = Some rl →
  let w := start from_value d (Some rl) svcs in
  table w = from_services_with_dns from_value svcs d ∧ live w = ∅ ∧
  ∃ rl', lifecycle w = Some rl' ∧ routes_follow from_value w rl' ∧ control_plane rl' = cp.
Proof.
  intros Hd Hn. assert (Hrl : ∀ x, Some rl = Some x → ∃ a p cp, lifecycle_new a p cp = Some x) by (intros ? [= <-]; eauto).
  pose proof (blank_ok d (Some rl) Hd Hrl) as Hw0.
  destruct (start_services_ok svcs (blank d (Some rl)) eq_refl Hw0) as (Hw & Hp & Ht).
  pose proof (start_tasks svcs (blank d (Some rl)) eq_refl) as Hno. cbv zeta.
  change (start from_value d (Some rl) svcs) with (foldl (start_service from_value) (blank d (Some rl)) svcs).
  set (w := foldl _ _ _) in *. split_and!; [exact Ht|unfold live; rewrite Hno; apply dom_empty_L|].
  destruct (lifecycle w) as [rl'|] eqn:El; [|done]. exists rl'. split; [done|].
  destruct (wk_routes _ _ Hw rl' El) as [Hm Hc]. split; [|].
  - split; [intros c; rewrite (routed_allowed rl' _ c Hm); tauto|split; [done|apply drop_lifecycle_spec]].
  - cbn in Hp. injection Hp as _ ->. by destruct (lifecycle_new_spec _ _ _ _ Hn) as (_ & _ & ->).
Qed.

End lemmas.

(** ** Witnesses *)

Definition demo_from_value : @Json string_json → result string InterceptV1Config := sample_from_value.
Definition demo_service (n raw : string) : @Service string_json := sample_dial n raw.

(** The device at 100.64.0.1/29, the controller at 10.2.0.1: service a's network
    gets a route, service c's would cover the controller. *)
Definition demo_dns : DnsMatcher :=
  match seed_and_reserve_dns_pool 1681915905 29 with Some (d, _) => d | None => matcher_new end.
Definition demo_lifecycle : RouteLifecycle := mkLifecycle ∅ (V4 1681915904, 29) [V4 167903233].
Definition demo_start : World := start demo_from_value demo_dns (Some demo_lifecycle) [demo_service "a" "web"; demo_service "b" "wild"].

(** A connection from 192.168.0.2 to 10.1.0.7:80 of service a. *)
Definition demo_src : SocketAddr := (V4 3232235522, 40000).
Definition demo_dst : SocketAddr := (V4 167837703, 80).
Definition demo_task : FlowTask := mkTask Tcp demo_src demo_dst (mkDial "a" 5 None).
Definition demo_flowing : World := tcp_accept (Some 1681915906) demo_dst demo_src demo_start.

Lemma demo_fresh : fresh_dns demo_dns.
Proof.
  apply (seed_and_reserve_fresh 1681915905 29 _ 1681915906); [unfold u32_ok, u32_max; lia|].
  unfold demo_dns. by destruct (seed_and_reserve_dns_pool 1681915905 29) as [[d s]|] eqn:E; vm_compute in E; simplify_eq.
Qed.

Lemma demo_lifecycle_new : lifecycle_new 1681915905 29 [V4 167903233] = Some demo_lifecycle.
Proof. reflexivity. Qed.

Lemma demo_begins : begins demo_from_value demo_start.
Proof.
  exists demo_dns, (Some demo_lifecycle), [demo_service "a" "web"; demo_service "b" "wild"].
  split; [apply demo_fresh|]. split; [|done]. intros x [= <-]. exists 1681915905, 29, [V4 167903233]. apply demo_lifecycle_new.
Qed.

Lemma demo_reaches : rtc (step demo_from_value) demo_start demo_flowing.
Proof. eapply rtc_once. constructor. Qed.

Lemma demo_running : tasks demo_flowing !! 0 = Some demo_task ∧ 0 ∉ cancelled demo_flowing.
Proof. split; [vm_compute; reflexivity|by_compute]. Qed.


Definition demo_routes : RouteLifecycle := match lifecycle demo_flowing with Some rl => rl | None => demo_lifecycle end.


Lemma event_kills_exactly_witness :
  0 ∈ cancelled (handle_event demo_from_value demo_flowing (Removed (demo_service "a" "web"))).
Proof.
  apply (event_kills_exactly demo_from_value demo_start demo_flowing (Removed (demo_service "a" "web")) 0 demo_task).
  - exact demo_begins.
  - exact demo_reaches.
  - apply demo_running.
  - apply demo_running.
  - split; [done|]. by_compute.
Defined.

Lemma start_equivalent_witness :
  table demo_start = from_services_with_dns demo_from_value [demo_service "a" "web"; demo_service "b" "wild"] demo_dns ∧
  live demo_start = ∅.
Proof.
  destruct (start_equivalent demo_from_value demo_dns demo_lifecycle [demo_service "a" "web"; demo_service "b" "wild"]
    1681915905 29 [V4 167903233] demo_fresh demo_lifecycle_new) as (Ht & Hl & _).
  by split.
Defined.
