(* ===== verification/PollTimer.v ===== *)
(** * The timers of the service polls: [src/edge/service_refresh.rs]

    How long a poll of the services waits for the next: a jittered interval, or a
    backoff when the controller is unavailable; and the two loops that poll, the
    client's own and the one of the combined runner ([tunnel/intercept/combined/]). *)

From Stdlib Require Import SpecFloat.
From S2P Require Import Prelude F64 EdgeWire Services IpAddr Routes InterceptResolver Runner.

(** ** Delays *)

(** Durations are in nanoseconds. *)
Definition secs (n : Z) : Z := n * 1000000000.

Record ServiceRefreshIntervals : Type := mkIntervals { interval : Z; jitter : spec_float }.

Definition PROD_SERVICE_INTERVALS : ServiceRefreshIntervals := mkIntervals (secs (5 * 60)) (f64_div (f64 1) (f64 10)).

Definition BACKOFF_FLOOR : Z := secs 5.
Definition BACKOFF_CAP : Z := secs (2 * 60).

Definition jittered_duration (base : Z) (jitter frac : spec_float) : Z :=
  if f64_le jitter (f64 0) then base
  else
    let base_ns := f64 base in
    let delta := f64_mul base_ns jitter in
    let min_d := f64_sub base_ns delta in
    let ns := f64_max (f64_add min_d (f64_mul (f64_mul frac (f64 2)) delta)) (f64 0) in
    f64_as_u64 ns.

(** [Duration::as_secs_f64], [Duration::from_secs_f64], which rounds to the nearest
    nanosecond, ties to even, and panics out of range, and [Duration::mul_f64]. *)
Definition as_secs_f64 (d : Z) : spec_float := f64_add (f64 (d / 1000000000)) (f64_div (f64 (d mod 1000000000)) (f64 1000000000)).

Definition half_even (n d : Z) : Z :=
  match 2 * (n mod d) ?= d with
  | Lt => n / d
  | Gt => n / d + 1
  | Eq => if Z.even (n / d) then n / d else n / d + 1
  end.

Definition from_secs_f64 (x : spec_float) : option Z :=
  match x with
  | S754_zero _ => Some 0
  | S754_finite false m e =>
      let ns := if 0 <=? e then Z.pos m * 1000000000 * 2 ^ e else half_even (Z.pos m * 1000000000) (2 ^ (- e)) in
      if ns <? secs (2 ^ 64) then Some ns else None
  | _ => None
  end.

Definition mul_f64 (d : Z) (rhs : spec_float) : option Z := from_secs_f64 (f64_mul rhs (as_secs_f64 d)).

Definition backoff_delay (interval : Z) (frac : spec_float) : option Z :=
  let retry_max := Z.min (interval / 2) BACKOFF_CAP in
  let span := Z.max 0 (retry_max - BACKOFF_FLOOR) in
  if span =? 0 then Some BACKOFF_FLOOR else d ← mul_f64 span frac; Some (BACKOFF_FLOOR + d).

(** [filled] is what the operating system's generator gives: eight bytes, unless it fails. *)
Definition rand_fraction (filled : option (list Z)) : spec_float :=
  match filled with
  | None => f64_div (f64 1) (f64 2)
  | Some buf => f64_div (f64 (le_val buf)) (f64 (2 ^ 64))
  end.

(** ** Loops *)

Section loop.
Context {input state : Type}.

(** What a turn does and which delay it asks for. *)
Context (turn : input → state → NextPoll * state).

Definition next_delay (ivs : ServiceRefreshIntervals) (next : NextPoll) (filled : option (list Z)) : option Z :=
  match next with
  | Jittered => Some (jittered_duration (interval ivs) (jitter ivs) (rand_fraction filled))
  | Backoff => backoff_delay (interval ivs) (rand_fraction filled)
  end.

(** The sleeps of the loop, each before a turn, the last one under way; [None] is a panic. *)
Fixpoint poll_turns (ivs : ServiceRefreshIntervals) (next : Z) (ticks : list (input * option (list Z))) (st : state) : option (list Z * state) :=
  match ticks with
  | [] => Some ([next], st)
  | (i, filled) :: ticks =>
      let '(kind, st) := turn i st in
      after ← next_delay ivs kind filled;
      '(sleeps, st) ← poll_turns ivs after ticks st;
      Some (next :: sleeps, st)
  end.

Definition poll_loop (ivs : ServiceRefreshIntervals) (filled : option (list Z)) (ticks : list (input * option (list Z))) (st : state) :
    option (list Z * state) :=
  poll_turns ivs (jittered_duration (interval ivs) (jitter ivs) (rand_fraction filled)) ticks st.

End loop.

(** One turn of the client's loop: whether there is a token, what the update query and
    the listing answer. *)
Definition service_tick_input `{JsonLib} : Type := bool * result EdgeError Z * result EdgeError (list Service).

Definition service_refresh_turn `{JsonLib} {SD} (order : gmap string Service → list Service) (i : service_tick_input)
    (st : poll_state (SessionDetail := SD)) : NextPoll * poll_state (SessionDetail := SD) :=
  let '(r, st) := service_refresh_tick order i.1.1 i.1.2 i.2 st in
  (match r with Err ControllerUnavailable => Backoff | _ => Jittered end, st).

Definition run_service_refreshes `{JsonLib} {SD} (order : gmap string Service → list Service) (ivs : ServiceRefreshIntervals)
    (filled : option (list Z)) (ticks : list (service_tick_input * option (list Z))) (st : poll_state (SessionDetail := SD)) :
    option (list Z * poll_state (SessionDetail := SD)) :=
  poll_loop (service_refresh_turn order) ivs filled ticks st.

(** The branch of the combined runner; an input is the result of a poll. *)
Definition svc_poll_loop `{JsonLib} `{NetOps} (from_value : Json → result string InterceptV1Config) (ivs : ServiceRefreshIntervals)
    (filled : option (list Z)) (ticks : list (result EdgeError (list ServiceEvent) * option (list Z))) (w : World) : option (list Z * World) :=
  poll_loop (svc_poll_turn from_value) ivs filled ticks w.

(** ** Bounds of the delays *)

(** A draw of eight bytes, or a failure of the generator. *)
Definition draw_ok (filled : option (list Z)) : Prop := match filled with Some buf => length buf = 8%nat ∧ bytes_ok buf | None => True end.

Lemma below_one x : between 0 (scaled 1 0) x → 0 <= value x <= 2 ^ SCALE.
Proof. intros [_ H]. unfold scaled in H. by rewrite Z.mul_1_l in H. Qed.

Lemma rand_fraction_between filled : draw_ok filled → between 0 (scaled 1 0) (rand_fraction filled).
Proof.
  destruct filled as [buf|]; cbn [draw_ok rand_fraction].
  - intros [Hl Hb]. pose proof (le_val_bound buf Hb) as Hu. rewrite Hl in Hu. change (256 ^ Z.of_nat 8) with (2 ^ 64) in Hu.
    destruct (Z.eq_dec (le_val buf) 0) as [->|Hne]; [split; [done|]; by vm_compute|].
    assert (Hx : between (scaled 1 0) (scaled (2 ^ 64) 0) (f64 (le_val buf))).
    { apply f64_between; [lia|by exists 1, 0|exists 1, 64; split_and!; [done..|by apply (scaled_shift 1 0 64)]|]. split; apply scaled_le; unfold SCALE; lia. }
    destruct Hx as [Hx Hv]. by apply f64_div_2_64.
  - intros _. split; vm_compute; done.
Qed.

Lemma nonneg_max x : nonneg x → f64_max x (f64 0) = x.
Proof. by destruct x as [[]| | |[] m e]. Qed.

Lemma times x lo hi y k : between lo (scaled hi 0) x → 0 <= lo → nonneg y → value y = scaled k 0 → 0 <= hi <= 2 ^ 30 → 0 <= k <= 2 ^ 40 → hi * k < 2 ^ 53 →
  between 0 (scaled (hi * k) 0) (f64_mul x y).
Proof.
  intros [Hx Hv] Hlo Hy Hvy Hhi Hk Hm. assert (HS : 0 < 2 ^ SCALE) by (by apply Z.pow_pos_nonneg).
  assert (H400 : 2 ^ (400 + SCALE) = 2 ^ 400 * 2 ^ SCALE) by (by apply Z.pow_add_r). unfold scaled in Hv, Hvy. rewrite Z.add_0_l in Hv, Hvy.
  assert (H1 : 2 ^ 40 * 2 ^ SCALE < 2 ^ 400 * 2 ^ SCALE) by (by apply Z.mul_lt_mono_pos_r).
  assert (H2 : hi * 2 ^ SCALE <= 2 ^ 40 * 2 ^ SCALE) by (apply Z.mul_le_mono_pos_r; [done|]; lia).
  assert (H3 : k * 2 ^ SCALE <= 2 ^ 40 * 2 ^ SCALE) by (apply Z.mul_le_mono_pos_r; [done|]; lia).
  set (P := 2 ^ SCALE) in *. set (Q := 2 ^ (400 + SCALE)) in *. apply f64_mul_between; fold P Q; [exact Hx|exact Hy| | |exact representable_0|apply representable_nat; nia|].
  { clearbody P Q. lia. }
  { clearbody P Q. lia. }
  rewrite Hvy. unfold scaled. rewrite Z.add_0_l. fold P. clearbody P. clear H400 H1 H2 H3.
  assert (H0 : 0 <= k * P) by nia. split; [rewrite Z.mul_0_l; apply Z.mul_nonneg_nonneg; lia|].
  replace (hi * k * P * P) with (hi * P * (k * P)) by ring. apply Z.mul_le_mono_nonneg_r; lia.
Qed.

Lemma jittered_bounds frac : between 0 (scaled 1 0) frac →
  secs 270 <= jittered_duration (interval PROD_SERVICE_INTERVALS) (jitter PROD_SERVICE_INTERVALS) frac <= secs 330.
Proof.
  intros Hf. unfold jittered_duration. change (f64_le (jitter PROD_SERVICE_INTERVALS) (f64 0)) with false. cbv iota zeta.
  set (base_ns := f64 (interval PROD_SERVICE_INTERVALS)). set (delta := f64_mul base_ns _). set (min_d := f64_sub base_ns delta).
  assert (Hd : nonneg delta ∧ value delta = scaled (secs 30) 0) by (vm_compute; done).
  assert (Hm : nonneg min_d ∧ value min_d = scaled (secs 270) 0) by (vm_compute; done).
  clearbody delta min_d. destruct Hd as [Hd Hdv], Hm as [Hm Hmv].
  assert (H2 : nonneg (f64 2) ∧ value (f64 2) = scaled 2 0) by (vm_compute; done). destruct H2 as [H2 H2v].
  pose proof (times frac 0 1 (f64 2) 2 Hf (Z.le_refl 0) H2 H2v ltac:(lia) ltac:(lia) ltac:(lia)) as H3.
  pose proof (times _ 0 _ delta (secs 30) H3 (Z.le_refl 0) Hd Hdv ltac:(lia) ltac:(unfold secs; lia) ltac:(unfold secs; lia)) as [H4 H4v].
  change (1 * 2 * secs 30) with (secs 60) in H4v. set (p := f64_mul _ delta) in *. clearbody p.
  assert (Hsum : between (scaled (secs 270) 0) (scaled (secs 330) 0) (f64_add min_d p)).
  { apply f64_add_between; [exact Hm|exact H4|apply representable_nat; unfold secs; lia..|]. rewrite Hmv. unfold scaled, secs in *. set (P := 2 ^ (0 + SCALE)) in *. clearbody P. lia. }
  rewrite nonneg_max by apply Hsum. by apply f64_as_u64_between.
Qed.

Lemma half_even_range n d k : 0 < d → 0 <= n <= k * d → 0 <= half_even n d <= k.
Proof.
  intros Hd Hn. unfold half_even. pose proof (Z.div_mod n d ltac:(lia)). pose proof (Z.mod_pos_bound n d Hd). pose proof (Z.div_pos n d ltac:(lia) Hd).
  assert (n / d <= k) by (apply Z.div_le_upper_bound; lia).
  destruct (Z.compare_spec (2 * (n mod d)) d); [destruct (Z.even (n / d))|..]; nia.
Qed.

Lemma from_secs_range x k : between 0 (scaled k 0) x → 0 <= k <= 2 ^ 30 → ∃ d, from_secs_f64 x = Some d ∧ 0 <= d <= secs k.
Proof.
  intros [Hx Hv] Hk. assert (HS : 0 < 2 ^ (0 + SCALE)) by (by apply Z.pow_pos_nonneg).
  destruct x as [[]| | |[] m e]; try done; cbn [from_secs_f64]; [exists 0; unfold secs; split; [done|lia]|]. cbn in Hx. destruct Hx as [_ He]. cbn [value] in Hv.
  enough (Hns : 0 <= (if 0 <=? e then Z.pos m * 1000000000 * 2 ^ e else half_even (Z.pos m * 1000000000) (2 ^ (- e))) <= secs k).
  { set (ns := if 0 <=? e then _ else _) in *. exists ns. rewrite (proj2 (Z.ltb_lt ns (secs (2 ^ 64)))); [done|]. unfold secs in *. lia. }
  unfold scaled in Hv. destruct (Z.leb_spec 0 e) as [H0|H0].
  - replace (e + SCALE) with (e + (0 + SCALE)) in Hv by lia. rewrite (Z.pow_add_r 2 e (0 + SCALE)), Z.mul_assoc in Hv by (unfold SCALE; lia).
    destruct Hv as [_ Hv]. apply (Z.mul_le_mono_pos_r _ _ _ HS) in Hv. unfold secs. lia.
  - assert (HE : 0 < 2 ^ (- e)) by (apply Z.pow_pos_nonneg; lia). assert (Hd : 0 < 2 ^ (e + SCALE)) by (apply Z.pow_pos_nonneg; unfold SCALE; lia).
    assert (E : 2 ^ (0 + SCALE) = 2 ^ (- e) * 2 ^ (e + SCALE)) by (rewrite <-(Z.pow_add_r 2 (- e) (e + SCALE)) by (unfold SCALE; lia); f_equal; lia).
    rewrite E, Z.mul_assoc in Hv. destruct Hv as [_ Hv]. apply (Z.mul_le_mono_pos_r _ _ _ Hd) in Hv. apply half_even_range; [done|]. unfold secs. nia.
Qed.

Lemma backoff_bounds frac : between 0 (scaled 1 0) frac → ∃ d, backoff_delay (interval PROD_SERVICE_INTERVALS) frac = Some d ∧ secs 5 <= d <= secs 120.
Proof.
  intros Hf. unfold backoff_delay. change (Z.max 0 (Z.min (interval PROD_SERVICE_INTERVALS / 2) BACKOFF_CAP - BACKOFF_FLOOR)) with (secs 115).
  change (secs 115 =? 0) with false. cbv iota zeta. unfold mul_f64.
  assert (H : nonneg (as_secs_f64 (secs 115)) ∧ value (as_secs_f64 (secs 115)) = scaled 115 0) by (vm_compute; done).
  destruct H as [Hn Hv]. pose proof (times frac 0 1 _ 115 Hf (Z.le_refl 0) Hn Hv ltac:(lia) ltac:(lia) ltac:(lia)) as Hp.
  destruct (from_secs_range _ 115 Hp ltac:(lia)) as (d & -> & Hd). exists (BACKOFF_FLOOR + d). split; [done|]. unfold BACKOFF_FLOOR, secs in *. lia.
Qed.

(** Without random numbers the delays are the interval and the middle of the backoff. *)
Lemma failed_draw_delays :
  next_delay PROD_SERVICE_INTERVALS Jittered None = Some (secs 300) ∧ next_delay PROD_SERVICE_INTERVALS Backoff None = Some 62500000000.
Proof. split; vm_compute; reflexivity. Qed.

(** ** Loops in time *)

Definition delay_ok (kind : NextPoll) (d : Z) : Prop :=
  match kind with Jittered => secs 270 <= d <= secs 330 | Backoff => secs 5 <= d <= secs 120 end.

Lemma next_delay_ok kind filled : draw_ok filled → ∃ d, next_delay PROD_SERVICE_INTERVALS kind filled = Some d ∧ delay_ok kind d.
Proof. intros H%rand_fraction_between. destruct kind; cbn [next_delay]; [eexists; split; [done|]; by apply jittered_bounds|by apply backoff_bounds]. Qed.

(** The delays that the turns ask for, and the state they leave. *)
Fixpoint asked {input state} (turn : input → state → NextPoll * state) (inputs : list input) (st : state) : list NextPoll :=
  match inputs with [] => [] | i :: inputs => (turn i st).1 :: asked turn inputs (turn i st).2 end.

Definition turned {input state} (turn : input → state → NextPoll * state) (inputs : list input) (st : state) : state :=
  foldl (λ st i, (turn i st).2) st inputs.

Lemma poll_turns_ok {input state} (turn : input → state → NextPoll * state) kind next ticks st :
  delay_ok kind next → Forall (λ t, draw_ok t.2) ticks →
  ∃ sleeps, poll_turns turn PROD_SERVICE_INTERVALS next ticks st = Some (sleeps, turned turn ticks.*1 st) ∧
    Forall2 delay_ok (kind :: asked turn ticks.*1 st) sleeps.
Proof.
  revert kind next st. induction ticks as [|[i filled] ticks IH]; intros kind next st Hn Ht; cbn [poll_turns fmap list_fmap fst].
  - exists [next]. split; [done|]. by repeat constructor.
  - apply Forall_cons in Ht as [Hf Ht]. unfold turned. cbn [foldl asked]. destruct (turn i st) as [kind' st'] eqn:E. cbn [fst snd].
    destruct (next_delay_ok kind' filled Hf) as (d & -> & Hd). cbn. destruct (IH kind' d st' Hd Ht) as (sleeps & -> & Hs).
    exists (next :: sleeps). split; [done|]. by constructor.
Qed.

Lemma poll_loop_ok {input state} (turn : input → state → NextPoll * state) filled ticks st :
  draw_ok filled → Forall (λ t, draw_ok t.2) ticks →
  ∃ sleeps, poll_loop turn PROD_SERVICE_INTERVALS filled ticks st = Some (sleeps, turned turn ticks.*1 st) ∧
    Forall2 delay_ok (Jittered :: asked turn ticks.*1 st) sleeps.
Proof. intros Hf Ht. unfold poll_loop. apply poll_turns_ok; [|done]. by apply (jittered_bounds _ (rand_fraction_between _ Hf)). Qed.

(** C28. The loops that poll the services never end and never panic, whatever the
    controller answers and the generator of random numbers gives: the client's own and
    the tunneler's make their turns one after the other, never at once; from four and a
    half minutes to five and a half pass before the first and after each, or five
    seconds to two minutes after one that found the controller unavailable.  The delays
    are computed in binary floating point. *)
Theorem service_polls_paced `{JsonLib} `{NetOps} {SD} (from_value : Json → result string InterceptV1Config) order
    (ticks : list (service_tick_input * option (list Z))) (st : poll_state (SessionDetail := SD))
    (polls : list (result EdgeError (list ServiceEvent) * option (list Z))) (w : World) (filled : option (list Z)) :
  draw_ok filled → Forall (λ t, draw_ok t.2) ticks → Forall (λ t, draw_ok t.2) polls →
  (∃ sleeps, run_service_refreshes order PROD_SERVICE_INTERVALS filled ticks st = Some (sleeps, turned (service_refresh_turn order) ticks.*1 st) ∧
     Forall2 delay_ok (Jittered :: asked (service_refresh_turn order) ticks.*1 st) sleeps) ∧
  (∃ sleeps, svc_poll_loop from_value PROD_SERVICE_INTERVALS filled polls w = Some (sleeps, turned (svc_poll_turn from_value) polls.*1 w) ∧
     Forall2 delay_ok (Jittered :: asked (svc_poll_turn from_value) polls.*1 w) sleeps).
Proof. intros Hf Ht Hp. split; by apply poll_loop_ok. Qed.

(** ** Witness *)

(** A poll that finds the controller unavailable, and one that lists the services. *)
Definition demo_draw : option (list Z) := Some [0; 0; 0; 0; 0; 0; 0; 128].
Definition demo_ticks : list (service_tick_input * option (list Z)) :=
  [((true, Err (ServiceUpdatesHttp 503 "" ""), Ok []), demo_draw); ((true, Ok 6, Ok sample_listing), None)].
Definition demo_poll_state : poll_state (SessionDetail := nat) := mkPoll (Some 5) sample_watcher {[ "2" := 20%nat ]}.

Lemma demo_draw_ok : draw_ok demo_draw.
Proof. split; [done|]. unfold demo_draw. by repeat constructor. Qed.

Lemma service_polls_paced_witness :
  ∃ d1 d2 d3 st', run_service_refreshes listed_order PROD_SERVICE_INTERVALS demo_draw demo_ticks demo_poll_state = Some ([d1; d2; d3], st') ∧
    secs 5 <= d2 <= secs 120 ∧ secs 270 <= d3 <= secs 330.
Proof.
  destruct (service_polls_paced demo_from_value listed_order demo_ticks demo_poll_state [(Ok [], None)] demo_start demo_draw) as [(sleeps & Hrun & Hs) _].
  - exact demo_draw_ok.
  - constructor; [exact demo_draw_ok|by repeat constructor].
  - by repeat constructor.
  - assert (E : asked (service_refresh_turn listed_order) demo_ticks.*1 demo_poll_state = [Backoff; Jittered]) by (vm_compute; reflexivity).
    rewrite E in Hs. apply Forall2_cons_inv_l in Hs as (d1 & l1 & _ & Hs & ->). apply Forall2_cons_inv_l in Hs as (d2 & l2 & H2 & Hs & ->).
    apply Forall2_cons_inv_l in Hs as (d3 & l3 & H3 & Hs & ->). apply Forall2_nil_inv_l in Hs as ->. exists d1, d2, d3. eexists. split; [exact Hrun|]. by split.
Defined.
