(* ===== verification/DnsForward.v ===== *)
(** * Forwarded DNS queries: [src/tunnel/intercept/udp/{upstream,dns_dispatch}.rs], [.../proxy_resolve/]

    The queries of the embedded DNS server that are answered later: by an upstream
    resolver, or over the overlay by the peer of a wildcard domain.  Both tables are
    keyed by the DNS id; instants are in milliseconds.  The connections to peers are
    tasks of their own, which share a queue and a flag with the manager. *)

From S2P Require Import Prelude Utf8 Message Address DnsMatcher DnsServer IpAddr Services InterceptResolver HostTarget Flows.

(** ** Upstream (udp/mod.rs, udp/upstream.rs) *)

Definition DNS_UPSTREAM_TIMEOUT : Z := 5000.

Record PendingUpstream : Type := mkPendingUpstream {
  pu_server_addr : SocketAddr;
  pu_client_addr : SocketAddr;
  pu_at : Z
}.

Record UpstreamDns : Type := mkUpstream { servers : list SocketAddr; up_pending : gmap Z PendingUpstream }.

Definition message_id (bs : list Z) : Z := u16_be (get0 bs 0) (get0 bs 1).

(** [sends server]: does the socket take the datagram? *)
Definition forward (sends : SocketAddr → bool) (request : list Z) (server_addr client_addr : SocketAddr) (now : Z)
    (up : UpstreamDns) : bool * UpstreamDns :=
  let id := message_id request in
  if bool_decide (is_Some (up_pending up !! id)) then (true, up)
  else
    let any := existsb sends (servers up) in
    (any, if any then mkUpstream (servers up) (<[id := mkPendingUpstream server_addr client_addr now]> (up_pending up)) else up).

Definition match_response (response : list Z) (up : UpstreamDns) : option (SocketAddr * SocketAddr) * UpstreamDns :=
  if (Z.of_nat (length response) <? 2) then (None, up)
  else
    let id := message_id response in
    ((p ← up_pending up !! id; Some (pu_server_addr p, pu_client_addr p)), mkUpstream (servers up) (delete id (up_pending up))).

(** [duration_since] is zero when the clock is behind. *)
Definition young (timeout now at_ : Z) : bool := Z.max 0 (now - at_) <=? timeout.

Definition up_evict_expired (now : Z) (up : UpstreamDns) : UpstreamDns :=
  mkUpstream (servers up) (filter (λ kv, young DNS_UPSTREAM_TIMEOUT now (pu_at kv.2) = true) (up_pending up)).

(** ** The peer's answers (proxy_resolve/codec.rs) *)

(** The fields of the message that [serde] checks; [id] and [answer] are read. *)
Record WireAnswer : Type := mkWireAnswer {
  wa_type : Z; wa_ttl : Z; wa_priority : Z; wa_weight : Z; wa_port : Z; wa_name : string; wa_data : option string
}.
Record WireMsg : Type := mkWireMsg {
  wm_status : Z; wm_id : Z; wm_recursive : Z; wm_question : list (string * Z);
  wm_answer : option (list WireAnswer); wm_comment : string
}.
Record PeerResponse : Type := mkPeerResponse { pr_id : Z; pr_answers : option (list RespAnswer) }.

Definition needs_data (atype : Z) : bool := (atype =? 15) || (atype =? 16) || (atype =? 33).

Definition resp_answer (a : WireAnswer) : option RespAnswer :=
  d ← match wa_data a with
      | Some d => Some d
      | None => if needs_data (wa_type a) then None else Some EmptyString
      end;
  Some (mkAnswer (wa_type a) (wa_ttl a) (wa_priority a) (wa_weight a) (wa_port a) (bytes_of_string d)).

(** [from_slice] is [serde_json]'s; [as u16] wraps. *)
Definition parse_peer_response (from_slice : list Z → option WireMsg) (chunk : list Z) : option PeerResponse :=
  msg ← from_slice chunk;
  answers ← match wm_answer msg with
            | None => Some None
            | Some l => out ← mapM resp_answer l; Some (Some out)
            end;
  Some (mkPeerResponse (wm_id msg mod 65536) answers).

(** ** Peers (proxy_resolve/manager.rs, task.rs) *)

Definition PROXY_PENDING_TIMEOUT : Z := 5000.

Inductive ProxyEvent : Type := Data (chunk : list Z) | WriteFailed (id : Z).

Record ProxyJob : Type := mkJob { job_id : Z; job_json : list Z }.

(** What a connection's task shares with the manager: the jobs that wait, whether
    the task still receives them, and the flag it sets when it ends. *)
Record ProxyTask : Type := mkProxyTask { jobs : list ProxyJob; receives : bool; ended : bool }.

Record ProxyConnHandle : Type := mkHandle { h_task : Z; h_service : string }.

Record ProxyPending : Type := mkPending {
  pp_packet : list Z;
  pp_name_strlen : nat;
  pp_server_addr : SocketAddr;
  pp_client_addr : SocketAddr;
  pp_at : Z
}.

(** The manager, with the store of its connections' tasks. *)
Record ProxyDns : Type := mkProxyDns {
  p_conns : gmap string ProxyConnHandle;
  p_pending : gmap Z ProxyPending;
  p_tasks : gmap Z ProxyTask;
  p_next : Z
}.

Definition proxy_new : ProxyDns := mkProxyDns ∅ ∅ ∅ 0.

Definition handle_closed (h : ProxyConnHandle) (p : ProxyDns) : bool :=
  match p_tasks p !! h_task h with Some t => ended t | None => true end.

(** A new task and its handle. *)
Definition open_conn (service domain : string) (p : ProxyDns) : ProxyConnHandle * ProxyDns :=
  let h := mkHandle (p_next p) service in
  (h, mkProxyDns (<[domain := h]> (p_conns p)) (p_pending p) (<[p_next p := mkProxyTask [] true false]> (p_tasks p)) (p_next p + 1)).

Definition live_handle (service domain : string) (p : ProxyDns) : ProxyConnHandle * ProxyDns :=
  match p_conns p !! domain with
  | Some h => if handle_closed h p || negb (bool_decide (h_service h = service)) then open_conn service domain p else (h, p)
  | None => open_conn service domain p
  end.

Definition set_task (t : Z) (task : ProxyTask) (p : ProxyDns) : ProxyDns :=
  mkProxyDns (p_conns p) (p_pending p) (<[t := task]> (p_tasks p)) (p_next p).

(** [jobs_tx.send]: [None] when the receiver is gone. *)
Definition jobs_send (h : ProxyConnHandle) (job : ProxyJob) (p : ProxyDns) : option ProxyDns :=
  t ← p_tasks p !! h_task h;
  if receives t then Some (set_task (h_task h) (mkProxyTask (jobs t ++ [job]) true (ended t)) p) else None.

Definition send_job (service domain : string) (job : ProxyJob) (p : ProxyDns) : ProxyDns :=
  let '(h, p) := live_handle service domain p in
  match jobs_send h job p with
  | Some p => p
  | None =>
      let p := mkProxyDns (delete domain (p_conns p)) (p_pending p) (p_tasks p) (p_next p) in
      let '(fresh, p) := live_handle service domain p in
      default p (jobs_send fresh job p)
  end.

Definition handle_forward (service : option InterceptMatch) (q : ProxyQuery) (packet : list Z)
    (server_addr client_addr : SocketAddr) (now : Z) (recursion_available : bool) (p : ProxyDns)
    : option (list Z) * ProxyDns :=
  if bool_decide (is_Some (p_pending p !! pq_id q)) then (None, p)
  else
    match service with
    | None => (Some (format_resp_answers packet (pq_name_strlen q) DNS_SERVFAIL None 0 recursion_available), p)
    | Some m =>
        let p := send_job (m_service m) (pq_domain q) (mkJob (pq_id q) (pq_json q)) p in
        (None, mkProxyDns (p_conns p)
           (<[pq_id q := mkPending packet (pq_name_strlen q) server_addr client_addr now]> (p_pending p)) (p_tasks p) (p_next p))
    end.

Definition ensure_conn (service domain : string) (p : ProxyDns) : ProxyDns := (live_handle service domain p).2.

Definition take_pending (id : Z) (p : ProxyDns) : ProxyDns :=
  mkProxyDns (p_conns p) (delete id (p_pending p)) (p_tasks p) (p_next p).

Definition on_event (from_slice : list Z → option WireMsg) (ev : ProxyEvent) (recursion_available : bool) (p : ProxyDns)
    : option (list Z * SocketAddr * SocketAddr) * ProxyDns :=
  match ev with
  | WriteFailed id =>
      match p_pending p !! id with
      | None => (None, p)
      | Some pp =>
          (Some (format_resp_answers (pp_packet pp) (pp_name_strlen pp) DNS_SERVFAIL None 0 recursion_available,
             pp_server_addr pp, pp_client_addr pp), take_pending id p)
      end
  | Data chunk =>
      match parse_peer_response from_slice chunk with
      | None => (None, p)
      | Some resp =>
          match p_pending p !! pr_id resp with
          | None => (None, p)
          | Some pp =>
              (Some (format_resp_answers (pp_packet pp) (pp_name_strlen pp) DNS_NO_ERROR (pr_answers resp) 0 recursion_available,
                 pp_server_addr pp, pp_client_addr pp), take_pending (pr_id resp) p)
          end
      end
  end.

Definition p_evict_expired (now : Z) (p : ProxyDns) : ProxyDns :=
  mkProxyDns (filter (λ kv, handle_closed kv.2 p = false) (p_conns p))
    (filter (λ kv, young PROXY_PENDING_TIMEOUT now (pp_at kv.2) = true) (p_pending p)) (p_tasks p) (p_next p).

(** The turns of a task ([run_proxy_conn]): it writes the job that waits longest,
    whose write may fail, and ends, failing the jobs that wait ([fail_queued]). *)
Definition fail_queued (t : ProxyTask) : list ProxyEvent := map (λ j, WriteFailed (job_id j)) (jobs t).
Definition task_end (t : ProxyTask) : list ProxyEvent * ProxyTask := (fail_queued t, mkProxyTask [] false true).
Definition task_write (written : bool) (t : ProxyTask) : list ProxyEvent * ProxyTask :=
  match jobs t with
  | [] => ([], t)
  | job :: rest =>
      let t := mkProxyTask rest (receives t) (ended t) in
      if written then ([], t) else let '(evs, t) := task_end t in (WriteFailed (job_id job) :: evs, t)
  end.

(** ** The dispatch (udp/dns_dispatch.rs) *)

(** A reply: its bytes, from where and to whom. *)
Notation DnsReply := (list Z * SocketAddr * SocketAddr)%type.

Section dispatch.
Context `{JsonLib} `{IpNetLib}.
Context (from_slice : list Z → option WireMsg).

Record DnsState : Type := mkDnsState {
  ds_resolver : InterceptResolver;
  ds_upstream : option UpstreamDns;
  ds_proxy : option ProxyDns
}.

(** The actions that need an upstream or a proxy arise only where there is one. *)
Definition serve_dns_datagram (sends : SocketAddr → bool) (now : Z) (payload : list Z) (dst src : SocketAddr) (s : DnsState)
    : list DnsReply * DnsState :=
  let r := ds_resolver s in
  let ra := bool_decide (is_Some (ds_upstream s)) in
  let '(action, d) := handle_query (dns r) payload ra (bool_decide (is_Some (ds_proxy s))) in
  let r := mkResolver (entries r) (wildcards r) d (installed_configs r) in
  match action, ds_upstream s, ds_proxy s with
  | Respond bytes, up, p => ([(bytes, dst, src)], mkDnsState r up p)
  | ForwardUpstream on_send_failure, Some up, p =>
      let '(ok, up) := forward sends payload dst src now up in
      (if ok then [] else [(on_send_failure, dst, src)], mkDnsState r (Some up) p)
  | ForwardProxy q, up, Some p =>
      let '(now_resp, p) := handle_forward (proxy_service (pq_domain q) r) q payload dst src now ra p in
      (match now_resp with Some b => [(b, dst, src)] | None => [] end, mkDnsState r up (Some p))
  | RespondAndConnectProxy response domain, up, Some p =>
      let p := match proxy_service domain r with Some m => ensure_conn (m_service m) domain p | None => p end in
      ([(response, dst, src)], mkDnsState r up (Some p))
  | _, up, p => ([], mkDnsState r up p)
  end.

(** The other turns of [udp_intercept_loop] for DNS. *)
Definition upstream_response (response : list Z) (s : DnsState) : list DnsReply * DnsState :=
  match ds_upstream s with
  | None => ([], s)
  | Some up =>
      let '(to, up) := match_response response up in
      (match to with Some (server, client) => [(response, server, client)] | None => [] end,
       mkDnsState (ds_resolver s) (Some up) (ds_proxy s))
  end.

Definition proxy_event (ev : ProxyEvent) (s : DnsState) : list DnsReply * DnsState :=
  match ds_proxy s with
  | None => ([], s)
  | Some p =>
      let '(reply, p) := on_event from_slice ev (bool_decide (is_Some (ds_upstream s))) p in
      (option_list reply, mkDnsState (ds_resolver s) (ds_upstream s) (Some p))
  end.

Definition dns_tick (now : Z) (s : DnsState) : DnsState :=
  mkDnsState (ds_resolver s) (up_evict_expired now <$> ds_upstream s) (p_evict_expired now <$> ds_proxy s).

(** ** Histories *)

(** The state, the queries that came and the replies that went. *)
Record DnsHistory : Type := mkHistory {
  hs_state : DnsState;
  hs_asked : list DnsReply;
  hs_replies : list DnsReply
}.

(** Other tasks change the resolver, the connections' tasks and the handles. *)
Inductive dns_history_step : DnsHistory → DnsHistory → Prop :=
| hs_query sends now payload dst src s asked replies out s' :
    serve_dns_datagram sends now payload dst src s = (out, s') →
    dns_history_step (mkHistory s asked replies) (mkHistory s' (asked ++ [(payload, dst, src)]) (replies ++ out))
| hs_response response s asked replies out s' :
    upstream_response response s = (out, s') →
    dns_history_step (mkHistory s asked replies) (mkHistory s' asked (replies ++ out))
| hs_event ev s asked replies out s' :
    proxy_event ev s = (out, s') →
    dns_history_step (mkHistory s asked replies) (mkHistory s' asked (replies ++ out))
| hs_tick now s asked replies : dns_history_step (mkHistory s asked replies) (mkHistory (dns_tick now s) asked replies)
| hs_resolver r s asked replies :
    dns_history_step (mkHistory s asked replies) (mkHistory (mkDnsState r (ds_upstream s) (ds_proxy s)) asked replies)
| hs_task t task s p asked replies :
    ds_proxy s = Some p →
    dns_history_step (mkHistory s asked replies)
      (mkHistory (mkDnsState (ds_resolver s) (ds_upstream s) (Some (set_task t task p))) asked replies).

End dispatch.

(** ** Specification *)

(** To whom a message is, under which id. *)
Definition reply_key (m : DnsReply) : SocketAddr * SocketAddr * Z := (m.1.2, m.2, message_id m.1.1).
Definition count_key (k : SocketAddr * SocketAddr * Z) (l : list DnsReply) : nat :=
  length (List.filter (λ m, bool_decide (reply_key m = k)) l).

Arguments count_key : simpl never.

(** The requests in flight under a key. *)
Definition flight (k : SocketAddr * SocketAddr * Z) (server client : SocketAddr) : nat :=
  if bool_decide (server = k.1.1 ∧ client = k.1.2) then 1 else 0.
Definition up_flight (k : SocketAddr * SocketAddr * Z) (up : option UpstreamDns) : nat :=
  match (u ← up; up_pending u !! k.2) with Some p => flight k (pu_server_addr p) (pu_client_addr p) | None => 0 end.
Definition proxy_flight (k : SocketAddr * SocketAddr * Z) (p : option ProxyDns) : nat :=
  match (u ← p; p_pending u !! k.2) with Some pp => flight k (pp_server_addr pp) (pp_client_addr pp) | None => 0 end.

(** A pending request is filed under its packet's id. *)
Definition proxy_ok (p : option ProxyDns) : Prop :=
  ∀ u id pp, p = Some u → p_pending u !! id = Some pp → message_id (pp_packet pp) = id.

(** ** Lemmas: keys *)

Lemma replies_to_id packet n r : replies_to packet n r → message_id r = message_id packet.
Proof.
  intros (Ht & _). unfold message_id. destruct r as [|a [|b r]]; [done..|]. cbn in Ht. by injection Ht as -> ->.
Qed.

Lemma format_resp_answers_id packet n status answers addr ra :
  message_id (format_resp_answers packet n status answers addr ra) = message_id packet.
Proof. eapply replies_to_id, format_resp_answers_replies. Qed.

Lemma format_resp_id packet n status a ra : message_id (format_resp packet n status a ra) = message_id packet.
Proof. destruct a; apply format_resp_answers_id. Qed.

(** Each action of the router is under the query's id, and needs what it uses. *)
Lemma handle_query_id d packet up proxy :
  match (handle_query d packet up proxy).1 with
  | Respond r => message_id r = message_id packet
  | Drop => True
  | ForwardUpstream r => message_id r = message_id packet ∧ up = true
  | ForwardProxy q => pq_id q = message_id packet ∧ proxy = true
  | RespondAndConnectProxy r _ => message_id r = message_id packet ∧ proxy = true
  end.
Proof.
  unfold handle_query. destruct (parse_query packet) as [q|]; [|done]. cbv zeta.
  assert (Hf : match (if up && recursive q then ForwardUpstream (format_resp packet (name_strlen q) DNS_REFUSE None true)
      else Respond (format_resp packet (name_strlen q) DNS_REFUSE None up)) with
    | ForwardUpstream r => message_id r = message_id packet ∧ up = true
    | Respond r => message_id r = message_id packet | _ => False end).
  { destruct up; [destruct (recursive q)|]; cbn [andb]; try split; done || apply format_resp_id. }
  destruct (_ || _).
  - destruct (match from_utf8 _ with Some n => _ | None => _ end) as [[m|] d']; cbn [fst].
    + apply format_resp_id.
    + destruct (if up && recursive q then _ else _); done.
  - destruct (_ ≫= _) as [dom|]; cbn [fst]; [|by destruct (if up && recursive q then _ else _)].
    destruct proxy; destruct (proxied_type _); try apply format_resp_id; [done|]. split; [apply format_resp_id|done].
Qed.

Lemma count_key_app k l l' : count_key k (l ++ l') = (count_key k l + count_key k l')%nat.
Proof. unfold count_key. by rewrite List.filter_app, length_app. Qed.

Lemma count_key_one k m : count_key k [m] = if bool_decide (reply_key m = k) then 1%nat else 0%nat.
Proof. unfold count_key. cbn. by case_bool_decide. Qed.

(** A message's own share of a key: one if it is the key's. *)
Lemma flight_key (k : SocketAddr * SocketAddr * Z) bs server client :
  k.2 = message_id bs → flight k server client = count_key k [(bs, server, client)].
Proof.
  intros Hid. rewrite count_key_one. unfold flight. destruct k as [[s c] i]. cbn in *.
  unfold reply_key. cbn. case_bool_decide as H1; case_bool_decide as H2; try done.
  - destruct H1 as [-> ->]. by subst i.
  - destruct H1. by injection H2 as -> -> _.
Qed.

Lemma count_key_other (k : SocketAddr * SocketAddr * Z) bs server client : k.2 ≠ message_id bs → count_key k [(bs, server, client)] = 0%nat.
Proof. intros Hid. rewrite count_key_one, bool_decide_false; [done|]. intros <-. by apply Hid. Qed.

(** ** Lemmas: the tables *)

Lemma forward_flight k sends request server client now up :
  let '(ok, up') := forward sends request server client now up in
  (up_flight k (Some up') + (if ok then 0 else count_key k [(request, server, client)]) <=
    up_flight k (Some up) + count_key k [(request, server, client)])%nat.
Proof.
  unfold forward. case_bool_decide as Hp; [lia|]. destruct (existsb sends (servers up)); [|lia].
  unfold up_flight. cbn [mbind option_bind up_pending]. destruct (decide (k.2 = message_id request)) as [Hid|Hid].
  - rewrite Hid, lookup_insert_eq. cbn [pu_server_addr pu_client_addr]. rewrite (flight_key k request) by done. lia.
  - rewrite lookup_insert_ne by done. lia.
Qed.

Lemma match_response_flight k response up :
  let '(to, up') := match_response response up in
  (up_flight k (Some up') + count_key k (match to with Some (server, client) => [(response, server, client)] | None => [] end) <=
    up_flight k (Some up))%nat.
Proof.
  unfold match_response. destruct (_ <? 2); [unfold count_key; cbn; lia|].
  unfold up_flight. cbn [mbind option_bind up_pending]. destruct (decide (k.2 = message_id response)) as [Hid|Hid].
  - rewrite Hid, lookup_delete_eq. destruct (up_pending up !! message_id response) as [p|]; cbn [mbind option_bind].
    + rewrite (flight_key k response) by done. lia.
    + unfold count_key. cbn. lia.
  - rewrite lookup_delete_ne by done. destruct (up_pending up !! message_id response) as [p|]; cbn [mbind option_bind].
    + rewrite count_key_other by done. lia.
    + unfold count_key. cbn. lia.
Qed.

Lemma live_handle_pending service domain p : p_pending (live_handle service domain p).2 = p_pending p.
Proof. unfold live_handle. destruct (p_conns p !! domain); [destruct (_ || _)|]; done. Qed.

Lemma send_to_pending h job p p' : jobs_send h job p = Some p' → p_pending p' = p_pending p.
Proof. unfold jobs_send. intros (t & _ & H)%bind_Some. destruct (receives t); [by injection H as <-|done]. Qed.

Lemma send_job_pending service domain job p : p_pending (send_job service domain job p) = p_pending p.
Proof.
  unfold send_job. rewrite <- (live_handle_pending service domain p). destruct (live_handle service domain p) as [h p1]. cbn [snd].
  destruct (jobs_send h job p1) as [p2|] eqn:E; [by eapply send_to_pending|].
  set (p3 := mkProxyDns _ _ _ _). change (p_pending p1) with (p_pending p3). rewrite <- (live_handle_pending service domain p3).
  destruct (live_handle service domain p3) as [fresh p4]. cbn [snd].
  destruct (jobs_send fresh job p4) as [p5|] eqn:E5; [by eapply send_to_pending|done].
Qed.

Lemma handle_forward_flight k service q packet server client now ra p :
  pq_id q = message_id packet → proxy_ok (Some p) →
  let '(resp, p') := handle_forward service q packet server client now ra p in
  proxy_ok (Some p') ∧
  (proxy_flight k (Some p') + count_key k (match resp with Some b => [(b, server, client)] | None => [] end) <=
    proxy_flight k (Some p) + count_key k [(packet, server, client)])%nat.
Proof.
  intros Hid Hok. unfold handle_forward. case_bool_decide; [split; [done|unfold count_key at 1; cbn; lia]|].
  destruct service as [m|].
  - split.
    + intros u id pp [= <-]. cbn. rewrite send_job_pending. destruct (decide (id = pq_id q)) as [->|Hne].
      * rewrite lookup_insert_eq. by intros [= <-].
      * rewrite lookup_insert_ne by done. by apply Hok.
    + unfold proxy_flight. cbn [mbind option_bind p_pending]. rewrite send_job_pending. unfold count_key at 1. cbn [List.filter length].
      destruct (decide (k.2 = pq_id q)) as [Heq|Hne].
      * rewrite Heq, lookup_insert_eq. cbn [pp_server_addr pp_client_addr]. rewrite (flight_key k packet) by congruence. lia.
      * rewrite lookup_insert_ne by done. lia.
  - split; [done|]. rewrite !count_key_one. unfold reply_key. cbn [fst snd]. rewrite format_resp_answers_id. lia.
Qed.

Lemma on_event_flight k from_slice ev ra p :
  proxy_ok (Some p) →
  let '(reply, p') := on_event from_slice ev ra p in
  proxy_ok (Some p') ∧ (proxy_flight k (Some p') + count_key k (option_list reply) <= proxy_flight k (Some p))%nat.
Proof.
  intros Hok.
  assert (Htake : ∀ id pp b, p_pending p !! id = Some pp → message_id b = message_id (pp_packet pp) →
    proxy_ok (Some (take_pending id p)) ∧
    (proxy_flight k (Some (take_pending id p)) + count_key k [(b, pp_server_addr pp, pp_client_addr pp)] <= proxy_flight k (Some p))%nat).
  { intros id pp b Hpp Hb. rewrite (Hok p id pp eq_refl Hpp) in Hb. split.
    - intros u id' pp' [= <-]. cbn. intros [_ Hl]%lookup_delete_Some. by apply (Hok p).
    - unfold proxy_flight. cbn [mbind option_bind take_pending p_pending]. destruct (decide (k.2 = id)) as [Heq|Hne].
      + rewrite Heq, lookup_delete_eq, Hpp. rewrite (flight_key k b) by congruence. lia.
      + rewrite lookup_delete_ne by done. rewrite count_key_other by congruence. lia. }
  assert (Hnone : proxy_ok (Some p) ∧ (proxy_flight k (Some p) + count_key k (option_list (@None DnsReply)) <= proxy_flight k (Some p))%nat)
    by (split; [done|unfold count_key; cbn; lia]).
  destruct ev as [chunk|id]; cbn [on_event].
  - destruct (parse_peer_response from_slice chunk) as [resp|]; [|done].
    destruct (p_pending p !! pr_id resp) as [pp|] eqn:E; [|done]. apply (Htake _ pp); [done|apply format_resp_answers_id].
  - destruct (p_pending p !! id) as [pp|] eqn:E; [|done]. apply (Htake _ pp); [done|apply format_resp_answers_id].
Qed.

(** ** Lemmas: the turns of the loop *)

Section turns.
Context `{JsonLib} `{IpNetLib}.
Context (from_slice : list Z → option WireMsg).
Implicit Types (s : DnsState) (k : SocketAddr * SocketAddr * Z).

(** The requests in flight, upstream and over the overlay. *)
Definition in_flight k s : nat := up_flight k (ds_upstream s) + proxy_flight k (ds_proxy s).

Lemma serve_dns_datagram_flight k sends now payload dst src s :
  proxy_ok (ds_proxy s) →
  let '(out, s') := serve_dns_datagram sends now payload dst src s in
  proxy_ok (ds_proxy s') ∧ (in_flight k s' + count_key k out <= in_flight k s + count_key k [(payload, dst, src)])%nat.
Proof.
  intros Hok. unfold serve_dns_datagram.
  pose proof (handle_query_id (dns (ds_resolver s)) payload
    (bool_decide (is_Some (ds_upstream s))) (bool_decide (is_Some (ds_proxy s)))) as Hact.
  destruct (handle_query _ _ _ _) as [action d]. cbn [fst] in Hact.
  assert (Hkey : ∀ r, message_id r = message_id payload → count_key k [(r, dst, src)] = count_key k [(payload, dst, src)]).
  { intros r Hr. rewrite !count_key_one. unfold reply_key. cbn [fst snd]. by rewrite Hr. }
  assert (Hnil : ∀ l, l = [] → count_key k l = 0%nat) by (by intros ? ->).
  unfold in_flight. destruct action as [r| |r|q|r domain].
  - cbn. split; [done|]. rewrite Hkey by done. lia.
  - cbn. split; [done|]. rewrite Hnil by done. lia.
  - destruct Hact as [Hid _]. destruct (ds_upstream s) as [up|]; cbn; [|rewrite Hnil by done; split; [done|lia]].
    pose proof (forward_flight k sends payload dst src now up) as Hf. destruct (forward _ _ _ _ _ up) as [[] up']; cbn.
    + split; [done|]. rewrite Hnil by done. lia.
    + split; [done|]. rewrite Hkey by done. lia.
  - destruct Hact as [Hid _]. destruct (ds_proxy s) as [p|]; cbn; [|rewrite Hnil by done; split; [done|lia]].
    generalize (bool_decide (is_Some (ds_upstream s))). intros ra. match goal with |- context [handle_forward ?x] => generalize x end. intros sv.
    pose proof (handle_forward_flight k sv q payload dst src now ra p Hid Hok) as Hf.
    destruct (handle_forward _ _ _ _ _ _ _ p) as [resp p']; cbn. destruct Hf as [Hp' Hle]. split; [done|lia].
  - destruct Hact as [Hid _]. destruct (ds_proxy s) as [p|]; cbn; [|rewrite Hnil by done; split; [done|lia]].
    rewrite Hkey by done. case_match; [|split; [done|lia]].
    unfold ensure_conn, proxy_flight, proxy_ok. cbn [mbind option_bind]. rewrite live_handle_pending. split; [|lia].
    intros u id pp [= <-]. rewrite live_handle_pending. by apply Hok.
Qed.

Lemma upstream_response_flight k response s :
  let '(out, s') := upstream_response response s in
  ds_proxy s' = ds_proxy s ∧ (in_flight k s' + count_key k out <= in_flight k s)%nat.
Proof.
  unfold upstream_response, in_flight. destruct (ds_upstream s) as [up|] eqn:E; [|rewrite E; unfold count_key; cbn; split; [done|lia]].
  pose proof (match_response_flight k response up) as Hm. destruct (match_response response up) as [to up'].
  cbn [ds_proxy ds_upstream]. split; [done|]. lia.
Qed.

Lemma proxy_event_flight k ev s :
  proxy_ok (ds_proxy s) →
  let '(out, s') := proxy_event from_slice ev s in
  proxy_ok (ds_proxy s') ∧ (in_flight k s' + count_key k out <= in_flight k s)%nat.
Proof.
  intros Hok. unfold proxy_event, in_flight. destruct (ds_proxy s) as [p|] eqn:E.
  - pose proof (on_event_flight k from_slice ev (bool_decide (is_Some (ds_upstream s))) p Hok) as Hv.
    destruct (on_event _ _ _ _) as [reply p']. cbn [ds_proxy ds_upstream]. destruct Hv. split; [done|lia].
  - rewrite E. split; [done|]. unfold count_key. cbn. lia.
Qed.

Lemma filter_flight {A} (P : Z * A → Prop) `{!∀ x, Decision (P x)} (m : gmap Z A) id (f : A → nat) :
  (match filter P m !! id with Some x => f x | None => 0 end <= match m !! id with Some x => f x | None => 0 end)%nat.
Proof. rewrite map_lookup_filter. destruct (m !! id) as [x|]; cbn; [|lia]. case_guard; cbn; lia. Qed.

Lemma dns_tick_flight k now s :
  proxy_ok (ds_proxy s) → proxy_ok (ds_proxy (dns_tick now s)) ∧ (in_flight k (dns_tick now s) <= in_flight k s)%nat.
Proof.
  intros Hok. split.
  - intros u id pp Hu. cbn in Hu. destruct (ds_proxy s) as [p|]; [|done]. injection Hu as <-. cbn.
    intros [Hl _]%map_lookup_filter_Some. by apply (Hok p).
  - unfold in_flight. apply Nat.add_le_mono; unfold up_flight, proxy_flight, dns_tick; cbn [ds_upstream ds_proxy].
    + destruct (ds_upstream s) as [up|]; [|done]. apply (filter_flight _ _ _ (λ p, flight k (pu_server_addr p) (pu_client_addr p))).
    + destruct (ds_proxy s) as [p|]; [|done]. apply (filter_flight _ _ _ (λ p, flight k (pp_server_addr p) (pp_client_addr p))).
Qed.

(** Replies sent and requests in flight never exceed the queries asked. *)
Definition accounted (h : DnsHistory) : Prop :=
  proxy_ok (ds_proxy (hs_state h)) ∧
  ∀ k, (count_key k (hs_replies h) + in_flight k (hs_state h) <= count_key k (hs_asked h))%nat.

(** A turn that asks [ask] and sends [out] keeps the accounts. *)
Lemma turn_accounted s s' asked replies ask out :
  (∀ k, proxy_ok (ds_proxy s') ∧ (in_flight k s' + count_key k out <= in_flight k s + count_key k ask)%nat) →
  accounted (mkHistory s asked replies) → accounted (mkHistory s' (asked ++ ask) (replies ++ out)).
Proof.
  intros Ht [_ Hle]. cbn in Hle. split; cbn [hs_state hs_asked hs_replies].
  - apply (Ht ((V4 0, 0), (V4 0, 0), 0)).
  - intros k. destruct (Ht k) as [_ Htk]. specialize (Hle k). rewrite !count_key_app. lia.
Qed.

Lemma dns_history_step_accounted h h' : dns_history_step from_slice h h' → accounted h → accounted h'.
Proof.
  intros Hstep Hacc. pose proof (proj1 Hacc) as Hok.
  assert (Hquiet : ∀ k, count_key k [] = 0%nat) by done.
  destruct Hstep as [sends now payload dst src s asked replies out s' E|response s asked replies out s' E
    |ev s asked replies out s' E|now s asked replies|r s asked replies|t task s p asked replies Hp]; cbn in Hok.
  - apply (turn_accounted s); [intros k|done].
    pose proof (serve_dns_datagram_flight k sends now payload dst src s Hok) as Hd. by rewrite E in Hd.
  - rewrite <- (app_nil_r asked). apply (turn_accounted s); [intros k|done].
    pose proof (upstream_response_flight k response s) as Hd. rewrite E in Hd. destruct Hd as [-> Hd]. split; [done|lia].
  - rewrite <- (app_nil_r asked). apply (turn_accounted s); [intros k|done].
    pose proof (proxy_event_flight k ev s Hok) as Hd. rewrite E in Hd. destruct Hd as [Hp Hd]. split; [done|lia].
  - rewrite <- (app_nil_r asked), <- (app_nil_r replies). apply (turn_accounted s); [intros k|done].
    destruct (dns_tick_flight k now s Hok) as [Hp Hd]. split; [done|]. lia.
  - rewrite <- (app_nil_r asked), <- (app_nil_r replies). apply (turn_accounted s); [intros k|done]. split; [done|].
    unfold in_flight. cbn. lia.
  - rewrite <- (app_nil_r asked), <- (app_nil_r replies). apply (turn_accounted s); [intros k|done]. split.
    + intros u id pp [= <-]. cbn. by apply Hok.
    + unfold in_flight. cbn [ds_upstream ds_proxy]. rewrite Hp. change (proxy_flight k (Some (set_task t task p))) with (proxy_flight k (Some p)). lia.
Qed.

(** ** Property *)

(** C14. The DNS replies are accounted for: from tables that hold no request, whatever
    queries, resolver answers, peer events and ticks come and in whatever order, and
    however the configs and the connections to peers change, the replies sent from a
    server to a client under an id, with the requests still in flight there, never
    outnumber the queries that client sent that server under that id: no query is
    answered twice and no client gets a reply to a query that is not its own. *)
Theorem dns_replies_accounted s h k :
  (∀ up, ds_upstream s = Some up → up_pending up = ∅) → (∀ p, ds_proxy s = Some p → p_pending p = ∅) →
  rtc (dns_history_step from_slice) (mkHistory s [] []) h →
  (count_key k (hs_replies h) + in_flight k (hs_state h) <= count_key k (hs_asked h))%nat.
Proof.
  intros Hup Hp Hrtc. enough (accounted h) as [_ Hle] by apply Hle.
  apply (rtc_ind_r (R := dns_history_step from_slice) accounted (mkHistory s [] []));
    [|intros; by eapply dns_history_step_accounted|done].
  split; cbn [hs_state hs_asked hs_replies].
  - intros u id pp Hu. by rewrite (Hp u Hu).
  - intros k'. unfold in_flight, up_flight, proxy_flight.
    destruct (ds_upstream s) as [up|]; cbn [mbind option_bind]; [rewrite (Hup up eq_refl), lookup_empty|];
      (destruct (ds_proxy s) as [p|]; cbn [mbind option_bind]; [rewrite (Hp p eq_refl), lookup_empty|]); done.
Qed.

End turns.

(** ** Witness *)

(** One upstream server; a query for a.Example.com, the answer and a duplicate of it. *)
Definition demo_nothing : list Z → option WireMsg := λ _, None.
Definition demo_upstream : @DnsState string_json cidr_nets :=
  mkDnsState sample_start (Some (mkUpstream [(V4 134744072, 53)] ∅)) None.
Definition demo_client : SocketAddr := (V4 3232235522, 40000).
Definition demo_server : SocketAddr := (V4 1681915906, 53).
Definition demo_answer : list Z := [18; 52; 129; 128].

Definition demo_asked : list DnsReply * @DnsState string_json cidr_nets :=
  serve_dns_datagram (λ _, true) 0 sample_query demo_server demo_client demo_upstream.
Definition demo_answered := upstream_response demo_answer demo_asked.2.
Definition demo_repeated := upstream_response demo_answer demo_answered.2.
Definition demo_history : @DnsHistory string_json cidr_nets :=
  mkHistory demo_repeated.2 [(sample_query, demo_server, demo_client)] (demo_asked.1 ++ demo_answered.1 ++ demo_repeated.1).

Lemma demo_history_reached : rtc (dns_history_step demo_nothing) (mkHistory demo_upstream [] []) demo_history.
Proof.
  apply (rtc_l _ _ (mkHistory demo_asked.2 ([] ++ [(sample_query, demo_server, demo_client)]) ([] ++ demo_asked.1)));
    [by econstructor; apply surjective_pairing|].
  apply (rtc_l _ _ (mkHistory demo_answered.2 ([] ++ [(sample_query, demo_server, demo_client)]) (([] ++ demo_asked.1) ++ demo_answered.1)));
    [by eapply hs_response; apply surjective_pairing|].
  apply rtc_once. unfold demo_history. rewrite !app_assoc. eapply hs_response. apply surjective_pairing.
Qed.

Definition demo_key : SocketAddr * SocketAddr * Z := (demo_server, demo_client, 4660).

Lemma dns_replies_accounted_witness :
  hs_replies demo_history = [(demo_answer, demo_server, demo_client)] ∧
  (count_key demo_key (hs_replies demo_history) +
   in_flight demo_key (hs_state demo_history) <=
   count_key demo_key (hs_asked demo_history))%nat.
Proof.
  split; [reflexivity|].
  apply (dns_replies_accounted demo_nothing demo_upstream demo_history demo_key);
    [by intros up [= <-]|done|exact demo_history_reached].
Defined.
