(* ===== verification/DnsTcp.v ===== *)
(** * DNS over TCP: [src/tunnel/intercept/dns_tcp/]

    The embedded DNS server over a TCP stream: messages framed by their length, one
    query after the other on a connection until it ends, each answered locally, by an
    upstream over a TCP connection of its own, or by a peer over an overlay
    connection of its own.  What the network does in the turn of a query is a [turn]. *)

From S2P Require Import Prelude Utf8 Message Address DnsMatcher DnsServer IpAddr Services InterceptResolver HostTarget Flows DnsForward.

(** ** Framing (framing.rs) *)

Definition DNS_TCP_MAX_MSG : Z := 4096.

(** What comes after the last byte of a stream: its end, or an error or silence until
    the timeout. *)
Inductive ending : Type := Eof | Broken.

Inductive ReadError : Type := Truncated | Oversized | Io.

Definition read_exact (n : nat) (e : ending) (bs : list Z) : result ReadError (list Z * list Z) :=
  if bool_decide (n <= length bs)%nat then Ok (take n bs, drop n bs)
  else Err match e with Eof => Truncated | Broken => Io end.

(** The message with what is left of the stream. *)
Definition read_tcp_dns_msg (e : ending) (bs : list Z) : result ReadError (option (list Z * list Z)) :=
  match bs, e with
  | [], Eof => Ok None
  | [], Broken => Err Io
  | hi :: bs, _ =>
      '(lo, bs) ← read_exact 1 e bs;
      let len := u16_be hi (get0 lo 0) in
      if DNS_TCP_MAX_MSG <? len then Err Oversized
      else body ← read_exact (Z.to_nat len) e bs; Ok (Some body)
  end.

Definition framed (b : list Z) : list Z := be16 (Z.of_nat (length b)) ++ b.
Arguments framed : simpl never.

(** Whether it succeeded, and the bytes the stream took: [room] is where it breaks. *)
Definition write_framed_response (room : option nat) (response : list Z) : bool * list Z :=
  if 65535 <? Z.of_nat (length response) then (false, [])
  else match room with None => (true, framed response) | Some n => (false, take n (framed response)) end.

(** ** Upstream over TCP (forward_tcp.rs) *)

(** What a server does with an attempt before its timeout. *)
Record attempt : Type := mkAttempt { connects : bool; takes : bool; sends_back : list Z; then_ends : ending }.

(** The query is at least a header long: the handler parsed it. *)
Fixpoint read_matching (fuel : nat) (e : ending) (query bs : list Z) : option (list Z) :=
  match fuel with
  | O => None
  | S fuel =>
      match read_tcp_dns_msg e bs with
      | Ok (Some (response, rest)) =>
          if bool_decide (2 <= length response)%nat && bool_decide (take 2 response = take 2 query) then Some response
          else read_matching fuel e query rest
      | _ => None
      end
  end.

Definition forward_one_upstream (a : attempt) (query : list Z) : option (list Z) :=
  if negb (connects a) || (65535 <? Z.of_nat (length query)) || negb (takes a) then None
  else read_matching (S (length (sends_back a))) (then_ends a) query (sends_back a).

(** [attempts n] is the [n]-th attempt; with the servers tried. *)
Fixpoint forward_upstream_tcp (n : nat) (attempts : nat → attempt) (servers : list SocketAddr) (query : list Z)
    : list SocketAddr * option (list Z) :=
  match servers with
  | [] => ([], None)
  | server :: servers =>
      match forward_one_upstream (attempts n) query with
      | Some resp => ([server], Some resp)
      | None => let '(tried, resp) := forward_upstream_tcp (S n) attempts servers query in (server :: tried, resp)
      end
  end.

(** ** Peers over TCP (proxy_conn.rs) *)

(** The peer of an overlay connection: is it dialed, is the request written, and the
    chunks it sends before the connection ends or is silent too long. *)
Record peer : Type := mkPeer { dials : bool; accepts : bool; peer_chunks : list (list Z) }.

Inductive effect : Type :=
| Asked (server : SocketAddr)
| Dialed (m : InterceptMatch)
| PeerWrote (json : list Z)
| PeerClosed.

Section service.
Context `{JsonLib} `{IpNetLib}.
Context (from_slice : list Z → option WireMsg).

Fixpoint read_completion (chunks : list (list Z)) (q : ProxyQuery) (packet : list Z) (ra : bool) : option (list Z) :=
  match chunks with
  | [] => None
  | chunk :: chunks =>
      match parse_peer_response from_slice chunk with
      | Some resp =>
          if pr_id resp =? pq_id q
          then Some (format_resp_answers packet (pq_name_strlen q) DNS_NO_ERROR (pr_answers resp) 0 ra)
          else read_completion chunks q packet ra
      | None => read_completion chunks q packet ra
      end
  end.

Definition complete_proxy_over_conn (p : peer) (q : ProxyQuery) (packet : list Z) (ra : bool) : result unit (option (list Z)) :=
  if negb (accepts p) then Ok None
  else match read_completion (peer_chunks p) q packet ra with Some b => Ok (Some b) | None => Err tt end.

Definition resolve_proxy_over_tcp (p : peer) (r : InterceptResolver) (q : ProxyQuery) (packet : list Z)
    (upstream_available : bool) : list effect * result unit (list Z) :=
  let servfail := format_resp_answers packet (pq_name_strlen q) DNS_SERVFAIL None 0 upstream_available in
  match proxy_service (pq_domain q) r with
  | None => ([], Ok servfail)
  | Some m =>
      if negb (dials p) then ([Dialed m], Ok servfail)
      else
        ([Dialed m; PeerWrote (pq_json q); PeerClosed],
          match complete_proxy_over_conn p q packet upstream_available with
          | Ok (Some response) => Ok response
          | Ok None => Ok servfail
          | Err tt => Err tt
          end)
  end.

(** ** The service (service.rs) *)

(** The turn of a query: does it come before the idle timeout, what other tasks did
    to the resolver meanwhile, what upstreams and peers do, and where the client's
    stream breaks. *)
Record turn : Type := mkTurn {
  in_time : bool;
  meanwhile : InterceptResolver → InterceptResolver;
  attempts : nat → attempt;
  the_peer : peer;
  room : option nat
}.

(** [None] closes the client's connection. *)
Definition answer_query (t : turn) (upstream_servers : list SocketAddr) (msg : list Z) (r : InterceptResolver)
    : option (list Z) * list effect * InterceptResolver :=
  let upstream_available := negb (bool_decide (upstream_servers = [])) in
  let '(action, d) := handle_query (dns r) msg upstream_available true in
  let r := mkResolver (entries r) (wildcards r) d (installed_configs r) in
  match action with
  | Respond response => (Some response, [], r)
  | Drop => (None, [], r)
  | ForwardUpstream on_send_failure =>
      let '(tried, resp) := forward_upstream_tcp 0 (attempts t) upstream_servers msg in
      (Some (default on_send_failure resp), map Asked tried, r)
  | ForwardProxy q =>
      let '(effs, resp) := resolve_proxy_over_tcp (the_peer t) r q msg upstream_available in
      (match resp with Ok response => Some response | Err _ => None end, effs, r)
  | RespondAndConnectProxy response _ => (Some response, [], r)
  end.

(** A query read, its reply, what it did to the network. *)
Record exchange : Type := mkExchange { x_query : list Z; x_reply : option (list Z); x_effects : list effect }.

(** The exchanges of a connection with the bytes its client got, from the [n]-th turn
    on; [None] is out of fuel. *)
Fixpoint serve_dns_over_tcp (fuel : nat) (env : nat → turn) (n : nat) (e : ending) (bs : list Z)
    (upstream_servers : list SocketAddr) (r : InterceptResolver) : option (list exchange * list Z * InterceptResolver) :=
  match fuel with
  | O => None
  | S fuel =>
      let t := env n in
      let r := meanwhile t r in
      if negb (in_time t) then Some ([], [], r)
      else
        match read_tcp_dns_msg e bs with
        | Ok (Some (msg, rest)) =>
            let '(reply, effs, r) := answer_query t upstream_servers msg r in
            let x := mkExchange msg reply effs in
            match reply with
            | None => Some ([x], [], r)
            | Some response =>
                let '(sent, bytes) := write_framed_response (room t) response in
                if sent : bool
                then '(xs, out, r) ← serve_dns_over_tcp fuel env (S n) e rest upstream_servers r;
                     Some (x :: xs, bytes ++ out, r)
                else Some ([x], bytes, r)
            end
        | _ => Some ([], [], r)
        end
  end.

End service.

(** ** Lemmas: framing *)

Lemma read_exact_app n e b rest : length b = n → read_exact n e (b ++ rest) = Ok (b, rest).
Proof.
  intros <-. unfold read_exact. rewrite bool_decide_eq_true_2 by (rewrite length_app; lia). by rewrite take_app_length, drop_app_length.
Qed.

Lemma read_exact_inv n e bs b rest : read_exact n e bs = Ok (b, rest) → bs = b ++ rest ∧ length b = n.
Proof.
  unfold read_exact. case_bool_decide; [|done]. intros [= <- <-]. by rewrite take_drop, length_take_le.
Qed.

Lemma length_framed b : length (framed b) = S (S (length b)).
Proof. done. Qed.

Lemma read_framed e b rest : Z.of_nat (length b) <= DNS_TCP_MAX_MSG → read_tcp_dns_msg e (framed b ++ rest) = Ok (Some (b, rest)).
Proof.
  unfold DNS_TCP_MAX_MSG. intros Hb. unfold framed, be16. cbn [app read_tcp_dns_msg].
  match goal with |- context [read_exact 1 e (?z :: ?l)] => change (z :: l) with ([z] ++ l) end.
  rewrite read_exact_app by done. cbn [mbind result_bind]. change (get0 [?x] 0) with x.
  rewrite u16_be16 by lia. unfold DNS_TCP_MAX_MSG. rewrite (proj2 (Z.ltb_ge _ _)) by lia. by rewrite read_exact_app by lia.
Qed.

Lemma read_tcp_dns_msg_inv e bs msg rest :
  read_tcp_dns_msg e bs = Ok (Some (msg, rest)) →
  Z.of_nat (length msg) <= DNS_TCP_MAX_MSG ∧ (length rest < length bs)%nat ∧ (bytes_ok bs → bs = framed msg ++ rest ∧ bytes_ok rest ∧ bytes_ok msg).
Proof.
  destruct bs as [|hi bs]; cbn; [by destruct e|].
  destruct (read_exact 1 e bs) as [[lo bs']|] eqn:El; cbn; [|done]. apply read_exact_inv in El as [-> Hlo].
  destruct lo as [|lo [|]]; try discriminate Hlo. change (get0 [lo] 0) with lo.
  destruct (DNS_TCP_MAX_MSG <? _) eqn:Em; [done|]. destruct (read_exact _ e bs') as [[b r]|] eqn:Eb; cbn; [|done]. intros [= -> ->].
  apply read_exact_inv in Eb as [-> Hb]. bool_to_prop. unfold DNS_TCP_MAX_MSG in *.
  split; [lia|]. split; [cbn; rewrite length_app; lia|].
  intros [Hhi [Hlo' [Hmsg Hrest]%Forall_app]%Forall_cons]%Forall_cons. split_and!; [|done|done].
  unfold framed. rewrite Hb, Z2Nat.id by (unfold byte_ok, u16_be in *; lia). by rewrite be16_u16.
Qed.

Lemma write_framed_prefix room b : (write_framed_response room b).2 `prefix_of` framed b.
Proof.
  unfold write_framed_response. destruct (65535 <? _); [apply prefix_nil|]. destruct room; [|done].
  cbn. eexists. symmetry. apply take_drop.
Qed.

Lemma write_framed_sent room b : (write_framed_response room b).1 = true → (write_framed_response room b).2 = framed b.
Proof. unfold write_framed_response. destruct (65535 <? _); [done|]. by destruct room. Qed.

(** ** Lemmas: upstream *)

(** More fuel reads the same. *)
Lemma read_matching_enough fuel1 fuel2 e query bs :
  (length bs < fuel1)%nat → (length bs < fuel2)%nat → read_matching fuel1 e query bs = read_matching fuel2 e query bs.
Proof.
  revert fuel2 bs. induction fuel1 as [|fuel1 IH]; intros [|fuel2] bs H1 H2; try lia. cbn.
  destruct (read_tcp_dns_msg e bs) as [[[response rest]|]|] eqn:E; try done.
  destruct (_ && _); [done|]. apply read_tcp_dns_msg_inv in E as (_ & Hl & _). apply IH; lia.
Qed.

Definition matches (query response : list Z) : Prop :=
  (2 <= length response)%nat ∧ Z.of_nat (length response) <= DNS_TCP_MAX_MSG ∧ take 2 response = take 2 query.

Lemma read_matching_sound fuel e query bs response : read_matching fuel e query bs = Some response → matches query response.
Proof.
  revert bs. induction fuel as [|fuel IH]; intros bs; cbn; [done|].
  destruct (read_tcp_dns_msg e bs) as [[[r rest]|]|] eqn:E; try done. apply read_tcp_dns_msg_inv in E as (Hl & _ & _).
  destruct (_ && _) eqn:Em; [|by apply IH]. intros [= ->]. by apply andb_true_iff in Em as [?%bool_decide_eq_true ?%bool_decide_eq_true].
Qed.

Lemma forward_upstream_sound n attempts servers query :
  let '(tried, resp) := forward_upstream_tcp n attempts servers query in
  tried `prefix_of` servers ∧ match resp with Some b => matches query b ∧ tried ≠ [] | None => tried = servers end.
Proof.
  revert n. induction servers as [|server servers IH]; intros n; cbn; [done|].
  destruct (forward_one_upstream (attempts n) query) as [b|] eqn:E.
  - split; [by apply prefix_cons, prefix_nil|]. split; [|done]. unfold forward_one_upstream in E.
    destruct (_ || _); [done|]. by apply read_matching_sound in E.
  - specialize (IH (S n)). destruct (forward_upstream_tcp (S n) attempts servers query) as [tried resp]. destruct IH as [Hp Hr].
    split; [by apply prefix_cons|]. destruct resp as [b|]; [|by subst]. by destruct Hr.
Qed.

(** ** Lemmas: a query *)

(** A reply of the handler itself. *)
Definition local_reply (packet : list Z) (q : ParsedQuery) (r : list Z) : Prop :=
  ∃ status a ra, r = format_resp packet (name_strlen q) status a ra.

Lemma handle_query_local d packet up proxy :
  match parse_query packet with
  | None => (handle_query d packet up proxy).1 = Drop
  | Some q =>
      match (handle_query d packet up proxy).1 with
      | Respond r | ForwardUpstream r | RespondAndConnectProxy r _ => local_reply packet q r
      | Drop => False
      | ForwardProxy pq => pq_name_strlen pq = name_strlen q ∧ pq_id pq = message_id packet
      end
  end.
Proof.
  unfold handle_query. destruct (parse_query packet) as [q|]; [|done]. cbv zeta.
  assert (Hl : ∀ status a ra, local_reply packet q (format_resp packet (name_strlen q) status a ra)) by (intros; by do 3 eexists).
  destruct (_ || _).
  - destruct (match from_utf8 _ with Some _ => _ | None => _ end) as [[m|] d']; cbn [fst]; [apply Hl|]. destruct (_ && _); apply Hl.
  - destruct (_ ← _; _) as [domain|]; cbn [fst]; [|destruct (_ && _); apply Hl].
    destruct proxy; cbn [fst]; destruct (proxied_type _); cbn [fst]; first [apply Hl|by split].
Qed.

Lemma parse_query_header packet q : parse_query packet = Some q → (12 <= length packet)%nat.
Proof.
  unfold parse_query. destruct (_ || _) eqn:E; [done|]. intros _. apply orb_false_iff in E as [E _]. bool_to_prop.
  change (Z.of_nat DNS_HEADER_LEN) with 12 in E. lia.
Qed.

(** A reply under the id of the query, one the stream takes. *)
Definition replies (query r : list Z) : Prop := take 2 r = take 2 query.

Lemma replies_to_replies packet q r : parse_query packet = Some q → replies_to packet (name_strlen q) r → replies packet r.
Proof.
  intros Hq (Hid & _). apply parse_query_header in Hq. unfold replies. rewrite Hid. by destruct packet as [|a [|b packet]]; cbn in Hq; try lia.
Qed.

Lemma local_reply_ok packet q r : parse_query packet = Some q → local_reply packet q r → replies_to packet (name_strlen q) r.
Proof. intros _ (status & a & ra & ->). destruct a; apply format_resp_answers_replies. Qed.

Lemma local_reply_short packet q r :
  bytes_ok packet → parse_query packet = Some q → local_reply packet q r → Z.of_nat (length r) <= 65535.
Proof.
  intros Hb Hq (status & a & ra & ->). pose proof (strlen_bound packet q Hb Hq) as Hn.
  pose proof (format_resp_bound packet (name_strlen q) status a ra Hn) as Hl. unfold DNS_BUF in Hl. lia.
Qed.

(** ** Lemmas: a turn *)

Section turns.
Context `{JsonLib} `{IpNetLib}.
Context (from_slice : list Z → option WireMsg).
Implicit Types (t : turn) (r : InterceptResolver) (x : exchange).

(** A reply is the handler's own or the peer's, built for the query, or the message of
    an upstream that was asked; a query without one was malformed or lost its peer. *)
Definition exchange_ok (upstream_servers : list SocketAddr) x : Prop :=
  match x_reply x, parse_query (x_query x) with
  | Some b, Some q =>
      replies (x_query x) b ∧
      (replies_to (x_query x) (name_strlen q) b ∨ ∃ server, server ∈ upstream_servers ∧ Asked server ∈ x_effects x)
  | None, Some _ => ∃ m json, x_effects x = [Dialed m; PeerWrote json; PeerClosed]
  | None, None => x_effects x = []
  | Some _, None => False
  end.

Lemma read_completion_replies chunks q packet ra b :
  read_completion from_slice chunks q packet ra = Some b → replies_to packet (pq_name_strlen q) b.
Proof.
  induction chunks as [|chunk chunks IH]; cbn; [done|]. destruct (parse_peer_response _ _) as [resp|]; [|done].
  destruct (_ =? _); [|done]. intros [= <-]. apply format_resp_answers_replies.
Qed.

Lemma resolve_proxy_replies p r q packet ra :
  match resolve_proxy_over_tcp from_slice p r q packet ra with
  | (effs, Ok b) => replies_to packet (pq_name_strlen q) b
  | (effs, Err _) => ∃ m json, effs = [Dialed m; PeerWrote json; PeerClosed]
  end.
Proof.
  unfold resolve_proxy_over_tcp. destruct (proxy_service _ r) as [m|]; [|apply format_resp_answers_replies].
  destruct (negb (dials p)); [apply format_resp_answers_replies|]. unfold complete_proxy_over_conn.
  destruct (negb (accepts p)); [apply format_resp_answers_replies|].
  destruct (read_completion _ _ _ _ _) as [b|] eqn:E; [by apply read_completion_replies in E|by do 2 eexists].
Qed.

Lemma answer_ok t servers msg r :
  let '(reply, effs, r') := answer_query from_slice t servers msg r in exchange_ok servers (mkExchange msg reply effs).
Proof.
  unfold answer_query, exchange_ok. cbv zeta. cbn [x_query].
  pose proof (handle_query_local (dns r) msg (negb (bool_decide (servers = []))) true) as Hl.
  destruct (handle_query _ _ _ _) as [action d]. cbn [fst] in Hl. destruct (parse_query msg) as [q|] eqn:Hq; [|by subst action].
  assert (Hlocal : ∀ b, local_reply msg q b → replies msg b ∧ replies_to msg (name_strlen q) b).
  { intros b Hb. apply (local_reply_ok _ _ _ Hq) in Hb. split; [by eapply replies_to_replies|done]. }
  destruct action as [b| |b|pq|b dom]; cbn [x_reply x_effects].
  - destruct (Hlocal b Hl). auto.
  - done.
  - pose proof (forward_upstream_sound 0 (attempts t) servers msg) as Hf.
    destruct (forward_upstream_tcp _ _ _ _) as [tried resp]. destruct Hf as [Hp Hr]. cbn [x_reply x_effects].
    destruct resp as [b'|]; cbn [default]; [|destruct (Hlocal b Hl); auto].
    destruct Hr as [(_ & _ & Hid) Hne]. split; [done|]. right. destruct tried as [|server tried]; [done|]. exists server.
    split; [|cbn; apply list_elem_of_here]. destruct Hp as [k ->]. apply list_elem_of_here.
  - pose proof (resolve_proxy_replies (the_peer t) (mkResolver (entries r) (wildcards r) d (installed_configs r)) pq msg
      (negb (bool_decide (servers = [])))) as Hp. destruct (resolve_proxy_over_tcp _ _ _ _ _ _) as [effs [b|[]]]; cbn [x_reply x_effects]; [|done].
    destruct Hl as [Hn _]. rewrite Hn in Hp. split; [by eapply replies_to_replies|by left].
  - destruct (Hlocal b Hl). auto.
Qed.

(** The bytes the client got: all replies but the last whole. *)
Definition out_ok (xs : list exchange) (out : list Z) : Prop :=
  concat (map framed (omap x_reply (removelast xs))) `prefix_of` out ∧ out `prefix_of` concat (map framed (omap x_reply xs)).

Lemma serve_ok fuel env n e bs servers r :
  bytes_ok bs → (length bs < fuel)%nat →
  ∃ xs out r', serve_dns_over_tcp from_slice fuel env n e bs servers r = Some (xs, out, r') ∧
    (∃ rest, bs = concat (map framed (map x_query xs)) ++ rest) ∧ out_ok xs out ∧ Forall (exchange_ok servers) xs.
Proof.
  revert n bs r. induction fuel as [|fuel IH]; intros n bs r Hb Hl; [lia|]. cbn [serve_dns_over_tcp]. cbv zeta.
  assert (Hend : ∃ xs out r', Some ([], [], meanwhile (env n) r) = Some (xs, out, r') ∧
    (∃ rest, bs = concat (map framed (map x_query xs)) ++ rest) ∧ out_ok xs out ∧ Forall (exchange_ok servers) xs).
  { exists [], [], (meanwhile (env n) r). split_and!; [done|by exists bs|by split|done]. }
  destruct (negb (in_time (env n))); [exact Hend|].
  destruct (read_tcp_dns_msg e bs) as [[[msg rest]|]|] eqn:Er; [|exact Hend|exact Hend].
  apply read_tcp_dns_msg_inv in Er as (_ & Hlen & Hr). destruct (Hr Hb) as (-> & Hrest & _).
  pose proof (answer_ok (env n) servers msg (meanwhile (env n) r)) as Ha.
  destruct (answer_query _ _ _ _ _) as [[reply effs] r1]. destruct reply as [b|].
  - pose proof (write_framed_prefix (room (env n)) b) as Hw. pose proof (write_framed_sent (room (env n)) b) as Hs.
    destruct (write_framed_response _ b) as [[] bytes]; cbn [fst snd] in *.
    + rewrite (Hs eq_refl) in *. destruct (IH (S n) rest r1 Hrest ltac:(lia)) as (xs & out & r' & -> & (rest' & Hq) & Ho & Hx). cbn.
      do 3 eexists. split; [done|]. split_and!.
      * exists rest'. cbn. by rewrite <- app_assoc, <- Hq.
      * destruct Ho as [Ho1 Ho2]. split; [|cbn; by apply prefix_app].
        destruct xs as [|x' xs]; [cbn; apply prefix_nil|]. cbn [removelast omap list_omap map concat]. by apply prefix_app.
      * by constructor.
    + do 3 eexists. split; [done|]. split_and!; [exists rest; cbn; by rewrite app_nil_r| |by constructor].
      split; [apply prefix_nil|]. cbn. by rewrite app_nil_r.
  - do 3 eexists. split; [done|]. split_and!; [exists rest; cbn; by rewrite app_nil_r| |by constructor]. split; apply prefix_nil.
Qed.

(** What the network must do for every query to be answered: the peer, when it takes
    the request, answers it, in answers of a size. *)
Definition peer_helps (p : peer) (query : list Z) : Prop :=
  (dials p = true → accepts p = true →
    ∃ chunk resp, chunk ∈ peer_chunks p ∧ parse_peer_response from_slice chunk = Some resp ∧ pr_id resp = message_id query) ∧
  ∀ chunk resp l, chunk ∈ peer_chunks p → parse_peer_response from_slice chunk = Some resp → pr_answers resp = Some l →
    Forall (λ a, Z.of_nat (length (data a)) < 65535) l.

Lemma read_completion_helped chunks q packet ra pq :
  bytes_ok packet → parse_query packet = Some q → pq_name_strlen pq = name_strlen q → pq_id pq = message_id packet →
  (∃ chunk resp, chunk ∈ chunks ∧ parse_peer_response from_slice chunk = Some resp ∧ pr_id resp = message_id packet) →
  (∀ chunk resp l, chunk ∈ chunks → parse_peer_response from_slice chunk = Some resp → pr_answers resp = Some l →
    Forall (λ a, Z.of_nat (length (data a)) < 65535) l) →
  ∃ b, read_completion from_slice chunks pq packet ra = Some b ∧ Z.of_nat (length b) <= 65535.
Proof.
  intros Hb Hq Hn Hid. induction chunks as [|chunk chunks IH]; [by intros (? & ? & ?%not_elem_of_nil & _)|].
  intros (c & resp & Hin & Hc & Hr) Hs. cbn.
  assert (IH' : c ≠ chunk → ∃ b, read_completion from_slice chunks pq packet ra = Some b ∧ Z.of_nat (length b) <= 65535).
  { intros Hne. apply IH; [exists c, resp; set_solver|]. intros c' resp' l Hin'. apply Hs. set_solver. }
  destruct (decide (c = chunk)) as [->|Hne].
  - rewrite Hc, Hid, Hr, Z.eqb_refl, Hn. eexists. split; [done|].
    enough (Z.of_nat (length (format_resp_answers packet (name_strlen q) DNS_NO_ERROR (pr_answers resp) 0 ra)) <= 4098) by lia.
    apply format_resp_answers_bound; [exact (strlen_bound _ _ Hb Hq)|]. destruct (pr_answers resp) eqn:E; [|done]. eapply Hs; [set_solver|done|done].
  - destruct (parse_peer_response from_slice chunk) as [resp'|] eqn:Hc'; [|by apply IH']. destruct (_ =? _); [|by apply IH'].
    eexists. split; [done|]. rewrite Hn.
    enough (Z.of_nat (length (format_resp_answers packet (name_strlen q) DNS_NO_ERROR (pr_answers resp') 0 ra)) <= 4098) by lia.
    apply format_resp_answers_bound; [exact (strlen_bound _ _ Hb Hq)|]. destruct (pr_answers resp') eqn:E; [|done].
    eapply (Hs chunk resp'); [set_solver|done|done].
Qed.

Lemma servfail_short packet q ra :
  bytes_ok packet → parse_query packet = Some q → Z.of_nat (length (format_resp_answers packet (name_strlen q) DNS_SERVFAIL None 0 ra)) <= 65535.
Proof.
  intros Hb Hq. enough (Z.of_nat (length (format_resp_answers packet (name_strlen q) DNS_SERVFAIL None 0 ra)) <= 4098) by lia.
  apply format_resp_answers_bound; [exact (strlen_bound _ _ Hb Hq)|exact I].
Qed.

Lemma answer_helped t servers msg q r :
  bytes_ok msg → parse_query msg = Some q → peer_helps (the_peer t) msg →
  ∃ b, (answer_query from_slice t servers msg r).1.1 = Some b ∧ Z.of_nat (length b) <= 65535.
Proof.
  intros Hb Hq [Hc Hs]. unfold answer_query. cbv zeta.
  pose proof (handle_query_local (dns r) msg (negb (bool_decide (servers = []))) true) as Hl. rewrite Hq in Hl.
  destruct (handle_query _ _ _ _) as [action d]. cbn [fst] in Hl.
  pose proof (local_reply_short msg q) as Hlocal.
  destruct action as [b| |b|pq|b dom]; cbn [fst]; [eauto|done| | |eauto].
  - pose proof (forward_upstream_sound 0 (attempts t) servers msg) as Hf.
    destruct (forward_upstream_tcp _ _ _ _) as [tried resp]. destruct Hf as [_ Hr]. cbn [fst].
    destruct resp as [b'|]; cbn [default]; [|eauto]. destruct Hr as [(_ & Hlen & _) _].
    exists b'. split; [done|]. unfold DNS_TCP_MAX_MSG in Hlen. lia.
  - destruct Hl as [Hn Hid]. unfold resolve_proxy_over_tcp. rewrite Hn. pose proof (servfail_short msg q (negb (bool_decide (servers = []))) Hb Hq) as Hsf.
    destruct (proxy_service _ _) as [m|]; [|eauto]. destruct (dials (the_peer t)); cbn [negb]; [|eauto].
    unfold complete_proxy_over_conn. destruct (accepts (the_peer t)); cbn [negb]; [|eauto].
    destruct (read_completion_helped (peer_chunks (the_peer t)) q msg (negb (bool_decide (servers = []))) pq Hb Hq Hn Hid) as (b & -> & Hlen); eauto.
Qed.

Lemma serve_helped fuel env n queries servers r :
  (length (concat (map framed queries)) < fuel)%nat →
  Forall (λ query, bytes_ok query ∧ is_Some (parse_query query)) queries →
  (∀ k query, queries !! k = Some query →
    in_time (env (n + k)%nat) = true ∧ room (env (n + k)%nat) = None ∧ peer_helps (the_peer (env (n + k)%nat)) query) →
  ∃ xs out r' sent, serve_dns_over_tcp from_slice fuel env n Eof (concat (map framed queries)) servers r = Some (xs, out, r') ∧
    map x_query xs = queries ∧ map x_reply xs = map Some sent ∧ out = concat (map framed sent).
Proof.
  revert n queries r. induction fuel as [|fuel IH]; intros n queries r Hf Hq Henv; [lia|].
  cbn [serve_dns_over_tcp]. cbv zeta. destruct queries as [|query queries].
  - exists [], [], (meanwhile (env n) r), []. cbn. by destruct (in_time (env n)).
  - destruct (Henv 0%nat query eq_refl) as (Ht & Hroom & Hhelp). rewrite Nat.add_0_r in Ht, Hroom, Hhelp. rewrite Ht. cbn [negb map concat].
    apply Forall_cons in Hq as [[Hb [q Hq]] Hqs].
    assert (Hsize : Z.of_nat (length query) <= DNS_TCP_MAX_MSG) by (by destruct (parse_query_inv query q Hb Hq) as [[_ ?] _]).
    rewrite read_framed by done. destruct (answer_helped (env n) servers query q (meanwhile (env n) r) Hb Hq Hhelp) as (b & Ha & Hlb).
    destruct (answer_query _ _ _ _ _) as [[reply effs] r1]. cbn in Ha. subst reply.
    unfold write_framed_response. rewrite (proj2 (Z.ltb_ge _ _)) by done. rewrite Hroom.
    destruct (IH (S n) queries r1) as (xs & out & r' & sent & -> & Hxq & Hxr & ->); [|done| |].
    + cbn in Hf. rewrite length_app, length_framed in Hf. lia.
    + intros k query' Hk. rewrite Nat.add_succ_comm. by apply Henv.
    + cbn. exists (mkExchange query (Some b) effs :: xs), (framed b ++ concat (map framed sent)), r', (b :: sent).
      cbn. by rewrite Hxq, Hxr.
Qed.

(** ** Lemmas: the same query over UDP *)

(** The events of a peer's connection for the manager of the UDP path, one by one. *)
Fixpoint proxy_events (evs : list ProxyEvent) (s : DnsState) : list DnsReply * DnsState :=
  match evs with
  | [] => ([], s)
  | ev :: evs => let '(out, s) := proxy_event from_slice ev s in let '(more, s) := proxy_events evs s in (out ++ more, s)
  end.

(** What its task tells the manager of a peer: chunks, or that the write failed. *)
Definition peer_events (id : Z) (p : peer) : list ProxyEvent :=
  if dials p && accepts p then map Data (peer_chunks p) else [WriteFailed id].

Lemma proxy_events_quiet evs r up p :
  p_pending p = ∅ → proxy_events evs (mkDnsState r up (Some p)) = ([], mkDnsState r up (Some p)).
Proof.
  intros Hp. induction evs as [|ev evs IH]; [done|]. cbn [proxy_events]. unfold proxy_event. cbn [ds_proxy ds_upstream ds_resolver].
  assert (on_event from_slice ev (bool_decide (is_Some up)) p = (None, p)) as ->; [|cbn; by rewrite IH].
  destruct ev as [chunk|id]; cbn; [destruct (parse_peer_response _ chunk)|]; rewrite ?Hp, ?lookup_empty; done.
Qed.

Lemma proxy_events_chunks chunks r up p q packet server client now :
  p_pending p = {[pq_id q := mkPending packet (pq_name_strlen q) server client now]} →
  ∃ p', proxy_events (map Data chunks) (mkDnsState r up (Some p)) =
    (match read_completion from_slice chunks q packet (bool_decide (is_Some up)) with Some b => [(b, server, client)] | None => [] end,
     mkDnsState r up (Some p')).
Proof.
  intros Hp. revert p Hp. induction chunks as [|chunk chunks IH]; intros p Hp; [by eexists|].
  cbn [map proxy_events read_completion]. unfold proxy_event. cbn [ds_proxy ds_upstream ds_resolver on_event].
  destruct (parse_peer_response from_slice chunk) as [resp|].
  - rewrite Hp. destruct (pr_id resp =? pq_id q) eqn:E; bool_to_prop.
    + rewrite E, lookup_singleton_eq. cbn. rewrite proxy_events_quiet; [by eexists|].
      cbn. by rewrite Hp, delete_singleton_eq.
    + rewrite lookup_singleton_ne by done. cbn. destruct (IH p Hp) as [p' ->]. by eexists.
  - cbn. destruct (IH p Hp) as [p' ->]. by eexists.
Qed.

End turns.

(** ** Properties *)

Section properties.
Context `{JsonLib} `{IpNetLib}.
Context (from_slice : list Z → option WireMsg).

(** Whatever the client, the upstreams, the peers and the other tasks do, serving a
    connection ends - within as many turns as the stream has bytes - and what it read
    of the stream is a sequence of framed queries, each answered at most once and in
    order: the bytes the client got are the framed replies, every one but the last
    whole; each reply is under its query's id and is the handler's or the peer's
    answer to that very question or the message of an upstream that was asked; and the
    connection is closed without a reply only for a query that does not parse or one
    whose peer was dialed, asked, closed and did not answer. *)
Theorem dns_tcp_exchanges env e bs upstream_servers r fuel :
  bytes_ok bs → (length bs < fuel)%nat →
  ∃ xs out r', serve_dns_over_tcp from_slice fuel env 0 e bs upstream_servers r = Some (xs, out, r') ∧
    (∃ rest, bs = concat (map framed (map x_query xs)) ++ rest) ∧
    concat (map framed (omap x_reply (removelast xs))) `prefix_of` out ∧
    out `prefix_of` concat (map framed (omap x_reply xs)) ∧
    Forall (exchange_ok upstream_servers) xs.
Proof.
  intros Hb Hf. destruct (serve_ok from_slice fuel env 0 e bs upstream_servers r Hb Hf) as (xs & out & r' & Hs & Hr & [Ho1 Ho2] & Hx).
  exists xs, out, r'. by split_and!.
Qed.

(** C15. Every query is answered: when well-formed queries come in time one after the
    other, the client's stream takes what is written, and a peer that takes a request
    answers it, then whatever the upstreams do every query has exactly one reply, in
    the order of the queries, whole, under its query's id. *)
Theorem dns_tcp_answers_all env queries upstream_servers r fuel :
  (length (concat (map framed queries)) < fuel)%nat →
  Forall (λ query, bytes_ok query ∧ is_Some (parse_query query)) queries →
  (∀ k query, queries !! k = Some query → in_time (env k) = true ∧ room (env k) = None ∧ peer_helps from_slice (the_peer (env k)) query) →
  ∃ xs r' sent, serve_dns_over_tcp from_slice fuel env 0 Eof (concat (map framed queries)) upstream_servers r
      = Some (xs, concat (map framed sent), r') ∧
    map x_query xs = queries ∧ Forall2 replies queries sent.
Proof.
  intros Hf Hq Henv. destruct (serve_helped from_slice fuel env 0 queries upstream_servers r Hf Hq Henv) as (xs & out & r' & sent & Hs & Hxq & Hxr & ->).
  exists xs, r', sent. split_and!; [done|done|].
  assert (Hb : bytes_ok (concat (map framed queries))).
  { clear -Hq. induction Hq as [|query queries [Hb [q Hp]] _ IH]; [constructor|]. cbn. apply Forall_app_2; [|done].
    unfold framed. apply Forall_app_2; [|done]. repeat constructor; unfold byte_ok; apply Z.mod_pos_bound; lia. }
  destruct (serve_ok from_slice fuel env 0 Eof _ upstream_servers r Hb Hf) as (xs' & out' & r'' & Hs' & _ & _ & Hx).
  rewrite Hs in Hs'. injection Hs' as <- <- <-. subst queries. clear -Hxr Hx.
  revert sent Hxr. induction Hx as [|x xs Hx _ IH]; intros [|b sent] Hxr; try discriminate Hxr; [constructor|].
  injection Hxr as Hb Hxr. constructor; [|by apply IH]. unfold exchange_ok in Hx. rewrite Hb in Hx.
  destruct (parse_query (x_query x)); [by destruct Hx|done].
Qed.


End properties.

(** ** Witnesses *)

(** A TXT query of a wildcard domain, whose peer sends a chunk that does not parse and
    then the answer; and an A query that an upstream answers, after a message of
    another id. *)
Definition demo_txt : list Z := encode_query 4660 256 (encode_labels sample_labels) NS_T_TXT.
Definition demo_other : list Z := encode_query 2 256 (encode_labels [bytes_of_string "other"; bytes_of_string "org"]) NS_T_A.
Definition demo_slice (chunk : list Z) : option WireMsg :=
  match chunk with
  | [1] => Some (mkWireMsg 0 4660 1 [] (Some [mkWireAnswer 16 60 0 0 0 "a" (Some "hello"%string)]) "")
  | _ => None
  end.
Definition demo_peer : peer := mkPeer true true [[0]; [1]].
Definition demo_reply : list Z := [0; 2; 129; 128].
Definition demo_attempt : attempt := mkAttempt true true (framed [9; 9] ++ framed demo_reply) Broken.
Definition demo_turn : @turn string_json cidr_nets := mkTurn true (λ r, r) (λ _, demo_attempt) demo_peer None.
Definition demo_deaf : @turn string_json cidr_nets := mkTurn true (λ r, r) (λ _, demo_attempt) (mkPeer false false []) None.
Definition demo_env (n : nat) : @turn string_json cidr_nets := match n with O => demo_turn | _ => demo_deaf end.
Definition demo_dns : list SocketAddr := [(V4 134744072, 53)].

Definition demo_served (bs : list Z) :=
  serve_dns_over_tcp demo_slice 200 demo_env 0 Eof bs demo_dns sample_resolver.

Lemma demo_queries_ok : Forall (λ query, bytes_ok query ∧ is_Some (parse_query query)) [demo_txt; demo_other].
Proof. by_compute. Qed.

Lemma dns_tcp_exchanges_witness :
  (λ '(xs, _, _), map x_reply xs !! 1%nat) <$> demo_served (framed demo_txt ++ framed demo_other ++ [0]) = Some (Some (Some demo_reply)) ∧
  ∃ xs out r', demo_served (framed demo_txt ++ framed demo_other ++ [0]) = Some (xs, out, r') ∧
    (∃ rest, framed demo_txt ++ framed demo_other ++ [0] = concat (map framed (map x_query xs)) ++ rest) ∧
    concat (map framed (omap x_reply (removelast xs))) `prefix_of` out ∧
    out `prefix_of` concat (map framed (omap x_reply xs)) ∧
    Forall (exchange_ok demo_dns) xs.
Proof.
  split; [vm_compute; reflexivity|].
  apply (dns_tcp_exchanges demo_slice demo_env Eof (framed demo_txt ++ framed demo_other ++ [0]) demo_dns sample_resolver 200); by_compute.
Defined.

Lemma dns_tcp_answers_all_witness :
  ∃ xs r' sent, demo_served (concat (map framed [demo_txt; demo_other])) = Some (xs, concat (map framed sent), r') ∧
    map x_query xs = [demo_txt; demo_other] ∧ Forall2 replies [demo_txt; demo_other] sent.
Proof.
  apply (dns_tcp_answers_all demo_slice demo_env [demo_txt; demo_other] demo_dns sample_resolver 200); [by_compute|exact demo_queries_ok|].
  intros [|[|k]] query Hk; [| |discriminate Hk]; (split; [reflexivity|]; split; [reflexivity|]); injection Hk as <-; split.
  - intros _ _. exists [1]. eexists. split; [by_compute|]. split; reflexivity.
  - intros chunk resp l Hin. cbn in Hin. apply elem_of_cons in Hin as [->|[->|[]%not_elem_of_nil]%elem_of_cons]; [discriminate|].
    intros [= <-] [= <-]. repeat constructor.
  - discriminate.
  - intros chunk resp l []%not_elem_of_nil.
Defined.

Definition demo_lone : @turn string_json cidr_nets := mkTurn true (λ r, r) (λ _, mkAttempt false false [] Eof) demo_peer None.
Definition demo_src : SocketAddr := (V4 3232235522, 40000).

