(* ===== verification/Splice.v ===== *)
(** * The byte proxy: [src/tunnel/proxy.rs], [tunnel/intercept/stream.rs]

    A socket spliced onto a connection: two pumps that run side by side until each has
    ended, half-closing its destination, then the full close of the connection.  The
    pumps are state machines that an arbitrary sequence of completed operations
    drives; with the halves of Conn they carry the bytes of one socket to another. *)

From S2P Require Import Prelude Utf8 Message EdgeWire ChannelState Async Crypto Conn.

Definition PROXY_BUF : Z := 16384 - 17.

(** ** Operations

    An operation a pump awaited, with its result.  The error of a write to the
    connection is the [io::Error::other] of an [EdgeError], a text here; a
    [write_all] that fails has written some of the bytes. *)
Inductive io : Type :=
| SockRead (r : result string (list Z))
| ZitiWrite (b : list Z) (r : result string unit)
| ZitiCloseWrite (r : result string unit)
| ZitiRead (r : result string (option (list Z)))
| SockWriteAll (b : list Z) (r : result (string * nat) unit)
| SockShutdown (r : result string unit)
| ZitiClose (r : result string unit).

(** ** The pumps *)

(** Where a direction is: it awaits the next operation, or is done with a result. *)
Inductive s2z : Type :=
| UpRead
| UpWrite (buf : list Z)
| UpCloseWrite (res : result string unit)
| UpDone (res : result string unit).

Inductive z2s : Type :=
| DownRead
| DownWrite (bytes : list Z)
| DownShutdown (res : result string unit)
| DownDone (res : result string unit).

(** A read fills the buffer at most. *)
Definition pump_sock_to_ziti (p : s2z) (e : io) : option s2z :=
  match p, e with
  | UpRead, SockRead (Err err) => Some (UpCloseWrite (Err err))
  | UpRead, SockRead (Ok buf) =>
      if negb (Z.of_nat (length buf) <=? PROXY_BUF) then None
      else Some (match buf with [] => UpCloseWrite (Ok tt) | _ => UpWrite buf end)
  | UpWrite buf, ZitiWrite b r =>
      if bool_decide (b = buf) then Some (match r with Ok _ => UpRead | Err err => UpCloseWrite (Err err) end) else None
  | UpCloseWrite res, ZitiCloseWrite _ => Some (UpDone res)
  | _, _ => None
  end.

Definition pump_ziti_to_sock (p : z2s) (e : io) : option z2s :=
  match p, e with
  | DownRead, ZitiRead (Ok (Some bytes)) => Some (DownWrite bytes)
  | DownRead, ZitiRead (Ok None) => Some (DownShutdown (Ok tt))
  | DownRead, ZitiRead (Err err) => Some (DownShutdown (Err err))
  | DownWrite bytes, SockWriteAll b r =>
      if bool_decide (b = bytes) then Some (match r with Ok _ => DownRead | Err (err, _) => DownShutdown (Err err) end) else None
  | DownShutdown res, SockShutdown _ => Some (DownDone res)
  | _, _ => None
  end.

(** ** The splice *)

Inductive splice : Type :=
| Joined (up : s2z) (down : z2s)
| Closing (up down : result string unit)
| Spliced (res : result string unit).

(** [r_s2z.and(r_z2s)]. *)
Definition and_result (a b : result string unit) : result string unit := match a with Ok _ => b | Err e => Err e end.

(** [join!] waits for both. *)
Definition join (up : s2z) (down : z2s) : splice :=
  match up, down with
  | UpDone a, DownDone b => Closing a b
  | _, _ => Joined up down
  end.

Definition is_up (e : io) : bool :=
  match e with SockRead _ | ZitiWrite _ _ | ZitiCloseWrite _ => true | _ => false end.

Definition splice_step (s : splice) (e : io) : option splice :=
  match s with
  | Joined up down =>
      if is_up e then up ← pump_sock_to_ziti up e; Some (join up down)
      else down ← pump_ziti_to_sock down e; Some (join up down)
  | Closing a b => match e with ZitiClose _ => Some (Spliced (and_result a b)) | _ => None end
  | Spliced _ => None
  end.

Definition splice_start : splice := Joined UpRead DownRead.

Fixpoint splice_run (tr : list io) (s : splice) : option splice :=
  match tr with
  | [] => Some s
  | e :: tr => s ← splice_step s e; splice_run tr s
  end.

(** The [poll_shutdown] of an intercepted stream, from the inner one's: [None] is
    [Pending]. *)
Definition poll_shutdown (inner : option (result string unit)) : option (result string unit) :=
  match inner with
  | Some res => Some res
  | None => Some (Ok tt)
  end.

(** ** What a run read and wrote *)

Definition sock_reads (tr : list io) : list (list Z) :=
  omap (λ e, match e with SockRead (Ok (x :: b)) => Some (x :: b) | _ => None end) tr.

(** The calls on the write half, in order. *)
Definition ziti_calls (tr : list io) : list call :=
  omap (λ e, match e with
             | ZitiWrite b _ => Some (CallWrite b)
             | ZitiCloseWrite _ => Some CallCloseWrite
             | ZitiClose _ => Some CallClose
             | _ => None
             end) tr.

Definition ziti_reads (tr : list io) : list (list Z) :=
  omap (λ e, match e with ZitiRead (Ok (Some b)) => Some b | _ => None end) tr.

(** The operations on the socket's write side: [None] is its shutdown. *)
Definition sock_calls (tr : list io) : list (option (list Z)) :=
  omap (λ e, match e with
             | SockWriteAll b _ => Some (Some b)
             | SockShutdown _ => Some None
             | _ => None
             end) tr.

(** The bytes the socket took. *)
Definition taken_by (e : io) : list Z :=
  match e with SockWriteAll b (Ok _) => b | SockWriteAll b (Err (_, n)) => take n b | _ => [] end.
Definition sock_bytes (tr : list io) : list Z := flat_map taken_by tr.

(** The calls on the write half with whether they succeeded. *)
Definition ziti_answers (tr : list io) : list (call * bool) :=
  omap (λ e, match e with
             | ZitiWrite b r => Some (CallWrite b, is_ok r)
             | ZitiCloseWrite r => Some (CallCloseWrite, is_ok r)
             | ZitiClose r => Some (CallClose, is_ok r)
             | _ => None
             end) tr.

(** ** What a splice still has to do *)

(** The operations it awaits. *)
Inductive awaited : Type :=
| ASockRead | AZitiWrite (b : list Z) | AZitiCloseWrite
| AZitiRead | ASockWrite (b : list Z) | ASockShutdown | AZitiClose.

Definition awaits_up (p : s2z) : list awaited :=
  match p with UpRead => [ASockRead] | UpWrite b => [AZitiWrite b] | UpCloseWrite _ => [AZitiCloseWrite] | UpDone _ => [] end.
Definition awaits_down (p : z2s) : list awaited :=
  match p with DownRead => [AZitiRead] | DownWrite b => [ASockWrite b] | DownShutdown _ => [ASockShutdown] | DownDone _ => [] end.
Definition awaits (s : splice) : list awaited :=
  match s with Joined up down => awaits_up up ++ awaits_down down | Closing _ _ => [AZitiClose] | Spliced _ => [] end.

(** Is an operation done the completion of an awaited one? *)
Definition completes (a : awaited) (e : io) : bool :=
  match a, e with
  | ASockRead, SockRead (Ok b) => Z.of_nat (length b) <=? PROXY_BUF
  | ASockRead, SockRead (Err _) | AZitiCloseWrite, ZitiCloseWrite _ | AZitiRead, ZitiRead _ | ASockShutdown, SockShutdown _
  | AZitiClose, ZitiClose _ => true
  | AZitiWrite b, ZitiWrite b' _ | ASockWrite b, SockWriteAll b' _ => bool_decide (b' = b)
  | _, _ => false
  end.

(** The calls it owes each side, if nothing more is read. *)
Definition owed_up (p : s2z) : list call :=
  match p with
  | UpRead | UpCloseWrite _ => [CallCloseWrite]
  | UpWrite b => [CallWrite b; CallCloseWrite]
  | UpDone _ => []
  end.
Definition owed_down (p : z2s) : list (option (list Z)) :=
  match p with DownRead | DownShutdown _ => [None] | DownWrite b => [Some b; None] | DownDone _ => [] end.
Definition owed_ziti (s : splice) : list call :=
  match s with Joined up _ => owed_up up ++ [CallClose] | Closing _ _ => [CallClose] | Spliced _ => [] end.
Definition owed_sock (s : splice) : list (option (list Z)) :=
  match s with Joined _ down => owed_down down | _ => [] end.

(** ** Lemmas: runs *)

Lemma splice_run_app tr1 tr2 s : splice_run (tr1 ++ tr2) s = splice_run tr1 s ≫= splice_run tr2.
Proof. revert s. induction tr1 as [|e tr1 IH]; intros s; [done|]. cbn. by destruct (splice_step s e); cbn. Qed.

(** Induction along a run, the last operation first. *)
Lemma splice_run_ind (P : list io → splice → Prop) :
  P [] splice_start →
  (∀ tr s e s', splice_run tr splice_start = Some s → P tr s → splice_step s e = Some s' → P (tr ++ [e]) s') →
  ∀ tr s, splice_run tr splice_start = Some s → P tr s.
Proof.
  intros H0 Hstep tr. induction tr as [|e tr IH] using rev_ind; intros s.
  - by intros [= <-].
  - rewrite splice_run_app. intros (s1 & Hrun & Hs)%bind_Some. cbn in Hs. apply bind_Some in Hs as (s2 & He & [= ->]).
    eapply Hstep; [exact Hrun|by apply IH|exact He].
Qed.

Lemma owed_ziti_join up down : owed_ziti (join up down) = owed_up up ++ [CallClose].
Proof. by destruct up, down. Qed.
Lemma owed_sock_join up down : owed_sock (join up down) = owed_down down.
Proof. by destruct up, down. Qed.

(** What one operation of a pump adds to what was read, called and owed. *)
Lemma up_step_owed p e p' :
  is_up e = true → pump_sock_to_ziti p e = Some p' →
  (sock_reads [e] = [] ∧ ziti_calls [e] ++ owed_up p' = owed_up p) ∨
  (∃ b, sock_reads [e] = [b] ∧ ziti_calls [e] = [] ∧ owed_up p = [CallCloseWrite] ∧ owed_up p' = [CallWrite b; CallCloseWrite]).
Proof.
  destruct e as [[[|x b]|err]|b r|r| | | |]; try done; intros _; destruct p as [|b'|res|res]; try done; cbn.
  - intros [= <-]. by left.
  - destruct (negb _); [done|]. intros [= <-]. right. by eexists.
  - intros [= <-]. by left.
  - case_bool_decide as Hb; [|done]. subst b'. intros [= <-]. left. by destruct r.
  - intros [= <-]. by left.
Qed.

Lemma down_step_owed p e p' :
  pump_ziti_to_sock p e = Some p' →
  (ziti_reads [e] = [] ∧ sock_calls [e] ++ owed_down p' = owed_down p) ∨
  (∃ b, ziti_reads [e] = [b] ∧ sock_calls [e] = [] ∧ owed_down p = [None] ∧ owed_down p' = [Some b; None]).
Proof.
  destruct e as [| | |[[b|]|err]|b r|r|]; try done; destruct p as [|b'|res|res]; try done; cbn.
  - intros [= <-]. right. by eexists.
  - intros [= <-]. by left.
  - intros [= <-]. by left.
  - case_bool_decide as Hb; [|done]. subst b'. intros [= <-]. left. by destruct r as [|[]].
  - intros [= <-]. by left.
Qed.

(** The operations left in a direction if nothing more is read. *)
Definition left_up (p : s2z) : nat := match p with UpRead => 2 | UpWrite _ => 3 | UpCloseWrite _ => 1 | UpDone _ => 0 end.
Definition left_down (p : z2s) : nat := match p with DownRead => 2 | DownWrite _ => 3 | DownShutdown _ => 1 | DownDone _ => 0 end.
Definition left_splice (s : splice) : nat :=
  match s with Joined up down => left_up up + left_down down + 1 | Closing _ _ => 1 | Spliced _ => 0 end.

Lemma left_join up down : left_splice (join up down) = (left_up up + left_down down + 1)%nat.
Proof. by destruct up, down. Qed.

Lemma up_step_left p e p' :
  is_up e = true → pump_sock_to_ziti p e = Some p' → (left_up p' + 1 <= 2 * length (sock_reads [e]) + left_up p)%nat.
Proof.
  destruct e as [[[|x b]|err]|b r|r| | | |]; try done; intros _; destruct p as [|b'|res|res]; try done; cbn.
  - intros [= <-]. cbn. lia.
  - destruct (negb _); [done|]. intros [= <-]. cbn. lia.
  - intros [= <-]. cbn. lia.
  - case_bool_decide; [|done]. intros [= <-]. destruct r; cbn; lia.
  - intros [= <-]. cbn. lia.
Qed.

Lemma down_step_left p e p' :
  pump_ziti_to_sock p e = Some p' → (left_down p' + 1 <= 2 * length (ziti_reads [e]) + left_down p)%nat.
Proof.
  destruct e as [| | |[[b|]|err]|b r|r|]; try done; destruct p as [|b'|res|res]; try done; cbn.
  - intros [= <-]. cbn. lia.
  - intros [= <-]. cbn. lia.
  - intros [= <-]. cbn. lia.
  - case_bool_decide; [|done]. intros [= <-]. destruct r as [|[]]; cbn; lia.
  - intros [= <-]. cbn. lia.
Qed.

(** Operations of the other direction read and call nothing of this one. *)
Lemma up_only e : is_up e = true → ziti_reads [e] = [] ∧ sock_calls [e] = [].
Proof. by destruct e as [[]| | | | | |]. Qed.
Lemma down_only p e p' : pump_ziti_to_sock p e = Some p' → sock_reads [e] = [] ∧ ziti_calls [e] = [].
Proof. destruct p, e as [| | |[[]|]| | |]; done. Qed.

Lemma up_completes p a e :
  a ∈ awaits_up p → completes a e = true → is_up e = true ∧ is_Some (pump_sock_to_ziti p e).
Proof.
  destruct p; cbn; try (by intros ?%not_elem_of_nil); intros ->%list_elem_of_singleton; destruct e as [[]| | | | | |]; try done;
    cbn; intros Hc; rewrite ?Hc; (split; [done|]); by eexists.
Qed.

Lemma down_completes p a e :
  a ∈ awaits_down p → completes a e = true → is_up e = false ∧ is_Some (pump_ziti_to_sock p e).
Proof.
  destruct p; cbn; try (by intros ?%not_elem_of_nil); intros ->%list_elem_of_singleton; destruct e as [| | |[[]|]| | |]; try done;
    cbn; intros Hc; rewrite ?Hc; (split; [done|]); by eexists.
Qed.

Lemma joined_open tr s :
  splice_run tr splice_start = Some s → match s with Joined (UpDone _) (DownDone _) => False | _ => True end.
Proof.
  revert tr s. apply splice_run_ind; [done|]. intros tr s e s' _ _ Hstep.
  destruct s as [up down|a b|res]; cbn in Hstep; [|by destruct e; simplify_eq|done].
  destruct (is_up e); apply bind_Some in Hstep as (p' & _ & [= <-]); [by destruct p', down|by destruct up, p'].
Qed.

(** What a run called and what it owes. *)
Lemma splice_owes tr s :
  splice_run tr splice_start = Some s →
  ziti_calls tr ++ owed_ziti s = map CallWrite (sock_reads tr) ++ [CallCloseWrite; CallClose] ∧
  sock_calls tr ++ owed_sock s = map Some (ziti_reads tr) ++ [None].
Proof.
  revert tr s. apply splice_run_ind; [by split|]. intros tr s e s' _ (Hz & Hs) Hstep.
  unfold ziti_calls, sock_calls, sock_reads, ziti_reads in *. rewrite !omap_app, !map_app, <- !app_assoc.
  fold (ziti_calls tr) (sock_calls tr) (sock_reads tr) (ziti_reads tr) in *.
  fold (ziti_calls [e]) (sock_calls [e]) (sock_reads [e]) (ziti_reads [e]).
  destruct s as [up down|r1 r2|res]; cbn in Hstep; [| |done].
  2: { destruct e; simplify_eq. cbn in *. rewrite !app_nil_r in *. by split. }
  destruct (is_up e) eqn:Eup; apply bind_Some in Hstep as (p' & Hp & [= <-]); rewrite owed_ziti_join, owed_sock_join.
  - destruct (up_only e Eup) as [-> ->]. cbn [map app owed_ziti owed_sock] in *. split; [|done].
    destruct (up_step_owed _ _ _ Eup Hp) as [[-> Ho]|(b & -> & -> & Ho & ->)]; cbn [map app].
    + by rewrite <- Ho, <- !app_assoc in Hz.
    + rewrite Ho in Hz. cbn [app] in *. apply (app_inj_2 _ _ [CallCloseWrite; CallClose]) in Hz as [-> _]; done.
  - destruct (down_only _ _ _ Hp) as [-> ->]. cbn [map app owed_ziti owed_sock] in *. split; [done|].
    destruct (down_step_owed _ _ _ Hp) as [[-> Ho]|(b & -> & -> & Ho & ->)]; cbn [map app].
    + by rewrite <- Ho in Hs.
    + rewrite Ho in Hs. cbn [app] in *. by apply app_inj_tail in Hs as [-> _].
Qed.

Lemma sock_reads_fit tr s : splice_run tr splice_start = Some s → Forall (λ b, b ≠ [] ∧ Z.of_nat (length b) <= PROXY_BUF) (sock_reads tr).
Proof.
  revert tr s. apply splice_run_ind; [constructor|]. intros tr s e s' _ IH Hstep.
  unfold sock_reads. rewrite omap_app. apply Forall_app_2; [done|]. destruct e as [[[|x b]|]| | | | | |]; try constructor; [|constructor].
  split; [done|]. destruct s as [[] down|r1 r2|res]; try done. cbn in Hstep. destruct (_ <=? _) eqn:El; [|done]. by bool_to_prop.
Qed.

(** ** Properties of a splice *)

(** A splice forwards exactly what it reads, in both directions and however they
    interleave: at any point the calls it made on the connection, with those it owes,
    are one write for each chunk the socket gave - none empty, none longer than the
    buffer - in order, then the FIN, then the full close; and its operations on the
    socket, with those it owes, one write for each chunk of the connection and then
    the shutdown - whatever error the other direction met. *)
Theorem splice_forwards tr s :
  splice_run tr splice_start = Some s →
  ziti_calls tr ++ owed_ziti s = map CallWrite (sock_reads tr) ++ [CallCloseWrite; CallClose] ∧
  sock_calls tr ++ owed_sock s = map Some (ziti_reads tr) ++ [None] ∧
  Forall (λ b, b ≠ [] ∧ Z.of_nat (length b) <= PROXY_BUF) (sock_reads tr).
Proof. intros Hrun. destruct (splice_owes _ _ Hrun). split_and!; [done|done|by eapply sock_reads_fit]. Qed.

(** A splice never hangs of itself: until it is over it awaits an operation, the
    completion of an awaited one, whatever its result, moves it on, and a run has at
    most two operations for each chunk read and five more - so once the socket and the
    connection have ended, it ends. *)
Theorem splice_ends tr s :
  splice_run tr splice_start = Some s →
  (length tr <= 2 * (length (sock_reads tr) + length (ziti_reads tr)) + 5)%nat ∧
  (awaits s = [] ↔ ∃ res, s = Spliced res) ∧
  ∀ a e, a ∈ awaits s → completes a e = true → is_Some (splice_step s e).
Proof.
  intros Hrun. split.
  - assert (Hl : (length tr + left_splice s <= 2 * (length (sock_reads tr) + length (ziti_reads tr)) + 5)%nat); [|lia].
    revert tr s Hrun. apply splice_run_ind; [cbn; lia|]. intros tr s e s' _ IH Hstep.
    unfold sock_reads, ziti_reads in *. rewrite !omap_app, !length_app.
    fold (sock_reads tr) (ziti_reads tr) (sock_reads [e]) (ziti_reads [e]) in *. cbn [length] in *.
    destruct s as [up down|a b|res]; cbn in Hstep; [|destruct e; simplify_eq; cbn in *; lia|done].
    destruct (is_up e) eqn:Eup; apply bind_Some in Hstep as (p' & Hp & [= <-]); rewrite left_join; cbn [left_splice] in IH.
    + pose proof (up_step_left _ _ _ Eup Hp). lia.
    + pose proof (down_step_left _ _ _ Hp). lia.
  - split; [|intros a e; destruct s as [up down|r1 r2|res]; cbn].
    + pose proof (joined_open _ _ Hrun) as Ho. destruct s as [up down|r1 r2|res]; cbn.
      * split; [|by intros []]. by destruct up, down.
      * split; [done|by intros []].
      * split; [by eexists|done].
    + intros [Ha|Ha]%elem_of_app Hc.
      * destruct (up_completes _ _ _ Ha Hc) as [-> [p' ->]]. by eexists.
      * destruct (down_completes _ _ _ Ha Hc) as [-> [p' ->]]. by eexists.
    + intros ->%list_elem_of_singleton. by destruct e; cbn; eauto.
    + by intros ?%not_elem_of_nil.
Qed.

(** ** From one socket to another

    A splice writes a connection whose frames another splice reads. *)

Definition writes (os : list call) : list (list Z) :=
  omap (λ o, match o with CallWrite d => Some d | _ => None end) os.
Definition written (l : list (call * bool)) : list (list Z) :=
  omap (λ p, match p with (CallWrite d, true) => Some d | _ => None end) l.

(** The answers to a splice's own calls; the peer's StateClosed is read in between. *)
Definition own (p : call * bool) : bool := match p.1 with CallReadClosed => false | _ => true end.

(** No write follows a failed one. *)
Fixpoint stops (l : list (call * bool)) : Prop :=
  match l with
  | [] => True
  | (CallWrite _, false) :: l => writes l.*1 = []
  | _ :: l => stops l
  end.

Lemma stops_snoc l o b : stops l → (writes l.*1 = written l ∨ writes [o] = []) → stops (l ++ [(o, b)]).
Proof.
  induction l as [|[o' b'] l IH]; cbn.
  - by destruct o, b.
  - intros Hs Hw. assert (Hlen : (length (written l) <= length (writes l.*1))%nat).
    { clear. induction l as [|[o b] l IH]; [done|]. destruct o, b; cbn; fold (written l) (writes l.*1) in *; lia. }
    destruct o' as [d| | |]; [destruct b'|..]; cbn in *; try (apply IH; naive_solver).
    unfold writes. rewrite fmap_app, omap_app. fold (writes l.*1). rewrite Hs. cbn. destruct Hw as [Hw|Hw].
    + apply (f_equal length) in Hw. cbn in Hw. fold (written l) (writes l.*1) in Hw. lia.
    + unfold writes in Hw. cbn in Hw. by rewrite Hw.
Qed.

Lemma ziti_answers_calls tr : (ziti_answers tr).*1 = ziti_calls tr.
Proof. unfold ziti_answers, ziti_calls. induction tr as [|[] tr IH]; cbn; rewrite ?IH; done. Qed.

(** A splice stops writing at an error, and until then all of its writes are good. *)
Lemma splice_stops tr s :
  splice_run tr splice_start = Some s →
  stops (ziti_answers tr) ∧
  match s with Joined (UpRead | UpWrite _) _ => writes (ziti_answers tr).*1 = written (ziti_answers tr) | _ => True end.
Proof.
  revert tr s. apply splice_run_ind; [done|]. intros tr s e s' _ [Hst Hw] Hstep.
  unfold ziti_answers in *. rewrite omap_app. fold (ziti_answers tr) (ziti_answers [e]) in *.
  assert (Hnil : ziti_answers [e] = [] → stops (ziti_answers tr ++ ziti_answers [e]) ∧
    (writes (ziti_answers tr).*1 = written (ziti_answers tr) →
     writes (ziti_answers tr ++ ziti_answers [e]).*1 = written (ziti_answers tr ++ ziti_answers [e]))).
  { intros ->. by rewrite app_nil_r. }
  destruct s as [up down|r1 r2|res]; cbn in Hstep; [|destruct e; simplify_eq; split; [|done]; apply stops_snoc; auto|done].
  destruct (is_up e) eqn:Eup; apply bind_Some in Hstep as (p' & Hp & [= <-]).
  - destruct e as [r|b r|r| | | |]; try done; destruct up as [|b'|res|res]; try done; cbn in Hp.
    + destruct Hnil as [Hs Hw']; [done|]. split; [done|]. destruct (join p' down) as [[] ?| |] eqn:Ej; auto.
    + case_bool_decide as Hb; [|done]. split; [apply stops_snoc; auto|]. destruct r as [[]|err]; simplify_eq; cbn; [|done].
      destruct down; cbn; unfold writes, written in *; rewrite fmap_app, !omap_app; cbn; by rewrite Hw.
    + split; [apply stops_snoc; auto|]. injection Hp as <-. by destruct down.
  - destruct (down_only _ _ _ Hp) as [_ Hc]. destruct Hnil as [Hs Hw'].
    { apply (fmap_nil_inv fst). by rewrite ziti_answers_calls. }
    split; [done|]. destruct up; cbn; destruct p'; auto.
Qed.

(** The bytes the socket took, against those the connection gave. *)
Definition all_taken (s : splice) (rest : list Z) : Prop :=
  match s with
  | Joined _ (DownRead | DownShutdown (Ok _) | DownDone (Ok _)) | Closing _ (Ok _) | Spliced (Ok _) => rest = []
  | Joined _ (DownWrite b) => rest = b
  | _ => True
  end.

Lemma sock_bytes_reads tr s :
  splice_run tr splice_start = Some s → ∃ rest, sock_bytes tr ++ rest = concat (ziti_reads tr) ∧ all_taken s rest.
Proof.
  revert tr s. apply splice_run_ind; [by exists []|]. intros tr s e s' _ (rest & Heq & Ht) Hstep.
  unfold sock_bytes, ziti_reads in *. rewrite flat_map_app, omap_app, concat_app, <- Heq, <- !app_assoc.
  fold (sock_bytes tr) (ziti_reads tr) (ziti_reads [e]) in *. clear Heq.
  assert (Hend : ∀ rest', all_taken s' rest' → taken_by e ++ rest' = rest ++ concat (ziti_reads [e]) →
    ∃ rest', (sock_bytes tr ++ flat_map taken_by [e]) ++ rest' = sock_bytes tr ++ rest ++ concat (ziti_reads [e]) ∧ all_taken s' rest')
    by (intros rest' Hs' Hr'; exists rest'; cbn [flat_map]; by rewrite app_nil_r, <- app_assoc, Hr').
  destruct s as [up down|r1 r2|res]; cbn in Hstep; [| |done].
  2: { destruct e; simplify_eq. apply (Hend rest); [|cbn; by rewrite app_nil_r]. by destruct r1 as [[]|], r2. }
  destruct (is_up e) eqn:Eup; apply bind_Some in Hstep as (p' & Hp & [= <-]).
  - apply (Hend rest); [by destruct p', down|]. destruct e; try done; cbn; by rewrite app_nil_r.
  - destruct e as [| | |[[b|]|err]|b r|r|]; try done; destruct down as [|b'|res|res]; try done; cbn in Hp, Ht.
    + injection Hp as <-. subst rest. apply (Hend b); [by destruct up|]. cbn. by rewrite app_nil_r.
    + injection Hp as <-. subst rest. apply (Hend []); [by destruct up|done].
    + injection Hp as <-. apply (Hend rest); [by destruct up|]. cbn. by rewrite app_nil_r.
    + case_bool_decide as Hb; [|done]. subst b' rest. destruct r as [[]|[err k]]; injection Hp as <-.
      * apply (Hend []); [by destruct up|done].
      * apply (Hend (drop k b)); [by destruct up|]. cbn. by rewrite !app_nil_r, take_drop.
    + injection Hp as <-. apply (Hend rest); [by destruct up|]. cbn. by rewrite app_nil_r.
Qed.

Lemma own_stops l : stops (List.filter own l) → stops l.
Proof.
  assert (Hw : ∀ l, writes (List.filter own l).*1 = writes l.*1).
  { clear l. induction l as [|[[] b] l IH]; cbn; unfold writes in *; cbn; by rewrite ?IH. }
  induction l as [|[[d| | |] b] l IH]; cbn; [done|..|by apply IH|by apply IH|by apply IH].
  destruct b; [by apply IH|]. by rewrite Hw.
Qed.

Lemma own_id l : CallReadClosed ∉ l.*1 → List.filter own l = l.
Proof.
  induction l as [|[o b] l IH]; [done|]. cbn. intros [Hne Hl]%not_elem_of_cons. rewrite IH by done. by destruct o.
Qed.

Lemma own_written l : written (List.filter own l) = written l.
Proof. induction l as [|[[d| | |] []] l IH]; cbn; unfold written in *; cbn; by rewrite ?IH. Qed.

Lemma stops_written l : stops l → written l `prefix_of` writes l.*1.
Proof.
  induction l as [|[[d| | |] b] l IH]; cbn; [done|..|by apply IH|by apply IH|by apply IH].
  destruct b; cbn; [intros Hs; apply prefix_cons; by apply IH|]. fold (written l) (writes l.*1). intros Hs.
  assert (Hnil : written l = []); [|rewrite Hnil; apply prefix_nil].
  clear IH. induction l as [|[[] b] l IHl]; cbn in *; [done|done|by apply IHl..].
Qed.

Lemma writes_map bs os : writes (map CallWrite bs ++ os) = bs ++ writes os.
Proof. induction bs as [|b bs IH]; [done|]. cbn. unfold writes in IH. by rewrite IH. Qed.

Lemma concat_nonempty (l : list (list Z)) : concat (filter (λ d, d ≠ []) l) = concat l.
Proof.
  induction l as [|d l IH]; [done|]. destruct (decide (d ≠ [])) as [Hd|Hd].
  - rewrite filter_cons_True by done. cbn. by rewrite IH.
  - rewrite filter_cons_False by done. destruct d; [done|]. by destruct Hd.
Qed.

Lemma concat_prefix (l k : list (list Z)) : l `prefix_of` k → concat l `prefix_of` concat k.
Proof. intros [l' ->]. rewrite concat_app. by eexists. Qed.

Section delivery.
Context `{SecretStreamLaws}.

(** A frame that ends the reads of a half in step. *)
Definition ender (m : Message) : Prop :=
  content_type m = CT_STATE_CLOSED ∨ content_type m = CT_DATA ∧ has_fin m = true ∧ body m = [].

Definition in_stream (r : EdgeReadHalf) : Prop :=
  read_eof r = false ∧ match crypto r with Some c => rx_key c = None | None => True end.

Lemma read_all_ender fuel m0 m q open r fin :
  ender m0 → relayed m0 m → in_stream r → read_all (S fuel) (m :: q) open r fin = ([], Done (Ok None)).
Proof.
  intros He Hm [Hr Hc]. pose proof (relayed_type _ _ Hm) as Ht. destruct He as [Hty|(Hty & Hfin & Hb)].
  - cbn [read_all]. unfold read. rewrite Hr. cbn [read_loop]. rewrite Ht, Hty. done.
  - apply read_all_fin; [done|by rewrite Ht|by rewrite (relayed_has_fin _ _ Hm)|by rewrite (relayed_body _ _ Hm)|done].
Qed.

Lemma read_all_nothing fuel open r fin : in_stream r → (read_all fuel [] open r fin).1 = [].
Proof. intros [Hr _]. destruct fuel; [done|]. cbn. unfold read. rewrite Hr. cbn. by destruct open. Qed.

(** Calls that write no more send only such frames. *)
Lemma call_sends_enders o w fin env n c :
  fin = true ∨ writes [o] = [] →
  ∃ r w' fin', res (run (apply_call o (w, fin)) env n c) = Some (r, (w', fin')) ∧
    (fin = true ∨ writes [o] = [] → fin' = true) ∧ Forall ender (sent (trace (run (apply_call o (w, fin)) env n c))).
Proof.
  intros Hw. destruct o as [d| | |]; unfold apply_call.
  - destruct Hw as [->|]; [|done]. cbn. eauto 10.
  - unfold close_write. destruct fin; [cbn; eauto 10|]. rewrite run_bind, run_map, run_send.
    cbn -[fin_message sent]. eexists _, _, _. split; [reflexivity|]. split; [done|].
    destruct (write_err (env (S n))); [constructor|]. cbn -[fin_message]. constructor; [|constructor].
    right. split_and!; [done|apply has_fin_fin_message|done].
  - unfold close. rewrite run_bind, run_bind, run_send. cbn zeta. cbn [res].
    destruct (write_err (env (S n))) eqn:E; cbn -[build_state_closed]; rewrite ?E; cbn -[build_state_closed];
      eexists _, _, _; (split; [reflexivity|]); (split; [done|]); [constructor|constructor; [by left|constructor]].
  - cbn. eauto 10.
Qed.

Lemma calls_send_enders os w fin env n c :
  fin = true ∨ writes os = [] → Forall ender (sent (trace (run (apply_calls os (w, fin)) env n c))).
Proof.
  revert w fin n c. induction os as [|o os IH]; intros w fin n c Hw; [constructor|].
  assert (Ho : fin = true ∨ writes [o] = []) by (destruct Hw; [by left|right; by destruct o]).
  destruct (call_sends_enders o w fin env n c Ho) as (r & w' & fin' & Hres & Hfin & Hf).
  destruct (run_calls_cons o os _ env n c _ _ Hres) as (c' & n' & ->). rewrite sent_app. apply Forall_app_2; [done|].
  apply IH. destruct Hw as [->|Hw]; [left; auto|right; by destruct o].
Qed.

Lemma read_all_enders fuel ms q open r fin :
  Forall ender ms → Forall2 relayed ms q → in_stream r → (read_all fuel q open r fin).1 = [].
Proof.
  intros Hm Hq Hr. destruct Hq as [|m m' ms q Hmm]; [by apply read_all_nothing|]. destruct fuel; [done|].
  apply Forall_cons in Hm as [Hm _]. by erewrite read_all_ender.
Qed.

Lemma peers_in_stream w r : peers w r → in_stream r.
Proof. intros Hp. split; [apply Hp|by eapply peers_fin]. Qed.

(** The calls one by one: the results and the frames of the rest. *)
Lemma run_calls_results o os s env n c r s' rs s'' :
  res (run (apply_call o s) env n c) = Some (r, s') →
  res (run (apply_calls (o :: os) s) env n c) = Some (rs, s'') →
  ∃ rs' c' n', rs = r :: rs' ∧ res (run (apply_calls os s') env n' c') = Some (rs', s'') ∧
    trace (run (apply_calls (o :: os) s) env n c)
    = trace (run (apply_call o s) env n c) ++ trace (run (apply_calls os s') env n' c').
Proof.
  intros Hres. cbn [apply_calls]. rewrite run_bind. cbn zeta. rewrite Hres. cbn iota beta. cbn [res trace].
  rewrite run_bind. cbn zeta. set (c' := final _). set (n' := turn _).
  destruct (res (run (apply_calls os s') env n' c')) as [[rs' s2]|] eqn:E; cbn; [|done].
  intros [= <- ->]. exists rs', c', n'. rewrite app_nil_r. done.
Qed.

(** A write by a half in step with its peer. *)
Lemma write_frame d w r env n c :
  peers w r →
  ∃ w' r' s n' c', res (run (apply_call (CallWrite d) (w, false)) env n c)
      = Some (sent_result (write_err (env (S n))), (w', false)) ∧
    turn (run (apply_call (CallWrite d) (w, false)) env n c) = n' ∧ final (run (apply_call (CallWrite d) (w, false)) env n c) = c' ∧
    peers w' r' ∧ ∃ m, content_type m = CT_DATA ∧ has_fin (with_sequence s m) = false ∧
    read_data r (body m) = (if bool_decide (d = []) then None else Some (Done (Ok (Some d))), r') ∧
    sent (trace (run (apply_call (CallWrite d) (w, false)) env n c))
      = if write_err (env (S n)) is Some _ then [] else [with_sequence s m].
Proof.
  intros Hp. destruct (peers_write w r d Hp) as (b & snd & r' & Hpush & Hp' & Hread).
  unfold apply_call, write. rewrite Hpush, run_bind, run_map, run_send. cbn -[sent build_data].
  eexists _, r', _, _, _. split; [reflexivity|]. split; [reflexivity|]. split; [reflexivity|]. split; [exact Hp'|].
  exists (build_data (conn_id w) b (first_write w)). split_and!; [by destruct (first_write w)| |by destruct (first_write w)|].
  - apply has_fin_build_data.
  - by destruct (write_err (env (S n))).
Qed.

Lemma calls_results_length os s env n c rs s'' :
  res (run (apply_calls os s) env n c) = Some (rs, s'') → length rs = length os.
Proof.
  revert s n c rs s''. induction os as [|o os IH]; intros s n c rs s''; [by intros [= <- _]|]. intros Hres.
  destruct (res (run (apply_call o s) env n c)) as [[r s']|] eqn:E.
  - destruct (run_calls_results _ _ _ _ _ _ _ _ _ _ E Hres) as (rs' & c' & n' & -> & Hrest & _). cbn. by rewrite (IH _ _ _ _ _ Hrest).
  - exfalso. revert Hres. cbn [apply_calls]. rewrite run_bind. cbn zeta. by rewrite E.
Qed.

Definition answers (os : list call) (rs : list (result EdgeError unit)) : list (call * bool) := zip os (is_ok <$> rs).

Lemma answers_calls os rs : length rs = length os → (answers os rs).*1 = os.
Proof. intros Hl. apply fst_zip. by rewrite length_fmap, Hl. Qed.

Lemma read_all_fst_nil fuel q open r fin l : (read_all fuel q open r fin).1 = [] → (read_all fuel q open r fin).1 `prefix_of` l.
Proof. intros ->. apply prefix_nil. Qed.

Lemma Forall_prefix_of {A} (P : A → Prop) l k : l `prefix_of` k → Forall P k → Forall P l.
Proof. intros [l' ->]. by intros [? _]%Forall_app. Qed.

(** What a reader gets of the frames of any calls, however many of them arrived. *)
Lemma delivered_prefix os w r env n c rs s'' ms q fuel open fin :
  peers w r → res (run (apply_calls os (w, false)) env n c) = Some (rs, s'') → stops (answers os rs) →
  ms `prefix_of` sent (trace (run (apply_calls os (w, false)) env n c)) → Forall2 relayed ms q →
  (read_all fuel q open r fin).1 `prefix_of` filter (λ d, d ≠ []) (written (answers os rs)).
Proof.
  revert w r n c rs ms q fuel. induction os as [|o os IH]; intros w r n c rs ms q fuel Hp Hres Hst Hms Hq.
  { apply prefix_nil_inv in Hms as ->. inversion Hq. apply read_all_fst_nil, read_all_nothing. by eapply peers_in_stream. }
  destruct o as [d| | |].
  2-4: apply read_all_fst_nil, (read_all_enders _ ms);
    [|exact Hq|by eapply peers_in_stream]; clear IH;
    match type of Hres with res (run (apply_calls (?o :: _) _) _ _ _) = _ =>
      destruct (call_sends_enders o w false env n c (or_intror eq_refl)) as (r1 & w1 & fin1 & Hr1 & Hfin1 & Hf1);
      destruct (run_calls_results _ _ _ _ _ _ _ _ _ _ Hr1 Hres) as (rs' & c' & n' & _ & _ & Htr) end;
    rewrite Htr, sent_app in Hms; apply (Forall_prefix_of _ _ _ Hms);
    apply Forall_app_2; [done|]; apply calls_send_enders; left; apply Hfin1; by right.
  destruct (write_frame d w r env n c Hp) as (w' & r' & s & n1 & c1 & Hr1 & _ & _ & Hp' & m & Hty & Hnf & Hread & Hsent).
  destruct (run_calls_results _ _ _ _ _ _ _ _ _ _ Hr1 Hres) as (rs' & c' & n' & -> & Hrest & Htr).
  rewrite Htr, sent_app, Hsent in Hms. destruct (write_err (env (S n))) as [e|]; cbn [app] in Hms.
  - cbn in Hst. fold (answers os rs') in Hst. rewrite (answers_calls os rs') in Hst by (by eapply calls_results_length).
    apply read_all_fst_nil, (read_all_enders _ ms); [|exact Hq|by eapply peers_in_stream].
    apply (Forall_prefix_of _ _ _ Hms). apply calls_send_enders. by right.
  - destruct Hq as [|m1 m' ms' q' Hm Hq]; [apply read_all_fst_nil, read_all_nothing; by eapply peers_in_stream|].
    apply prefix_cons_inv_1 in Hms as Heq. subst m1. apply prefix_cons_inv_2 in Hms.
    assert (Hm'ty : content_type m' = CT_DATA) by (rewrite (relayed_type _ _ Hm); exact Hty).
    assert (Hm'nf : has_fin m' = false) by (rewrite (relayed_has_fin _ _ Hm); exact Hnf).
    assert (Hm'b : body m' = body m) by (rewrite (relayed_body _ _ Hm); done). rewrite <- Hm'b in Hread.
    pose proof (proj1 Hp) as Hr. pose proof (proj1 Hp') as Hr'. cbn in Hst. cbn [answers fmap list_fmap zip zip_with written omap list_omap is_ok sent_result].
    fold (answers os rs') (written (answers os rs')). specialize (IH w' r' n' c' rs' ms' q').
    case_bool_decide as Hd.
    + rewrite (read_all_skip fuel m' q' open r fin r') by done. rewrite filter_cons_False by naive_solver. by apply IH.
    + destruct fuel as [|fuel]; [apply prefix_nil|]. rewrite (read_all_some fuel m' q' open r fin r' d) by done.
      rewrite filter_cons_True by done. specialize (IH fuel Hp' Hrest Hst Hms Hq).
      destruct (read_all fuel q' open r' fin) as [bs e]. cbn in *. by apply prefix_cons.
Qed.

Lemma writes_after_fin os w env n c rs s'' :
  res (run (apply_calls os (w, true)) env n c) = Some (rs, s'') → Forall (λ r, is_ok r = true) rs → writes os = [].
Proof.
  revert w n c rs. induction os as [|o os IH]; intros w n c rs Hres Hok; [done|].
  destruct (call_sends_enders o w true env n c (or_introl eq_refl)) as (r1 & w1 & fin1 & Hr1 & Hfin1 & _).
  destruct (run_calls_results _ _ _ _ _ _ _ _ _ _ Hr1 Hres) as (rs' & c' & n' & -> & Hrest & _).
  rewrite Hfin1 in Hrest by auto. apply Forall_cons in Hok as [Hok1 Hok]. specialize (IH _ _ _ _ Hrest Hok).
  destruct o; [|exact IH..]. cbn in Hr1. injection Hr1 as <- _ _. done.
Qed.

(** All of it, if nothing failed and all arrived. *)
Lemma delivered_all os w r env n c rs s'' q fuel open fin :
  peers w r → res (run (apply_calls os (w, false)) env n c) = Some (rs, s'') → Forall (λ r, is_ok r = true) rs →
  CallReadClosed ∉ os → (CallCloseWrite ∈ os ∨ CallClose ∈ os) → (length os < fuel)%nat →
  Forall2 relayed (sent (trace (run (apply_calls os (w, false)) env n c))) q →
  read_all fuel q open r fin = (filter (λ d, d ≠ []) (writes os), Done (Ok None)).
Proof.
  revert w r n c rs q fuel. induction os as [|o os IH]; intros w r n c rs q fuel Hp Hres Hok Hnr Hend Hfuel Hq.
  { by destruct Hend as [?%not_elem_of_nil|?%not_elem_of_nil]. }
  apply not_elem_of_cons in Hnr as [Hne Hnr]. cbn in Hfuel. destruct fuel as [|fuel]; [lia|]. destruct o as [d| | |]; [| | |done].
  - destruct (write_frame d w r env n c Hp) as (w' & r' & s & n1 & c1 & Hr1 & _ & _ & Hp' & m & Hty & Hnf & Hread & Hsent).
    destruct (run_calls_results _ _ _ _ _ _ _ _ _ _ Hr1 Hres) as (rs' & c' & n' & -> & Hrest & Htr).
    apply Forall_cons in Hok as [Hok1 Hok]. rewrite Htr, sent_app, Hsent in Hq.
    destruct (write_err (env (S n))); [done|]. cbn [app] in Hq. apply Forall2_cons_inv_l in Hq as (m' & q' & Hm & Hq & ->).
    assert (Hm'ty : content_type m' = CT_DATA) by (rewrite (relayed_type _ _ Hm); exact Hty).
    assert (Hm'nf : has_fin m' = false) by (rewrite (relayed_has_fin _ _ Hm); exact Hnf).
    assert (Hm'b : body m' = body m) by (rewrite (relayed_body _ _ Hm); done). rewrite <- Hm'b in Hread.
    pose proof (proj1 Hp) as Hr. pose proof (proj1 Hp') as Hr'. cbn [writes omap list_omap]. fold (writes os).
    assert (Hend' : CallCloseWrite ∈ os ∨ CallClose ∈ os).
    { destruct Hend as [[?|?]%elem_of_cons|[?|?]%elem_of_cons]; [done|by left|done|by right]. }
    case_bool_decide as Hd.
    + rewrite (read_all_skip (S fuel) m' q' open r fin r') by done. rewrite filter_cons_False by naive_solver.
      eapply IH; [exact Hp'|exact Hrest|done..|lia|exact Hq].
    + rewrite (read_all_some fuel m' q' open r fin r' d) by done. rewrite filter_cons_True by done.
      erewrite IH; [done|exact Hp'|exact Hrest|done..|lia|exact Hq].
  - assert (Hr1 : res (run (apply_call CallCloseWrite (w, false)) env n c) = Some (sent_result (write_err (env (S n))), (w, true))).
    { unfold apply_call, close_write. by rewrite run_bind, run_map, run_send. }
    destruct (run_calls_results _ _ _ _ _ _ _ _ _ _ Hr1 Hres) as (rs' & c' & n' & -> & Hrest & Htr).
    apply Forall_cons in Hok as [Hok1 Hok]. cbn [writes omap list_omap]. fold (writes os). rewrite (writes_after_fin _ _ _ _ _ _ _ Hrest Hok).
    rewrite Htr, sent_app in Hq. unfold apply_call, close_write in Hq. rewrite run_bind, run_map, run_send in Hq. cbn -[fin_message sent] in Hq.
    destruct (write_err (env (S n))); [done|]. cbn -[fin_message sent] in Hq. apply Forall2_cons_inv_l in Hq as (m' & q' & Hm & Hq & ->).
    eapply read_all_ender; [|exact Hm|by eapply peers_in_stream].
    right. split_and!; [done|apply has_fin_fin_message|done].
  - unfold apply_call in *. destruct (write_err (env (S n))) eqn:Ew.
    all: destruct (call_sends_enders CallClose w false env n c (or_intror eq_refl)) as (r1 & w1 & fin1 & Hr1 & Hfin1 & _);
      destruct (run_calls_results _ _ _ _ _ _ _ _ _ _ Hr1 Hres) as (rs' & c' & n' & -> & Hrest & Htr);
      rewrite Hfin1 in Hrest by auto; apply Forall_cons in Hok as [Hok1 Hok];
      cbn [writes omap list_omap]; fold (writes os); rewrite (writes_after_fin _ _ _ _ _ _ _ Hrest Hok);
      rewrite Htr, sent_app in Hq; unfold apply_call, close in Hq, Hr1; rewrite run_bind, run_bind, run_send in Hq, Hr1;
      cbn -[build_state_closed sent] in Hq, Hr1; rewrite Ew in Hq, Hr1; cbn -[build_state_closed sent] in Hq, Hr1.
    + injection Hr1 as <- _ _. done.
    + apply Forall2_cons_inv_l in Hq as (m' & q' & Hm & Hq & ->).
      eapply read_all_ender; [|exact Hm|by eapply peers_in_stream]. by left.
Qed.

(** ** Property *)

(** C9. From socket to socket: one splice reads a socket and writes a connection, whose
    peer another splice reads onto its own socket.  However all four directions
    interleave, whatever writes fail, and wherever the frames stop arriving, the bytes
    the far socket took are a beginning of those the near one gave, in order; and if
    no call failed, all frames arrived and both splices ended well, they are all of
    them.  This holds with encryption and without. *)
Theorem spliced_bytes_arrive near s_near far s_far os rs s' w r env n c ms q fuel open :
  splice_run near splice_start = Some s_near → splice_run far splice_start = Some s_far → peers w r →
  let stream := run (apply_calls os (w, false)) env n c in
  res stream = Some (rs, s') → List.filter own (answers os rs) = ziti_answers near →
  ms `prefix_of` sent (trace stream) → Forall2 relayed ms q →
  ziti_reads far `prefix_of` (read_all fuel q open r false).1 →
  sock_bytes far `prefix_of` concat (sock_reads near) ∧
  (Forall (λ r, is_ok r = true) rs → CallReadClosed ∉ os → ms = sent (trace stream) → (length os < fuel)%nat →
   ziti_reads far = (read_all fuel q open r false).1 → (∃ res, s_near = Spliced res) → s_far = Spliced (Ok tt) →
   sock_bytes far = concat (sock_reads near)).
Proof.
  intros Hnear Hfar Hp stream Hres Hown Hms Hq Hreads.
  destruct (splice_owes _ _ Hnear) as [Howes _]. destruct (splice_stops _ _ Hnear) as [Hstops _].
  destruct (sock_bytes_reads _ _ Hfar) as (rest & Hrest & Htaken).
  pose proof (calls_results_length _ _ _ _ _ _ _ Hres) as Hlen. split.
  - trans (concat (ziti_reads far)); [by exists rest|].
    assert (Hst : stops (answers os rs)) by (apply own_stops; by rewrite Hown).
    pose proof (delivered_prefix os w r env n c rs s' ms q fuel open false Hp Hres Hst Hms Hq) as Hdel.
    trans (concat (filter (λ d, d ≠ []) (written (answers os rs)))); [apply concat_prefix; by etrans|].
    rewrite concat_nonempty, <- own_written, Hown. apply concat_prefix. etrans; [by apply stops_written|].
    rewrite ziti_answers_calls. apply (f_equal writes) in Howes. rewrite writes_map in Howes. cbn [writes omap list_omap] in Howes.
    rewrite app_nil_r in Howes. rewrite <- Howes. unfold writes. rewrite omap_app. by eexists.
  - intros Hok Hnr -> Hfuel Heq [res0 ->] ->. cbn in Htaken. subst rest. rewrite app_nil_r in Hrest. rewrite Hrest, Heq.
    assert (Hos : os = ziti_calls near).
    { rewrite <- ziti_answers_calls, <- Hown, own_id, answers_calls; [done|done|by rewrite answers_calls]. }
    cbn [owed_ziti] in Howes. rewrite app_nil_r in Howes. rewrite <- Hos in Howes.
    erewrite (delivered_all os w r env n c rs s' q fuel open false); [|done..| |done|done].
    + cbn [fst]. by rewrite concat_nonempty, Howes, writes_map, app_nil_r.
    + left. rewrite Howes. apply elem_of_app. right. left.
Qed.

End delivery.

(** ** Witnesses *)

(** A run in which the connection fails after a chunk while the socket is still read. *)
Definition demo_run : list io :=
  [SockRead (Ok [1; 2]); ZitiRead (Ok (Some [9])); ZitiWrite [1; 2] (Ok tt); SockWriteAll [9] (Ok tt); ZitiRead (Err "reset");
   SockShutdown (Ok tt); SockRead (Ok [3]); ZitiWrite [3] (Ok tt); SockRead (Ok []); ZitiCloseWrite (Ok tt); ZitiClose (Ok tt)].

Lemma splice_forwards_witness :
  ziti_calls demo_run = [CallWrite [1; 2]; CallWrite [3]; CallCloseWrite; CallClose] ∧
  sock_calls demo_run ++ owed_sock (Spliced (Err "reset")) = map Some [[9]] ++ [None].
Proof.
  destruct (splice_forwards demo_run (Spliced (Err "reset")) eq_refl) as (Hz & Hs & _).
  split; [by rewrite app_nil_r in Hz|exact Hs].
Defined.

Lemma splice_ends_witness :
  (length demo_run <= 2 * (2 + 1) + 5)%nat ∧ ∀ e, completes AZitiCloseWrite e = true →
    is_Some (splice_step (Joined (UpCloseWrite (Ok tt)) (DownDone (Err "reset"))) e).
Proof.
  split.
  - apply (splice_ends demo_run (Spliced (Err "reset")) eq_refl).
  - intros e. apply (splice_ends (take 9 demo_run) (Joined (UpCloseWrite (Ok tt)) (DownDone (Err "reset"))) eq_refl). left.
Defined.

(** An encrypted connection between two splices. *)
Definition demo_near : list io :=
  [SockRead (Ok [1; 2]); ZitiWrite [1; 2] (Ok tt); SockRead (Ok [3]); ZitiRead (Ok None); ZitiWrite [3] (Ok tt); SockShutdown (Ok tt);
   SockRead (Ok []); ZitiCloseWrite (Ok tt); ZitiClose (Ok tt)].
Definition demo_far : list io :=
  [ZitiRead (Ok (Some [1; 2])); SockRead (Ok []); SockWriteAll [1; 2] (Ok tt); ZitiCloseWrite (Ok tt);
   ZitiRead (Ok (Some [3])); SockWriteAll [3] (Ok tt); ZitiRead (Ok None); SockShutdown (Ok tt); ZitiClose (Ok tt)].
Definition demo_writer : @EdgeWriteHalf toy_stream := mkWriteHalf (H := toy_stream) 5 false (Some 0).
Definition demo_reader : @EdgeReadHalf toy_stream := mkReadHalf (H := toy_stream) false (Some (mkReadCrypto (H := toy_stream) (Some 0) None)).
Definition demo_stream : outcome (list (result EdgeError unit) * (@EdgeWriteHalf toy_stream * bool)) :=
  run (apply_calls (ziti_calls demo_near) (demo_writer, false)) (λ _, quiet) 0 chan_new.

Lemma spliced_bytes_arrive_witness : sock_bytes demo_far = [1; 2; 3].
Proof.
  destruct (res demo_stream) as [[rs s']|] eqn:Hres; [|done].
  refine (proj2 (spliced_bytes_arrive (H := toy_stream) demo_near (Spliced (Ok tt)) demo_far (Spliced (Ok tt)) (ziti_calls demo_near) rs s'
    demo_writer demo_reader (λ _, quiet) 0 chan_new (sent (trace demo_stream)) (map relay (sent (trace demo_stream))) 9 true
    eq_refl eq_refl _ Hres _ _ (relay_relayed _) _) _ _ eq_refl _ _ _ eq_refl).
  - split; reflexivity.
  - injection Hres as <- _. reflexivity.
  - done.
  - eexists []. reflexivity.
  - injection Hres as <- _. repeat constructor.
  - intros Hin. cbn in Hin. repeat (apply elem_of_cons in Hin as [?|Hin]; [done|]). by apply not_elem_of_nil in Hin.
  - cbn. lia.
  - reflexivity.
  - by eexists.
Defined.
