(* ===== verification/SpliceKill.v ===== *)
(** * The splice of an intercepted flow: [src/tunnel/intercept/splice_kill.rs]

    The twin of Splice whose pumps also watch the token by which the flow's service is
    taken away.  Proved: until the token is cancelled it is the splice of Splice, step by
    step; what the socket gave is written whole, killed or not; and once it is cancelled
    nothing more is read, no frame but the one being written goes out, and a bounded
    number of operations later the connection has been closed, once and without a FIN
    that was not already on its way. *)

From S2P Require Import Prelude Utf8 Message EdgeWire ChannelState Async Crypto Conn Splice.

(** ** The pumps with their token *)

Inductive PumpEnd : Type := Natural | Killed.

(** An operation that completes, the cancellation of the token, and a pump that sees
    it; the socket has taken some bytes of a [write_all] that is dropped
    then. *)
Inductive kio : Type :=
| Op (e : io)
| Cancel
| SeenUp
| SeenDown (taken : list Z).

(** The operations that compete with the token, which goes first ([biased]): those of
    the flow alone, never a write to the shared channel. *)
Definition competes (e : io) : bool :=
  match e with SockRead _ | ZitiRead _ | SockWriteAll _ _ => true | _ => false end.

(** A pump that ended: the half-close of its destination if it ended by itself. *)
Definition up_ended (res : result string unit) (e : PumpEnd) : s2z :=
  match e with Natural => UpCloseWrite res | Killed => UpDone res end.
Definition down_ended (res : result string unit) (e : PumpEnd) : z2s :=
  match e with Natural => DownShutdown res | Killed => DownDone res end.

(** The splice, and whether its token is cancelled. *)
Record ksplice : Type := mkKSplice { inner : splice; cancelled : bool }.

Definition seen_up (s : splice) : option splice :=
  match s with Joined UpRead down => Some (join (up_ended (Ok tt) Killed) down) | _ => None end.
Definition seen_down (taken : list Z) (s : splice) : option splice :=
  match s with
  | Joined up DownRead => if bool_decide (taken = []) then Some (join up (down_ended (Ok tt) Killed)) else None
  | Joined up (DownWrite b) => if bool_decide (taken `prefix_of` b) then Some (join up (down_ended (Ok tt) Killed)) else None
  | _ => None
  end.

Definition splice_until_killed (s : ksplice) (e : kio) : option ksplice :=
  match e with
  | Cancel => Some (mkKSplice (inner s) true)
  | Op e => if cancelled s && competes e then None else s' ← splice_step (inner s) e; Some (mkKSplice s' (cancelled s))
  | SeenUp => if cancelled s then s' ← seen_up (inner s); Some (mkKSplice s' true) else None
  | SeenDown taken => if cancelled s then s' ← seen_down taken (inner s); Some (mkKSplice s' true) else None
  end.

Fixpoint killed_run (es : list kio) (s : ksplice) : option ksplice :=
  match es with
  | [] => Some s
  | e :: es => s ← splice_until_killed s e; killed_run es s
  end.

Definition killed_start : ksplice := mkKSplice splice_start false.

(** ** What a run did *)

Definition ops (es : list kio) : list io := omap (λ e, match e with Op e => Some e | _ => None end) es.

(** The bytes the socket took. *)
Definition kept_bytes (e : kio) : list Z := match e with Op e => taken_by e | SeenDown taken => taken | _ => [] end.
Definition killed_bytes (es : list kio) : list Z := flat_map kept_bytes es.

(** ** Lemmas *)

Lemma killed_run_app es1 es2 s : killed_run (es1 ++ es2) s = killed_run es1 s ≫= killed_run es2.
Proof. revert s. induction es1 as [|e es1 IH]; intros s; [done|]. cbn. by destruct (splice_until_killed s e); cbn. Qed.

(** Until the token is cancelled: the plain splice. *)
Lemma killed_run_natural es s :
  Cancel ∉ es → ∀ s', killed_run es (mkKSplice s false) = Some s' ↔ cancelled s' = false ∧ splice_run (ops es) s = Some (inner s') ∧ es = map Op (ops es).
Proof.
  revert s. induction es as [|e es IH]; intros s; cbn.
  - intros _ s'. split; [intros [= <-]; done|]. destruct s' as [i c]. cbn. by intros (-> & [= ->] & _).
  - intros [He Hes]%not_elem_of_cons s'. destruct e as [e| | |taken]; try done; cbn.
    + destruct (splice_step s e) as [s1|]; cbn; [|split; [done|by intros (_ & ? & _)]].
      rewrite IH by done. split; [intros (H1 & H2 & H3); split_and!; try done; by f_equal|].
      intros (H1 & H2 & H3). split_and!; try done. by injection H3.
    + split; [done|]. intros (_ & _ & H). by destruct (omap _ es).
    + split; [done|]. intros (_ & _ & H). by destruct (omap _ es).
Qed.

(** What is still on its way to the connection. *)
Definition writing (s : splice) : list (list Z) := match s with Joined (UpWrite b) _ => [b] | _ => [] end.

Lemma writing_join up down : writing (join up down) = match up with UpWrite b => [b] | _ => [] end.
Proof. by destruct up, down. Qed.

Lemma step_writes s e s' :
  splice_step s e = Some s' →
  writes (ziti_calls [e]) ++ writing s' = writing s ++ sock_reads [e].
Proof.
  destruct s as [up down|a b|res]; cbn [splice_step]; [| |done].
  2: { destruct e; try done. by intros [= <-]. }
  destruct (is_up e) eqn:Eup; intros (p' & Hp & [= <-])%bind_Some; rewrite writing_join.
  - destruct e as [[[|x b]|err]|b r|r| | | |]; try done; destruct up as [|b'|res|res]; try done; cbn in Hp |- *.
    + by injection Hp as <-.
    + destruct (negb _); [done|]. by injection Hp as <-.
    + by injection Hp as <-.
    + case_bool_decide; [|done]. subst. injection Hp as <-. by destruct r.
    + by injection Hp as <-.
  - destruct (down_only _ _ _ Hp) as [-> ->]. cbn. by destruct up.
Qed.

Lemma writes_app os os' : writes (os ++ os') = writes os ++ writes os'.
Proof. apply omap_app. Qed.

(** Killed or not, what the socket gave has been written, or is being written. *)
Lemma killed_writes es s :
  killed_run es killed_start = Some s → writes (ziti_calls (ops es)) ++ writing (inner s) = sock_reads (ops es).
Proof.
  revert s. induction es as [|e es IH] using rev_ind; intros s; [by intros [= <-]|].
  rewrite killed_run_app. intros (s1 & Hrun & Hs)%bind_Some. cbn in Hs. apply bind_Some in Hs as (s2 & Hs & [= ->]).
  specialize (IH s1 Hrun). unfold ops, ziti_calls, sock_reads in *. rewrite !omap_app. fold (ops es) in *.
  fold (ziti_calls (ops es)) (sock_reads (ops es)) in *. rewrite writes_app, <- IH, <- !app_assoc. f_equal.
  destruct e as [e| | |taken]; cbn in Hs.
  - destruct (_ && _); [done|]. apply bind_Some in Hs as (s' & Hs & [= <-]). cbn [inner]. by apply step_writes.
  - injection Hs as <-. cbn. by rewrite app_nil_r.
  - destruct (cancelled s1); [|done]. apply bind_Some in Hs as (s' & Hs & [= <-]). cbn.
    destruct (inner s1) as [[] down| |]; try done. injection Hs as <-. by destruct down.
  - destruct (cancelled s1); [|done]. apply bind_Some in Hs as (s' & Hs & [= <-]). cbn. rewrite app_nil_r.
    destruct (inner s1) as [up [|b| |]| |]; try done; cbn in Hs; case_bool_decide; try done; injection Hs as <-; by destruct up.
Qed.

(** The bytes the connection gave that the socket has not taken: all of them, in order,
    while the pump goes on. *)
Definition not_taken (s : splice) (rest : list Z) : Prop :=
  match s with Joined _ DownRead => rest = [] | Joined _ (DownWrite b) => rest = b | _ => True end.

Lemma not_taken_join up down rest : not_taken (join up down) rest ↔ not_taken (Joined up down) rest.
Proof. by destruct up, down. Qed.

Lemma step_taken s e s' rest :
  splice_step s e = Some s' → not_taken s rest →
  ∃ rest', taken_by e ++ rest' = rest ++ concat (ziti_reads [e]) ∧ not_taken s' rest'.
Proof.
  destruct s as [up down|a b|res]; cbn [splice_step]; [| |done].
  2: { destruct e; try done. intros [= <-] _. exists rest. cbn. by rewrite app_nil_r. }
  destruct (is_up e) eqn:Eup; intros (p' & Hp & [= <-])%bind_Some Hr; setoid_rewrite not_taken_join.
  - destruct (up_only e Eup) as [-> _]. exists rest. split; [|done]. destruct e; try done; cbn; by rewrite app_nil_r.
  - destruct e as [| | |[[b|]|err]|b r|r|]; try done; destruct down as [|b'|res|res]; try done; cbn in Hp, Hr |- *.
    + injection Hp as <-. subst. exists b. by rewrite app_nil_r.
    + injection Hp as <-. subst. by exists [].
    + injection Hp as <-. subst. by exists [].
    + case_bool_decide; [|done]. subst. rewrite app_nil_r. destruct r as [[]|[err k]]; injection Hp as <-.
      * exists []. by rewrite app_nil_r.
      * exists (drop k b'). by rewrite take_drop.
    + injection Hp as <-. exists rest. by rewrite app_nil_r.
Qed.

Lemma killed_taken es s :
  killed_run es killed_start = Some s → ∃ rest, killed_bytes es ++ rest = concat (ziti_reads (ops es)) ∧ not_taken (inner s) rest.
Proof.
  revert s. induction es as [|e es IH] using rev_ind; intros s; [intros [= <-]; by exists []|].
  rewrite killed_run_app. intros (s1 & Hrun & Hs)%bind_Some. cbn in Hs. apply bind_Some in Hs as (s2 & Hs & [= ->]).
  destruct (IH s1 Hrun) as (rest & Hb & Hr). unfold killed_bytes, ops, ziti_reads in *. rewrite flat_map_app, !omap_app, concat_app, <- Hb.
  fold (killed_bytes es). cbn [flat_map]. rewrite app_nil_r.
  assert (Hquiet : ∀ i, not_taken i (drop (length (kept_bytes e)) rest) → kept_bytes e `prefix_of` rest →
    ∃ rest', (killed_bytes es ++ kept_bytes e) ++ rest' = (killed_bytes es ++ rest) ++ [] ∧ not_taken i rest').
  { intros i Hi [r ->]. exists r. rewrite app_nil_r, <- app_assoc. split; [done|]. by rewrite drop_app_length in Hi. }
  destruct e as [e| | |taken]; cbn in Hs.
  - destruct (_ && _); [done|]. apply bind_Some in Hs as (s' & Hs & [= <-]). destruct (step_taken _ _ _ _ Hs Hr) as (rest' & He & Hr').
    exists rest'. cbn [inner kept_bytes]. rewrite <- !app_assoc, He. by split.
  - injection Hs as <-. apply Hquiet; [done|apply prefix_nil].
  - destruct (cancelled s1); [|done]. apply bind_Some in Hs as (s' & Hs & [= <-]). apply Hquiet; [|apply prefix_nil]. cbn.
    destruct (inner s1) as [[] down| |]; try done. injection Hs as <-. by destruct down.
  - destruct (cancelled s1); [|done]. apply bind_Some in Hs as (s' & Hs & [= <-]).
    destruct (inner s1) as [up [|b| |]| |]; try done; cbn in Hs, Hr; case_bool_decide; try done; injection Hs as <-; subst;
      (apply Hquiet; [by destruct up|]); [apply prefix_nil|done].
Qed.

(** ** After the cancellation *)

(** The calls on the connection that may still come: the write under way - whose
    failure is an end of its own, with its FIN -, a FIN that was due, the close. *)
Definition last_calls (s : splice) (calls : list call) : Prop :=
  match s with
  | Joined (UpWrite b) _ =>
      calls `prefix_of` [CallWrite b; CallClose] ∨ calls `prefix_of` [CallWrite b; CallCloseWrite; CallClose]
  | Joined (UpCloseWrite _) _ => calls `prefix_of` [CallCloseWrite; CallClose]
  | Joined (UpRead | UpDone _) _ | Closing _ _ => calls `prefix_of` [CallClose]
  | Spliced _ => calls = []
  end.

(** The operations left, each token seen included. *)
Definition left_killed (s : splice) : nat :=
  match s with
  | Joined up down =>
      match up with UpRead => 1 | UpWrite _ => 2 | UpCloseWrite _ => 1 | UpDone _ => 0 end +
      match down with DownRead | DownWrite _ | DownShutdown _ => 1 | DownDone _ => 0 end + 1
  | Closing _ _ => 1
  | Spliced _ => 0
  end.

Definition is_cancel (e : kio) : bool := match e with Cancel => true | _ => false end.
Definition turns (es : list kio) : nat := length (List.filter (λ e, negb (is_cancel e)) es).

Lemma last_calls_step s e s' calls :
  competes e = false → splice_step s e = Some s' → last_calls s' calls → last_calls s (ziti_calls [e] ++ calls).
Proof.
  intros Hc. destruct s as [up down|a b|res]; cbn [splice_step]; [| |done].
  2: { destruct e; try done. intros [= <-] Hl. cbn in *. by subst. }
  destruct (is_up e) eqn:Eup; intros (p' & Hp & [= <-])%bind_Some.
  - destruct e as [|b r|r| | | |]; try done; destruct up as [|b'|res|res]; try done; cbn in Hp.
    + case_bool_decide; [|done]. subst. destruct r; injection Hp as <-; cbn; intros Hl.
      * left. by apply prefix_cons.
      * right. by apply prefix_cons.
    + injection Hp as <-. cbn. intros Hl. apply prefix_cons. by destruct down.
  - destruct (down_only _ _ _ Hp) as [_ ->]. cbn. destruct up; try done. by destruct p'.
Qed.

Lemma left_step s e s' :
  competes e = false → splice_step s e = Some s' → (left_killed s' < left_killed s)%nat.
Proof.
  intros Hc. destruct s as [up down|a b|res]; cbn; [| |done].
  2: { destruct e; try done. intros [= <-]. cbn. lia. }
  destruct (is_up e) eqn:Eup; intros (p' & Hp & [= <-])%bind_Some.
  - destruct e as [|b r|r| | | |]; try done; destruct up as [|b'|res|res]; try done; cbn in Hp.
    + case_bool_decide; [|done]. injection Hp as <-. destruct r, down; cbn; lia.
    + injection Hp as <-. destruct down; cbn; lia.
  - destruct e; try done; destruct down; try done; cbn in Hp; injection Hp as <-; destruct up; cbn; lia.
Qed.

Lemma ziti_calls_cons e l : ziti_calls (e :: l) = ziti_calls [e] ++ ziti_calls l.
Proof. by destruct e. Qed.

Lemma quiet_cons e l :
  competes e = false → sock_reads (e :: l) = sock_reads l ∧ ziti_reads (e :: l) = ziti_reads l ∧ sock_bytes (e :: l) = sock_bytes l.
Proof. by destruct e. Qed.

Lemma after_cancel es s s' :
  killed_run es (mkKSplice s true) = Some s' →
  sock_reads (ops es) = [] ∧ ziti_reads (ops es) = [] ∧ sock_bytes (ops es) = [] ∧
  last_calls s (ziti_calls (ops es)) ∧ (turns es + left_killed (inner s') <= left_killed s)%nat.
Proof.
  revert s. induction es as [|e es IH]; intros s; cbn [killed_run].
  - intros [= <-]. split_and!; try done. destruct s as [[] ?|?|]; cbn; try apply prefix_nil; [left; apply prefix_nil|done].
  - intros (s1 & Hs & Hrun)%bind_Some. destruct e as [e| | |taken]; cbn in Hs.
    + destruct (competes e) eqn:Ec; [done|]. apply bind_Some in Hs as (s2 & Hs & [= <-]).
      destruct (IH s2 Hrun) as (H1 & H2 & H3 & H4 & H5). pose proof (left_step _ _ _ Ec Hs).
      change (ops (Op e :: es)) with (e :: ops es). destruct (quiet_cons e (ops es) Ec) as (-> & -> & ->). rewrite ziti_calls_cons.
      split_and!; [done..|by eapply last_calls_step|]. unfold turns in *. cbn. lia.
    + injection Hs as <-. exact (IH s Hrun).
    + apply bind_Some in Hs as (s2 & Hs & [= <-]). destruct (IH s2 Hrun) as (H1 & H2 & H3 & H4 & H5).
      destruct s as [[] down|?|]; try done. injection Hs as <-.
      split_and!; [done..| |]; [by destruct down|]. unfold turns in *. destruct down; cbn in *; lia.
    + apply bind_Some in Hs as (s2 & Hs & [= <-]). destruct (IH s2 Hrun) as (H1 & H2 & H3 & H4 & H5).
      destruct s as [up [|b| |]|?|]; try done; cbn in Hs; case_bool_decide; try done; injection Hs as <-;
        (split_and!; [done..| |]; [by destruct up|]); unfold turns in *; destruct up; cbn in *; lia.
Qed.

(** What a cancelled splice waits for: its pumps see the token, or an operation that
    does not compete with it ends, whatever its result. *)
Definition moves (s : splice) (e : kio) : Prop :=
  match e with
  | Op e => competes e = false ∧ ∃ a, a ∈ awaits s ∧ completes a e = true
  | SeenUp => ∃ down, s = Joined UpRead down
  | SeenDown taken => ∃ up, s = Joined up DownRead ∧ taken = [] ∨ ∃ b, s = Joined up (DownWrite b) ∧ taken `prefix_of` b
  | Cancel => False
  end.

Lemma moves_step s e : moves s e → is_Some (splice_until_killed (mkKSplice s true) e).
Proof.
  destruct e as [e| | |taken]; cbn.
  - intros (Hc & a & Ha & Hcomp). rewrite Hc. cbn.
    assert (Hs : is_Some (splice_step s e)); [|destruct Hs as [s' ->]; by eexists].
    destruct s as [up down|r1 r2|res]; cbn in Ha |- *.
    + apply elem_of_app in Ha as [Ha|Ha].
      * destruct (up_completes _ _ _ Ha Hcomp) as [-> [p' ->]]. by eexists.
      * destruct (down_completes _ _ _ Ha Hcomp) as [-> [p' ->]]. by eexists.
    + apply list_elem_of_singleton in Ha as ->. by destruct e.
    + by apply not_elem_of_nil in Ha.
  - done.
  - intros [down ->]. cbn. by eexists.
  - intros (up & [[-> ->]|(b & -> & Hb)]); cbn; [by eexists|]. rewrite bool_decide_eq_true_2 by done. by eexists.
Qed.

Lemma joined_open_killed es s :
  killed_run es killed_start = Some s → match inner s with Joined (UpDone _) (DownDone _) => False | _ => True end.
Proof.
  revert s. induction es as [|e es IH] using rev_ind; intros s; [by intros [= <-]|].
  rewrite killed_run_app. intros (s1 & Hrun & Hs)%bind_Some. cbn in Hs. apply bind_Some in Hs as (s2 & Hs & [= ->]).
  specialize (IH s1 Hrun). destruct e as [e| | |taken]; cbn in Hs.
  - destruct (_ && _); [done|]. apply bind_Some in Hs as (s' & Hs & [= <-]). cbn [inner].
    destruct (inner s1) as [up down|r1 r2|res]; cbn in Hs; [|by destruct e; simplify_eq|done].
    destruct (is_up e); apply bind_Some in Hs as (p' & _ & [= <-]); [by destruct p', down|by destruct up, p'].
  - by injection Hs as <-.
  - destruct (cancelled s1); [|done]. apply bind_Some in Hs as (s' & Hs & [= <-]).
    destruct (inner s1) as [[] down| |]; try done. injection Hs as <-. by destruct down.
  - destruct (cancelled s1); [|done]. apply bind_Some in Hs as (s' & Hs & [= <-]).
    destruct (inner s1) as [up [|b| |]| |]; try done; cbn in Hs; case_bool_decide; try done; injection Hs as <-; by destruct up.
Qed.

Lemma can_move s :
  match s with Joined (UpDone _) (DownDone _) => False | _ => True end → (∀ res, s ≠ Spliced res) → ∃ e, moves s e.
Proof.
  intros Ho Hs. destruct s as [up down|r1 r2|res]; [| |by destruct (Hs res)].
  - destruct up as [|b|res|res].
    + exists SeenUp. by eexists.
    + exists (Op (ZitiWrite b (Ok tt))). split; [done|]. exists (AZitiWrite b). split; [by left|]. cbn. by apply bool_decide_eq_true_2.
    + exists (Op (ZitiCloseWrite (Ok tt))). split; [done|]. exists AZitiCloseWrite. split; [by left|done].
    + destruct down as [|b|res'|res']; [..|done].
      * exists (SeenDown []). exists (UpDone res). by left.
      * exists (SeenDown []). exists (UpDone res). right. exists b. split; [done|apply prefix_nil].
      * exists (Op (SockShutdown (Ok tt))). split; [done|]. exists ASockShutdown. split; [by left|done].
  - exists (Op (ZitiClose (Ok tt))). split; [done|]. exists AZitiClose. split; [by left|done].
Qed.

(** The full close is the last call, and happens once. *)
Definition closed_once (s : splice) (calls : list call) : Prop :=
  match s with Spliced _ => ∃ l, calls = l ++ [CallClose] ∧ CallClose ∉ l | _ => CallClose ∉ calls end.

Lemma closed_step s e s' calls : splice_step s e = Some s' → closed_once s calls → closed_once s' (calls ++ ziti_calls [e]).
Proof.
  destruct s as [up down|a b|res]; cbn [splice_step]; [| |done].
  2: { destruct e; try done. intros [= <-] Hc. cbn. by exists calls. }
  intros Hs Hc. cbn in Hc.
  assert (Hno : CallClose ∉ calls ++ ziti_calls [e]).
  { intros [Hin|Hin]%elem_of_app; [done|]. destruct e as [[]| | |[[]|]| | |]; cbn in Hin; try by apply not_elem_of_nil in Hin.
    1-2: by apply list_elem_of_singleton in Hin. by destruct down. }
  destruct (is_up e); apply bind_Some in Hs as (p' & _ & [= <-]); [by destruct p', down|by destruct up, p'].
Qed.

Lemma killed_closed es s : killed_run es killed_start = Some s → closed_once (inner s) (ziti_calls (ops es)).
Proof.
  revert s. induction es as [|e es IH] using rev_ind; intros s; [intros [= <-]; apply not_elem_of_nil|].
  rewrite killed_run_app. intros (s1 & Hrun & Hs)%bind_Some. cbn in Hs. apply bind_Some in Hs as (s2 & Hs & [= ->]).
  specialize (IH s1 Hrun). unfold ops, ziti_calls in *. rewrite !omap_app. fold (ops es) (ziti_calls (ops es)) in *.
  destruct e as [e| | |taken]; cbn in Hs.
  - destruct (_ && _); [done|]. apply bind_Some in Hs as (s' & Hs & [= <-]). by eapply closed_step.
  - injection Hs as <-. cbn. by rewrite app_nil_r.
  - destruct (cancelled s1); [|done]. apply bind_Some in Hs as (s' & Hs & [= <-]). cbn. rewrite app_nil_r.
    destruct (inner s1) as [[] down| |]; try done. injection Hs as <-. by destruct down.
  - destruct (cancelled s1); [|done]. apply bind_Some in Hs as (s' & Hs & [= <-]). cbn. rewrite app_nil_r.
    destruct (inner s1) as [up [|b| |]| |]; try done; cbn in Hs; case_bool_decide; try done; injection Hs as <-; by destruct up.
Qed.

(** ** Properties *)

(** C17. A flow whose service is taken away: whenever its token is cancelled, up to then the
    splice was the plain one; from then on nothing is read of either side and the socket
    gets at most a beginning of the chunk it was being given; the connection sees the
    write under way - in one piece, as all that was read before is written -, no FIN
    unless the copy had ended by itself, and the close, once and last; and at most four
    operations later it is over, none of which is a wait for the socket to read or write. *)
Theorem killed_splice_cuts_off es1 es2 s :
  Cancel ∉ es1 → killed_run (es1 ++ Cancel :: es2) killed_start = Some s →
  ∃ s1, splice_run (ops es1) splice_start = Some s1 ∧ es1 = map Op (ops es1) ∧
    sock_reads (ops es2) = [] ∧ ziti_reads (ops es2) = [] ∧ sock_bytes (ops es2) = [] ∧
    killed_bytes (es1 ++ Cancel :: es2) `prefix_of` concat (ziti_reads (ops es1)) ∧
    last_calls s1 (ziti_calls (ops es2)) ∧ writes (ziti_calls (ops es1 ++ ops es2)) ++ writing (inner s) = sock_reads (ops es1) ∧
    closed_once (inner s) (ziti_calls (ops es1 ++ ops es2)) ∧ (turns es2 <= 4)%nat ∧
    ((∃ res, inner s = Spliced res) ∨ ∃ e, moves (inner s) e) ∧
    ∀ e, moves (inner s) e → is_Some (splice_until_killed s e).
Proof.
  intros Hes Hrun. pose proof (killed_writes _ _ Hrun) as Hw. pose proof (killed_taken _ _ Hrun) as (rest & Hb & _).
  pose proof (joined_open_killed _ _ Hrun) as Ho. pose proof (killed_closed _ _ Hrun) as Hclose.
  assert (Hops : ops (es1 ++ Cancel :: es2) = ops es1 ++ ops es2) by (unfold ops; by rewrite omap_app). rewrite Hops in Hw, Hb, Hclose.
  rewrite killed_run_app in Hrun. apply bind_Some in Hrun as ([s1 c1] & Hrun1 & Hrun2).
  apply (killed_run_natural es1 splice_start Hes) in Hrun1 as (Hc & Hs1 & He). cbn in Hc, Hs1, Hrun2. subst c1.
  destruct (after_cancel _ _ _ Hrun2) as (H1 & H2 & H3 & H4 & H5). exists s1.
  unfold sock_reads, ziti_reads in Hw, Hb. rewrite omap_app in Hw, Hb. fold (sock_reads (ops es1)) (sock_reads (ops es2)) in Hw.
  fold (ziti_reads (ops es1)) (ziti_reads (ops es2)) in Hb. rewrite H1, app_nil_r in Hw. rewrite H2, app_nil_r in Hb.
  assert (Hcan : cancelled s = true).
  { clear -Hrun2. revert s1 Hrun2. induction es2 as [|e es IH]; intros s1; cbn; [by intros [= <-]|].
    intros (s2 & Hs & Hr)%bind_Some. destruct e; cbn in Hs; [destruct (competes _); [done|]| | |];
      try (apply bind_Some in Hs as (s3 & _ & [= <-])); try injection Hs as <-; by eapply IH. }
  destruct s as [i c]. cbn in *. subst c. split_and!; try done.
  - rewrite <- Hb. by eexists.
  - destruct s1 as [[] []|?|]; cbn in H5; lia.
  - destruct i as [up down|r1 r2|res] eqn:Ei; [right; by apply can_move|right; by apply can_move|left; by eexists].
  - intros e. apply moves_step.
Qed.

(** ** Witness *)

(** A chunk is being written to each side when the token is cancelled; the socket has
    taken one byte of its own. *)
Definition demo_before : list kio := [Op (SockRead (Ok [1; 2])); Op (ZitiRead (Ok (Some [3; 4])))].
Definition demo_after : list kio := [SeenDown [3]; Op (ZitiWrite [1; 2] (Ok tt)); SeenUp; Op (ZitiClose (Ok tt))].

Lemma killed_splice_cuts_off_witness :
  Cancel ∉ demo_before ∧ killed_run (demo_before ++ Cancel :: demo_after) killed_start = Some (mkKSplice (Spliced (Ok tt)) true) ∧
  ziti_calls (ops demo_before ++ ops demo_after) = [CallWrite [1; 2]; CallClose] ∧
  killed_bytes (demo_before ++ Cancel :: demo_after) = [3] ∧
  sock_reads (ops demo_after) = [] ∧ turns demo_after = 4%nat.
Proof.
  assert (Hc : Cancel ∉ demo_before).
  { unfold demo_before. rewrite !not_elem_of_cons. split_and!; [discriminate|discriminate|apply not_elem_of_nil]. }
  assert (Hr : killed_run (demo_before ++ Cancel :: demo_after) killed_start = Some (mkKSplice (Spliced (Ok tt)) true)) by (vm_compute; reflexivity).
  destruct (killed_splice_cuts_off demo_before demo_after _ Hc Hr) as (s1 & _ & _ & Hq & _).
  split; [exact Hc|]. split; [exact Hr|]. split; [reflexivity|]. split; [reflexivity|]. split; [exact Hq|reflexivity].
Defined.
