(* ===== verification/TcpProxy.v ===== *)
(** * The TCP proxy: [src/tunnel/proxy.rs]

    The local listeners of [noa proxy] and [noa proxy-multi]: the mapping of a service
    to a port, the accept loop of each, and the loops side by side until one ends.  The
    splice of an accepted socket is in Splice. *)

From S2P Require Import Prelude EdgeWire Address.

Local Open Scope string_scope.

(** ** Mappings *)

Definition parse_service_port (spec : string) : result string (string * Z) :=
  '(service, port) ← ok_or ("'" +:+ spec +:+ "': se esperaba <servicio>:<puerto>") (rsplit_once colon spec);
  if bool_decide (service = "") then Err ("'" +:+ spec +:+ "': nombre de servicio vacío")
  else
    match parse_u16 port with
    | Some p => if negb (p =? 0)%Z then Ok (service, p) else Err ("'" +:+ spec +:+ "': puerto inválido '" +:+ port +:+ "'")
    | None => Err ("'" +:+ spec +:+ "': puerto inválido '" +:+ port +:+ "'")
    end.

Local Close Scope string_scope.

(** ** Listeners *)

Section proxy.
Context {socket conn : Type}.

(** An accepted socket is handled by a task of its own, for the service. *)
Definition spawned : Type := socket * string.

(** [run_tcp_proxy] at an [accept] that ends: a task, or the end of the loop. *)
Definition run_tcp_proxy (service : string) (accepted : result string socket) : result string spawned :=
  sock ← accepted; Ok (sock, service).

(** [handle_conn]: what there is to splice once the dial has ended. *)
Definition handle_conn (connect : string → result EdgeError conn) (s : spawned) : option (conn * socket) :=
  match connect s.2 with Ok svc => Some (svc, s.1) | Err _ => None end.

(** [run_tcp_proxies]: an event is an [accept] of one of the bindings that ends; the
    result is there once a loop has ended, with which the others go. *)
Fixpoint run_tcp_proxies (bindings : list string) (es : list (nat * result string socket)) : list spawned * option (result string unit) :=
  match bindings with
  | [] => ([], Some (Ok tt))
  | _ =>
      match es with
      | [] => ([], None)
      | (i, accepted) :: es =>
          match bindings !! i with
          | None => run_tcp_proxies bindings es
          | Some service =>
              match run_tcp_proxy service accepted with
              | Err e => ([], Some (Err e))
              | Ok task => let '(tasks, r) := run_tcp_proxies bindings es in (task :: tasks, r)
              end
          end
      end
  end.

End proxy.

(** ** Properties *)

Lemma rsplit_once_Some c s l r : rsplit_once c s = Some (l, r) → s = (l +:+ String c r)%string ∧ occurs c r = false.
Proof.
  revert l. induction s as [|a s IH]; intros l; cbn; [done|]. destruct (rsplit_once c s) as [[l' r']|] eqn:E.
  - intros [= <- <-]. destruct (IH l' eq_refl) as [-> Ho]. by split.
  - destruct (ascii_dec a c) as [->|]; [|done]. intros [= <- <-]. split; [done|]. clear IH. revert E.
    induction s as [|b s IH]; cbn; [done|]. destruct (rsplit_once c s) as [[]|]; [done|]. destruct (ascii_dec b c); [done|]. intros _. by apply IH.
Qed.

(** A mapping is read exactly where its last colon parts a service from a port; the
    service may contain colons. *)
Theorem parse_service_port_outcome spec service port :
  parse_service_port spec = Ok (service, port) ↔
  ∃ text, spec = (service +:+ String colon text)%string ∧ occurs colon text = false ∧ service ≠ EmptyString ∧
    parse_u16 text = Some port ∧ port ≠ 0.
Proof.
  unfold parse_service_port. split.
  - destruct (rsplit_once colon spec) as [[s t]|] eqn:E; cbn; [|done]. case_bool_decide as Hs; [done|].
    destruct (parse_u16 t) as [p|] eqn:Ep; [|done]. destruct (Z.eqb_spec p 0) as [Hp|Hp]; cbn; [done|]. intros [= <- <-].
    apply rsplit_once_Some in E as [-> Ho]. by exists t.
  - intros (t & -> & Ho & Hs & Hp & Hne). rewrite rsplit_once_app by done. cbn. rewrite bool_decide_eq_false_2 by done. rewrite Hp.
    by rewrite (proj2 (Z.eqb_neq _ _) Hne).
Qed.

(** The sockets accepted by the bindings, each with its service. *)
Definition tasks_of {socket} (bindings : list string) (es : list (nat * result string socket)) : list (socket * string) :=
  omap (λ e, match e.2 with Ok sock => pair sock <$> bindings !! e.1 | Err _ => None end) es.
Definition good {socket} (e : nat * result string socket) : Prop := is_Some (match e.2 with Ok sock => Some sock | Err _ => None end).

(** The loops go on while the listeners accept, with a task for each socket and the
    service of its listener; the first failure of any of them ends all, and only the
    sockets before it have had a task. *)
Theorem tcp_proxies_outcome {socket} bindings (es : list (nat * result string socket)) :
  bindings ≠ [] → Forall (λ e, e.1 < length bindings)%nat es →
  (run_tcp_proxies bindings es).2 ≠ Some (Ok tt) ∧
  ((run_tcp_proxies bindings es).2 = None ↔ Forall good es) ∧
  (Forall good es → (run_tcp_proxies bindings es).1 = tasks_of bindings es) ∧
  ∀ e, (run_tcp_proxies bindings es).2 = Some (Err e) →
    ∃ before i after, es = before ++ (i, Err e) :: after ∧ Forall good before ∧ (run_tcp_proxies bindings es).1 = tasks_of bindings before.
Proof.
  intros Hne. induction es as [|[i r] es IH]; intros Hes.
  - destruct bindings; [done|]. cbn. split_and!; [done|by split|done|done].
  - apply Forall_cons in Hes as [Hi Hes]. destruct (IH Hes) as (H1 & H2 & H3 & H4). cbn in Hi. apply lookup_lt_is_Some_2 in Hi as [service Hi].
    assert (Hrun : run_tcp_proxies bindings ((i, r) :: es) = match r with
      | Err e => ([], Some (Err e)) | Ok sock => ((sock, service) :: (run_tcp_proxies bindings es).1, (run_tcp_proxies bindings es).2) end).
    { destruct bindings as [|b bs]; [done|]. cbn [run_tcp_proxies]. rewrite Hi. destruct r as [sock|e]; cbn; [|done].
      by destruct (run_tcp_proxies (b :: bs) es). }
    rewrite Hrun. destruct r as [sock|e]; cbn [fst snd].
    + assert (Hg : Forall good ((i, Ok sock) :: es) ↔ Forall good es) by (rewrite Forall_cons; split; [by intros [_ ?]|intros; split; [by eexists|done]]).
      rewrite Hg. split; [done|]. split; [done|]. split.
      * intros Hall. rewrite (H3 Hall). unfold tasks_of. cbn. by rewrite Hi.
      * intros e He. destruct (H4 e He) as (before & j & after & -> & Hb & Ht). exists ((i, Ok sock) :: before), j, after.
        split; [done|]. split; [constructor; [by eexists|done]|]. rewrite Ht. unfold tasks_of. cbn. by rewrite Hi.
    + split; [done|]. split; [split; [done|]; intros [[? ?] _]%Forall_cons; done|]. split; [intros [[? ?] _]%Forall_cons; done|].
      intros e' [= <-]. by exists [], i, es.
Qed.
