(* ===== verification/UdpProxy.v ===== *)
(** * The UDP proxy: [src/tunnel/udp/]

    A local UDP socket whose datagrams go, by source address, to flows that each dial
    the service: the manager with its map of flows, the task of each flow - its dial,
    its two pumps under [join!], the closing window - and their interleaving on the
    one thread that runs them, an event for each time a future is polled past an
    await. *)

From S2P Require Import Prelude EdgeWire IpAddr Splice.

Definition SocketAddr : Type := IpAddr * Z.

Definition VCONN_QUEUE_DEPTH : nat := 16.
(** In milliseconds. *)
Definition VCONN_IDLE_TIMEOUT : Z := 5 * 60 * 1000.

(** ** A flow's handle (mod.rs, flow.rs)

    The channel of datagrams with its receiver still there or not, and the two shared
    cells. *)
Record Vconn : Type := mkVconn {
  queue : list (list Z);
  receiving : bool;
  last_use : Z;
  closed : bool
}.

Inductive RouteAction : Type := Deliver | CreateNew.

Definition bump (now : Z) (v : Vconn) : Vconn := mkVconn (queue v) (receiving v) now (closed v).
Definition set_queue (q : list (list Z)) (v : Vconn) : Vconn := mkVconn q (receiving v) (last_use v) (closed v).

(** [try_send], and whether it took the datagram. *)
Definition try_send (datagram : list Z) (v : Vconn) : bool * Vconn :=
  if receiving v && bool_decide (length (queue v) < VCONN_QUEUE_DEPTH)%nat
  then (true, set_queue (queue v ++ [datagram]) v) else (false, v).

Definition deliver (v : Vconn) (datagram : list Z) : bool * Vconn := try_send datagram v.

(** [duration_since] is zero when the clock is behind. *)
Definition keeps (idle_timeout now : Z) (v : Vconn) : bool :=
  if closed v then false else Z.max 0 (now - last_use v) <=? idle_timeout.

(** ** A flow's task (vconn.rs, pump.rs) *)

(** [udp_pieces]: chunks of at most [max] bytes. *)
Fixpoint udp_pieces (fuel : nat) (chunk : list Z) (max : nat) : list (list Z) :=
  match fuel, chunk with
  | S fuel, _ :: _ => take max chunk :: udp_pieces fuel (drop max chunk) max
  | _, _ => []
  end.

(** Where a pump is: at the top of its loop, in a write - one of the drain with what
    is left of the snapshot -, or returned. *)
Inductive up_pc : Type := UpSelect | UpWriting (d : list Z) | UpDraining (d : list Z) (turns : nat) | UpReturned.
Inductive down_pc : Type := DownSelect | DownSending (pieces : list (list Z)) | DownReturned.

Inductive vtask : Type :=
| Connecting
| Pumping (up : up_pc) (down : down_pc) (done : bool)
| Closing
| Over.

(** A flow: its source, its handle, whether the manager still holds it, its task; and
    what happened to it: the datagrams its queue took, those written to the
    connection, whether a write or the dial failed, the chunks read from the
    connection and the datagrams sent back. *)
Record flow : Type := mkFlow {
  src : SocketAddr;
  handle : Vconn;
  held : bool;
  task : vtask;
  delivered : list (list Z);
  written : list (list Z);
  failed : bool;
  chunks : list (list Z);
  replies : list (list Z)
}.

Definition set_handle (v : Vconn) (f : flow) : flow :=
  mkFlow (src f) v (held f) (task f) (delivered f) (written f) (failed f) (chunks f) (replies f).
Definition set_task (t : vtask) (f : flow) : flow :=
  mkFlow (src f) (handle f) (held f) t (delivered f) (written f) (failed f) (chunks f) (replies f).
Definition release (f : flow) : flow :=
  mkFlow (src f) (handle f) false (task f) (delivered f) (written f) (failed f) (chunks f) (replies f).
Definition set_failed (f : flow) : flow :=
  mkFlow (src f) (handle f) (held f) (task f) (delivered f) (written f) true (chunks f) (replies f).
Definition add_delivered (d : list Z) (f : flow) : flow :=
  mkFlow (src f) (handle f) (held f) (task f) (delivered f ++ [d]) (written f) (failed f) (chunks f) (replies f).
Definition add_written (d : list Z) (f : flow) : flow :=
  mkFlow (src f) (handle f) (held f) (task f) (delivered f) (written f ++ [d]) (failed f) (chunks f) (replies f).
Definition add_chunk (b : list Z) (f : flow) : flow :=
  mkFlow (src f) (handle f) (held f) (task f) (delivered f) (written f) (failed f) (chunks f ++ [b]) (replies f).
Definition add_reply (b : list Z) (f : flow) : flow :=
  mkFlow (src f) (handle f) (held f) (task f) (delivered f) (written f) (failed f) (chunks f) (replies f ++ [b]).

Definition close_handle (f : flow) : flow :=
  set_handle (mkVconn (queue (handle f)) (receiving (handle f)) (last_use (handle f)) true) f.
(** The receiver goes with the task. *)
Definition drop_receiver (f : flow) : flow :=
  set_handle (mkVconn [] false (last_use (handle f)) (closed (handle f))) f.

(** [join!]: both have returned. *)
Definition joined (up : up_pc) (down : down_pc) (done : bool) : vtask :=
  match up, down with UpReturned, DownReturned => Closing | _, _ => Pumping up down done end.

(** A pump returns into [mark_closed]: the flag first, then the signal. *)
Definition mark_closed_up (down : down_pc) (f : flow) : flow := set_task (joined UpReturned down true) (close_handle f).
Definition mark_closed_down (up : up_pc) (f : flow) : flow := set_task (joined up DownReturned true) (close_handle f).

(** [drain_queued_to_ziti] with [turns] to go: up to its next write. *)
Definition drain_queued_to_ziti (now : Z) (turns : nat) (down : down_pc) (f : flow) : flow :=
  match turns, queue (handle f) with
  | S turns, d :: q => set_task (Pumping (UpDraining d turns) down true) (set_handle (bump now (set_queue q (handle f))) f)
  | _, _ => mark_closed_up down f
  end.

(** [pump_udp_to_ziti] at its [select!]: the signal first; [None] is a wait. *)
Definition pump_udp_to_ziti (now : Z) (down : down_pc) (done : bool) (f : flow) : option flow :=
  if done then Some (drain_queued_to_ziti now (length (queue (handle f))) down f)
  else
    match queue (handle f) with
    | d :: q => Some (set_task (Pumping (UpWriting d) down done) (set_handle (bump now (set_queue q (handle f))) f))
    | [] => if held f then None else Some (mark_closed_up down f)
    end.

(** A write of the pump ends. *)
Definition up_wrote (now : Z) (ok : bool) (up : up_pc) (down : down_pc) (done : bool) (f : flow) : option flow :=
  match up with
  | UpWriting d =>
      Some (if ok then set_task (Pumping UpSelect down done) (add_written d f) else mark_closed_up down (set_failed f))
  | UpDraining d turns =>
      Some (if ok then drain_queued_to_ziti now turns down (add_written d f) else mark_closed_up down (set_failed f))
  | _ => None
  end.

(** [pump_ziti_to_udp]: a read of the connection ends - [None] is its end or an error -
    unless the signal is there. *)
Definition pump_ziti_to_udp (now : Z) (split : nat) (chunk : option (list Z)) (up : up_pc) (done : bool) (f : flow) : flow :=
  if done then mark_closed_down up f
  else
    match chunk with
    | None => mark_closed_down up f
    | Some b =>
        let f := set_handle (bump now (handle f)) (add_chunk b f) in
        set_task (Pumping up (match udp_pieces (length b) b split with [] => DownSelect | ps => DownSending ps end) done) f
    end.

(** A [send_to] ends, unless the signal is there. *)
Definition down_sent (ok : bool) (p : list Z) (ps : list (list Z)) (up : up_pc) (done : bool) (f : flow) : flow :=
  if done then mark_closed_down up f
  else if ok then set_task (Pumping up (match ps with [] => DownSelect | _ => DownSending ps end) done) (add_reply p f)
  else mark_closed_down up f.

(** ** The manager (flow.rs, vconn.rs, runner.rs) *)

(** [conns] holds the number of the flow whose handle is there; [fates] tells which
    flow's queue took each datagram received, if one did. *)
Record proxy : Type := mkProxy {
  conns : gmap SocketAddr nat;
  flows : gmap nat flow;
  fates : list (SocketAddr * list Z * option nat)
}.

Definition udp_start : proxy := mkProxy ∅ ∅ [].

Definition set_flow (i : nat) (f : flow) (s : proxy) : proxy := mkProxy (conns s) (<[i := f]> (flows s)) (fates s).
Definition add_fate (a : SocketAddr) (d : list Z) (o : option nat) (s : proxy) : proxy :=
  mkProxy (conns s) (flows s) (fates s ++ [(a, d, o)]).

(** The entry of a source goes, and with it the sender. *)
Definition remove_conn (a : SocketAddr) (i : nat) (s : proxy) : proxy :=
  mkProxy (delete a (conns s)) (alter release i (flows s)) (fates s).

Definition route_decision (a : SocketAddr) (s : proxy) : RouteAction * proxy :=
  match conns s !! a with
  | Some i =>
      match flows s !! i with
      | Some f => if negb (closed (handle f)) then (Deliver, s) else (CreateNew, remove_conn a i s)
      | None => (CreateNew, s)
      end
  | None => (CreateNew, s)
  end.

(** [i] is the number of the flow it would create. *)
Definition create_vconn (i : nat) (now : Z) (a : SocketAddr) (first : list Z) (s : proxy) : proxy :=
  let '(_, v) := try_send first (mkVconn [] true now false) in
  mkProxy (<[a := i]> (conns s)) (<[i := mkFlow a v true Connecting [first] [] false [] []]> (flows s)) (fates s ++ [(a, first, Some i)]).

Definition route_datagram (i : nat) (now : Z) (a : SocketAddr) (datagram : list Z) (s : proxy) : proxy :=
  match route_decision a s with
  | (Deliver, s) =>
      match conns s !! a ≫= λ j, pair j <$> flows s !! j with
      | Some (j, f) =>
          let '(took, v) := deliver (handle f) datagram in
          if took : bool then add_fate a datagram (Some j) (set_flow j (add_delivered datagram (set_handle v f)) s)
          else add_fate a datagram None s
      | None => add_fate a datagram None s
      end
  | (CreateNew, s) => create_vconn i now a datagram s
  end.

Definition kept (idle_timeout now : Z) (s : proxy) (i : nat) : bool :=
  match flows s !! i with Some f => keeps idle_timeout now (handle f) | None => false end.

Definition drop_expired (idle_timeout now : Z) (s : proxy) : proxy :=
  let stays := filter (λ kv, kept idle_timeout now s kv.2 = true) (conns s) in
  mkProxy stays
    (map_imap (λ i f, Some (if bool_decide (conns s !! src f = Some i) && negb (kept idle_timeout now s i) then release f else f)) (flows s))
    (fates s).

(** ** The run *)

Inductive event : Type :=
| Received (i : nat) (now : Z) (a : SocketAddr) (datagram : list Z)
| Ticked (now : Z)
| Dialed (i : nat) (ok : bool)
| UpPolled (i : nat) (now : Z)
| UpWrote (i : nat) (now : Z) (ok : bool)
| DownRead (i : nat) (now : Z) (chunk : option (list Z))
| DownSent (i : nat) (ok : bool)
| ZitiClosed (i : nat).

(** What an event of a flow's task does to it. *)
Definition flow_step (e : event) (f : flow) : option flow :=
  match e, task f with
  | Dialed _ ok, Connecting =>
      Some (if ok : bool then set_task (Pumping UpSelect DownSelect false) f
            else set_task Over (drop_receiver (close_handle (set_failed f))))
  | UpPolled _ now, Pumping UpSelect down done => pump_udp_to_ziti now down done f
  | UpWrote _ now ok, Pumping up down done => up_wrote now ok up down done f
  | DownRead _ now chunk, Pumping up DownSelect done => Some (pump_ziti_to_udp now (Z.to_nat PROXY_BUF) chunk up done f)
  | DownSent _ ok, Pumping up (DownSending (p :: ps)) done => Some (down_sent ok p ps up done f)
  | ZitiClosed _, Closing => Some (set_task Over (drop_receiver f))
  | _, _ => None
  end.

Definition flow_of (e : event) : option nat :=
  match e with
  | Received _ _ _ _ | Ticked _ => None
  | Dialed i _ | UpPolled i _ | UpWrote i _ _ | DownRead i _ _ | DownSent i _ | ZitiClosed i => Some i
  end.

Definition udp_step (e : event) (s : proxy) : option proxy :=
  match e with
  | Received i now a d => if bool_decide (flows s !! i = None) then Some (route_datagram i now a d s) else None
  | Ticked now => Some (drop_expired VCONN_IDLE_TIMEOUT now s)
  | _ =>
      i ← flow_of e;
      f ← flows s !! i;
      f ← flow_step e f;
      Some (set_flow i f s)
  end.

Fixpoint udp_run (es : list event) (s : proxy) : option proxy :=
  match es with
  | [] => Some s
  | e :: es => s ← udp_step e s; udp_run es s
  end.

(** ** Invariants of a flow *)

Definition in_flight (t : vtask) : list (list Z) :=
  match t with Pumping (UpWriting d | UpDraining d _) _ _ => [d] | _ => [] end.

(** The datagrams: written, in flight, lost, waiting - in that order, none lost unless
    a write or the dial failed; and what each state of the task implies. *)
Definition at_rest (f : flow) : Prop := closed (handle f) = true ∧ (failed f = false → queue (handle f) = []).

Definition task_ok (f : flow) : Prop :=
  match task f with
  | Connecting => closed (handle f) = false ∧ failed f = false
  | Pumping up down done =>
      (done = true → closed (handle f) = true) ∧
      match up with
      | UpReturned => at_rest f
      | UpDraining _ turns => done = true ∧ turns = length (queue (handle f)) ∧ failed f = false
      | _ => failed f = false
      end
  | Closing | Over => at_rest f
  end.

Record data_ok (f : flow) : Prop := {
  do_data : ∃ lost, delivered f = written f ++ in_flight (task f) ++ lost ++ queue (handle f) ∧ (failed f = false → lost = []);
  do_task : task_ok f;
  do_receiving : task f ≠ Over → receiving (handle f) = true
}.

Lemma close_ok down f :
  data_ok f → in_flight (task f) = [] → task f ≠ Over → (failed f = false → queue (handle f) = []) →
  data_ok (mark_closed_up down f).
Proof.
  intros [(lost & Hd & Hl) Ht Hr] Hin Hover Hq. rewrite Hin in Hd. specialize (Hr Hover). destruct f as [a [q rx lu cl] h t dl w fl ch rp]; cbn in *.
  split; cbn; [exists lost|..|done].
  - by destruct down.
  - unfold task_ok, at_rest. destruct down; cbn; auto.
Qed.

Lemma drain_ok now turns down f :
  data_ok f → in_flight (task f) = [] → task f ≠ Over → closed (handle f) = true → failed f = false →
  turns = length (queue (handle f)) → data_ok (drain_queued_to_ziti now turns down f).
Proof.
  intros Hok Hin Hover Hc Hf ->. unfold drain_queued_to_ziti. destruct (queue (handle f)) as [|d q] eqn:Eq; cbn [length].
  - by apply close_ok.
  - destruct Hok as [(lost & Hd & Hl) Ht Hr]. rewrite Hin, Eq, (Hl Hf) in Hd. specialize (Hr Hover).
    destruct f as [a [q0 rx lu cl] h t dl w fl ch rp]; cbn in *. subst. split; cbn; [by exists []| |done].
    unfold task_ok. cbn. auto.
Qed.

Lemma pump_up_ok now down done f f' :
  data_ok f → task f = Pumping UpSelect down done → pump_udp_to_ziti now down done f = Some f' → data_ok f'.
Proof.
  intros Hok Ht. assert (Hin : in_flight (task f) = []) by (by rewrite Ht). assert (Hover : task f ≠ Over) by (by rewrite Ht).
  pose proof (do_task _ Hok) as Htask. unfold task_ok in Htask. rewrite Ht in Htask. destruct Htask as [Hdone Hf].
  unfold pump_udp_to_ziti. destruct done.
  - intros [= <-]. apply drain_ok; auto.
  - destruct (queue (handle f)) as [|d q] eqn:Eq.
    + destruct (held f); [done|]. intros [= <-]. by apply close_ok.
    + intros [= <-]. destruct Hok as [(lost & Hd & Hl) _ Hr]. rewrite Hin, Eq, (Hl Hf) in Hd. specialize (Hr Hover).
      destruct f as [a [q0 rx lu cl] h t dl w fl ch rp]; cbn in *. subst. split; cbn; [by exists []| |done].
      unfold task_ok. cbn. auto.
Qed.

Lemma up_wrote_ok now ok up down done f f' :
  data_ok f → task f = Pumping up down done → up_wrote now ok up down done f = Some f' → data_ok f'.
Proof.
  intros Hok Ht. destruct Hok as [(lost & Hd & Hl) Htask Hr]. unfold task_ok in Htask. rewrite Ht in Htask, Hd, Hr.
  destruct Htask as [Hdone Hup]. specialize (Hr ltac:(done)).
  assert (Hfail : ∀ d, in_flight (Pumping up down done) = [d] → failed f = false → data_ok (mark_closed_up down (set_failed f))).
  { intros d Hin Hf. rewrite Hin, (Hl Hf) in Hd. destruct f as [a [q rx lu cl] h t dl w fl ch rp]; cbn in *. subst.
    split; cbn; [exists [d]; split; [by destruct down|done]| |done]. unfold task_ok, at_rest. destruct down; cbn; naive_solver. }
  assert (Hwrote : ∀ d t', in_flight (Pumping up down done) = [d] → failed f = false → in_flight t' = [] → t' ≠ Over →
      task_ok (set_task t' (add_written d f)) → data_ok (set_task t' (add_written d f))).
  { intros d t' Hin Hf Ht' Ho Hto. rewrite Hin, (Hl Hf) in Hd. destruct f as [a [q rx lu cl] h t dl w fl ch rp]; cbn in *. subst.
    split; cbn; [|exact Hto|done]. exists []. split; [|done]. by rewrite Ht', <- app_assoc. }
  destruct up as [|d|d turns|]; [done| | |done]; intros [= <-].
  - destruct ok; [|by eapply Hfail]. apply Hwrote; try done.
  - destruct Hup as (-> & -> & Hf). destruct ok; [|by eapply Hfail].
    assert (Hd0 : data_ok (set_task (Pumping UpSelect down true) (add_written d f))) by (apply Hwrote; try done; unfold task_ok; cbn; auto).
    assert (Heq : drain_queued_to_ziti now (length (queue (handle f))) down (add_written d f) =
      drain_queued_to_ziti now (length (queue (handle f))) down (set_task (Pumping UpSelect down true) (add_written d f))).
    { unfold drain_queued_to_ziti. cbn. by destruct (length _), (queue _). }
    rewrite Heq. apply drain_ok; [exact Hd0|done|done|cbn; auto|done|done].
Qed.

(** What the other pump does leaves the datagrams alone. *)
Lemma down_keeps_data f f' :
  data_ok f → delivered f' = delivered f → written f' = written f → failed f' = failed f → queue (handle f') = queue (handle f) →
  receiving (handle f') = receiving (handle f) → in_flight (task f') = in_flight (task f) → task f ≠ Over → task_ok f' → data_ok f'.
Proof.
  intros [(lost & Hd & Hl) Ht Hr] Hdl Hw Hf Hq Hrx Hin Ho Hto. split; [|done|].
  - exists lost. by rewrite Hdl, Hw, Hq, Hin, Hf.
  - intros _. rewrite Hrx. by apply Hr.
Qed.

Lemma mark_down_ok up f : data_ok f → (∃ down done, task f = Pumping up down done) → data_ok (mark_closed_down up f).
Proof.
  intros Hok (down & done & Ht). apply (down_keeps_data f); try done.
  - rewrite Ht. by destruct up.
  - by rewrite Ht.
  - pose proof (do_task _ Hok) as Hto. unfold task_ok in *. rewrite Ht in Hto. destruct Hto as [_ Hup].
    destruct up; cbn; try (by split_and!); unfold at_rest in *; cbn; naive_solver.
Qed.

Lemma down_step_ok f f' up down done down' :
  data_ok f → task f = Pumping up down done → task f' = Pumping up down' done → delivered f' = delivered f →
  written f' = written f → failed f' = failed f → queue (handle f') = queue (handle f) → receiving (handle f') = receiving (handle f) →
  closed (handle f') = closed (handle f) → data_ok f'.
Proof.
  intros Hok Ht Ht' Hdl Hw Hf Hq Hrx Hc. apply (down_keeps_data f); try done.
  - by rewrite Ht, Ht'.
  - by rewrite Ht.
  - pose proof (do_task _ Hok) as Hto. unfold task_ok, at_rest in *. rewrite Ht in Hto. rewrite Ht', Hc, Hq, Hf. exact Hto.
Qed.

Lemma flow_step_ok e f f' : data_ok f → flow_step e f = Some f' → data_ok f'.
Proof.
  intros Hok. destruct e as [| |i ok|i now|i now ok|i now chunk|i ok|i]; cbn; destruct (task f) as [|up down done| |] eqn:Ht; intros Hs; try discriminate Hs.
  - injection Hs as <-. destruct Hok as [(lost & Hd & Hl) Hto Hr]. unfold task_ok in Hto. rewrite Ht in *. destruct Hto as [Hc Hf].
    rewrite (Hl Hf) in Hd. destruct ok.
    + split; cbn; [exists []; by rewrite Hd| |intros _; by apply Hr]. unfold task_ok. cbn. by split.
    + split; cbn; [|by split|done]. exists (queue (handle f)). split; [by rewrite app_nil_r, Hd|done].
  - destruct up; try discriminate Hs. by eapply pump_up_ok.
  - by eapply up_wrote_ok.
  - destruct down; try discriminate Hs. injection Hs as <-. unfold pump_ziti_to_udp. destruct done; [apply mark_down_ok; eauto|].
    destruct chunk as [b|]; [|apply mark_down_ok; eauto]. by eapply (down_step_ok f).
  - destruct down as [|[|p ps]|]; try discriminate Hs. injection Hs as <-. unfold down_sent. destruct done; [apply mark_down_ok; eauto|].
    destruct ok; [by eapply (down_step_ok f)|apply mark_down_ok; eauto].
  - injection Hs as <-. destruct Hok as [(lost & Hd & Hl) Hto Hr]. unfold task_ok, at_rest in Hto. rewrite Ht in *. destruct Hto as [Hc Hq].
    cbn in Hd. split; cbn; [|by split|done]. destruct (failed f).
    + exists (lost ++ queue (handle f)). split; [by rewrite app_nil_r|done].
    + exists []. rewrite Hq, Hl in Hd by done. split; [by rewrite Hd|done].
Qed.

(** The way back: what was read is what was sent back, what is still to send, and -
    once the pump has returned - a rest. *)
Definition pending (t : vtask) : list (list Z) := match t with Pumping _ (DownSending ps) _ => ps | _ => [] end.
Definition reading (t : vtask) : bool :=
  match t with Connecting | Pumping _ (DownSelect | DownSending _) _ => true | _ => false end.
Definition fits (b : list Z) : Prop := b ≠ [] ∧ Z.of_nat (length b) <= PROXY_BUF.

Record back_ok (f : flow) : Prop := {
  bo_data : ∃ rest, concat (chunks f) = concat (replies f) ++ concat (pending (task f)) ++ rest ∧ (reading (task f) = true → rest = []);
  bo_fits : Forall fits (replies f ++ pending (task f))
}.

Lemma udp_pieces_spec fuel b :
  (length b <= fuel)%nat →
  concat (udp_pieces fuel b (Z.to_nat PROXY_BUF)) = b ∧ Forall fits (udp_pieces fuel b (Z.to_nat PROXY_BUF)).
Proof.
  assert (Hbuf : (0 < Z.to_nat PROXY_BUF)%nat) by (unfold PROXY_BUF; lia).
  remember (Z.to_nat PROXY_BUF) as max eqn:Emax.
  revert b. induction fuel as [|fuel IH]; intros b Hb; [by destruct b; cbn in *; [|lia]|].
  destruct b as [|x b]; [done|]. cbn [udp_pieces concat]. destruct (IH (drop max (x :: b))) as [Hc Hf].
  { rewrite length_drop. cbn in *. lia. }
  split; [by rewrite Hc, take_drop|]. constructor; [|done]. split.
  - destruct max; [lia|done].
  - rewrite length_take. subst max. unfold PROXY_BUF in *. lia.
Qed.

(** A step that leaves the way back alone, or ends it. *)
Lemma back_same f f' :
  back_ok f → chunks f' = chunks f → replies f' = replies f →
  (pending (task f') = pending (task f) ∧ reading (task f') = reading (task f)) ∨ (pending (task f') = [] ∧ reading (task f') = false) →
  back_ok f'.
Proof.
  intros [(rest & Hc & Hr) Hf] Hch Hre [[Hp Hrd]|[Hp Hrd]]; split; rewrite ?Hch, ?Hre, ?Hp, ?Hrd; eauto.
  - exists (concat (pending (task f)) ++ rest). by split.
  - rewrite app_nil_r. by apply Forall_app in Hf as [? _].
Qed.

Lemma drain_back now turns down f : 
  chunks (drain_queued_to_ziti now turns down f) = chunks f ∧ replies (drain_queued_to_ziti now turns down f) = replies f ∧
  pending (task (drain_queued_to_ziti now turns down f)) = pending (Pumping UpSelect down true) ∧
  reading (task (drain_queued_to_ziti now turns down f)) = reading (Pumping UpSelect down true).
Proof. unfold drain_queued_to_ziti. destruct turns, (queue (handle f)); by destruct down. Qed.

Lemma flow_step_back e f f' : back_ok f → flow_step e f = Some f' → back_ok f'.
Proof.
  intros Hok. destruct e as [| |i ok|i now|i now ok|i now chunk|i ok|i]; cbn; destruct (task f) as [|up down done| |] eqn:Ht;
    intros Hs; try discriminate Hs.
  - injection Hs as <-. apply (back_same f); [done|by destruct ok..|]. rewrite Ht. destruct ok; [by left|by right].
  - destruct up; try discriminate Hs. unfold pump_udp_to_ziti in Hs. apply (back_same f); [done|..]; rewrite ?Ht.
    all: destruct done; [injection Hs as <-; apply drain_back || (left; destruct (drain_back now (length (queue (handle f))) down f) as (_ & _ & -> & ->); by destruct down)|].
    all: destruct (queue (handle f)); [destruct (held f); [discriminate Hs|]|]; injection Hs as <-; try done; left; by destruct down.
  - apply (back_same f); [done|..]; rewrite ?Ht; destruct up as [|d|d turns|]; try discriminate Hs; cbn in Hs; injection Hs as <-;
      destruct ok; try done; try apply (drain_back _ _ _ (add_written d f)); left;
      try (destruct (drain_back now turns down (add_written d f)) as (_ & _ & -> & ->)); by destruct down.
  - destruct down; try discriminate Hs. injection Hs as <-. unfold pump_ziti_to_udp.
    assert (Hend : back_ok (mark_closed_down up f)) by (apply (back_same f); [done..|right; by destruct up]).
    destruct done; [done|]. destruct chunk as [b|]; [|done].
    destruct Hok as [(rest & Hc & Hr) Hf]. rewrite Ht in *. cbn in Hc, Hf. rewrite (Hr eq_refl), !app_nil_r in *.
    destruct (udp_pieces_spec (length b) b) as [Hcat Hfit]; [done|].
    assert (Hp : pending (task (set_task (Pumping up (match udp_pieces (length b) b (Z.to_nat PROXY_BUF) with [] => DownSelect
      | ps => DownSending ps end) false) f)) = udp_pieces (length b) b (Z.to_nat PROXY_BUF)) by (cbn; by destruct (udp_pieces _ _ _)).
    split; cbn [chunks replies task set_task set_handle add_chunk] in *.
    + exists []. rewrite Hp, Hcat, concat_app. cbn. by rewrite !app_nil_r, Hc.
    + rewrite Hp. by apply Forall_app_2.
  - destruct down as [|[|p ps]|]; try discriminate Hs. injection Hs as <-. unfold down_sent.
    assert (Hend : back_ok (mark_closed_down up f)) by (apply (back_same f); [done..|right; by destruct up]).
    destruct done; [done|]. destruct ok; [|done].
    destruct Hok as [(rest & Hc & Hr) Hf]. rewrite Ht in *. cbn in Hc, Hf. rewrite (Hr eq_refl), !app_nil_r in *.
    assert (Hp : pending (Pumping up (match ps with [] => DownSelect | _ => DownSending ps end) false) = ps) by (by destruct ps).
    split; cbn [chunks replies task set_task add_reply] in *.
    + exists []. rewrite Hp, Hc, concat_app. cbn. by rewrite !app_nil_r, <- app_assoc.
    + rewrite Hp, <- app_assoc. exact Hf.
  - injection Hs as <-. apply (back_same f); [done..|by right].
Qed.

(** ** Invariant of the proxy *)

(** The datagrams a flow's queue took, and all that were received. *)
Definition taken_by (i : nat) (l : list (SocketAddr * list Z * option nat)) : list (list Z) :=
  omap (λ x, if bool_decide (x.2 = Some i) then Some x.1.2 else None) l.
Definition arrivals (es : list event) : list (SocketAddr * list Z) :=
  omap (λ e, match e with Received _ _ a d => Some (a, d) | _ => None end) es.

Record proxy_ok (s : proxy) : Prop := {
  po_flow i f : flows s !! i = Some f → data_ok f ∧ back_ok f ∧ delivered f = taken_by i (fates s);
  po_conn a i : conns s !! a = Some i → ∃ f, flows s !! i = Some f ∧ src f = a;
  po_fate a d i : (a, d, Some i) ∈ fates s → ∃ f, flows s !! i = Some f ∧ src f = a
}.

Lemma taken_by_snoc i l a d o :
  taken_by i (l ++ [(a, d, o)]) = taken_by i l ++ (if bool_decide (o = Some i) then [d] else []).
Proof. unfold taken_by. rewrite omap_app. cbn. by case_bool_decide. Qed.

Lemma taken_by_none i l : (∀ a d, (a, d, Some i) ∉ l) → taken_by i l = [].
Proof.
  induction l as [|[[a d] o] l IH]; intros Hl; [done|]. cbn. rewrite bool_decide_false.
  - apply IH. intros a' d' Hin. apply (Hl a' d'). by right.
  - cbn. intros ->. apply (Hl a d). left.
Qed.

Arguments taken_by : simpl never.

(** A change of one flow that keeps its source and its deliveries. *)
Lemma set_flow_ok i f f' s :
  proxy_ok s → flows s !! i = Some f → data_ok f' → back_ok f' → src f' = src f → delivered f' = delivered f →
  proxy_ok (set_flow i f' s).
Proof.
  intros [Hf Hc Hx] Hi Hd Hb Hs Hdl.
  assert (Hl : ∀ j, (∃ g, flows s !! j = Some g ∧ ∃ g', <[i := f']> (flows s) !! j = Some g' ∧ src g' = src g) ∨ flows s !! j = None).
  { intros j. destruct (flows s !! j) as [g|] eqn:Hj; [left; exists g; split; [done|]|by right].
    destruct (decide (j = i)) as [->|Hne]; [exists f'; rewrite lookup_insert_eq; split; [done|congruence]|exists g; by rewrite lookup_insert_ne]. }
  split; cbn.
  - intros j g [[<- <-]|[Hne Hj]]%lookup_insert_Some; [|by apply Hf]. split_and!; [done..|]. rewrite Hdl. by apply Hf.
  - intros a j Hj. destruct (Hc a j Hj) as (g & Hg & <-). destruct (Hl j) as [(g0 & Hg0 & g' & Hg' & Hsrc)|Hn]; [|congruence].
    exists g'. split; [done|congruence].
  - intros a d j Hj. destruct (Hx a d j Hj) as (g & Hg & <-). destruct (Hl j) as [(g0 & Hg0 & g' & Hg' & Hsrc)|Hn]; [|congruence].
    exists g'. split; [done|congruence].
Qed.

Lemma release_ok f : data_ok f → data_ok (release f).
Proof. by intros [(lost & Hd & Hl) Ht Hr]; split; [exists lost|..]. Qed.
Lemma release_back f : back_ok f → back_ok (release f).
Proof. by intros [(rest & Hc & Hr) Hf]; split; [exists rest|]. Qed.

Lemma flow_step_same e f f' : flow_step e f = Some f' → src f' = src f ∧ delivered f' = delivered f.
Proof.
  assert (Hdrain : ∀ now n down f, src (drain_queued_to_ziti now n down f) = src f ∧ delivered (drain_queued_to_ziti now n down f) = delivered f).
  { intros now n down g. unfold drain_queued_to_ziti. by destruct n, (queue (handle g)). }
  destruct e as [| |i ok|i now|i now ok|i now chunk|i ok|i]; cbn; destruct (task f) as [|up down done| |]; intros Hs; try discriminate Hs.
  - injection Hs as <-. by destruct ok.
  - destruct up; try discriminate Hs. unfold pump_udp_to_ziti in Hs. destruct done; [injection Hs as <-; apply Hdrain|].
    destruct (queue (handle f)); [destruct (held f); [discriminate Hs|]|]; by injection Hs as <-.
  - destruct up; try discriminate Hs; cbn in Hs; injection Hs as <-; destruct ok; try done. apply (Hdrain _ _ _ (add_written d f)).
  - destruct down; try discriminate Hs. injection Hs as <-. unfold pump_ziti_to_udp. by destruct done, chunk.
  - destruct down as [|[|p ps]|]; try discriminate Hs. injection Hs as <-. unfold down_sent. by destruct done, ok.
  - by injection Hs as <-.
Qed.

Lemma try_send_new d now : try_send d (mkVconn [] true now false) = (true, mkVconn [d] true now false).
Proof. reflexivity. Qed.

Lemma create_ok i now a d s : proxy_ok s → flows s !! i = None → proxy_ok (create_vconn i now a d s).
Proof.
  intros [Hf Hc Hx] Hi. unfold create_vconn. rewrite try_send_new. cbn.
  assert (Hnone : taken_by i (fates s) = []).
  { apply taken_by_none. intros a' d' Hin. destruct (Hx _ _ _ Hin) as (f & Hff & _). congruence. }
  split; cbn.
  - intros j f [[<- <-]|[Hne Hj]]%lookup_insert_Some; rewrite taken_by_snoc.
    + rewrite Hnone, bool_decide_true by done. split_and!; [|split; [by exists []|constructor]|done].
      split; cbn; [by exists []|unfold task_ok; by cbn|done].
    + rewrite bool_decide_false, app_nil_r by congruence. by apply Hf.
  - intros a' j [[<- <-]|[Hne Hj]]%lookup_insert_Some; [rewrite lookup_insert_eq; by eexists|].
    destruct (Hc a' j Hj) as (f & Hff & Hs). exists f. rewrite lookup_insert_ne; [done|congruence].
  - intros a' d' j [Hin|[= -> -> ->]%list_elem_of_singleton]%elem_of_app; [|rewrite lookup_insert_eq; by eexists].
    destruct (Hx a' d' j Hin) as (f & Hff & Hs). exists f. rewrite lookup_insert_ne; [done|congruence].
Qed.

Lemma remove_ok a i f s : proxy_ok s → flows s !! i = Some f → proxy_ok (remove_conn a i s).
Proof.
  intros Hok Hi. assert (Hs : remove_conn a i s = mkProxy (delete a (conns s)) (flows (set_flow i (release f) s)) (fates s)).
  { unfold remove_conn, set_flow. cbn. f_equal. apply map_eq. intros j. destruct (decide (j = i)) as [->|Hne].
    - by rewrite lookup_alter_eq, Hi, lookup_insert_eq.
    - by rewrite lookup_alter_ne, lookup_insert_ne. }
  rewrite Hs. destruct (po_flow _ Hok i f Hi) as (Hd & Hb & _).
  destruct (set_flow_ok i f (release f) s Hok Hi) as [Hf Hc Hx]; [by apply release_ok|by apply release_back|done|done|].
  split; cbn in *; [done| |done]. intros a' j [_ Hj]%lookup_delete_Some. by apply Hc.
Qed.

(** A datagram put on a queue that takes it. *)
Lemma deliver_ok i f a d v s :
  proxy_ok s → flows s !! i = Some f → src f = a → closed (handle f) = false → deliver (handle f) d = (true, v) →
  proxy_ok (add_fate a d (Some i) (set_flow i (add_delivered d (set_handle v f)) s)).
Proof.
  intros [Hf Hc Hx] Hi Ha Hcl Hdel. destruct (Hf i f Hi) as ([(lost & Hd & Hl) Ht Hr] & [Hbd Hbf] & Hdl).
  unfold deliver, try_send in Hdel. destruct (receiving _ && _); [|done]. injection Hdel as <-.
  assert (Hdata : data_ok (add_delivered d (set_handle (set_queue (queue (handle f) ++ [d]) (handle f)) f))).
  { split; cbn; [|unfold task_ok, at_rest in *; cbn in *|done].
    - exists lost. split; [|done]. by rewrite Hd, <- !app_assoc.
    - destruct (task f) as [|up down finished| |]; [exact Ht| |destruct Ht; congruence..].
      destruct Ht as [Hdone Hup]. split; [exact Hdone|]. destruct up; try exact Hup; [|destruct Hup; congruence].
      destruct Hup as [-> _]. by rewrite Hdone in Hcl. }
  split; cbn.
  - intros j g Hj. rewrite taken_by_snoc. apply lookup_insert_Some in Hj as [[<- <-]|[Hne Hj]].
    + rewrite bool_decide_true by done. split_and!; [done|by split|]. cbn. by rewrite Hdl.
    + rewrite bool_decide_false, app_nil_r by congruence. by apply Hf.
  - intros a' j Hj. destruct (Hc a' j Hj) as (g & Hg & <-). destruct (decide (j = i)) as [->|Hne].
    + rewrite lookup_insert_eq. eexists. split; [done|]. cbn. congruence.
    + exists g. by rewrite lookup_insert_ne.
  - assert (Hself : ∃ g, <[i := add_delivered d (set_handle (set_queue (queue (handle f) ++ [d]) (handle f)) f)]> (flows s) !! i = Some g ∧ src g = a)
      by (rewrite lookup_insert_eq; by eexists).
    intros a' d' j [Hin|[= -> -> ->]%list_elem_of_singleton]%elem_of_app; [|done].
    destruct (Hx a' d' j Hin) as (g & Hg & <-). destruct (decide (j = i)) as [->|Hne].
    + replace (src g) with a by congruence. done.
    + exists g. by rewrite lookup_insert_ne.
Qed.

(** The flow that a datagram from a source finds. *)
Definition live_flow (a : SocketAddr) (s : proxy) : option (nat * flow) :=
  j ← conns s !! a; f ← flows s !! j; if closed (handle f) then None else Some (j, f).

Lemma route_cases i now a d s :
  proxy_ok s →
  match live_flow a s with
  | None => ∃ s1, (s1 = s ∨ ∃ j f, flows s !! j = Some f ∧ s1 = remove_conn a j s) ∧ route_datagram i now a d s = create_vconn i now a d s1
  | Some (j, f) =>
      flows s !! j = Some f ∧ src f = a ∧ closed (handle f) = false ∧
      route_datagram i now a d s =
        let '(took, v) := deliver (handle f) d in
        if took : bool then add_fate a d (Some j) (set_flow j (add_delivered d (set_handle v f)) s) else add_fate a d None s
  end.
Proof.
  intros Hok. unfold live_flow, route_datagram, route_decision. destruct (conns s !! a) as [j|] eqn:Ha; cbn.
  - destruct (po_conn _ Hok a j Ha) as (f & Hf & Hs). rewrite Hf. cbn. destruct (closed (handle f)) eqn:Hc; cbn.
    + exists (remove_conn a j s). split; [right; by exists j, f|done].
    + rewrite Ha. cbn. rewrite Hf. done.
  - exists s. split; [by left|done].
Qed.

Lemma route_ok i now a d s : proxy_ok s → flows s !! i = None → proxy_ok (route_datagram i now a d s).
Proof.
  intros Hok Hi. pose proof (route_cases i now a d s Hok) as Hr. destruct (live_flow a s) as [[j f]|].
  - destruct Hr as (Hf & Hs & Hc & ->). destruct (deliver (handle f) d) as [took v] eqn:Hd. destruct took; [by apply deliver_ok|].
    destruct Hok as [Hfl Hco Hfa]. split; cbn.
    + intros k g Hk. rewrite taken_by_snoc, bool_decide_false, app_nil_r by done. by apply Hfl.
    + done.
    + intros a' d' k [Hin|Heq%list_elem_of_singleton]%elem_of_app; [by eapply Hfa|discriminate Heq].
  - destruct Hr as (s1 & [->|(j & f & Hf & ->)] & ->); [by apply create_ok|].
    apply create_ok; [by eapply remove_ok|]. cbn. rewrite lookup_alter_None. done.
Qed.

Lemma expired_ok idle now s : proxy_ok s → proxy_ok (drop_expired idle now s).
Proof.
  intros [Hf Hc Hx]. unfold drop_expired.
  assert (Hl : ∀ j g, flows (drop_expired idle now s) !! j = Some g → ∃ f, flows s !! j = Some f ∧ (g = f ∨ g = release f)).
  { intros j g. cbn. rewrite map_lookup_imap. destruct (flows s !! j) as [f|]; [|done]. cbn. intros [= <-]. exists f. split; [done|].
    case_match; auto. }
  assert (Hr : ∀ j f, flows s !! j = Some f → ∃ g, flows (drop_expired idle now s) !! j = Some g ∧ src g = src f).
  { intros j f Hj. cbn. rewrite map_lookup_imap, Hj. cbn. eexists. split; [done|]. by case_match. }
  split; cbn.
  - intros j g Hj. destruct (Hl j g Hj) as (f & Hff & [->| ->]); destruct (Hf j f Hff) as (? & ? & ?); [done|].
    split_and!; [by apply release_ok|by apply release_back|done].
  - intros a j [Hj _]%map_lookup_filter_Some. destruct (Hc a j Hj) as (f & Hff & <-). destruct (Hr j f Hff) as (g & Hg & Hs). by exists g.
  - intros a d j Hin. destruct (Hx a d j Hin) as (f & Hff & <-). destruct (Hr j f Hff) as (g & Hg & Hs). by exists g.
Qed.

Lemma udp_step_cases e s s' :
  udp_step e s = Some s' →
  (∃ i now a d, e = Received i now a d ∧ flows s !! i = None ∧ s' = route_datagram i now a d s) ∨
  (∃ now, e = Ticked now ∧ s' = drop_expired VCONN_IDLE_TIMEOUT now s) ∨
  (arrivals [e] = [] ∧ ∃ i f f', flows s !! i = Some f ∧ flow_step e f = Some f' ∧ s' = set_flow i f' s).
Proof.
  intros Hs. assert (Hgen : (i ← flow_of e; f ← flows s !! i; f ← flow_step e f; Some (set_flow i f s)) = Some s' →
    ∃ i f f', flows s !! i = Some f ∧ flow_step e f = Some f' ∧ s' = set_flow i f' s).
  { intros (i & _ & (f & Hf & (f' & Hf' & [= <-])%bind_Some)%bind_Some)%bind_Some. by exists i, f, f'. }
  destruct e as [i now a d|now| | | | | |]; cbn [udp_step] in Hs; [| |right; right; split; [done|by apply Hgen]..].
  - left. case_bool_decide as Hi; [|done]. injection Hs as <-. by exists i, now, a, d.
  - right. left. injection Hs as <-. by exists now.
Qed.

Lemma udp_step_ok e s s' : proxy_ok s → udp_step e s = Some s' → proxy_ok s' ∧ (fates s').*1 = (fates s).*1 ++ arrivals [e].
Proof.
  intros Hok [(i & now & a & d & -> & Hi & ->)|[(now & -> & ->)|(Hnil & i & f & f' & Hf & Hstep & ->)]]%udp_step_cases.
  - split; [by apply route_ok|]. pose proof (route_cases i now a d s Hok) as Hr. destruct (live_flow a s) as [[j f]|].
    + destruct Hr as (_ & _ & _ & ->). destruct (deliver (handle f) d) as [[] v]; cbn; by rewrite fmap_app.
    + destruct Hr as (s1 & [->|(j & f & Hf & ->)] & ->); unfold create_vconn; rewrite try_send_new; cbn; by rewrite fmap_app.
  - split; [by apply expired_ok|]. cbn. by rewrite app_nil_r.
  - rewrite Hnil, app_nil_r. split; [|done]. destruct (flow_step_same _ _ _ Hstep) as [Hs Hd].
    destruct (po_flow _ Hok i f Hf) as (? & ? & _).
    apply (set_flow_ok i f); [done|done|by eapply flow_step_ok|by eapply flow_step_back|done|done].
Qed.

Lemma udp_run_ok es s s' : proxy_ok s → udp_run es s = Some s' → proxy_ok s' ∧ (fates s').*1 = (fates s).*1 ++ arrivals es.
Proof.
  revert s. induction es as [|e es IH]; intros s Hok; cbn [udp_run].
  - intros [= <-]. split; [done|]. by rewrite app_nil_r.
  - intros (s1 & Hs & Hrun)%bind_Some. destruct (udp_step_ok e s s1 Hok Hs) as [Hok1 Hf1].
    destruct (IH s1 Hok1 Hrun) as [Hok' ->]. split; [done|]. rewrite Hf1, <- app_assoc. unfold arrivals. by rewrite (omap_app _ [e] es).
Qed.

Lemma udp_start_ok : proxy_ok udp_start.
Proof. split; [done|done|]. intros a d i ?%not_elem_of_nil. done. Qed.

(** ** Properties *)

(** C10. Every datagram is accounted for, in every interleaving of the manager, the flows'
    pumps and their closing windows: each one received is put on the queue of at most
    one flow, of its own source; a flow writes to its connection, each in one piece,
    a beginning of the datagrams its queue took, in the order of their arrival; and if
    its dial and its writes succeed it has written all of them when it is over -
    whether it was evicted, or the connection ended while datagrams were waiting or
    still coming. *)
Theorem udp_datagrams_accounted es s :
  udp_run es udp_start = Some s →
  (fates s).*1 = arrivals es ∧
  (∀ a d i, (a, d, Some i) ∈ fates s → ∃ f, flows s !! i = Some f ∧ src f = a) ∧
  ∀ i f, flows s !! i = Some f →
    delivered f = taken_by i (fates s) ∧ written f `prefix_of` delivered f ∧
    (task f = Over → failed f = false → written f = delivered f).
Proof.
  intros Hrun. destruct (udp_run_ok es _ s udp_start_ok Hrun) as [Hok Hf]. split; [exact Hf|]. split; [apply Hok|].
  intros i f Hi. destruct (po_flow _ Hok i f Hi) as ([(lost & Hd & Hl) Ht _] & _ & Hdl). split; [exact Hdl|].
  split; [rewrite Hd; by eexists|]. intros Hover Hfail. unfold task_ok in Ht. rewrite Hover in Ht, Hd. destruct Ht as [_ Hq].
  rewrite Hd, (Hl Hfail), (Hq Hfail). cbn. by rewrite app_nil_r.
Qed.

(** A datagram is lost on arrival only if its source has a live flow and sixteen
    datagrams wait in that flow's queue; one whose source has no live flow - none, or
    one that is closing - starts a new flow with it. *)
Theorem udp_drops_only_when_full es s i now a d s' :
  udp_run es udp_start = Some s → udp_step (Received i now a d) s = Some s' →
  match live_flow a s with
  | Some (j, f) =>
      if bool_decide (length (queue (handle f)) < VCONN_QUEUE_DEPTH)%nat
      then fates s' = fates s ++ [(a, d, Some j)] ∧ (∃ f', flows s' !! j = Some f' ∧ queue (handle f') = queue (handle f) ++ [d])
      else fates s' = fates s ++ [(a, d, None)] ∧ flows s' = flows s
  | None => fates s' = fates s ++ [(a, d, Some i)] ∧ conns s' !! a = Some i ∧
            ∃ f, flows s' !! i = Some f ∧ task f = Connecting ∧ queue (handle f) = [d]
  end.
Proof.
  intros Hrun Hstep. destruct (udp_run_ok es _ s udp_start_ok Hrun) as [Hok _].
  apply udp_step_cases in Hstep as [(i' & now' & a' & d' & [= <- <- <- <-] & Hi & ->)|[(? & ? & _)|(? & _)]]; [|done..].
  pose proof (route_cases i now a d s Hok) as Hr. destruct (live_flow a s) as [[j f]|].
  - destruct Hr as (Hf & _ & Hc & ->). destruct (po_flow _ Hok j f Hf) as ([_ Ht Hrx] & _ & _).
    unfold deliver, try_send. rewrite Hrx. 2: { intros Ho. unfold task_ok in Ht. rewrite Ho in Ht. destruct Ht. congruence. }
    cbn [andb]. case_bool_decide; [|done]. split; [done|]. cbn. rewrite lookup_insert_eq. by eexists.
  - destruct Hr as (s1 & Hs1 & ->). unfold create_vconn. rewrite try_send_new. cbn. rewrite !lookup_insert_eq.
    split; [by destruct Hs1 as [->|(j & f & _ & ->)]|]. split; [done|]. by eexists.
Qed.

(** The way back: what a flow sends to its source are pieces of what it read from
    the connection, in order and none left out - a beginning of it at any point, and
    all of it whenever it is about to read again; no datagram is empty or longer than
    the buffer. *)
Theorem udp_replies_in_order es s i f :
  udp_run es udp_start = Some s → flows s !! i = Some f →
  concat (replies f) `prefix_of` concat (chunks f) ∧ Forall fits (replies f) ∧
  ∀ up done, task f = Pumping up DownSelect done → concat (replies f) = concat (chunks f).
Proof.
  intros Hrun Hi. destruct (udp_run_ok es _ s udp_start_ok Hrun) as [Hok _].
  destruct (po_flow _ Hok i f Hi) as (_ & [(rest & Hc & Hr) Hf] & _). split; [rewrite Hc; by eexists|].
  split; [by apply Forall_app in Hf as [? _]|]. intros up done Ht. rewrite Ht in Hc, Hr. rewrite Hc, (Hr eq_refl). cbn. by rewrite app_nil_r.
Qed.

(** ** Witnesses *)

(** Two datagrams of one source; the connection is read - a reply - and ends while the
    first is being written; a third datagram in the window starts a second flow, and
    the first one drains its queue. *)
Definition demo_src : SocketAddr := (V4 16909060, 5000).
Definition demo_events : list event :=
  [Received 0 1 demo_src [1]; Received 7 2 demo_src [2]; Dialed 0 true; UpPolled 0 3; DownRead 0 4 (Some [9; 8]); DownSent 0 true;
   DownRead 0 5 None; Received 1 6 demo_src [3]; UpWrote 0 7 true; UpPolled 0 8; UpWrote 0 9 true; ZitiClosed 0].
Definition demo_end : proxy := match udp_run demo_events udp_start with Some s => s | None => udp_start end.
Definition demo_flow : flow := match flows demo_end !! 0%nat with Some f => f | None => mkFlow demo_src (mkVconn [] true 0 false) true Connecting [] [] false [] [] end.

Lemma udp_datagrams_accounted_witness :
  delivered demo_flow = [[1]; [2]] ∧ written demo_flow = delivered demo_flow ∧ (fates demo_end).*2 = [Some 0; Some 0; Some 1]%nat.
Proof.
  split; [vm_compute; reflexivity|]. split; [|vm_compute; reflexivity].
  refine (proj2 (proj2 (proj2 (proj2 (udp_datagrams_accounted demo_events demo_end _)) 0%nat demo_flow _)) _ _); vm_compute; reflexivity.
Defined.

Lemma udp_drops_only_when_full_witness :
  match udp_run (take 1 demo_events) udp_start with
  | Some s => match udp_step (Received 7 2 demo_src [2]) s with
              | Some s' => fates s' = fates s ++ [(demo_src, [2], Some 0%nat)]
              | None => False
              end
  | None => False
  end.
Proof.
  destruct (udp_run (take 1 demo_events) udp_start) as [s|] eqn:Hs; [|vm_compute in Hs; discriminate Hs].
  destruct (udp_step (Received 7 2 demo_src [2]) s) as [s'|] eqn:Hs'.
  - pose proof (udp_drops_only_when_full (take 1 demo_events) s 7 2 demo_src [2] s' Hs Hs') as Hr.
    vm_compute in Hs. injection Hs as <-. exact (proj1 Hr).
  - exfalso. vm_compute in Hs. injection Hs as <-. vm_compute in Hs'. discriminate Hs'.
Defined.

Lemma udp_replies_in_order_witness : concat (replies demo_flow) `prefix_of` [9; 8] ∧ Forall fits (replies demo_flow).
Proof.
  destruct (udp_replies_in_order demo_events demo_end 0%nat demo_flow) as (Hp & Hf & _); [vm_compute; reflexivity..|].
  split; [exact Hp|exact Hf].
Defined.
