(* ===== verification/VconnPump.v ===== *)
(** * An intercepted UDP flow: [src/tunnel/intercept/udp/pump.rs], [udp/vconn.rs]

    The task of one virtual connection of the intercept, from its dial to its close: the
    pumps of UdpProxy, which also watch the token of the flow's service, between the
    queue the manager fills and the replies the IP stack sends.  Proved: what the flow
    writes and sends back is what it was given, in order; and once its service is taken
    away it writes no datagram but the one under way, sends nothing back, and ends within
    a bounded number of operations. *)

From S2P Require Import Prelude EdgeWire IpAddr Splice UdpProxy.

(** ** The task and its token *)

(** The flow, the destination its client sent to, and whether its token is
    cancelled. *)
Record vconn : Type := mkKillable { base : flow; dst : SocketAddr; killed : bool }.

(** What reaches it: a datagram from the manager, the loss of its entry in the
    manager's table, the kill of its service, and the turns of its task. *)
Inductive vevent : Type :=
| Given (datagram : list Z)
| Evicted
| KillService
| Turn (e : event).

Definition with_base (f : flow) (k : vconn) : vconn := mkKillable f (dst k) (killed k).

(** The token goes first at each [select!] ([biased]), and before each datagram of the
    drain; a write to the connection does not compete with it. *)
Definition killed_turn (e : event) (f : flow) : option flow :=
  match e, task f with
  | UpPolled _ _, Pumping UpSelect down _ => Some (mark_closed_up down f)
  | UpWrote _ _ true, Pumping (UpDraining d _) down _ => Some (mark_closed_up down (add_written d f))
  | DownRead _ _ _, Pumping up DownSelect _ => Some (mark_closed_down up f)
  | DownSent _ _, Pumping up (DownSending _) _ => Some (mark_closed_down up f)
  | _, _ => flow_step e f
  end.

(** The manager gives only to an entry of its table that is not closed. *)
Definition give (datagram : list Z) (f : flow) : option flow :=
  if held f && negb (closed (handle f)) then
    let '(took, v) := deliver (handle f) datagram in
    Some (if took : bool then add_delivered datagram (set_handle v f) else f)
  else None.

Definition vconn_step (k : vconn) (e : vevent) : option vconn :=
  match e with
  | Given d => f ← give d (base k); Some (with_base f k)
  | Evicted => Some (with_base (release (base k)) k)
  | KillService => Some (mkKillable (base k) (dst k) true)
  | Turn e => f ← (if killed k then killed_turn e (base k) else flow_step e (base k)); Some (with_base f k)
  end.

Fixpoint vconn_run (es : list vevent) (k : vconn) : option vconn :=
  match es with
  | [] => Some k
  | e :: es => k ← vconn_step k e; vconn_run es k
  end.

(** As [create_vconn] starts it, with its first datagram queued. *)
Definition vconn_start (now : Z) (src dst : SocketAddr) (first : list Z) : vconn :=
  let '(_, v) := try_send first (UdpProxy.mkVconn [] true now false) in
  mkKillable (UdpProxy.mkFlow src v true Connecting [first] [] false [] []) dst false.

(** [UdpReplySender::send_to] with the pair of the flow: the datagram for the stack,
    which comes from the destination and goes to the client. *)
Definition send_to (payload : list Z) (dst src : SocketAddr) : list Z * SocketAddr * SocketAddr := (payload, dst, src).
Definition egress (k : vconn) : list (list Z * SocketAddr * SocketAddr) := map (λ p, send_to p (dst k) (src (base k))) (replies (base k)).

(** ** Invariants *)

(** The datagrams, whether killed or not: none is lost while the pump that writes them
    goes on. *)
Definition writing (t : vtask) : bool :=
  match t with Connecting | Pumping (UpSelect | UpWriting _ | UpDraining _ _) _ _ => true | _ => false end.
Definition in_order (f : flow) : Prop :=
  ∃ lost, delivered f = written f ++ in_flight (task f) ++ lost ++ queue (handle f) ∧ (writing (task f) = true → lost = []).

(** The pump returns, from its [select!], after a write or in spite of one. *)
Lemma return_in_order down f : in_order f → in_flight (task f) = [] → in_order (mark_closed_up down f).
Proof. intros (lost & E & _) Hi. exists lost. rewrite Hi in E. cbn in *. split; [|by destruct down]. rewrite E. by destruct down. Qed.

Lemma return_lost down d f : in_order f → in_flight (task f) = [d] → in_order (mark_closed_up down (set_failed f)).
Proof.
  intros (lost & E & _) Hi. exists (d :: lost). rewrite Hi in E. cbn in *. split; [|by destruct down]. rewrite E. by destruct down.
Qed.

Lemma wrote_in_order d f t' :
  in_order f → in_flight (task f) = [d] → writing (task f) = true → in_flight t' = [] → in_order (set_task t' (add_written d f)).
Proof.
  intros (lost & E & Hl) Hi Hw Ht'. exists []. rewrite Hi, (Hl Hw) in E. cbn in *. split; [|done]. by rewrite E, Ht', <- app_assoc.
Qed.

Lemma take_in_order now up' down done d q f :
  in_order f → in_flight (task f) = [] → writing (task f) = true → queue (handle f) = d :: q →
  in_flight (Pumping up' down done) = [d] →
  in_order (set_task (Pumping up' down done) (set_handle (bump now (set_queue q (handle f))) f)).
Proof.
  intros (lost & E & Hl) Hi Hw Hq Hu. exists []. rewrite Hi, (Hl Hw), Hq in E. cbn in *. split; [|done]. rewrite E. by rewrite Hu.
Qed.

Lemma drain_in_order now turns down f :
  in_order f → in_flight (task f) = [] → writing (task f) = true → in_order (drain_queued_to_ziti now turns down f).
Proof.
  intros Ho Hi Hw. unfold drain_queued_to_ziti. destruct turns as [|turns]; [by apply return_in_order|].
  destruct (queue (handle f)) as [|d q] eqn:Eq; [by apply return_in_order|]. by eapply take_in_order.
Qed.

(** What leaves the datagrams alone. *)
Lemma same_in_order f f' :
  in_order f → delivered f' = delivered f → written f' = written f → in_flight (task f') = in_flight (task f) →
  queue (handle f') = queue (handle f) → (writing (task f') = true → writing (task f) = true) → in_order f'.
Proof. intros (lost & E & Hl) Hd Hw Hi Hq Hwr. exists lost. rewrite Hd, Hw, Hi, Hq. auto. Qed.

Lemma down_in_order up down done f : in_order f → task f = Pumping up down done → in_order (mark_closed_down up f).
Proof. intros Ho Ht. apply (same_in_order f); try done; rewrite Ht; by destruct up. Qed.

Lemma flow_step_in_order e f f' : in_order f → flow_step e f = Some f' → in_order f'.
Proof.
  intros Ho. destruct e as [| |i ok|i now|i now ok|i now chunk|i ok|i]; cbn; destruct (task f) as [|up down done| |] eqn:Ht; intros Hs; try discriminate Hs.
  - injection Hs as <-. destruct ok; [by apply (same_in_order f); rewrite ?Ht|]. destruct Ho as (lost & E & _). rewrite Ht in E. cbn in E.
    exists (lost ++ queue (handle f)). cbn. by rewrite app_nil_r.
  - destruct up; try discriminate Hs. unfold pump_udp_to_ziti in Hs. destruct done; [injection Hs as <-; by apply drain_in_order; rewrite ?Ht|].
    destruct (queue (handle f)) as [|d q] eqn:Eq.
    + destruct (held f); [done|]. injection Hs as <-. by apply return_in_order; rewrite ?Ht.
    + injection Hs as <-. by eapply take_in_order; rewrite ?Ht.
  - destruct up as [|d|d turns|]; try discriminate Hs; injection Hs as <-; destruct ok.
    + by apply wrote_in_order; rewrite ?Ht.
    + by apply (return_lost down d); rewrite ?Ht.
    + assert (Hd : in_order (set_task (Pumping UpSelect down done) (add_written d f))) by (by apply wrote_in_order; rewrite ?Ht).
      assert (Heq : drain_queued_to_ziti now turns down (add_written d f) =
        drain_queued_to_ziti now turns down (set_task (Pumping UpSelect down done) (add_written d f))).
      { unfold drain_queued_to_ziti. cbn. by destruct turns, (queue (handle f)). }
      rewrite Heq. by apply drain_in_order.
    + by apply (return_lost down d); rewrite ?Ht.
  - destruct down; try discriminate Hs. injection Hs as <-. unfold pump_ziti_to_udp. destruct done; [by eapply down_in_order|].
    destruct chunk as [b|]; [|by eapply down_in_order]. by apply (same_in_order f); rewrite ?Ht.
  - destruct down as [|[|p ps]|]; try discriminate Hs. injection Hs as <-. unfold down_sent. destruct done; [by eapply down_in_order|].
    destruct ok; [|by eapply down_in_order]. by apply (same_in_order f); rewrite ?Ht.
  - injection Hs as <-. destruct Ho as (lost & E & _). rewrite Ht in E. cbn in E. exists (lost ++ queue (handle f)). cbn. by rewrite app_nil_r.
Qed.

Lemma killed_turn_cases e f f' :
  killed_turn e f = Some f' →
  (∃ down done, task f = Pumping UpSelect down done ∧ f' = mark_closed_up down f) ∨
  (∃ d turns down done, task f = Pumping (UpDraining d turns) down done ∧ f' = mark_closed_up down (add_written d f)) ∨
  (∃ up down done, task f = Pumping up down done ∧ (down = DownSelect ∨ ∃ ps, down = DownSending ps) ∧ f' = mark_closed_down up f) ∨
  ((∃ i ok, e = Dialed i ok) ∧ task f = Connecting ∨ (∃ i, e = ZitiClosed i) ∧ task f = Closing ∨
    (∃ i now ok d down done, e = UpWrote i now ok ∧ task f = Pumping (UpWriting d) down done) ∨
    (∃ i now d turns down done, e = UpWrote i now false ∧ task f = Pumping (UpDraining d turns) down done)) ∧ flow_step e f = Some f'.
Proof.
  unfold killed_turn. destruct e as [| |i ok|i now|i now ok|i now chunk|i ok|i]; cbn; destruct (task f) as [|up down done| |] eqn:Ht;
    intros Hs; try discriminate Hs; try (destruct ok; discriminate Hs).
  - right. right. right. eauto 10.
  - destruct up; try discriminate Hs. injection Hs as <-. left. eauto.
  - destruct up as [|d|d turns|]; [by destruct ok|..|by destruct ok].
    + right. right. right. split; [|by destruct ok]. right. right. left. repeat eexists.
    + destruct ok; [injection Hs as <-; right; left; repeat eexists|]. right. right. right. split; [|done]. right. right. right. repeat eexists.
  - destruct down; try discriminate Hs. injection Hs as <-. right. right. left. eauto 10.
  - destruct down as [|ps|]; try discriminate Hs. injection Hs as <-. right. right. left. eauto 10.
  - right. right. right. eauto 10.
Qed.

Lemma killed_turn_in_order e f f' : in_order f → killed_turn e f = Some f' → in_order f'.
Proof.
  intros Ho Hs. destruct (killed_turn_cases _ _ _ Hs) as [(down & done & Ht & ->)|[(d & turns & down & done & Ht & ->)|[(up & down & done & Ht & _ & ->)|[_ Hf]]]].
  - by apply return_in_order; rewrite ?Ht.
  - unfold mark_closed_up. change (close_handle (add_written d f)) with (add_written d (close_handle f)).
    apply wrote_in_order; [by apply (same_in_order f)|cbn; by rewrite Ht|cbn; by rewrite Ht|by destruct down].
  - by eapply down_in_order.
  - by eapply flow_step_in_order.
Qed.

(** The way back is left alone or ended. *)
Lemma killed_turn_back e f f' : back_ok f → killed_turn e f = Some f' → back_ok f'.
Proof.
  intros Hb Hs. destruct (killed_turn_cases _ _ _ Hs) as [(down & done & Ht & ->)|[(d & turns & down & done & Ht & ->)|[(up & down & done & Ht & _ & ->)|[_ Hf]]]].
  - apply (back_same f); [done..|]. rewrite Ht. left. by destruct down.
  - apply (back_same f); [done..|]. rewrite Ht. left. by destruct down.
  - apply (back_same f); [done..|]. right. by destruct up.
  - by eapply flow_step_back.
Qed.

(** What the manager gives. *)
Lemma give_cases d f f' :
  give d f = Some f' → closed (handle f) = false ∧
  (f' = f ∨ f' = add_delivered d (set_handle (set_queue (queue (handle f) ++ [d]) (handle f)) f)).
Proof.
  unfold give. destruct (held f); [|done]. destruct (closed (handle f)) eqn:Ec; [done|]. cbn [negb andb]. unfold deliver, try_send.
  destruct (_ && _); intros [= <-]; auto.
Qed.

Lemma give_in_order d f f' : in_order f → give d f = Some f' → in_order f'.
Proof.
  intros Ho [_ [->| ->]]%give_cases; [done|]. destruct Ho as (lost & E & Hl). exists lost. cbn. split; [|done].
  by rewrite E, <- !app_assoc.
Qed.

Lemma give_ok d f f' : data_ok f → give d f = Some f' → data_ok f'.
Proof.
  intros Hok [Hc [->| ->]]%give_cases; [done|]. destruct Hok as [(lost & E & Hl) Ht Hr]. split; cbn; [|unfold task_ok, at_rest in *; cbn|done].
  - exists lost. split; [|done]. by rewrite E, <- !app_assoc.
  - destruct (task f) as [|up down done| |]; cbn; [exact Ht| |destruct Ht; congruence..]. destruct Ht as [Hd Hu]. split; [done|].
    destruct up; try exact Hu; destruct Hu as [Hu _]; [by rewrite (Hd Hu) in Hc|congruence].
Qed.

Lemma give_back d f f' : back_ok f → give d f = Some f' → back_ok f'.
Proof. intros Hb [_ [->| ->]]%give_cases; [done|]. apply (back_same f); [done..|by left]. Qed.

(** [join!] is over when both pumps are. *)
Definition joinable (f : flow) : Prop := match task f with Pumping UpReturned DownReturned _ => False | _ => True end.

Lemma joined_not_returned up down done : match joined up down done with Pumping UpReturned DownReturned _ => False | _ => True end.
Proof. by destruct up, down. Qed.

Lemma drain_joinable now turns down f : joinable (drain_queued_to_ziti now turns down f).
Proof. unfold drain_queued_to_ziti, joinable. destruct turns, (queue (handle f)); cbn; try done; by destruct down. Qed.

Lemma flow_step_joinable e f f' : flow_step e f = Some f' → joinable f'.
Proof.
  destruct e as [| |i ok|i now|i now ok|i now chunk|i ok|i]; cbn; destruct (task f) as [|up down done| |] eqn:Ht; intros Hs; try discriminate Hs.
  - injection Hs as <-. by destruct ok.
  - destruct up; try discriminate Hs. unfold pump_udp_to_ziti in Hs. destruct done; [injection Hs as <-; apply drain_joinable|].
    destruct (queue (handle f)); [destruct (held f); [done|]|]; injection Hs as <-; [|done]. by destruct down.
  - destruct up as [|d|d turns|]; try discriminate Hs; injection Hs as <-; destruct ok; [done|by destruct down|apply drain_joinable|by destruct down].
  - destruct down; try discriminate Hs. injection Hs as <-. unfold pump_ziti_to_udp, joinable.
    destruct done; [by destruct up|]. destruct chunk as [b|]; [|by destruct up]. cbn. destruct up; try done. by destruct (udp_pieces _ _ _).
  - destruct down as [|[|p ps]|]; try discriminate Hs. injection Hs as <-. unfold down_sent, joinable.
    destruct done; [by destruct up|]. destruct ok; [|by destruct up]. cbn. destruct up; try done. by destruct ps.
  - by injection Hs as <-.
Qed.

Lemma killed_turn_joinable e f f' : killed_turn e f = Some f' → joinable f'.
Proof.
  intros Hs. destruct (killed_turn_cases _ _ _ Hs) as [(down & done & Ht & ->)|[(d & turns & down & done & Ht & ->)|[(up & down & done & Ht & _ & ->)|[_ Hf]]]];
    [by destruct down|by destruct down|by destruct up|by eapply flow_step_joinable].
Qed.

(** ** Runs *)

Record vconn_ok (k : vconn) : Prop := {
  vo_order : in_order (base k);
  vo_back : back_ok (base k);
  vo_joinable : joinable (base k);
  vo_data : killed k = false → data_ok (base k)
}.

Lemma vconn_step_ok k e k' : vconn_ok k → vconn_step k e = Some k' → vconn_ok k'.
Proof.
  intros [Ho Hb Hj Hd]. destruct e as [d| | |e]; cbn.
  - intros (f & Hf & [= <-])%bind_Some. split; cbn.
    + by eapply give_in_order.
    + by eapply give_back.
    + apply give_cases in Hf as [_ [->| ->]]; done.
    + intros Hk. eapply give_ok; [by apply Hd|done].
  - intros [= <-]. split; cbn; [by apply (same_in_order (base k))|by apply release_back|done|]. intros Hk. by apply release_ok, Hd.
  - by intros [= <-].
  - destruct (killed k) eqn:Ek; intros (f & Hf & [= <-])%bind_Some; split; cbn.
    + by eapply killed_turn_in_order.
    + by eapply killed_turn_back.
    + by eapply killed_turn_joinable.
    + congruence.
    + by eapply flow_step_in_order.
    + by eapply flow_step_back.
    + by eapply flow_step_joinable.
    + intros _. eapply flow_step_ok; [by apply Hd|done].
Qed.

Lemma vconn_run_ok es k k' : vconn_ok k → vconn_run es k = Some k' → vconn_ok k'.
Proof.
  revert k. induction es as [|e es IH]; intros k Hk; cbn; [by intros [= <-]|].
  intros (k1 & Hs & Hr)%bind_Some. eapply IH; [by eapply vconn_step_ok|done].
Qed.

Lemma vconn_start_ok now s d first : vconn_ok (vconn_start now s d first).
Proof.
  unfold vconn_start. rewrite try_send_new. split; cbn; [by exists []| |done|].
  - split; cbn; [by exists []|constructor].
  - intros _. split; cbn; [by exists []|by split|done].
Qed.

Lemma vconn_run_app es1 es2 k : vconn_run (es1 ++ es2) k = vconn_run es1 k ≫= vconn_run es2.
Proof. revert k. induction es1 as [|e es1 IH]; intros k; [done|]. cbn. by destruct (vconn_step k e); cbn. Qed.


(** ** After the kill *)

(** The turns left to a task whose token is cancelled. *)
Definition turns_left (f : flow) : nat :=
  match task f with
  | Connecting => 4
  | Pumping up down _ =>
      match up with UpSelect | UpDraining _ _ => 1 | UpWriting _ => 2 | UpReturned => 0 end +
      match down with DownReturned => 0 | _ => 1 end + 1
  | Closing => 1
  | Over => 0
  end.

(** What the killed flow did since [f]: nothing but, perhaps, the datagram that was
    being written. *)
Record cut_off (f f' : flow) : Prop := {
  co_written : written f `prefix_of` written f';
  co_flight : written f' ++ in_flight (task f') `prefix_of` written f ++ in_flight (task f);
  co_chunks : chunks f' = chunks f;
  co_replies : replies f' = replies f
}.

Lemma cut_off_same f f' :
  written f' = written f → in_flight (task f') = in_flight (task f) → chunks f' = chunks f → replies f' = replies f → cut_off f f'.
Proof. intros Hw Hi Hc Hr. split; rewrite ?Hw, ?Hi; done. Qed.

Lemma cut_off_refl f : cut_off f f.
Proof. by apply cut_off_same. Qed.

Lemma cut_off_trans f1 f2 f3 : cut_off f1 f2 → cut_off f2 f3 → cut_off f1 f3.
Proof. intros [A B C D] [A' B' C' D']. split; [by etrans|by etrans|congruence|congruence]. Qed.

Lemma killed_turn_cut_off e f f' : killed_turn e f = Some f' → cut_off f f' ∧ (turns_left f' < turns_left f)%nat.
Proof.
  intros Hs. unfold turns_left.
  destruct (killed_turn_cases _ _ _ Hs) as [(down & done & Ht & ->)|[(d & turns & down & done & Ht & ->)|[(up & down & done & Ht & Hdown & ->)|[Hwhen Hf]]]].
  - rewrite Ht. split; [apply cut_off_same; rewrite ?Ht; by destruct down|destruct down; cbn; lia].
  - rewrite Ht. split; [|destruct down; cbn; lia]. split; rewrite ?Ht; cbn; [by eexists|by destruct down; cbn; rewrite app_nil_r|done|done].
  - rewrite Ht. split; [apply cut_off_same; rewrite ?Ht; by destruct up|]. destruct Hdown as [->|[ps ->]]; destruct up; cbn; lia.
  - destruct Hwhen as [[(i & ok & ->) Ht]|[[(i & ->) Ht]|[(i & now & ok & d & down & done & -> & Ht)|(i & now & d & turns & down & done & -> & Ht)]]];
      cbn in Hf; rewrite Ht in Hf |- *; cbn in Hf; injection Hf as <-.
    + split; [by apply cut_off_same; rewrite ?Ht; destruct ok|destruct ok; cbn; lia].
    + split; [by apply cut_off_same; rewrite ?Ht|cbn; lia].
    + split; [|destruct ok, down; cbn; lia]. destruct ok; split; rewrite ?Ht; cbn; try done.
      * by eexists.
      * by rewrite app_nil_r.
      * destruct down; cbn; rewrite app_nil_r; by eexists.
    + split; [|destruct down; cbn; lia]. split; rewrite ?Ht; cbn; try done. destruct down; cbn; rewrite app_nil_r; by eexists.
Qed.

Definition is_turn (e : vevent) : bool := match e with Turn _ => true | _ => false end.
Definition turn_count (es : list vevent) : nat := length (List.filter is_turn es).

Lemma killed_run_cut_off es k k' :
  killed k = true → vconn_run es k = Some k' →
  killed k' = true ∧ cut_off (base k) (base k') ∧ (turn_count es + turns_left (base k') <= turns_left (base k))%nat.
Proof.
  revert k. induction es as [|e es IH]; intros k Hk; cbn [vconn_run]; [intros [= <-]; split_and!; [done|apply cut_off_refl|cbn; lia]|].
  intros (k1 & Hs & Hr)%bind_Some.
  assert (H1 : killed k1 = true ∧ cut_off (base k) (base k1) ∧ (turn_count [e] + turns_left (base k1) <= turns_left (base k))%nat).
  { destruct e as [d| | |e]; cbn in Hs.
    - apply bind_Some in Hs as (f & Hf & [= <-]). apply give_cases in Hf as [_ [->| ->]]; (split_and!; [done|by apply cut_off_same|unfold turns_left; cbn; lia]).
    - injection Hs as <-. split_and!; [done|by apply cut_off_same|unfold turns_left; cbn; lia].
    - injection Hs as <-. split_and!; [done|by apply cut_off_same|unfold turns_left; cbn; lia].
    - rewrite Hk in Hs. apply bind_Some in Hs as (f & Hf & [= <-]). destruct (killed_turn_cut_off _ _ _ Hf) as [Hc Hl].
      split_and!; [done|done|cbn; lia]. }
  destruct H1 as (Hk1 & Hc1 & Hl1). destruct (IH k1 Hk1 Hr) as (Hk' & Hc' & Hl'). split; [done|]. split; [by eapply cut_off_trans|].
  unfold turn_count in *. destruct e; cbn in *; lia.
Qed.

(** A killed task that is not over has a turn to take. *)
Lemma killed_turn_ready f : joinable f → task f ≠ Over → ∃ e, is_Some (killed_turn e f).
Proof.
  unfold joinable. intros Hj Ho. destruct (task f) as [|up down dn| |] eqn:Ht; [| | |done].
  - exists (Dialed 0 true). cbn. rewrite Ht. by eexists.
  - destruct up as [|d|d turns|].
    + exists (UpPolled 0 0). cbn. rewrite Ht. by eexists.
    + exists (UpWrote 0 0 true). cbn. rewrite Ht. by eexists.
    + exists (UpWrote 0 0 true). cbn. rewrite Ht. by eexists.
    + destruct down as [|ps|]; [| |done].
      * exists (DownRead 0 0 None). cbn. rewrite Ht. by eexists.
      * exists (DownSent 0 true). cbn. rewrite Ht. by eexists.
  - exists (ZitiClosed 0). cbn. rewrite Ht. by eexists.
Qed.

(** The queued datagrams of a natural end. *)
Lemma natural_end k : vconn_ok k → killed k = false → task (base k) = Over → failed (base k) = false → written (base k) = delivered (base k).
Proof.
  intros Hk Hn Hover Hf. destruct (vo_data _ Hk Hn) as [(lost & E & Hl) Ht _]. unfold task_ok, at_rest in Ht. rewrite Hover in E, Ht.
  destruct Ht as [_ Hq]. rewrite E, (Hl Hf), (Hq Hf). cbn. by rewrite app_nil_r.
Qed.

(** ** Property *)

(** C18. An intercepted UDP flow: in any run it writes a beginning of the datagrams it was
    given, in order and whole - all of them if it ends by itself without a failure, its
    last queue drained -, and the replies the stack gets are pieces of what it read, in
    order, from the client's destination to the client.  When its service is taken away,
    from then on it writes no datagram but the one under way and sends nothing back,
    whatever the manager still gives it, and it ends at most four turns later. *)
Theorem killed_vconn_cuts_off now s d first es k :
  vconn_run es (vconn_start now s d first) = Some k →
  (written (base k) `prefix_of` delivered (base k) ∧
   (killed k = false → task (base k) = Over → failed (base k) = false → written (base k) = delivered (base k)) ∧
   concat (replies (base k)) `prefix_of` concat (chunks (base k)) ∧ egress k = map (λ p, (p, dst k, src (base k))) (replies (base k))) ∧
  ∀ es' k', vconn_run (KillService :: es') k = Some k' →
    cut_off (base k) (base k') ∧ (turn_count es' <= 4)%nat ∧
    (task (base k') = Over ∨ ∃ e, is_Some (vconn_step k' (Turn e))).
Proof.
  intros Hrun. pose proof (vconn_run_ok _ _ _ (vconn_start_ok now s d first) Hrun) as Hk. split.
  - split; [destruct (vo_order _ Hk) as (lost & -> & _); by eexists|]. split; [by apply natural_end|]. split; [|done].
    destruct (bo_data _ (vo_back _ Hk)) as (rest & -> & _). by eexists.
  - intros es' k' Hrun'. pose proof (vconn_run_ok _ _ _ Hk Hrun') as Hk'. cbn in Hrun'.
    destruct (killed_run_cut_off es' (mkKillable (base k) (dst k) true) k' eq_refl Hrun') as (Hkilled & Hc & Hl).
    split; [exact Hc|]. split.
    + cbn in Hl. enough (turns_left (base k) <= 4)%nat by lia. unfold turns_left. destruct (task (base k)) as [|[] [] ?| |]; cbn; lia.
    + assert (Ho : task (base k') = Over ∨ task (base k') ≠ Over) by (destruct (task (base k')); auto). destruct Ho as [Ho|Ho]; [by left|right].
      destruct (killed_turn_ready (base k') (vo_joinable _ Hk') Ho) as (e & f & Hf). exists e. cbn. rewrite Hkilled, Hf. by eexists.
Qed.

(** ** Witness *)

(** Three datagrams; the first is being written when the service goes away; the manager
    still gives a fourth. *)
Definition demo_client : SocketAddr := (V4 16909060, 5000).
Definition demo_target : SocketAddr := (V4 1681915907, 53).
Definition demo_given : list vevent :=
  [Given [2]; Turn (Dialed 0 true); Turn (DownRead 0 1 (Some [9])); Turn (DownSent 0 true); Turn (UpPolled 0 2); Given [3]].
Definition demo_killed : list vevent :=
  [Given [4]; Turn (DownRead 0 3 (Some [8])); Turn (UpWrote 0 4 true); Turn (UpPolled 0 5); Turn (ZitiClosed 0)].

Definition demo_first : vconn := vconn_start 0 demo_client demo_target [1].
Definition demo_live : vconn := default demo_first (vconn_run demo_given demo_first).
Definition demo_cut : vconn := default demo_first (vconn_run (KillService :: demo_killed) demo_live).

Lemma killed_vconn_cuts_off_witness :
  vconn_run demo_given (vconn_start 0 demo_client demo_target [1]) = Some demo_live ∧
  vconn_run (KillService :: demo_killed) demo_live = Some demo_cut ∧
  written (base demo_cut) = [[1]] ∧ delivered (base demo_live) = [[1]; [2]; [3]] ∧
  egress demo_live = [([9], demo_target, demo_client)] ∧ cut_off (base demo_live) (base demo_cut).
Proof.
  assert (Hk : vconn_run demo_given (vconn_start 0 demo_client demo_target [1]) = Some demo_live) by (vm_compute; reflexivity).
  assert (Hk' : vconn_run (KillService :: demo_killed) demo_live = Some demo_cut) by (vm_compute; reflexivity).
  split; [exact Hk|]. split; [exact Hk'|]. split; [vm_compute; reflexivity|]. split; [vm_compute; reflexivity|]. split; [vm_compute; reflexivity|].
  destruct (killed_vconn_cuts_off 0 demo_client demo_target [1] demo_given demo_live Hk) as [_ Hkill].
  exact (proj1 (Hkill demo_killed demo_cut Hk')).
Defined.
