(* ===== verification/Tasks.v ===== *)
(** * Tasks over shared state

    The [async fn]s of the client as resumptions over a signature of operations, a
    pool of such tasks that a scheduler interleaves at will, and a program logic for
    them: what a task knows is a ghost value of its own, an invariant ties the ghosts
    of all tasks to the shared state, and a weakest precondition says what each
    operation needs and teaches. *)

From S2P Require Import Prelude.

(** ** Signatures and tasks *)

Record signature : Type := mkSig { op : Type; answer : op → Type }.
Arguments answer {s} o.

Inductive task (Σ : signature) (A : Type) : Type :=
| Return (a : A)
| Perform (o : op Σ) (k : answer o → task Σ A).
Arguments Return {Σ A} a.
Arguments Perform {Σ A} o k.

#[export] Instance task_ret {Σ} : MRet (task Σ) := @Return Σ.
#[export] Instance task_bind {Σ} : MBind (task Σ) :=
  fix go A B (f : A → task Σ B) (t : task Σ A) : task Σ B :=
    match t with
    | Return a => f a
    | Perform o k => Perform o (λ a, go A B f (k a))
    end.

Definition perform {Σ} (o : op Σ) : task Σ (answer o) := Perform o Return.

(** [?] on results. *)
Definition try {Σ E A B} (t : task Σ (result E A)) (f : A → task Σ (result E B)) : task Σ (result E B) :=
  r ← t; match r with Ok a => f a | Err e => mret (Err e) end.

Declare Scope task_scope.
Delimit Scope task_scope with task.
Notation "x ←! t ; k" := (try t (λ x, k)) (at level 20, t at level 100, k at level 200, right associativity) : task_scope.

(** ** The pool *)

Section pool.
Context {Σ : signature} {S : Type}.

(** What an operation of a task does to the shared state, and what the drop of a
    task does.  A task that is over stays in the pool, so that its number is not
    taken again. *)
Context (performs : nat → ∀ o : op Σ, S → answer o → S → Prop) (drops : nat → S → S).
(** The tasks that may start. *)
Context (job : task Σ unit → Prop).

Record world : Type := mkWorld { shared : S; tasks : gmap nat (task Σ unit) }.

Inductive pool_step : world → world → Prop :=
| pool_perform i o k a s s' ts :
    ts !! i = Some (Perform o k) → performs i o s a s' →
    pool_step (mkWorld s ts) (mkWorld s' (<[i := k a]> ts))
| pool_start i t s ts :
    ts !! i = None → job t → pool_step (mkWorld s ts) (mkWorld s (<[i := t]> ts))
| pool_drop i t s ts :
    ts !! i = Some t → pool_step (mkWorld s ts) (mkWorld (drops i s) (<[i := Return tt]> ts)).

End pool.

Arguments mkWorld {Σ S} _ _.
Arguments shared {Σ S} _.
Arguments tasks {Σ S} _.

(** ** The logic *)

Section logic.
Context {Σ : signature} {G : Type}.

(** When a task that knows [g] may perform an operation, which answers it can get,
    what it then knows, and what is left of that when it is dropped. *)
Record discipline : Type := mkDiscipline {
  may : G → op Σ → Prop;
  gets : ∀ (g : G) (o : op Σ), answer o → Prop;
  after : ∀ (g : G) (o : op Σ), answer o → G;
  dropped : G → G
}.

Context (D : discipline).

Fixpoint wp {A} (t : task Σ A) (Q : A → G → Prop) (g : G) : Prop :=
  match t with
  | Return a => Q a g
  | Perform o k => may D g o ∧ ∀ a, gets D g o a → wp (k a) Q (after D g o a)
  end.

Lemma wp_mono {A} (t : task Σ A) (P Q : A → G → Prop) g : wp t P g → (∀ a g', P a g' → Q a g') → wp t Q g.
Proof.
  revert g. induction t as [a|o k IH]; intros g; cbn.
  - auto.
  - intros [Hm Hk] HPQ. split; [done|]. intros a Ha. apply IH; auto.
Qed.

Lemma wp_bind {A B} (t : task Σ A) (f : A → task Σ B) Q g : wp (t ≫= f) Q g ↔ wp t (λ a, wp (f a) Q) g.
Proof.
  revert g. induction t as [a|o k IH]; intros g; [done|]. cbn. fold (@mbind (task Σ) _ A B f).
  split; intros [Hm Hk]; (split; [done|]); intros a Ha; apply IH; auto.
Qed.

Lemma wp_perform o Q g : wp (perform o) Q g ↔ may D g o ∧ ∀ a, gets D g o a → Q a (after D g o a).
Proof. done. Qed.

(** A call: what the callee ensures is what the rest starts from. *)
Lemma wp_call {A B} (t : task Σ A) (f : A → task Σ B) (P : A → G → Prop) Q g :
  wp t P g → (∀ a g', P a g' → wp (f a) Q g') → wp (t ≫= f) Q g.
Proof. intros Ht Hf. apply wp_bind. by eapply wp_mono. Qed.

Lemma wp_try {E A B} (t : task Σ (result E A)) (f : A → task Σ (result E B)) (P : result E A → G → Prop) Q g :
  wp t P g → (∀ a g', P (Ok a) g' → wp (f a) Q g') → (∀ e g', P (Err e) g' → Q (Err e) g') → wp (try t f) Q g.
Proof. intros Ht Hok Herr. unfold try. eapply wp_call; [done|]. intros [a|e] g'; [apply Hok|cbn; apply Herr]. Qed.

(** ** Soundness *)

Context {S : Type} (performs : nat → ∀ o : op Σ, S → answer o → S → Prop) (drops : nat → S → S).
Context (job : task Σ unit → Prop) (start : G) (I : S → gmap nat G → Prop).

Record sound : Prop := {
  sound_perform i o a g γ s s' : I s γ → γ !! i = Some g → may D g o → performs i o s a s' →
    gets D g o a ∧ I s' (<[i := after D g o a]> γ);
  sound_start i γ s : I s γ → γ !! i = None → I s (<[i := start]> γ);
  sound_drop i g γ s : I s γ → γ !! i = Some g → I (drops i s) (<[i := dropped D g]> γ);
  sound_job t : job t → wp t (λ _ _, True) start
}.

(** The invariant with the weakest preconditions of the tasks. *)
Definition pool_ok (w : world) : Prop :=
  ∃ γ, I (shared w) γ ∧ ∀ i, match tasks w !! i, γ !! i with
                             | Some t, Some g => wp t (λ _ _, True) g
                             | None, None => True
                             | _, _ => False
                             end.

Lemma pool_step_ok w w' : sound → pool_step performs drops job w w' → pool_ok w → pool_ok w'.
Proof.
  intros HS Hstep (γ & HI & Hts).
  destruct Hstep as [i o k a s s' ts Hi Hp|i t s ts Hi Hj|i t s ts Hi]; cbn in HI, Hts; pose proof (Hts i) as Hti; rewrite Hi in Hti.
  - destruct (γ !! i) as [g|] eqn:Hg; [|done]. destruct Hti as [Hm Hk].
    destruct (sound_perform HS i o a g γ s s' HI Hg Hm Hp) as [Ha HI'].
    exists (<[i := after D g o a]> γ). split; [done|]. intros j. cbn.
    destruct (decide (j = i)) as [->|Hne]; [rewrite !lookup_insert_eq; auto|rewrite !lookup_insert_ne by done; apply Hts].
  - destruct (γ !! i) as [g|] eqn:Hg; [done|].
    exists (<[i := start]> γ). split; [by apply (sound_start HS)|]. intros j. cbn.
    destruct (decide (j = i)) as [->|Hne]; [rewrite !lookup_insert_eq; by apply (sound_job HS)|rewrite !lookup_insert_ne by done; apply Hts].
  - destruct (γ !! i) as [g|] eqn:Hg; [|done].
    exists (<[i := dropped D g]> γ). split; [by apply (sound_drop HS i g)|]. intros j. cbn.
    destruct (decide (j = i)) as [->|Hne]; [by rewrite !lookup_insert_eq|rewrite !lookup_insert_ne by done; apply Hts].
Qed.

Lemma pool_reachable_ok w w' : sound → pool_ok w → rtc (pool_step performs drops job) w w' → pool_ok w'.
Proof. intros HS Hw. induction 1 as [|w w1 w2 Hstep Hrtc IH]; [done|]. apply IH. by eapply pool_step_ok. Qed.

End logic.
Arguments discipline Σ G : clear implicits.
