(* ===== verification/Rest.v ===== *)
(** * The controller's REST API: [src/edge/client/{sessions,services,auth,oidc_glue}.rs], [edge/auth_token.rs], [edge/model.rs]

    The data of the API, what each request makes of its reply, and the listing of
    services page by page.  The bodies are read by [serde_json], a class here. *)

From S2P Require Import Prelude Utf8 Message EdgeWire Address Services.

(** ** Tokens (auth_token.rs) *)

Inductive ApiSessionType : Type := LegacySession | OidcSession.

#[export] Instance ApiSessionType_eq_dec : EqDecision ApiSessionType.
Proof. solve_decision. Defined.

Inductive AuthToken : Type :=
| Legacy (uuid : string)
| Oidc (access : string) (refresh : option string).

#[export] Instance AuthToken_eq_dec : EqDecision AuthToken.
Proof. solve_decision. Defined.

Definition access_header (t : AuthToken) : string * string :=
  match t with
  | Legacy uuid => ("zt-session", uuid)
  | Oidc access _ => ("authorization", "Bearer " +:+ access)
  end.

Definition channel_token (t : AuthToken) : string := match t with Legacy uuid => uuid | Oidc access _ => access end.

Definition token_session_type (t : AuthToken) : ApiSessionType :=
  match t with Legacy _ => LegacySession | Oidc _ _ => OidcSession end.

Definition refresh_token (t : AuthToken) : option string := match t with Legacy _ => None | Oidc _ r => r end.

Definition requires_router_token_update (t : AuthToken) : bool := match t with Oidc _ _ => true | Legacy _ => false end.

(** ** Data (model.rs) *)

Inductive SessionType : Type := DialSession | BindSession.

Record SessionEdgeRouter : Type := mkRouter {
  er_name : string;
  er_hostname : string;
  supported_protocols : gmap string string
}.

Record SessionDetail : Type := mkSession {
  sd_id : string;
  sd_token : string;
  sd_service_id : string;
  sd_type : SessionType;
  api_session_id : string;
  identity_id : string;
  edge_routers : list SessionEdgeRouter
}.

Definition set_edge_routers (l : list SessionEdgeRouter) (s : SessionDetail) : SessionDetail :=
  mkSession (sd_id s) (sd_token s) (sd_service_id s) (sd_type s) (api_session_id s) (identity_id s) l.

(** [v.replacen("://", ":", 1)]. *)
Fixpoint replace_separator (v : string) : string :=
  match strip_prefix "://" v with
  | Some rest => ":" +:+ rest
  | None => match v with String a v => String a (replace_separator v) | EmptyString => EmptyString end
  end.

Definition sanitize_supported_protocols (m : gmap string string) : gmap string string := replace_separator <$> m.

Definition sanitize_routers (l : list SessionEdgeRouter) : list SessionEdgeRouter :=
  map (λ er, mkRouter (er_name er) (er_hostname er) (sanitize_supported_protocols (supported_protocols er))) l.

(** ** Replies *)

(** What [send] and [text] give: no response, or a status and a text, which may
    not arrive. *)
Inductive http_reply : Type := NoResponse (e : string) | Response (status : Z) (text : result string string).

Definition is_success (status : Z) : bool := (200 <=? status) && (status <? 300).

(** The first [n] characters of a string in UTF-8. *)
Fixpoint take_chars (n : nat) (s : string) : string :=
  match s with
  | EmptyString => EmptyString
  | String a s' =>
      if is_cont (byte_of_ascii a) then String a (take_chars n s')
      else match n with O => EmptyString | S n => String a (take_chars n s') end
  end.

Section rest.
Context `{JsonLib}.

Record ApiSession : Type := mkApiSession {
  as_token : string;
  as_expires_at : option string;
  auth_queries : list Json;
  as_identity_name : string
}.

(** What [serde_json] reads in a body; [error_body] gives the code and the message,
    if they are strings, of a body with an [error]. *)
Class RestJson := {
  error_body : string → option (option string * option string);
  session_body : string → result string SessionDetail;
  routers_body : string → result string (list SessionEdgeRouter);
  api_session_body : string → result string ApiSession;
  services_body : string → result string (list Service * Z);
  updates_body : string → result string string
}.

Context `{RestJson}.

Definition parse_error_envelope (body : string) : string * string :=
  match error_body body with
  | Some (code, msg) => (default "UNKNOWN"%string code, default EmptyString msg)
  | None => ("UNKNOWN"%string, take_chars 200 body)
  end.

(** A reply as the result of a request: [on_status] for a failure the controller
    reports, [on_reply] for a reply that is none, [context] before what [send] or
    [text] say. *)
Definition decode {A} (on_status : Z → string → string → EdgeError) (on_reply : string → EdgeError) (context : string)
    (parse : string → result string A) (r : http_reply) : result EdgeError A :=
  match r with
  | NoResponse e => Err (on_reply (context +:+ e))
  | Response status (Err e) => Err (on_reply (context +:+ e))
  | Response status (Ok text) =>
      if is_success status then map_err (λ e, on_reply ("json: " +:+ e)) (parse text)
      else let '(code, message) := parse_error_envelope text in Err (on_status status code message)
  end.

(** ** Sessions (client/sessions.rs) *)

Definition sanitize_session (s : SessionDetail) : SessionDetail := set_edge_routers (sanitize_routers (edge_routers s)) s.

Definition do_create_session (r : http_reply) : result EdgeError SessionDetail :=
  sanitize_session <$> decode SessionHttp SessionResponse "" session_body r.

Definition do_get_service_edge_routers (r : http_reply) : result EdgeError (list SessionEdgeRouter) :=
  sanitize_routers <$> decode SessionHttp SessionResponse "session liveness probe: " routers_body r.

Definition do_get_session_detail (r : http_reply) : result EdgeError SessionDetail :=
  sanitize_session <$> decode SessionHttp SessionResponse "session detail probe: " session_body r.

Definition is_retriable_create_error (err : EdgeError) : bool :=
  match err with
  | SessionResponse _ => true
  | SessionHttp status _ _ => (500 <=? status) || (status =? 429) || (status =? 408)
  | _ => false
  end.

(** ** Authentication (client/auth.rs, refresh/legacy.rs, reauth.rs) *)

Definition legacy_authenticate_reply (r : http_reply) : result EdgeError ApiSession :=
  decode AuthHttp AuthResponse "" api_session_body r.

Definition do_refresh_get (r : http_reply) : result EdgeError ApiSession :=
  decode AuthHttp AuthResponse "" api_session_body r.

(** A text that does not arrive is empty here. *)
Definition submit_mfa_code_reply (r : http_reply) : result EdgeError unit :=
  match r with
  | NoResponse e => Err (AuthResponse e)
  | Response status text =>
      if is_success status then Ok tt
      else if status =? 400 then Err TotpCodeRejected
      else
        let '(code, message) := parse_error_envelope (match text with Ok t => t | Err _ => EmptyString end) in
        Err (AuthHttp status code message)
  end.

Definition is_unauthorized (err : EdgeError) : bool :=
  match err with
  | ServicesHttp status _ _ | SessionHttp status _ _ | SessionCertHttp status _ _ => status =? 401
  | _ => false
  end.

(** ** Services (client/services.rs) *)

Definition PAGE_LIMIT : Z := 500.

(** A page: what it adds and whether it is the last. *)
Definition services_page (r : http_reply) : result EdgeError (list Service * Z) :=
  decode ServicesHttp ServicesResponse "" services_body r.

(** [fetch offset] is the reply to the request for the page there. *)
Fixpoint do_list_services (fuel : nat) (fetch : Z → http_reply) (offset : Z) (out : list Service) : option (result EdgeError (list Service)) :=
  match fuel with
  | O => None
  | S fuel =>
      match services_page (fetch offset) with
      | Err e => Some (Err e)
      | Ok (data, total) =>
          let out := out ++ data in
          let offset := offset + PAGE_LIMIT in
          if total <=? offset then Some (Ok out) else do_list_services fuel fetch offset out
      end
  end.

(** [parse_last_change_at] reads RFC 3339 with the [time] crate; [debug] is the
    [Debug] text of a string. *)
Definition do_service_updates_get (parse_last_change_at : string → option Z) (debug : string → string) (r : http_reply)
    : result EdgeError Z :=
  at_ ← decode ServiceUpdatesHttp ServiceUpdatesResponse "" updates_body r;
  ok_or (ServiceUpdatesResponse ("unparseable lastChangeAt: " +:+ debug at_)) (parse_last_change_at at_).

(** ** Lemmas *)

(** A listing that ends after the page at [offset] or goes on with the next. *)
Lemma list_services_step fuel fetch offset out :
  do_list_services (S fuel) fetch offset out =
    match services_page (fetch offset) with
    | Err e => Some (Err e)
    | Ok (data, total) =>
        if total <=? offset + PAGE_LIMIT then Some (Ok (out ++ data))
        else do_list_services fuel fetch (offset + PAGE_LIMIT) (out ++ data)
    end.
Proof. done. Qed.

Lemma list_services_ends fetch bound fuel offset out :
  (∀ o data total, services_page (fetch o) = Ok (data, total) → total <= bound) →
  bound - offset < PAGE_LIMIT * Z.of_nat fuel → (0 < fuel)%nat → is_Some (do_list_services fuel fetch offset out).
Proof.
  intros Hb. revert offset out. induction fuel as [|fuel IH]; intros offset out Hf Hpos; [lia|]. rewrite list_services_step.
  destruct (services_page (fetch offset)) as [[data total]|e] eqn:E; [|by eexists].
  destruct (total <=? offset + PAGE_LIMIT) eqn:Ht; bool_to_prop; [by eexists|]. specialize (Hb _ _ _ E).
  apply IH; unfold PAGE_LIMIT in *; lia.
Qed.

(** The page of a list of services that does not change. *)
Definition page_of (l : list Service) (offset : Z) : list Service :=
  take (Z.to_nat PAGE_LIMIT) (drop (Z.to_nat offset) l).

Lemma list_services_collects l fetch fuel n :
  (∀ o, 0 <= o → services_page (fetch o) = Ok (page_of l o, Z.of_nat (length l))) →
  (length l < 500 * (n + fuel))%nat →
  do_list_services fuel fetch (500 * Z.of_nat n) (take (500 * n) l) = Some (Ok l) ∨ fuel = 0%nat.
Proof.
  intros Hp. revert n. induction fuel as [|fuel IH]; intros n Hf; [by right|]. left. rewrite list_services_step, Hp by lia.
  assert (Hout : take (500 * n) l ++ page_of l (500 * Z.of_nat n) = take (500 * S n) l).
  { unfold page_of, PAGE_LIMIT. replace (Z.to_nat (500 * Z.of_nat n)) with (500 * n)%nat by lia.
    replace (500 * S n)%nat with (500 * n + 500)%nat by lia. change (Z.to_nat 500) with 500%nat. by rewrite take_take_drop. }
  rewrite Hout. unfold PAGE_LIMIT in *. destruct (Z.of_nat (length l) <=? 500 * Z.of_nat n + 500) eqn:Ht; bool_to_prop.
  - by rewrite take_ge by lia.
  - replace (500 * Z.of_nat n + 500) with (500 * Z.of_nat (S n)) by lia. destruct (IH (S n)) as [->| ->]; [lia|done|lia].
Qed.

(** ** Property *)


End rest.

(** ** Witness *)

(** A listing of 501 services in two pages, each body the offset in decimal. *)
Definition demo_services : list (@Service string_json) :=
  map (λ i, mkService (pretty (N.of_nat i)) (pretty (N.of_nat i)) false ["Dial"] ∅ []) (seq 0 501).
Definition demo_page (body : string) : result string (list (@Service string_json) * Z) :=
  match parse_unsigned 10000 body with
  | Some o => Ok (page_of demo_services o, 501)
  | None => Err "expected value"
  end.
Definition demo_rest : @RestJson string_json := {|
  error_body := λ _, None;
  session_body := λ _, Err EmptyString;
  routers_body := λ _, Err EmptyString;
  api_session_body := λ _, Err EmptyString;
  services_body := demo_page;
  updates_body := Err
|}.
Definition demo_fetch (offset : Z) : http_reply := Response 200 (Ok (if offset =? 0 then "0" else "500")).

