(* ===== verification/Http.v ===== *)
(** * Conversations over HTTP

    What the logins, the enrolment and the session certificates share: requests and
    replies, the TLS clients they are sent with ([src/enroll/trust.rs]), and tasks that
    talk to servers, whose every behaviour is an environment that answers each
    operation given the history.  The logic of [Tasks] is used with the history as what
    the task knows. *)

From S2P Require Import Prelude Utf8 Message EdgeWire Address Services Rest Tasks.

(** [split_once] of a string. *)
Fixpoint split_once_str (p s : string) : option (string * string) :=
  match strip_prefix p s with
  | Some rest => Some (EmptyString, rest)
  | None => match s with
            | String a s => '(l, r) ← split_once_str p s; Some (String a l, r)
            | EmptyString => None
            end
  end.

(** ** Requests and replies *)

Inductive http_method : Type := GET | POST.

(** A header of [reqwest] is a name and a value; a timeout is in seconds. *)
Record request : Type := mkRequest {
  r_method : http_method;
  r_url : string;
  r_headers : list (string * string);
  r_body : option string;
  r_timeout : option Z
}.

(** [header] looks a name up without its case, and only gives values that are text;
    the body as text and as bytes may not arrive. *)
Record response : Type := mkResponse {
  status : Z;
  header : string → option string;
  text : result string string;
  bytes : result string (list Z)
}.

Definition FOUND : Z := 302.
Definition OK : Z := 200.
Definition CREATED : Z := 201.
Definition BAD_REQUEST : Z := 400.
Definition CONFLICT : Z := 409.

(** As the replies of Rest. *)
Definition reply_of (x : result string response) : http_reply :=
  match x with Ok p => Response (status p) (text p) | Err e => NoResponse e end.

(** ** TLS (trust.rs)

    [rustls]: what a server shows in a handshake, its certificate, whether the
    handshake is signed with that certificate's key, and whether [webpki] finds a chain
    from it to one of the roots. *)
Class TlsLib := {
  handshake : Type;
  end_entity : handshake → list Z;
  signature_ok : handshake → bool;
  chain_ok : list (list Z) → handshake → bool
}.

Inductive tls_trust : Type := Capturing | Pinned (leaf : list Z) | Roots (ders : list (list Z)).

(** [cert_key] is the identity of an mTLS client, in PEM. *)
Record http_client : Type := mkHttpClient { trust : tls_trust; cert_key : option (string * string); follows_redirects : bool }.

Definition insecure_capturing_client : http_client := mkHttpClient Capturing None true.
Definition pinned_leaf_client (leaf : list Z) : http_client := mkHttpClient (Pinned leaf) None true.

Inductive key_kind : Type := EcP256 | EcP384 | Rsa4096.

Section http.
Context `{TlsLib}.

(** The verifiers of the clients: [CapturingVerifier] asserts everything,
    [PinnedLeafVerifier] compares the leaf and leaves the signature to the library. *)
Definition server_ok (t : tls_trust) (s : handshake) : bool :=
  match t with
  | Capturing => true
  | Pinned leaf => bool_decide (end_entity s = leaf) && signature_ok s
  | Roots ders => chain_ok ders s && signature_ok s
  end.

(** ** Operations *)

Inductive net_op : Type :=
| Send (c : http_client) (r : request)
| Random (n : nat)
| GenerateKey (k : key_kind)
| Clock
| AskCode
| AskEnrollment (provisioning_url : string).

(** A request may go through several handshakes, with redirects.  The application is
    asked for a TOTP code; an error of its is its text. *)
Definition net_answer (o : net_op) : Type :=
  match o with
  | Send c r => list handshake * result string response
  | Random n => list Z
  | GenerateKey k => result string string
  | Clock => Z
  | AskCode | AskEnrollment _ => result string string
  end.

Definition net : signature := mkSig net_op net_answer.

Definition event : Type := {o : net_op & net_answer o}.
Definition history : Type := list event.
Definition ev (o : net_op) (x : net_answer o) : event := existT o x.

(** The library: a reply comes only over handshakes that the client's verifier
    accepted; random bytes are as many as asked. *)
Definition lawful (o : net_op) : net_answer o → Prop :=
  match o with
  | Send c r => λ x, match x.2 with Ok _ => forallb (server_ok (trust c)) x.1 = true | Err _ => True end
  | Random n => λ x, length x = n
  | _ => λ _, True
  end.

Definition send (c : http_client) (r : request) : task net (result string response) :=
  x ← perform (Σ := net) (Send c r); mret x.2.

(** ** Conversations *)

Definition environment : Type := history → ∀ o : net_op, net_answer o.

Fixpoint converse {A} (env : environment) (t : task net A) (h : history) : A * history :=
  match t with
  | Return a => (a, h)
  | Perform o k => converse env (k (env h o)) (h ++ [ev o (env h o)])
  end.

(** The discipline of a conversation: [allowed h o] says when [o] may come after [h]. *)
Definition talk (allowed : history → net_op → Prop) : discipline net history :=
  @mkDiscipline net history allowed (λ h o x, lawful o x) (λ h o x, h ++ [ev o x]) (λ h, h).

(** The events after [h] were all allowed when they happened. *)
Definition all_allowed (allowed : history → net_op → Prop) (h h' : history) : Prop :=
  ∀ h1 o x h2, h' = h1 ++ ev o x :: h2 → (length h ≤ length h1)%nat → allowed h1 o.

Lemma converse_sound {A} allowed (env : environment) (t : task net A) Q h :
  (∀ h o, lawful o (env h o)) → wp (talk allowed) t Q h →
  Q (converse env t h).1 (converse env t h).2 ∧ h `prefix_of` (converse env t h).2 ∧ all_allowed allowed h (converse env t h).2.
Proof.
  intros Henv. revert h. induction t as [a|o k IH]; intros h; cbn.
  - intros HQ. split_and!; [done|done|]. intros h1 o x h2 -> Hlen. rewrite length_app in Hlen. cbn in Hlen. lia.
  - intros [Hm Hk]. destruct (IH (env h o) (h ++ [ev o (env h o)])) as (HQ & [h3 Hp] & Hall); [apply Hk, Henv|].
    split_and!; [done|by exists (ev o (env h o) :: h3); rewrite Hp, <- app_assoc|].
    intros h1 o' x h2 He Hlen. destruct (decide (length h1 = length h)) as [Heq|Hne].
    + rewrite Hp, <- app_assoc in He. apply app_inj_1 in He as [<- He]; [|done]. cbn in He.
      assert (Ho : projT1 (ev o (env h o)) = projT1 (ev o' x)) by congruence. cbn in Ho. by subst.
    + apply (Hall h1 o' x h2 He). rewrite length_app. cbn. lia.
Qed.

Lemma converse_bind {A B} env (t : task net A) (f : A → task net B) h :
  converse env (t ≫= f) h = converse env (f (converse env t h).1) (converse env t h).2.
Proof. revert h. induction t as [a|o k IH]; intros h; cbn; [done|apply IH]. Qed.

(** What a history tells: a reply to a request. *)
Definition said (h : history) (c : http_client) (r : request) (p : response) : Prop := ∃ l, ev (Send c r) (l, Ok p) ∈ h.

Lemma wp_send allowed c r Q h :
  allowed h (Send c r) →
  (∀ l e, Q (Err e) (h ++ [ev (Send c r) (l, Err e)])) →
  (∀ l p, forallb (server_ok (trust c)) l = true → Q (Ok p) (h ++ [ev (Send c r) (l, Ok p)])) →
  wp (talk allowed) (send c r) Q h.
Proof. intros Hm Herr Hok. split; [done|]. intros [l [p|e]] Hx; cbn in *; [by apply Hok|apply Herr]. Qed.

Lemma said_app h h' c r p : said h c r p → said (h ++ h') c r p.
Proof. intros [l Hl]. exists l. apply elem_of_app. by left. Qed.

Lemma said_prefix h h' c r p : h `prefix_of` h' → said h c r p → said h' c r p.
Proof. intros [h2 ->]. apply said_app. Qed.

Lemma said_last h c r l p : said (h ++ [ev (Send c r) (l, Ok p)]) c r p.
Proof. exists l. apply elem_of_app. right. by apply list_elem_of_singleton. Qed.

(** A history only grows. *)
Lemma wp_extends {A} allowed (t : task net A) Q h :
  wp (talk allowed) t Q h → wp (talk allowed) t (λ a h', Q a h' ∧ h `prefix_of` h') h.
Proof.
  revert h. induction t as [a|o k IH]; intros h; cbn; [by intros HQ|]. intros [Hm Hk]. split; [done|]. intros x Hx.
  eapply wp_mono; [apply IH, Hk, Hx|]. intros a h' [HQ Hp]. split; [done|]. etrans; [|exact Hp]. by exists [ev o x].
Qed.

Lemma wp_talk {A} allowed (o : net_op) (k : net_answer o → task net A) Q h :
  allowed h o → (∀ x, lawful o x → wp (talk allowed) (k x) Q (h ++ [ev o x])) →
  wp (talk allowed) (perform (Σ := net) o ≫= k) Q h.
Proof. intros Hm Hk. split; [done|]. intros x Hx. by apply Hk. Qed.

(** A request whose failure is a failure of the whole. *)
Lemma wp_try_send {E A} allowed c r (f : string → E) (k : response → task net (result E A)) Q h :
  allowed h (Send c r) →
  (∀ e h', Q (Err e) h') →
  (∀ l p, forallb (server_ok (trust c)) l = true → wp (talk allowed) (k p) Q (h ++ [ev (Send c r) (l, Ok p)])) →
  wp (talk allowed) (try (x ← send c r; mret (map_err f x)) k) Q h.
Proof. intros Hm HQ Hk. split; [done|]. intros [l [p|e]] Hx; cbn in *; [by apply Hk|by apply HQ]. Qed.

Lemma wp_try_ret {E A B} allowed (x : result E A) (k : A → task net (result E B)) Q h :
  (∀ e h', Q (Err e) h') → (∀ a, x = Ok a → wp (talk allowed) (k a) Q h) → wp (talk allowed) (try (mret x) k) Q h.
Proof. intros HQ Hk. destruct x as [a|e]; cbn; [by apply Hk|apply HQ]. Qed.

Lemma wp_try_call {E A B} allowed (t : task net (result E A)) (k : A → task net (result E B)) (P : A → history → Prop) Q h :
  wp (talk allowed) t (λ r h', match r with Ok a => P a h' | Err _ => True end) h →
  (∀ e h', Q (Err e) h') → (∀ a h', P a h' → h `prefix_of` h' → wp (talk allowed) (k a) Q h') →
  wp (talk allowed) (try t k) Q h.
Proof.
  intros Ht HQ Hk. eapply wp_try; [by apply wp_extends|..].
  - intros a h' [HP Hp]. by apply Hk.
  - intros e h' _. apply HQ.
Qed.

(** Conversations, step by step. *)
Lemma converse_send {E A} (env : environment) c r (f : string → E) (k : response → task net (result E A)) h l p :
  env h (Send c r) = (l, Ok p) →
  converse env (try (x ← send c r; mret (map_err f x)) k) h = converse env (k p) (h ++ [ev (Send c r) (l, Ok p)]).
Proof. intros He. cbn. by rewrite He. Qed.

Lemma converse_try {E A B} env (t : task net (result E A)) (k : A → task net (result E B)) h :
  converse env (try t k) h =
  match (converse env t h).1 with
  | Ok a => converse env (k a) (converse env t h).2
  | Err e => (Err e, (converse env t h).2)
  end.
Proof. unfold try. rewrite converse_bind. by destruct (converse env t h).1. Qed.

Lemma converse_prefix {A} env (t : task net A) h : h `prefix_of` (converse env t h).2.
Proof. revert h. induction t as [a|o k IH]; intros h; cbn; [done|]. etrans; [|apply IH]. by exists [ev o (env h o)]. Qed.

End http.

Arguments ev {_} o x.

(** One operation of a conversation. *)
Ltac converse_op :=
  lazymatch goal with
  | |- context [converse ?env (@mbind ?M ?I ?X ?Y ?k (@perform ?S ?o)) ?h] =>
      change (converse env (@mbind M I X Y k (@perform S o)) h) with (converse env (k (env h o)) (h ++ [ev o (env h o)]))
  end.

(** A TLS library for witnesses: a server shows a certificate, signs or not, and is
    trusted when the certificate is itself a root. *)
Definition demo_tls : TlsLib := {|
  handshake := list Z * bool;
  end_entity := fst;
  signature_ok := snd;
  chain_ok := λ ders s, bool_decide (s.1 ∈ ders)
|}.
