(* ===== verification/Enroll.v ===== *)
(** * Enrolment: [src/enroll/]

    How an identity is made of a one-time token: the token names a controller, whose
    certificate is captured without trust and trusted only once it has signed the token;
    the controller's CAs are fetched over a connection pinned to that certificate, and
    the request that enrols goes over one that those CAs verify.  Proved: in every
    conversation, each request is sent only along that chain, and the identity is made of
    what came over it. *)

From S2P Require Import Prelude Utf8 Message EdgeWire Address Services Rest Tasks Http.

Local Open Scope string_scope.
Local Open Scope task_scope.

(** ** Errors and data *)

Inductive EnrollError : Type :=
| InvalidToken (m : string)
| JwtSignature (m : string)
| BootstrapTls (m : string)
| CaFetch (m : string)
| Pkcs7Parse (m : string)
| EmptyCaPool
| KeyGen (m : string)
| CsrBuild (m : string)
| EnrollHttp (status : Z) (code message : string)
| EnrollResponse (m : string)
| IdentityWrite (m : string)
| InvalidKeyAlg
| UnsupportedMethod (m : string)
| UpdbRequiresCredentials
| MissingClientIdentity
| AlreadyEnrolled.

(** [Display] ([error.rs]). *)
Definition enroll_error_text (e : EnrollError) : string :=
  match e with
  | InvalidToken m => "invalid enrolment token: " +:+ m
  | JwtSignature m => "JWT signature verification failed: " +:+ m
  | BootstrapTls m => "TLS bootstrap to issuer failed: " +:+ m
  | CaFetch m => "failed to fetch CA bundle: " +:+ m
  | Pkcs7Parse m => "failed to parse PKCS7 CA bundle: " +:+ m
  | EmptyCaPool => "CA pool is empty after enrolment trust setup"
  | KeyGen m => "key generation failed: " +:+ m
  | CsrBuild m => "CSR construction failed: " +:+ m
  | EnrollHttp status code message => "enrolment request failed (status " +:+ pretty status +:+ "): " +:+ code +:+ ": " +:+ message
  | EnrollResponse m => "unexpected enrolment response: " +:+ m
  | IdentityWrite m => "failed to write identity: " +:+ m
  | InvalidKeyAlg => "invalid option -- must specify either 'EC' or 'RSA'"
  | UnsupportedMethod m => "enrollment method '" +:+ m +:+ "' is not supported"
  | UpdbRequiresCredentials => "updb enrolment requires credentials — use enroll_updb(jwt, username, password)"
  | MissingClientIdentity => "ottca enrolment requires a pre-existing client identity (cert + key)"
  | AlreadyEnrolled => "the provided identity has already been enrolled"
  end.

Record EnrollmentClaims : Type := mkEnrollment { iss : string; sub : string; jti : string; em : string; exp : option Z }.

Inductive KeyKind : Type := Ec | Rsa.
Inductive jwt_algorithm : Type := ES256 | ES384 | RS256 | RS384 | RS512 | PS256 | PS384 | PS512.

(** [jsonwebtoken]'s [Validation]. *)
Record validation : Type := mkValidation {
  algorithms : list jwt_algorithm;
  validate_aud : bool;
  validate_exp : bool;
  required_spec_claims : list string
}.

Record ProvidedIdentity : Type := mkProvided { pi_cert_pem : string; pi_key_pem : string }.
Record EnrollOptions : Type := mkOptions {
  key_alg : key_kind;
  client_identity : option ProvidedIdentity;
  additional_cas : option string
}.
Record KeyAndCsr : Type := mkKeyAndCsr { key_pem : string; csr_pem : string }.

Record Id : Type := mkId { id_key : string; id_cert : string; id_ca : string }.
Record Config : Type := mkConfig { cfg_zt_api : string; zt_apis : option (list string); cfg_config_types : option (list string); cfg_id : Id }.
Record UpdbConfig : Type := mkUpdb { updb_zt_api : string; updb_ca : string; updb_username : string; updb_password : string }.

(** The libraries: [base64], [url], [jsonwebtoken], [x509_cert], [cms], [rcgen],
    [rustls] with its PEM files, and what [serde_json] reads and prints. *)
Class EnrollLib := {
  certificate : Type; content : Type; decoding_key : Type; private_key : Type;
  b64url_payload : string → result string (list Z);
  b64_decode : list Z → result string (list Z);
  b64_encode : list Z → string;
  enrollment_claims_json : list Z → result string EnrollmentClaims;
  url_host : string → result string (option string);
  key_from_pem : KeyKind → string → result string decoding_key;
  jwt_decode : string → decoding_key → validation → result string EnrollmentClaims;
  x509_chain_from_pem : string → result string (list certificate);
  x509_not_after : certificate → Z;
  x509_subject : certificate → string;
  x509_from_der : list Z → result string certificate;
  spki_pem : certificate → result string string;
  spki_oid : certificate → string;
  content_info : list Z → result string content;
  signed_data : content → result string (option (list (option (result string (list Z)))));
  csr_of_key : string → string → result EnrollError string;
  serialize_key : string → string;
  parse_key : string → result string string;
  pem_certs : string → list (result string (list Z));
  pem_private_key : string → result string (option private_key);
  add_root : list Z → result string unit;
  client_auth : list (list Z) → private_key → result string unit;
  build_client : http_client → result string unit;
  status_text : Z → string;
  error_envelope_json : string → option (option string * option string);
  data_cert_json : string → result string (option string);
  data_username_json : string → option string;
  updb_json : option string → string → string;
  to_uppercase : string → string
}.

Definition EDGE_CLIENT_BASE : string := "/edge/client/v1".

(** ** [str::trim] *)

(** The length of the white-space character that some bytes start with, or 0. *)
Definition white_space (bs : list Z) : nat :=
  match bs with
  | b :: bs =>
      if in_range 9 13 b || (b =? 32)%Z then 1%nat
      else match b, bs with
           | 194%Z, c :: _ => if (c =? 133)%Z || (c =? 160)%Z then 2%nat else O
           | 225%Z, 154%Z :: 128%Z :: _ => 3%nat
           | 226%Z, 128%Z :: c :: _ => if in_range 128 138 c || in_range 168 169 c || (c =? 175)%Z then 3%nat else O
           | 226%Z, 129%Z :: 159%Z :: _ => 3%nat
           | 227%Z, 128%Z :: 128%Z :: _ => 3%nat
           | _, _ => O
           end
  | [] => O
  end.

Fixpoint trim_start_aux (fuel : nat) (bs : list Z) : list Z :=
  match fuel, white_space bs with S fuel, S n => trim_start_aux fuel (drop (S n) bs) | _, _ => bs end.
Definition trim_start (bs : list Z) : list Z := trim_start_aux (length bs) bs.

Fixpoint trim_end (bs : list Z) : list Z :=
  match bs with b :: bs' => if bool_decide (trim_start bs = []) then [] else b :: trim_end bs' | [] => [] end.

Definition trim (s : string) : string := string_of_bytes (trim_end (trim_start (bytes_of_string s))).

(** [trim_end_matches]. *)
Fixpoint trim_end_matches (c : ascii) (s : string) : string :=
  match s with
  | String a s => let r := trim_end_matches c s in if bool_decide (a = c ∧ r = "") then "" else String a r
  | EmptyString => ""
  end.

(** ** token.rs: the token and the URLs *)

Definition issuer_base (c : EnrollmentClaims) : result EnrollError string :=
  let trimmed := trim_end_matches "/" (iss c) in
  if bool_decide (trimmed = "") then Err (InvalidToken "empty issuer") else Ok trimmed.

Definition zt_api (c : EnrollmentClaims) : result EnrollError string := b ← issuer_base c; Ok (b +:+ EDGE_CLIENT_BASE).

Definition enroll_url (c : EnrollmentClaims) : result EnrollError string :=
  b ← issuer_base c;
  let base := b +:+ EDGE_CLIENT_BASE +:+ "/enroll?method=" +:+ em c in
  if bool_decide (em c = "ca") then Ok base else Ok (base +:+ "&token=" +:+ jti c).

Definition cacerts_url (c : EnrollmentClaims) : result EnrollError string :=
  b ← issuer_base c; Ok (b +:+ EDGE_CLIENT_BASE +:+ "/.well-known/est/cacerts").

(** [contains]. *)
Fixpoint occurs_str (p s : string) : bool :=
  starts_with p s || match s with String _ s => occurs_str p s | EmptyString => false end.

Definition until (c : ascii) (s : string) : string := match split_once c s with Some (l, _) => l | None => s end.

Section enroll.
Context `{TlsLib} `{EnrollLib}.

Definition token_parse (jwt : string) : result EnrollError EnrollmentClaims :=
  let jwt := trim jwt in
  payload_b64 ← ok_or (InvalidToken "not a JWT (missing payload)") ('(_, rest) ← split_once "." jwt; Some (until "." rest));
  bytes ← map_err (λ e, InvalidToken ("payload base64: " +:+ e)) (b64url_payload payload_b64);
  claims ← map_err (λ e, InvalidToken ("payload json: " +:+ e)) (enrollment_claims_json bytes);
  if bool_decide (trim (iss claims) = "") then Err (InvalidToken "missing iss") else
  host ← map_err (λ e, InvalidToken ("issuer is not a valid URL: " +:+ e)) (url_host (trim (iss claims)));
  match host with
  | None => Err (InvalidToken ("issuer URL has no host: " +:+ iss claims))
  | Some _ => Ok claims
  end.

Definition accepted_algorithms (kind : KeyKind) : list jwt_algorithm :=
  match kind with Ec => [ES256; ES384] | Rsa => [RS256; RS384; RS512; PS256; PS384; PS512] end.

Definition token_verify (jwt leaf_spki_pem : string) (kind : KeyKind) : result EnrollError EnrollmentClaims :=
  key ← map_err (λ e, JwtSignature ("decoding key: " +:+ e)) (key_from_pem kind leaf_spki_pem);
  map_err JwtSignature (jwt_decode (trim jwt) key (mkValidation (accepted_algorithms kind) false true [])).

(** ** trust.rs *)

Definition spki_pem_from_cert_der (der : list Z) : result EnrollError (string * KeyKind) :=
  cert ← map_err (λ e, JwtSignature ("leaf cert parse: " +:+ e)) (x509_from_der der);
  pem ← map_err (λ e, JwtSignature ("spki pem: " +:+ e)) (spki_pem cert);
  let oid := spki_oid cert in
  if bool_decide (oid = "1.2.840.10045.2.1") then Ok (pem, Ec)
  else if bool_decide (oid = "1.2.840.113549.1.1.1") then Ok (pem, Rsa)
  else Err (JwtSignature ("unsupported key OID " +:+ oid)).

Definition is_ascii_whitespace (b : Z) : bool :=
  ((b =? 9) || (b =? 10) || (b =? 12) || (b =? 13) || (b =? 32))%Z.

(** The certificates among the choices, unless one cannot be encoded. *)
Fixpoint certificates (l : list (option (result string (list Z)))) : result EnrollError (list (list Z)) :=
  match l with
  | [] => Ok []
  | None :: l => certificates l
  | Some r :: l => der ← map_err (λ e, Pkcs7Parse ("cert der: " +:+ e)) r; ders ← certificates l; Ok (der :: ders)
  end.

Definition parse_cacerts_b64 (body : list Z) : result EnrollError (list (list Z)) :=
  der_bytes ← map_err (λ e, Pkcs7Parse ("base64: " +:+ e)) (b64_decode (List.filter (λ b, negb (is_ascii_whitespace b)) body));
  info ← map_err (λ e, Pkcs7Parse ("content_info: " +:+ e)) (content_info der_bytes);
  signed ← map_err (λ e, Pkcs7Parse ("signed_data: " +:+ e)) (signed_data info);
  out ← certificates (default [] signed);
  match out with [] => Err EmptyCaPool | _ => Ok out end.

(** [store.add] for each root. *)
Fixpoint add_roots (ders : list (list Z)) : result EnrollError unit :=
  match ders with
  | [] => Ok tt
  | der :: ders => _ ← map_err (λ e, CaFetch ("add root: " +:+ e)) (add_root der); add_roots ders
  end.

Definition checked_client (err : string → EnrollError) (c : http_client) : result EnrollError http_client :=
  _ ← map_err err (build_client c); Ok c.

Definition build_verified_client (roots_der : list (list Z)) (no_redirect : bool) : result EnrollError http_client :=
  _ ← add_roots roots_der;
  checked_client CaFetch (mkHttpClient (Roots roots_der) None (negb no_redirect)).

Definition verified_client (roots_der : list (list Z)) : result EnrollError http_client := build_verified_client roots_der false.
Definition verified_client_no_redirect (roots_der : list (list Z)) : result EnrollError http_client := build_verified_client roots_der true.

(** [collect] into a [Result]. *)
Fixpoint collect {E A} (l : list (result E A)) : result E (list A) :=
  match l with [] => Ok [] | r :: l => a ← r; rest ← collect l; Ok (a :: rest) end.

Definition client_auth_client (client_cert_pem client_key_pem : string) (roots_der : list (list Z)) : result EnrollError http_client :=
  cert_chain ← map_err (λ e, EnrollResponse ("client cert pem: " +:+ e)) (collect (pem_certs client_cert_pem));
  if bool_decide (cert_chain = []) then Err (EnrollResponse "no certificates in client identity PEM") else
  key ← map_err (λ e, EnrollResponse ("client key pem: " +:+ e)) (pem_private_key client_key_pem);
  key ← ok_or (EnrollResponse "no private key in client identity PEM") key;
  _ ← add_roots roots_der;
  _ ← map_err (λ e, EnrollResponse ("client auth cert: " +:+ e)) (client_auth cert_chain key);
  checked_client EnrollResponse (mkHttpClient (Roots roots_der) (Some (client_cert_pem, client_key_pem)) true).

Definition parse_ca_pems (pem : string) : list (list Z) :=
  List.filter (λ der, is_ok (add_root der)) (omap (λ r, match r with Ok der => Some der | Err _ => None end) (pem_certs pem)).

(** ** csr.rs *)

Definition KeyAlg_parse (value : string) : result EnrollError key_kind :=
  if bool_decide (to_uppercase value = "EC") then Ok EcP384
  else if bool_decide (to_uppercase value = "RSA") then Ok Rsa4096
  else Err InvalidKeyAlg.

Definition build_csr (common_name key : string) : result EnrollError KeyAndCsr :=
  csr ← csr_of_key common_name key; Ok (mkKeyAndCsr (serialize_key key) csr).

Definition generate_csr (common_name : string) (alg : key_kind) : task net (result EnrollError KeyAndCsr) :=
  r ← perform (Σ := net) (GenerateKey alg);
  key ←! mret (map_err KeyGen r);
  mret (build_csr common_name key).

Definition session_cert_csr_from_key (common_name key_pem : string) : result EnrollError KeyAndCsr :=
  key ← map_err KeyGen (parse_key key_pem); build_csr common_name key.

(** ** identity.rs *)

Definition from_enrolment (zt_api key_pem cert_pem ca_pem : string) : Config :=
  mkConfig zt_api None None
    (mkId ("pem:" +:+ key_pem) ("pem:" +:+ cert_pem) (if bool_decide (ca_pem = "") then "" else "pem:" +:+ ca_pem)).

(** ** ott.rs *)

Definition parse_enroll_error (body : string) : string * string :=
  match error_envelope_json body with
  | Some (code, msg) => (default "UNKNOWN" code, default "" msg)
  | None => ("UNKNOWN", take_chars 200 body)
  end.

Definition prepend_additional_cas (additional : option string) (controller_ders : list (list Z)) : list (list Z) :=
  (match additional with Some pem => if bool_decide (trim pem = "") then [] else parse_ca_pems pem | None => [] end ++ controller_ders)%list.

Definition NL : string := String "010" "".

Fixpoint chunks_of (fuel : nat) (bs : list Z) : list (list Z) :=
  match fuel, bs with S fuel, _ :: _ => take 64 bs :: chunks_of fuel (drop 64 bs) | _, _ => [] end.

Definition pem_block (der : list Z) : string :=
  let b64 := bytes_of_string (b64_encode der) in
  "-----BEGIN CERTIFICATE-----" +:+ NL +:+
  foldr (λ chunk out, string_of_bytes chunk +:+ NL +:+ out) ("-----END CERTIFICATE-----" +:+ NL) (chunks_of (length b64) b64).

Definition ders_to_pem (ders : list (list Z)) : string := foldr (λ der out, pem_block der +:+ out) "" ders.

Definition bootstrap_request (url : string) : request := mkRequest GET url [] None None.
Definition cacerts_request (url : string) : request := mkRequest GET url [("Accept", "application/pkcs7-mime")] None None.
Definition csr_request (url csr_pem : string) : request := mkRequest POST url [("Content-Type", "application/x-pem-file")] (Some csr_pem) None.
Definition ottca_request (url : string) : request := mkRequest POST url [("Content-Type", "text/plain")] (Some "") None.
Definition updb_request (url username password : string) : request :=
  mkRequest POST url [("Content-Type", "application/json")]
    (Some (updb_json (if bool_decide (username = "") then None else Some username) password)) None.

Definition fetch_cacerts (client : http_client) (cacerts_url : string) : task net (result EnrollError (list Z)) :=
  resp ←! (x ← send client (cacerts_request cacerts_url); mret (map_err CaFetch x));
  if negb (is_success (status resp)) then mret (Err (CaFetch ("status " +:+ status_text (status resp)))) else
  mret (map_err CaFetch (bytes resp)).

(** The certificate in the reply to a CSR. *)
Definition certificate_of (resp : response) : result EnrollError string :=
  let ctype := default "" (header resp "content-type") in
  body ← map_err EnrollResponse (text resp);
  if negb (is_success (status resp)) then
    let '(code, message) := parse_enroll_error body in Err (EnrollHttp (status resp) code message)
  else if occurs_str "application/json" ctype then
    cert ← map_err (λ e, EnrollResponse ("json: " +:+ e)) (data_cert_json body);
    ok_or (EnrollResponse "missing data.cert") cert
  else Ok body.

Definition request_cert (client : http_client) (enroll_url csr_pem : string) : task net (result EnrollError string) :=
  resp ←! (x ← send client (csr_request enroll_url csr_pem); mret (map_err EnrollResponse x));
  mret (certificate_of resp).

(** The bootstrap: the leaf that the verifier captured last. *)
Definition capture_leaf (url : string) : task net (result EnrollError (list Z)) :=
  x ← perform (Σ := net) (Send insecure_capturing_client (bootstrap_request url));
  mret (match x.2 with
        | Err e => Err (BootstrapTls e)
        | Ok _ => ok_or (BootstrapTls "no server cert captured") (end_entity <$> last x.1)
        end).

Definition resolve_trust (jwt : string) (additional_cas : option string) : task net (result EnrollError (EnrollmentClaims * list (list Z))) :=
  unverified ←! mret (token_parse jwt);
  _ ←! mret (checked_client BootstrapTls insecure_capturing_client);
  url ←! mret (zt_api unverified);
  leaf_der ←! capture_leaf url;
  spki ←! mret (spki_pem_from_cert_der leaf_der);
  claims ←! mret (token_verify jwt spki.1 spki.2);
  leaf_client ←! mret (checked_client CaFetch (pinned_leaf_client leaf_der));
  url ←! mret (cacerts_url claims);
  p7 ←! fetch_cacerts leaf_client url;
  controller_ders ←! mret (parse_cacerts_b64 p7);
  mret (Ok (claims, prepend_additional_cas additional_cas controller_ders)).

Definition enroll_ott (jwt : string) (opts : EnrollOptions) : task net (result EnrollError Config) :=
  trusted ←! resolve_trust jwt (additional_cas opts);
  let '(claims, ca_ders) := trusted in
  kc ←! generate_csr (sub claims) (key_alg opts);
  enroll_client ←! mret (verified_client ca_ders);
  url ←! mret (enroll_url claims);
  cert_pem ←! request_cert enroll_client url (csr_pem kc);
  api ←! mret (zt_api claims);
  mret (Ok (from_enrolment api (key_pem kc) cert_pem (ders_to_pem ca_ders))).

(** ** ottca.rs *)

Definition ottca_accepted (resp : response) : result EnrollError unit :=
  if (status resp =? OK)%Z then Ok tt
  else if (status resp =? CONFLICT)%Z then Err AlreadyEnrolled
  else Err (EnrollHttp (status resp) "" (status_text (status resp))).

Definition request_ottca (client : http_client) (enroll_url : string) : task net (result EnrollError unit) :=
  resp ←! (x ← send client (ottca_request enroll_url); mret (map_err EnrollResponse x));
  mret (ottca_accepted resp).

Definition enroll_ottca (jwt : string) (opts : EnrollOptions) : task net (result EnrollError Config) :=
  provided ←! mret (ok_or MissingClientIdentity (client_identity opts));
  trusted ←! resolve_trust jwt (additional_cas opts);
  let '(claims, ca_ders) := trusted in
  client ←! mret (client_auth_client (pi_cert_pem provided) (pi_key_pem provided) ca_ders);
  url ←! mret (enroll_url claims);
  _ ←! request_ottca client url;
  api ←! mret (zt_api claims);
  mret (Ok (from_enrolment api (pi_key_pem provided) (pi_cert_pem provided) (ders_to_pem ca_ders))).

Definition enroll (jwt : string) (opts : EnrollOptions) : task net (result EnrollError Config) :=
  claims ←! mret (token_parse jwt);
  if bool_decide (em claims = "ott") then enroll_ott jwt opts
  else if bool_decide (em claims = "ottca") then enroll_ottca jwt opts
  else if bool_decide (em claims = "updb") then mret (Err UpdbRequiresCredentials)
  else mret (Err (UnsupportedMethod (em claims))).

(** ** updb.rs *)

Definition updb_confirmed (username : string) (resp : response) : result EnrollError string :=
  body ← map_err EnrollResponse (text resp);
  if (status resp =? OK)%Z
  then Ok (match data_username_json body with Some u => if bool_decide (u = "") then username else u | None => username end)
  else let '(code, message) := parse_enroll_error body in Err (EnrollHttp (status resp) code message).

Definition request_updb (client : http_client) (enroll_url username password : string) : task net (result EnrollError string) :=
  resp ←! (x ← send client (updb_request enroll_url username password); mret (map_err EnrollResponse x));
  mret (updb_confirmed username resp).

Definition enroll_updb (jwt username password : string) (opts : EnrollOptions) : task net (result EnrollError UpdbConfig) :=
  trusted ←! resolve_trust jwt (additional_cas opts);
  let '(claims, ca_ders) := trusted in
  client ←! mret (verified_client ca_ders);
  url ←! mret (enroll_url claims);
  confirmed ←! request_updb client url username password;
  api ←! mret (zt_api claims);
  mret (Ok (mkUpdb api (ders_to_pem ca_ders) confirmed password)).

End enroll.

Local Close Scope string_scope.

(** ** The chain of trust *)

Create HintDb enroll.

Section enroll_spec.
Context `{TlsLib} `{EnrollLib} (jwt : string) (extra_cas : option string).

(** The last leaf that the bootstrap captured. *)
Definition bootstrapped (h : history) (leaf : list Z) : Prop :=
  ∃ url l p, ev (Send insecure_capturing_client (bootstrap_request url)) (l, Ok p) ∈ h ∧ end_entity <$> last l = Some leaf.

(** The token is signed with the key of the leaf, and says [claims]. *)
Definition vouched (leaf : list Z) (claims : EnrollmentClaims) : Prop :=
  ∃ spki, spki_pem_from_cert_der leaf = Ok spki ∧ token_verify jwt spki.1 spki.2 = Ok claims.

(** The CAs came over a connection pinned to that leaf, from where the token says. *)
Definition anchored (h : history) (claims : EnrollmentClaims) (cas : list (list Z)) : Prop :=
  ∃ leaf url p p7 ders, bootstrapped h leaf ∧ vouched leaf claims ∧ cacerts_url claims = Ok url ∧
    said h (pinned_leaf_client leaf) (cacerts_request url) p ∧ is_success (status p) = true ∧ bytes p = Ok p7 ∧
    parse_cacerts_b64 p7 = Ok ders ∧ cas = prepend_additional_cas extra_cas ders.

Section allowed.
(** The request that enrols, once the CAs are known: its client's identity, if any. *)
Context (enrols : history → EnrollmentClaims → string → option (string * string) → request → Prop).

Inductive enroll_step (h : history) : http_client → request → Prop :=
| step_bootstrap c url :
    token_parse jwt = Ok c → zt_api c = Ok url → enroll_step h insecure_capturing_client (bootstrap_request url)
| step_cacerts leaf claims url :
    bootstrapped h leaf → vouched leaf claims → cacerts_url claims = Ok url →
    enroll_step h (pinned_leaf_client leaf) (cacerts_request url)
| step_enrol claims cas url c r :
    anchored h claims cas → enroll_url claims = Ok url → trust c = Roots cas → enrols h claims url (cert_key c) r → enroll_step h c r.

Definition enroll_may (h : history) (o : net_op) : Prop :=
  match o with Send c r => enroll_step h c r | GenerateKey _ => True | _ => False end.

Lemma bootstrapped_prefix h h' leaf : h `prefix_of` h' → bootstrapped h leaf → bootstrapped h' leaf.
Proof. intros [h2 ->] (url & l & p & Hin & E). exists url, l, p. split; [apply elem_of_app; by left|done]. Qed.

Lemma anchored_prefix h h' claims cas : h `prefix_of` h' → anchored h claims cas → anchored h' claims cas.
Proof.
  intros Hp (leaf & url & p & p7 & ders & Hb & Hv & Hu & Hs & E). exists leaf, url, p, p7, ders.
  split_and!; [by eapply bootstrapped_prefix|done|done|by eapply said_prefix|apply E..].
Qed.

Lemma prefix_snoc (h : history) e : h `prefix_of` h ++ [e].
Proof. by exists [e]. Qed.

#[local] Hint Resolve bootstrapped_prefix anchored_prefix prefix_snoc : enroll.

Lemma capture_leaf_wp url h :
  enroll_step h insecure_capturing_client (bootstrap_request url) →
  wp (talk enroll_may) (capture_leaf url) (λ r h', match r with Ok leaf => bootstrapped h' leaf | Err _ => True end) h.
Proof.
  intros Hm. apply wp_talk; [exact Hm|]. intros [l [p|e]] _; cbn; [|done]. destruct (last l) as [s|] eqn:El; cbn; [|done].
  exists url, l, p. split; [|by rewrite El]. apply elem_of_app. right. by apply list_elem_of_singleton.
Qed.

Lemma fetch_cacerts_wp c url h :
  enroll_step h c (cacerts_request url) →
  wp (talk enroll_may) (fetch_cacerts c url) (λ r h', match r with
    | Ok p7 => ∃ p, said h' c (cacerts_request url) p ∧ is_success (status p) = true ∧ bytes p = Ok p7
    | Err _ => True end) h.
Proof.
  intros Hm. apply wp_try_send; [exact Hm|done|]. intros l p _. destruct (is_success (status p)) eqn:Es; [|done]. cbn.
  destruct (bytes p) as [p7|e] eqn:Eb; cbn; [|done]. exists p. split; [apply said_last|done].
Qed.

Lemma checked_client_Ok err c c' : checked_client err c = Ok c' → c' = c.
Proof. unfold checked_client. destruct (build_client c); cbn; congruence. Qed.

Lemma resolve_trust_wp h :
  wp (talk enroll_may) (resolve_trust jwt extra_cas) (λ r h', match r with Ok (claims, cas) => anchored h' claims cas | Err _ => True end) h.
Proof.
  unfold resolve_trust. apply wp_try_ret; [done|]. intros un Hun. apply wp_try_ret; [done|]. intros c0 _.
  apply wp_try_ret; [done|]. intros url Hurl.
  apply (wp_try_call _ _ _ (λ leaf h', bootstrapped h' leaf)); [by eapply capture_leaf_wp, step_bootstrap|done|].
  intros leaf h1 Hb _. apply wp_try_ret; [done|]. intros spki Hspki. apply wp_try_ret; [done|]. intros claims Hclaims.
  assert (Hv : vouched leaf claims) by (by exists spki). apply wp_try_ret; [done|]. intros c ->%checked_client_Ok.
  apply wp_try_ret; [done|]. intros curl Hcurl.
  eapply wp_try_call; [by eapply fetch_cacerts_wp, step_cacerts|done|]. intros p7 h2 (p & Hsaid & Hs & Hp7) Hp.
  apply wp_try_ret; [done|]. intros ders Hders. cbn. exists leaf, curl, p, p7, ders. split_and!; eauto with enroll.
Qed.

End allowed.

Lemma verified_client_Ok cas c : verified_client cas = Ok c → trust c = Roots cas ∧ cert_key c = None.
Proof. unfold verified_client, build_verified_client. destruct (add_roots cas); cbn; [|done]. by intros ->%checked_client_Ok. Qed.

Lemma client_auth_client_Ok cert key cas c : client_auth_client cert key cas = Ok c → trust c = Roots cas ∧ cert_key c = Some (cert, key).
Proof.
  unfold client_auth_client. destruct (map_err _ (collect _)) as [chain|]; cbn; [|done]. case_bool_decide; [done|].
  destruct (map_err _ (pem_private_key key)) as [k|]; cbn; [|done]. destruct (ok_or _ k); cbn; [|done].
  destruct (add_roots cas); cbn; [|done]. destruct (map_err _ (client_auth _ _)); cbn; [|done]. by intros ->%checked_client_Ok.
Qed.

(** ** What enrols, and what comes of it *)

Definition csr_enrols (alg : key_kind) (h : history) (claims : EnrollmentClaims) (url : string) (identity : option (string * string)) (r : request) : Prop :=
  identity = None ∧ ∃ key kc, ev (GenerateKey alg) (Ok key) ∈ h ∧ build_csr (sub claims) key = Ok kc ∧ r = csr_request url (csr_pem kc).

Definition ottca_enrols (provided : ProvidedIdentity) (h : history) (claims : EnrollmentClaims) (url : string)
    (identity : option (string * string)) (r : request) : Prop :=
  identity = Some (pi_cert_pem provided, pi_key_pem provided) ∧ r = ottca_request url.

Definition updb_enrols (username password : string) (h : history) (claims : EnrollmentClaims) (url : string)
    (identity : option (string * string)) (r : request) : Prop :=
  identity = None ∧ r = updb_request url username password.

Definition ott_identity (alg : key_kind) (h : history) (cfg : Config) : Prop :=
  ∃ claims cas url api key kc c p cert,
    anchored h claims cas ∧ enroll_url claims = Ok url ∧ zt_api claims = Ok api ∧
    ev (GenerateKey alg) (Ok key) ∈ h ∧ build_csr (sub claims) key = Ok kc ∧
    trust c = Roots cas ∧ said h c (csr_request url (csr_pem kc)) p ∧ certificate_of p = Ok cert ∧
    cfg = from_enrolment api (key_pem kc) cert (ders_to_pem cas).

Definition ottca_identity (provided : ProvidedIdentity) (h : history) (cfg : Config) : Prop :=
  ∃ claims cas url api c p,
    anchored h claims cas ∧ enroll_url claims = Ok url ∧ zt_api claims = Ok api ∧
    trust c = Roots cas ∧ cert_key c = Some (pi_cert_pem provided, pi_key_pem provided) ∧
    said h c (ottca_request url) p ∧ status p = OK ∧
    cfg = from_enrolment api (pi_key_pem provided) (pi_cert_pem provided) (ders_to_pem cas).

Definition updb_identity (username password : string) (h : history) (cfg : UpdbConfig) : Prop :=
  ∃ claims cas url api c p confirmed,
    anchored h claims cas ∧ enroll_url claims = Ok url ∧ zt_api claims = Ok api ∧
    trust c = Roots cas ∧ said h c (updb_request url username password) p ∧ status p = OK ∧ updb_confirmed username p = Ok confirmed ∧
    cfg = mkUpdb api (ders_to_pem cas) confirmed password.

(** ** Lemmas: the three enrolments *)

Lemma generate_csr_wp enrols cn alg h :
  wp (talk (enroll_may enrols)) (generate_csr cn alg) (λ r h', match r with
    | Ok kc => ∃ key, ev (GenerateKey alg) (Ok key) ∈ h' ∧ build_csr cn key = Ok kc | Err _ => True end) h.
Proof.
  apply wp_talk; [done|]. intros x _. apply wp_try_ret; [done|]. intros key Hkey. destruct x as [k|e]; [|done]. injection Hkey as ->.
  cbn. destruct (build_csr cn key) as [kc|e] eqn:Eb; [|done]. exists key. split; [|done]. apply elem_of_app. right. by apply list_elem_of_singleton.
Qed.

Lemma request_cert_wp enrols c url csr h :
  enroll_step enrols h c (csr_request url csr) →
  wp (talk (enroll_may enrols)) (request_cert c url csr) (λ r h', match r with
    | Ok cert => ∃ p, said h' c (csr_request url csr) p ∧ certificate_of p = Ok cert | Err _ => True end) h.
Proof.
  intros Hm. apply wp_try_send; [exact Hm|done|]. intros l p _. cbn. destruct (certificate_of p) as [cert|e] eqn:Ec; [|done].
  exists p. split; [apply said_last|done].
Qed.

Lemma request_ottca_wp enrols c url h :
  enroll_step enrols h c (ottca_request url) →
  wp (talk (enroll_may enrols)) (request_ottca c url) (λ r h', match r with
    | Ok _ => ∃ p, said h' c (ottca_request url) p ∧ status p = OK | Err _ => True end) h.
Proof.
  intros Hm. apply wp_try_send; [exact Hm|done|]. intros l p _. cbn. unfold ottca_accepted.
  destruct (Z.eqb_spec (status p) OK); [|by destruct (_ =? _)]. exists p. split; [apply said_last|done].
Qed.

Lemma request_updb_wp enrols c url u pw h :
  enroll_step enrols h c (updb_request url u pw) →
  wp (talk (enroll_may enrols)) (request_updb c url u pw) (λ r h', match r with
    | Ok confirmed => ∃ p, said h' c (updb_request url u pw) p ∧ status p = OK ∧ updb_confirmed u p = Ok confirmed | Err _ => True end) h.
Proof.
  intros Hm. apply wp_try_send; [exact Hm|done|]. intros l p _. cbn. destruct (updb_confirmed u p) as [cf|e] eqn:Eu; [|done].
  exists p. split_and!; [apply said_last| |done]. unfold updb_confirmed in Eu. destruct (text p); cbn in Eu; [|done].
  destruct (Z.eqb_spec (status p) OK); [done|]. by destruct (parse_enroll_error _).
Qed.

#[local] Hint Resolve bootstrapped_prefix anchored_prefix prefix_snoc said_prefix : enroll.

Lemma in_prefix (h h' : history) e : h `prefix_of` h' → e ∈ h → e ∈ h'.
Proof. intros [h2 ->] H'. apply elem_of_app. by left. Qed.

Lemma enroll_ott_wp opts enrols h :
  additional_cas opts = extra_cas → (∀ h claims url i r, csr_enrols (key_alg opts) h claims url i r → enrols h claims url i r) →
  wp (talk (enroll_may enrols)) (enroll_ott jwt opts) (λ r h', match r with Ok cfg => ott_identity (key_alg opts) h' cfg | Err _ => True end) h.
Proof.
  intros Hcas He. unfold enroll_ott. rewrite Hcas.
  apply (wp_try_call _ _ _ (λ t h', anchored h' t.1 t.2)); [|done|].
  { eapply wp_mono; [apply resolve_trust_wp|]. by intros [[? ?]|] ?. }
  intros [claims cas] h1 Ha _. cbn [fst snd] in Ha. eapply wp_try_call; [apply generate_csr_wp|done|].
  intros kc h2 (key & Hkey & Hkc) Hp2. apply wp_try_ret; [done|]. intros c Hc. destruct (verified_client_Ok _ _ Hc) as [Ht Hi].
  apply wp_try_ret; [done|]. intros url Hurl. eapply wp_try_call; [eapply request_cert_wp|done|].
  - eapply step_enrol; [by eapply anchored_prefix|done|done|]. apply He. split; [done|]. by exists key, kc.
  - intros cert h3 (p & Hs & Hcert) Hp3. apply wp_try_ret; [done|]. intros api Hapi. cbn.
    exists claims, cas, url, api, key, kc, c, p, cert. split_and!; try done; [by eauto with enroll|by eapply in_prefix].
Qed.

Lemma enroll_ottca_wp opts provided enrols h :
  additional_cas opts = extra_cas → client_identity opts = Some provided →
  (∀ h claims url i r, ottca_enrols provided h claims url i r → enrols h claims url i r) →
  wp (talk (enroll_may enrols)) (enroll_ottca jwt opts) (λ r h', match r with Ok cfg => ottca_identity provided h' cfg | Err _ => True end) h.
Proof.
  intros Hcas Hid He. unfold enroll_ottca. rewrite Hcas, Hid. apply wp_try_ret; [done|]. intros pr [= <-].
  apply (wp_try_call _ _ _ (λ t h', anchored h' t.1 t.2)); [|done|].
  { eapply wp_mono; [apply resolve_trust_wp|]. by intros [[? ?]|] ?. }
  intros [claims cas] h1 Ha _. cbn [fst snd] in Ha. apply wp_try_ret; [done|]. intros c Hc. destruct (client_auth_client_Ok _ _ _ _ Hc) as [Ht Hi].
  apply wp_try_ret; [done|]. intros url Hurl. eapply wp_try_call; [eapply request_ottca_wp|done|].
  - eapply step_enrol; [done|done|done|]. by apply He.
  - intros [] h3 (p & Hs & Hok) Hp3. apply wp_try_ret; [done|]. intros api Hapi. cbn.
    exists claims, cas, url, api, c, p. split_and!; try done. by eauto with enroll.
Qed.

Lemma enroll_updb_wp u pw opts h :
  additional_cas opts = extra_cas →
  wp (talk (enroll_may (updb_enrols u pw))) (enroll_updb jwt u pw opts)
    (λ r h', match r with Ok cfg => updb_identity u pw h' cfg | Err _ => True end) h.
Proof.
  intros Hcas. unfold enroll_updb. rewrite Hcas.
  apply (wp_try_call _ _ _ (λ t h', anchored h' t.1 t.2)); [|done|].
  { eapply wp_mono; [apply resolve_trust_wp|]. by intros [[? ?]|] ?. }
  intros [claims cas] h1 Ha _. cbn [fst snd] in Ha. apply wp_try_ret; [done|]. intros c Hc. destruct (verified_client_Ok _ _ Hc) as [Ht Hi].
  apply wp_try_ret; [done|]. intros url Hurl. eapply wp_try_call; [eapply request_updb_wp|done|].
  - eapply step_enrol; [done|done|done|]. by split.
  - intros cf h3 (p & Hs & Hok & Hcf) Hp3. apply wp_try_ret; [done|]. intros api Hapi. cbn.
    exists claims, cas, url, api, c, p, cf. split_and!; try done. by eauto with enroll.
Qed.

(** What [enroll] sends to enrol, and the identity it gives, by its options. *)
Definition enrolls_with (opts : EnrollOptions) (h : history) (claims : EnrollmentClaims) (url : string)
    (identity : option (string * string)) (r : request) : Prop :=
  csr_enrols (key_alg opts) h claims url identity r ∨
  ∃ provided, client_identity opts = Some provided ∧ ottca_enrols provided h claims url identity r.

Definition enrolled_identity (opts : EnrollOptions) (h : history) (cfg : Config) : Prop :=
  ott_identity (key_alg opts) h cfg ∨ ∃ provided, client_identity opts = Some provided ∧ ottca_identity provided h cfg.

Lemma enroll_wp opts h :
  additional_cas opts = extra_cas →
  wp (talk (enroll_may (enrolls_with opts))) (enroll jwt opts)
    (λ r h', match r with Ok cfg => enrolled_identity opts h' cfg | Err _ => True end) h.
Proof.
  intros Hcas. unfold enroll. apply wp_try_ret; [done|]. intros claims Hc. case_bool_decide.
  - eapply wp_mono; [apply enroll_ott_wp; [done|by left]|]. intros [cfg|e] h'; [by left|done].
  - case_bool_decide.
    + destruct (client_identity opts) as [provided|] eqn:Ei; [|by unfold enroll_ottca; rewrite Ei].
      eapply wp_mono; [apply (enroll_ottca_wp opts provided); [done|done|]|].
      * intros h0 cl url i r Hr. right. by exists provided.
      * intros [cfg|e] h'; [|done]. intros Hid. right. by exists provided.
    + by case_bool_decide.
Qed.

End enroll_spec.

(** ** PEM

    A reader of PEM, by lines of at most 64 characters, against which the writer is
    checked. *)

Definition BEGIN_LINE : list Z := bytes_of_string "-----BEGIN CERTIFICATE-----".
Definition END_LINE : list Z := bytes_of_string "-----END CERTIFICATE-----".

Fixpoint text_lines (line bs : list Z) : list (list Z) :=
  match bs with
  | [] => match line with [] => [] | _ => [line] end
  | b :: bs => if b =? 10 then line :: text_lines [] bs else text_lines (line ++ [b]) bs
  end.

Fixpoint read_blocks (block : option (list Z)) (lines : list (list Z)) : option (list (list Z)) :=
  match lines, block with
  | [], None => Some []
  | [], Some _ => None
  | l :: lines, None => if bool_decide (l = BEGIN_LINE) then read_blocks (Some []) lines else None
  | l :: lines, Some b64 =>
      if bool_decide (l = END_LINE) then cons b64 <$> read_blocks None lines
      else if (length l <=? 64)%nat then read_blocks (Some (b64 ++ l)) lines else None
  end.

Definition read_pem (pem : string) : option (list (list Z)) := read_blocks None (text_lines [] (bytes_of_string pem)).

(** Letters, digits, [+], [/] and [=]. *)
Definition base64_char (b : Z) : bool := in_range 65 90 b || in_range 97 122 b || in_range 47 57 b || (b =? 43) || (b =? 61).

Lemma text_lines_line acc line rest : Forall (λ b, b ≠ 10) line → text_lines acc (line ++ 10 :: rest) = (acc ++ line) :: text_lines [] rest.
Proof.
  revert acc. induction line as [|b line IH]; intros acc Hl; cbn; [by rewrite app_nil_r|]. inversion_clear Hl as [|? ? Hb Hl'].
  destruct (Z.eqb_spec b 10); [done|]. rewrite IH by done. by rewrite <- app_assoc.
Qed.

Section pem.
Context `{TlsLib} `{EnrollLib}.

Lemma base64_char_spec b : base64_char b = true → b ≠ 10 ∧ b ≠ 45 ∧ byte_ok b.
Proof.
  unfold base64_char, in_range, byte_ok. intros Hb. split_and!; try (intros ->; by vm_compute in Hb); bool_to_prop; lia.
Qed.

Lemma read_chunks n b64 acc rest :
  (length b64 ≤ n)%nat → Forall (λ b, base64_char b = true) b64 →
  read_blocks (Some acc) (text_lines [] (flat_map (λ c, c ++ [10]) (chunks_of n b64) ++ END_LINE ++ 10 :: rest)) =
  cons (acc ++ b64) <$> read_blocks None (text_lines [] rest).
Proof.
  assert (Hend : ∀ acc, read_blocks (Some acc) (text_lines [] (END_LINE ++ 10 :: rest)) = cons acc <$> read_blocks None (text_lines [] rest)) by done.
  revert b64 acc. induction n as [|n IH]; intros b64 acc Hn Hb.
  { destruct b64; [|cbn in Hn; lia]. cbn [chunks_of flat_map app]. by rewrite Hend, app_nil_r. }
  destruct b64 as [|b b64]; [cbn [chunks_of flat_map app]; by rewrite Hend, app_nil_r|].
  set (l := take 64 (b :: b64)). set (r := drop 64 (b :: b64)). assert (Hl : b :: b64 = l ++ r) by (symmetry; apply take_drop).
  change (chunks_of (S n) (b :: b64)) with (l :: chunks_of n r). cbn [flat_map]. rewrite Hl, <- !app_assoc.
  change ([10] ++ ?x) with (10 :: x). rewrite Hl in Hb. apply Forall_app in Hb as [Hbl Hbr].
  rewrite text_lines_line by (eapply Forall_impl; [exact Hbl|]; intros x Hx; by apply base64_char_spec). cbn [read_blocks app].
  rewrite bool_decide_eq_false_2.
  2: { intros He. unfold l in He, Hbl. rewrite He in Hbl. apply Forall_inv in Hbl. by vm_compute in Hbl. }
  assert (Hlen : (length l ≤ 64)%nat) by (unfold l; rewrite length_take; lia). apply Nat.leb_le in Hlen as ->.
  rewrite IH; [by rewrite <- app_assoc| |done]. unfold r. rewrite length_drop. cbn [length] in *. lia.
Qed.

Lemma pem_block_bytes der rest :
  Forall (λ b, base64_char b = true) (bytes_of_string (b64_encode der)) →
  bytes_of_string (pem_block der +:+ rest) =
  BEGIN_LINE ++ 10 :: flat_map (λ c, c ++ [10]) (chunks_of (length (bytes_of_string (b64_encode der))) (bytes_of_string (b64_encode der))) ++
    END_LINE ++ 10 :: bytes_of_string rest.
Proof.
  intros Hb. unfold pem_block. set (b64 := bytes_of_string (b64_encode der)) in *. rewrite !bytes_of_string_app, <- !app_assoc.
  change (bytes_of_string NL) with [10]. cbn [app]. do 2 f_equal.
  generalize (length b64) as n. intros n. revert Hb. generalize b64 as l. induction n as [|n IH]; intros l Hl.
  { done. }
  destruct l as [|b l]; [done|]. cbn [chunks_of foldr flat_map].
  rewrite !bytes_of_string_app, bytes_of_string_of_bytes.
  - rewrite <- !app_assoc. f_equal. change (bytes_of_string NL) with [10]. cbn [app]. f_equal. apply IH. by apply Forall_drop.
  - eapply Forall_impl; [by apply Forall_take|]. intros x Hx. by apply base64_char_spec.
Qed.

Lemma read_pem_ders ders :
  (∀ der, Forall (λ b, base64_char b = true) (bytes_of_string (b64_encode der))) →
  read_pem (ders_to_pem ders) = Some (List.map (λ der, bytes_of_string (b64_encode der)) ders).
Proof.
  intros Hok. unfold read_pem. induction ders as [|der ders IH]; [done|].
  change (ders_to_pem (der :: ders)) with (pem_block der +:+ ders_to_pem ders). rewrite pem_block_bytes by done.
  rewrite text_lines_line by (by vm_compute; repeat constructor). cbn [read_blocks app]. rewrite bool_decide_eq_true_2 by done.
  rewrite read_chunks by done. by rewrite IH.
Qed.

End pem.

(** ** Properties *)

Section enroll_properties.
Context `{TlsLib} `{EnrollLib}.

(** An enrolment with a one-time token, whatever the servers answer: the CAs are asked
    for only on a connection pinned to a captured leaf whose key signed the token, the
    request that enrols is sent - with a CSR for a key generated here, or over mTLS with
    the identity the caller has - only to a server that these CAs verify; the identity that results is made of the verified claims, of
    that key, of the certificate in the reply and of those CAs. *)
Theorem enrollment_sound jwt opts env :
  (∀ h o, lawful o (env h o)) →
  let r := converse env (enroll jwt opts) [] in
  all_allowed (enroll_may jwt (additional_cas opts) (enrolls_with opts)) [] r.2 ∧
  ∀ cfg, r.1 = Ok cfg → enrolled_identity jwt (additional_cas opts) opts r.2 cfg.
Proof.
  intros Henv r. destruct (converse_sound _ env _ _ [] Henv (enroll_wp jwt (additional_cas opts) opts [] eq_refl)) as (HQ & _ & Hall).
  split; [exact Hall|]. intros cfg Hc. fold r in HQ. by rewrite Hc in HQ.
Qed.

(** An enrolment with a user name and a password: they are sent only to a server that
    the CAs verify which came over a connection pinned to the leaf that signed the token,
    at the URL of the verified claims, and what results is made of those. *)
Theorem updb_enrollment_sound jwt username password opts env :
  (∀ h o, lawful o (env h o)) →
  let r := converse env (enroll_updb jwt username password opts) [] in
  all_allowed (enroll_may jwt (additional_cas opts) (updb_enrols username password)) [] r.2 ∧
  ∀ cfg, r.1 = Ok cfg → updb_identity jwt (additional_cas opts) username password r.2 cfg.
Proof.
  intros Henv r.
  destruct (converse_sound _ env _ _ [] Henv (enroll_updb_wp jwt (additional_cas opts) username password opts [] eq_refl)) as (HQ & _ & Hall).
  split; [exact Hall|]. intros cfg Hc. fold r in HQ. by rewrite Hc in HQ.
Qed.

End enroll_properties.

(** ** Witnesses

    A controller with certificate [9], whose key signs the token, and one CA, [5]; the
    encodings are toys. *)

Definition demo_claims (method : string) : EnrollmentClaims := mkEnrollment "https://ctrl:1280/" "id-1" "jti-1" method None.

Definition demo_enroll : EnrollLib := {|
  certificate := list Z; content := list Z; decoding_key := string; private_key := string;
  b64url_payload := λ s, Ok (bytes_of_string s);
  b64_decode := Ok;
  b64_encode := λ bs, string_of_bytes (flat_map (λ b, [97 + (b / 16) mod 16; 97 + b mod 16]) bs);
  enrollment_claims_json := λ bs, Ok (demo_claims (string_of_bytes bs));
  url_host := λ _, Ok (Some "ctrl"%string);
  key_from_pem := λ _ s, Ok s;
  jwt_decode := λ jwt key _, if bool_decide (key = "spki-9"%string) then Ok (demo_claims (until "."%char (default ""%string (snd <$> split_once "."%char jwt))))
                             else Err "InvalidSignature"%string;
  x509_chain_from_pem := λ s, Ok [bytes_of_string s];
  x509_not_after := λ c, 1000000000000 * Z.of_nat (length c);
  x509_subject := λ _, "O=ctrl, CN=id-1"%string;
  x509_from_der := Ok;
  spki_pem := λ c, Ok (if bool_decide (c = [9]) then "spki-9" else "other")%string;
  spki_oid := λ _, "1.2.840.10045.2.1"%string;
  content_info := Ok;
  signed_data := λ bs, Ok (Some [Some (Ok bs)]);
  csr_of_key := λ cn _, Ok ("csr of " +:+ cn)%string;
  serialize_key := λ key, key;
  parse_key := Ok;
  pem_certs := λ _, [Ok [1]];
  pem_private_key := λ s, Ok (Some s);
  add_root := λ _, Ok tt;
  client_auth := λ _ _, Ok tt;
  build_client := λ _, Ok tt;
  status_text := λ z, pretty z;
  error_envelope_json := λ _, None;
  data_cert_json := λ body, Ok (Some body);
  data_username_json := λ _, None;
  updb_json := λ u pw, (default ""%string u +:+ ":" +:+ pw)%string;
  to_uppercase := λ s, s
|}.

Section enroll_witness.
Existing Instances demo_tls demo_enroll.

Definition demo_server (c : http_client) : list (list Z * bool) :=
  match trust c with Capturing => [([9], true)] | Pinned leaf => [(leaf, true)] | Roots ders => List.map (λ d, (d, true)) (take 1 ders) end.

Definition demo_web : environment := λ h o,
  match o with
  | Send c r => (demo_server c, Ok (mkResponse OK (λ _, None) (Ok "leaf pem"%string) (Ok [5])))
  | Random n => replicate n 0
  | GenerateKey _ => Ok "key pem"%string
  | Clock => 0
  | AskCode | AskEnrollment _ => Err "none"%string
  end.

Lemma demo_web_lawful h o : lawful o (demo_web h o).
Proof.
  destruct o as [c r|n| | | |]; try done; [|apply length_replicate]. unfold lawful, demo_web, demo_server, server_ok. cbn [snd fst].
  destruct (trust c) as [|leaf|[|d ders]]; try done; cbn; rewrite bool_decide_eq_true_2; [done|done|done|left].
Qed.

Definition demo_options : EnrollOptions := mkOptions EcP384 None None.
Definition demo_jwt : string := " h.ott.s ".

Definition demo_identity : Config :=
  from_enrolment "https://ctrl:1280/edge/client/v1" "key pem" "leaf pem" (ders_to_pem [[5]]).

Lemma enrollment_sound_witness :
  (∀ h o, lawful o (demo_web h o)) ∧
  ∃ r, r = converse demo_web (enroll demo_jwt demo_options) [] ∧ r.1 = Ok demo_identity ∧ length r.2 = 4%nat ∧
    enrolled_identity demo_jwt (additional_cas demo_options) demo_options r.2 demo_identity ∧
    all_allowed (enroll_may demo_jwt (additional_cas demo_options) (enrolls_with demo_options)) [] r.2.
Proof.
  split; [exact demo_web_lawful|]. pose proof (enrollment_sound demo_jwt demo_options demo_web demo_web_lawful) as Hs. cbv zeta in Hs.
  exists (converse demo_web (enroll demo_jwt demo_options) []).
  assert (He : (converse demo_web (enroll demo_jwt demo_options) []).1 = Ok demo_identity) by (vm_compute; reflexivity).
  split; [reflexivity|]. split; [exact He|]. split; [vm_compute; reflexivity|]. destruct Hs as [Ha Hg].
  split; [exact (Hg demo_identity He)|exact Ha].
Defined.

Definition demo_account : UpdbConfig := mkUpdb "https://ctrl:1280/edge/client/v1" (ders_to_pem [[5]]) "alice" "secret".

Lemma updb_enrollment_sound_witness :
  (∀ h o, lawful o (demo_web h o)) ∧
  ∃ r, r = converse demo_web (enroll_updb demo_jwt "alice" "secret" demo_options) [] ∧ r.1 = Ok demo_account ∧
    updb_identity demo_jwt (additional_cas demo_options) "alice" "secret" r.2 demo_account ∧
    all_allowed (enroll_may demo_jwt (additional_cas demo_options) (updb_enrols "alice" "secret")) [] r.2.
Proof.
  split; [exact demo_web_lawful|].
  pose proof (updb_enrollment_sound demo_jwt "alice" "secret" demo_options demo_web demo_web_lawful) as Hs. cbv zeta in Hs.
  exists (converse demo_web (enroll_updb demo_jwt "alice" "secret" demo_options) []).
  assert (He : (converse demo_web (enroll_updb demo_jwt "alice" "secret" demo_options) []).1 = Ok demo_account) by (vm_compute; reflexivity).
  split; [reflexivity|]. split; [exact He|]. destruct Hs as [Ha Hg]. split; [exact (Hg demo_account He)|exact Ha].
Defined.

Lemma demo_b64_ok der : Forall (λ b, base64_char b = true) (bytes_of_string (b64_encode der)).
Proof.
  assert (Hd : Forall (λ b, 97 <= b <= 112) (flat_map (λ b, [97 + (b / 16) mod 16; 97 + b mod 16]) der)).
  { induction der as [|b der IH]; cbn; [constructor|]. pose proof (Z.mod_pos_bound (b / 16) 16 ltac:(lia)).
    pose proof (Z.mod_pos_bound b 16 ltac:(lia)). apply Forall_cons. split; [lia|]. apply Forall_cons. split; [lia|exact IH]. }
  cbn [b64_encode demo_enroll]. rewrite bytes_of_string_of_bytes.
  - eapply Forall_impl; [exact Hd|]. intros b Hb. cbn beta in Hb. unfold base64_char, in_range.
    replace (97 <=? b) with true by lia. replace (b <=? 122) with true by lia. cbn. by rewrite orb_true_r.
  - eapply Forall_impl; [exact Hd|]. intros b Hb. unfold byte_ok. cbn beta in Hb. lia.
Qed.

End enroll_witness.
