(* ===== verification/SessionCert.v ===== *)
(** * Certificates of API sessions: [src/edge/session_cert.rs], [edge/session_cert_renew.rs]

    A client that logs in with a password has no certificate of its own for the channels
    to routers: the controller mints one for the session, which is minted again, for the
    same key, when it is about to expire.  Proved: what a renewal asks for and leaves
    behind, that one is enough for a burst of callers, and that the leaf is cut out of
    the chain as it was written. *)

From S2P Require Import Prelude Utf8 Message EdgeWire Address Services Rest Tasks Http Enroll.

Local Open Scope string_scope.
Local Open Scope task_scope.

Definition SESSION_CERT_CN : string := "apiSession".
Definition PEM_CERT_BEGIN : string := "-----BEGIN CERTIFICATE-----".
Definition PEM_CERT_END : string := "-----END CERTIFICATE-----".
Definition SESSION_CERT_REQUEST_TIMEOUT : Z := 15.

(** Times are in nanoseconds since the epoch. *)
Definition RENEW_BUFFER : Z := 5 * 60 * 1000000000.
Definition UNIX_EPOCH : Z := 0.

Record SessionCert : Type := mkSessionCert { sc_leaf_pem : string; sc_chain_pem : string; sc_key_pem : string; sc_id : string }.

Record SessionCertState : Type := mkCertState {
  leaf_pem : string;
  cs_key_pem : string;
  root_ders : list (list Z);
  not_after : Z;
  now_override : option Z
}.

(** ** session_cert.rs *)

Definition extract_leaf_pem (chain : string) : result EdgeError string :=
  '(_, rest) ← ok_or (SessionCertResponse "response certificate has no PEM block") (split_once_str PEM_CERT_BEGIN chain);
  '(block, _) ← ok_or (SessionCertResponse "response certificate PEM block is unterminated") (split_once_str PEM_CERT_END (PEM_CERT_BEGIN +:+ rest));
  Ok (block +:+ PEM_CERT_END +:+ NL).

(** The body with the CSR, and the id and the certificate in the reply. *)
Class CertJson := {
  csr_json : string → string;
  session_cert_json : string → result string (string * string)
}.

(** What the tasks that ask for a certificate need: the clock, and the reply to a
    request that carries a CSR, under a token and with a time limit. *)
Class CertOps (Σ : signature) := {
  now : task Σ Z;
  post_certificate : AuthToken → string → Z → task Σ http_reply
}.

Section session_cert.
Context `{JsonLib} `{!RestJson} `{TlsLib} `{EnrollLib} `{CertJson}.

Definition cert_request (base_url : string) (token : AuthToken) (csr_pem : string) (request_timeout : Z) : request :=
  mkRequest POST (base_url +:+ "/current-api-session/certificates")
    [access_header token; ("Content-Type", "application/json")] (Some (csr_json csr_pem)) (Some request_timeout).

(** In a conversation, over a TLS client and to a controller. *)
Definition net_cert_ops (http : http_client) (base_url : string) : CertOps net := {|
  now := perform (Σ := net) Clock;
  post_certificate token csr_pem request_timeout :=
    x ← send http (cert_request base_url token csr_pem request_timeout); mret (reply_of x)
|}.

Definition parse_cert_reply (key_pem : string) (r : http_reply) : result EdgeError SessionCert :=
  match r with
  | NoResponse e | Response _ (Err e) => Err (SessionCertResponse e)
  | Response status (Ok body) =>
      if negb (status =? CREATED)%Z then
        let '(code, message) := Rest.parse_error_envelope body in Err (SessionCertHttp status code message)
      else
        '(id, chain_pem) ← map_err (λ e, SessionCertResponse ("json: " +:+ e)) (session_cert_json body);
        leaf_pem ← extract_leaf_pem chain_pem;
        Ok (mkSessionCert leaf_pem chain_pem key_pem id)
  end.

Definition csr_failed (e : EnrollError) : EdgeError := SessionCertResponse ("csr: " +:+ enroll_error_text e).

Context {Σ : signature} `{!CertOps Σ}.

Definition post_csr_and_parse (token : AuthToken) (csr_pem key_pem : string) (request_timeout : Z) : task Σ (result EdgeError SessionCert) :=
  r ← post_certificate token csr_pem request_timeout;
  mret (parse_cert_reply key_pem r).

Definition remint_api_session_cert (token : AuthToken) (key : string) : task Σ (result EdgeError SessionCert) :=
  kc ←! mret (map_err csr_failed (session_cert_csr_from_key SESSION_CERT_CN key));
  post_csr_and_parse token (csr_pem kc) (key_pem kc) SESSION_CERT_REQUEST_TIMEOUT.

(** ** session_cert_renew.rs *)

Record ChannelTlsParts : Type := mkParts { cert_chain : list (list Z); parts_key : private_key; parts_roots : list (list Z); parts_cn : string }.

Definition parse_not_after (leaf : string) : result EdgeError Z :=
  chain ← map_err (λ e, SessionCertResponse ("parse leaf: " +:+ e)) (x509_chain_from_pem leaf);
  cert ← ok_or (SessionCertResponse "session-cert leaf PEM has no certificate") (head chain);
  Ok (x509_not_after cert).

Definition parse_leaf_to_der (leaf : string) : result EdgeError (list (list Z)) :=
  certs ← map_err (λ e, IdentityLoad ("session-cert leaf: " +:+ e)) (collect (pem_certs leaf));
  if bool_decide (certs = []) then Err (IdentityLoad "no certificate in session-cert leaf") else Ok certs.

Definition parse_key_to_der (key : string) : result EdgeError private_key :=
  k ← map_err (λ e, IdentityLoad ("session-cert key: " +:+ e)) (pem_private_key key);
  ok_or (IdentityLoad "no private key in session-cert key") k.

(** [edge/channel/dial.rs]: the common name of the leaf. *)
Fixpoint common_name (fuel : nat) (dn : string) : option string :=
  match fuel with
  | O => None
  | S fuel =>
      let '(part, rest) := match split_once "," dn with Some (l, r) => (l, Some r) | None => (dn, None) end in
      match strip_prefix "CN=" (trim part) with
      | Some cn => Some cn
      | None => match rest with Some r => common_name fuel r | None => None end
      end
  end.

Definition leaf_common_name_for (pem : string) : option string :=
  match x509_chain_from_pem pem with
  | Ok (cert :: _) => common_name (S (String.length (x509_subject cert))) (x509_subject cert)
  | _ => None
  end.

(** [into_config]: the trust, the identity and the name that the parts make. *)
Fixpoint add_cas (ders : list (list Z)) : result EdgeError unit :=
  match ders with
  | [] => Ok tt
  | der :: ders => _ ← map_err (λ e, TlsSetup ("add ca: " +:+ e)) (add_root der); add_cas ders
  end.

(** [rustls::ClientConfig]: the roots, and the identity that the library has taken. *)
Record ClientConfig : Type := mkClientConfig { cc_roots : list (list Z); cc_chain : list (list Z); cc_key : private_key }.

Definition into_config (parts : ChannelTlsParts) : result EdgeError (ClientConfig * string) :=
  _ ← add_cas (parts_roots parts);
  _ ← map_err TlsSetup (client_auth (cert_chain parts) (parts_key parts));
  Ok (mkClientConfig (parts_roots parts) (cert_chain parts) (parts_key parts), parts_cn parts).

(** ** identity_tls.rs *)

Definition pem_value (v : string) : result EdgeError string :=
  ok_or (IdentityLoad "identity value is not an inline `pem:` PEM") (strip_prefix "pem:" v).

Definition parse_certs (pem : string) : result EdgeError (list (list Z)) :=
  certs ← map_err (λ e, IdentityLoad ("certs: " +:+ e)) (collect (pem_certs pem));
  if bool_decide (certs = []) then Err (IdentityLoad "no certificates in PEM") else Ok certs.

Definition client_config (cfg : Config) : result EdgeError ClientConfig :=
  cert_pem ← pem_value (id_cert (cfg_id cfg));
  chain ← parse_certs cert_pem;
  key_pem ← pem_value (id_key (cfg_id cfg));
  key ← map_err (λ e, IdentityLoad ("key: " +:+ e)) (pem_private_key key_pem);
  key ← ok_or (IdentityLoad "no private key in id.key") key;
  ca_pem ← pem_value (id_ca (cfg_id cfg));
  cas ← parse_certs ca_pem;
  _ ← add_cas cas;
  _ ← map_err TlsSetup (client_auth chain key);
  Ok (mkClientConfig cas chain key).

Definition identity_client (redirects : bool) (cfg : Config) : result EdgeError http_client :=
  cc ← client_config cfg;
  cert_pem ← pem_value (id_cert (cfg_id cfg));
  key_pem ← pem_value (id_key (cfg_id cfg));
  let c := mkHttpClient (Roots (cc_roots cc)) (Some (cert_pem, key_pem)) redirects in
  _ ← map_err TlsSetup (build_client c);
  Ok c.

Definition mtls_client : Config → result EdgeError http_client := identity_client true.
Definition oidc_mtls_client : Config → result EdgeError http_client := identity_client false.

Definition cert_state_new (cert : SessionCert) (roots : list (list Z)) : result EdgeError SessionCertState :=
  t ← parse_not_after (sc_leaf_pem cert); Ok (mkCertState (sc_leaf_pem cert) (sc_key_pem cert) roots t None).

Definition invalidate (st : SessionCertState) : SessionCertState :=
  mkCertState (leaf_pem st) (cs_key_pem st) (root_ders st) UNIX_EPOCH (now_override st).

Definition stale_at (st : SessionCertState) (now : Z) : bool := (not_after st <=? now + RENEW_BUFFER)%Z.

Definition is_stale (st : SessionCertState) : task Σ bool :=
  t ← match now_override st with Some t => mret t | None => now end;
  mret (stale_at st t).

(** The state with the minted leaf. *)
Definition renewed (st : SessionCertState) (fresh : SessionCert) : result EdgeError SessionCertState :=
  t ← parse_not_after (sc_leaf_pem fresh); Ok (mkCertState (sc_leaf_pem fresh) (cs_key_pem st) (root_ders st) t (now_override st)).

Definition tls_parts (st : SessionCertState) : result EdgeError ChannelTlsParts :=
  cert_chain ← parse_leaf_to_der (leaf_pem st);
  key ← parse_key_to_der (cs_key_pem st);
  Ok (mkParts cert_chain key (root_ders st) (default "" (leaf_common_name_for (leaf_pem st)))).

(** Under the lock: the state it leaves, and its result. *)
Definition ensure_fresh (token : AuthToken) (st : SessionCertState) : task Σ (SessionCertState * result EdgeError ChannelTlsParts) :=
  stale ← is_stale st;
  if stale : bool then
    fresh ← remint_api_session_cert token (cs_key_pem st);
    match fresh ≫= renewed st with
    | Ok st' => mret (st', tls_parts st')
    | Err e => mret (st, Err e)
    end
  else mret (st, tls_parts st).

(** Callers that take the lock one after the other. *)
Fixpoint ensure_all (token : AuthToken) (n : nat) (st : SessionCertState) : task Σ (SessionCertState * list (result EdgeError ChannelTlsParts)) :=
  match n with
  | O => mret (st, [])
  | S n =>
      x ← ensure_fresh token st;
      y ← ensure_all token n x.1;
      mret (y.1, x.2 :: y.2)
  end.

End session_cert.

(** The first certificate, for a new key, is asked for in a conversation. *)
Definition acquire_api_session_cert `{JsonLib} `{!RestJson} `{TlsLib} `{EnrollLib} `{CertJson} (http : http_client) (base_url : string)
    (token : AuthToken) : task net (result EdgeError SessionCert) :=
  r ← generate_csr SESSION_CERT_CN EcP256;
  kc ←! mret (map_err csr_failed r);
  let ops := net_cert_ops http base_url in
  post_csr_and_parse token (csr_pem kc) (key_pem kc) SESSION_CERT_REQUEST_TIMEOUT.

Local Close Scope string_scope.

(** ** Lemmas *)

Section session_cert_laws.
Context `{JsonLib} `{!RestJson} `{TlsLib} `{EnrollLib} `{CertJson}.
Context (http : http_client) (base_url : string) (token : AuthToken).
#[local] Instance laws_ops : CertOps net := net_cert_ops http base_url.

Definition the_time (env : environment) (st : SessionCertState) (h : history) : Z := default (env h Clock) (now_override st).
Definition told_time (env : environment) (st : SessionCertState) (h : history) : history :=
  match now_override st with Some _ => h | None => h ++ [ev Clock (env h Clock)] end.

Lemma converse_is_stale env st h : converse env (is_stale st) h = (stale_at st (the_time env st h), told_time env st h).
Proof. unfold is_stale, the_time, told_time. by destruct (now_override st). Qed.

Lemma renewed_keeps st fresh st' :
  renewed st fresh = Ok st' → cs_key_pem st' = cs_key_pem st ∧ root_ders st' = root_ders st ∧ now_override st' = now_override st ∧
    leaf_pem st' = sc_leaf_pem fresh ∧ parse_not_after (leaf_pem st') = Ok (not_after st').
Proof. unfold renewed. destruct (parse_not_after (sc_leaf_pem fresh)) as [t|e] eqn:E; cbn; [|done]. intros [= <-]. done. Qed.

(** What a renewal sends and leaves. *)
Lemma remint_spec env key h :
  match session_cert_csr_from_key SESSION_CERT_CN key with
  | Err e => converse env (remint_api_session_cert token key) h = (Err (csr_failed e), h)
  | Ok kc =>
      let o := Send http (cert_request base_url token (csr_pem kc) SESSION_CERT_REQUEST_TIMEOUT) in
      converse env (remint_api_session_cert token key) h =
      (parse_cert_reply (key_pem kc) (reply_of (env h o).2), h ++ [ev o (env h o)])
  end.
Proof.
  unfold remint_api_session_cert. destruct (session_cert_csr_from_key _ key) as [kc|e]; [|done]. cbn.
  done.
Qed.

Inductive ensured (env : environment) (st : SessionCertState) (h : history) :
  SessionCertState → result EdgeError ChannelTlsParts → history → Prop :=
| ensured_fresh :
    stale_at st (the_time env st h) = false → ensured env st h st (tls_parts st) (told_time env st h)
| ensured_no_csr e :
    stale_at st (the_time env st h) = true → session_cert_csr_from_key SESSION_CERT_CN (cs_key_pem st) = Err e →
    ensured env st h st (Err (csr_failed e)) (told_time env st h)
| ensured_refused kc l x e :
    stale_at st (the_time env st h) = true → session_cert_csr_from_key SESSION_CERT_CN (cs_key_pem st) = Ok kc →
    env (told_time env st h) (Send http (cert_request base_url token (csr_pem kc) SESSION_CERT_REQUEST_TIMEOUT)) = (l, x) →
    parse_cert_reply (key_pem kc) (reply_of x) ≫= renewed st = Err e →
    ensured env st h st (Err e)
      (told_time env st h ++ [ev (Send http (cert_request base_url token (csr_pem kc) SESSION_CERT_REQUEST_TIMEOUT)) (l, x)])
| ensured_minted kc l p fresh st' :
    stale_at st (the_time env st h) = true → session_cert_csr_from_key SESSION_CERT_CN (cs_key_pem st) = Ok kc →
    env (told_time env st h) (Send http (cert_request base_url token (csr_pem kc) SESSION_CERT_REQUEST_TIMEOUT)) = (l, Ok p) →
    parse_cert_reply (key_pem kc) (reply_of (Ok p)) = Ok fresh → renewed st fresh = Ok st' →
    ensured env st h st' (tls_parts st')
      (told_time env st h ++ [ev (Send http (cert_request base_url token (csr_pem kc) SESSION_CERT_REQUEST_TIMEOUT)) (l, Ok p)]).

Lemma ensure_fresh_spec env st h :
  ensured env st h (converse env (ensure_fresh token st) h).1.1
    (converse env (ensure_fresh token st) h).1.2 (converse env (ensure_fresh token st) h).2.
Proof.
  unfold ensure_fresh. rewrite converse_bind, converse_is_stale. cbn [fst snd].
  destruct (stale_at st (the_time env st h)) eqn:Es; [|by apply ensured_fresh]. rewrite converse_bind.
  pose proof (remint_spec env (cs_key_pem st) (told_time env st h)) as Hr.
  destruct (session_cert_csr_from_key SESSION_CERT_CN (cs_key_pem st)) as [kc|e] eqn:Ek; rewrite Hr; cbn [fst snd].
  2: { by apply ensured_no_csr. }
  set (o := Send http _). destruct (env (told_time env st h) o) as [l x] eqn:Eo. cbn [snd].
  destruct (_ ≫= renewed st) as [st'|e] eqn:Er; cbn [converse fst snd mret task_ret].
  2: { by eapply ensured_refused. }
  destruct x as [p|e]; [|done]. destruct (parse_cert_reply (key_pem kc) (reply_of (Ok p))) as [fresh|e] eqn:Ep; [|done].
  by eapply ensured_minted.
Qed.

(** ** Bursts *)

Definition is_send (e : event) : bool := match projT1 e with Send _ _ => true | _ => false end.
Definition sends (h : history) : nat := length (List.filter is_send h).
Definition failures (l : list (result EdgeError ChannelTlsParts)) : nat := length (List.filter (λ r, negb (is_ok r)) l).

Lemma sends_plus h h' : sends (h ++ h') = (sends h + sends h')%nat.
Proof. unfold sends. by rewrite List.filter_app, length_app. Qed.

Lemma sends_told env st h : sends (told_time env st h) = sends h.
Proof. unfold told_time. destruct (now_override st); [done|]. rewrite sends_plus. cbn. lia. Qed.

(** What the controller mints outlives the conversation. *)
Definition long_lived (env : environment) : Prop :=
  ∀ h c r p key fresh st st', (env h (Send c r)).2 = Ok p → parse_cert_reply key (reply_of (Ok p)) = Ok fresh → renewed st fresh = Ok st' →
    now_override st = None → ∀ h', stale_at st' (the_time env st' h') = false.

Lemma ensure_all_step env n st h :
  converse env (ensure_all token (S n) st) h =
  let x := converse env (ensure_fresh token st) h in
  let y := converse env (ensure_all token n x.1.1) x.2 in
  ((y.1.1, x.1.2 :: y.1.2), y.2).
Proof. cbn [ensure_all]. rewrite !converse_bind. done. Qed.

Lemma ensure_all_fresh env n st h :
  (∀ h, stale_at st (the_time env st h) = false) → sends (converse env (ensure_all token n st) h).2 = sends h.
Proof.
  intros Hf. revert st h Hf. induction n as [|n IH]; intros st h Hf; [done|]. rewrite ensure_all_step. cbn [fst snd].
  pose proof (ensure_fresh_spec env st h) as He. destruct (converse env (ensure_fresh token st) h) as [[st1 r1] h1].
  cbn [fst snd] in *. destruct He as [Hs|e Hs _|kc l x e Hs _ _ _|kc l p fresh st' Hs _ _ _ _]; try by rewrite Hf in Hs.
  rewrite IH by done. apply sends_told.
Qed.

Lemma ensure_all_sends env n st h :
  long_lived env → now_override st = None →
  (sends (converse env (ensure_all token n st) h).2 ≤
   sends h + 1 + failures (converse env (ensure_all token n st) h).1.2)%nat.
Proof.
  intros Hl. revert st h. induction n as [|n IH]; intros st h Hnow; [change (sends h ≤ sends h + 1 + 0)%nat; lia|]. rewrite ensure_all_step. cbn [fst snd].
  pose proof (ensure_fresh_spec env st h) as He. destruct (converse env (ensure_fresh token st) h) as [[st1 r1] h1].
  cbn [fst snd] in *. unfold failures. cbn [List.filter].
  destruct He as [Hs|e Hs _|kc l x e Hs _ _ _|kc l p fresh st' Hs _ He Hp Hr].
  - specialize (IH st (told_time env st h) Hnow). rewrite sends_told in IH. unfold failures in IH. destruct (negb _); cbn [length]; lia.
  - specialize (IH st (told_time env st h) Hnow). rewrite sends_told in IH. unfold failures in IH. cbn [negb is_ok length]. lia.
  - set (h2 := told_time env st h ++ _). assert (Hh2 : sends h2 = S (sends h)) by (unfold h2; rewrite sends_plus, sends_told; change (sends [ev (Send _ _) _]) with 1%nat; lia).
    specialize (IH st h2 Hnow). unfold failures in IH. cbn [negb is_ok length]. lia.
  - rewrite ensure_all_fresh; [|eapply Hl; [by rewrite He|done|done|done]]. rewrite sends_plus, sends_told. change (sends [ev (Send _ _) _]) with 1%nat. lia.
Qed.

End session_cert_laws.

(** ** The leaf of a chain *)

Section leaf.
Context `{TlsLib} `{EnrollLib}.

Definition no_dash (s : string) : Prop := Forall (λ b, b ≠ 45) (bytes_of_string s).

Lemma split_at_end (s rest : string) :
  no_dash s → split_once_str PEM_CERT_END (s +:+ PEM_CERT_END +:+ rest) = Some (s, rest).
Proof.
  unfold no_dash. induction s as [|a s IH]; intros Hs; [done|]. cbn [bytes_of_string] in Hs. inversion_clear Hs as [|? ? Ha Hs'].
  change ((String a s) +:+ ?t) with (String a (s +:+ t)). cbn [split_once_str].
  replace (strip_prefix PEM_CERT_END (String a (s +:+ PEM_CERT_END +:+ rest))) with (@None string).
  - by rewrite IH.
  - unfold PEM_CERT_END. cbn [strip_prefix]. destruct (ascii_dec "-" a) as [<-|Hne]; [by destruct Ha|done].
Qed.
Lemma split_once_str_here p s : split_once_str p (p +:+ s) = Some (EmptyString, s).
Proof.
  assert (He : ∀ t, strip_prefix p t = Some s → split_once_str p t = Some (EmptyString, s)) by (intros [|a t]; cbn [split_once_str]; by intros ->).
  apply He, strip_prefix_app.
Qed.

Lemma split_once_str_skip p a s :
  strip_prefix p (String a s) = None → split_once_str p (String a s) = ('(l, r) ← split_once_str p s; Some (String a l, r)).
Proof. intros Hp. cbn [split_once_str]. by rewrite Hp. Qed.

(** The dashes that end the first line of a block begin no last line. *)
Lemma split_after_begin s :
  split_once_str PEM_CERT_END (PEM_CERT_BEGIN +:+ NL +:+ s) = ('(l, r) ← split_once_str PEM_CERT_END s; Some (PEM_CERT_BEGIN +:+ NL +:+ l, r)).
Proof.
  unfold PEM_CERT_BEGIN, NL. repeat change (String ?a ?x +:+ ?y) with (String a (x +:+ y)).
  do 2 (rewrite !split_once_str_skip by reflexivity; change (split_once_str ?p (EmptyString +:+ ?x)) with (split_once_str p x)).
  destruct (split_once_str PEM_CERT_END s) as [[l r]|]; reflexivity.
Qed.

(** The lines of a block. *)
Definition pem_body (b64 : list Z) : string := foldr (λ chunk out, string_of_bytes chunk +:+ NL +:+ out) EmptyString (chunks_of (length b64) b64).

Lemma pem_body_end b64 tail :
  foldr (λ chunk out, string_of_bytes chunk +:+ NL +:+ out) tail (chunks_of (length b64) b64) = pem_body b64 +:+ tail.
Proof.
  unfold pem_body. generalize (length b64) as n. intros n. revert b64. induction n as [|n IH]; intros b64; [done|].
  destruct b64 as [|b b64]; [done|]. cbn [chunks_of foldr]. by rewrite IH, !append_assoc.
Qed.

Lemma pem_body_no_dash b64 : Forall (λ b, base64_char b = true) b64 → no_dash (pem_body b64).
Proof.
  unfold no_dash, pem_body. generalize (length b64) as n. intros n. revert b64. induction n as [|n IH]; intros b64 Hb; [constructor|].
  destruct b64 as [|b b64]; [constructor|]. cbn [chunks_of foldr]. rewrite !bytes_of_string_app, bytes_of_string_of_bytes.
  - repeat apply Forall_app_2; [|by repeat constructor|by apply IH, Forall_drop].
    eapply Forall_impl; [by apply Forall_take|]. intros x Hx. by apply base64_char_spec.
  - eapply Forall_impl; [by apply Forall_take|]. intros x Hx. by apply base64_char_spec.
Qed.

Lemma extract_leaf_of_chain der ders :
  (∀ der, Forall (λ b, base64_char b = true) (bytes_of_string (b64_encode der))) →
  extract_leaf_pem (ders_to_pem (der :: ders)) = Ok (pem_block der).
Proof.
  intros Hb. change (ders_to_pem (der :: ders)) with (pem_block der +:+ ders_to_pem ders). unfold pem_block.
  set (b64 := bytes_of_string (b64_encode der)). rewrite pem_body_end, !append_assoc.
  unfold extract_leaf_pem. change "-----BEGIN CERTIFICATE-----"%string with PEM_CERT_BEGIN. rewrite split_once_str_here. cbn [ok_or mbind result_bind].
  rewrite split_after_begin. change "-----END CERTIFICATE-----"%string with PEM_CERT_END.
  rewrite split_at_end by (apply pem_body_no_dash, Hb). cbn [ok_or mbind result_bind option_bind]. by rewrite !append_assoc.
Qed.
End leaf.

(** The identity that an enrolment writes is one that a client loads: its certificate,
    its key and its CAs are those it was made of. *)
Section identity.
Context `{TlsLib} `{EnrollLib}.

Lemma pem_value_prefixed v : pem_value ("pem:" +:+ v)%string = Ok v.
Proof. unfold pem_value. by rewrite strip_prefix_app. Qed.

Lemma enrolled_identity_loads api key cert ca chain k cas :
  ca ≠ EmptyString → parse_certs cert = Ok chain → pem_private_key key = Ok (Some k) → parse_certs ca = Ok cas →
  add_cas cas = Ok tt → client_auth chain k = Ok tt →
  client_config (from_enrolment api key cert ca) = Ok (mkClientConfig cas chain k).
Proof.
  intros Hne Hcert Hkey Hca Hadd Hauth. unfold client_config, from_enrolment. cbn [cfg_id id_cert id_key id_ca].
  rewrite bool_decide_eq_false_2 by done. rewrite !pem_value_prefixed. cbn. rewrite Hcert. cbn. rewrite Hkey. cbn. rewrite Hca. cbn.
  rewrite Hadd. cbn. by rewrite Hauth.
Qed.

(** Without CAs there is no identity to load. *)
Lemma identity_without_cas api key cert chain k :
  parse_certs cert = Ok chain → pem_private_key key = Ok (Some k) →
  client_config (from_enrolment api key cert EmptyString) = Err (IdentityLoad "identity value is not an inline `pem:` PEM").
Proof.
  intros Hcert Hkey. unfold client_config, from_enrolment. cbn [cfg_id id_cert id_key id_ca]. rewrite bool_decide_eq_true_2 by done.
  rewrite !pem_value_prefixed. cbn. rewrite Hcert. cbn. by rewrite Hkey.
Qed.

End identity.

(** ** Properties *)

Section session_cert_properties.
Context `{JsonLib} `{!RestJson} `{TlsLib} `{EnrollLib} `{CertJson}.
Context (http : http_client) (base_url : string) (token : AuthToken).
#[local] Instance properties_ops : CertOps net := net_cert_ops http base_url.

(** What ensuring the session's certificate does, in every case: a leaf that is not
    near its end is used without a request; otherwise one request is sent, with a CSR for
    the same key and a time limit, and either nothing changes and the error is returned,
    or the leaf and its end are those that were minted.  The key and the roots never
    change. *)
Theorem session_cert_renewal env st h :
  let x := converse env (ensure_fresh token st) h in
  ensured http base_url token env st h x.1.1 x.1.2 x.2 ∧
  cs_key_pem x.1.1 = cs_key_pem st ∧ root_ders x.1.1 = root_ders st ∧
  (x.1.1 = st ∨ parse_not_after (leaf_pem x.1.1) = Ok (not_after x.1.1)).
Proof.
  intros x. assert (He : ensured http base_url token env st h x.1.1 x.1.2 x.2) by apply ensure_fresh_spec. split; [exact He|]. clearbody x.
  destruct x as [[st1 r1] h1]. cbn [fst snd] in *. destruct He as [| | |kc l p fresh st' _ _ _ _ Hr]; try by split_and!; [..|left].
  destruct (renewed_keeps _ _ _ Hr) as (Hkey & Hroots & _ & _ & Hend). by split_and!; [..|right].
Qed.

(** C31. A burst of callers that find the certificate stale mints it once, if what the
    controller mints lasts: the lock serializes them, and each request beyond the first
    is answered for by a caller that failed. *)
Theorem session_cert_burst env st n h :
  long_lived env → now_override st = None →
  let x := converse env (ensure_all token n st) h in
  (sends x.2 ≤ sends h + 1 + failures x.1.2)%nat.
Proof. intros Hl Hn. by apply ensure_all_sends. Qed.

(** A chain of certificates in PEM reads back, each certificate's base64 text in
    order, and the leaf that is cut out of it is its first block as it was written,
    provided that [base64] writes its alphabet. *)
Theorem cert_chain_reads_back der ders :
  (∀ der, Forall (λ b, base64_char b = true) (bytes_of_string (b64_encode der))) →
  read_pem (ders_to_pem (der :: ders)) = Some (List.map (λ der, bytes_of_string (b64_encode der)) (der :: ders)) ∧
  extract_leaf_pem (ders_to_pem (der :: ders)) = Ok (pem_block der).
Proof. intros Hb. split; [by apply read_pem_ders|by apply extract_leaf_of_chain]. Qed.

End session_cert_properties.

(** ** Witnesses *)

Definition demo_cert : CertJson := {|
  csr_json := λ csr, csr;
  session_cert_json := λ body, Ok ("id"%string, body)
|}.

Section session_cert_witness.
Existing Instances demo_tls demo_enroll demo_cert string_json demo_rest.

Definition demo_session_http : http_client := mkHttpClient (Roots [[5]]) None true.
#[local] Instance demo_cert_ops : CertOps net := net_cert_ops demo_session_http "https://c".
Definition demo_controller : environment := λ h o,
  match o with
  | Send c r => ([], Ok (mkResponse CREATED (λ _, None) (Ok (ders_to_pem [[5]])) (Ok [])))
  | Random n => []
  | GenerateKey _ => Ok "key pem"%string
  | Clock => 1000000000000
  | AskCode | AskEnrollment _ => Err "none"%string
  end.
Definition demo_expiring : SessionCertState := mkCertState "old leaf" "key pem" [[5]] 1200 None.

Lemma demo_long_lived : long_lived demo_controller.
Proof.
  intros h c r p key fresh st st' Hp Hf Hr Hn h'. injection Hp as <-.
  assert (Hl : sc_leaf_pem fresh = pem_block [5]).
  { assert (Hc : Ok fresh = Ok (E := EdgeError) (mkSessionCert (pem_block [5]) (ders_to_pem [[5]]) key "id")).
    { rewrite <- Hf. vm_compute. reflexivity. }
    by injection Hc as ->. }
  unfold renewed in Hr. rewrite Hl in Hr. assert (Ht : parse_not_after (pem_block [5]) = Ok 57000000000000) by (vm_compute; reflexivity).
  rewrite Ht in Hr. injection Hr as <-. unfold stale_at, the_time. cbn [now_override not_after]. by rewrite Hn.
Qed.

Lemma session_cert_burst_witness :
  long_lived demo_controller ∧ now_override demo_expiring = None ∧
  stale_at demo_expiring 1000000000000 = true ∧
  sends (converse demo_controller (ensure_all (Legacy "t") 5 demo_expiring) []).2 = 1%nat ∧
  failures (converse demo_controller (ensure_all (Legacy "t") 5 demo_expiring) []).1.2 = 0%nat ∧
  (sends (converse demo_controller (ensure_all (Legacy "t") 5 demo_expiring) []).2 ≤ 0 + 1 +
   failures (converse demo_controller (ensure_all (Legacy "t") 5 demo_expiring) []).1.2)%nat.
Proof.
  split; [exact demo_long_lived|]. split; [reflexivity|]. split; [reflexivity|]. split; [vm_compute; reflexivity|]. split; [vm_compute; reflexivity|].
  exact (session_cert_burst demo_session_http "https://c" (Legacy "t") demo_controller demo_expiring 5 [] demo_long_lived eq_refl).
Defined.

Lemma cert_chain_reads_back_witness :
  (∀ der, Forall (λ b, base64_char b = true) (bytes_of_string (b64_encode der))) ∧
  read_pem (ders_to_pem [replicate 40 5; [17]]) = Some [flat_map (λ _, [97; 102]) (replicate 40 5); [98; 98]] ∧
  extract_leaf_pem (ders_to_pem [replicate 40 5; [17]]) = Ok (pem_block (replicate 40 5)).
Proof.
  split; [exact demo_b64_ok|]. destruct (cert_chain_reads_back (replicate 40 5) [[17]] demo_b64_ok) as [Hread Hleaf].
  split; [rewrite Hread; vm_compute; reflexivity|exact Hleaf].
Defined.

End session_cert_witness.
