(* ===== verification/Client.v ===== *)
(** * The edge client: [src/edge/client/], [edge/conn/], [edge/refresh/], [edge/session_refresh/]

    The client's shared state - its API session, its cache of Dial sessions, its
    services - and the tasks that work on it: connecting to a service, hosting one,
    re-authenticating, keeping the session certificate fresh, and the timers that
    refresh the API session and the cached sessions.  Each operation of a task is one
    atomic section, one lock, one request or one sleep; ClientSafety interleaves the
    tasks. *)

From S2P Require Import Prelude Message EdgeWire Address Services Rest Tasks Http Enroll SessionCert.
Open Scope task_scope.

(** ** Data *)

(** How to authenticate again (reauth.rs). *)
Inductive ReauthMethod : Type := Cert | Updb (username password : string) | ExtJwt.

(** The first characters of a session token that is a JWT (client/mod.rs). *)
Definition JWT_TOKEN_PREFIX : string := "ey".

(** What [backon]'s builder is given (client/sessions.rs): delays in milliseconds,
    the factor in tenths. *)
Record ExponentialBuilder : Type := mkBackoff { min_delay : Z; max_delay : Z; factor : Z; total_delay : Z; jitter : bool }.

Definition SESSION_BACKOFF_INITIAL : Z := 50.
Definition SESSION_BACKOFF_MAX_INTERVAL : Z := 10000.
Definition SESSION_BACKOFF_FACTOR : Z := 15.

Definition session_backoff (total : Z) : ExponentialBuilder :=
  mkBackoff SESSION_BACKOFF_INITIAL SESSION_BACKOFF_MAX_INTERVAL SESSION_BACKOFF_FACTOR total true.

(** The timer's intervals in nanoseconds (refresh/schedule.rs). *)
Record RefreshIntervals : Type := mkIntervals { lead : Z; default_interval : Z; retry_interval : Z }.
Definition PROD_INTERVALS : RefreshIntervals := mkIntervals 10000000000 30000000000 5000000000.

Definition next_sleep (expires_at : option Z) (now : Z) (intervals : RefreshIntervals) : Z :=
  match expires_at with
  | Some exp => Z.max 0 (exp - lead intervals - now)
  | None => default_interval intervals
  end.

Definition channel_token_value (token : option AuthToken) : option string := channel_token <$> token.

(** ** The cache of Dial sessions (client/sessions.rs, sessions_probe.rs) *)

Notation sessions := (gmap string SessionDetail).

Definition evict_dead_dial_session (key snapshot_session_id : string) (m : sessions) : bool * sessions :=
  match m !! key with
  | None => (false, m)
  | Some existing => if bool_decide (sd_id existing = snapshot_session_id) then (true, delete key m) else (false, m)
  end.

Definition recache_refreshed_dial_session (key snapshot_session_id : string) (refreshed : SessionDetail) (m : sessions)
    : bool * sessions :=
  match m !! key with
  | None => (false, m)
  | Some existing => if bool_decide (sd_id existing = snapshot_session_id) then (true, <[key := refreshed]> m) else (false, m)
  end.

Definition is_proven_dead (api_token : AuthToken) (err : EdgeError) : bool :=
  match token_session_type api_token with
  | LegacySession => match err with SessionHttp status _ _ => status =? 404 | _ => false end
  | OidcSession => false
  end.

(** ** The router addresses of a session (channel/open.rs) *)

Definition tls_addrs (filter : option (string → bool)) (detail : SessionDetail) : list string :=
  List.filter (is_edge_router_url_accepted filter) (omap (λ er, supported_protocols er !! "tls"%string) (edge_routers detail)).

(** ** Requests to the controller *)

Inductive request : Type :=
| PostAuthenticate (method body : string)
| PostMfa (session_token code : string)
| GetApiSession (token : AuthToken)
| PostSession (token : AuthToken) (service_id : string) (type : SessionType)
| GetSession (token : AuthToken) (session_id : string)
| GetServiceRouters (token : AuthToken) (service_id session_token : string)
| GetServiceUpdates (token : AuthToken)
| PostCertificate (token : AuthToken) (csr_pem : string) (request_timeout : Z).

Class LoginOps (Σ : signature) := {
  ask_controller : request → task Σ http_reply;
  ask_code : task Σ (result string string)
}.

(** ** Services by name (conn/resolve.rs) *)

Section client.
Context `{JsonLib} `{!RestJson} `{TlsLib} `{EnrollLib} `{CertJson}.

Definition resolve_service (services : list Service) (name : string) : result EdgeError Service :=
  ok_or (ServiceNotFound name) (List.find (λ s, bool_decide (svc_name s = name)) services).

(** ** The shared state and the operations on it *)

(** A lock is the task that holds it; [holder] is the session certificate under
    [holder_lock], where the client has one. *)
Record client : Type := mkClient {
  token : option AuthToken;
  expires_at : option Z;
  reauth_lock : option nat;
  polls : poll_state (SessionDetail := SessionDetail);
  holder : SessionCertState;
  holder_lock : option nat
}.

(** What an exchange of a refresh token gives. *)
Record OidcTokens : Type := mkTokens { oidc_access : string; oidc_refresh : option string; oidc_expires_in : Z }.

Inductive client_op : Type :=
(* state *)
| ReadToken
| StoreToken (new_token : AuthToken) (new_expires_at : option string)
| ReadExpiry
| LockReauth
| UnlockReauth
| CachedDialSession (service_id : string)
| CacheDialSession (service_id : string) (session : SessionDetail)
| EvictDialSession (service_id : string)
| EvictDeadDialSession (key session_id : string)
| RecacheDialSession (key session_id : string) (refreshed : SessionDetail)
| SnapshotDialSessions
| ClearDialSessions
| ReadLastUpdate
| StoreServices (fetched : list Service) (new_ts : option Z)
| LockHolder
| UnlockHolder
| ReadHolder
| StoreHolder (st : SessionCertState)
(* requests to the controller *)
| Http (r : request)
| ListServices (token : AuthToken) (config_types : list string)
| OidcRefresh (subject : string)
(* routers *)
| PoolGetAlive (addrs : list string)
| PoolUnconnected (addrs : list string)
| SpawnOpeners (addrs : list string) (cc : ClientConfig) (cn token : string)
| FanOut (addrs : list string) (cc : ClientConfig) (cn token : string)
| DialHandshake (address : string * Z) (cc : ClientConfig) (cn token : string)
| DialService (channel : Z) (session : SessionDetail) (encryption_required : bool) (app_data : option (list Z))
| BindService (channel : Z) (session : SessionDetail) (encryption_required : bool)
| PushToken (token : string)
(* time, and what the caller or a library decides *)
| Clock
| Sleep (duration : Z)
| Delays (policy : ExponentialBuilder)
| MfaCode.

Definition client_answer (o : client_op) : Type :=
  match o with
  | ReadToken => option AuthToken
  | ReadExpiry | ReadLastUpdate => option Z
  | CachedDialSession _ => option SessionDetail
  | EvictDeadDialSession _ _ | RecacheDialSession _ _ _ => bool
  | SnapshotDialSessions => list (string * SessionDetail)
  | StoreServices _ _ => list ServiceEvent
  | Http _ => http_reply
  | ListServices _ _ => result EdgeError (list Service)
  | OidcRefresh _ => result EdgeError OidcTokens
  | ReadHolder => SessionCertState
  | PoolGetAlive _ => option Z
  | PoolUnconnected _ => list string
  | FanOut _ _ _ _ | DialHandshake _ _ _ _ | DialService _ _ _ _ | BindService _ _ _ => result EdgeError Z
  | Clock => Z
  | Delays _ => list Z
  | MfaCode => result string string
  | StoreToken _ _ | LockReauth | UnlockReauth | CacheDialSession _ _ | EvictDialSession _ | ClearDialSessions
  | LockHolder | UnlockHolder | StoreHolder _ | SpawnOpeners _ _ _ _ | PushToken _ | Sleep _ => unit
  end.

Definition client_sig : signature := mkSig client_op client_answer.
Notation ctask := (task client_sig).
Definition call (o : client_op) : ctask (client_answer o) := perform (Σ := client_sig) o.

(** A critical section of the [reauth_lock]: its guard is dropped on every return. *)
Definition with_reauth_lock {A} (body : ctask A) : ctask A :=
  _ ← call LockReauth; r ← body; _ ← call UnlockReauth; mret r.

(** And of the lock of the session certificate. *)
Definition with_holder_lock {A} (body : ctask A) : ctask A :=
  _ ← call LockHolder; r ← body; _ ← call UnlockHolder; mret r.

(** What a login asks, whoever runs it: the controller, and the provider of codes. *)
#[export] Instance client_login_ops : LoginOps client_sig := {|
  ask_controller r := call (Http r);
  ask_code := call MfaCode
|}.

#[export] Instance client_cert_ops : CertOps client_sig := {|
  now := call Clock;
  post_certificate token csr_pem request_timeout := call (Http (PostCertificate token csr_pem request_timeout))
|}.

(** The client's configuration: how it authenticates, whether it has a provider of
    MFA codes and a session certificate, its identity, its filter of router urls; the bodies
    [serde_json] writes, and the instants the [time] crate reads and writes. *)
Record settings : Type := mkSettings {
  reauth_method : ReauthMethod;
  mfa_provider : bool;
  has_session_cert : bool;
  config : Config;
  url_filter : option (string → bool);
  password_body : option string → string → string;
  parse_expires_at : string → option Z;
  format_instant : Z → option string;
  parse_last_change_at : string → option Z;
  debug_text : string → string
}.

Context (cfg : settings).

(** ** Authentication (client/auth.rs, refresh/legacy.rs) *)

Section logins.
Context {Σ : signature} `{!LoginOps Σ}.

Definition submit_mfa_code (session_token code : string) : task Σ (result EdgeError unit) :=
  r ← ask_controller (PostMfa session_token code); mret (submit_mfa_code_reply r).

Definition refresh_get (tok : AuthToken) : task Σ (result EdgeError ApiSession) :=
  r ← ask_controller (GetApiSession tok); mret (do_refresh_get r).

Definition satisfy_legacy_mfa (mfa_provider : bool) (partial : ApiSession) : task Σ (result EdgeError ApiSession) :=
  if negb mfa_provider then mret (Err MfaRequired)
  else
    code ← ask_code;
    match code with
    | Err e => mret (Err (TotpProvider e))
    | Ok code =>
        _ ←! submit_mfa_code (as_token partial) code;
        refreshed ←! refresh_get (Legacy (as_token partial));
        mret (match auth_queries refreshed with [] => Ok refreshed | _ => Err MfaRequired end)
    end.

Definition legacy_authenticate (method body : string) (mfa_provider : bool) : task Σ (result EdgeError ApiSession) :=
  r ← ask_controller (PostAuthenticate method body);
  match legacy_authenticate_reply r with
  | Err e => mret (Err e)
  | Ok s => match auth_queries s with [] => mret (Ok s) | _ => satisfy_legacy_mfa mfa_provider s end
  end.

Definition do_authenticate (body : string) (mfa_provider : bool) : task Σ (result EdgeError ApiSession) :=
  legacy_authenticate "cert" body mfa_provider.

Definition do_authenticate_password (username password : string) (mfa_provider : bool) : task Σ (result EdgeError ApiSession) :=
  legacy_authenticate "password"
    (password_body cfg (if bool_decide (username = EmptyString) then None else Some username) password) mfa_provider.

End logins.

Definition invalidate_holder : ctask unit :=
  with_holder_lock (st ← call ReadHolder; call (StoreHolder (invalidate st))).

(** [store_token_and_expiry] is one operation: its two writes meet no await. *)
Definition do_reauthenticate (token_used : string) : ctask (result EdgeError unit) :=
  with_reauth_lock (
    current ← call ReadToken;
    if negb (bool_decide (channel_token_value current = Some token_used)) then mret (Ok tt)
    else
      session ←! match reauth_method cfg with
                 | Cert => do_authenticate "{}" (mfa_provider cfg)
                 | Updb username password => do_authenticate_password username password (mfa_provider cfg)
                 | ExtJwt => mret (Err ExtJwtReauthUnsupported)
                 end;
      _ ← call (StoreToken (Legacy (as_token session)) (as_expires_at session));
      _ ← call ClearDialSessions;
      _ ← (if has_session_cert cfg then invalidate_holder else mret tt);
      mret (Ok tt)).

Definition guarded_store_refresh (token_used : string) (new_token : AuthToken) (new_expires_at : option string) : ctask bool :=
  with_reauth_lock (
    current ← call ReadToken;
    if bool_decide (channel_token_value current = Some token_used) then _ ← call (StoreToken new_token new_expires_at); mret true
    else mret false).

(** ** OIDC (client/oidc_glue.rs, refresh/oidc_exchange.rs, refresh/push.rs) *)

(** The deadline in RFC 3339; [expires_in] is a [u64] in seconds. *)
Definition expires_in_to_rfc3339 (expires_in now : Z) : option string :=
  if expires_in =? 0 then None
  else format_instant cfg (now + 1000000000 * Z.min expires_in 9223372036854775807).

Definition do_oidc_session_refresh (token_used : string) : ctask (result EdgeError unit) :=
  with_reauth_lock (
    current ← call ReadToken;
    if negb (bool_decide (channel_token_value current = Some token_used)) then mret (Ok tt)
    else
      match current ≫= refresh_token with
      | None => mret (Ok tt)
      | Some subject =>
          refreshed ←! call (OidcRefresh subject);
          let new_refresh := match oidc_refresh refreshed with Some r => Some r | None => Some subject end in
          now ← call Clock;
          _ ← call (StoreToken (Oidc (oidc_access refreshed) new_refresh) (expires_in_to_rfc3339 (oidc_expires_in refreshed) now));
          mret (Ok tt)
      end).

(** [PushToken] is the update of every channel that lives. *)
Definition push_token_to_live_channels : ctask unit :=
  current ← call ReadToken;
  match current with
  | Some t => if requires_router_token_update t then call (PushToken (channel_token t)) else mret tt
  | None => mret tt
  end.

Definition oidc_session_refresh (token_used : string) : ctask (result EdgeError unit) :=
  _ ←! do_oidc_session_refresh token_used; _ ← push_token_to_live_channels; mret (Ok tt).



Definition with_reauth_retry {T} (op : AuthToken → ctask (result EdgeError T)) : ctask (result EdgeError T) :=
  t ← call ReadToken;
  match t with
  | None => mret (Err NotAuthenticated)
  | Some token =>
      r ← op token;
      match r with
      | Ok value => mret (Ok value)
      | Err first =>
          if is_unauthorized first then
            again ← match token_session_type token with
                    | LegacySession => do_reauthenticate (channel_token token)
                    | OidcSession => oidc_session_refresh (channel_token token)
                    end;
            match again with
            | Err _ => mret (Err first)
            | Ok _ =>
                fresh ← call ReadToken;
                match fresh with None => mret (Err NotAuthenticated) | Some fresh => op fresh end
            end
          else mret (Err first)
      end
  end.

(** ** Sessions (client/sessions.rs, sessions_probe.rs) *)

Definition create_session (service_id : string) (type : SessionType) : ctask (result EdgeError SessionDetail) :=
  with_reauth_retry (λ tok, r ← call (Http (PostSession tok service_id type)); mret (do_create_session r)).

(** [Retryable]: a turn per delay of the policy, and a last one. *)
Fixpoint retry_create (delays : list Z) (service_id : string) (type : SessionType) : ctask (result EdgeError SessionDetail) :=
  r ← create_session service_id type;
  match r with
  | Ok s => mret (Ok s)
  | Err e =>
      if is_retriable_create_error e then
        match delays with
        | [] => mret (Err e)
        | d :: delays => _ ← call (Sleep d); retry_create delays service_id type
        end
      else mret (Err e)
  end.

Definition create_session_with_backoff (service_id : string) (type : SessionType) (total : Z)
    : ctask (result EdgeError SessionDetail) :=
  delays ← call (Delays (session_backoff total)); retry_create delays service_id type.

Definition get_or_create_dial_session (service_id : string) (total : Z) : ctask (result EdgeError SessionDetail) :=
  cached ← call (CachedDialSession service_id);
  match cached with
  | Some session => mret (Ok session)
  | None =>
      session ←! create_session_with_backoff service_id DialSession total;
      _ ← call (CacheDialSession service_id session);
      mret (Ok session)
  end.

Definition probe_routers (api_token : AuthToken) (session : SessionDetail) : ctask (result EdgeError SessionDetail) :=
  r ← call (Http (GetServiceRouters api_token (sd_service_id session) (sd_token session)));
  mret ((λ l, set_edge_routers l session) <$> do_get_service_edge_routers r).

Definition refresh_session_probe (api_token : AuthToken) (session : SessionDetail) : ctask (result EdgeError SessionDetail) :=
  if starts_with JWT_TOKEN_PREFIX (sd_token session) then probe_routers api_token session
  else r ← call (Http (GetSession api_token (sd_id session))); mret (do_get_session_detail r).

Definition refresh_session_probe_durable (api_token : AuthToken) (session : SessionDetail)
    : ctask (result EdgeError SessionDetail) :=
  match token_session_type api_token with
  | LegacySession =>
      r ← call (Http (GetSession api_token (sd_id session)));
      mret ((λ d, set_edge_routers (edge_routers d) session) <$> do_get_session_detail r)
  | OidcSession => probe_routers api_token session
  end.

Definition refresh_session (session : SessionDetail) : ctask (result EdgeError SessionDetail) :=
  t ← call ReadToken;
  match t with
  | None => mret (Err NotAuthenticated)
  | Some api_token =>
      refreshed ←! refresh_session_probe api_token session;
      _ ← call (RecacheDialSession (sd_service_id session) (sd_id session) refreshed);
      mret (Ok refreshed)
  end.

(** ** The timer of the cached sessions (session_refresh/tick.rs) *)

(** The sessions of the snapshot that are proven dead. *)
Fixpoint probe_all (api_token : AuthToken) (snapshot : list (string * SessionDetail)) : ctask (list (string * string)) :=
  match snapshot with
  | [] => mret []
  | (key, session) :: snapshot =>
      outcome ← refresh_session_probe_durable api_token session;
      match outcome with
      | Ok refreshed =>
          _ ← call (RecacheDialSession key (sd_id session) refreshed);
          probe_all api_token snapshot
      | Err e =>
          to_purge ← probe_all api_token snapshot;
          mret (if is_proven_dead api_token e then (key, sd_id session) :: to_purge else to_purge)
      end
  end.

Fixpoint purge (l : list (string * string)) : ctask unit :=
  match l with
  | [] => mret tt
  | (key, id) :: l => _ ← call (EvictDeadDialSession key id); purge l
  end.

Definition session_refresh_tick : ctask unit :=
  t ← call ReadToken;
  match t with
  | None => mret tt
  | Some api_token =>
      snapshot ← call SnapshotDialSessions;
      to_purge ← probe_all api_token snapshot;
      purge to_purge
  end.

(** ** The timer of the API session (refresh/timer.rs): one turn *)

Definition refresh_turn (intervals : RefreshIntervals) : ctask unit :=
  t ← call ReadToken;
  match token_session_type <$> t with
  | Some OidcSession =>
      t ← call ReadToken;
      match t ≫= refresh_token with
      | None => call (Sleep (default_interval intervals))
      | Some _ =>
          exp ← call ReadExpiry;
          now ← call Clock;
          _ ← call (Sleep (next_sleep exp now intervals));
          t ← call ReadToken;
          match t with
          | None => call (Sleep (retry_interval intervals))
          | Some token_used =>
              r ← do_oidc_session_refresh (channel_token token_used);
              match r with
              | Ok _ => push_token_to_live_channels
              | Err _ => call (Sleep (retry_interval intervals))
              end
          end
      end
  | _ =>
      exp ← call ReadExpiry;
      now ← call Clock;
      _ ← call (Sleep (next_sleep exp now intervals));
      t ← call ReadToken;
      match t with
      | None => call (Sleep (retry_interval intervals))
      | Some token_used =>
          r ← refresh_get token_used;
          match r with
          | Ok session =>
              _ ← guarded_store_refresh (channel_token token_used) (Legacy (as_token session)) (as_expires_at session);
              mret tt
          | Err (AuthHttp status _ _) =>
              if status =? 401 then
                _ ← do_reauthenticate (channel_token token_used); call (Sleep (retry_interval intervals))
              else call (Sleep (retry_interval intervals))
          | Err _ => call (Sleep (retry_interval intervals))
          end
      end
  end.

(** ** Opening a channel (channel/open.rs) *)

Definition recover_empty_edge_routers (detail : SessionDetail) : ctask (result EdgeError SessionDetail) :=
  r ← refresh_session detail;
  match r with
  | Ok refreshed => mret (match edge_routers refreshed with [] => Err NoTlsEdgeRouter | _ => Ok refreshed end)
  | Err e =>
      _ ← (if negb (starts_with JWT_TOKEN_PREFIX (sd_token detail)) &&
              match e with SessionHttp status _ _ => status =? 404 | _ => false end
           then call (EvictDialSession (sd_service_id detail)) else mret tt);
      mret (Err e)
  end.

(** The TLS of a channel and the name of its leaf (client/construct.rs): of the identity,
    or of the session certificate, made fresh under its lock; a refusal of that request
    logs the client in again. *)
Definition ensure_fresh_holder (tok : AuthToken) : ctask (result EdgeError ChannelTlsParts) :=
  with_holder_lock (
    st ← call ReadHolder;
    x ← ensure_fresh tok st;
    _ ← call (StoreHolder x.1);
    mret x.2).

Definition channel_client_config : ctask (result EdgeError (ClientConfig * string)) :=
  if has_session_cert cfg then
    parts ←! with_reauth_retry ensure_fresh_holder;
    mret (into_config parts)
  else
    cc ←! mret (client_config (config cfg));
    let cert := id_cert (cfg_id (config cfg)) in
    mret (Ok (cc, default EmptyString (leaf_common_name_for (default cert (strip_prefix "pem:" cert))))).

(** The openers of the routers that have no channel: nobody waits for them. *)
Definition spawn_unconnected_router_openers (addrs : list string) : ctask unit :=
  unconnected ← call (PoolUnconnected addrs);
  match unconnected with
  | [] => mret tt
  | _ =>
      t ← call ReadToken;
      match t with
      | None => mret tt
      | Some tok =>
          parts ← channel_client_config;
          match parts with
          | Err _ => mret tt
          | Ok (cc, cn) => call (SpawnOpeners unconnected cc cn (channel_token tok))
          end
      end
  end.

(** [FanOut] is the openers of ChannelPool, with the wait for the first. *)
Definition open_or_reuse_pooled_channel (detail : SessionDetail) : ctask (result EdgeError Z) :=
  detail ←! match edge_routers detail with [] => recover_empty_edge_routers detail | _ => mret (Ok detail) end;
  match tls_addrs (url_filter cfg) detail with
  | [] => mret (Err NoTlsEdgeRouter)
  | addrs =>
      pooled ← call (PoolGetAlive addrs);
      match pooled with
      | Some channel => _ ← spawn_unconnected_router_openers addrs; mret (Ok channel)
      | None =>
          t ← call ReadToken;
          match t with
          | None => mret (Err NotAuthenticated)
          | Some tok =>
              parts ←! channel_client_config;
              call (FanOut addrs parts.1 parts.2 (channel_token tok))
          end
      end
  end.

(** A channel of its own to the first router, for a bind. *)
Definition open_channel_to (tls_url : string) : ctask (result EdgeError Z) :=
  t ← call ReadToken;
  match t with
  | None => mret (Err NotAuthenticated)
  | Some tok =>
      address ←! mret (map_err Channel (parse_tls_address tls_url));
      parts ←! channel_client_config;
      call (DialHandshake address parts.1 parts.2 (channel_token tok))
  end.

Definition open_channel (detail : SessionDetail) : ctask (result EdgeError Z) :=
  match tls_addrs (url_filter cfg) detail with
  | [] => mret (Err NoTlsEdgeRouter)
  | tls_url :: _ => open_channel_to tls_url
  end.

(** ** Connecting (conn/retry.rs, conn/flow.rs) *)

Definition dial_with_refresh_retry {T} (get_or_create : ctask (result EdgeError SessionDetail))
    (dial : SessionDetail → ctask (result EdgeError T)) (refresh : SessionDetail → ctask (result EdgeError unit))
    (evict : ctask unit) : ctask (result EdgeError T) :=
  session ←! get_or_create;
  r ← dial session;
  match r with
  | Ok connected => mret (Ok connected)
  | Err first_err =>
      session_dead ← (if is_dial_invalid_session first_err then mret true
                      else r ← refresh session; mret (negb (is_ok r)));
      if session_dead : bool then
        _ ← evict;
        fresh ←! get_or_create;
        r ← dial fresh;
        match r with
        | Ok connected => mret (Ok connected)
        | Err second_err =>
            _ ← (if is_dial_invalid_session second_err then evict else mret tt);
            mret (Err second_err)
        end
      else mret (Err first_err)
  end.

Definition list_services (config_types : list string) : ctask (result EdgeError (list Service)) :=
  with_reauth_retry (λ tok, call (ListServices tok config_types)).

Definition do_resolve_service (tok : AuthToken) (name : string) : ctask (result EdgeError (string * bool)) :=
  services ←! call (ListServices tok []);
  mret ((λ svc, (svc_id svc, encryption_required svc)) <$> resolve_service services name).

(** The flow that [timeout] bounds: at the deadline it is dropped. *)
Definition connect_flow (service_name : string) (timeout : Z) (app_data : option (list Z)) : ctask (result EdgeError (Z * Z)) :=
  svc ←! with_reauth_retry (λ tok, do_resolve_service tok service_name);
  let '(service_id, encrypted) := svc in
  dial_with_refresh_retry
    (get_or_create_dial_session service_id timeout)
    (λ session,
       channel ←! open_or_reuse_pooled_channel session;
       conn ←! call (DialService channel session encrypted app_data);
       Return (Ok (conn, channel)))
    (λ session, _ ←! refresh_session session; Return (Ok tt))
    (call (EvictDialSession service_id)).

(** ** Hosting (bind/flow.rs) *)

(** [BindService] is the Bind over the channel. *)
Definition bind_flow (service_name : string) : ctask (result EdgeError Z) :=
  t ← call ReadToken;
  match t with
  | None => mret (Err NotAuthenticated)
  | Some _ =>
      services ←! list_services [];
      match resolve_service services service_name with
      | Err e => mret (Err e)
      | Ok service =>
          detail ←! create_session (svc_id service) BindSession;
          channel ←! open_channel detail;
          call (BindService channel detail (encryption_required service))
      end
  end.

(** ** Polling the services (client/services.rs) *)

Definition store_services (fetched : list Service) (new_ts : option Z) : ctask (result EdgeError (list ServiceEvent)) :=
  evs ← call (StoreServices fetched new_ts); mret (Ok evs).

Definition poll_services (config_types : list string) : ctask (result EdgeError (list ServiceEvent)) :=
  fetched ←! list_services config_types; store_services fetched None.

(** What the update check found, once there is a token. *)
Definition check_service_list_update_free (tok : AuthToken) : ctask (result EdgeError (bool * option Z)) :=
  r ← call (Http (GetServiceUpdates tok));
  match do_service_updates_get (parse_last_change_at cfg) (debug_text cfg) r with
  | Err e => mret (Err e)
  | Ok new_ts => stored ← call ReadLastUpdate; mret (check_service_list_update (Ok new_ts) stored)
  end.

Definition check_update : ctask (result EdgeError (bool * option Z)) :=
  t ← call ReadToken;
  match t with
  | None => mret (Err NotAuthenticated)
  | Some tok => check_service_list_update_free tok
  end.

(** The rest of a poll: [listing] is how it lists the services. *)
Definition poll_checked (checked : result EdgeError (bool * option Z)) (listing : ctask (result EdgeError (list Service)))
    : ctask (result EdgeError (list ServiceEvent)) :=
  let unavailable := match checked with
                     | Err (ServiceUpdatesHttp status _ _) => status =? 503
                     | Err ControllerUnavailable => true
                     | _ => false
                     end in
  if unavailable then Return (Err ControllerUnavailable)
  else
    let check := match checked with Ok check => check | Err _ => (true, None) end in
    if negb check.1 then Return (Ok []) else fetched ←! listing; store_services fetched check.2.

Definition poll_services_if_changed (config_types : list string) : ctask (result EdgeError (list ServiceEvent)) :=
  checked ← check_update; poll_checked checked (list_services config_types).

(** The timer's poll (service_refresh.rs), under the token it started with. *)
Definition service_poll_turn (config_types : list string) : ctask (result EdgeError (list ServiceEvent)) :=
  t ← call ReadToken;
  match t with
  | None => mret (Err NotAuthenticated)
  | Some tok =>
      checked ← check_service_list_update_free tok;
      poll_checked checked (call (ListServices tok config_types))
  end.

End client.
