(* ===== verification/ClientLogic.v ===== *)
(** * The edge client: meaning of its operations, and its tasks' discipline

    The operations of Client given their meaning on the shared state, with a history
    of what the controller issued and what the cache lost; what a task knows, when it
    may perform an operation, and that every task of the client obeys. *)

From S2P Require Import Prelude Message EdgeWire Address Services Rest Tasks Http Enroll SessionCert Client.

Section obeys.
Context `{JsonLib} `{!RestJson} `{TlsLib} `{EnrollLib} `{CertJson}.
Notation ctask := (task client_sig).
Context (cfg : settings).

(** ** Meaning of the operations *)

Definition set_token (t : option AuthToken) (exp : option Z) (c : client) : client :=
  mkClient t exp (reauth_lock c) (polls c) (holder c) (holder_lock c).
Definition set_lock (l : option nat) (c : client) : client :=
  mkClient (token c) (expires_at c) l (polls c) (holder c) (holder_lock c).
Definition set_polls (p : poll_state) (c : client) : client :=
  mkClient (token c) (expires_at c) (reauth_lock c) p (holder c) (holder_lock c).
Definition set_holder (st : SessionCertState) (c : client) : client :=
  mkClient (token c) (expires_at c) (reauth_lock c) (polls c) st (holder_lock c).
Definition set_holder_lock (l : option nat) (c : client) : client :=
  mkClient (token c) (expires_at c) (reauth_lock c) (polls c) (holder c) l.
Definition cache (c : client) : sessions := dial_sessions (polls c).
Definition set_cache (m : sessions) (c : client) : client :=
  set_polls (mkPoll (last_service_update (polls c)) (services (polls c)) m) c.

(** The two long locks apart, one lock's critical section.  A request, a sleep and
    the like leave the state alone, and their answer is open. *)
Definition effect (i : nat) (o : client_op) : client → client_answer o → client → Prop :=
  match o with
  | ReadToken => λ c a c', a = token c ∧ c' = c
  | StoreToken t exp => λ c _ c', c' = set_token (Some t) (exp ≫= parse_expires_at cfg) c
  | ReadExpiry => λ c a c', a = expires_at c ∧ c' = c
  | LockReauth => λ c _ c', reauth_lock c = None ∧ c' = set_lock (Some i) c
  | UnlockReauth => λ c _ c', c' = set_lock None c
  | CachedDialSession key => λ c a c', a = cache c !! key ∧ c' = c
  | CacheDialSession key s => λ c _ c', c' = set_cache (<[key := s]> (cache c)) c
  | EvictDialSession key => λ c _ c', c' = set_cache (delete key (cache c)) c
  | EvictDeadDialSession key id => λ c a c',
      a = (evict_dead_dial_session key id (cache c)).1 ∧ c' = set_cache (evict_dead_dial_session key id (cache c)).2 c
  | RecacheDialSession key id s => λ c a c',
      a = (recache_refreshed_dial_session key id s (cache c)).1 ∧
      c' = set_cache (recache_refreshed_dial_session key id s (cache c)).2 c
  | SnapshotDialSessions => λ c a c', a ≡ₚ map_to_list (cache c) ∧ c' = c
  | ClearDialSessions => λ c _ c', c' = set_cache ∅ c
  | ReadLastUpdate => λ c a c', a = last_service_update (polls c) ∧ c' = c
  | StoreServices fetched ts => λ c a c',
      ∃ order, is_order order ∧ a = (store_and_process order fetched ts (polls c)).1 ∧
               c' = set_polls (store_and_process order fetched ts (polls c)).2 c
  | LockHolder => λ c _ c', holder_lock c = None ∧ c' = set_holder_lock (Some i) c
  | UnlockHolder => λ c _ c', c' = set_holder_lock None c
  | ReadHolder => λ c a c', a = holder c ∧ c' = c
  | StoreHolder st => λ c _ c', c' = set_holder st c
  | _ => λ c _ c', c' = c
  end.

(** A dropped task drops its guards. *)
Definition release (i : nat) (l : option nat) : option nat := if bool_decide (l = Some i) then None else l.
Definition drop_guard (i : nat) (c : client) : client :=
  set_lock (release i (reauth_lock c)) (set_holder_lock (release i (holder_lock c)) c).

(** ** History *)

(** An operation performed: by which task, with which answer, under which token and
    with which certificate. *)
Record entry : Type := mkEntry {
  by_task : nat;
  what : { o : client_op & client_answer o };
  under : option AuthToken;
  certified : SessionCertState
}.

Record history : Type := mkHist {
  issued : gset string;
  created : list (string * string);
  retired : gset string;
  trace : list entry
}.

Definition no_history : history := mkHist ∅ [] ∅ [].

Definition cached_ids (m : sessions) : gset string := list_to_set (map (λ kv, sd_id kv.2) (map_to_list m)).

(** The session a reply to [POST /sessions] brings, and for which service. *)
Definition brings (o : client_op) : client_answer o → option (string * SessionType * string) :=
  match o with
  | Http (PostSession _ service_id type) => λ a,
      match do_create_session a with Ok s => Some (service_id, type, sd_id s) | Err _ => None end
  | _ => λ _, None
  end.

(** The controller issues each session id once, and answers a request for a session
    with that session. *)
Definition controller_ok (o : client_op) : client_answer o → history → Prop :=
  match o with
  | Http (PostSession _ _ _) => λ a h, ∀ s, do_create_session a = Ok s → sd_id s ∉ issued h
  | Http (GetSession _ id) => λ a _, ∀ d, do_get_session_detail a = Ok d → sd_id d = id
  | _ => λ _ _, True
  end.

Definition record (i : nat) (o : client_op) (a : client_answer o) (c c' : client) (h : history) : history :=
  mkHist
    (match brings o a with Some (_, _, id) => {[id]} ∪ issued h | None => issued h end)
    (match brings o a with Some (key, DialSession, id) => (key, id) :: created h | _ => created h end)
    (retired h ∪ (cached_ids (cache c) ∖ cached_ids (cache c')))
    (trace h ++ [mkEntry i (existT o a) (token c) (holder c)]).

Definition client_performs (i : nat) (o : op client_sig) (s : client * history) (a : answer o) (s' : client * history) : Prop :=
  effect i o s.1 a s'.1 ∧ controller_ok o a s.2 ∧ s'.2 = record i o a s.1 s'.1 s.2.

Definition client_drops (i : nat) (s : client * history) : client * history := (drop_guard i s.1, s.2).

(** The tasks: what callers ask for, and the turns of the timers. *)
Inductive client_job : ctask unit → Prop :=
| job_connect name timeout app_data : client_job (_ ← connect_flow cfg name timeout app_data; mret tt)
| job_bind name : client_job (_ ← bind_flow cfg name; mret tt)
| job_create id type : client_job (_ ← create_session cfg id type; mret tt)
| job_list types : client_job (_ ← list_services cfg types; mret tt)
| job_poll types : client_job (_ ← poll_services cfg types; mret tt)
| job_poll_changed types : client_job (_ ← poll_services_if_changed cfg types; mret tt)
| job_service_turn types : client_job (_ ← service_poll_turn cfg types; mret tt)
| job_tick : client_job session_refresh_tick
| job_refresh intervals : client_job (refresh_turn cfg intervals).

Definition client_world : Type := world (Σ := client_sig) (S := client * history).
Definition client_step : client_world → client_world → Prop := pool_step client_performs client_drops client_job.

(** Before any task: no lock held, nothing cached. *)
Definition client_start (c : client) : client_world := mkWorld (c, no_history) ∅.
Definition idle (c : client) : Prop := reauth_lock c = None ∧ holder_lock c = None ∧ cache c = ∅.

(** ** What a task knows *)

(** Does it hold the lock, and if so, which token has it read since? *)
Inductive holding : Type := Free | Held (current : option (option AuthToken)).

(** And that of the certificate: what it has read since, and the time. *)
Inductive cert_holding : Type := CertFree | CertHeld (st : option SessionCertState) (at_ : option Z).

Record knowledge : Type := mkKnow {
  held : holding;
  cert : cert_holding;
  denied : list AuthToken;
  owned : gset (string * string);
  seen : gset (string * string);
  gone : gset string;
  dialed : gset string
}.

Definition know_nothing : knowledge := mkKnow Free CertFree [] ∅ ∅ ∅ ∅.

Definition set_held (x : holding) (k : knowledge) : knowledge := mkKnow x (cert k) (denied k) (owned k) (seen k) (gone k) (dialed k).
Definition set_cert (x : cert_holding) (k : knowledge) : knowledge := mkKnow (held k) x (denied k) (owned k) (seen k) (gone k) (dialed k).
Definition add_denied (t : AuthToken) (k : knowledge) : knowledge :=
  mkKnow (held k) (cert k) (t :: denied k) (owned k) (seen k) (gone k) (dialed k).
Definition add_owned (p : string * string) (k : knowledge) : knowledge :=
  mkKnow (held k) (cert k) (denied k) ({[p]} ∪ owned k) (seen k) (gone k) (dialed k).
Definition add_seen (p : string * string) (k : knowledge) : knowledge :=
  mkKnow (held k) (cert k) (denied k) (owned k ∖ {[p]}) ({[p]} ∪ seen k) (gone k) (dialed k).
Definition add_gone (key : string) (k : knowledge) : knowledge :=
  mkKnow (held k) (cert k) (denied k) (owned k) (seen k)
    (gone k ∪ set_map snd (filter (λ p, p.1 = key) (seen k))) (dialed k).
Definition add_dialed (id : string) (k : knowledge) : knowledge :=
  mkKnow (held k) (cert k) (denied k) (owned k) (seen k) (gone k) ({[id]} ∪ dialed k).

(** The ids it knows. *)
Definition known (k : knowledge) : gset string := set_map snd (seen k) ∪ gone k ∪ dialed k.

(** The token a request was refused under: it got a 401. *)
Definition request_token (r : request) : option AuthToken :=
  match r with
  | GetApiSession t | PostSession t _ _ | GetSession t _ | GetServiceRouters t _ _ | GetServiceUpdates t
  | PostCertificate t _ _ => Some t
  | PostAuthenticate _ _ | PostMfa _ _ => None
  end.

Definition refused (o : client_op) : client_answer o → option AuthToken :=
  match o with
  | Http r => λ a, match a with Response status _ => if status =? 401 then request_token r else None | NoResponse _ => None end
  | ListServices t _ => λ a, match a with Err e => if is_unauthorized e then Some t else None | Ok _ => None end
  | _ => λ _, None
  end.

(** Is it a login? *)
Definition logs_in (o : client_op) : bool := match o with Http (PostAuthenticate _ _) => true | _ => false end.

(** What may become of a certificate: it is kept, invalidated or renewed. *)
Inductive next_cert (st : SessionCertState) : SessionCertState → Prop :=
| next_kept : next_cert st st
| next_invalid : next_cert st (invalidate st)
| next_renewed fresh st' : renewed st fresh = Ok st' → next_cert st st'.

Definition client_may (k : knowledge) (o : client_op) : Prop :=
  match o with
  | LockReauth => held k = Free
  | UnlockReauth => held k ≠ Free
  | StoreToken _ _ => held k ≠ Free
  | CacheDialSession key s => (key, sd_id s) ∈ owned k
  | RecacheDialSession _ id s => sd_id s = id
  | Http (PostAuthenticate _ _) =>
      ∃ current t, held k = Held (Some current) ∧ t ∈ denied k ∧ channel_token_value current = Some (channel_token t)
  | LockHolder => cert k = CertFree
  | UnlockHolder => cert k ≠ CertFree
  | ReadHolder => cert k ≠ CertFree
  | StoreHolder st' => ∃ st at_, cert k = CertHeld (Some st) at_ ∧ next_cert st st'
  | Http (PostCertificate _ csr request_timeout) =>
      ∃ st at_ t kc, cert k = CertHeld (Some st) at_ ∧ (now_override st = Some t ∨ now_override st = None ∧ at_ = Some t) ∧
        stale_at st t = true ∧ session_cert_csr_from_key SESSION_CERT_CN (cs_key_pem st) = Ok kc ∧ csr = csr_pem kc ∧
        request_timeout = SESSION_CERT_REQUEST_TIMEOUT
  | DialService _ s _ _ => (∃ key, (key, sd_id s) ∈ seen k) ∧ sd_id s ∉ dialed k ∧ (size (dialed k) < 2)%nat
  | _ => True
  end.

Definition client_gets (k : knowledge) (o : client_op) : client_answer o → Prop :=
  match o with
  | CachedDialSession key => λ a, ∀ s, a = Some s → sd_id s ∉ gone k
  | Http (PostSession _ _ _) => λ a, ∀ s, do_create_session a = Ok s → sd_id s ∉ known k
  | Http (GetSession _ id) => λ a, ∀ d, do_get_session_detail a = Ok d → sd_id d = id
  | _ => λ _, True
  end.

(** What the answer alone teaches. *)
Definition learns (k : knowledge) (o : client_op) : client_answer o → knowledge :=
  match o with
  | LockReauth => λ _, set_held (Held None) k
  | UnlockReauth => λ _, set_held Free k
  | ReadToken => λ a, match held k with Held _ => set_held (Held (Some a)) k | Free => k end
  | StoreToken t _ => λ _, match held k with Held _ => set_held (Held (Some (Some t))) k | Free => k end
  | LockHolder => λ _, set_cert (CertHeld None None) k
  | UnlockHolder => λ _, set_cert CertFree k
  | ReadHolder => λ a, match cert k with CertHeld _ at_ => set_cert (CertHeld (Some a) at_) k | CertFree => k end
  | StoreHolder st => λ _, match cert k with CertHeld _ at_ => set_cert (CertHeld (Some st) at_) k | CertFree => k end
  | Clock => λ a, match cert k with CertHeld st _ => set_cert (CertHeld st (Some a)) k | CertFree => k end
  | CachedDialSession key => λ a, match a with Some s => add_seen (key, sd_id s) k | None => k end
  | CacheDialSession key s => λ _, add_seen (key, sd_id s) k
  | EvictDialSession key => λ _, add_gone key k
  | DialService _ s _ _ => λ _, add_dialed (sd_id s) k
  | o => λ a, match brings o a with Some (key, DialSession, id) => add_owned (key, id) k | _ => k end
  end.

Definition client_after (k : knowledge) (o : client_op) (a : client_answer o) : knowledge :=
  let k := learns k o a in match refused o a with Some t => add_denied t k | None => k end.

Definition client_logic : discipline client_sig knowledge :=
  mkDiscipline (Σ := client_sig) client_may client_gets client_after (λ k, set_cert CertFree (set_held Free k)).

(** ** The tasks obey *)

Notation wp := (wp client_logic).

(** What stays known, the lock apart. *)
Record keeps (k k' : knowledge) : Prop := {
  keeps_dialed : dialed k' = dialed k;
  keeps_denied : denied k ⊆ denied k';
  keeps_seen : seen k ⊆ seen k';
  keeps_gone : gone k ⊆ gone k'
}.

#[local] Instance keeps_preorder : PreOrder keeps.
Proof. split; [by intros k; split|]. intros k1 k2 k3 [] []. split; [congruence|set_solver..]. Qed.

Definition grows (k k' : knowledge) : Prop := keeps k k' ∧ held k' = held k ∧ cert k' = cert k.

#[local] Instance grows_preorder : PreOrder grows.
Proof. split; [by intros k; split|]. intros k1 k2 k3 (? & ? & ?) (? & ? & ?). split; [by etrans|split; congruence]. Qed.

(** It holds no lock. *)
Definition free (k : knowledge) : Prop := held k = Free ∧ cert k = CertFree.

Lemma keeps_set_held k1 k2 x : keeps k1 k2 → keeps k1 (set_held x k2).
Proof. by intros []. Qed.

Lemma keeps_set_cert k1 k2 x : keeps k1 k2 → keeps k1 (set_cert x k2).
Proof. by intros []. Qed.

(** The operations whose answers say nothing of the locks, and that do not count. *)
Definition quiet (o : client_op) : Prop :=
  match o with
  | LockReauth | UnlockReauth | ReadToken | StoreToken _ _ | DialService _ _ _ _
  | LockHolder | UnlockHolder | ReadHolder | StoreHolder _ | Clock => False
  | _ => True
  end.

(** An answer that teaches nothing beyond its refusal. *)
Lemma after_grows k o a :
  quiet o → grows k (client_after k o a).
Proof.
  intros Ho. assert (Hl : grows k (learns k o a)).
  { destruct o; try done; cbn; repeat case_match; done || (split; [split|]; cbn; done || set_solver). }
  unfold client_after. destruct (refused o a); [|done]. etrans; [done|]. split; [split; cbn; done || set_solver|done].
Qed.

Lemma free_grows k k' : grows k k' → free k → free k'.
Proof. unfold free. by intros (_ & -> & ->). Qed.

(** A read of the token changes what is known only under the lock. *)
Lemma after_read k t : keeps k (client_after k ReadToken t) ∧ (free k → client_after k ReadToken t = k).
Proof. unfold client_after, free. cbn. destruct k as [[] ? ? ? ? ? ?]; cbn; split; try done; by intros []. Qed.

Lemma after_clock k t : keeps k (client_after k Clock t) ∧ held (client_after k Clock t) = held k ∧ (cert k = CertFree → client_after k Clock t = k).
Proof. unfold client_after. cbn. by destruct k as [? [] ? ? ? ? ?]. Qed.

Lemma wp_op {A} (o : client_op) (f : client_answer o → ctask A) Q k :
  client_may k o → (∀ a, client_gets k o a → wp (f a) Q (client_after k o a)) → wp (call o ≫= f) Q k.
Proof. intros Hm Hf. by split. Qed.

(** The same for what a login asks. *)
Lemma wp_ask {A} (r : request) (f : http_reply → ctask A) Q k :
  client_may k (Http r) → (∀ a, client_gets k (Http r) a → wp (f a) Q (client_after k (Http r) a)) → wp (ask_controller r ≫= f) Q k.
Proof. apply wp_op. Qed.

(** Results: what holds with a value and with an error. *)
Definition ensures {A} (k : knowledge) (P : A → knowledge → Prop) (E : EdgeError → knowledge → Prop)
    (r : result EdgeError A) (k' : knowledge) : Prop :=
  grows k k' ∧ match r with Ok a => P a k' | Err e => E e k' end.

Definition anything {A} (_ : A) (_ : knowledge) : Prop := True.

Lemma ensures_mono {A} k0 k (P P' : A → knowledge → Prop) E E' r k' :
  grows k0 k → ensures k P E r k' → (∀ a, P a k' → P' a k') → (∀ e, E e k' → E' e k') → ensures k0 P' E' r k'.
Proof. intros Hg [Hgr Hr] HP HE. split; [by etrans|]. destruct r; auto. Qed.

(** The errors of a request that a 401 may explain. *)
Definition explains (t : AuthToken) (e : EdgeError) (k : knowledge) : Prop := is_unauthorized e = true → t ∈ denied k.

Lemma decode_unauthorized {A} on_reply ctx (parse : string → result string A) a e :
  (∀ m, is_unauthorized (on_reply m) = false) → decode SessionHttp on_reply ctx parse a = Err e → is_unauthorized e = true →
  ∃ text, a = Response 401 text.
Proof.
  intros Hr Hd Hu. destruct a as [m|status [text|m]]; cbn in Hd; [injection Hd as <-; by rewrite Hr in Hu| |injection Hd as <-; by rewrite Hr in Hu].
  destruct (is_success status) eqn:Es.
  - destruct (parse text); cbn in Hd; [done|]. injection Hd as <-. by rewrite Hr in Hu.
  - destruct (parse_error_envelope text) as [code msg]. injection Hd as <-. cbn in Hu. bool_to_prop. subst. by eexists.
Qed.

(** A request for sessions under a token: its 401 is that token's. *)
Lemma refused_unauthorized {A} (r : request) (t : AuthToken) ctx (parse : string → result string A) a e k :
  request_token r = Some t → decode SessionHttp SessionResponse ctx parse a = Err e →
  explains t e (client_after k (Http r) a).
Proof.
  intros Ht Hd Hu. destruct (decode_unauthorized SessionResponse ctx parse a e (λ _, eq_refl) Hd Hu) as [text ->].
  unfold client_after. cbn [refused]. rewrite Ht. cbn. by left.
Qed.

Lemma wp_ensures {A} (t : ctask (result EdgeError A)) k0 k (P P' : A → knowledge → Prop) E E' :
  wp t (ensures k P E) k → grows k0 k → (∀ a k', grows k k' → P a k' → P' a k') →
  (∀ e k', grows k k' → E e k' → E' e k') → wp t (ensures k0 P' E') k.
Proof.
  intros Ht Hg HP HE. eapply wp_mono; [done|]. intros r k' [Hg' Hr]. split; [by etrans|]. destruct r; auto.
Qed.

Lemma wp_try_ensures {A B} (t : ctask (result EdgeError A)) (f : A → ctask (result EdgeError B)) k (P : A → knowledge → Prop) E
    (P' : B → knowledge → Prop) E' :
  wp t (ensures k P E) k →
  (∀ a k', grows k k' → P a k' → wp (f a) (ensures k' P' E') k') →
  (∀ e k', grows k k' → E e k' → E' e k') →
  wp (try t f) (ensures k P' E') k.
Proof.
  intros Ht Hok Herr. eapply wp_try; [done| |].
  - intros a k' [Hg HP]. eapply wp_ensures; [by apply Hok|done|done|done].
  - intros e k' [Hg HE]. split; auto.
Qed.

(** A call whose result the caller ignores, or that has none. *)
Lemma wp_then {A B} (t : ctask A) (f : A → ctask (result EdgeError B)) k P' E' :
  wp t (λ _, grows k) k → (∀ a k', grows k k' → wp (f a) (ensures k' P' E') k') → wp (t ≫= f) (ensures k P' E') k.
Proof.
  intros Ht Hf. eapply wp_call; [done|]. intros a k' Hg. eapply wp_ensures; [by apply Hf|done|done|done].
Qed.

Lemma wp_quiet (o : client_op) k :
  client_may k o →
  quiet o → wp (call o) (λ _, grows k) k.
Proof. intros Hm Ho. split; [done|]. intros a _. by apply after_grows. Qed.

Lemma wp_from {A} (t : ctask A) k0 k : wp t (λ _, grows k) k → grows k0 k → wp t (λ _, grows k0) k.
Proof. intros Ht Hg. eapply wp_mono; [done|]. intros a k' Hg'. by etrans. Qed.

(** *** Authentication *)

Lemma wp_refresh_get tok k :
  wp (refresh_get tok)
    (ensures k anything (λ e k', ∀ code msg, e = AuthHttp 401 code msg → tok ∈ denied k')) k.
Proof.
  apply wp_ask; [done|]. intros a _. split; [by apply after_grows|].
  destruct (do_refresh_get a) as [s|e] eqn:E; [done|]. intros code msg ->.
  destruct a as [m|status [text|m]]; cbn in E; try done. destruct (is_success status).
  - by destruct (api_session_body text).
  - destruct (parse_error_envelope text). injection E as -> _ _. unfold client_after. cbn. by left.
Qed.

Lemma wp_submit_mfa_code tok code k : wp (submit_mfa_code tok code) (ensures k anything anything) k.
Proof. apply wp_ask; [done|]. intros a _. split; [by apply after_grows|]. by destruct (submit_mfa_code_reply a). Qed.

Lemma wp_satisfy_legacy_mfa b partial k : wp (satisfy_legacy_mfa b partial) (ensures k anything anything) k.
Proof.
  unfold satisfy_legacy_mfa. destruct (negb b); [by split|].
  apply (wp_op MfaCode); [done|]. intros code _. change (client_after k MfaCode code) with k. destruct code as [code|e]; [|by split].
  eapply wp_try_ensures; [apply wp_submit_mfa_code| |done]. intros _ k1 Hg1 _.
  eapply wp_try_ensures; [apply wp_refresh_get| |done]. intros s k2 Hg2 _. by destruct (auth_queries s).
Qed.

Lemma wp_legacy_authenticate method body b k :
  client_may k (Http (PostAuthenticate method body)) → wp (legacy_authenticate method body b) (ensures k anything anything) k.
Proof.
  intros Hm. apply wp_ask; [done|]. intros a _. set (k' := client_after _ _ _).
  assert (Hg : grows k k') by (by apply after_grows). destruct (legacy_authenticate_reply a) as [s|e]; [|by split].
  destruct (auth_queries s); [by split|]. eapply wp_ensures; [apply wp_satisfy_legacy_mfa|done|done|done].
Qed.

(** A section of the lock: from where the lock is held, whatever is known of the token. *)
Definition locked (k k' : knowledge) : Prop := keeps k k' ∧ held k' ≠ Free ∧ cert k' = cert k.

Lemma locked_trans k1 k2 k3 : keeps k1 k2 → cert k2 = cert k1 → locked k2 k3 → locked k1 k3.
Proof. intros Hk Hc (Hk' & Hh & Hc'). split; [by etrans|]. split; [done|congruence]. Qed.

Lemma wp_with_reauth_lock {A} (body : ctask A) (Q : A → Prop) k :
  free k →
  (∀ k', keeps k k' → held k' = Held None → cert k' = CertFree → wp body (λ a k2, locked k' k2 ∧ Q a) k') →
  wp (with_reauth_lock body) (λ a k', grows k k' ∧ Q a) k.
Proof.
  intros [Hfree Hcert] Hbody. apply wp_op; [done|]. intros [] _. apply wp_bind.
  assert (Hk : keeps k (client_after k LockReauth tt)) by done.
  eapply wp_mono; [by apply Hbody|]. intros a k2 ((Hk2 & Hheld & Hc2) & HQ). apply wp_op; [done|]. intros [] _.
  split; [|done]. split; [etrans; [exact Hk|]; etrans; [exact Hk2|]; by split|]. cbn. by rewrite Hfree, Hc2, Hcert.
Qed.

(** The same for the certificate's lock, wherever the other is. *)
Lemma wp_with_holder_lock {A} (body : ctask A) (Q : A → knowledge → Prop) k :
  cert k = CertFree → (∀ a k1, Q a k1 → Q a (set_cert CertFree k1)) →
  (∀ k', keeps k k' → held k' = held k → cert k' = CertHeld None None →
     wp body (λ a k2, keeps k' k2 ∧ held k2 = held k' ∧ cert k2 ≠ CertFree ∧ Q a k2) k') →
  wp (with_holder_lock body) (λ a k', grows k k' ∧ Q a k') k.
Proof.
  intros Hcert HQ Hbody. apply wp_op; [done|]. intros [] _. apply wp_bind.
  assert (Hk : keeps k (client_after k LockHolder tt)) by done.
  eapply wp_mono; [by apply Hbody|]. intros a k2 (Hk2 & Hheld & Hc2 & HQa). apply wp_op; [done|]. intros [] _.
  split; [|by apply HQ]. split; [etrans; [exact Hk|]; etrans; [exact Hk2|]; by split|]. cbn. rewrite Hheld. by rewrite Hcert.
Qed.

Lemma after_holder k st : keeps k (client_after k ReadHolder st) ∧ held (client_after k ReadHolder st) = held k ∧
  (∀ x at_, cert k = CertHeld x at_ → cert (client_after k ReadHolder st) = CertHeld (Some st) at_).
Proof. unfold client_after. cbn. destruct k as [? [|x at_] ? ? ? ? ?]; cbn; split_and!; try done. by intros ? ? [= _ <-]. Qed.

Lemma wp_store_holder (st st' : SessionCertState) at_ k :
  cert k = CertHeld (Some st) at_ → next_cert st st' →
  wp (call (StoreHolder st')) (λ _ k', keeps k k' ∧ held k' = held k ∧ cert k' ≠ CertFree ∧ denied k' = denied k) k.
Proof. intros Hc Hn. split; [by exists st, at_|]. intros [] _. cbn. unfold client_after. cbn. by rewrite Hc. Qed.

Lemma wp_invalidate_holder k : cert k = CertFree → wp invalidate_holder (λ _, grows k) k.
Proof.
  intros Hc. eapply wp_mono; [apply (wp_with_holder_lock _ (λ _ _, True)); [done..|]|by intros a k' [? _]].
  intros k1 Hk1 Hh1 Hc1. apply wp_op; [cbn; by rewrite Hc1|]. intros st _. destruct (after_holder k1 st) as (Hk2 & Hh2 & Hc2).
  eapply wp_mono; [eapply (wp_store_holder st); [by eapply Hc2|constructor]|]. intros [] k3 (Hk3 & Hh3 & Hc3 & _).
  split; [by etrans|]. by rewrite Hh3, Hh2.
Qed.

Lemma wp_do_reauthenticate used k :
  free k → (∃ t, t ∈ denied k ∧ channel_token t = used) →
  wp (do_reauthenticate cfg used) (ensures k anything anything) k.
Proof.
  intros Hfree (t & Ht & Hused).
  eapply wp_mono; [apply (wp_with_reauth_lock _ (λ _, True)); [done|]|by intros [] ? [? _]].
  intros k1 Hk1 Hh1 Hc1. apply wp_op; [done|]. intros current _.
  set (k2 := client_after k1 ReadToken current). assert (Hh2 : held k2 = Held (Some current) ∧ cert k2 = CertFree).
  { unfold k2, client_after. cbn. by rewrite Hh1. }
  destruct Hh2 as [Hh2 Hc2]. assert (Hk2 : keeps k1 k2) by apply after_read.
  assert (Hback : ∀ k', locked k2 k' → locked k1 k') by (intros k'; apply locked_trans; [done|congruence]).
  case_bool_decide as Hcur; cbn [negb]; [|split; [apply Hback; split; [done|by rewrite Hh2]|done]].
  assert (Hlogin : ∀ method body, client_may k2 (Http (PostAuthenticate method body))).
  { intros method body. exists current, t. split; [done|]. split; [|by rewrite Hcur, Hused].
    destruct Hk1, Hk2. auto. }
  assert (Hauth : wp match reauth_method cfg with
                     | Cert => do_authenticate "{}" (mfa_provider cfg)
                     | Updb username password => do_authenticate_password cfg username password (mfa_provider cfg)
                     | ExtJwt => mret (Err ExtJwtReauthUnsupported)
                     end (ensures k2 anything anything) k2).
  { destruct (reauth_method cfg); [by apply wp_legacy_authenticate..|]. by split. }
  eapply wp_try; [exact Hauth| |].
  - intros s k3 [(Hk3 & Hh3 & Hc3) _]. apply wp_op; [cbn; rewrite Hh3, Hh2; done|]. intros [] _.
    set (k4 := client_after k3 _ _). assert (Hk4 : keeps k3 k4 ∧ held k4 ≠ Free ∧ cert k4 = cert k3).
    { unfold k4, client_after. cbn. rewrite Hh3, Hh2. done. }
    destruct Hk4 as (Hk4 & Hh4 & Hc4). apply wp_op; [done|]. intros [] _. change (client_after k4 ClearDialSessions tt) with k4.
    assert (Hc4' : cert k4 = CertFree) by congruence. clearbody k4. apply wp_bind.
    assert (Hend : ∀ k5, grows k4 k5 → locked k1 k5).
    { intros k5 (Hk5 & Hh5 & Hc5). apply Hback. split; [by repeat (etrans; [eassumption|])|]. split; congruence. }
    destruct (has_session_cert cfg); [|split; [by apply Hend|done]].
    eapply wp_mono; [by apply wp_invalidate_holder|]. intros [] k5 Hg5. split; [by apply Hend|done].
  - intros e k3 [(Hk3 & Hh3 & Hc3) _]. split; [|done]. apply Hback. split; [done|]. rewrite Hh3, Hh2. split; [done|congruence].
Qed.

Lemma wp_guarded_store_refresh used t exp k : free k → wp (guarded_store_refresh used t exp) (λ _, grows k) k.
Proof.
  intros Hfree. eapply wp_mono; [apply (wp_with_reauth_lock _ (λ _, True)); [done|]|by intros [] ? [? _]].
  intros k1 Hk1 Hh1 Hc1. apply wp_op; [done|]. intros current _.
  set (k2 := client_after k1 ReadToken current). assert (Hh2 : locked k1 k2).
  { unfold locked, k2, client_after. cbn. by rewrite Hh1. }
  assert (Hheld : ∃ x, held k2 = Held x) by (unfold k2, client_after; cbn; rewrite Hh1; by eexists). destruct Hheld as [x Hx].
  clearbody k2. case_bool_decide; [|by split].
  apply wp_op; [cbn; by rewrite Hx|]. intros [] _. unfold client_after. cbn. rewrite Hx.
  split; [|done]. destruct Hh2 as (Hk2 & _ & Hc2). split; [by apply keeps_set_held|done].
Qed.

Lemma wp_do_oidc_session_refresh used k : free k → wp (do_oidc_session_refresh cfg used) (ensures k anything anything) k.
Proof.
  intros Hfree. eapply wp_mono; [apply (wp_with_reauth_lock _ (λ _, True)); [done|]|by intros [] ? [? _]].
  intros k1 Hk1 Hh1 Hc1. apply wp_op; [done|]. intros current _.
  set (k2 := client_after k1 ReadToken current). assert (Hh2 : held k2 = Held (Some current) ∧ cert k2 = cert k1).
  { unfold k2, client_after. cbn. by rewrite Hh1. }
  destruct Hh2 as [Hh2 Hc2]. assert (Hk2 : keeps k1 k2) by apply after_read. clearbody k2.
  assert (Hdone : locked k1 k2 ∧ True) by (split; [split; [done|by rewrite Hh2]|done]).
  case_bool_decide as Hcur; cbn [negb]; [|done]. destruct (current ≫= refresh_token) as [subject|]; [|done].
  apply wp_op; [done|]. intros refreshed _. change (client_after k2 (OidcRefresh subject) refreshed) with k2.
  destruct refreshed as [refreshed|e]; [|done]. apply wp_op; [done|]. intros now _.
  rewrite (proj2 (proj2 (after_clock k2 now))) by congruence.
  apply wp_op; [cbn; by rewrite Hh2|]. intros [] _. unfold client_after. cbn. rewrite Hh2.
  split; [|done]. split; [by apply keeps_set_held|done].
Qed.

Lemma wp_push_token k : free k → wp push_token_to_live_channels (λ _, grows k) k.
Proof.
  intros Hfree. apply wp_op; [done|]. intros t _. rewrite (proj2 (after_read k t)) by done.
  destruct t as [t|]; [|done]. destruct (requires_router_token_update t); [|done]. by apply wp_quiet.
Qed.

Lemma wp_oidc_session_refresh used k : free k → wp (oidc_session_refresh cfg used) (ensures k anything anything) k.
Proof.
  intros Hfree. eapply wp_try_ensures; [by apply wp_do_oidc_session_refresh| |done]. intros _ k1 Hg1 _.
  eapply wp_then; [apply wp_push_token; by apply (free_grows _ _ Hg1)|]. by intros _ k2 _.
Qed.

(** An operation under a token, tried once more under a fresh one. *)
Lemma wp_with_reauth_retry {T} (op : AuthToken → ctask (result EdgeError T)) (P : T → knowledge → Prop) k :
  free k →
  (∀ t k', grows k k' → wp (op t) (ensures k' P (explains t)) k') →
  wp (with_reauth_retry cfg op) (ensures k P anything) k.
Proof.
  intros Hfree Hop. apply wp_op; [done|]. intros [t|] _; rewrite (proj2 (after_read k _)) by done; [|by split].
  apply wp_bind. eapply wp_mono; [by apply Hop|]. intros [v|first] k1 [Hg1 Hr]; [by split|]. cbn in Hr.
  destruct (is_unauthorized first) eqn:Hu; [|by split].
  assert (Hfree1 : free k1) by (by apply (free_grows _ _ Hg1)).
  assert (Hagain : wp match token_session_type t with
                      | LegacySession => do_reauthenticate cfg (channel_token t)
                      | OidcSession => oidc_session_refresh cfg (channel_token t)
                      end (ensures k1 anything anything) k1).
  { destruct (token_session_type t); [apply wp_do_reauthenticate; [done|]; exists t; auto|by apply wp_oidc_session_refresh]. }
  apply wp_bind. eapply wp_mono; [exact Hagain|]. intros [[]|e] k2 [Hg2 _]; [|split; [by etrans|done]].
  assert (Hfree2 : free k2) by (by apply (free_grows _ _ Hg2)).
  apply wp_op; [done|]. intros [fresh|] _; rewrite (proj2 (after_read k2 _)) by done; [|split; [by etrans|done]].
  eapply wp_ensures; [apply Hop; by etrans|by etrans|auto|done].
Qed.

(** *** Sessions *)

(** A session just created: never dialed, and to be cached if it is for dialing. *)
Definition brand_new (service_id : string) (type : SessionType) (s : SessionDetail) (k : knowledge) : Prop :=
  sd_id s ∉ dialed k ∧ (type = DialSession → (service_id, sd_id s) ∈ owned k).

Lemma wp_create_session id type k : free k → wp (create_session cfg id type) (ensures k (brand_new id type) anything) k.
Proof.
  intros Hfree. apply wp_with_reauth_retry; [done|]. intros t k1 _. apply wp_op; [done|]. intros a Hgets.
  split; [by apply after_grows|]. cbn in Hgets. destruct (do_create_session a) as [s|e] eqn:Ha.
  - specialize (Hgets s eq_refl). unfold known in Hgets. split.
    + assert (Hd : dialed (client_after k1 (Http (PostSession t id type)) a) = dialed k1)
        by (by destruct (after_grows k1 (Http (PostSession t id type)) a) as [[-> _ _ _] _]).
      rewrite Hd. set_solver.
    + intros ->. unfold client_after. cbn. rewrite Ha.
      assert (Hnew : (id, sd_id s) ∈ owned (add_owned (id, sd_id s) k1)) by (cbn; set_solver).
      by case_match.
  - apply (refused_unauthorized _ t "" session_body); [done|]. unfold do_create_session in Ha.
    by destruct (decode _ _ _ _ a); cbn in Ha; simplify_eq.
Qed.

Lemma wp_retry_create delays id type k : free k → wp (retry_create cfg delays id type) (ensures k (brand_new id type) anything) k.
Proof.
  revert k. induction delays as [|d delays IH]; intros k Hfree; cbn [retry_create];
    (eapply wp_call; [by apply wp_create_session|]); intros [s|e] k1 [Hg1 Hr]; try by split.
  - by destruct (is_retriable_create_error e).
  - destruct (is_retriable_create_error e); [|by split]. apply wp_op; [done|]. intros [] _. change (client_after k1 (Sleep d) tt) with k1.
    eapply wp_ensures; [apply IH; by apply (free_grows _ _ Hg1)|done|done|done].
Qed.

(** A session to dial: cached under the service at some time, and not dialed yet. *)
Definition dialable (service_id : string) (s : SessionDetail) (k : knowledge) : Prop :=
  (service_id, sd_id s) ∈ seen k ∧ sd_id s ∉ dialed k.

Lemma wp_get_or_create id total k :
  free k → dialed k ⊆ gone k → wp (get_or_create_dial_session cfg id total) (ensures k (dialable id) anything) k.
Proof.
  intros Hfree Hgone. apply wp_op; [done|]. intros cached Hgets. cbn in Hgets.
  assert (Hg : grows k (client_after k (CachedDialSession id) cached)) by (by apply after_grows).
  destruct cached as [s|].
  - split; [done|]. specialize (Hgets s eq_refl). split; [cbn; set_solver|]. destruct Hg as [[-> _ _ _] _]. set_solver.
  - change (client_after k (CachedDialSession id) None) with k in *. eapply wp_try_ensures; [| |done].
    + apply wp_op; [done|]. intros delays _. change (client_after k (Delays (session_backoff total)) delays) with k. by apply wp_retry_create.
    + intros s k1 Hg1 [Hd Ho]. apply wp_op; [by apply Ho|]. intros [] _. split; [by apply after_grows|]. split; [cbn; set_solver|done].
Qed.

(** A probe that finds the session alive brings that session. *)
Definition same_id (s : SessionDetail) (s' : SessionDetail) (_ : knowledge) : Prop := sd_id s' = sd_id s.

Lemma wp_probe_routers t s k : wp (probe_routers t s) (ensures k (same_id s) anything) k.
Proof.
  apply wp_op; [done|]. intros a _. split; [by apply after_grows|]. by destruct (do_get_service_edge_routers a).
Qed.

Lemma wp_refresh_session_probe t s k : wp (refresh_session_probe t s) (ensures k (same_id s) anything) k.
Proof.
  unfold refresh_session_probe. case_match; [apply wp_probe_routers|].
  apply wp_op; [done|]. intros a Hgets. split; [by apply after_grows|]. cbn in Hgets.
  destruct (do_get_session_detail a) as [d|e] eqn:E; [by apply Hgets|done].
Qed.

Lemma wp_refresh_session_probe_durable t s k : wp (refresh_session_probe_durable t s) (ensures k (same_id s) anything) k.
Proof.
  unfold refresh_session_probe_durable. case_match; [|apply wp_probe_routers].
  apply wp_op; [done|]. intros a _. split; [by apply after_grows|]. by destruct (do_get_session_detail a).
Qed.

Lemma wp_refresh_session s k : free k → wp (refresh_session s) (ensures k anything anything) k.
Proof.
  intros Hfree. apply wp_op; [done|]. intros [t|] _; rewrite (proj2 (after_read k _)) by done; [|by split].
  eapply wp_try_ensures; [apply wp_refresh_session_probe| |done]. intros s' k1 Hg1 Hid.
  apply wp_op; [done|]. intros b _. split; [by apply after_grows|done].
Qed.

(** *** The timers *)

Lemma wp_probe_all t snapshot k : wp (probe_all t snapshot) (λ _, grows k) k.
Proof.
  revert k. induction snapshot as [|[key s] snapshot IH]; intros k; cbn [probe_all]; [done|].
  eapply wp_call; [apply wp_refresh_session_probe_durable|]. intros [s'|e] k1 [Hg1 Hr].
  - apply wp_op; [done|]. intros b _. eapply wp_mono; [apply IH|]. intros l k2 Hg2.
    etrans; [exact Hg1|]. etrans; [by apply (after_grows k1 (RecacheDialSession key (sd_id s) s') b)|done].
  - eapply wp_call; [apply IH|]. intros l k2 Hg2. cbn. by etrans.
Qed.

Lemma wp_purge l k : wp (purge l) (λ _, grows k) k.
Proof.
  revert k. induction l as [|[key id] l IH]; intros k; cbn [purge]; [done|].
  apply wp_op; [done|]. intros b _. eapply wp_from; [apply IH|]. by apply (after_grows k (EvictDeadDialSession key id) b).
Qed.

Lemma wp_session_refresh_tick k : free k → wp session_refresh_tick (λ _, grows k) k.
Proof.
  intros Hfree. apply wp_op; [done|]. intros [t|] _; rewrite (proj2 (after_read k _)) by done; [|done].
  apply wp_op; [done|]. intros snapshot _. change (client_after k SnapshotDialSessions snapshot) with k.
  eapply wp_call; [apply wp_probe_all|]. intros l k1 Hg1. eapply wp_from; [apply wp_purge|done].
Qed.

Lemma wp_sleep d k : wp (call (Sleep d)) (λ _, grows k) k.
Proof. by apply wp_quiet. Qed.

Lemma wp_refresh_turn intervals k : free k → wp (refresh_turn cfg intervals) (λ _, grows k) k.
Proof.
  intros Hfree. apply wp_op; [done|]. intros t _. rewrite (proj2 (after_read k t)) by done.
  assert (Hlegacy : wp (exp ← call ReadExpiry; now ← call Clock; _ ← call (Sleep (next_sleep exp now intervals));
    t ← call ReadToken;
    match t with
    | None => call (Sleep (retry_interval intervals))
    | Some token_used =>
        r ← refresh_get token_used;
        match r with
        | Ok session =>
            _ ← guarded_store_refresh (channel_token token_used) (Legacy (as_token session)) (as_expires_at session);
            mret tt
        | Err (AuthHttp status _ _) =>
            if status =? 401 then
              _ ← do_reauthenticate cfg (channel_token token_used); call (Sleep (retry_interval intervals))
            else call (Sleep (retry_interval intervals))
        | Err _ => call (Sleep (retry_interval intervals))
        end
    end) (λ _, grows k) k).
  { apply wp_op; [done|]. intros exp _. apply wp_op; [done|]. intros now _. change (client_after k ReadExpiry exp) with k. rewrite (proj2 (proj2 (after_clock k now))) by apply Hfree. apply wp_op; [done|]. intros [] _.
    apply wp_op; [done|]. intros [t'|] _; rewrite (proj2 (after_read _ _)) by done; [|apply wp_sleep].
    eapply wp_call; [apply wp_refresh_get|]. intros [s|e] k1 [Hg1 Hr].
    - eapply wp_call; [apply wp_guarded_store_refresh; by apply (free_grows _ _ Hg1)|]. intros b k2 Hg2. exact (transitivity Hg1 Hg2).
    - assert (Hsleep : wp (call (Sleep (retry_interval intervals))) (λ _, grows k) k1).
      { eapply wp_from; [apply wp_sleep|done]. }
      destruct e; try exact Hsleep. destruct (status =? 401) eqn:E; [|exact Hsleep]. bool_to_prop. subst status.
      eapply wp_call; [apply wp_do_reauthenticate; [by apply (free_grows _ _ Hg1)|]|].
      + exists t'. split; [by eapply Hr|done].
      + intros r k2 [Hg2 _]. eapply wp_from; [apply wp_sleep|]. by etrans. }
  destruct (token_session_type <$> t) as [[]|]; [exact Hlegacy| |exact Hlegacy].
  apply wp_op; [done|]. intros t' _. rewrite (proj2 (after_read k t')) by done.
  destruct (t' ≫= refresh_token); [|apply wp_sleep].
  apply wp_op; [done|]. intros exp _. apply wp_op; [done|]. intros now _. change (client_after k ReadExpiry exp) with k. rewrite (proj2 (proj2 (after_clock k now))) by apply Hfree. apply wp_op; [done|]. intros [] _.
  apply wp_op; [done|]. intros [t2|] _; rewrite (proj2 (after_read _ _)) by done; [|apply wp_sleep].
  eapply wp_call; [by apply wp_do_oidc_session_refresh|]. intros [[]|e] k1 [Hg1 _].
  - eapply wp_from; [apply wp_push_token; by apply (free_grows _ _ Hg1)|done].
  - eapply wp_from; [apply wp_sleep|done].
Qed.

(** *** Connecting *)

Lemma wp_recover s k : free k → wp (recover_empty_edge_routers s) (ensures k anything anything) k.
Proof.
  intros Hfree. eapply wp_call; [by apply wp_refresh_session|]. intros [s'|e] k1 [Hg1 _].
  - by destruct (edge_routers s').
  - eapply wp_ensures; [apply (wp_then _ _ _ anything anything); [destruct (_ && _); [by apply wp_quiet|done]|by intros [] k2 Hg2; split]|done|done|done].
Qed.

(** *** Certificates and channels *)

(** A reply that is a 401 explains the error made of it. *)
Lemma parse_cert_reply_unauthorized key r e :
  parse_cert_reply key r = Err e → is_unauthorized e = true → ∃ body, r = Response 401 body.
Proof.
  destruct r as [m|status [body|m]]; cbn; [by intros [= <-]| |by intros [= <-]].
  destruct (status =? CREATED); cbn.
  - destruct (session_cert_json body) as [[id chain]|m]; cbn; [|by intros [= <-]]. unfold extract_leaf_pem.
    destruct (split_once_str PEM_CERT_BEGIN chain) as [[? rest]|]; cbn; [|by intros [= <-]].
    destruct (split_once_str PEM_CERT_END _) as [[? ?]|]; cbn; [done|by intros [= <-]].
  - destruct (parse_error_envelope body) as [code msg]. intros [= <-] Hu. cbn in Hu. bool_to_prop. subst. by eexists.
Qed.

Lemma renewed_unauthorized st fresh e : renewed st fresh = Err e → is_unauthorized e = false.
Proof.
  unfold renewed, parse_not_after. destruct (x509_chain_from_pem _) as [[|c ?]|m]; cbn; congruence || by intros [= <-].
Qed.

Lemma tls_parts_unauthorized st e : tls_parts st = Err e → is_unauthorized e = false.
Proof.
  unfold tls_parts, parse_leaf_to_der, parse_key_to_der. destruct (collect _) as [certs|m]; cbn; [|by intros [= <-]].
  case_bool_decide; cbn; [by intros [= <-]|]. destruct (pem_private_key _) as [[key|]|m]; cbn; congruence || by intros [= <-].
Qed.

(** Under the certificate's lock: the task knows the certificate and has asked the time. *)
Lemma wp_ensure_fresh tok st k :
  (∃ at_, cert k = CertHeld (Some st) at_) →
  wp (ensure_fresh tok st)
    (λ x k', keeps k k' ∧ held k' = held k ∧ (∃ at_, cert k' = CertHeld (Some st) at_) ∧ next_cert st x.1 ∧
       match x.2 with Ok _ => True | Err e => explains tok e k' end) k.
Proof.
  intros [at0 Hc0]. unfold ensure_fresh.
  eapply wp_call; [instantiate (1 := λ b k', keeps k k' ∧ held k' = held k ∧ ∃ at_ t, cert k' = CertHeld (Some st) at_ ∧
    (now_override st = Some t ∨ now_override st = None ∧ at_ = Some t) ∧ b = stale_at st t)|].
  { unfold is_stale. destruct (now_override st) as [t|] eqn:En; [split; [done|]; split; [done|]; by eauto 10|]. apply (wp_op Clock); [done|]. intros t _.
    destruct (after_clock k t) as (Hk & Hh & _). split; [done|]. split; [done|]. exists (Some t), t. split; [|by auto].
    unfold client_after. cbn. by rewrite Hc0. }
  intros stale k1 (Hk1 & Hh1 & at1 & t & Hc1 & Hnow & ->). destruct (stale_at st t) eqn:Es.
  2: { split; [done|]. split; [done|]. split; [by exists at1|]. split; [constructor|]. cbn.
       destruct (tls_parts st) as [p|e] eqn:E; [done|]. intros Hu. apply tls_parts_unauthorized in E. congruence. }
  unfold remint_api_session_cert. destruct (session_cert_csr_from_key SESSION_CERT_CN (cs_key_pem st)) as [kc|e] eqn:Ek.
  2: { cbn. split; [done|]. split; [done|]. split; [by exists at1|]. split; [constructor|done]. }
  apply (wp_op (Http (PostCertificate tok (csr_pem kc) SESSION_CERT_REQUEST_TIMEOUT))).
  { cbn. exists st, at1, t, kc. by split_and!. }
  intros a _. set (k2 := client_after k1 _ a). assert (Hg2 : grows k1 k2) by (by apply after_grows). destruct Hg2 as (Hk2 & Hh2 & Hc2).
  assert (Hx : ∀ e, parse_cert_reply (key_pem kc) a = Err e → explains tok e k2).
  { intros e He Hu. destruct (parse_cert_reply_unauthorized _ _ _ He Hu) as [body ->]. unfold k2, client_after. cbn. by left. }
  clearbody k2. cbn [mbind task_bind mret task_ret]. 
  assert (Hend : keeps k k2 ∧ held k2 = held k ∧ ∃ at_, cert k2 = CertHeld (Some st) at_).
  { split; [by etrans|]. split; [congruence|]. exists at1. congruence. }
  destruct (parse_cert_reply (key_pem kc) a) as [fresh|e] eqn:Ep; cbn.
  - destruct (renewed st fresh) as [st'|e] eqn:Er; cbn.
    + split; [apply Hend|]. split; [apply Hend|]. split; [apply Hend|]. split; [by eapply next_renewed|].
      destruct (tls_parts st') as [p|e] eqn:E; [done|]. intros Hu. apply tls_parts_unauthorized in E. congruence.
    + split; [apply Hend|]. split; [apply Hend|]. split; [apply Hend|]. split; [constructor|].
      intros Hu. apply renewed_unauthorized in Er. congruence.
  - split; [apply Hend|]. split; [apply Hend|]. split; [apply Hend|]. split; [constructor|by apply Hx].
Qed.

Lemma wp_ensure_fresh_holder tok k : free k → wp (ensure_fresh_holder tok) (ensures k anything (explains tok)) k.
Proof.
  intros [Hfree Hcert].
  eapply wp_mono; [apply (wp_with_holder_lock _ (λ r k', match r with Ok _ => True | Err e => explains tok e k' end)); [done|by intros []|]|].
  2: { intros r k' [Hg Hr]. split; [done|]. by destruct r. }
  intros k1 Hk1 Hh1 Hc1. apply wp_op; [cbn; by rewrite Hc1|]. intros st _. destruct (after_holder k1 st) as (Hk2 & Hh2 & Hc2).
  set (k2 := client_after k1 ReadHolder st) in *. clearbody k2.
  eapply wp_call; [apply wp_ensure_fresh; eexists; by eapply Hc2|].
  intros x k3 (Hk3 & Hh3 & (at3 & Hc3) & Hn & Hx). eapply wp_call; [by eapply wp_store_holder|].
  intros [] k4 (Hk4 & Hh4 & Hc4 & Hd4). cbn. split; [etrans; [exact Hk2|]; by etrans|]. split; [congruence|]. split; [done|].
  destruct x as [st' [p|e]]; [done|]. cbn in *. unfold explains. by rewrite Hd4.
Qed.

Lemma wp_channel_client_config k : free k → wp (channel_client_config cfg) (ensures k anything anything) k.
Proof.
  intros Hfree. unfold channel_client_config. destruct (has_session_cert cfg).
  - eapply wp_try_ensures; [apply (wp_with_reauth_retry _ anything); [done|]| |done].
    + intros t k' Hg. apply wp_ensure_fresh_holder. by apply (free_grows _ _ Hg).
    + intros parts k1 Hg1 _. by destruct (into_config parts).
  - by destruct (client_config _).
Qed.

Lemma wp_spawn_unconnected addrs k : free k → wp (spawn_unconnected_router_openers cfg addrs) (λ _, grows k) k.
Proof.
  intros Hfree. apply wp_op; [done|]. intros [|addr unconnected] _; [done|].
  change (client_after k (PoolUnconnected addrs) _) with k. apply wp_op; [done|].
  intros [t|] _; rewrite (proj2 (after_read k _)) by done; [|done].
  eapply wp_call; [by apply wp_channel_client_config|]. intros [[cc cn]|e] k1 [Hg1 _]; [|done].
  eapply wp_from; [by apply wp_quiet|done].
Qed.

Lemma wp_router (o : client_op) k :
  client_may k o → quiet o → ∀ (E : client_answer o = result EdgeError Z),
  wp (call o) (λ a, ensures k anything anything (eq_rect _ (λ T, T) a _ E)) k.
Proof. intros Hm Hq E. eapply wp_mono; [by apply wp_quiet|]. intros a k' Hg. split; [done|]. by destruct (eq_rect _ _ _ _ _). Qed.

Lemma wp_open s k : free k → wp (open_or_reuse_pooled_channel cfg s) (ensures k anything anything) k.
Proof.
  intros Hfree. eapply wp_try_ensures; [destruct (edge_routers s); [by apply wp_recover|by split]| |done].
  intros s' k1 Hg1 _. assert (Hfree1 : free k1) by (by apply (free_grows _ _ Hg1)).
  destruct (tls_addrs _ _) as [|addr addrs]; [by split|].
  apply wp_op; [done|]. intros [channel|] _; change (client_after k1 (PoolGetAlive _) _) with k1.
  - eapply wp_then; [by apply wp_spawn_unconnected|]. by intros [] k2 Hg2.
  - apply wp_op; [done|]. intros [t|] _; rewrite (proj2 (after_read k1 _)) by done; [|by split].
    eapply wp_try_ensures; [by apply wp_channel_client_config| |done]. intros [cc cn] k2 Hg2 _.
    by apply (wp_router (FanOut (addr :: addrs) cc cn (channel_token t)) k2 I I eq_refl).
Qed.

Lemma wp_open_channel s k : free k → wp (open_channel cfg s) (ensures k anything anything) k.
Proof.
  intros Hfree. unfold open_channel. destruct (tls_addrs _ _) as [|url urls]; [by split|].
  apply wp_op; [done|]. intros [t|] _; rewrite (proj2 (after_read k _)) by done; [|by split].
  destruct (parse_tls_address url) as [address|e]; [|by split]. cbn [map_err]. eapply (wp_try_ensures _ _ _ anything anything); [by split| |done].
  intros address' k1 Hg1 _. eapply wp_try_ensures; [apply wp_channel_client_config; by apply (free_grows _ _ Hg1)| |done].
  intros [cc cn] k2 Hg2 _. by apply (wp_router (DialHandshake address' cc cn (channel_token t)) k2 I I eq_refl).
Qed.

(** A dial attempt may add its session to those dialed. *)
Definition dials (s : SessionDetail) (k k' : knowledge) : Prop :=
  (held k' = held k ∧ cert k' = cert k) ∧ (dialed k' = dialed k ∨ dialed k' = {[sd_id s]} ∪ dialed k) ∧ seen k ⊆ seen k' ∧ gone k ⊆ gone k'.

Lemma grows_dials s k k1 k2 : grows k k1 → dials s k1 k2 → dials s k k2.
Proof.
  intros ([Hd _ Hs Hg] & Hh & Hc) ([Hh2 Hc2] & Hd2 & Hs2 & Hg2). unfold dials. rewrite <- Hd, <- Hh, <- Hc.
  repeat split; [done..|set_solver|set_solver].
Qed.

Lemma wp_dial {T} id s enc app (f : Z → Z → T) k :
  free k → dialable id s k → (size (dialed k) < 2)%nat →
  wp (channel ←! open_or_reuse_pooled_channel cfg s;
      conn ←! call (DialService channel s enc app);
      Return (Ok (f conn channel))) (λ _, dials s k) k.
Proof.
  intros Hfree [Hseen Hnew] Hsize. eapply wp_try; [by apply wp_open| |].
  - intros channel k1 [Hg1 _]. pose proof Hg1 as [[Hd _ Hs _] _]. split.
    + cbn. rewrite Hd. split; [exists id; by apply Hs|done].
    + intros r _. assert (Hdial : dials s k (client_after k1 (DialService channel s enc app) r)).
      { eapply grows_dials; [exact Hg1|]. unfold dials. cbn. by auto. }
      by destruct r.
  - intros e k1 [Hg1 _]. destruct Hg1 as [[Hd _ Hs Hg] Hh]. unfold dials. auto.
Qed.

Lemma wp_list_call t types k : wp (call (ListServices t types)) (ensures k anything (explains t)) k.
Proof.
  split; [done|]. intros r _. split; [by apply after_grows|]. destruct r as [l|e]; [done|]. intros Hu.
  cbv beta iota zeta delta [client_logic after client_after refused]. rewrite Hu. by left.
Qed.

Lemma wp_resolve t name k : wp (do_resolve_service t name) (ensures k anything (explains t)) k.
Proof.
  eapply wp_try_ensures; [apply wp_list_call| |done]. intros l k1 _ _. split; [done|]. unfold resolve_service.
  by destruct (List.find _ l).
Qed.

Lemma wp_connect_flow name timeout app k :
  free k → dialed k = ∅ → wp (connect_flow cfg name timeout app) (λ _ _, True) k.
Proof.
  intros Hfree Hd0. unfold connect_flow. eapply wp_try; [| |done].
  { apply (wp_with_reauth_retry _ anything); [done|]. intros t k1 Hg1. apply wp_resolve. }
  intros [id enc] k1 [Hg1 _]. unfold dial_with_refresh_retry.
  assert (Hd1 : dialed k1 = ∅) by (destruct Hg1 as [[-> _ _ _] _]; done).
  eapply wp_try; [apply wp_get_or_create; [by apply (free_grows _ _ Hg1)|set_solver]| |done].
  intros s1 k2 [Hg2 Hs1]. assert (Hd2 : dialed k2 = ∅) by (destruct Hg2 as [[-> _ _ _] _]; done).
  assert (Hf2 : free k2) by (apply (free_grows _ _ Hg2), (free_grows _ _ Hg1), Hfree).
  eapply wp_call; [eapply wp_dial; [done|exact Hs1|rewrite Hd2, size_empty; lia]|].
  intros [c|first] k3 ([Hh3 Hc3] & Hdial3 & Hseen3 & Hgone3); [done|].
  assert (Hf3 : free k3) by (destruct Hf2; split; congruence).
  assert (Hs3 : (id, sd_id s1) ∈ seen k3) by (apply Hseen3, Hs1).
  assert (Hd3 : dialed k3 ⊆ {[sd_id s1]}) by (rewrite Hd2 in Hdial3; destruct Hdial3 as [-> | ->]; set_solver).
  eapply wp_call; [instantiate (1 := λ _ k, grows k3 k)|].
  { destruct (is_dial_invalid_session first); [done|]. apply wp_bind.
    eapply wp_mono; [by apply (wp_try_ensures _ _ _ anything anything anything anything); [apply wp_refresh_session|by intros|]|].
    intros r k4 [Hg4 _]. done. }
  intros [] k4 Hg4; [|done].
  apply wp_op; [done|]. intros [] _. set (k5 := client_after k4 (EvictDialSession id) tt).
  assert (Hf5 : free k5) by (apply (free_grows _ _ Hg4), Hf3).
  assert (Hd5 : dialed k5 ⊆ {[sd_id s1]}) by (destruct Hg4 as [[Hd4 _ _ _] _]; cbn; by rewrite Hd4).
  assert (Hgone5 : sd_id s1 ∈ gone k5).
  { destruct Hg4 as [[_ _ Hseen4 _] _]. cbn. apply elem_of_union_r, elem_of_map. exists (id, sd_id s1). split; [done|].
    apply elem_of_filter. split; [done|]. by apply Hseen4. }
  clearbody k5. eapply wp_try; [apply wp_get_or_create; [done|set_solver]| |done].
  intros s2 k6 [Hg6 Hs2]. assert (Hd6 : dialed k6 = dialed k5) by (by destruct Hg6 as [[-> _ _ _] _]).
  eapply wp_call; [eapply wp_dial; [by apply (free_grows _ _ Hg6)|exact Hs2|]|].
  { rewrite Hd6. apply (Nat.le_lt_trans _ (size ({[sd_id s1]} : gset string))); [by apply subseteq_size|rewrite size_singleton; lia]. }
  intros [c|second] k7 _; [done|]. apply wp_bind. by destruct (is_dial_invalid_session second).
Qed.

(** *** The other jobs *)

Lemma wp_list_services types k : free k → wp (list_services cfg types) (ensures k anything anything) k.
Proof. intros Hfree. apply wp_with_reauth_retry; [done|]. intros t k1 _. apply wp_list_call. Qed.

Lemma wp_bind_flow name k : free k → wp (bind_flow cfg name) (λ _ _, True) k.
Proof.
  intros Hfree. apply wp_op; [done|]. intros [t|] _; [|done]. rewrite (proj2 (after_read k _)) by done.
  eapply wp_try; [by apply wp_list_services| |done]. intros l k1 [Hg1 _].
  destruct (resolve_service l name) as [svc|e]; [|done].
  eapply wp_try; [apply wp_create_session; by apply (free_grows _ _ Hg1)| |done]. intros s k2 [Hg2 _].
  eapply wp_try; [apply wp_open_channel, (free_grows _ _ Hg2); by apply (free_grows _ _ Hg1)| |done]. by intros channel k3 _.
Qed.

Lemma wp_check_free t k : wp (check_service_list_update_free cfg t) (λ _, grows k) k.
Proof.
  apply wp_op; [done|]. intros a _. assert (Hg : grows k (client_after k (Http (GetServiceUpdates t)) a)) by (by apply after_grows).
  destruct (do_service_updates_get _ _ a); [|exact Hg]. apply wp_op; [done|]. intros stored _. exact Hg.
Qed.

Lemma wp_check_update k : free k → wp (check_update cfg) (λ _, grows k) k.
Proof.
  intros Hfree. apply wp_op; [done|]. intros [t|] _; rewrite (proj2 (after_read k _)) by done; [|exact (reflexivity k)]. apply wp_check_free.
Qed.

Lemma wp_poll_checked checked listing k : wp listing (λ _ _, True) k → wp (poll_checked checked listing) (λ _ _, True) k.
Proof.
  intros Hl. unfold poll_checked. cbv zeta.
  do 2 (match goal with |- wp (if ?b then _ else _) _ _ => destruct b end; [done|]).
  eapply wp_try; [exact Hl| |done]. intros l k1 _. apply wp_op; [done|]. by intros evs _.
Qed.

Lemma wp_poll_services types k : free k → wp (poll_services cfg types) (λ _ _, True) k.
Proof.
  intros Hfree. eapply wp_try; [by apply wp_list_services| |done]. intros l k1 _. apply wp_op; [done|]. by intros evs _.
Qed.

Lemma wp_poll_changed types k : free k → wp (poll_services_if_changed cfg types) (λ _ _, True) k.
Proof.
  intros Hfree. eapply wp_call; [by apply wp_check_update|]. intros checked k1 Hg1. apply wp_poll_checked.
  eapply wp_mono; [apply wp_list_services; by apply (free_grows _ _ Hg1)|done].
Qed.

Lemma wp_service_poll_turn types k : free k → wp (service_poll_turn cfg types) (λ _ _, True) k.
Proof.
  intros Hfree. apply wp_op; [done|]. intros [t|] _; rewrite (proj2 (after_read k _)) by done; [|done].
  eapply wp_call; [apply wp_check_free|]. intros checked k1 _. apply wp_poll_checked.
  eapply wp_mono; [apply wp_list_call|done].
Qed.

Lemma wp_job t : client_job t → wp t (λ _ _, True) know_nothing.
Proof.
  intros [name timeout app|name|id type|types|types|types|types| |intervals];
    try (eapply wp_call; [|by intros ? ? _]).
  - by apply wp_connect_flow.
  - by apply wp_bind_flow.
  - eapply wp_mono; [by apply wp_create_session|done].
  - eapply wp_mono; [by apply wp_list_services|done].
  - by apply wp_poll_services.
  - by apply wp_poll_changed.
  - by apply wp_service_poll_turn.
  - eapply wp_mono; [by apply wp_session_refresh_tick|done].
  - eapply wp_mono; [by apply wp_refresh_turn|done].
Qed.

End obeys.
