(* ===== verification/ClientRun.v ===== *)
(** * The edge client: a task alone

    A task run to its end with no other beside it, against a controller and routers
    given as a function: an executable instance of the interleaving semantics of
    ClientLogic, and what the timer of the cached sessions does in such a run. *)

From S2P Require Import Prelude Message EdgeWire Address Services Rest Tasks Http Enroll SessionCert Client ClientLogic.

Section run.
Context `{JsonLib} `{!RestJson} `{TlsLib} `{EnrollLib} `{CertJson}.
Context (cfg : settings).
Notation ctask := (task client_sig).

(** ** The run *)

(** An operation of task [i] with the answer [x] where the state does not tell it;
    [None] where the task would wait for a lock. *)
Definition react (i : nat) (o : client_op) (c : client) : client_answer o → option (client_answer o * client) :=
  match o with
  | ReadToken => λ _, Some (token c, c)
  | StoreToken t exp => λ x, Some (x, set_token (Some t) (exp ≫= parse_expires_at cfg) c)
  | ReadExpiry => λ _, Some (expires_at c, c)
  | LockReauth => λ x, match reauth_lock c with None => Some (x, set_lock (Some i) c) | Some _ => None end
  | UnlockReauth => λ x, Some (x, set_lock None c)
  | CachedDialSession key => λ _, Some (cache c !! key, c)
  | CacheDialSession key s => λ x, Some (x, set_cache (<[key := s]> (cache c)) c)
  | EvictDialSession key => λ x, Some (x, set_cache (delete key (cache c)) c)
  | EvictDeadDialSession key id => λ _, let '(b, m) := evict_dead_dial_session key id (cache c) in Some (b, set_cache m c)
  | RecacheDialSession key id s => λ _,
      let '(b, m) := recache_refreshed_dial_session key id s (cache c) in Some (b, set_cache m c)
  | SnapshotDialSessions => λ _, Some (map_to_list (cache c), c)
  | ClearDialSessions => λ x, Some (x, set_cache ∅ c)
  | ReadLastUpdate => λ _, Some (last_service_update (polls c), c)
  | StoreServices fetched ts => λ _,
      let '(evs, p) := store_and_process (λ m, (map_to_list m).*2) fetched ts (polls c) in Some (evs, set_polls p c)
  | LockHolder => λ x, match holder_lock c with None => Some (x, set_holder_lock (Some i) c) | Some _ => None end
  | UnlockHolder => λ x, Some (x, set_holder_lock None c)
  | ReadHolder => λ _, Some (holder c, c)
  | StoreHolder st => λ x, Some (x, set_holder st c)
  | _ => λ x, Some (x, c)
  end.

(** [outside] is the controller, the routers, the clock and the libraries, which may
    know what happened. *)
Fixpoint alone {A} (outside : history → ∀ o, client_answer o) (i : nat) (t : ctask A) (c : client) (h : history)
    : option (A * client * history) :=
  match t with
  | Return a => Some (a, c, h)
  | Perform o k =>
      '(a, c') ← react i o c (outside h o); alone outside i (k a) c' (record i o a c c' h)
  end.

Lemma react_effect i o c x a c' : react i o c x = Some (a, c') → effect cfg i o c a c'.
Proof.
  destruct o; cbn; intros Hr; simplify_eq; try done.
  - by destruct (reauth_lock c); simplify_eq.
  - destruct (evict_dead_dial_session _ _ _) as [b m]. by simplify_eq.
  - destruct (recache_refreshed_dial_session _ _ _ _) as [b m]. by simplify_eq.
  - destruct (store_and_process _ _ _ _) as [evs p] eqn:E. simplify_eq. exists (λ m, (map_to_list m).*2). split; [by intros m|]. by rewrite E.
  - by destruct (holder_lock c); simplify_eq.
Qed.

Lemma react_controller i o c x a c' h : react i o c x = Some (a, c') → controller_ok o x h → controller_ok o a h.
Proof. destruct o; try done. cbn. by intros [= <- <-]. Qed.

(** Such a run is one of the interleavings. *)
Lemma alone_steps outside i t c h c' h' ts :
  (∀ h o, controller_ok o (outside h o) h) → alone outside i t c h = Some (tt, c', h') → ts !! i = Some t →
  rtc (client_step cfg) (mkWorld (c, h) ts) (mkWorld (c', h') (<[i := Return tt]> ts)).
Proof.
  intros Hout. revert c h ts. induction t as [[]|o k IH]; intros c h ts; cbn.
  - intros [= <- <-] Hi. by rewrite insert_id.
  - intros ([a c1] & Hr & Hrun)%bind_Some Hi. eapply rtc_l.
    + apply (pool_perform _ _ _ i o k a (c, h) (c1, record i o a c c1 h)); [done|].
      split; [by eapply react_effect|]. split; [by eapply react_controller|done].
    + rewrite <- (insert_insert_eq ts i (Return tt) (k a)). apply (IH a); [done|apply lookup_insert_eq].
Qed.

Lemma alone_reaches outside t c c' h' :
  client_job cfg t → (∀ h o, controller_ok o (outside h o) h) → alone outside 0 t c no_history = Some (tt, c', h') →
  rtc (client_step cfg) (client_start c) (mkWorld (c', h') (<[0%nat := Return tt]> (<[0%nat := t]> ∅))).
Proof.
  intros Hj Hout Hrun. eapply rtc_l; [by apply (pool_start _ _ _ 0 t (c, no_history) ∅)|].
  apply (alone_steps outside 0 t c no_history c' h' (<[0%nat := t]> ∅) Hout Hrun), lookup_insert_eq.
Qed.

Lemma alone_bind {A B} outside i (t : ctask A) (f : A → ctask B) c h :
  alone outside i (t ≫= f) c h = '(a, c, h) ← alone outside i t c h; alone outside i (f a) c h.
Proof.
  revert c h. induction t as [a|o k IH]; intros c h; [done|]. cbn. fold (@mbind (task client_sig) _ A B f).
  destruct (react i o c (outside h o)) as [[a c1]|]; [|done]. apply IH.
Qed.

(** ** The timer of the cached sessions *)

(** What the controller says of a session. *)
Definition probed (reply : ∀ o, client_answer o) (t : AuthToken) (s : SessionDetail) : result EdgeError SessionDetail :=
  match token_session_type t with
  | LegacySession => (λ d, set_edge_routers (edge_routers d) s) <$> do_get_session_detail (reply (Http (GetSession t (sd_id s))))
  | OidcSession =>
      (λ l, set_edge_routers l s) <$> do_get_service_edge_routers (reply (Http (GetServiceRouters t (sd_service_id s) (sd_token s))))
  end.

(** What becomes of a cached session: its routers are those of the answer; it goes if
    the answer proves it dead, and stays as it is on any other failure. *)
Definition refreshed (reply : ∀ o, client_answer o) (t : AuthToken) (s : SessionDetail) : option SessionDetail :=
  match probed reply t s with
  | Ok s' => Some s'
  | Err e => if is_proven_dead t e then None else Some s
  end.

Lemma probed_id reply t s s' : probed reply t s = Ok s' → sd_id s' = sd_id s.
Proof. unfold probed. destruct (token_session_type t);
    (match goal with |- context [_ <$> ?x] => destruct x end); cbn; by intros [= <-]. Qed.

Lemma alone_probe reply i t s c h :
  ∃ h', alone (λ _, reply) i (refresh_session_probe_durable t s) c h = Some (probed reply t s, c, h').
Proof. unfold refresh_session_probe_durable, probed. destruct (token_session_type t); by eexists. Qed.

(** The sessions of a snapshot as the probes leave them, and those to purge. *)
Definition kept (reply : ∀ o, client_answer o) t (l : list (string * SessionDetail)) (m : sessions) : sessions :=
  foldl (λ m kv, match probed reply t kv.2 with Ok s' => <[kv.1 := s']> m | Err _ => m end) m l.
Definition doomed (reply : ∀ o, client_answer o) t (l : list (string * SessionDetail)) : list (string * string) :=
  omap (λ kv, match probed reply t kv.2 with
              | Ok _ => None
              | Err e => if is_proven_dead t e then Some (kv.1, sd_id kv.2) else None
              end) l.

Lemma alone_probe_all reply i t l c h :
  NoDup l.*1 → (∀ key s, (key, s) ∈ l → cache c !! key = Some s) →
  ∃ h', alone (λ _, reply) i (probe_all t l) c h = Some (doomed reply t l, set_cache (kept reply t l (cache c)) c, h').
Proof.
  revert c h. induction l as [|[key s] l IH]; intros c h Hnd Hl.
  { exists h. cbn. by destruct c as [? ? ? [] ?]. }
  apply NoDup_cons in Hnd as [Hkey Hnd]. cbn [probe_all]. rewrite alone_bind.
  destruct (alone_probe reply i t s c h) as [h1 ->]. cbn [mbind option_bind]. unfold doomed, kept. cbn [omap list_omap foldl fst snd].
  fold (doomed reply t l).
  assert (Hs : cache c !! key = Some s) by (apply Hl; left).
  destruct (probed reply t s) as [s'|e] eqn:Ep; cbn [snd].
  - cbn [alone react mbind option_bind call perform task_bind]. unfold recache_refreshed_dial_session.
    rewrite Hs, bool_decide_true by done. cbn [mbind option_bind].
    match goal with |- context [alone _ _ _ ?c1 ?h2] => destruct (IH c1 h2 Hnd) as [h3 ->] end.
    + intros key' x Hx. unfold cache, set_cache. cbn. rewrite lookup_insert_ne; [apply Hl; by right|]. intros <-. apply Hkey.
      apply list_elem_of_fmap. by exists (key, x).
    + exists h3. done.
  - rewrite alone_bind. destruct (IH c h1 Hnd) as [h2 ->]; [intros; apply Hl; by right|]. cbn. exists h2.
    by destruct (is_proven_dead t e).
Qed.

Lemma kept_other reply t l m key : key ∉ l.*1 → kept reply t l m !! key = m !! key.
Proof.
  unfold kept. revert m. induction l as [|[k s] l IH]; intros m Hk; [done|]. apply not_elem_of_cons in Hk as [Hne Hk].
  cbn [foldl fst snd]. rewrite IH by done. destruct (probed reply t s); [by rewrite lookup_insert_ne|done].
Qed.

Lemma kept_at reply t l m key s :
  NoDup l.*1 → (key, s) ∈ l →
  kept reply t l m !! key = match probed reply t s with Ok s' => Some s' | Err _ => m !! key end.
Proof.
  revert m. induction l as [|[k x] l IH]; intros m Hnd Hin; [by apply not_elem_of_nil in Hin|].
  apply NoDup_cons in Hnd as [Hk Hnd]. unfold kept. cbn [foldl fst snd].
  apply elem_of_cons in Hin as [Heq|Hin].
  - injection Heq as <- <-. fold (kept reply t l (match probed reply t s with Ok s' => <[key := s']> m | Err _ => m end)).
    rewrite kept_other by done. destruct (probed reply t s); [apply lookup_insert_eq|done].
  - fold (kept reply t l (match probed reply t x with Ok s' => <[k := s']> m | Err _ => m end)). rewrite IH by done.
    destruct (probed reply t s); [done|]. destruct (probed reply t x); [|done]. apply lookup_insert_ne. intros <-.
    apply Hk. apply list_elem_of_fmap. by exists (k, s).
Qed.

Lemma doomed_spec reply t l key id :
  (key, id) ∈ doomed reply t l ↔ ∃ s e, (key, s) ∈ l ∧ probed reply t s = Err e ∧ is_proven_dead t e = true ∧ id = sd_id s.
Proof.
  unfold doomed. rewrite list_elem_of_omap. split.
  - intros ([k s] & Hin & Hd). cbn in Hd. destruct (probed reply t s) as [|e] eqn:Ep; [done|].
    destruct (is_proven_dead t e) eqn:Ed; [|done]. injection Hd as <- <-. by exists s, e.
  - intros (s & e & Hin & Ep & Ed & ->). exists (key, s). split; [done|]. cbn. by rewrite Ep, Ed.
Qed.

Definition purged (l : list (string * string)) (m : sessions) : sessions :=
  foldl (λ m kv, (evict_dead_dial_session kv.1 kv.2 m).2) m l.

Lemma purged_spec l m key x : purged l m !! key = Some x ↔ m !! key = Some x ∧ (key, sd_id x) ∉ l.
Proof.
  unfold purged. revert m. induction l as [|[k id] l IH]; intros m; cbn [foldl fst snd].
  { split; [intros ?; split; [done|apply not_elem_of_nil]|by intros []]. }
  rewrite IH. unfold evict_dead_dial_session. rewrite not_elem_of_cons.
  destruct (m !! k) as [s|] eqn:Ek.
  2: { split; [|naive_solver]. intros [Hm Hn]. split; [done|]. split; [|done]. intros [= -> _]. cbn in Hm. congruence. }
  case_bool_decide as Hid; cbn [snd].
  - rewrite lookup_delete_Some. split; [intros [[Hne ?] ?]; split_and!; [done| |done]; by intros [= -> _]|].
    intros (Hm & Hne & Hnl). split; [split; [|done]|done]. intros <-. apply Hne. rewrite Hm in Ek. injection Ek as ->. by rewrite Hid.
  - split; [intros [Hm ?]; split_and!; [done| |done]|naive_solver]. intros [= -> Hx]. rewrite Hm in Ek. injection Ek as ->. done.
Qed.

Lemma alone_purge reply i l c h :
  ∃ h', alone (λ _, reply) i (purge l) c h = Some (tt, set_cache (purged l (cache c)) c, h').
Proof.
  revert c h. induction l as [|[key id] l IH]; intros c h; [exists h; cbn; by destruct c as [? ? ? [] ?]|].
  cbn [purge alone react mbind option_bind call perform task_bind]. unfold purged. cbn [foldl fst snd].
  destruct (evict_dead_dial_session key id (cache c)) as [b m]. cbn [mbind option_bind snd].
  match goal with |- context [alone _ _ _ ?c1 ?h2] => destruct (IH c1 h2) as [h3 ->] end. by exists h3.
Qed.

Lemma tick_cache reply t m :
  purged (doomed reply t (map_to_list m)) (kept reply t (map_to_list m) m) = omap (refreshed reply t) m.
Proof.
  apply map_eq. intros key. apply option_eq. intros x. rewrite purged_spec, lookup_omap.
  pose proof (NoDup_fst_map_to_list m) as Hnd. destruct (m !! key) as [s|] eqn:E; cbn.
  - assert (Hin : (key, s) ∈ map_to_list m) by (by apply elem_of_map_to_list).
    rewrite (kept_at _ _ _ _ _ s) by done. rewrite E, doomed_spec. unfold refreshed.
    assert (Honly : ∀ s', (key, s') ∈ map_to_list m → s' = s) by (intros s' Hs'%elem_of_map_to_list; congruence).
    destruct (probed reply t s) as [s'|e] eqn:Ep.
    + split; [by intros [[= ->] _]|intros [= ->]; split; [done|]]. intros (s0 & e & Hs0 & He & _). apply Honly in Hs0 as ->. congruence.
    + destruct (is_proven_dead t e) eqn:Ed.
      * split; [intros [[= ->] Hn]; destruct Hn; by exists x, e|done].
      * split; [by intros [[= ->] _]|intros [= ->]; split; [done|]]. intros (s0 & e' & Hs0 & He & Hd & _). apply Honly in Hs0 as ->. congruence.
  - rewrite kept_other, E; [naive_solver|]. intros ([k s] & -> & Hin%elem_of_map_to_list)%list_elem_of_fmap. cbn in E. congruence.
Qed.

(** ** Property *)

(** A tick of the timer that refreshes the cached sessions does to each what the
    controller says of it, and nothing else: run alone under a token, it always ends,
    a session the controller answers for keeps its identity and gets the routers of the
    answer, one that it does not know any more - a 404 under a legacy API session, and
    no other failure - is gone, any other stays as it was; the rest of the client's
    state is untouched. *)
Theorem session_refresh_tick_outcome reply i c h t :
  token c = Some t →
  ∃ h', alone (λ _, reply) i session_refresh_tick c h = Some (tt, set_cache (omap (refreshed reply t) (cache c)) c, h').
Proof.
  intros Ht. unfold session_refresh_tick. cbn [alone react mbind option_bind call perform task_bind]. rewrite Ht.
  cbn [alone react mbind option_bind call perform task_bind]. rewrite alone_bind.
  match goal with |- context [alone _ _ (probe_all _ _) ?c1 ?h1] =>
    destruct (alone_probe_all reply i t (map_to_list (cache c)) c1 h1) as [h2 ->] end.
  - apply NoDup_fst_map_to_list.
  - intros key s. by rewrite elem_of_map_to_list.
  - cbn [mbind option_bind]. match goal with |- context [alone _ _ (purge _) ?c1 ?h1] =>
      destruct (alone_purge reply i (doomed reply t (map_to_list (cache c))) c1 h1) as [h3 ->] end.
    exists h3. by rewrite <- tick_cache.
Qed.

End run.

(** ** Witness *)

(** A timer under a legacy API session; of three cached sessions the controller
    knows one, does not know another, and fails on the third. *)
Definition demo_router : SessionEdgeRouter := mkRouter "er1" "h1" {[ "tls" := "tls:h1:1" ]}.
Definition demo_session (id : string) (routers : list SessionEdgeRouter) : SessionDetail :=
  mkSession id id "svc" DialSession "api" "me" routers.
Definition demo_bodies : @RestJson string_json := {|
  error_body := λ _, None;
  session_body := λ id, Ok (demo_session id [demo_router]);
  routers_body := λ _, Ok [demo_router];
  api_session_body := λ t, Ok (mkApiSession t None [] "me");
  services_body := λ _, Ok ([], 0);
  updates_body := Ok
|}.
#[local] Existing Instances demo_tls demo_enroll demo_cert demo_bodies.
Definition demo_status (id : string) : Z := if bool_decide (id = "s1") then 200 else if bool_decide (id = "s2") then 404 else 503.
Definition demo_reply (o : client_op) : client_answer o :=
  match o with
  | Http (GetSession _ id) => Response (demo_status id) (Ok id)
  | Http _ => NoResponse "closed"
  | ListServices _ _ => Ok []
  | OidcRefresh _ => Err NotAuthenticated
  | PoolGetAlive _ => None
  | PoolUnconnected _ => []
  | FanOut _ _ _ _ | DialHandshake _ _ _ _ => Err NoTlsEdgeRouter
  | DialService _ _ _ _ => Ok 1
  | BindService _ _ _ => Ok 1
  | MfaCode => Err "none"
  | ReadToken => None
  | ReadHolder => demo_expiring
  | ReadExpiry => None
  | ReadLastUpdate => None
  | CachedDialSession _ => None
  | EvictDeadDialSession _ _ => false
  | RecacheDialSession _ _ _ => false
  | SnapshotDialSessions => []
  | StoreServices _ _ => []
  | Clock => 0
  | Delays _ => []
  | _ => tt
  end.
Definition demo_config : @settings :=
  mkSettings Cert false true (mkConfig "" None None (mkId "" "" "")) None (λ _ p, p) (λ _, None) (λ _, None) (λ _, None) (λ s, s).
Definition demo_cached : gmap string SessionDetail :=
  {[ "a" := demo_session "s1" []; "b" := demo_session "s2" []; "c" := demo_session "s3" [] ]}.
Definition demo_ticking : @client string_json :=
  mkClient (Some (Legacy "t")) None None (mkPoll None watcher_new demo_cached) demo_expiring None.

Lemma session_refresh_tick_outcome_witness :
  omap (refreshed  demo_reply (Legacy "t")) demo_cached =
    {[ "a" := demo_session "s1" [mkRouter "er1" "h1" {[ "tls" := "tls:h1:1" ]}]; "c" := demo_session "s3" [] ]} ∧
  ∃ h, alone demo_config (λ _, demo_reply) 0 (session_refresh_tick ) demo_ticking no_history =
    Some (tt, set_cache (omap (refreshed  demo_reply (Legacy "t")) demo_cached) demo_ticking, h).
Proof.
  split; [vm_compute; reflexivity|].
  apply (session_refresh_tick_outcome  demo_config demo_reply 0 demo_ticking no_history (Legacy "t")). reflexivity.
Defined.
