(* ===== verification/ClientSafety.v ===== *)
(** * The edge client: its tasks interleaved

    The invariant of every interleaving of the client's tasks: who holds the locks,
    which sessions are cached, created and gone, what each task knows of them; and
    what follows for the cache, the logins, the dials and the session certificate. *)

From S2P Require Import Prelude Message EdgeWire Address Services Rest Tasks Http Enroll SessionCert Client ClientLogic ClientRun.

Section safety.
Context `{JsonLib} `{!RestJson} `{TlsLib} `{EnrollLib} `{CertJson}.
Context (cfg : settings).
Notation performs := (client_performs cfg).
Implicit Types (c : client) (h : history) (k : knowledge) (m : sessions).

(** ** The cache as pairs of a service and a session id *)

Definition at_key m (p : string * string) : Prop := sd_id <$> m !! p.1 = Some p.2.

#[local] Instance at_key_dec m p : Decision (at_key m p).
Proof. unfold at_key. apply _. Defined.

Lemma cached_ids_spec m id : id ∈ cached_ids m ↔ ∃ key, at_key m (key, id).
Proof.
  unfold cached_ids, at_key. rewrite elem_of_list_to_set, list_elem_of_fmap. cbn. split.
  - intros ([key s] & -> & Hs%elem_of_map_to_list). exists key. cbn. by rewrite Hs.
  - intros (key & (s & Hid & Hs)%fmap_Some). exists (key, s). split; [done|]. by apply elem_of_map_to_list.
Qed.

(** What holds of the cache and the history. *)
Record cache_ok m h : Prop := {
  co_cached p : at_key m p → p ∈ created h ∧ p.2 ∉ retired h;
  co_issued p : p ∈ created h → p.2 ∈ issued h;
  co_unique p q : p ∈ created h → q ∈ created h → p.2 = q.2 → p = q;
  co_retired : retired h ⊆ issued h
}.

(** What a task knows of them is so. *)
Record know_ok m h k : Prop := {
  ko_owned p : p ∈ owned k → p ∈ created h ∧ p.2 ∉ cached_ids m ∧ p.2 ∉ retired h;
  ko_seen p : p ∈ seen k → p ∈ created h ∧ (at_key m p ∨ p.2 ∈ retired h);
  ko_gone : gone k ⊆ retired h;
  ko_dialed : dialed k ⊆ issued h
}.

(** A change of the cache: entries go, or stay under their key with their id, and
    [added] may come. *)
Record evolves m h m' h' (added : option (string * string)) : Prop := {
  ev_stays p : at_key m' p → at_key m p ∨ added = Some p;
  ev_added p : added = Some p → p ∈ created h ∧ p.2 ∉ cached_ids m ∧ p.2 ∉ retired h;
  ev_retired : retired h' = retired h ∪ (cached_ids m ∖ cached_ids m');
  ev_issued : issued h' = issued h;
  ev_created : created h' = created h
}.

Lemma evolves_cache_ok m h m' h' added : evolves m h m' h' added → cache_ok m h → cache_ok m' h'.
Proof.
  intros [Hst Hadd Hr Hi Hc] [Hca Hiss Hu Hre]. split; rewrite ?Hc, ?Hi; [|done|done|].
  - intros p Hp. assert (Hin : p.2 ∈ cached_ids m') by (apply cached_ids_spec; exists p.1; by destruct p).
    rewrite Hr. destruct (Hst p Hp) as [Hm|Hm]; [destruct (Hca p Hm)|destruct (Hadd p Hm) as (? & ? & ?)]; set_solver.
  - rewrite Hr. intros id [Hid|[Hid _]%elem_of_difference]%elem_of_union; [by apply Hre|].
    apply cached_ids_spec in Hid as [key Hk]. apply (Hiss (key, id)), (Hca _ Hk).
Qed.

Lemma evolves_know_ok m h m' h' added k :
  evolves m h m' h' added → cache_ok m h → (∀ p, added = Some p → p ∉ owned k) → know_ok m h k → know_ok m' h' k.
Proof.
  intros [Hst Hadd Hr Hi Hc] [Hca Hiss Hu Hre] Hnot [Ho Hs Hg Hd].
  assert (Hids : ∀ key id, at_key m' (key, id) → id ∈ cached_ids m ∨ added = Some (key, id)).
  { intros key id Hat. destruct (Hst _ Hat) as [Hm|Hm]; [left; apply cached_ids_spec; by exists key|by right]. }
  split; rewrite ?Hc, ?Hi, ?Hr.
  - intros p Hp. destruct (Ho p Hp) as (Hcr & Hnc & Hnr). split; [done|]. split; [|set_solver].
    intros [key Hat]%cached_ids_spec. destruct (Hids _ _ Hat) as [Hm|Hm]; [done|].
    apply (Hnot _ Hm). replace (key, p.2) with p; [done|]. apply Hu; [done|by apply Hadd|done].
  - intros p Hp. destruct (Hs p Hp) as (Hcr & [Hat|Hre']); (split; [done|]); [|set_solver].
    destruct (decide (at_key m' p)) as [|Hno]; [by left|]. right. apply elem_of_union_r, elem_of_difference.
    split; [apply cached_ids_spec; exists p.1; by destruct p|]. intros [key Hat']%cached_ids_spec.
    destruct (Hst _ Hat') as [Hm|Hm].
    + apply Hno. replace p with (key, p.2); [done|]. symmetry. apply Hu; [done|by apply Hca|done].
    + destruct (Hadd _ Hm) as (_ & Hn & _). apply Hn, cached_ids_spec. exists p.1. by destruct p.
  - set_solver.
  - done.
Qed.

(** ** One operation *)

(** The history after an operation, new sessions apart. *)
Definition retire c c' h : history :=
  mkHist (issued h) (created h) (retired h ∪ (cached_ids (cache c) ∖ cached_ids (cache c'))) (trace h).

Definition added (o : client_op) : option (string * string) :=
  match o with CacheDialSession key s => Some (key, sd_id s) | _ => None end.

Lemma at_key_insert m key s p : at_key (<[key := s]> m) p → p = (key, sd_id s) ∨ at_key m p ∧ p.1 ≠ key.
Proof.
  unfold at_key. destruct p as [key' id]. cbn. destruct (decide (key' = key)) as [->|Hne].
  - rewrite lookup_insert_eq. intros [= <-]. by left.
  - rewrite lookup_insert_ne by done. by right.
Qed.

Lemma at_key_delete m key p : at_key (delete key m) p ↔ at_key m p ∧ p.1 ≠ key.
Proof.
  unfold at_key. destruct (decide (p.1 = key)) as [<-|Hne].
  - rewrite lookup_delete_eq. by split; [|intros [_ []]].
  - rewrite lookup_delete_ne by done. by split; [|intros [? _]].
Qed.

Lemma evict_dead_at key id m p : at_key (evict_dead_dial_session key id m).2 p → at_key m p.
Proof.
  unfold evict_dead_dial_session. destruct (m !! key); [|done]. case_bool_decide; [|done]. cbn. by intros [? _]%at_key_delete.
Qed.

Lemma recache_at key id s m p : sd_id s = id → at_key (recache_refreshed_dial_session key id s m).2 p → at_key m p.
Proof.
  intros <-. unfold recache_refreshed_dial_session. destruct (m !! key) as [x|] eqn:E; [|done]. case_bool_decide as Hid; [|done]. cbn.
  intros [-> |[? _]]%at_key_insert; [|done]. unfold at_key. cbn. by rewrite E, <- Hid.
Qed.

Lemma evict_sessions_at evs m p : at_key (foldl evict_session m evs) p → at_key m p.
Proof.
  revert m. induction evs as [|ev evs IH]; intros m; cbn; [done|]. intros Hp%IH.
  destruct ev; cbn in Hp; [done..|]. by apply at_key_delete in Hp as [? _].
Qed.

Lemma store_and_process_at order fetched ts (st : poll_state (SessionDetail := SessionDetail)) p :
  at_key (dial_sessions (Services.store_and_process order fetched ts st).2) p → at_key (dial_sessions st) p.
Proof.
  unfold Services.store_and_process. destruct (process order fetched (services st)) as [[evs ?] w]. cbn. apply evict_sessions_at.
Qed.

Lemma effect_at i o c a c' k p :
  effect cfg i o c a c' → client_may k o → at_key (cache c') p → at_key (cache c) p ∨ added o = Some p.
Proof.
  intros He Hm. destruct o; cbn in He, Hm; destruct_and?; subst; cbn; try (by left).
  - intros [-> |[? _]]%at_key_insert; [by right|by left].
  - intros [? _]%at_key_delete. by left.
  - intros ?%evict_dead_at. by left.
  - intros ?%recache_at; [by left|done].
  - destruct He as (order & _ & _ & ->). intros Hp. left. by apply (store_and_process_at order fetched new_ts (polls c)).
Qed.

Lemma op_evolves i o c a c' h k :
  effect cfg i o c a c' → client_may k o → know_ok (cache c) h k →
  evolves (cache c) h (cache c') (retire c c' h) (added o).
Proof.
  intros He Hm [Ho _ _ _]. split; try done.
  - intros p. by eapply effect_at.
  - destruct o; try done. cbn. intros p [= <-]. by apply Ho.
Qed.

(** A session issued: new to the cache, and to all tasks. *)
Definition issue (b : option (string * SessionType * string)) h : history :=
  mkHist (match b with Some (_, _, id) => {[id]} ∪ issued h | None => issued h end)
    (match b with Some (key, DialSession, id) => (key, id) :: created h | _ => created h end) (retired h) (trace h).

Lemma issue_cache_ok b m h :
  (∀ key type id, b = Some (key, type, id) → id ∉ issued h) → cache_ok m h → cache_ok m (issue b h).
Proof.
  intros Hb [Hca Hiss Hu Hre]. destruct b as [[[key type] id]|]; [|done]. specialize (Hb key type id eq_refl).
  split; cbn.
  - intros p Hp. destruct (Hca p Hp). split; [|done]. destruct type; [by right|done].
  - destruct type; [intros p [-> |Hp]%elem_of_cons|intros p Hp]; [set_solver|specialize (Hiss p Hp); set_solver..].
  - destruct type; [|done]. intros p q [-> |Hp]%elem_of_cons [-> |Hq]%elem_of_cons Heq; [done|..|by apply Hu].
    + destruct Hb. cbn in Heq. rewrite Heq. by apply Hiss.
    + destruct Hb. cbn in Heq. rewrite <- Heq. by apply Hiss.
  - set_solver.
Qed.

Lemma issue_know_ok b m h k : know_ok m h k → know_ok m (issue b h) k.
Proof.
  intros [Ho Hs Hg Hd]. destruct b as [[[key type] id]|]; [|done].
  assert (Hcr : ∀ p, p ∈ created h → p ∈ created (issue (Some (key, type, id)) h)) by (intros p Hp; cbn; destruct type; [by right|done]).
  split; cbn [retired issue issued]; [| |done|set_solver].
  - intros p Hp. destruct (Ho p Hp). auto.
  - intros p Hp. destruct (Hs p Hp). auto.
Qed.

(** What a task knew already is so after any operation, what it is caching apart. *)
Definition without (b : option (string * string)) k : knowledge :=
  match b with Some p => mkKnow (held k) (cert k) (denied k) (owned k ∖ {[p]}) (seen k) (gone k) (dialed k) | None => k end.

Lemma without_know_ok b m h k : know_ok m h k → know_ok m h (without b k).
Proof. intros [Ho Hs Hg Hd]. destruct b as [p|]; [|done]. split; [|done..]. cbn. intros q Hq. apply Ho. set_solver. Qed.

Lemma record_know_ok i o a c c' h k k' :
  effect cfg i o c a c' → client_may k o → know_ok (cache c) h k → cache_ok (cache c) h →
  know_ok (cache c) h k' → (∀ p, added o = Some p → p ∉ owned k') → know_ok (cache c') (record i o a c c' h) k'.
Proof.
  intros He Hm Hk Hc Hk' Hadd. pose proof (op_evolves i o c a c' h k He Hm Hk) as Hev.
  destruct (issue_know_ok (brings o a) (cache c') (retire c c' h) k') as [Ho Hs Hg Hd]; [by eapply evolves_know_ok|by split].
Qed.

Lemma record_cache_ok i o a c c' h k :
  effect cfg i o c a c' → controller_ok o a h → client_may k o → know_ok (cache c) h k → cache_ok (cache c) h →
  cache_ok (cache c') (record i o a c c' h).
Proof.
  intros He Hco Hm Hk Hc. pose proof (op_evolves i o c a c' h k He Hm Hk) as Hev.
  destruct (issue_cache_ok (brings o a) (cache c') (retire c c' h)) as [Hca Hiss Hu Hre];
    [|by eapply evolves_cache_ok|by split].
  intros key type id Hb. destruct o; try done. destruct r; try done. cbn in Hb, Hco |- *.
  destruct (do_create_session a) as [s|]; [|done]. injection Hb as _ _ <-. by apply Hco.
Qed.

(** The answers teach the truth. *)
Lemma after_know_ok i o a c c' h k :
  effect cfg i o c a c' → controller_ok o a h → client_may k o → know_ok (cache c) h k → cache_ok (cache c) h →
  know_ok (cache c') (record i o a c c' h) (client_after k o a).
Proof.
  intros He Hco Hm Hk Hc.
  assert (Hrest : know_ok (cache c') (record i o a c c' h) (learns k o a)).
  2: { unfold client_after. destruct (refused o a); [|done]. by destruct Hrest. }
  pose proof (record_know_ok i o a c c' h k (without (added o) k) He Hm Hk Hc (without_know_ok _ _ _ _ Hk)) as Hold.
  assert (Hc' : cache_ok (cache c') (record i o a c c' h)) by (by eapply record_cache_ok).
  destruct o; cbn [added without] in Hold; try (by destruct (Hold ltac:(done)); split).
  - destruct (Hold ltac:(done)). cbn. destruct (held k); by split.
  - destruct (Hold ltac:(done)). cbn. destruct (held k); by split.
  - specialize (Hold ltac:(done)). destruct He as [-> ->]. cbn. destruct (cache c !! service_id) as [s|] eqn:E; [|done].
    assert (Hat : at_key (cache c) (service_id, sd_id s)) by (unfold at_key; cbn; by rewrite E).
    destruct Hold as [Ho Hs Hg Hd]. split; [| |done..]; cbn.
    + intros p Hp. apply Ho. set_solver.
    + intros p [->%elem_of_singleton|Hp]%elem_of_union; [|by apply Hs]. split; [by apply (co_cached _ _ Hc')|by left].
  - destruct Hold as [Ho Hs Hg Hd]; [intros p [= <-]; cbn; set_solver|]. cbn in He. subst c'. split; [done| |done..]. cbn.
    assert (Hat : at_key (<[service_id := session]> (cache c)) (service_id, sd_id session)).
    { unfold at_key. cbn. by rewrite lookup_insert_eq. }
    intros p [->%elem_of_singleton|Hp]%elem_of_union; [|by apply Hs]. split; [by apply (co_cached _ _ Hc')|by left].
  - destruct (Hold ltac:(done)) as [Ho Hs Hg Hd]. cbn in He. subst c'. split; [done..| |done]. cbn.
    intros id [Hid|([key id'] & -> & [Hkey Hp]%elem_of_filter)%elem_of_map]%elem_of_union; [by apply Hg|]. cbn in Hkey. subst key.
    destruct (Hs _ Hp) as [_ [[_ []]%at_key_delete|Hre]]; [done|exact Hre].
  - destruct (Hold ltac:(done)). cbn. destruct (cert k); by split.
  - destruct (Hold ltac:(done)). cbn. destruct (cert k); by split.
  - specialize (Hold ltac:(done)). destruct r; try (destruct Hold; by split). cbn [learns brings] in *. cbn in He. subst c'.
    destruct (do_create_session a) as [s|] eqn:Ea; [|by destruct Hold; split]. destruct type; [|by destruct Hold; split].
    specialize (Hco s Ea). destruct Hold as [Ho Hs Hg Hd]. split; [|done..]. cbn.
    intros p [->%elem_of_singleton|Hp]%elem_of_union; [|by apply Ho].
    cbn [record created retired]. cbn. rewrite Ea. destruct Hc as [Hca Hiss _ Hre]. split; [by left|]. cbn. split.
    + intros [key Hat]%cached_ids_spec. apply Hco. apply (Hiss (key, sd_id s)), (Hca _ Hat).
    + rewrite difference_diag_L, union_empty_r_L. intros Hr. by apply Hco, Hre.
  - destruct (Hold ltac:(done)) as [Ho Hs Hg Hd]. split; [done..|]. cbn. destruct Hm as [[key Hseen] _].
    intros id [->%elem_of_singleton|Hid]%elem_of_union; [|by apply Hd]. destruct (ko_seen _ _ _ Hk _ Hseen) as [Hcr _].
    by apply (co_issued _ _ Hc) in Hcr.
  - destruct (Hold ltac:(done)). cbn. destruct (cert k); by split.
Qed.

(** ** The trace *)

Definition refusal (e : entry) : option AuthToken := refused (projT1 (what e)) (projT2 (what e)).
Definition is_login (e : entry) : bool := logs_in (projT1 (what e)).

(** Each login of a trace comes after a refusal, to the same task, of the token that
    is current. *)
Definition logins_ok (tr : list entry) : Prop :=
  ∀ pre e post, tr = pre ++ e :: post → is_login e = true →
    ∃ e' t, e' ∈ pre ∧ by_task e' = by_task e ∧ refusal e' = Some t ∧ channel_token_value (under e) = Some (channel_token t).

(** The sessions a task has dialed. *)
Definition dial_of (i : nat) (e : entry) : option string :=
  if decide (by_task e = i) then match projT1 (what e) with DialService _ s _ _ => Some (sd_id s) | _ => None end else None.
Definition dials_by (i : nat) (tr : list entry) : list string := omap (dial_of i) tr.

Arguments dials_by : simpl never.

Lemma logins_ok_app tr e :
  logins_ok tr →
  (is_login e = true → ∃ e' t, e' ∈ tr ∧ by_task e' = by_task e ∧ refusal e' = Some t ∧ channel_token_value (under e) = Some (channel_token t)) →
  logins_ok (tr ++ [e]).
Proof.
  intros Htr He pre x post Heq Hx. destruct post as [|y post] using rev_ind.
  - apply app_inj_tail in Heq as [-> ->]. by apply He.
  - clear IHpost. rewrite app_comm_cons, app_assoc in Heq. apply app_inj_tail in Heq as [Heq _]. by apply (Htr pre x post).
Qed.

Lemma dials_by_app i tr e : dials_by i (tr ++ [e]) = dials_by i tr ++ option_list (dial_of i e).
Proof. unfold dials_by. rewrite omap_app. cbn. by destruct (dial_of i e). Qed.

(** What a task knows of the trace. *)
Record remembers (i : nat) (tr : list entry) k : Prop := {
  re_denied t : t ∈ denied k → ∃ e, e ∈ tr ∧ by_task e = i ∧ refusal e = Some t;
  re_dialed : list_to_set (dials_by i tr) = dialed k;
  re_distinct : NoDup (dials_by i tr);
  re_twice : (length (dials_by i tr) <= 2)%nat;
  re_clock st t : cert k = CertHeld st (Some t) → ∃ e, e ∈ tr ∧ by_task e = i ∧ what e = existT Clock t
}.

Lemma remembers_other i j tr k e : by_task e = j → i ≠ j → remembers i tr k → remembers i (tr ++ [e]) k.
Proof.
  intros He Hne [Hden Hd Hnd Htw Hcl]. assert (Hno : dials_by i (tr ++ [e]) = dials_by i tr).
  { rewrite dials_by_app. unfold dial_of. rewrite decide_False by congruence. cbn. by rewrite app_nil_r. }
  split; rewrite ?Hno; [|done..|].
  - intros t Ht. destruct (Hden t Ht) as (x & Hx & ?). exists x. split; [|done]. apply elem_of_app. by left.
  - intros st t Ht. destruct (Hcl st t Ht) as (x & Hx & ?). exists x. split; [|done]. apply elem_of_app. by left.
Qed.

Lemma denied_after k o a t : t ∈ denied (client_after k o a) → t ∈ denied k ∨ refused o a = Some t.
Proof.
  assert (Hl : denied (learns k o a) = denied k) by (destruct o; cbn; repeat case_match; done).
  unfold client_after. destruct (refused o a); cbn; rewrite ?Hl; [|by left]. intros [-> |?]%elem_of_cons; [by right|by left].
Qed.

Lemma dialed_after k o a :
  dialed (client_after k o a) = match o with DialService _ s _ _ => {[sd_id s]} ∪ dialed k | _ => dialed k end.
Proof.
  assert (Hl : dialed (learns k o a) = match o with DialService _ s _ _ => {[sd_id s]} ∪ dialed k | _ => dialed k end)
    by (destruct o; cbn; repeat case_match; done).
  unfold client_after. by destruct (refused o a).
Qed.

Lemma cert_after k o a :
  cert (client_after k o a) =
    match o return client_answer o → cert_holding with
    | LockHolder => λ _, CertHeld None None
    | UnlockHolder => λ _, CertFree
    | ReadHolder => λ st, match cert k with CertHeld _ x => CertHeld (Some st) x | CertFree => CertFree end
    | StoreHolder st => λ _, match cert k with CertHeld _ x => CertHeld (Some st) x | CertFree => CertFree end
    | Clock => λ t, match cert k with CertHeld st _ => CertHeld st (Some t) | CertFree => CertFree end
    | _ => λ _, cert k
    end a.
Proof.
  assert (Hl : ∀ t, cert (add_denied t (learns k o a)) = cert (learns k o a)) by done.
  unfold client_after. destruct (refused o a); [rewrite Hl|]; destruct o; cbn; repeat case_match; cbn; congruence.
Qed.

Lemma remembers_after i tr k o (a : client_answer o) t st0 :
  client_may k o → remembers i tr k → remembers i (tr ++ [mkEntry i (existT o a) t st0]) (client_after k o a).
Proof.
  intros Hm [Hden Hd Hnd Htw Hcl]. split.
  - intros x [Hx|Hx]%denied_after.
    + destruct (Hden x Hx) as (e & He & ?). exists e. split; [|done]. apply elem_of_app. by left.
    + eexists. split; [apply elem_of_app; right; by left|done].
  - rewrite dials_by_app, list_to_set_app_L, dialed_after, Hd. unfold dial_of. rewrite decide_True by done. cbn. destruct o; cbn; set_solver.
  - rewrite dials_by_app. unfold dial_of. rewrite decide_True by done. cbn. destruct o; cbn; rewrite ?app_nil_r; try done.
    destruct Hm as (_ & Hnew & _). apply NoDup_app. split; [done|]. split; [|apply NoDup_singleton].
    intros x Hx ->%list_elem_of_singleton. apply Hnew. rewrite <- Hd. by apply elem_of_list_to_set.
  - rewrite dials_by_app. unfold dial_of. rewrite decide_True by done. cbn. destruct o; cbn; rewrite ?app_nil_r; try done.
    destruct Hm as (_ & _ & Hs). rewrite length_app. cbn. rewrite <- Hd, size_list_to_set in Hs by done. lia.
  - intros sx x. rewrite cert_after. intros Hx.
    assert (Hor : (∃ st, cert k = CertHeld st (Some x)) ∨ existT (P := client_answer) o a = existT Clock x).
    { destruct o; try (left; by exists sx); try done; cbn in Hx; destruct (cert k); simplify_eq; (by left; eexists) || by right. }
    destruct Hor as [[st1 Hx1]|Hx1].
    + destruct (Hcl st1 x Hx1) as (e & He & ?). exists e. split; [|done]. apply elem_of_app. by left.
    + eexists. split; [apply elem_of_app; right; by left|]. by split.
Qed.

(** ** The lock *)

Definition lock_ok (i : nat) c k : Prop :=
  match held k with
  | Free => reauth_lock c ≠ Some i
  | Held x => reauth_lock c = Some i ∧ ∀ current, x = Some current → token c = current
  end.

(** Another task's operation keeps the lock, and the token if the lock is held. *)
Lemma lock_other i j o c a c' k kj :
  effect cfg i o c a c' → client_may k o → lock_ok i c k → j ≠ i → lock_ok j c kj → lock_ok j c' kj.
Proof.
  intros He Hm Hi Hne Hj. unfold lock_ok in *. destruct o; cbn in He, Hm; destruct_and?; subst; try done.
  - destruct (held k); [done|]. destruct Hi as [Hl _]. cbn. destruct (held kj); [done|]. destruct Hj. congruence.
  - cbn. destruct (held kj); [congruence|]. destruct Hj. congruence.
  - destruct (held k); [done|]. destruct Hi as [Hl _]. cbn. destruct (held kj); [done|]. destruct Hj. congruence.
  - destruct He as (order & _ & _ & ->). done.
Qed.

Lemma held_after k o a :
  held (client_after k o a) =
    match o return client_answer o → holding with
    | LockReauth => λ _, Held None
    | UnlockReauth => λ _, Free
    | ReadToken => λ a, match held k with Held _ => Held (Some a) | Free => Free end
    | StoreToken t _ => λ _, match held k with Held _ => Held (Some (Some t)) | Free => Free end
    | _ => λ _, held k
    end a.
Proof.
  assert (Hl : ∀ t, held (add_denied t (learns k o a)) = held (learns k o a)) by done.
  unfold client_after. destruct (refused o a); [rewrite Hl|]; destruct o; cbn; repeat case_match; cbn; congruence.
Qed.

Lemma lock_self i o c a c' k :
  effect cfg i o c a c' → client_may k o → lock_ok i c k → lock_ok i c' (client_after k o a).
Proof.
  intros He Hm Hi. unfold lock_ok in *. rewrite held_after. destruct o; cbn in He, Hm; destruct_and?; subst; try done.
  - destruct (held k); [done|]. destruct Hi. split; [done|]. by intros cur [= <-].
  - destruct (held k); [done|]. destruct Hi. split; [done|]. by intros cur [= <-].
  - destruct He as (order & _ & _ & ->). done.
Qed.

(** ** The certificate *)

(** The same for its lock, and what the task knows of it. *)
Definition holder_ok (i : nat) c k : Prop :=
  match cert k with
  | CertFree => holder_lock c ≠ Some i
  | CertHeld x _ => holder_lock c = Some i ∧ ∀ st, x = Some st → holder c = st
  end.

Lemma holder_other i j o c a c' k kj :
  effect cfg i o c a c' → client_may k o → holder_ok i c k → j ≠ i → holder_ok j c kj → holder_ok j c' kj.
Proof.
  intros He Hm Hi Hne Hj. unfold holder_ok in *. destruct o; cbn in He, Hm; destruct_and?; subst; try done.
  - destruct He as (order & _ & _ & ->). done.
  - cbn. destruct (cert kj); [congruence|]. destruct Hj. congruence.
  - destruct (cert k); [done|]. destruct Hi as [Hl _]. cbn. destruct (cert kj); [done|]. destruct Hj. congruence.
  - destruct Hm as (st1 & at_ & Hk & _). rewrite Hk in Hi. destruct Hi as [Hl _]. cbn. destruct (cert kj); [done|]. destruct Hj. congruence.
Qed.

Lemma holder_self i o c a c' k :
  effect cfg i o c a c' → client_may k o → holder_ok i c k → holder_ok i c' (client_after k o a).
Proof.
  intros He Hm Hi. unfold holder_ok in *. rewrite cert_after. destruct o; cbn in He, Hm; destruct_and?; subst; try done.
  - destruct He as (order & _ & _ & ->). done.
  - destruct (cert k); [done|]. destruct Hi. split; [done|]. by intros sx [= <-].
  - destruct Hm as (st1 & at_ & Hk & _). rewrite Hk in *. destruct Hi. split; [done|]. by intros st' [= <-].
  - by destruct (cert k).
Qed.

(** The certificate of a client that started with [st0]: for the same key, under the
    same roots, its end its leaf's or no more. *)
Record sound_cert (st0 st : SessionCertState) : Prop := {
  sc_key : cs_key_pem st = cs_key_pem st0;
  sc_roots : root_ders st = root_ders st0;
  sc_clock : now_override st = now_override st0;
  sc_end : leaf_pem st = leaf_pem st0 ∧ not_after st = not_after st0 ∨ not_after st = UNIX_EPOCH ∨
    parse_not_after (leaf_pem st) = Ok (not_after st)
}.

Lemma sound_cert_next st0 st st' : next_cert st st' → sound_cert st0 st → sound_cert st0 st'.
Proof.
  intros Hn [Hk Hr Hc He]. destruct Hn as [| |fresh st' Hf]; [done|split; cbn; auto|].
  destruct (renewed_keeps _ _ _ Hf) as (Hk' & Hr' & Hc' & _ & He'). split; [congruence..|by auto].
Qed.

Lemma effect_holder i o c a c' k st0 :
  effect cfg i o c a c' → client_may k o → holder_ok i c k → sound_cert st0 (holder c) → sound_cert st0 (holder c').
Proof.
  intros He Hm Hi Hs. destruct o; cbn in He, Hm; destruct_and?; subst; try done.
  - destruct He as (order & _ & _ & ->). done.
  - destruct Hm as (st1 & at_ & Hk & Hn). unfold holder_ok in Hi. rewrite Hk in Hi. destruct Hi as [_ Hst].
    apply (sound_cert_next st0 st1); [done|]. by rewrite <- (Hst st1 eq_refl).
Qed.

(** Each request for a certificate is for the key of the one in force, and that one is
    stale at a time that the task has read. *)
Definition mint_ok (pre : list entry) (e : entry) : Prop :=
  match projT1 (what e) with
  | Http (PostCertificate _ csr request_timeout) =>
      ∃ t kc, (now_override (certified e) = Some t ∨ ∃ e', e' ∈ pre ∧ by_task e' = by_task e ∧ what e' = existT Clock t) ∧
        stale_at (certified e) t = true ∧
        session_cert_csr_from_key SESSION_CERT_CN (cs_key_pem (certified e)) = Ok kc ∧ csr = csr_pem kc ∧
        request_timeout = SESSION_CERT_REQUEST_TIMEOUT
  | _ => True
  end.
Definition mints_ok (tr : list entry) : Prop := ∀ pre e post, tr = pre ++ e :: post → mint_ok pre e.

Lemma mints_ok_app tr e : mints_ok tr → mint_ok tr e → mints_ok (tr ++ [e]).
Proof.
  intros Htr He pre x post Heq. destruct post as [|y post] using rev_ind.
  - apply app_inj_tail in Heq as [-> ->]. exact He.
  - clear IHpost. rewrite app_comm_cons, app_assoc in Heq. apply app_inj_tail in Heq as [Heq _]. by apply (Htr pre x post).
Qed.

Lemma mint_ok_after i o a c k tr :
  client_may k o → holder_ok i c k → remembers i tr k → mint_ok tr (mkEntry i (existT o a) (token c) (holder c)).
Proof.
  intros Hm Hi Hre. unfold mint_ok. cbn. destruct o; try done. destruct r; try done. cbn in Hm.
  destruct Hm as (st & at_ & t & kc & Hk & Ht & Hs & Hkc & -> & ->). unfold holder_ok in Hi. rewrite Hk in Hi.
  destruct Hi as [_ Hst]. rewrite (Hst st eq_refl). exists t, kc. split; [|done]. destruct Ht as [Ht|[_ ->]]; [by left|right].
  by apply (re_clock _ _ _ Hre (Some st)).
Qed.

(** ** The invariant *)

Record client_inv (st0 : SessionCertState) (s : client * history) (γ : gmap nat knowledge) : Prop := {
  ci_cache : cache_ok (cache s.1) s.2;
  ci_task i k : γ !! i = Some k → know_ok (cache s.1) s.2 k ∧ (lock_ok i s.1 k ∧ holder_ok i s.1 k) ∧ remembers i (trace s.2) k;
  ci_apart i j k k' p : i ≠ j → γ !! i = Some k → γ !! j = Some k' → p ∈ owned k → p ∉ owned k';
  ci_lock i : reauth_lock s.1 = Some i ∨ holder_lock s.1 = Some i → is_Some (γ !! i);
  ci_fresh i : γ !! i = None → dials_by i (trace s.2) = [];
  ci_logins : logins_ok (trace s.2);
  ci_cert : sound_cert st0 (holder s.1);
  ci_mints : mints_ok (trace s.2)
}.

Lemma known_issued m h k : cache_ok m h → know_ok m h k → known k ⊆ issued h.
Proof.
  intros [_ Hiss _ Hre] [_ Hs Hg Hd] id [[([key id'] & -> & Hp)%elem_of_map|Hid]%elem_of_union|Hid]%elem_of_union.
  - apply (Hiss (key, id')), (Hs _ Hp).
  - by apply Hre, Hg.
  - by apply Hd.
Qed.

Lemma answers_got i o a c c' h k :
  effect cfg i o c a c' → controller_ok o a h → cache_ok (cache c) h → know_ok (cache c) h k → client_gets k o a.
Proof.
  intros He Hco Hc Hk. destruct o; cbn; try done.
  - intros s ->. destruct He as [Hs _]. intros Hg%(ko_gone _ _ _ Hk).
    assert (Hat : at_key (cache c) (service_id, sd_id s)) by (unfold at_key; cbn; by rewrite <- Hs).
    by destruct (co_cached _ _ Hc _ Hat) as [_ []].
  - destruct r; try done. intros s Hs Hkn. apply (Hco s Hs). by apply (known_issued (cache c) h k).
Qed.

Lemma owned_after k o a p :
  p ∈ owned (client_after k o a) → p ∈ owned k ∨ brings o a = Some (p.1, DialSession, p.2).
Proof.
  assert (Hd : ∀ t, owned (add_denied t (learns k o a)) = owned (learns k o a)) by done.
  unfold client_after. intros Hp. assert (Hp' : p ∈ owned (learns k o a)) by (destruct (refused o a); [by rewrite Hd in Hp|done]).
  clear Hp. destruct o; cbn in Hp'; repeat case_match; try (by left); try (left; set_solver).
  cbn in Hp'. apply elem_of_union in Hp' as [->%elem_of_singleton|Hp']; [|by left]. right.
  cbn. match goal with E : do_create_session _ = _ |- _ => rewrite E end. simplify_eq. done.
Qed.

Lemma inv_perform st0 i o a k γ c h c' :
  client_inv st0 (c, h) γ → γ !! i = Some k → client_may k o → effect cfg i o c a c' → controller_ok o a h →
  client_inv st0 (c', record i o a c c' h) (<[i := client_after k o a]> γ).
Proof.
  intros [Hc Ht Hap Hl Hf Hlog Hcert Hmints] Hi Hm He Hco. cbn in *. destruct (Ht i k Hi) as (Hk & [Hlk Hhk] & Hre). split; cbn.
  - by eapply record_cache_ok.
  - intros j kj [[<- <-]|[Hne Hj]]%lookup_insert_Some.
    + split; [by apply after_know_ok|]. split; [split; [by eapply lock_self|by eapply holder_self]|by apply remembers_after].
    + destruct (Ht j kj Hj) as (Hkj & [Hlkj Hhkj] & Hrej). split.
      * eapply record_know_ok; [exact He|exact Hm|exact Hk|done|done|]. intros p Hp.
        apply (Hap i j k kj p); [done..|]. destruct o; try done. injection Hp as <-. exact Hm.
      * split; [split; [by apply (lock_other i j o c a c' k)|by apply (holder_other i j o c a c' k)]|]. by eapply remembers_other.
  - assert (Hnew : ∀ j kj p, j ≠ i → γ !! j = Some kj → p ∈ owned kj → p ∉ owned (client_after k o a)).
    { intros j kj p Hne Hj Hp [Hp'|Hb]%owned_after; [by apply (Hap i j k kj p)|].
      destruct o; try done. destruct r; try done. cbn in Hb, Hco. destruct (do_create_session a) as [s|]; [|done].
      injection Hb as -> -> Hid. apply (Hco s eq_refl). rewrite Hid. destruct (Ht j kj Hj) as ([Ho _ _ _] & _).
      by apply (co_issued _ _ Hc), Ho. }
    intros j j' kj kj' p Hne Hj Hj' Hp. apply lookup_insert_Some in Hj as [[<- <-]|[Hji Hj]], Hj' as [[<- <-]|[Hji' Hj']].
    + done.
    + intros Hp'. by apply (Hnew j' kj' p).
    + by apply (Hnew j kj p).
    + by apply (Hap j j' kj kj' p).
  - intros j Hj. destruct (decide (j = i)) as [->|Hne]; [rewrite lookup_insert_eq; by eexists|rewrite lookup_insert_ne by done].
    apply Hl. destruct o; cbn in He; destruct_and?; subst; try exact Hj; cbn in Hj; try (destruct Hj as [Hj|Hj]; try congruence; by auto).
    destruct He as (order & _ & _ & ->). exact Hj.
  - intros j [Hj Hne]%lookup_insert_None. rewrite dials_by_app, (Hf j Hj). unfold dial_of. by rewrite decide_False by done.
  - apply logins_ok_app; [done|]. cbn. intros Hlogin. destruct o; try done. destruct r; try done. cbn in Hm.
    destruct Hm as (current & t & Hheld & Hden & Hval). destruct (re_denied _ _ _ Hre t Hden) as (e & Hin & Hby & Href).
    exists e, t. unfold lock_ok in Hlk. rewrite Hheld in Hlk. destruct Hlk as [_ Hcur]. by rewrite (Hcur _ eq_refl).
  - by eapply effect_holder.
  - apply mints_ok_app; [done|by eapply mint_ok_after].
Qed.

Lemma inv_start st0 i γ s : client_inv st0 s γ → γ !! i = None → client_inv st0 s (<[i := know_nothing]> γ).
Proof.
  intros [Hc Ht Hap Hl Hf Hlog Hcert Hmints] Hi. split; [done|..|done|done|done].
  - intros j kj [[<- <-]|[Hne Hj]]%lookup_insert_Some; [|by apply Ht]. split; [|split].
    + split; cbn; set_solver.
    + split; intros Hlk; (destruct (Hl i) as [k Hk]; [by auto|congruence]).
    + split; rewrite ?(Hf i Hi); cbn; [set_solver|done|constructor|lia|done].
  - intros j j' kj kj' p Hne Hj Hj'. apply lookup_insert_Some in Hj as [[<- <-]|[Hji Hj]], Hj' as [[<- <-]|[Hji' Hj']];
      [done|cbn; set_solver..|by apply (Hap j j')].
  - intros j Hj. destruct (decide (j = i)) as [->|Hne]; [rewrite lookup_insert_eq; by eexists|rewrite lookup_insert_ne by done; auto].
  - intros j [Hj _]%lookup_insert_None. by apply Hf.
Qed.

Lemma release_other i j l : j ≠ i → release i l = Some j ↔ l = Some j.
Proof. intros Hne. unfold release. case_bool_decide; [subst; naive_solver|done]. Qed.

Lemma release_self i l : release i l ≠ Some i.
Proof. unfold release. by case_bool_decide. Qed.

Lemma inv_drop st0 i k γ s :
  client_inv st0 s γ → γ !! i = Some k → client_inv st0 (client_drops i s) (<[i := set_cert CertFree (set_held Free k)]> γ).
Proof.
  destruct s as [c h]. intros [Hc Ht Hap Hl Hf Hlog Hcert Hmints] Hi. cbn in *.
  split; cbn; [done|..|done|done|done].
  - intros j kj [[<- <-]|[Hne Hj]]%lookup_insert_Some.
    + destruct (Ht i k Hi) as ([] & Hlk & []). split; [by split|]. split; [|by split].
      split; unfold lock_ok, holder_ok; cbn; apply release_self.
    + destruct (Ht j kj Hj) as (Hkj & [Hlkj Hhkj] & Hrej). split; [done|]. split; [|done].
      split; unfold lock_ok, holder_ok, drop_guard in *; cbn; [destruct (held kj)|destruct (cert kj)]; by rewrite release_other.
  - intros j j' kj kj' p Hne Hj Hj'. apply lookup_insert_Some in Hj as [[<- <-]|[Hji Hj]], Hj' as [[<- <-]|[Hji' Hj']];
      [done|cbn..|by apply (Hap j j')]; [by apply (Hap i j')|by apply (Hap j i)].
  - intros j Hj. destruct (decide (j = i)) as [->|Hne]; [rewrite lookup_insert_eq; by eexists|rewrite lookup_insert_ne by done].
    apply Hl. cbn in Hj. by rewrite !release_other in Hj by done.
  - intros j [Hj _]%lookup_insert_None. by apply Hf.
Qed.

Lemma client_sound st0 : sound client_logic performs client_drops (client_job cfg) know_nothing (client_inv st0).
Proof.
  split.
  - intros i o a k γ [c h] [c' h'] Hinv Hi Hm (He & Hco & Hh). cbn in He, Hco, Hh. subst h'.
    destruct (ci_task _ _ _ Hinv i k Hi) as (Hk & _). split; [|by apply inv_perform].
    eapply answers_got; [exact He|exact Hco|apply Hinv|exact Hk].
  - intros i γ s. apply inv_start.
  - intros i k γ s. apply inv_drop.
  - apply wp_job.
Qed.

Lemma client_reachable c w : idle c → rtc (client_step cfg) (client_start c) w → ∃ γ, client_inv (holder c) (shared w) γ.
Proof.
  intros (Hlock & Hcertlock & Hcache) Hw.
  destruct (pool_reachable_ok client_logic performs client_drops (client_job cfg) know_nothing (client_inv (holder c)) (client_start c) w (client_sound (holder c)))
    as (γ & Hinv & _); [|exact Hw|by exists γ].
  exists ∅. cbn. split; [|by intros i; rewrite !lookup_empty].
  split; cbn; rewrite ?Hcache; try done.
  - split; cbn; [|set_solver..]. intros p Hp. by unfold at_key in Hp.
  - rewrite Hlock, Hcertlock. by intros i [|].
  - intros pre e post Heq. by destruct pre.
  - split; auto.
  - intros pre e post Heq. by destruct pre.
Qed.

(** ** Properties *)

(** C3. The cache of Dial sessions is sound in every interleaving of the client's
    tasks - connections, listings, polls, the two refresh timers, re-authentications,
    any of them dropped at any point - against a controller that issues each session
    id once: a session cached under a service is one that the controller created for
    that service, and a session that left the cache - evicted, purged, replaced or
    cleared - never comes back to it, whatever probes of it were under way. *)
Theorem dial_cache_sound c w key s :
  idle c → rtc (client_step cfg) (client_start c) w → cache (shared w).1 !! key = Some s →
  (key, sd_id s) ∈ created (shared w).2 ∧ sd_id s ∉ retired (shared w).2.
Proof.
  intros Hidle Hw Hs. destruct (client_reachable c w Hidle Hw) as [γ Hinv].
  apply (co_cached _ _ (ci_cache _ _ _ Hinv) (key, sd_id s)). unfold at_key. cbn. by rewrite Hs.
Qed.

(** C11. A login is always needed: in every interleaving, a task sends a login only
    after a request of its own was refused under the very token that is current when
    it logs in; of many tasks refused under one token, those that come after the one
    that replaced it take the new token and send nothing. *)
Theorem logins_are_needed c w pre e post :
  idle c → rtc (client_step cfg) (client_start c) w → trace (shared w).2 = pre ++ e :: post → is_login e = true →
  ∃ e' t, e' ∈ pre ∧ by_task e' = by_task e ∧ refusal e' = Some t ∧ channel_token_value (under e) = Some (channel_token t).
Proof. intros Hidle Hw. destruct (client_reachable c w Hidle Hw) as [γ Hinv]. apply (ci_logins _ _ _ Hinv). Qed.

(** C12. A connection dials at most twice, and never the same session: whatever other
    tasks do to the cache between its first dial and its retry, the session it gets
    to retry with is not the one whose dial failed - if the controller issues each
    session id once. *)
Theorem retry_dials_another_session c w i :
  idle c → rtc (client_step cfg) (client_start c) w →
  NoDup (dials_by i (trace (shared w).2)) ∧ (length (dials_by i (trace (shared w).2)) <= 2)%nat.
Proof.
  intros Hidle Hw. destruct (client_reachable c w Hidle Hw) as [γ Hinv]. destruct (γ !! i) as [k|] eqn:Hi.
  - destruct (ci_task _ _ _ Hinv i k Hi) as (_ & _ & []). done.
  - rewrite (ci_fresh _ _ _ Hinv i Hi). split; [constructor|cbn; lia].
Qed.

(** C4. The session certificate in every interleaving, with renewals, re-authentications
    and tasks dropped while they renew it: it stays a certificate for the client's key
    under the client's roots, its end is its leaf's or the epoch that forces a renewal,
    and a new one is asked for only for that key, with a time limit, by a task that has
    read the clock and found the one in force stale. *)
Theorem session_cert_sound c w :
  idle c → rtc (client_step cfg) (client_start c) w →
  sound_cert (holder c) (holder (shared w).1) ∧
  ∀ pre e post, trace (shared w).2 = pre ++ e :: post → mint_ok pre e.
Proof.
  intros Hidle Hw. destruct (client_reachable c w Hidle Hw) as [γ Hinv]. split; [apply (ci_cert _ _ _ Hinv)|apply (ci_mints _ _ _ Hinv)].
Qed.

End safety.

(** ** Witness *)

(** A connection of a client whose API session has ended and whose cache is empty: the
    listing is refused, the client logs in again and lists, creates a session, renews
    the certificate that the login has invalidated, opens a channel to a router, which
    does not know the session, and dials with another. *)
Definition demo_fresh (l : list string) : string := foldr (λ s acc, s +:+ acc) "s" l.

Lemma demo_fresh_length l s : s ∈ l → (String.length s < String.length (demo_fresh l))%nat.
Proof.
  assert (Hlen : ∀ a b, String.length (a +:+ b) = (String.length a + String.length b)%nat) by (intros a b; induction a as [|x a IHa]; [done|]; exact (f_equal S IHa)).
  assert (Hpos : ∀ l, (0 < String.length (demo_fresh l))%nat) by (intros l'; induction l' as [|x l' IHl]; [cbn; lia|]; change (0 < String.length (x +:+ demo_fresh l'))%nat; rewrite Hlen; lia).
  induction l as [|x l IH]; [by intros ?%not_elem_of_nil|].
  change (demo_fresh (x :: l)) with (x +:+ demo_fresh l). rewrite Hlen. intros [->|Hs]%elem_of_cons.
  - specialize (Hpos l). lia.
  - specialize (IH Hs). lia.
Qed.

#[local] Existing Instances demo_tls demo_enroll demo_cert demo_bodies.
Definition demo_hosted : @Service string_json := mkService "svc" "svc" false ["Dial"] ∅ [].
Definition demo_outside (h : history) (o : client_op) : client_answer o :=
  match o with
  | Http (PostAuthenticate _ _) => Response 200 (Ok "new")
  | Http (PostSession _ _ _) => Response 201 (Ok (demo_fresh (elements (issued h))))
  | Http (GetSession _ id) => Response 200 (Ok id)
  | Http (PostCertificate _ _ _) => Response 201 (Ok (ders_to_pem [[5]]))
  | Http r => NoResponse "closed"
  | ListServices t _ => if bool_decide (t = Legacy "new") then Ok [demo_hosted] else Err (ServicesHttp 401 "UNAUTHORIZED" "")
  | FanOut _ _ _ _ => Ok 7
  | DialService _ s _ _ => if bool_decide (sd_id s = "s") then Err (DialRejected "invalid session") else Ok 1
  | o => demo_reply o
  end.

Lemma demo_outside_ok h o : controller_ok o (demo_outside h o) h.
Proof.
  destruct o; try done. destruct r; try done; cbn.
  - intros s [= <-]. cbn. intros Hin%elem_of_elements%demo_fresh_length. lia.
  - by intros d [= <-].
Qed.

Definition demo_client : @client string_json := mkClient (Some (Legacy "old")) None None (mkPoll None watcher_new ∅) demo_expiring None.
Definition demo_task : task (client_sig) unit := _ ← connect_flow demo_config "svc" 1000 None; mret tt.
Definition demo_after : @client string_json * history :=
  match alone demo_config demo_outside 0 demo_task demo_client no_history with
  | Some (_, c, h) => (c, h)
  | None => (demo_client, no_history)
  end.
Definition demo_world : client_world := mkWorld demo_after (<[0%nat := Return tt]> (<[0%nat := demo_task]> ∅)).

Lemma demo_reached : rtc (client_step demo_config) (client_start demo_client) demo_world.
Proof.
  unfold demo_world. destruct demo_after as [c h] eqn:E. unfold demo_after in E.
  destruct (alone demo_config demo_outside 0 demo_task demo_client no_history) as [[[[] c'] h']|] eqn:Ea.
  - injection E as <- <-. apply (alone_reaches demo_config demo_outside); [apply job_connect|apply demo_outside_ok|exact Ea].
  - exfalso. assert (Hs : (if alone demo_config demo_outside 0 demo_task demo_client no_history then true else false) = true)
      by (vm_compute; reflexivity).
    by rewrite Ea in Hs.
Qed.

Lemma demo_long n : trace demo_after.2 !! n = None → (n < length (trace demo_after.2))%nat → False.
Proof. intros Hn%lookup_ge_None. lia. Qed.

Lemma dial_cache_sound_witness :
  (sd_id <$> cache demo_after.1 !! "svc") = Some "ss" ∧ ("svc", "ss") ∈ created demo_after.2 ∧ "ss" ∉ retired demo_after.2.
Proof.
  split; [vm_compute; reflexivity|].
  apply (dial_cache_sound demo_config demo_client demo_world "svc" (demo_session "ss" [demo_router])).
  - split_and!; reflexivity.
  - apply demo_reached.
  - vm_compute. reflexivity.
Defined.

Lemma retry_dials_another_session_witness :
  dials_by 0 (trace demo_after.2) = ["s"; "ss"] ∧ NoDup (dials_by 0 (trace demo_after.2)).
Proof.
  split; [vm_compute; reflexivity|].
  refine (proj1 (retry_dials_another_session demo_config demo_client demo_world 0 _ _)); [split_and!; reflexivity|apply demo_reached].
Defined.

(** The login is the fifth operation. *)
Lemma logins_are_needed_witness :
  ∃ e e' t, trace demo_after.2 !! 4%nat = Some e ∧ is_login e = true ∧
    e' ∈ take 4 (trace demo_after.2) ∧ refusal e' = Some t ∧ channel_token_value (under e) = Some (channel_token t).
Proof.
  destruct (trace demo_after.2 !! 4%nat) as [e|] eqn:He; [|exfalso; by apply (demo_long 4) in He; [|vm_compute; lia]].
  assert (Hl : is_login e = true) by (vm_compute in He; injection He as <-; reflexivity).
  destruct (logins_are_needed demo_config demo_client demo_world (take 4 (trace demo_after.2)) e (drop 5 (trace demo_after.2)))
    as (e' & t & Hin & _ & Hr & Ht).
  - split_and!; reflexivity.
  - apply demo_reached.
  - symmetry. by apply take_drop_middle.
  - exact Hl.
  - exists e, e', t. exact (conj eq_refl (conj Hl (conj Hin (conj Hr Ht)))).
Defined.

(** The request for a certificate is the 26th operation. *)
Lemma session_cert_sound_witness :
  ∃ e, trace demo_after.2 !! 25%nat = Some e ∧
    projT1 (what e) = Http (PostCertificate (Legacy "new") "csr of apiSession" SESSION_CERT_REQUEST_TIMEOUT) ∧
    leaf_pem (holder demo_after.1) = pem_block [5] ∧
    sound_cert (holder demo_client) (holder demo_after.1) ∧ mint_ok (take 25 (trace demo_after.2)) e.
Proof.
  destruct (session_cert_sound demo_config demo_client demo_world) as [Hs Hm]; [split_and!; reflexivity|apply demo_reached|].
  destruct (trace demo_after.2 !! 25%nat) as [e|] eqn:He; [|exfalso; by apply (demo_long 25) in He; [|vm_compute; lia]].
  exists e. split; [reflexivity|]. split; [vm_compute in He; injection He as <-; reflexivity|]. split; [vm_compute; reflexivity|].
  split; [exact Hs|]. apply (Hm _ _ (drop 26 (trace demo_after.2))). symmetry. by apply take_drop_middle.
Defined.
