(* ===== verification/OidcLogin.v ===== *)
(** * The OIDC login: [src/edge/oidc/]

    The PKCE flow as a conversation: authorize, login, the TOTP step, the callback and
    the exchange of the code, and the exchange that refreshes a token.  Proved: each
    request is sent only when what came before calls for it, tokens come only out of a
    conversation whose [state] and [nonce] are ours, and a controller that follows the
    protocol logs the client in. *)

From S2P Require Import Prelude Utf8 Message EdgeWire Address Services Rest Tasks Http.

Local Open Scope string_scope.
Local Open Scope task_scope.

(** ** Data *)

Record Pkce : Type := mkPkce { verifier : string; challenge : string }.

Inductive OidcGrant : Type :=
| CertGrant
| PasswordGrant (username password : string)
| ExtJwtGrant (jwt : string).

Record OidcTokens : Type := mkTokens {
  access : string;
  refresh : option string;
  expires_in : Z;
  identity_name : option string
}.

Record RefreshedOidc : Type := mkRefreshed { ro_access : string; ro_refresh : option string; ro_expires_in : Z }.

Record TokenResponse : Type := mkTokenResponse {
  access_token : string;
  tr_refresh_token : option string;
  tr_expires_in : Z;
  id_token : option string
}.

Record IdTokenClaims : Type := mkClaims { claim_name : option string; claim_nonce : option string }.
Record AuthQuery : Type := mkAuthQuery { type_id : string; q_totp_enrolled : bool }.

Definition DEFAULT_REDIRECT_URI : string := "http://localhost:8080/auth/callback".
Definition GRANT_TYPE_TOKEN_EXCHANGE : string := "urn:ietf:params:oauth:grant-type:token-exchange".
Definition TOKEN_TYPE_REFRESH : string := "urn:ietf:params:oauth:token-type:refresh_token".
Definition TOTP_REQUIRED_HEADER : string := "totp-required".

Definition login_segment (g : OidcGrant) : string :=
  match g with CertGrant => "cert" | PasswordGrant _ _ => "password" | ExtJwtGrant _ => "ext-jwt" end.

(** The libraries: [base64], [sha2], [url] and what [serde_json] reads and prints. *)
Class OidcLib := {
  b64url_nopad : list Z → string;
  b64url_decode : string → result string (list Z);
  sha256 : list Z → list Z;
  form_urlencoded : list (string * string) → string;
  url_query_pairs : string → result string (list (string * string));
  id_json : string → string;
  code_id_json : string → string → string;
  token_response_json : string → result string TokenResponse;
  claims_json : list Z → result string IdTokenClaims;
  auth_queries_json : string → result string (list AuthQuery);
  detail_mfa_json : string → result string string
}.

Definition non_empty (s : string) : bool := negb (bool_decide (s = "")).
Definition filter_option {A} (p : A → bool) (o : option A) : option A := match o with Some a => if p a then Some a else None | None => None end.
Definition unwrap_or {E A} (a : A) (r : result E A) : A := match r with Ok x => x | Err _ => a end.

(** What comes before the first of some characters. *)
Fixpoint before_any (stop : ascii → bool) (s : string) : string :=
  match s with String a s => if stop a then "" else String a (before_any stop s) | EmptyString => "" end.

Section oidc.
Context `{TlsLib} `{OidcLib}.

(** ** wire.rs *)

Definition authorize_url (base : string) (pkce : Pkce) (state nonce : string) : string :=
  base +:+ "/oidc/authorize?" +:+ form_urlencoded
    [("client_id", "native"); ("response_type", "code"); ("scope", "openid offline_access"); ("state", state);
     ("code_challenge", challenge pkce); ("code_challenge_method", "S256"); ("redirect_uri", DEFAULT_REDIRECT_URI); ("nonce", nonce)].

Definition extract_auth_request_id (location : string) : option string :=
  filter_option non_empty
    ('(_, rest) ← split_once_str "authRequestID=" location; Some (before_any (λ a, bool_decide (a = "&"%char ∨ a = "#"%char)) rest)).

(** The last of the pairs with the key. *)
Definition query_value (key : string) (pairs : list (string * string)) : option string :=
  foldl (λ acc kv, if bool_decide (kv.1 = key) then Some kv.2 else acc) None pairs.

Definition extract_code (location expected_state : string) : result EdgeError string :=
  match url_query_pairs location with
  | Err e => Err (OidcResponse ("callback location not a url: " +:+ e))
  | Ok pairs =>
      if bool_decide (query_value "state" pairs = Some expected_state)
      then ok_or (OidcResponse "no code in callback") (filter_option non_empty (query_value "code" pairs))
      else Err (OidcResponse "state mismatch in callback")
  end.

Definition absolutize (base location : string) : string :=
  if starts_with "http://" location || starts_with "https://" location then location else base +:+ location.

Definition location_of (resp : response) (step : string) : result EdgeError string :=
  ok_or (OidcResponse (step +:+ ": no Location header")) (header resp "location").

Definition oidc_http_err (step : string) (resp : response) : EdgeError :=
  OidcHttp (status resp) step (take_chars 200 (unwrap_or "" (text resp))).

(** ** pkce.rs *)

Definition new_pkce : task net Pkce :=
  raw ← perform (Σ := net) (Random 32);
  let v := b64url_nopad raw in
  mret (mkPkce v (b64url_nopad (sha256 (bytes_of_string v)))).

Definition new_state : task net string := raw ← perform (Σ := net) (Random 16); mret (b64url_nopad raw).
Definition new_nonce : task net string := raw ← perform (Σ := net) (Random 32); mret (b64url_nopad raw).

(** ** token.rs *)

Definition second_segment (jwt : string) : option string :=
  '(_, rest) ← split_once "."%char jwt; Some (before_any (λ a, bool_decide (a = "."%char)) rest).

Definition decode_id_token_claims (jwt : string) : result EdgeError IdTokenClaims :=
  payload_b64 ← ok_or (OidcResponse "id_token is not a JWT") (second_segment jwt);
  bytes ← map_err (λ e, OidcResponse ("id_token base64: " +:+ e)) (b64url_decode payload_b64);
  map_err (λ e, OidcResponse ("id_token json: " +:+ e)) (claims_json bytes).

Definition parse_token_response (body expected_nonce : string) : result EdgeError OidcTokens :=
  tr ← map_err (λ e, OidcResponse ("token response json: " +:+ e)) (token_response_json body);
  idt ← ok_or (OidcResponse "nonce mismatch in id_token") (id_token tr);
  claims ← decode_id_token_claims idt;
  if bool_decide (claim_nonce claims = Some expected_nonce)
  then Ok (mkTokens (access_token tr) (filter_option non_empty (tr_refresh_token tr)) (tr_expires_in tr) (claim_name claims))
  else Err (OidcResponse "nonce mismatch in id_token").

(** ** totp.rs *)

Definition parse_provisioning_url (body : string) : string := unwrap_or "" (detail_mfa_json body).

Definition is_totp_enrolled (body : string) : bool :=
  match auth_queries_json body with
  | Ok queries => match List.find (λ q, bool_decide (type_id q = "TOTP")) queries with Some q => q_totp_enrolled q | None => true end
  | Err _ => true
  end.

Definition totp_required (resp : response) : bool :=
  match header resp TOTP_REQUIRED_HEADER with Some v => non_empty v | None => false end.

Context (http : http_client) (base : string).

Definition get (url : string) : request := mkRequest GET url [] None None.
Definition post (url content_type : string) (body : string) : request :=
  mkRequest POST url [("Content-Type", content_type)] (Some body) None.
Definition post_json (url body : string) : request := post url "application/json" body.
Definition post_form (url : string) (pairs : list (string * string)) : request :=
  post url "application/x-www-form-urlencoded" (form_urlencoded pairs).

Definition totp_request (code id : string) : request := post_json (base +:+ "/oidc/login/totp") (code_id_json code id).
Definition enroll_request (id : string) : request := post_json (base +:+ "/oidc/login/totp/enroll") (id_json id).
Definition verify_request (code id : string) : request := post_json (base +:+ "/oidc/login/totp/enroll/verify") (code_id_json code id).

(** [send] with the step's name before the error. *)
Definition ask (step : string) (r : request) : task net (result EdgeError response) :=
  x ← send http r; mret (map_err (λ e, OidcResponse (step +:+ ": " +:+ e)) x).

(** The status of a submitted code. *)
Definition submitted (step : string) (rejected : EdgeError) (further : string) (resp : response) : result EdgeError string :=
  if (status resp =? FOUND)%Z then absolutize base <$> location_of resp step
  else if (status resp =? BAD_REQUEST)%Z then Err rejected
  else if (status resp =? OK)%Z then Err (OidcResponse further)
  else Err (oidc_http_err step resp).

Definition handle_totp_enrollment (auth_request_id : string) (enroll_handler : bool) : task net (result EdgeError string) :=
  if enroll_handler then
    resp ←! ask "totp enroll start" (enroll_request auth_request_id);
    if negb (status resp =? CREATED)%Z then mret (Err (oidc_http_err "totp enroll start" resp)) else
    detail ←! mret (map_err (λ e, OidcResponse ("totp enroll start body: " +:+ e)) (text resp));
    let provisioning_url := parse_provisioning_url detail in
    if bool_decide (provisioning_url = "") then mret (Err (OidcResponse "totp enrollment response did not contain a provisioning URL")) else
    r ← perform (Σ := net) (AskEnrollment provisioning_url);
    code ←! mret (map_err TotpProvider r);
    resp ←! ask "totp enroll verify" (verify_request code auth_request_id);
    mret (submitted "totp enroll verify" TotpEnrollmentCodeRejected
      "totp enrollment verified, but additional authentication is required that is not supported or not configured, cannot authenticate" resp)
  else mret (Err TotpEnrollmentRequired).

Definition handle_totp_secondary_auth (resp : response) (auth_request_id : string) (totp_provider enroll_handler : bool)
    : task net (result EdgeError string) :=
  if negb (totp_required resp)
  then mret (Err (OidcResponse "login returned 200 without the totp-required header: an unknown additional authentication step is required but unsupported"))
  else
  let body := unwrap_or "" (text resp) in
  if negb (is_totp_enrolled body) then handle_totp_enrollment auth_request_id enroll_handler else
  if negb totp_provider then mret (Err TotpProviderRequired) else
  r ← perform (Σ := net) AskCode;
  code ←! mret (map_err TotpProvider r);
  resp ←! ask "totp submit" (totp_request code auth_request_id);
  mret (submitted "totp" TotpCodeRejected
    "totp code verified, but additional authentication is required that is not supported" resp).

(** ** flow.rs *)

Context (grant : OidcGrant) (totp_provider enroll_handler : bool).

Definition authorize_request (pkce : Pkce) (state nonce : string) : request := get (authorize_url base pkce state nonce).

Definition login_request (id : string) : request :=
  let '(username, password) := match grant with PasswordGrant u p => (u, p) | _ => ("", "") end in
  let r := post_form (base +:+ "/oidc/login/" +:+ login_segment grant) [("id", id); ("username", username); ("password", password)] in
  match grant with
  | ExtJwtGrant jwt => mkRequest (r_method r) (r_url r) (r_headers r ++ [("Authorization", "Bearer " +:+ jwt)]) (r_body r) (r_timeout r)
  | _ => r
  end.

Definition token_request (pkce : Pkce) (code : string) : request :=
  post_form (base +:+ "/oidc/oauth/token")
    [("grant_type", "authorization_code"); ("client_id", "native"); ("code_verifier", verifier pkce); ("code", code);
     ("redirect_uri", DEFAULT_REDIRECT_URI)].

(** The login leg, to the [Location] of the callback. *)
Definition oidc_login (auth_request_id : string) : task net (result EdgeError string) :=
  resp ←! ask "login" (login_request auth_request_id);
  if (status resp =? FOUND)%Z then mret (absolutize base <$> location_of resp "login")
  else if (status resp =? OK)%Z then handle_totp_secondary_auth resp auth_request_id totp_provider enroll_handler
  else mret (Err (oidc_http_err "login" resp)).

Definition exchange_code (pkce : Pkce) (nonce code : string) : task net (result EdgeError OidcTokens) :=
  resp ←! ask "token exchange" (token_request pkce code);
  if negb (status resp =? OK)%Z then mret (Err (oidc_http_err "token exchange" resp)) else
  body ←! mret (map_err (λ e, OidcResponse ("token exchange body: " +:+ e)) (text resp));
  mret (parse_token_response body nonce).

Definition oidc_authenticate : task net (result EdgeError OidcTokens) :=
  pkce ← new_pkce;
  state ← new_state;
  nonce ← new_nonce;
  resp ←! ask "authorize" (authorize_request pkce state nonce);
  if negb (status resp =? FOUND)%Z then mret (Err (oidc_http_err "authorize" resp)) else
  login_loc ←! mret (location_of resp "authorize");
  auth_request_id ←! mret (ok_or (OidcResponse "no authRequestID in authorize redirect") (extract_auth_request_id login_loc));
  callback_loc ←! oidc_login auth_request_id;
  resp ←! ask "callback" (get callback_loc);
  if negb (status resp =? FOUND)%Z then mret (Err (oidc_http_err "callback" resp)) else
  redirect_loc ←! mret (location_of resp "callback");
  code ←! mret (extract_code redirect_loc state);
  exchange_code pkce nonce code.

(** ** refresh_grant.rs *)

Definition parse_refresh_response (body : string) : result EdgeError RefreshedOidc :=
  tr ← map_err (λ e, OidcResponse ("refresh response json: " +:+ e)) (token_response_json body);
  Ok (mkRefreshed (access_token tr) (filter_option non_empty (tr_refresh_token tr)) (tr_expires_in tr)).

Definition refresh_request (refresh_token : string) (request_timeout : Z) : request :=
  let r := post_form (base +:+ "/oidc/oauth/token")
    [("grant_type", GRANT_TYPE_TOKEN_EXCHANGE); ("client_id", "native"); ("subject_token", refresh_token);
     ("subject_token_type", TOKEN_TYPE_REFRESH); ("requested_token_type", TOKEN_TYPE_REFRESH)] in
  mkRequest (r_method r) (r_url r) (r_headers r) (r_body r) (Some request_timeout).

Definition do_oidc_refresh (refresh_token : string) (request_timeout : Z) : task net (result EdgeError RefreshedOidc) :=
  resp ←! ask "oidc refresh" (refresh_request refresh_token request_timeout);
  if negb (status resp =? OK)%Z then mret (Err (oidc_http_err "oidc refresh" resp)) else
  body ←! mret (map_err (λ e, OidcResponse ("oidc refresh body: " +:+ e)) (text resp));
  mret (parse_refresh_response body).

End oidc.

Local Close Scope string_scope.

(** ** When a request may be sent *)

Create HintDb oidc.

Section oidc_spec.
Context `{TlsLib} `{OidcLib} (http : http_client) (base : string) (grant : OidcGrant) (totp_provider enroll_handler : bool).

(** What happened before the login. *)
Context (start : history).

Definition pkce_of (raw : list Z) : Pkce := mkPkce (b64url_nopad raw) (b64url_nopad (sha256 (bytes_of_string (b64url_nopad raw)))).

(** The secrets of the login: drawn first. *)
Definition drawn (h : history) (pkce : Pkce) (state nonce : string) : Prop :=
  ∃ r1 r2 r3, start ++ [ev (Random 32) r1] ++ [ev (Random 16) r2] ++ [ev (Random 32) r3] `prefix_of` h ∧
    pkce = pkce_of r1 ∧ state = b64url_nopad r2 ∧ nonce = b64url_nopad r3.

(** The last of the pairs with a key has the value. *)
Definition carries (pairs : list (string * string)) (key value : string) : Prop :=
  ∃ before after, pairs = before ++ (key, value) :: after ∧ key ∉ after.*1.

(** The place a callback goes to: our state, and a code. *)
Definition calls_back (loc state code : string) : Prop :=
  ∃ pairs, url_query_pairs loc = Ok pairs ∧ carries pairs "state"%string state ∧ carries pairs "code"%string code ∧ code ≠ ""%string.

(** A reply to a request redirects to a place. *)
Definition redirected (h : history) (r : request) (loc : string) : Prop :=
  ∃ p, said h http r p ∧ status p = FOUND ∧ header p "location"%string = Some loc.

Definition login_began (h : history) (id : string) : Prop :=
  ∃ pkce state nonce loc, drawn h pkce state nonce ∧ redirected h (authorize_request base pkce state nonce) loc ∧
    extract_auth_request_id loc = Some id.

(** The login asked for a second factor; whether the identity has one. *)
Definition totp_demanded (h : history) (id : string) (enrolled : bool) : Prop :=
  login_began h id ∧ ∃ p, said h http (login_request base grant id) p ∧ status p = OK ∧ totp_required p = true ∧
    is_totp_enrolled (unwrap_or ""%string (text p)) = enrolled.

(** An enrolment was started, and gave an URL. *)
Definition provisioned (h : history) (id url : string) : Prop :=
  ∃ p d, said h http (enroll_request base id) p ∧ status p = CREATED ∧ text p = Ok d ∧ parse_provisioning_url d = url ∧ url ≠ ""%string.

Inductive may_send (h : history) : request → Prop :=
| may_authorize pkce state nonce :
    drawn h pkce state nonce → may_send h (authorize_request base pkce state nonce)
| may_login id :
    login_began h id → may_send h (login_request base grant id)
| may_totp id code :
    totp_demanded h id true → totp_provider = true → ev AskCode (Ok code) ∈ h → may_send h (totp_request base code id)
| may_enroll id :
    totp_demanded h id false → enroll_handler = true → may_send h (enroll_request base id)
| may_verify id url code :
    totp_demanded h id false → provisioned h id url → ev (AskEnrollment url) (Ok code) ∈ h → may_send h (verify_request base code id)
| may_callback id r loc :
    login_began h id →
    r = login_request base grant id ∨ (∃ code, r = totp_request base code id) ∨ (∃ code, r = verify_request base code id) →
    redirected h r loc → may_send h (get (absolutize base loc))
| may_exchange pkce state nonce cb loc code :
    drawn h pkce state nonce → redirected h (get cb) loc → calls_back loc state code → may_send h (token_request base pkce code).

Definition oidc_may (h : history) (o : net_op) : Prop :=
  match o with
  | Send c r => c = http ∧ may_send h r
  | Random _ => True
  | AskCode => totp_provider = true ∧ ∃ id, totp_demanded h id true
  | AskEnrollment url => enroll_handler = true ∧ ∃ id, totp_demanded h id false ∧ provisioned h id url
  | _ => False
  end.

(** Tokens that come out of this conversation. *)
Definition granted (h : history) (tokens : OidcTokens) : Prop :=
  ∃ pkce state nonce cb loc code p body tr idt claims,
    drawn h pkce state nonce ∧ redirected h (get cb) loc ∧ calls_back loc state code ∧
    said h http (token_request base pkce code) p ∧ status p = OK ∧ text p = Ok body ∧
    token_response_json body = Ok tr ∧ id_token tr = Some idt ∧ decode_id_token_claims idt = Ok claims ∧ claim_nonce claims = Some nonce ∧
    tokens = mkTokens (access_token tr) (filter_option non_empty (tr_refresh_token tr)) (tr_expires_in tr) (claim_name claims).

(** ** Lemmas *)

Lemma drawn_prefix h h' pkce state nonce : h `prefix_of` h' → drawn h pkce state nonce → drawn h' pkce state nonce.
Proof. intros Hp (r1 & r2 & r3 & Hd & E). exists r1, r2, r3. split; [by etrans|done]. Qed.

Lemma redirected_prefix h h' r loc : h `prefix_of` h' → redirected h r loc → redirected h' r loc.
Proof. intros Hp (p & Hs & E). exists p. split; [by eapply said_prefix|done]. Qed.

Lemma login_began_prefix h h' id : h `prefix_of` h' → login_began h id → login_began h' id.
Proof.
  intros Hp (k & s & n & loc & Hd & Hr & E). exists k, s, n, loc.
  split_and!; [by eapply drawn_prefix|by eapply redirected_prefix|done].
Qed.

Lemma totp_demanded_prefix h h' id b : h `prefix_of` h' → totp_demanded h id b → totp_demanded h' id b.
Proof. intros Hp (Hl & p & Hs & E). split; [by eapply login_began_prefix|]. exists p. split; [by eapply said_prefix|done]. Qed.

Lemma provisioned_prefix h h' id url : h `prefix_of` h' → provisioned h id url → provisioned h' id url.
Proof. intros Hp (p & d & Hs & E). exists p, d. split; [by eapply said_prefix|done]. Qed.

Lemma prefix_one (h : history) e : h `prefix_of` h ++ [e].
Proof. by exists [e]. Qed.

#[local] Hint Resolve drawn_prefix redirected_prefix login_began_prefix totp_demanded_prefix provisioned_prefix prefix_one : oidc.

Lemma location_of_Ok p step loc : location_of p step = Ok loc → header p "location"%string = Some loc.
Proof. unfold location_of. destruct (header p "location"%string); cbn; congruence. Qed.

Lemma parse_token_response_Ok body nonce tokens :
  parse_token_response body nonce = Ok tokens →
  ∃ tr idt claims, token_response_json body = Ok tr ∧ id_token tr = Some idt ∧ decode_id_token_claims idt = Ok claims ∧
    claim_nonce claims = Some nonce ∧
    tokens = mkTokens (access_token tr) (filter_option non_empty (tr_refresh_token tr)) (tr_expires_in tr) (claim_name claims).
Proof.
  unfold parse_token_response. destruct (token_response_json body) as [tr|e]; cbn; [|done]. destruct (id_token tr) as [idt|] eqn:Ei; cbn; [|done].
  destruct (decode_id_token_claims idt) as [claims|e] eqn:Ec; cbn; [|done]. case_bool_decide; intros [= <-]. by exists tr, idt, claims.
Qed.

Lemma query_value_carries key value pairs : query_value key pairs = Some value ↔ carries pairs key value.
Proof.
  unfold query_value. induction pairs as [|[k v] pairs IH] using rev_ind; cbn.
  { split; [done|]. by intros ([|? ?] & ? & ? & _). }
  rewrite foldl_app. cbn. case_bool_decide as Hk.
  - subst k. split; [intros [= ->]; by exists pairs, []; split; [|apply not_elem_of_nil]|]. intros (b & a & E & Ha).
    destruct a as [|x a _] using rev_ind; [by apply app_inj_tail in E as [_ [= ->]]|].
    rewrite app_comm_cons, app_assoc in E. apply app_inj_tail in E as [_ <-]. rewrite fmap_app in Ha. set_solver.
  - rewrite IH. split; intros (b & a & E & Ha).
    + exists b, (a ++ [(k, v)]). rewrite E, <- app_assoc. split; [done|]. rewrite fmap_app. set_solver.
    + destruct a as [|x a _] using rev_ind; [by apply app_inj_tail in E as [_ [= -> _]]|].
      rewrite app_comm_cons, app_assoc in E. apply app_inj_tail in E as [-> _]. exists b, a. split; [done|].
      rewrite fmap_app in Ha. set_solver.
Qed.

Lemma extract_code_spec loc state code : extract_code loc state = Ok code ↔ calls_back loc state code.
Proof.
  unfold extract_code, calls_back. destruct (url_query_pairs loc) as [pairs|e]; [|by split; [|intros (? & ? & _)]].
  setoid_rewrite <- query_value_carries. case_bool_decide as Hs.
  - destruct (query_value "code"%string pairs) as [c|] eqn:Ec; cbn.
    2: { split; [done|]. intros (? & [= <-] & _ & ? & _). congruence. }
    unfold non_empty. case_bool_decide as Hc; cbn; (split; [intros [= <-]|intros (? & [= <-] & _ & Ec' & Hn)]); try done.
    + congruence.
    + by exists pairs.
    + rewrite Ec in Ec'. by injection Ec' as ->.
  - split; [done|]. by intros (? & [= <-] & ? & _).
Qed.

(** The callback that a redirection names. *)
Definition callback_of (h : history) (loc : string) : Prop := ∃ l, loc = absolutize base l ∧ may_send h (get (absolutize base l)).

Lemma submitted_spec h id r l p step rejected further loc :
  login_began h id → (∃ code, r = totp_request base code id) ∨ (∃ code, r = verify_request base code id) →
  submitted base step rejected further p = Ok loc → callback_of (h ++ [ev (Send http r) (l, Ok p)]) loc.
Proof.
  intros Hl Hr. unfold submitted. destruct (Z.eqb_spec (status p) FOUND) as [Hf|]; [|by repeat case_match].
  destruct (location_of p step) as [lc|e] eqn:E; intros [= <-]. exists lc. split; [done|].
  apply (may_callback _ id r); [eauto with oidc|by right|]. exists p. split_and!; [apply said_last|done|by eapply location_of_Ok].
Qed.

Local Notation to_callback := (λ r h, match r with Ok loc => callback_of h loc | Err _ => True end).

Lemma totp_enrollment_wp h id :
  totp_demanded h id false → wp (talk oidc_may) (handle_totp_enrollment http base id enroll_handler) to_callback h.
Proof.
  intros Hd. unfold handle_totp_enrollment, ask. destruct enroll_handler eqn:Ee; [|done].
  apply wp_try_send; [split; [done|by apply may_enroll]|done|]. intros l p _. destruct (negb _) eqn:Ec; [done|].
  apply negb_false_iff, Z.eqb_eq in Ec. apply wp_try_ret; [done|]. intros d Hd'.
  destruct (text p) as [d0|e] eqn:Et; [|done]. injection Hd' as ->. case_bool_decide as Hu; [done|].
  set (h1 := h ++ _). assert (Hd1 : totp_demanded h1 id false) by (unfold h1; eauto with oidc).
  assert (Hp1 : provisioned h1 id (parse_provisioning_url d)) by (exists p, d; split_and!; [apply said_last|done..]).
  apply wp_talk; [by split; [|exists id]|]. intros x _. apply wp_try_ret; [done|]. intros code Hc.
  destruct x as [c|e]; [|done]. injection Hc as ->.
  set (h2 := h1 ++ _). assert (Hd2 : totp_demanded h2 id false) by (unfold h2; eauto with oidc).
  apply wp_try_send; [split; [done|]|done|].
  - apply (may_verify _ id (parse_provisioning_url d)); [done|unfold h2; eauto with oidc|].
    unfold h2. apply elem_of_app. right. by apply list_elem_of_singleton.
  - intros l' p' _. cbn. destruct (submitted base _ _ _ p') as [loc|e] eqn:Es; [|done].
    eapply submitted_spec; [apply Hd2|right; by exists code|exact Es].
Qed.

Lemma totp_secondary_wp h id l p :
  login_began h id → status p = OK → (∃ h0, h = h0 ++ [ev (Send http (login_request base grant id)) (l, Ok p)]) →
  wp (talk oidc_may) (handle_totp_secondary_auth http base p id totp_provider enroll_handler) to_callback h.
Proof.
  intros Hl Hs [h0 Hh]. unfold handle_totp_secondary_auth, ask. destruct (totp_required p) eqn:Er; [|done]. cbn [negb].
  assert (Hd : ∀ b, is_totp_enrolled (unwrap_or ""%string (text p)) = b → totp_demanded h id b).
  { intros b Hb. split; [done|]. exists p. split_and!; [rewrite Hh; apply said_last|done..]. }
  destruct (is_totp_enrolled _) eqn:Ee; cbn [negb]; [|by apply totp_enrollment_wp, Hd]. specialize (Hd _ eq_refl).
  destruct totp_provider eqn:Et; cbn [negb]; [|done].
  apply wp_talk; [by split; [|exists id]|]. intros x _. apply wp_try_ret; [done|]. intros code Hc.
  destruct x as [c|e]; [|done]. injection Hc as ->. set (h1 := h ++ _).
  assert (Hd1 : totp_demanded h1 id true) by (unfold h1; eauto with oidc).
  apply wp_try_send; [split; [done|]|done|].
  - apply may_totp; [done..|]. unfold h1. apply elem_of_app. right. by apply list_elem_of_singleton.
  - intros l' p' _. cbn. destruct (submitted base _ _ _ p') as [loc|e] eqn:Es; [|done].
    eapply submitted_spec; [apply Hd1|left; by exists code|exact Es].
Qed.

Lemma oidc_login_wp h id :
  login_began h id → wp (talk oidc_may) (oidc_login http base grant totp_provider enroll_handler id) to_callback h.
Proof.
  intros Hl. unfold oidc_login, ask. apply wp_try_send; [split; [done|by apply may_login]|done|]. intros l p _. set (h1 := h ++ _).
  assert (Hl1 : login_began h1 id) by (unfold h1; eauto with oidc).
  destruct (Z.eqb_spec (status p) FOUND) as [Hf|_].
  - cbn. destruct (location_of p _) as [lc|e] eqn:E; cbn; [|done]. exists lc. split; [done|].
    apply (may_callback _ id (login_request base grant id)); [done|by left|]. exists p. split_and!; [apply said_last|done|by eapply location_of_Ok].
  - destruct (Z.eqb_spec (status p) OK) as [Ho|_]; [|done]. apply (totp_secondary_wp _ _ l p); [done..|by exists h].
Qed.

Lemma exchange_code_wp h pkce state nonce cb loc code :
  drawn h pkce state nonce → redirected h (get cb) loc → calls_back loc state code →
  wp (talk oidc_may) (exchange_code http base pkce nonce code) (λ r h', match r with Ok tok => granted h' tok | Err _ => True end) h.
Proof.
  intros Hd Hr Hc. unfold exchange_code, ask. apply wp_try_send; [split; [done|by eapply may_exchange]|done|].
  intros l p _. destruct (negb _) eqn:Eo; [done|]. apply negb_false_iff, Z.eqb_eq in Eo. apply wp_try_ret; [done|]. intros body Hb.
  destruct (text p) as [b|e] eqn:Et; [|done]. injection Hb as ->. cbn.
  destruct (parse_token_response body nonce) as [tok|e] eqn:Ep; [|done].
  destruct (parse_token_response_Ok _ _ _ Ep) as (tr & idt & claims & H1 & H2 & H3 & H4 & ->).
  exists pkce, state, nonce, cb, loc, code, p, body, tr, idt, claims.
  split_and!; [eauto with oidc..|done|apply said_last|done|done|done|done|done|done|done].
Qed.

Lemma wp_new_pkce {A} (f : Pkce → task net A) Q h :
  (∀ raw, wp (talk oidc_may) (f (pkce_of raw)) Q (h ++ [ev (Random 32) raw])) → wp (talk oidc_may) (new_pkce ≫= f) Q h.
Proof. intros Hf. split; [done|]. intros raw _. apply Hf. Qed.

Lemma wp_random {A} n (f : string → task net A) Q h :
  (∀ raw, wp (talk oidc_may) (f (b64url_nopad raw)) Q (h ++ [ev (Random n) raw])) →
  wp (talk oidc_may) ((raw ← perform (Σ := net) (Random n); mret (b64url_nopad raw)) ≫= f) Q h.
Proof. intros Hf. split; [done|]. intros raw _. apply Hf. Qed.

Lemma oidc_authenticate_wp :
  wp (talk oidc_may) (oidc_authenticate http base grant totp_provider enroll_handler)
    (λ r h, match r with Ok tok => granted h tok | Err _ => True end) start.
Proof.
  apply wp_new_pkce. intros r1. apply wp_random. intros r2. apply wp_random. intros r3. unfold ask. set (h := _ ++ _).
  set (state := b64url_nopad r2). set (nonce := b64url_nopad r3).
  assert (Hd : drawn h (pkce_of r1) state nonce) by (exists r1, r2, r3; unfold h; by rewrite <- !app_assoc).
  apply wp_try_send; [split; [done|by apply may_authorize]|done|]. intros l p _. set (h1 := h ++ _).
  assert (Hd1 : drawn h1 (pkce_of r1) state nonce) by (unfold h1; eauto with oidc).
  destruct (negb _) eqn:Es; [done|]. apply negb_false_iff, Z.eqb_eq in Es.
  apply wp_try_ret; [done|]. intros loc Hloc%location_of_Ok. apply wp_try_ret; [done|]. intros id Hid.
  destruct (extract_auth_request_id loc) as [i|] eqn:Ei; [|done]. injection Hid as ->.
  assert (Hl1 : login_began h1 id).
  { exists (pkce_of r1), state, nonce, loc. split_and!; [done| |done]. exists p. split_and!; [apply said_last|done..]. }
  apply (wp_try_call _ _ _ (λ lc h, callback_of h lc)); [by apply oidc_login_wp|done|]. intros cb h2 (lc & -> & Hcb) Hp2.
  apply wp_try_send; [by split|done|]. intros l' p' _. set (h3 := h2 ++ _).
  assert (Hd3 : drawn h3 (pkce_of r1) state nonce).
  { eapply drawn_prefix; [|exact Hd1]. etrans; [exact Hp2|apply prefix_one]. }
  destruct (negb _) eqn:Es'; [done|]. apply negb_false_iff, Z.eqb_eq in Es'.
  apply wp_try_ret; [done|]. intros loc' Hloc'%location_of_Ok. apply wp_try_ret; [done|]. intros code Hcode.
  eapply exchange_code_wp; [exact Hd3| |by apply extract_code_spec]. exists p'. split_and!; [apply said_last|done..].
Qed.

(** ** A controller that follows the protocol *)

Definition redirects (env : environment) (h : history) (r : request) : Prop :=
  ∃ l p loc, env h (Send http r) = (l, Ok p) ∧ status p = FOUND ∧ header p "location"%string = Some loc.

Definition second_factor (env : environment) (id : string) (enrolled : bool) : Prop :=
  if enrolled then
    totp_provider = true ∧ ∀ h, (∃ code, env h AskCode = Ok code) ∧ ∀ code, redirects env h (totp_request base code id)
  else
    enroll_handler = true ∧ ∀ h,
      (∃ l p d, env h (Send http (enroll_request base id)) = (l, Ok p) ∧ status p = CREATED ∧ text p = Ok d ∧
        parse_provisioning_url d ≠ ""%string) ∧
      (∀ url, ∃ code, env h (AskEnrollment url) = Ok code) ∧ ∀ code, redirects env h (verify_request base code id).

(** The secrets the environment lets the client draw. *)
Definition drawn_by (env : environment) (n : nat) : history → history := λ h, h ++ [ev (Random n) (env h (Random n))].
Definition its_pkce (env : environment) : Pkce := pkce_of (env start (Random 32)).
Definition its_state (env : environment) : string := b64url_nopad (env (drawn_by env 32 start) (Random 16)).
Definition its_nonce (env : environment) : string := b64url_nopad (env (drawn_by env 16 (drawn_by env 32 start)) (Random 32)).

Definition its_start (env : environment) : history := drawn_by env 32 (drawn_by env 16 (drawn_by env 32 start)).

Record follows_protocol (env : environment) : Prop := {
  fp_authorize :
    ∃ l p loc id, env (its_start env) (Send http (authorize_request base (its_pkce env) (its_state env) (its_nonce env))) = (l, Ok p) ∧
      status p = FOUND ∧ header p "location"%string = Some loc ∧ extract_auth_request_id loc = Some id;
  fp_login h id : redirects env h (login_request base grant id) ∨
    ∃ l p, env h (Send http (login_request base grant id)) = (l, Ok p) ∧ status p = OK ∧ totp_required p = true ∧
      second_factor env id (is_totp_enrolled (unwrap_or ""%string (text p)));
  fp_callback h id p cb : said h http (login_request base grant id) p →
    ∃ l p' loc code, env h (Send http (get cb)) = (l, Ok p') ∧ status p' = FOUND ∧ header p' "location"%string = Some loc ∧
      calls_back loc (its_state env) code;
  fp_token h code :
    ∃ l p body tok, env h (Send http (token_request base (its_pkce env) code)) = (l, Ok p) ∧ status p = OK ∧ text p = Ok body ∧
      parse_token_response body (its_nonce env) = Ok tok
}.

Lemma location_of_Some p step loc : header p "location"%string = Some loc → location_of p step = Ok loc.
Proof. unfold location_of. by intros ->. Qed.

Lemma submitted_redirects p step rejected further loc :
  status p = FOUND → header p "location"%string = Some loc → submitted base step rejected further p = Ok (absolutize base loc).
Proof. intros Hs Hl. unfold submitted. rewrite Hs. cbn. by rewrite (location_of_Some _ _ loc Hl). Qed.

Lemma second_factor_ok env h id p :
  totp_required p = true → second_factor env id (is_totp_enrolled (unwrap_or ""%string (text p))) →
  ∃ cb, (converse env (handle_totp_secondary_auth http base p id totp_provider enroll_handler) h).1 = Ok cb.
Proof.
  intros Hr Hf. unfold handle_totp_secondary_auth, ask. rewrite Hr. cbn [negb].
  destruct (is_totp_enrolled _); cbn [negb]; destruct Hf as [Hp Hf].
  - rewrite Hp. cbn [negb]. converse_op. destruct (proj1 (Hf h)) as [code Hc]. set (h1 := h ++ _). clearbody h1.
    rewrite Hc. cbn [map_err]. rewrite converse_try. cbn [converse fst snd mret task_ret].
    destruct (proj2 (Hf h1) code) as (l & p' & loc & He & Hs & Hloc). erewrite converse_send by exact He.
    exists (absolutize base loc). cbn. by apply submitted_redirects.
  - unfold handle_totp_enrollment, ask. rewrite Hp. destruct (proj1 (Hf h)) as (l & p' & d & He & Hs & Ht & Hu).
    erewrite converse_send by exact He. set (h1 := h ++ _). clearbody h1. rewrite Hs. cbn [negb Z.eqb CREATED Pos.eqb].
    rewrite Ht. cbn [map_err]. rewrite converse_try. cbn [converse fst snd mret task_ret]. rewrite bool_decide_eq_false_2 by done.
    converse_op. destruct (proj1 (proj2 (Hf h1)) (parse_provisioning_url d)) as [code Hc]. set (h2 := h1 ++ _). clearbody h2.
    rewrite Hc. cbn [map_err]. rewrite converse_try. cbn [converse fst snd mret task_ret].
    destruct (proj2 (proj2 (Hf h2)) code) as (l' & p'' & loc & He' & Hs' & Hloc'). erewrite converse_send by exact He'.
    exists (absolutize base loc). cbn. by apply submitted_redirects.
Qed.

(** The login leg ends with a callback, and its request was answered. *)
Lemma oidc_login_ok env h id :
  follows_protocol env →
  ∃ cb p, (converse env (oidc_login http base grant totp_provider enroll_handler id) h).1 = Ok cb ∧
    said (converse env (oidc_login http base grant totp_provider enroll_handler id) h).2 http (login_request base grant id) p.
Proof.
  intros Hf. unfold oidc_login, ask. destruct (fp_login _ Hf h id) as [(l & p & loc & He & Hs & Hl)|(l & p & He & Hs & Hr & Hsf)];
    erewrite converse_send by exact He; rewrite Hs.
  - cbn. rewrite (location_of_Some _ _ loc Hl). exists (absolutize base loc), p. split; [done|apply said_last].
  - cbn [Z.eqb OK FOUND Pos.eqb]. set (h1 := h ++ _). destruct (second_factor_ok env h1 id p Hr Hsf) as [cb Hcb]. exists cb, p.
    split; [exact Hcb|]. eapply said_prefix; [apply converse_prefix|apply said_last].
Qed.

Lemma converse_new_pkce {A} (env : environment) (f : Pkce → task net A) h :
  converse env (new_pkce ≫= f) h = converse env (f (pkce_of (env h (Random 32)))) (h ++ [ev (Random 32) (env h (Random 32))]).
Proof. done. Qed.

Lemma converse_new_state {A} (env : environment) (f : string → task net A) h :
  converse env (new_state ≫= f) h = converse env (f (b64url_nopad (env h (Random 16)))) (h ++ [ev (Random 16) (env h (Random 16))]).
Proof. done. Qed.

Lemma converse_new_nonce {A} (env : environment) (f : string → task net A) h :
  converse env (new_nonce ≫= f) h = converse env (f (b64url_nopad (env h (Random 32)))) (h ++ [ev (Random 32) (env h (Random 32))]).
Proof. done. Qed.

Lemma oidc_authenticate_ok env :
  follows_protocol env →
  ∃ tok, (converse env (oidc_authenticate http base grant totp_provider enroll_handler) start).1 = Ok tok.
Proof.
  intros Hf. unfold oidc_authenticate. rewrite converse_new_pkce, converse_new_state, converse_new_nonce.
  fold (its_pkce env) (drawn_by env 32 start) (its_state env) (drawn_by env 16 (drawn_by env 32 start)) (its_nonce env).
  fold (drawn_by env 32 (drawn_by env 16 (drawn_by env 32 start))) (its_start env). unfold ask.
  destruct (fp_authorize _ Hf) as (l & p & loc & id & He & Hs & Hl & Hid).
  erewrite converse_send by exact He. set (h1 := its_start env ++ _). clearbody h1.
  rewrite Hs. cbn [negb Z.eqb FOUND Pos.eqb]. rewrite (location_of_Some _ _ _ Hl). rewrite converse_try. cbn [converse fst snd mret task_ret].
  rewrite Hid. cbn [ok_or]. rewrite converse_try. cbn [converse fst snd mret task_ret]. rewrite converse_try.
  destruct (oidc_login_ok env h1 id Hf) as (cb & pl & -> & Hsaid). set (h2 := (converse _ _ _).2) in *. clearbody h2.
  destruct (fp_callback _ Hf h2 id pl cb Hsaid) as (l2 & p2 & loc2 & code & He2 & Hs2 & Hl2 & Hc2).
  erewrite converse_send by exact He2. set (h3 := h2 ++ _). clearbody h3.
  rewrite Hs2. cbn [negb Z.eqb FOUND Pos.eqb]. rewrite (location_of_Some _ _ _ Hl2). rewrite converse_try. cbn [converse fst snd mret task_ret].
  rewrite (proj2 (extract_code_spec _ _ _) Hc2). rewrite converse_try. cbn [converse fst snd mret task_ret]. unfold exchange_code, ask.
  destruct (fp_token _ Hf h3 code) as (l3 & p3 & body & tok & He3 & Hs3 & Hb3 & Ht3).
  erewrite converse_send by exact He3. rewrite Hs3. cbn [negb Z.eqb OK Pos.eqb]. rewrite Hb3. cbn [map_err].
  rewrite converse_try. cbn [converse fst snd mret task_ret]. by exists tok.
Qed.

(** The refresh of a token is one request, and gives what its reply says. *)
Lemma do_oidc_refresh_outcome env refresh_token timeout h r :
  let o := Send http (refresh_request base refresh_token timeout) in
  (converse env (do_oidc_refresh http base refresh_token timeout) h).2 = h ++ [ev o (env h o)] ∧
  ((converse env (do_oidc_refresh http base refresh_token timeout) h).1 = Ok r ↔
   ∃ p body, (env h o).2 = Ok p ∧ status p = OK ∧ text p = Ok body ∧ parse_refresh_response body = Ok r).
Proof.
  intros o. unfold do_oidc_refresh, ask. cbn. fold o. destruct (env h o) as [l [p|e]]; cbn.
  2: { split; [done|]. split; [done|]. by intros (p & body & ? & _). }
  destruct (Z.eqb_spec (status p) OK) as [Hs|Hs]; cbn.
  2: { split; [done|]. split; [done|]. by intros (p' & body & [= ->] & ? & _). }
  destruct (text p) as [body|e] eqn:Et; cbn; (split; [done|]); (split; [|intros (p' & b & [= <-] & _ & Hb & Hr)]); try done; try congruence.
  intros Hr. by exists p, body.
Qed.

(** ** Properties *)

(** C20. An OIDC login, whatever the controller and the application answer: each request
    is sent only when what came before calls for it - the password and the external JWT
    only to the login that the authorize reply named, a TOTP code only to the login that
    demanded one, the PKCE verifier only with the code of a callback that carried our
    [state] - and tokens are returned only from the exchange of that code, with an
    id_token that carries our [nonce]. *)
Theorem oidc_login_sound env :
  (∀ h o, lawful o (env h o)) →
  let r := converse env (oidc_authenticate http base grant totp_provider enroll_handler) start in
  all_allowed oidc_may start r.2 ∧ ∀ tok, r.1 = Ok tok → granted r.2 tok.
Proof.
  intros Henv r. destruct (converse_sound oidc_may env _ _ start Henv oidc_authenticate_wp) as (HQ & _ & Hall).
  split; [exact Hall|]. intros tok Ht. fold r in HQ. by rewrite Ht in HQ.
Qed.

(** A controller that follows the protocol - with a redirection at each step, a second
    factor if it asks for one that the application can give, our [state] in the callback
    and our [nonce] in the token - logs the client in, with any grant. *)
Theorem oidc_login_succeeds env :
  follows_protocol env →
  ∃ tok, (converse env (oidc_authenticate http base grant totp_provider enroll_handler) start).1 = Ok tok.
Proof. exact (oidc_authenticate_ok env). Qed.

End oidc_spec.

(** ** Witnesses

    A controller that wants a password and a TOTP code; the encodings are toys. *)

Definition demo_oidc : OidcLib := {|
  b64url_nopad := λ bs, string_of_bytes (flat_map (λ b, [97 + b / 16; 97 + b mod 16]) bs);
  b64url_decode := λ s, Ok (bytes_of_string s);
  sha256 := reverse;
  form_urlencoded := foldr (λ kv s, kv.1 +:+ "=" +:+ kv.2 +:+ "&" +:+ s)%string ""%string;
  url_query_pairs := λ s, match split_once ":"%char s with Some (c, st) => Ok [("code", c); ("state", st)]%string | None => Err "no query"%string end;
  id_json := λ id, id;
  code_id_json := λ code id, (code +:+ " " +:+ id)%string;
  token_response_json := λ body, Ok (mkTokenResponse "at" (Some "rt") 1800 (Some body))%string;
  claims_json := λ bs, Ok (mkClaims (Some "alice"%string) (Some (string_of_bytes bs)));
  auth_queries_json := λ _, Ok [mkAuthQuery "TOTP"%string true];
  detail_mfa_json := λ _, Err "no detail"%string
|}.

Section witness.
Existing Instances demo_tls demo_oidc.

Definition demo_base : string := "https://ctrl:1280".
Definition demo_http : http_client := mkHttpClient (Roots [[1]]) None false.
Definition demo_grant : OidcGrant := PasswordGrant "alice" "secret".
Definition demo_raw (n : nat) : list Z := replicate n 7.

Definition demo_redirect (loc : string) : response :=
  mkResponse FOUND (λ k, if bool_decide (k = "location"%string) then Some loc else None) (Ok ""%string) (Ok []).
Definition demo_page (headers : string → option string) (body : string) : response := mkResponse OK headers (Ok body) (Ok []).

(** A [POST] has been sent. *)
Definition posted (h : history) : bool :=
  existsb (λ e, match projT1 e with Send _ r => match r_method r with POST => true | GET => false end | _ => false end) h.

Definition demo_reply (h : history) (r : request) : response :=
  match r_method r with
  | GET => demo_redirect (if posted h then "grant:" +:+ b64url_nopad (demo_raw 16) else "/login?authRequestID=42")%string
  | POST =>
      if bool_decide (r_url r = demo_base +:+ "/oidc/login/password")%string
      then demo_page (λ k, if bool_decide (k = "totp-required"%string) then Some "true"%string else None) "queries"
      else if bool_decide (r_url r = demo_base +:+ "/oidc/login/totp")%string then demo_redirect "/callback"
      else demo_page (λ _, None) ("h." +:+ b64url_nopad (demo_raw 32) +:+ ".s")%string
  end.

Definition demo_env : environment := λ h o,
  match o with
  | Send c r => ([], Ok (demo_reply h r))
  | Random n => demo_raw n
  | GenerateKey _ => Err "no key"%string
  | Clock => 0
  | AskCode => Ok "123456"%string
  | AskEnrollment _ => Ok "654321"%string
  end.

Lemma demo_lawful h o : lawful o (demo_env h o).
Proof. destruct o; try done. apply length_replicate. Qed.

Lemma posted_login h id p : said h demo_http (login_request demo_base demo_grant id) p → posted h = true.
Proof. intros [l Hl]. apply existsb_exists. eexists. split; [by apply list_elem_of_In|done]. Qed.

Definition demo_login : result EdgeError OidcTokens * history :=
  converse demo_env (oidc_authenticate demo_http demo_base demo_grant true false) [].
Definition demo_tokens : OidcTokens := mkTokens "at" (Some "rt"%string) 1800 (Some "alice"%string).

Lemma oidc_login_sound_witness :
  (∀ h o, lawful o (demo_env h o)) ∧ demo_login.1 = Ok demo_tokens ∧ length demo_login.2 = 9%nat ∧
  granted demo_http demo_base [] demo_login.2 demo_tokens ∧ all_allowed (oidc_may demo_http demo_base demo_grant true false []) [] demo_login.2.
Proof.
  assert (He : demo_login.1 = Ok demo_tokens) by (vm_compute; reflexivity).
  destruct (oidc_login_sound demo_http demo_base demo_grant true false [] demo_env demo_lawful) as [Ha Hg].
  split; [exact demo_lawful|]. split; [exact He|]. split; [vm_compute; reflexivity|]. split; [exact (Hg _ He)|exact Ha].
Defined.

Lemma demo_follows : follows_protocol demo_http demo_base demo_grant true false [] demo_env.
Proof.
  split.
  - eexists [], _, _, _. split_and!; reflexivity.
  - intros h id. right. eexists [], _. split_and!; [reflexivity..|]. split; [done|]. intros h'. split; [by exists "123456"%string|].
    intros code. eexists [], _, _. split_and!; reflexivity.
  - intros h id p cb Hs%posted_login. exists [], (demo_redirect ("grant:" +:+ b64url_nopad (demo_raw 16))%string). eexists _, "grant"%string.
    split_and!; [|reflexivity..|apply extract_code_spec; vm_compute; reflexivity]. unfold demo_env, demo_reply. cbn [get r_method]. by rewrite Hs.
  - intros h code. eexists [], _, _, _. split_and!; [reflexivity..|]. vm_compute. reflexivity.
Qed.

Lemma oidc_login_succeeds_witness :
  follows_protocol demo_http demo_base demo_grant true false [] demo_env ∧ ∃ tok, demo_login.1 = Ok tok.
Proof. split; [exact demo_follows|]. exact (oidc_login_succeeds demo_http demo_base demo_grant true false [] demo_env demo_follows). Defined.

End witness.
