(* ===== verification/Wire.v ===== *)
(** * The client on the wire: [src/edge/client/]

    What the operations of Client are as HTTP requests, and the client's tasks with
    their conversations spelled out, request by request and interleaved.  Proved: such
    a run is a run of Client, whose theorems so hold of it; and the listing of services,
    a conversation of a page at a time, gives what the listing of Rest gives. *)

From S2P Require Import Prelude Utf8 Message EdgeWire Address Services Rest Tasks Http Enroll SessionCert Client ClientLogic OidcLogin.

Local Open Scope string_scope.
Local Open Scope task_scope.

(** What [serde_json] writes, and the URLs of [url]: a scheme, a host and a port; the
    names in the [capabilities] of a version, if it has any. *)
Class WireLib := {
  mfa_json : string → string;
  session_create_json : string → SessionType → string;
  url_parts : string → option (string * option string * option Z);
  with_query : string → list (string * string) → string;
  capabilities_json : string → option (list string)
}.

Definition OIDC_REFRESH_REQUEST_TIMEOUT : Z := 30.

Section wire.
Context `{JsonLib} `{!RestJson} `{TlsLib} `{EnrollLib} `{CertJson} `{OidcLib} `{WireLib}.
Context (http : http_client) (base_url : string).
Notation ctask := (task client_sig).

(** ** Requests *)

Definition json_content : string * string := ("Content-Type", "application/json").

Definition client_request (r : Client.request) : Http.request :=
  match r with
  | PostAuthenticate method body => mkRequest POST (base_url +:+ "/authenticate?method=" +:+ method) [json_content] (Some body) None
  | PostMfa token code => mkRequest POST (base_url +:+ "/authenticate/mfa") [("zt-session", token); json_content] (Some (mfa_json code)) None
  | GetApiSession token => mkRequest GET (base_url +:+ "/current-api-session") [access_header token] None None
  | PostSession token service_id type =>
      mkRequest POST (base_url +:+ "/sessions") [access_header token; json_content] (Some (session_create_json service_id type)) None
  | GetSession token session_id => mkRequest GET (base_url +:+ "/sessions/" +:+ session_id) [access_header token] None None
  | GetServiceRouters token service_id session_token =>
      mkRequest GET (base_url +:+ "/services/" +:+ service_id +:+ "/edge-routers") [access_header token; ("session-token", session_token)] None None
  | GetServiceUpdates token => mkRequest GET (base_url +:+ "/current-api-session/service-updates") [access_header token] None None
  | PostCertificate token csr_pem request_timeout => cert_request base_url token csr_pem request_timeout
  end.

Definition services_request (token : AuthToken) (config_types : list string) (offset : Z) : Http.request :=
  mkRequest GET
    (with_query (base_url +:+ "/services")
      (("limit", pretty PAGE_LIMIT) :: ("offset", pretty offset) :: List.map (λ ct, ("configTypes", ct)) config_types))
    [access_header token] None None.

(** ** oidc_glue.rs *)

Definition oidc_base : string :=
  match url_parts base_url with
  | Some (scheme, Some host, port) =>
      scheme +:+ "://" +:+ host +:+ match port with Some p => ":" +:+ pretty p | None => "" end
  | _ => base_url
  end.

Definition controller_supports_oidc : task net bool :=
  x ← send http (mkRequest GET (base_url +:+ "/version") [] None None);
  mret (match x with
        | Ok p => match text p with
                  | Ok body => match capabilities_json body with Some caps => bool_decide ("OIDC_AUTH" ∈ caps) | None => false end
                  | Err _ => false
                  end
        | Err _ => false
        end).

(** ** The listing of services, a request per page; [None] when the fuel is over *)

Fixpoint list_pages (fuel : nat) (token : AuthToken) (config_types : list string) (offset : Z) (out : list Service)
    : task net (option (result EdgeError (list Service))) :=
  match fuel with
  | O => mret None
  | S fuel =>
      x ← send http (services_request token config_types offset);
      match services_page (reply_of x) with
      | Err e => mret (Some (Err e))
      | Ok (data, total) =>
          let out := (out ++ data)%list in
          let offset := (offset + PAGE_LIMIT)%Z in
          if (total <=? offset)%Z then mret (Some (Ok out)) else list_pages fuel token config_types offset out
      end
  end.

(** ** Operations as conversations *)

Definition refreshed_tokens (r : RefreshedOidc) : Client.OidcTokens := Client.mkTokens (ro_access r) (ro_refresh r) (ro_expires_in r).

(** The operations that talk to the controller, ask the application or read the clock;
    the others are one step of the state, or are left to the routers and to time. *)
Definition wire_op (pages : nat) (o : client_op) : option (task net (option (client_answer o))) :=
  match o with
  | Client.Http r => Some (x ← send http (client_request r); mret (Some (reply_of x)))
  | ListServices token config_types => Some (list_pages pages token config_types 0 [])
  | OidcRefresh subject =>
      Some (r ← do_oidc_refresh http oidc_base subject OIDC_REFRESH_REQUEST_TIMEOUT; mret (Some (refreshed_tokens <$> (r : result EdgeError RefreshedOidc))))
  | Client.Clock => Some (t ← perform (Σ := net) Http.Clock; mret (Some t))
  | MfaCode => Some (code ← perform (Σ := net) AskCode; mret (Some code))
  | _ => None
  end.

(** ** Runs

    A task of the client is at an operation, or in the conversation that an operation
    is; each step is a step of the state or an operation of a conversation.  With the
    answer that ends a conversation the task takes in its result. *)

Context (cfg : settings).

Inductive wire_task : Type :=
| At (t : ctask unit)
| Talking (o : client_op) (conv : task net (option (client_answer o))) (k : client_answer o → ctask unit).

(** What happened: the client's own history, and what was said, by which task. *)
Record wire_world : Type := mkWire { the_client : client; hist : ClientLogic.history; said_by : list (nat * event); wire_tasks : gmap nat wire_task }.

(** The rest of a conversation, or what follows it. *)
Definition resume (o : client_op) (conv : task net (option (client_answer o))) (k : client_answer o → ctask unit) : wire_task :=
  match conv with Return (Some a) => At (k a) | _ => Talking o conv k end.
Definition finished {o : client_op} (conv : task net (option (client_answer o))) : option (client_answer o) :=
  match conv with Return r => r | Perform _ _ => None end.

(** How the history of the client grows when an operation of task [i] is over. *)
Definition took_in (i : nat) (o : client_op) (r : option (client_answer o)) (c : client) (h : ClientLogic.history) : ClientLogic.history :=
  match r with Some a => ClientLogic.record i o a c c h | None => h end.

Inductive wire_step : wire_world → wire_world → Prop :=
| ws_state i o k a c c' h s ts :
    ts !! i = Some (At (Perform o k)) → (∀ pages, wire_op pages o = None) → effect cfg i o c a c' →
    wire_step (mkWire c h s ts) (mkWire c' (ClientLogic.record i o a c c' h) s (<[i := At (k a)]> ts))
| ws_open i o k pages conv c h s ts :
    ts !! i = Some (At (Perform o k)) → wire_op pages o = Some conv →
    wire_step (mkWire c h s ts) (mkWire c h s (<[i := Talking o conv k]> ts))
| ws_talk i o (n : net_op) (kn : net_answer n → task net (option (client_answer o))) k x c h s ts :
    ts !! i = Some (Talking o (Perform (Σ := net) n kn) k) → lawful n x →
    match finished (kn x) with Some a => controller_ok o a h | None => True end →
    wire_step (mkWire c h s ts)
      (mkWire c (took_in i o (finished (kn x)) c h) (s ++ [(i, ev n x)]) (<[i := resume o (kn x) k]> ts))
| ws_start i t c h s ts :
    ts !! i = None → client_job cfg t → wire_step (mkWire c h s ts) (mkWire c h s (<[i := At t]> ts))
| ws_drop i t c h s ts :
    ts !! i = Some t → wire_step (mkWire c h s ts) (mkWire (drop_guard i c) h s (<[i := At (Return tt)]> ts)).

Definition wire_start (c : client) : wire_world := mkWire c no_history [] ∅.

(** ** A run on the wire is a run of the client *)

(** A task in a conversation is still at its operation. *)
Definition abstract_task (t : wire_task) : ctask unit := match t with At t => t | Talking o _ k => Perform (Σ := client_sig) o k end.
Definition abstract_world (w : wire_world) : client_world := mkWorld (the_client w, hist w) (abstract_task <$> wire_tasks w).

Lemma wire_op_effect pages o conv : wire_op pages o = Some conv → ∀ i a c, effect cfg i o c a c.
Proof. destruct o; done. Qed.

(** What an operation may say. *)
Inductive op_may : client_op → net_op → Prop :=
| may_request r : op_may (Client.Http r) (Send http (client_request r))
| may_page token types offset : op_may (ListServices token types) (Send http (services_request token types offset))
| may_refresh subject : op_may (OidcRefresh subject) (Send http (refresh_request oidc_base subject OIDC_REFRESH_REQUEST_TIMEOUT))
| may_clock : op_may Client.Clock Http.Clock
| may_code : op_may MfaCode AskCode.

Fixpoint says {A} (o : client_op) (conv : task net A) : Prop :=
  match conv with
  | Return _ => True
  | Perform n kn => op_may o n ∧ ∀ x, lawful n x → says o (kn x)
  end.

Lemma list_pages_says fuel token types offset out : says (ListServices token types) (list_pages fuel token types offset out).
Proof.
  revert offset out. induction fuel as [|fuel IH]; intros offset out; cbn [list_pages]; [done|]. split; [constructor|]. intros x _. cbn.
  destruct (services_page _) as [[data total]|e]; [|done]. case_match; [done|apply IH].
Qed.

Lemma wire_op_says pages o conv : wire_op pages o = Some conv → says o conv.
Proof.
  destruct o; cbn; intros [= <-]; try (split; [constructor|done]).
  - apply list_pages_says.
  - unfold do_oidc_refresh, ask. split; [constructor|]. intros [l [p|e]] _; cbn; [|done]. case_match; [done|]. by destruct (text p).
Qed.

Definition task_ok (t : wire_task) : Prop :=
  match t with At _ => True | Talking o conv _ => (∃ pages c0, wire_op pages o = Some c0) ∧ says o conv end.

Record wire_inv (w : wire_world) : Prop := {
  inv_talking i t : wire_tasks w !! i = Some t → task_ok t;
  inv_said i n x : (i, ev n x) ∈ said_by w → ∃ o, op_may o n
}.

Lemma wire_inv_set w c h s i t :
  wire_inv w → (∀ j n x, (j, ev n x) ∈ s → (j, ev n x) ∈ said_by w ∨ ∃ o, op_may o n) → task_ok t →
  wire_inv (mkWire c h s (<[i := t]> (wire_tasks w))).
Proof.
  intros [Ht Hs] Hsaid Hnew. split; cbn.
  - intros j t'. rewrite lookup_insert_Some. intros [[_ <-]|[_ Hj]]; [done|by eapply Ht].
  - intros j n x Hj. destruct (Hsaid j n x Hj) as [Hin|Hm]; [by eapply Hs|exact Hm].
Qed.

Lemma wire_step_inv w w' : wire_step w w' → wire_inv w → wire_inv w'.
Proof.
  intros Hs Hw. destruct Hs as [i o k a c c' h s ts Hi Hn He|i o k pages conv c h s ts Hi Ho|i o n kn k x c h s ts Hi Hl Hok|i t c h s ts Hi Hj|i t c h s ts Hi];
    eapply (wire_inv_set _ _ _ _ _ _ Hw); cbn; try done; try by (intros j n' x' Hin; left).
  - split; [by eauto|by eapply wire_op_says].
  - destruct (inv_talking _ Hw _ _ Hi) as [_ [Hm _]].
    intros j n' x' [Hj|Hj%list_elem_of_singleton]%elem_of_app; [by left|]. right. exists o. by injection Hj as _ ->.
  - destruct (inv_talking _ Hw _ _ Hi) as [Hop [_ Hk]]. specialize (Hk x Hl). by destruct (kn x) as [[a|]|n' kn'].
Qed.

Lemma wire_step_refines w w' :
  wire_step w w' → wire_inv w →
  rtc (client_step cfg) (abstract_world w) (abstract_world w').
Proof.
  intros Hs Hw. destruct Hs as [i o k a c c' h s ts Hi Hn He|i o k pages conv c h s ts Hi Ho|i o n kn k x c h s ts Hi Hl Hok|i t c h s ts Hi Hj|i t c h s ts Hi];
    unfold abstract_world; cbn [the_client hist wire_tasks]; rewrite fmap_insert.
  - apply rtc_once. apply (pool_perform _ _ _ i o k a (c, h) (c', record i o a c c' h)); [by rewrite lookup_fmap, Hi|].
    split; [done|]. split; [|done]. destruct o; try done; by specialize (Hn 0%nat).
  - rewrite insert_id; [done|]. by rewrite lookup_fmap, Hi.
  - destruct (inv_talking _ Hw _ _ Hi) as [(pages & c0 & Ho) _]. destruct (kn x) as [[a|]|n' kn']; cbn in *.
    + apply rtc_once. apply (pool_perform (Σ := client_sig) _ _ _ i o k a (c, h) (c, record i o a c c h)); [by rewrite lookup_fmap, Hi|].
      split; [by eapply wire_op_effect|done].
    + rewrite insert_id; [done|]. by rewrite lookup_fmap, Hi.
    + rewrite insert_id; [done|]. by rewrite lookup_fmap, Hi.
  - apply rtc_once. apply (pool_start _ _ _ i t (c, h)); [by rewrite lookup_fmap, Hi|done].
  - apply rtc_once. apply (pool_drop (client_performs cfg) client_drops (client_job cfg) i (abstract_task t) (c, h)). by rewrite lookup_fmap, Hi.
Qed.

Lemma wire_run_refines c w : rtc wire_step (wire_start c) w → wire_inv w ∧ rtc (client_step cfg) (client_start c) (abstract_world w).
Proof.
  revert w. apply (rtc_ind_r (λ w, wire_inv w ∧ rtc (client_step cfg) (client_start c) (abstract_world w)) (wire_start c)).
  - split; [split; cbn|]; [intros i t; by rewrite lookup_empty|by intros i n x ?%elem_of_nil|]. unfold client_start, abstract_world. cbn.
    by rewrite fmap_empty.
  - intros w1 w2 _ Hs [Hw Ha]. split; [by eapply wire_step_inv|]. etrans; [exact Ha|by apply wire_step_refines].
Qed.

(** ** The listing *)

(** Page by page, from a controller whose answer depends on the offset alone, the
    conversation gives what the listing of Rest does. *)
Lemma list_pages_listed (env : environment) fuel token types fetch offset out h :
  (∀ h offset, reply_of (env h (Send http (services_request token types offset))).2 = fetch offset) →
  (converse env (list_pages fuel token types offset out) h).1 = do_list_services fuel fetch offset out.
Proof.
  intros He. revert offset out h. induction fuel as [|fuel IH]; intros offset out h; [done|]. cbn [list_pages do_list_services].
  unfold send. rewrite !converse_bind. cbn [converse perform fst snd mret task_ret]. rewrite He.
  destruct (services_page (fetch offset)) as [[data total]|e]; [|done]. case_match; [done|apply IH].
Qed.

(** ** Property *)


End wire.

(** ** Witness: a task that asks for a session *)

Section witness.
#[local] Existing Instance string_json.
#[local] Existing Instances demo_tls demo_enroll demo_cert.

Definition demo_session_body : @RestJson string_json := {|
  error_body := λ _, None;
  session_body := λ body, Ok (mkSession body "tok" "svc" DialSession "" "" []);
  routers_body := λ _, Err ""%string;
  api_session_body := λ _, Err ""%string;
  services_body := λ _, Err ""%string;
  updates_body := Err
|}.
#[local] Existing Instance demo_session_body.
#[local] Existing Instance demo_oidc.
Definition demo_wire : WireLib := {|
  mfa_json := λ code, code;
  session_create_json := λ id _, id;
  url_parts := λ s, Some ("https", Some s, None)%string;
  with_query := λ s _, s;
  capabilities_json := λ s, Some [s]
|}.
#[local] Existing Instance demo_wire.

Definition wire_http : http_client := mkHttpClient (Roots [[1]]) None true.
Definition wire_settings : @settings :=
  mkSettings Cert false false (mkConfig "" None None (mkId "" "" ""))%string None (λ _ _, ""%string) (λ _, None) (λ _, None) (λ _, None) (λ s, s).
Definition wire_client : @client string_json := mkClient (Some (Legacy "api")) None None (mkPoll None watcher_new ∅) demo_expiring None.
Definition wire_reply : list handshake * result string response := ([], Ok (mkResponse CREATED (λ _, None) (Ok "s1"%string) (Ok []))).


End witness.
