(* ===== verification/Construct.v ===== *)
(** * Making a client: [src/edge/client/construct.rs], [client/auth.rs]

    The constructors of the client and its first authentication, as conversations: with
    the certificate of an identity, with a password, or through OIDC with a password or
    an external JWT.  Proved: in every conversation the credentials go only to servers
    that the configured CAs verify, each request is sent only when what came before
    calls for it, the client that comes out is made of what the controller said; and a
    controller that follows the protocol makes a client. *)

From S2P Require Import Prelude Utf8 Message EdgeWire Address Services Rest Tasks ClientLogic ClientSafety Http Enroll SessionCert Client OidcLogin Wire.

Local Open Scope string_scope.
Local Open Scope task_scope.

(** ** The client *)

(** [refresh_task] and [session_refresh_task]: whether the timers run. *)
Record EdgeClient : Type := mkEdgeClient {
  ec_base_url : string;
  ec_http : http_client;
  ec_token : option AuthToken;
  ec_expires_at : option Z;
  ec_reauth_method : ReauthMethod;
  ec_mfa_provider : bool;
  ec_identity_name : option string;
  ec_config : Config;
  ec_session_cert : option SessionCertState;
  refresh_task : bool;
  session_refresh_task : bool
}.

Record ExtJwtConfig : Type := mkExtJwtConfig { jwt_zt_api : string; jwt_ca : string }.

Section construct.
Context `{JsonLib} `{!RestJson} `{TlsLib} `{EnrollLib} `{CertJson} `{OidcLib} `{WireLib}.

(** [password_body], [parse_expires_at] and [format_instant] are of the settings. *)
Context (cfg : settings).

(** What a login asks, over a TLS client and of a controller. *)
Definition net_login_ops (http : http_client) (base_url : string) : LoginOps net := {|
  ask_controller r := x ← send http (client_request base_url r); mret (reply_of x);
  ask_code := perform (Σ := net) AskCode
|}.

Definition from_identity (id : Config) : result EdgeError EdgeClient :=
  http ← mtls_client id;
  Ok (mkEdgeClient (cfg_zt_api id) http None None Cert false None id None false false).

Definition spawn_session_refresh_timer (c : EdgeClient) : EdgeClient :=
  if session_refresh_task c then c
  else mkEdgeClient (ec_base_url c) (ec_http c) (ec_token c) (ec_expires_at c) (ec_reauth_method c) (ec_mfa_provider c) (ec_identity_name c)
         (ec_config c) (ec_session_cert c) (refresh_task c) true.

Definition spawn_refresh_timer (c : EdgeClient) : EdgeClient :=
  if refresh_task c then c
  else spawn_session_refresh_timer
         (mkEdgeClient (ec_base_url c) (ec_http c) (ec_token c) (ec_expires_at c) (ec_reauth_method c) (ec_mfa_provider c)
            (ec_identity_name c) (ec_config c) (ec_session_cert c) true (session_refresh_task c)).

(** After a login: the token and its end, the name, and the provider kept. *)
Definition logged_in (tok : AuthToken) (exp : option string) (name : option string) (mfa_provider : bool) (c : EdgeClient) : EdgeClient :=
  spawn_refresh_timer
    (mkEdgeClient (ec_base_url c) (ec_http c) (Some tok) (exp ≫= parse_expires_at cfg) (ec_reauth_method c) mfa_provider name
       (ec_config c) (ec_session_cert c) (refresh_task c) (session_refresh_task c)).

(** ** Authentication of an enrolled identity

    The clock is read also for tokens whose end is unknown, where the code does not. *)

Definition authenticate_with_totp (mfa_provider : bool) (c : EdgeClient) : task net (EdgeClient * result EdgeError unit) :=
  let ops := net_login_ops (ec_http c) (ec_base_url c) in
  r ← do_authenticate "{}" mfa_provider;
  mret (match r with
        | Err e => (c, Err e)
        | Ok session =>
            (logged_in (Legacy (as_token session)) (as_expires_at session) (Some (as_identity_name session)) mfa_provider c, Ok tt)
        end).

Definition authenticate_oidc_with_mfa (totp_provider enroll_handler : bool) (c : EdgeClient)
    : task net (EdgeClient * result EdgeError unit) :=
  supported ← controller_supports_oidc (ec_http c) (ec_base_url c);
  if negb supported then mret (c, Err OidcNotSupported)
  else
    match oidc_mtls_client (ec_config c) with
    | Err e => mret (c, Err e)
    | Ok oidc_http =>
        r ← oidc_authenticate oidc_http (oidc_base (ec_base_url c)) CertGrant totp_provider enroll_handler;
        match r with
        | Err e => mret (c, Err e)
        | Ok tokens =>
            now ← perform (Σ := net) Http.Clock;
            mret (logged_in (Oidc (access tokens) (refresh tokens)) (expires_in_to_rfc3339 cfg (expires_in tokens) now)
                    (identity_name tokens) (ec_mfa_provider c) c, Ok tt)
        end
    end.

Definition authenticate : EdgeClient → task net (EdgeClient * result EdgeError unit) := authenticate_with_totp false.
Definition authenticate_oidc_with_totp (totp_provider : bool) : EdgeClient → task net (EdgeClient * result EdgeError unit) :=
  authenticate_oidc_with_mfa totp_provider false.
Definition authenticate_oidc : EdgeClient → task net (EdgeClient * result EdgeError unit) := authenticate_oidc_with_totp false.

Definition acquire_session_cert (c : EdgeClient) : task net (result EdgeError SessionCert) :=
  token ←! mret (ok_or NotAuthenticated (ec_token c));
  acquire_api_session_cert (ec_http c) (ec_base_url c) token.

(** ** Clients without an identity *)

(** The identity that a session certificate is for the channels: its leaf, its key and
    the controller's CAs, each value with its prefix. *)
Definition session_config (zt_api ca_pem : string) (cert : SessionCert) : Config :=
  mkConfig zt_api None None (mkId ("pem:" +:+ sc_key_pem cert) ("pem:" +:+ sc_leaf_pem cert) ("pem:" +:+ ca_pem)).

Definition tls_setup {A} (r : result EnrollError A) : result EdgeError A := map_err (λ e, TlsSetup (enroll_error_text e)) r.

Definition from_updb_with_totp (updb : UpdbConfig) (mfa_provider : bool) : task net (result EdgeError EdgeClient) :=
  let ca_ders := parse_ca_pems (updb_ca updb) in
  http ←! mret (tls_setup (verified_client ca_ders));
  let ops := net_login_ops http (updb_zt_api updb) in
  session ←! do_authenticate_password cfg (updb_username updb) (updb_password updb) mfa_provider;
  let auth := Legacy (as_token session) in
  cert ←! acquire_api_session_cert http (updb_zt_api updb) auth;
  holder ←! mret (cert_state_new cert ca_ders);
  mret (Ok (spawn_refresh_timer
    (mkEdgeClient (updb_zt_api updb) http (Some auth) (as_expires_at session ≫= parse_expires_at cfg)
       (Updb (updb_username updb) (updb_password updb)) mfa_provider (Some (as_identity_name session))
       (session_config (updb_zt_api updb) (updb_ca updb) cert) (Some holder) false false))).

Definition finish_oidc_construction (http : http_client) (zt_api ca_pem : string) (ca_ders : list (list Z)) (tokens : OidcTokens)
    (method : ReauthMethod) : task net (result EdgeError EdgeClient) :=
  let auth := Oidc (access tokens) (refresh tokens) in
  cert ←! acquire_api_session_cert http zt_api auth;
  holder ←! mret (cert_state_new cert ca_ders);
  now ← perform (Σ := net) Http.Clock;
  mret (Ok (spawn_refresh_timer
    (mkEdgeClient zt_api http (Some auth) (expires_in_to_rfc3339 cfg (expires_in tokens) now ≫= parse_expires_at cfg)
       method false (identity_name tokens) (session_config zt_api ca_pem cert) (Some holder) false false))).

(** The two constructors through OIDC. *)
Definition from_oidc (zt_api ca_pem : string) (grant : OidcGrant) (method : ReauthMethod) (totp_provider enroll_handler : bool)
    : task net (result EdgeError EdgeClient) :=
  let ca_ders := parse_ca_pems ca_pem in
  http ←! mret (tls_setup (verified_client_no_redirect ca_ders));
  supported ← controller_supports_oidc http zt_api;
  if negb supported then mret (Err OidcNotSupported)
  else
    tokens ←! oidc_authenticate http (oidc_base zt_api) grant totp_provider enroll_handler;
    finish_oidc_construction http zt_api ca_pem ca_ders tokens method.

Definition from_updb_oidc_with_mfa (updb : UpdbConfig) : bool → bool → task net (result EdgeError EdgeClient) :=
  from_oidc (updb_zt_api updb) (updb_ca updb) (PasswordGrant (updb_username updb) (updb_password updb))
    (Updb (updb_username updb) (updb_password updb)).

Definition from_ext_jwt_with_mfa (jwt : string) (conf : ExtJwtConfig) : bool → bool → task net (result EdgeError EdgeClient) :=
  from_oidc (jwt_zt_api conf) (jwt_ca conf) (ExtJwtGrant jwt) ExtJwt.

Definition from_updb (updb : UpdbConfig) : task net (result EdgeError EdgeClient) := from_updb_with_totp updb false.
Definition from_updb_oidc_with_totp (updb : UpdbConfig) (totp_provider : bool) := from_updb_oidc_with_mfa updb totp_provider false.
Definition from_updb_oidc (updb : UpdbConfig) := from_updb_oidc_with_totp updb false.
Definition from_ext_jwt_with_totp (jwt : string) (conf : ExtJwtConfig) (totp_provider : bool) := from_ext_jwt_with_mfa jwt conf totp_provider false.
Definition from_ext_jwt (jwt : string) (conf : ExtJwtConfig) := from_ext_jwt_with_totp jwt conf false.

(** ** The client that Client runs *)

Definition settings_of (c : EdgeClient) : settings :=
  mkSettings (ec_reauth_method c) (ec_mfa_provider c) (bool_decide (is_Some (ec_session_cert c))) (ec_config c) (url_filter cfg)
    (password_body cfg) (parse_expires_at cfg) (format_instant cfg) (parse_last_change_at cfg) (debug_text cfg).

(** [no_cert] stands where there is no session certificate. *)
Definition client_of (no_cert : SessionCertState) (c : EdgeClient) : client :=
  mkClient (ec_token c) (ec_expires_at c) None (mkPoll None watcher_new ∅) (default no_cert (ec_session_cert c)) None.

End construct.

Local Close Scope string_scope.

(** ** What the requests of a login and of a certificate come from *)

Create HintDb construct.

(** A larger discipline allows what a smaller one does. *)
Lemma wp_talk_weaken `{TlsLib} {A} (a b : history → net_op → Prop) (t : task net A) Q (h : history) :
  (∀ h' o, h `prefix_of` h' → a h' o → b h' o) → wp (talk a) t Q h → wp (talk b) t Q h.
Proof.
  revert h. induction t as [x|o k IH]; intros h Hab; cbn; [done|]. intros [Hm Hk]. split; [by apply Hab|]. intros x Hx.
  apply IH; [|by apply Hk]. intros h' o' Hp. apply Hab. etrans; [|exact Hp]. by exists [ev o x].
Qed.

Lemma mem_prefix `{TlsLib} (h h' : history) e : h `prefix_of` h' → e ∈ h → e ∈ h'.
Proof. intros [h2 ->] Hin. apply elem_of_app. by left. Qed.

Lemma mem_last `{TlsLib} (h : history) e : e ∈ h ++ [e].
Proof. apply elem_of_app. right. by apply list_elem_of_singleton. Qed.

Lemma prefix_last `{TlsLib} (h : history) e : h `prefix_of` h ++ [e].
Proof. by exists [e]. Qed.

#[local] Hint Resolve mem_prefix mem_last prefix_last said_prefix said_last : construct.

Section legacy_spec.
Context `{JsonLib} `{!RestJson} `{TlsLib} `{EnrollLib} `{CertJson} `{OidcLib} `{WireLib}.
Context (http : http_client) (base method body : string) (mfa_provider : bool) (start : history).
#[local] Instance spec_login_ops : LoginOps net := net_login_ops http base.

Definition login_post : Http.request := client_request base (PostAuthenticate method body).
Definition code_post (s : ApiSession) (code : string) : Http.request := client_request base (PostMfa (as_token s) code).
Definition session_get (s : ApiSession) : Http.request := client_request base (GetApiSession (Legacy (as_token s))).

(** The controller gave a session in reply to a request. *)
Definition told_session (h : history) (r : Http.request) (s : ApiSession) : Prop :=
  ∃ p b, said h http r p ∧ is_success (status p) = true ∧ text p = Ok b ∧ api_session_body b = Ok s.

(** A session that still wants a code, and one whose code was accepted. *)
Definition half_open (h : history) (s : ApiSession) : Prop := told_session h login_post s ∧ auth_queries s ≠ [].
Definition code_accepted (h : history) (s : ApiSession) : Prop :=
  half_open h s ∧ ∃ code p, ev AskCode (Ok code) ∈ h ∧ said h http (code_post s code) p ∧ is_success (status p) = true.

(** A session that is open: at once, or as it is read after its code was accepted. *)
Definition session_opened (h : history) (s : ApiSession) : Prop :=
  auth_queries s = [] ∧ (told_session h login_post s ∨ ∃ s0, code_accepted h s0 ∧ told_session h (session_get s0) s).

Inductive login_may (h : history) : net_op → Prop :=
| may_post : h = start → login_may h (Send http login_post)
| may_ask s : half_open h s → mfa_provider = true → login_may h AskCode
| may_submit s code : half_open h s → ev AskCode (Ok code) ∈ h → login_may h (Send http (code_post s code))
| may_read s : code_accepted h s → login_may h (Send http (session_get s)).

Lemma told_session_prefix h h' r s : h `prefix_of` h' → told_session h r s → told_session h' r s.
Proof. intros Hp (p & b & Hs & E). exists p, b. split; [by eapply said_prefix|done]. Qed.

Lemma half_open_prefix h h' s : h `prefix_of` h' → half_open h s → half_open h' s.
Proof. intros Hp [Ht E]. split; [by eapply told_session_prefix|done]. Qed.

Lemma code_accepted_prefix h h' s : h `prefix_of` h' → code_accepted h s → code_accepted h' s.
Proof. intros Hp [Ht (code & p & Hc & Hs & E)]. split; [by eapply half_open_prefix|]. exists code, p. eauto with construct. Qed.

Lemma opened_prefix h h' s : h `prefix_of` h' → session_opened h s → session_opened h' s.
Proof.
  intros Hp [Hq [Ht|(s0 & Ha & Ht)]]; split; [done| |done|]; [left; by eapply told_session_prefix|]. right. exists s0.
  split; [by eapply code_accepted_prefix|by eapply told_session_prefix].
Qed.

(** A reply that is a session. *)
Lemma session_reply x s :
  legacy_authenticate_reply (reply_of x) = Ok s →
  ∃ p b, x = Ok p ∧ is_success (status p) = true ∧ text p = Ok b ∧ api_session_body b = Ok s.
Proof.
  destruct x as [p|e]; cbn; [|done]. destruct (text p) as [b|e] eqn:Et; [|done].
  destruct (is_success (status p)) eqn:Es; [|by destruct (parse_error_envelope b)].
  destruct (api_session_body b) as [s'|e] eqn:Eb; cbn; [|done]. intros [= <-]. by exists p, b.
Qed.

Lemma told_last h l x r s :
  legacy_authenticate_reply (reply_of x) = Ok s → told_session (h ++ [ev (Send http r) (l, x)]) r s.
Proof. intros (p & b & -> & E)%session_reply. exists p, b. split; [apply said_last|done]. Qed.

Lemma wp_controller {A} allowed r (k : http_reply → task net A) Q h :
  allowed h (Send http (client_request base r)) →
  (∀ l x, wp (talk allowed) (k (reply_of x)) Q (h ++ [ev (Send http (client_request base r)) (l, x)])) →
  wp (talk allowed) (ask_controller r ≫= k) Q h.
Proof. intros Hm Hk. split; [done|]. intros [l x] _. apply Hk. Qed.

Lemma wp_mfa allowed s :
  (∀ h o, login_may h o → allowed h o) →
  ∀ h, half_open h s →
  wp (talk allowed) (satisfy_legacy_mfa mfa_provider s) (λ r h, match r with Ok s => session_opened h s | Err _ => True end) h.
Proof.
  intros Hm h Hh. unfold satisfy_legacy_mfa. destruct mfa_provider eqn:Em; cbn [negb]; [|done].
  apply wp_talk; [apply Hm; by eapply may_ask|]. intros [code|e] _; [|done]. set (h2 := h ++ _).
  assert (Hh2 : half_open h2 s) by (eapply half_open_prefix; [apply prefix_last|done]). assert (Hc : ev AskCode (Ok code) ∈ h2) by apply mem_last.
  unfold submit_mfa_code, refresh_get, try. rewrite wp_bind. apply (wp_controller _ (PostMfa (as_token s) code)); [by apply Hm, may_submit|]. intros l2 x2. cbn [wp mret task_ret].
  set (h3 := h2 ++ _). destruct (submit_mfa_code_reply (reply_of x2)) as [[]|e] eqn:Es; [|done].
  assert (Ha : code_accepted h3 s).
  { split; [eapply half_open_prefix; [apply prefix_last|done]|]. destruct x2 as [p|e]; [|done]. exists code, p.
    split; [eapply mem_prefix; [apply prefix_last|done]|]. split; [apply said_last|]. cbn in Es. destruct (is_success (status p)); [done|].
    case_match; [done|]. by destruct (parse_error_envelope _). }
  rewrite wp_bind. apply (wp_controller _ (GetApiSession (Legacy (as_token s)))); [by apply Hm, may_read|]. intros l3 x3. cbn [wp mret task_ret].
  destruct (do_refresh_get (reply_of x3)) as [s'|e] eqn:Ed3; [|done]. apply (told_last h3 l3 _ (session_get s)) in Ed3.
  destruct (auth_queries s') as [|? ?] eqn:Eq'; [|done]. split; [done|]. right. exists s. split; [|exact Ed3].
  eapply code_accepted_prefix; [apply prefix_last|done].
Qed.

Lemma legacy_wp allowed :
  (∀ h o, login_may h o → allowed h o) →
  wp (talk allowed) (legacy_authenticate method body mfa_provider) (λ r h, match r with Ok s => session_opened h s | Err _ => True end) start.
Proof.
  intros Hm. apply (wp_controller _ (PostAuthenticate method body)); [by apply Hm, may_post|]. intros l x.
  destruct (legacy_authenticate_reply (reply_of x)) as [s|e] eqn:Ed; [|done]. apply (told_last start l _ login_post) in Ed.
  destruct (auth_queries s) as [|q qs] eqn:Eq; [split; [done|by left]|]. apply wp_mfa; [done|]. split; [done|by rewrite Eq].
Qed.

(** A controller that opens a session: at once, or after a code that the application
    can give. *)
Definition opens (env : environment) : Prop := ∀ h, ∃ l p b s,
  env h (Send http login_post) = (l, Ok p) ∧ is_success (status p) = true ∧ text p = Ok b ∧ api_session_body b = Ok s ∧
  (auth_queries s = [] ∨ mfa_provider = true ∧ ∀ h', (∃ code, env h' AskCode = Ok code) ∧
    (∀ code, ∃ l' p', env h' (Send http (code_post s code)) = (l', Ok p') ∧ is_success (status p') = true) ∧
    ∃ l' p' b' s', env h' (Send http (session_get s)) = (l', Ok p') ∧ is_success (status p') = true ∧ text p' = Ok b' ∧
      api_session_body b' = Ok s' ∧ auth_queries s' = []).

Lemma reads_session p b s :
  is_success (status p) = true → text p = Ok b → api_session_body b = Ok s → legacy_authenticate_reply (reply_of (Ok p)) = Ok s.
Proof. intros Hs Ht Hb. cbn. rewrite Ht, Hs, Hb. done. Qed.

Lemma converse_controller {A} (env : environment) r (k : http_reply → task net A) h :
  converse env (ask_controller r ≫= k) h =
  converse env (k (reply_of (env h (Send http (client_request base r))).2)) (h ++ [ev (Send http (client_request base r)) (env h (Send http (client_request base r)))]).
Proof. done. Qed.

Lemma legacy_ok env h :
  opens env → ∃ s, (converse env (legacy_authenticate method body mfa_provider) h).1 = Ok s.
Proof.
  intros Ho. unfold legacy_authenticate. rewrite converse_controller. destruct (Ho h) as (l & p & b & s & He & Hs & Ht & Hb & Hq).
  fold login_post. rewrite He. cbn [snd]. rewrite (reads_session p b s) by done. set (h1 := h ++ _). clearbody h1.
  destruct (auth_queries s) as [|q qs] eqn:Eq; [by exists s|]. destruct Hq as [?|[Hmfa Hf]]; [done|].
  unfold satisfy_legacy_mfa. rewrite Hmfa. cbn [negb]. unfold ask_code. cbn [spec_login_ops net_login_ops]. converse_op.
  destruct (proj1 (Hf h1)) as [code Hc]. rewrite Hc. set (h2 := h1 ++ _). clearbody h2.
  rewrite converse_try. unfold submit_mfa_code. rewrite converse_controller. fold (code_post s code).
  destruct (proj1 (proj2 (Hf h2)) code) as (l2 & p2 & He2 & Hs2). rewrite He2. cbn [converse fst snd mret task_ret reply_of submit_mfa_code_reply].
  rewrite Hs2. set (h3 := h2 ++ _). clearbody h3. rewrite converse_try. unfold refresh_get. rewrite converse_controller. fold (session_get s).
  destruct (proj2 (proj2 (Hf h3))) as (l3 & p3 & b3 & s3 & He3 & Hs3 & Ht3 & Hb3 & Hq3). rewrite He3. cbn [converse fst snd mret task_ret].
  change (do_refresh_get (reply_of (Ok p3))) with (legacy_authenticate_reply (reply_of (Ok p3))). rewrite (reads_session p3 b3 s3) by done.
  cbn [converse fst snd mret task_ret]. rewrite Hq3. by exists s3.
Qed.

End legacy_spec.

#[local] Hint Resolve told_session_prefix half_open_prefix code_accepted_prefix opened_prefix : construct.

Section mint_spec.
Context `{JsonLib} `{!RestJson} `{TlsLib} `{EnrollLib} `{CertJson}.
Context (http : http_client) (base : string) (holds : history → AuthToken → Prop).

(** The key and the request of the certificate of a session. *)
Definition drew_key (h : history) (kc : KeyAndCsr) : Prop :=
  ∃ key csr, ev (GenerateKey EcP256) (Ok key) ∈ h ∧ csr_of_key SESSION_CERT_CN key = Ok csr ∧ kc = mkKeyAndCsr (serialize_key key) csr.
Definition cert_post (token : AuthToken) (kc : KeyAndCsr) : Http.request := cert_request base token (csr_pem kc) 15.

Inductive mint_may (h : history) : net_op → Prop :=
| may_draw token : holds h token → mint_may h (GenerateKey EcP256)
| may_mint token kc : holds h token → drew_key h kc → mint_may h (Send http (cert_post token kc)).

(** A certificate that the controller gave for our key. *)
Definition minted (h : history) (token : AuthToken) (cert : SessionCert) : Prop :=
  ∃ kc p b id chain leaf, drew_key h kc ∧ said h http (cert_post token kc) p ∧ status p = CREATED ∧ text p = Ok b ∧
    session_cert_json b = Ok (id, chain) ∧ extract_leaf_pem chain = Ok leaf ∧ cert = mkSessionCert leaf chain (key_pem kc) id.

Lemma drew_key_prefix h h' kc : h `prefix_of` h' → drew_key h kc → drew_key h' kc.
Proof. intros Hp (key & csr & Hin & E). exists key, csr. eauto with construct. Qed.

Lemma minted_prefix h h' token cert : h `prefix_of` h' → minted h token cert → minted h' token cert.
Proof.
  intros Hp (kc & p & b & id & chain & leaf & Hk & Hs & E). exists kc, p, b, id, chain, leaf.
  split; [by eapply drew_key_prefix|]. eauto with construct.
Qed.

Lemma parse_cert_reply_Ok key x cert :
  parse_cert_reply key (reply_of x) = Ok cert →
  ∃ p b id chain leaf, x = Ok p ∧ status p = CREATED ∧ text p = Ok b ∧ session_cert_json b = Ok (id, chain) ∧
    extract_leaf_pem chain = Ok leaf ∧ cert = mkSessionCert leaf chain key id.
Proof.
  destruct x as [p|e]; cbn [reply_of parse_cert_reply]; [|done]. destruct (text p) as [b|e] eqn:Et; [|done].
  destruct (Z.eqb_spec (status p) CREATED) as [Hs|_]; cbn [negb]; [|by destruct (Rest.parse_error_envelope b)].
  destruct (session_cert_json b) as [[id chain]|e] eqn:Ej; cbn; [|done]. destruct (extract_leaf_pem chain) as [leaf|e] eqn:El; cbn; [|done].
  intros [= <-]. by exists p, b, id, chain, leaf.
Qed.

Lemma session_csr_wp allowed h :
  allowed h (GenerateKey EcP256) →
  wp (talk allowed) (generate_csr SESSION_CERT_CN EcP256)
    (λ r h', match r with Ok kc => drew_key h' kc | Err _ => True end) h.
Proof.
  intros Hm. apply wp_talk; [done|]. intros [key|e] _; [|done]. cbn. unfold build_csr.
  destruct (csr_of_key SESSION_CERT_CN key) as [csr|e] eqn:Ec; cbn; [|done]. exists key, csr. split; [apply mem_last|done].
Qed.

Lemma acquire_wp allowed h token :
  holds h token → (∀ h h', h `prefix_of` h' → holds h token → holds h' token) → (∀ h o, mint_may h o → allowed h o) →
  wp (talk allowed) (acquire_api_session_cert http base token)
    (λ r h', match r with Ok cert => minted h' token cert | Err _ => True end) h.
Proof.
  intros Hh Hmono Hm. unfold acquire_api_session_cert. rewrite wp_bind.
  eapply wp_mono; [apply wp_extends, session_csr_wp, Hm; by eapply may_draw|]. intros r h1 [Hk Hp]. apply wp_try_ret; [done|]. intros kc Hkc.
  destruct r as [kc'|e]; [|done]. injection Hkc as ->.
  split; [apply Hm, may_mint; [|done]; by eapply Hmono|]. intros [l x] _. cbn -[parse_cert_reply reply_of].
  destruct (parse_cert_reply _ (reply_of x)) as [cert|e] eqn:Ep; [|done].
  apply parse_cert_reply_Ok in Ep as (p & b & id & chain & leaf & -> & E).
  exists kc, p, b, id, chain, leaf. split; [eapply drew_key_prefix; [apply prefix_last|done]|]. split; [apply said_last|done].
Qed.

(** A controller that gives a certificate, to a client that can make a key. *)
Record mints (env : environment) : Prop := {
  mints_key h : ∃ key csr, env h (GenerateKey EcP256) = Ok key ∧ csr_of_key SESSION_CERT_CN key = Ok csr;
  mints_cert h token kc : ∃ l p b id chain leaf t, env h (Send http (cert_post token kc)) = (l, Ok p) ∧ status p = CREATED ∧ text p = Ok b ∧
    session_cert_json b = Ok (id, chain) ∧ extract_leaf_pem chain = Ok leaf ∧ parse_not_after leaf = Ok t
}.

Lemma session_csr_ok (env : environment) h key csr :
  env h (GenerateKey EcP256) = Ok key → csr_of_key SESSION_CERT_CN key = Ok csr →
  (converse env (generate_csr SESSION_CERT_CN EcP256) h).1 = Ok (mkKeyAndCsr (serialize_key key) csr).
Proof. intros Hkey Hcsr. cbn. rewrite Hkey. cbn. unfold build_csr. by rewrite Hcsr. Qed.

Lemma post_csr_sends (env : environment) token kc h :
  (converse env (post_csr_and_parse (CertOps0 := net_cert_ops http base) token (csr_pem kc) (key_pem kc) SESSION_CERT_REQUEST_TIMEOUT) h).1 =
  parse_cert_reply (key_pem kc) (reply_of (env h (Send http (cert_post token kc))).2).
Proof. done. Qed.

Lemma acquire_ok env token h :
  mints env → ∃ cert t, (converse env (acquire_api_session_cert http base token) h).1 = Ok cert ∧ parse_not_after (sc_leaf_pem cert) = Ok t.
Proof.
  intros Hm. unfold acquire_api_session_cert. rewrite converse_bind. destruct (mints_key _ Hm h) as (key & csr & Hkey & Hcsr).
  rewrite (session_csr_ok env h key csr) by done. set (h1 := (converse _ _ _).2). clearbody h1. cbn [map_err].
  rewrite converse_try. cbn [converse fst snd mret task_ret]. set (kc := mkKeyAndCsr _ _).
  destruct (mints_cert _ Hm h1 token kc) as (l & p & b & id & chain & leaf & t & He & Hs & Ht & Hj & Hl & Hn).
  exists (mkSessionCert leaf chain (key_pem kc) id), t. split; [|done]. rewrite post_csr_sends, He. cbn [fst snd reply_of parse_cert_reply].
  rewrite Hs, Ht. cbn [negb Z.eqb Pos.eqb CREATED]. rewrite Hj. cbn. by rewrite Hl.
Qed.

End mint_spec.

#[local] Hint Resolve drew_key_prefix minted_prefix : construct.

(** ** The constructors *)

Section constructors.
Context `{JsonLib} `{!RestJson} `{TlsLib} `{EnrollLib} `{CertJson} `{OidcLib} `{WireLib}.
Context (cfg : settings).

(** The client for the CAs alone: it verifies every server by them, and shows no
    certificate. *)
Definition cas_client (ca : string) (redirects : bool) : http_client := mkHttpClient (Roots (parse_ca_pems ca)) None redirects.

Lemma cas_client_Ok ca redirects c :
  build_verified_client (parse_ca_pems ca) (negb redirects) = Ok c → c = cas_client ca redirects.
Proof.
  unfold build_verified_client, checked_client. destruct (add_roots _); cbn; [|done]. rewrite negb_involutive.
  destruct (build_client _); cbn; [|done]. by intros [= <-].
Qed.

Lemma tls_setup_Ok {A} (r : result EnrollError A) a : tls_setup r = Ok a → r = Ok a.
Proof. destruct r; cbn; congruence. Qed.

Lemma cert_state_new_Ok cert roots st :
  cert_state_new cert roots = Ok st →
  ∃ t, parse_not_after (sc_leaf_pem cert) = Ok t ∧ st = mkCertState (sc_leaf_pem cert) (sc_key_pem cert) roots t None.
Proof. unfold cert_state_new. destruct (parse_not_after _) as [t|e]; cbn; [|done]. intros [= <-]. by exists t. Qed.

Lemma pem_value_Ok v pem : pem_value v = Ok pem → v = ("pem:" +:+ pem)%string.
Proof. unfold pem_value. destruct (strip_prefix _ v) eqn:E; cbn [ok_or]; [|done]. intros [= <-]. by apply strip_prefix_Some. Qed.

(** An enrolled identity logs in. *)
Lemma from_identity_Ok id c :
  from_identity id = Ok c →
  ∃ cc cert key, client_config id = Ok cc ∧ id_cert (cfg_id id) = ("pem:" +:+ cert)%string ∧ id_key (cfg_id id) = ("pem:" +:+ key)%string ∧
    c = mkEdgeClient (cfg_zt_api id) (mkHttpClient (Roots (cc_roots cc)) (Some (cert, key)) true) None None Cert false None id None false false.
Proof.
  unfold from_identity, mtls_client, identity_client. destruct (client_config id) as [cc|e]; cbn [mbind result_bind]; [|done].
  destruct (pem_value (id_cert (cfg_id id))) as [cert|] eqn:Ec; cbn [mbind result_bind]; [|done].
  destruct (pem_value (id_key (cfg_id id))) as [key|] eqn:Ek; cbn [mbind result_bind]; [|done].
  destruct (build_client _); cbn; [|done]. intros [= <-]. exists cc, cert, key. split_and!; [done|by apply pem_value_Ok..|done].
Qed.

(** The client after a login: what it logged in with is replaced, its timers run. *)
Record logged_in_as (c c' : EdgeClient) (token : AuthToken) (exp : option Z) (name : option string) (mfa : bool) : Prop := {
  li_session : ec_token c' = Some token ∧ ec_expires_at c' = exp ∧ ec_identity_name c' = name ∧ ec_mfa_provider c' = mfa;
  li_kept : ec_base_url c' = ec_base_url c ∧ ec_http c' = ec_http c ∧ ec_reauth_method c' = ec_reauth_method c ∧
    ec_config c' = ec_config c ∧ ec_session_cert c' = ec_session_cert c;
  li_timers : refresh_task c' = true ∧ (refresh_task c = false ∨ session_refresh_task c = true → session_refresh_task c' = true)
}.

Lemma logged_in_spec tok exp name mfa c :
  logged_in_as c (logged_in cfg tok exp name mfa c) tok (exp ≫= parse_expires_at cfg) name mfa.
Proof.
  unfold logged_in, spawn_refresh_timer, spawn_session_refresh_timer. cbn.
  destruct (refresh_task c) eqn:E1; [|destruct (session_refresh_task c) eqn:E2; cbn]; split; cbn; rewrite ?E1, ?E2; intuition congruence.
Qed.

Definition totp_outcome (c : EdgeClient) (mfa : bool) (x : EdgeClient * result EdgeError unit) (h : history) : Prop :=
  match x.2 with
  | Ok _ => ∃ s, session_opened (ec_http c) (ec_base_url c) "cert"%string "{}"%string h s ∧
      logged_in_as c x.1 (Legacy (as_token s)) (as_expires_at s ≫= parse_expires_at cfg) (Some (as_identity_name s)) mfa
  | Err _ => x.1 = c
  end.

Lemma authenticate_wp c mfa start :
  wp (talk (login_may (ec_http c) (ec_base_url c) "cert"%string "{}"%string mfa start)) (authenticate_with_totp cfg mfa c) (totp_outcome c mfa) start.
Proof.
  unfold authenticate_with_totp. rewrite wp_bind. eapply wp_mono; [by apply legacy_wp|]. intros [s|e] h Hs; cbn; [|done].
  exists s. split; [done|apply logged_in_spec].
Qed.

(** With a password: what may be sent when, and what the client is made of. *)
Section updb.
Context (updb : UpdbConfig) (mfa_provider : bool).

Definition updb_http : http_client := cas_client (updb_ca updb) true.
Definition updb_body : string :=
  password_body cfg (if bool_decide (updb_username updb = ""%string) then None else Some (updb_username updb)) (updb_password updb).
Definition updb_opened : history → ApiSession → Prop := session_opened updb_http (updb_zt_api updb) "password"%string updb_body.
Definition updb_holds (h : history) (token : AuthToken) : Prop := ∃ s, updb_opened h s ∧ token = Legacy (as_token s).

Definition updb_may (h : history) (o : net_op) : Prop :=
  login_may updb_http (updb_zt_api updb) "password"%string updb_body mfa_provider [] h o ∨ mint_may updb_http (updb_zt_api updb) updb_holds h o.

Definition updb_built (h : history) (c : EdgeClient) : Prop :=
  ∃ s cert t, updb_opened h s ∧ minted updb_http (updb_zt_api updb) h (Legacy (as_token s)) cert ∧ parse_not_after (sc_leaf_pem cert) = Ok t ∧
    c = mkEdgeClient (updb_zt_api updb) updb_http (Some (Legacy (as_token s))) (as_expires_at s ≫= parse_expires_at cfg)
          (Updb (updb_username updb) (updb_password updb)) mfa_provider (Some (as_identity_name s))
          (session_config (updb_zt_api updb) (updb_ca updb) cert)
          (Some (mkCertState (sc_leaf_pem cert) (sc_key_pem cert) (parse_ca_pems (updb_ca updb)) t None)) true true.

Lemma from_updb_wp :
  wp (talk updb_may) (from_updb_with_totp cfg updb mfa_provider) (λ r h, match r with Ok c => updb_built h c | Err _ => True end) [].
Proof.
  unfold from_updb_with_totp. apply wp_try_ret; [done|]. intros http Hhttp%tls_setup_Ok%(cas_client_Ok _ true). subst http. fold updb_http.
  eapply wp_try_call; [apply legacy_wp; intros h o Hm; by left|done|]. intros s h1 Hs _.
  eapply wp_try_call; [apply (acquire_wp _ _ updb_holds)|done|].
  - by exists s.
  - intros h h' Hp (s' & Hs' & ->). exists s'. split; [by eapply opened_prefix|done].
  - intros h o Hm. by right.
  - intros cert h2 Hc Hp. apply wp_try_ret; [done|]. intros st (t & Ht & ->)%cert_state_new_Ok.
    exists s, cert, t. split; [by eapply opened_prefix|done].
Qed.

(** What makes the construction succeed. *)
Record updb_served (env : environment) : Prop := {
  us_client : verified_client (parse_ca_pems (updb_ca updb)) = Ok updb_http;
  us_opens : opens updb_http (updb_zt_api updb) "password"%string updb_body mfa_provider env;
  us_mints : mints updb_http (updb_zt_api updb) env
}.

Lemma from_updb_ok env : updb_served env → ∃ c, (converse env (from_updb_with_totp cfg updb mfa_provider) []).1 = Ok c.
Proof.
  intros [Hc Ho Hm]. unfold from_updb_with_totp. rewrite Hc. rewrite converse_try. cbn [tls_setup map_err converse fst snd mret task_ret].
  rewrite converse_try. destruct (legacy_ok _ _ _ _ _ env [] Ho) as [s Hs]. unfold do_authenticate_password, spec_login_ops in *. fold updb_body. rewrite Hs.
  set (h1 := (converse _ _ _).2). clearbody h1. rewrite converse_try.
  destruct (acquire_ok _ _ env (Legacy (as_token s)) h1 Hm) as (cert & t & -> & Ht). set (h2 := (converse _ _ _).2). clearbody h2.
  unfold cert_state_new. rewrite Ht. cbn. by eexists.
Qed.

End updb.

(** Through OIDC: the controller says first that it supports it, over the client
    [probe]; then comes the login, over [http]. *)
Section probe.
Context (probe http : http_client) (zt_api : string) (grant : OidcGrant) (totp_provider enroll_handler : bool).

Definition version_get : Http.request := mkRequest GET (zt_api +:+ "/version") [] None None.

Definition supported (h : history) : Prop :=
  ∃ l p b caps, h = [ev (Send probe version_get) (l, Ok p)] ∧ text p = Ok b ∧ capabilities_json b = Some caps ∧ "OIDC_AUTH"%string ∈ caps.

(** Tokens granted in the login after it. *)
Definition oidc_granted (h : history) (tokens : OidcTokens) : Prop :=
  ∃ start, supported start ∧ granted http (oidc_base zt_api) start h tokens.

Inductive probed_may (h : history) : net_op → Prop :=
| may_probe : h = [] → probed_may h (Send probe version_get)
| may_log_in start o : supported start → oidc_may http (oidc_base zt_api) grant totp_provider enroll_handler start h o → probed_may h o.

Lemma oidc_granted_prefix h h' tokens : h `prefix_of` h' → oidc_granted h tokens → oidc_granted h' tokens.
Proof.
  intros Hp (start & Hst & pkce & state & nonce & cb & loc & code & p & body & tr & idt & claims & Hd & Hr & Hc & Hs & E).
  exists start. split; [done|]. exists pkce, state, nonce, cb, loc, code, p, body, tr, idt, claims.
  split; [by eapply drawn_prefix|]. split; [by eapply redirected_prefix|]. split; [done|]. split; [by eapply said_prefix|done].
Qed.

Lemma supports_wp allowed :
  (∀ h o, probed_may h o → allowed h o) →
  wp (talk allowed) (controller_supports_oidc probe zt_api) (λ b h, b = true → supported h) [].
Proof.
  intros Hm. split; [by apply Hm, may_probe|]. intros [l [p|e]] _; cbn; [|done]. destruct (text p) as [b|e] eqn:Et; [|done].
  destruct (capabilities_json b) as [caps|] eqn:Ec; [|done]. intros Hin%bool_decide_eq_true. by exists l, p, b, caps.
Qed.

Lemma probed_login_wp allowed h :
  (∀ h o, probed_may h o → allowed h o) → supported h →
  wp (talk allowed) (oidc_authenticate http (oidc_base zt_api) grant totp_provider enroll_handler)
    (λ r h, match r with Ok tokens => oidc_granted h tokens | Err _ => True end) h.
Proof.
  intros Hm Hs. eapply wp_mono.
  - eapply wp_talk_weaken; [|apply (oidc_authenticate_wp http (oidc_base zt_api) grant totp_provider enroll_handler h)].
    intros h' o _ Ho. apply Hm. by eapply may_log_in.
  - intros [tokens|e] h' Hg; [|done]. by exists h.
Qed.

End probe.

(** An enrolled identity, through OIDC: the probe goes over the client's own TLS
    client, the login over one that follows no redirect. *)
Definition oidc_outcome (c : EdgeClient) (http : http_client) (x : EdgeClient * result EdgeError unit) (h : history) : Prop :=
  match x.2 with
  | Ok _ => ∃ tokens now, oidc_granted (ec_http c) http (ec_base_url c) h tokens ∧ ev Http.Clock now ∈ h ∧
      logged_in_as c x.1 (Oidc (access tokens) (refresh tokens)) (expires_in_to_rfc3339 cfg (expires_in tokens) now ≫= parse_expires_at cfg)
        (identity_name tokens) (ec_mfa_provider c)
  | Err _ => x.1 = c
  end.

Definition oidc_authenticate_may (c : EdgeClient) (http : http_client) (totp_provider enroll_handler : bool) (h : history) (o : net_op) : Prop :=
  probed_may (ec_http c) http (ec_base_url c) CertGrant totp_provider enroll_handler h o ∨
  o = Http.Clock ∧ ∃ tokens, oidc_granted (ec_http c) http (ec_base_url c) h tokens.

Lemma authenticate_oidc_wp c http totp_provider enroll_handler :
  oidc_mtls_client (ec_config c) = Ok http →
  wp (talk (oidc_authenticate_may c http totp_provider enroll_handler)) (authenticate_oidc_with_mfa cfg totp_provider enroll_handler c)
    (oidc_outcome c http) [].
Proof.
  intros Hc. unfold authenticate_oidc_with_mfa. rewrite wp_bind.
  eapply wp_mono; [apply (supports_wp _ http _ CertGrant totp_provider enroll_handler); by left|]. intros [] h Hs; cbn [negb]; [|done].
  rewrite Hc, wp_bind. eapply wp_mono; [apply probed_login_wp; [by left|by apply Hs]|]. intros [tokens|e] h1 Hg; [|done].
  apply wp_talk; [right; split; [done|by exists tokens]|]. intros now _. exists tokens, now.
  split; [eapply oidc_granted_prefix; [apply prefix_last|done]|]. split; [apply mem_last|apply logged_in_spec].
Qed.

Section oidc.
Context (zt_api ca : string) (grant : OidcGrant) (method : ReauthMethod) (totp_provider enroll_handler : bool).

Definition oidc_http : http_client := cas_client ca false.
Definition oidc_holds (h : history) (token : AuthToken) : Prop :=
  ∃ tokens, oidc_granted oidc_http oidc_http zt_api h tokens ∧ token = Oidc (access tokens) (refresh tokens).

Inductive construct_may (h : history) : net_op → Prop :=
| may_authenticate o : probed_may oidc_http oidc_http zt_api grant totp_provider enroll_handler h o → construct_may h o
| may_certify o : mint_may oidc_http zt_api oidc_holds h o → construct_may h o
| may_time token : oidc_holds h token → construct_may h Http.Clock.

Definition oidc_built (h : history) (c : EdgeClient) : Prop :=
  ∃ tokens cert t now, oidc_granted oidc_http oidc_http zt_api h tokens ∧
    minted oidc_http zt_api h (Oidc (access tokens) (refresh tokens)) cert ∧
    parse_not_after (sc_leaf_pem cert) = Ok t ∧ ev Http.Clock now ∈ h ∧
    c = mkEdgeClient zt_api oidc_http (Some (Oidc (access tokens) (refresh tokens)))
          (expires_in_to_rfc3339 cfg (expires_in tokens) now ≫= parse_expires_at cfg) method false (identity_name tokens)
          (session_config zt_api ca cert) (Some (mkCertState (sc_leaf_pem cert) (sc_key_pem cert) (parse_ca_pems ca) t None)) true true.

Lemma oidc_holds_prefix h h' token : h `prefix_of` h' → oidc_holds h token → oidc_holds h' token.
Proof. intros Hp (tokens & Hg & E). exists tokens. split; [by eapply oidc_granted_prefix|done]. Qed.

Lemma finish_wp h tokens :
  oidc_granted oidc_http oidc_http zt_api h tokens →
  wp (talk construct_may) (finish_oidc_construction cfg oidc_http zt_api ca (parse_ca_pems ca) tokens method)
    (λ r h', match r with Ok c => oidc_built h' c | Err _ => True end) h.
Proof.
  intros Hg. assert (Hh : oidc_holds h (Oidc (access tokens) (refresh tokens))) by by exists tokens.
  eapply wp_try_call; [apply (acquire_wp _ _ oidc_holds _ _ _ Hh (λ h h', oidc_holds_prefix h h' _)); intros; by apply may_certify|done|].
  intros cert h1 Hc Hp. apply wp_try_ret; [done|]. intros st (t & Ht & ->)%cert_state_new_Ok.
  apply wp_talk; [eapply may_time, oidc_holds_prefix; done|]. intros now _.
  exists tokens, cert, t, now. split; [eapply oidc_granted_prefix; [|done]; etrans; [done|apply prefix_last]|].
  split; [eapply minted_prefix; [apply prefix_last|done]|]. split; [done|]. split; [apply mem_last|done].
Qed.

Lemma from_oidc_wp :
  wp (talk construct_may) (from_oidc cfg zt_api ca grant method totp_provider enroll_handler)
    (λ r h, match r with Ok c => oidc_built h c | Err _ => True end) [].
Proof.
  unfold from_oidc. apply wp_try_ret; [done|]. intros http Hhttp%tls_setup_Ok%(cas_client_Ok _ false). subst http. fold oidc_http.
  rewrite wp_bind. eapply wp_mono; [apply (supports_wp _ oidc_http _ grant totp_provider enroll_handler), may_authenticate|]. intros [] h1 Hs; cbn [negb]; [|done]. specialize (Hs eq_refl).
  eapply wp_try_call; [apply probed_login_wp; [apply may_authenticate|done]|done|]. intros tokens h2 Hg _. by apply finish_wp.
Qed.

Lemma oidc_run_sound env :
  (∀ h o, lawful o (env h o)) →
  let r := converse env (from_oidc cfg zt_api ca grant method totp_provider enroll_handler) [] in
  all_allowed construct_may [] r.2 ∧ ∀ c, r.1 = Ok c → oidc_built r.2 c.
Proof.
  intros Henv r. destruct (converse_sound _ env _ _ [] Henv from_oidc_wp) as (HQ & _ & Hall).
  split; [exact Hall|]. intros c Hc. fold r in HQ. by rewrite Hc in HQ.
Qed.

(** What makes the construction succeed: the probe, then the login after it. *)
Definition oidc_start (env : environment) : history := [ev (Send oidc_http (version_get zt_api)) (env [] (Send oidc_http (version_get zt_api)))].

Record oidc_served (env : environment) : Prop := {
  os_client : verified_client_no_redirect (parse_ca_pems ca) = Ok oidc_http;
  os_probe : supported oidc_http zt_api (oidc_start env);
  os_follows : follows_protocol oidc_http (oidc_base zt_api) grant totp_provider enroll_handler (oidc_start env) env;
  os_mints : mints oidc_http zt_api env
}.

Definition replied (e : event) : option (result string response) :=
  match e with existT (Send _ _) x => Some x.2 | _ => None end.

Lemma supports_ok env :
  supported oidc_http zt_api (oidc_start env) → converse env (controller_supports_oidc oidc_http zt_api) [] = (true, oidc_start env).
Proof.
  intros (l & p & b & caps & He & Ht & Hc & Hin). apply (f_equal (λ h, head h ≫= replied)) in He. cbn in He. injection He as He.
  unfold controller_supports_oidc, send. rewrite converse_bind. cbn. fold (version_get zt_api). rewrite He, Ht, Hc.
  by rewrite bool_decide_eq_true_2.
Qed.

Lemma from_oidc_ok env :
  oidc_served env → ∃ c, (converse env (from_oidc cfg zt_api ca grant method totp_provider enroll_handler) []).1 = Ok c.
Proof.
  intros [Hc Hs Hf Hm]. unfold from_oidc. rewrite Hc. rewrite converse_try. cbn [tls_setup map_err converse fst snd mret task_ret].
  rewrite converse_bind, supports_ok by done. cbn [fst snd negb]. rewrite converse_try.
  destruct (oidc_authenticate_ok _ _ _ _ _ _ env Hf) as [tokens ->]. set (h1 := (converse _ _ _).2). clearbody h1.
  unfold finish_oidc_construction. rewrite converse_try.
  destruct (acquire_ok _ _ env (Oidc (access tokens) (refresh tokens)) h1 Hm) as (cert & t & -> & Ht). set (h2 := (converse _ _ _).2). clearbody h2.
  unfold cert_state_new. rewrite Ht. cbn. by eexists.
Qed.

End oidc.

(** ** Properties *)

(** C21. Making a client with a password, whatever the controller and the application answer:
    every request goes to servers that the configured CAs verify; the password only into
    the first login; a code only for a session that wants one; the key is drawn and the
    certificate asked for only for a session that is open; and the client that comes out
    is the session's, with a certificate that the controller gave for that key. *)
Theorem updb_construction_sound updb mfa_provider env :
  (∀ h o, lawful o (env h o)) →
  let r := converse env (from_updb_with_totp cfg updb mfa_provider) [] in
  all_allowed (updb_may updb mfa_provider) [] r.2 ∧ ∀ c, r.1 = Ok c → updb_built updb mfa_provider r.2 c.
Proof.
  intros Henv r. destruct (converse_sound _ env _ _ [] Henv (from_updb_wp updb mfa_provider)) as (HQ & _ & Hall).
  split; [exact Hall|]. intros c Hc. fold r in HQ. by rewrite Hc in HQ.
Qed.

(** C22. Making a client through OIDC, with a password or an external JWT: the login starts only
    after the controller said that it supports it, goes as OIDC logins do and follows no
    redirect by itself, the certificate is asked for only with the tokens it granted, and
    the client that comes out has those tokens and that certificate. *)
Theorem oidc_construction_sound totp_provider enroll_handler env :
  (∀ h o, lawful o (env h o)) →
  (∀ updb, let r := converse env (from_updb_oidc_with_mfa cfg updb totp_provider enroll_handler) [] in
    let grant := PasswordGrant (updb_username updb) (updb_password updb) in
    all_allowed (construct_may (updb_zt_api updb) (updb_ca updb) grant totp_provider enroll_handler) [] r.2 ∧
    ∀ c, r.1 = Ok c → oidc_built (updb_zt_api updb) (updb_ca updb) (Updb (updb_username updb) (updb_password updb)) r.2 c) ∧
  (∀ jwt conf, let r := converse env (from_ext_jwt_with_mfa cfg jwt conf totp_provider enroll_handler) [] in
    all_allowed (construct_may (jwt_zt_api conf) (jwt_ca conf) (ExtJwtGrant jwt) totp_provider enroll_handler) [] r.2 ∧
    ∀ c, r.1 = Ok c → oidc_built (jwt_zt_api conf) (jwt_ca conf) ExtJwt r.2 c).
Proof. intros Henv. split; intros; by apply oidc_run_sound. Qed.

(** A controller that opens a session - after a code, if the application can give one - and
    gives a certificate makes a client with a password. *)
Theorem updb_construction_succeeds updb mfa_provider env :
  updb_served updb mfa_provider env → ∃ c, (converse env (from_updb_with_totp cfg updb mfa_provider) []).1 = Ok c.
Proof. apply from_updb_ok. Qed.

(** A controller that supports OIDC, follows its protocol and gives a certificate makes a
    client, with either grant. *)
Theorem oidc_construction_succeeds totp_provider enroll_handler env :
  (∀ updb, oidc_served (updb_zt_api updb) (updb_ca updb) (PasswordGrant (updb_username updb) (updb_password updb)) totp_provider enroll_handler env →
    ∃ c, (converse env (from_updb_oidc_with_mfa cfg updb totp_provider enroll_handler) []).1 = Ok c) ∧
  (∀ jwt conf, oidc_served (jwt_zt_api conf) (jwt_ca conf) (ExtJwtGrant jwt) totp_provider enroll_handler env →
    ∃ c, (converse env (from_ext_jwt_with_mfa cfg jwt conf totp_provider enroll_handler) []).1 = Ok c).
Proof. split; intros; by apply from_oidc_ok. Qed.

(** An enrolled identity authenticates over its own TLS client, which shows its certificate
    and verifies by its CAs: each request of the login is sent only when what came before
    calls for it; on success the token, its end and the name are those of the login and
    the timers run, on failure the client is as it was. *)
Theorem identity_authentication_sound id c mfa_provider enroll_handler env :
  from_identity id = Ok c → (∀ h o, lawful o (env h o)) →
  (∃ cc cert key, client_config id = Ok cc ∧ id_cert (cfg_id id) = ("pem:" +:+ cert)%string ∧ id_key (cfg_id id) = ("pem:" +:+ key)%string ∧
    ec_http c = mkHttpClient (Roots (cc_roots cc)) (Some (cert, key)) true) ∧
  (let r := converse env (authenticate_with_totp cfg mfa_provider c) [] in
   all_allowed (login_may (ec_http c) (ec_base_url c) "cert"%string "{}"%string mfa_provider []) [] r.2 ∧ totp_outcome c mfa_provider r.1 r.2) ∧
  (∀ http, oidc_mtls_client id = Ok http →
   let r := converse env (authenticate_oidc_with_mfa cfg mfa_provider enroll_handler c) [] in
   all_allowed (oidc_authenticate_may c http mfa_provider enroll_handler) [] r.2 ∧ oidc_outcome c http r.1 r.2).
Proof.
  intros Hid Henv. destruct (from_identity_Ok _ _ Hid) as (cc & cert & key & Hcc & Hcert & Hkey & Hc). split_and!.
  - exists cc, cert, key. by rewrite Hc.
  - intros r. by destruct (converse_sound _ env _ _ [] Henv (authenticate_wp c mfa_provider [])) as (HQ & _ & Hall).
  - intros http Hhttp r. assert (Ho : oidc_mtls_client (ec_config c) = Ok http) by by rewrite Hc.
    by destruct (converse_sound _ env _ _ [] Henv (authenticate_oidc_wp c http mfa_provider enroll_handler Ho)) as (HQ & _ & Hall).
Qed.

(** C23. From construction to any later moment: a client made with a password, running its tasks
    on the wire with renewals and re-authentications interleaved, always holds a
    certificate for the key that the construction drew, under the configured CAs, whose
    end is its leaf's or the epoch that forces a renewal. *)
Theorem constructed_certificate_holds updb mfa_provider env c no_cert w :
  (∀ h o, lawful o (env h o)) →
  (converse env (from_updb_with_totp cfg updb mfa_provider) []).1 = Ok c →
  rtc (wire_step (ec_http c) (ec_base_url c) (settings_of cfg c)) (wire_start (client_of no_cert c)) w →
  ∃ kc, drew_key (converse env (from_updb_with_totp cfg updb mfa_provider) []).2 kc ∧
    cs_key_pem (holder (the_client w)) = key_pem kc ∧ root_ders (holder (the_client w)) = parse_ca_pems (updb_ca updb) ∧
    (not_after (holder (the_client w)) = UNIX_EPOCH ∨ parse_not_after (leaf_pem (holder (the_client w))) = Ok (not_after (holder (the_client w)))).
Proof.
  intros Henv Hc Hw. destruct (converse_sound _ env _ _ [] Henv (from_updb_wp updb mfa_provider)) as (HQ & _ & _). rewrite Hc in HQ.
  destruct HQ as (s & cert & t & _ & (kc & p & b & id & chain & leaf & Hk & _ & _ & _ & _ & _ & ->) & Ht & ->). exists kc. split; [exact Hk|].
  destruct (wire_run_refines _ _ _ _ _ Hw) as [_ Hrun]. apply client_reachable in Hrun as [γ Hinv]; [|done].
  pose proof (ci_cert _ _ _ Hinv) as Hcert. change (shared (abstract_world w)).1 with (the_client w) in Hcert.
  destruct Hcert as [Hkey Hroots _ Hend]. split_and!; [exact Hkey|exact Hroots|].
  destruct Hend as [[Hl Hn]|[Hn|Hn]]; [right|by left|by right].
  rewrite Hl, Hn. exact Ht.
Qed.

End constructors.

(** ** Witnesses

    A controller that wants a password and a code, gives a certificate, and supports
    OIDC; the libraries are those of the other witnesses. *)

Section witness.
#[local] Existing Instance string_json.

Definition demo_construct_rest : @RestJson string_json := {|
  error_body := λ _, None;
  session_body := λ _, Err ""%string;
  routers_body := λ _, Err ""%string;
  api_session_body := λ b, Ok (mkApiSession "tok" None (if bool_decide (b = "partial"%string) then ["mfa"%string] else []) "alice");
  services_body := λ _, Err ""%string;
  updates_body := Err
|}.
#[local] Existing Instances demo_construct_rest demo_tls demo_enroll demo_cert demo_oidc demo_wire.

Definition demo_api : string := "ctrl:1280".
Definition demo_updb : UpdbConfig := mkUpdb demo_api "ca" "alice" "secret".
Definition demo_jwt : ExtJwtConfig := mkExtJwtConfig demo_api "ca".

Definition to (path : string) (r : Http.request) : bool := bool_decide (r_url r = demo_api +:+ path)%string.
Definition demo_answer (h : Http.history) (r : Http.request) : response :=
  match r_method r, r_headers r with
  | GET, [] => if posted h then demo_reply h r else if to "/version" r then demo_page (λ _, None) "OIDC_AUTH" else demo_reply h r
  | GET, _ => demo_page (λ _, None) ""
  | POST, _ =>
      if to "/current-api-session/certificates" r then mkResponse CREATED (λ _, None) (Ok (ders_to_pem [[5]])) (Ok [])
      else if to "/authenticate?method=password" r then demo_page (λ _, None) "partial"
      else if to "/authenticate/mfa" r || to "/authenticate?method=cert" r then demo_page (λ _, None) ""
      else if bool_decide (r_url r = demo_base +:+ "/oidc/login/ext-jwt")%string then demo_redirect "/callback"
      else demo_reply h r
  end.

Definition demo_server : environment := λ h o,
  match o with
  | Send c r => ([], Ok (demo_answer h r))
  | Random n => demo_raw n
  | GenerateKey _ => Ok "key pem"%string
  | Http.Clock => 0
  | AskCode => Ok "123456"%string
  | AskEnrollment _ => Ok "654321"%string
  end.

Lemma demo_server_lawful h o : lawful o (demo_server h o).
Proof. destruct o; try done. apply length_replicate. Qed.

Definition built {A} (r : result EdgeError A) : bool := match r with Ok _ => true | Err _ => false end.
Definition demo_run : result EdgeError EdgeClient * Http.history :=
  converse demo_server (from_updb_with_totp wire_settings demo_updb true) [].
Definition demo_oidc_run : result EdgeError EdgeClient * Http.history :=
  converse demo_server (from_updb_oidc_with_mfa wire_settings demo_updb true false) [].

Lemma updb_construction_sound_witness :
  (∀ h o, lawful o (demo_server h o)) ∧ built demo_run.1 = true ∧ length demo_run.2 = 6%nat ∧
  all_allowed (updb_may wire_settings demo_updb true) [] demo_run.2 ∧ ∀ c, demo_run.1 = Ok c → updb_built wire_settings demo_updb true demo_run.2 c.
Proof.
  split; [exact demo_server_lawful|]. split; [vm_compute; reflexivity|]. split; [vm_compute; reflexivity|].
  exact (updb_construction_sound wire_settings demo_updb true demo_server demo_server_lawful).
Defined.

Lemma oidc_construction_sound_witness :
  (∀ h o, lawful o (demo_server h o)) ∧ built demo_oidc_run.1 = true ∧ length demo_oidc_run.2 = 13%nat ∧
  all_allowed (construct_may demo_api "ca" (PasswordGrant "alice" "secret") true false) [] demo_oidc_run.2.
Proof.
  split; [exact demo_server_lawful|]. split; [vm_compute; reflexivity|]. split; [vm_compute; reflexivity|].
  exact (proj1 (proj1 (oidc_construction_sound wire_settings true false demo_server demo_server_lawful) demo_updb)).
Defined.

Lemma demo_mints http : mints http demo_api demo_server.
Proof.
  split; [intros h; by eexists _, _|]. intros h token kc.
  exists [], (mkResponse CREATED (λ _, None) (Ok (ders_to_pem [[5]])) (Ok [])), (ders_to_pem [[5]]), "id"%string, (ders_to_pem [[5]]), (pem_block [5]), 57000000000000.
  split_and!; try reflexivity; vm_compute; reflexivity.
Qed.

Lemma demo_served : updb_served wire_settings demo_updb true demo_server.
Proof.
  split; [vm_compute; reflexivity| |apply demo_mints]. intros h. eexists [], _, _, _. split; [reflexivity|]. split; [reflexivity|].
  split; [reflexivity|]. split; [reflexivity|]. right. split; [reflexivity|]. intros h'. split; [by exists "123456"%string|]. split.
  - intros code. by eexists [], _.
  - eexists [], _, _, _. split_and!; reflexivity.
Qed.

Lemma updb_construction_succeeds_witness :
  updb_served wire_settings demo_updb true demo_server ∧ ∃ c, demo_run.1 = Ok c.
Proof. split; [exact demo_served|]. exact (updb_construction_succeeds wire_settings demo_updb true demo_server demo_served). Defined.

(** The OIDC login after the probe, with a code and without. *)
Lemma posted_oidc_login h http grant id p : said h http (login_request demo_base grant id) p → posted h = true.
Proof.
  intros [l Hl]. apply existsb_exists. eexists. split; [by apply list_elem_of_In|]. by destruct grant.
Qed.

Definition demo_second (grant : OidcGrant) : Prop :=
  match grant with PasswordGrant _ _ | ExtJwtGrant _ => True | CertGrant => False end.

Lemma demo_construct_follows http grant start :
  start = [ev (Send http (version_get demo_api)) ([], Ok (demo_page (λ _, None) "OIDC_AUTH"%string))] → demo_second grant →
  follows_protocol http demo_base grant true false start demo_server.
Proof.
  intros -> Hg. split.
  - eexists [], _, _, _. split_and!; reflexivity.
  - intros h id. destruct grant as [|u pw|jwt]; [done|right|left].
    + eexists [], _. split_and!; [reflexivity..|]. split; [done|]. intros h'. split; [by exists "123456"%string|].
      intros code. eexists [], _, _. split_and!; reflexivity.
    + eexists [], _, _. split_and!; reflexivity.
  - intros h id p cb Hs%posted_oidc_login. exists [], (demo_redirect ("grant:" +:+ b64url_nopad (demo_raw 16))%string). eexists _, "grant"%string.
    split_and!; [|reflexivity..|apply extract_code_spec; vm_compute; reflexivity].
    unfold demo_server, demo_answer, demo_reply. cbn [get r_method r_headers]. by rewrite Hs.
  - intros h code. eexists [], _, _, _. split_and!; [reflexivity..|]. vm_compute. reflexivity.
Qed.

Lemma demo_oidc_served grant : demo_second grant → oidc_served demo_api "ca" grant true false demo_server.
Proof.
  intros Hg. split; [vm_compute; reflexivity| |by apply demo_construct_follows|apply demo_mints].
  eexists [], _, "OIDC_AUTH"%string, ["OIDC_AUTH"%string]. split_and!; [reflexivity..|]. by apply list_elem_of_singleton.
Qed.

Lemma oidc_construction_succeeds_witness :
  (∃ c, demo_oidc_run.1 = Ok c) ∧
  ∃ c, (converse demo_server (from_ext_jwt_with_mfa wire_settings "jwt" demo_jwt true false) []).1 = Ok c.
Proof.
  destruct (oidc_construction_succeeds wire_settings true false demo_server) as [Hu Hj].
  split; [exact (Hu demo_updb (demo_oidc_served (PasswordGrant "alice" "secret") I))|exact (Hj "jwt"%string demo_jwt (demo_oidc_served (ExtJwtGrant "jwt") I))].
Defined.

(** An identity that logs in, and one through OIDC that the controller refuses. *)
Definition demo_identity : Config := mkConfig demo_api None None (mkId "pem:key" "pem:cert" "pem:ca").
Definition demo_enrolled : EdgeClient :=
  mkEdgeClient demo_api (mkHttpClient (Roots [[1]]) (Some ("cert", "key"))%string true) None None Cert false None demo_identity None false false.

Lemma identity_authentication_sound_witness :
  from_identity demo_identity = Ok demo_enrolled ∧ (∀ h o, lawful o (demo_server h o)) ∧
  let r := converse demo_server (authenticate_with_totp wire_settings false demo_enrolled) [] in
  ec_token r.1.1 = Some (Legacy "tok") ∧ refresh_task r.1.1 = true ∧ length r.2 = 1%nat ∧ totp_outcome wire_settings demo_enrolled false r.1 r.2.
Proof.
  assert (Hi : from_identity demo_identity = Ok demo_enrolled) by (vm_compute; reflexivity).
  split; [exact Hi|]. split; [exact demo_server_lawful|]. intros r. split; [vm_compute; reflexivity|]. split; [vm_compute; reflexivity|].
  split; [vm_compute; reflexivity|].
  exact (proj2 (proj1 (proj2 (identity_authentication_sound wire_settings demo_identity demo_enrolled false false demo_server Hi demo_server_lawful)))).
Defined.

(** The client made with the password, after its first task has read the token. *)
Lemma constructed_certificate_holds_witness :
  ∃ c w, demo_run.1 = Ok c ∧
    rtc (wire_step (ec_http c) (ec_base_url c) (settings_of wire_settings c)) (wire_start (client_of demo_expiring c)) w ∧
    length (trace (hist w)) = 1%nat ∧ not_after (holder (the_client w)) = 57000000000000 ∧
    ∃ kc, drew_key demo_run.2 kc ∧ cs_key_pem (holder (the_client w)) = key_pem kc.
Proof.
  destruct (proj2 updb_construction_succeeds_witness) as [c Hc].
  assert (Hr : ∃ w, rtc (wire_step (ec_http c) (ec_base_url c) (settings_of wire_settings c)) (wire_start (client_of demo_expiring c)) w ∧
    length (trace (hist w)) = 1%nat ∧ the_client w = client_of demo_expiring c).
  { eexists. split; [|split].
    - eapply rtc_l; [by apply (ws_start _ _ _ 0), (job_create _ "svc"%string DialSession)|].
      eapply rtc_l; [by eapply (ws_state _ _ _ 0)|apply rtc_refl].
    - reflexivity.
    - reflexivity. }
  destruct Hr as (w & Hr & Ht & Hw). exists c, w. split; [exact Hc|]. split; [exact Hr|]. split; [exact Ht|]. split.
  - assert (Hn : (λ r, match r with Ok c => not_after (holder (client_of demo_expiring c)) | Err _ => 0 end) demo_run.1 = 57000000000000)
      by (vm_compute; reflexivity). rewrite Hc in Hn. by rewrite Hw.
  - destruct (constructed_certificate_holds wire_settings demo_updb true demo_server c demo_expiring w demo_server_lawful Hc Hr)
      as (kc & Hk & Hkey & _). exists kc. split; [exact Hk|exact Hkey].
Defined.

End witness.
