(* ===== verification/Listing.v ===== *)
(** * Listing services as the program starts: [src/edge/client/services.rs], [client/auth.rs],
    [client/construct.rs]

    [list_services_with_config_types] of a client that has just been made, on the wire:
    the pages of the listing and, where the controller no longer takes the token, one
    renewal of the session ([with_reauth_retry], [reauthenticate], [oidc_session_refresh])
    and one more try.  At that moment the client has no other task than its timers, which
    first act long after; its locks are free, its caches empty and it has no channels.
    So is [refresh], which extends a session on demand. *)

From S2P Require Import Prelude EdgeWire Services Rest Tasks Http Enroll SessionCert Client OidcLogin Wire Construct.

Local Open Scope string_scope.
Local Open Scope task_scope.

Section listing.
Context `{JsonLib} `{!RestJson} `{TlsLib} `{EnrollLib} `{CertJson} `{OidcLib} `{WireLib}.
Context (cfg : settings).

(** ** Renewals *)

(** A new token, and its end. *)
Definition store_token_and_expiry (tok : AuthToken) (exp : option string) (cert : option SessionCertState) (c : EdgeClient) : EdgeClient :=
  mkEdgeClient (ec_base_url c) (ec_http c) (Some tok) (exp ≫= parse_expires_at cfg) (ec_reauth_method c) (ec_mfa_provider c) (ec_identity_name c)
    (ec_config c) cert (refresh_task c) (session_refresh_task c).

Definition reauthenticate (c : EdgeClient) : task net (result EdgeError EdgeClient) :=
  let ops := net_login_ops (ec_http c) (ec_base_url c) in
  session ←! match ec_reauth_method c with
             | Cert => do_authenticate "{}" (ec_mfa_provider c)
             | Updb username password => do_authenticate_password cfg username password (ec_mfa_provider c)
             | ExtJwt => mret (Err ExtJwtReauthUnsupported)
             end;
  mret (Ok (store_token_and_expiry (Legacy (as_token session)) (as_expires_at session) (invalidate <$> ec_session_cert c) c)).

Definition oidc_session_refresh_of (c : EdgeClient) : task net (result EdgeError EdgeClient) :=
  match ec_token c ≫= refresh_token with
  | None => mret (Ok c)
  | Some subject =>
      refreshed ←! do_oidc_refresh (ec_http c) (oidc_base (ec_base_url c)) subject OIDC_REFRESH_REQUEST_TIMEOUT;
      let new_refresh := match ro_refresh refreshed with Some r => Some r | None => Some subject end in
      now ← perform (Σ := net) Http.Clock;
      mret (Ok (store_token_and_expiry (Oidc (ro_access refreshed) new_refresh) (expires_in_to_rfc3339 cfg (ro_expires_in refreshed) now) (ec_session_cert c) c))
  end.

(** [with_reauth_retry], for an operation that its fuel may not suffice for. *)
Definition with_reauth_once {T} (op : AuthToken → task net (option (result EdgeError T))) (c : EdgeClient)
    : task net (EdgeClient * option (result EdgeError T)) :=
  match ec_token c with
  | None => mret (c, Some (Err NotAuthenticated))
  | Some token =>
      r ← op token;
      match r with
      | Some (Err first) =>
          if is_unauthorized first then
            again ← match token_session_type token with LegacySession => reauthenticate c | OidcSession => oidc_session_refresh_of c end;
            match again with
            | Err _ => mret (c, Some (Err first))
            | Ok c' => match ec_token c' with
                       | None => mret (c', Some (Err NotAuthenticated))
                       | Some fresh => r ← op fresh; mret (c', r)
                       end
            end
          else mret (c, r)
      | _ => mret (c, r)
      end
  end.

(** [None] when the pages are more than [pages]. *)
Definition list_services_with_config_types (pages : nat) (config_types : list string) (c : EdgeClient)
    : task net (EdgeClient * option (result EdgeError (list Service))) :=
  with_reauth_once (λ token, list_pages (ec_http c) (ec_base_url c) pages token config_types 0 []) c.

(** [EdgeClient::refresh]: of a session that is not OIDC's, the one the controller reads back. *)
Definition refresh (c : EdgeClient) : task net (EdgeClient * result EdgeError unit) :=
  let ops := net_login_ops (ec_http c) (ec_base_url c) in
  match ec_token c with
  | None => mret (c, Err NotAuthenticated)
  | Some token =>
      match token_session_type token with
      | OidcSession => r ← oidc_session_refresh_of c; mret match r with Ok c' => (c', Ok tt) | Err e => (c, Err e) end
      | LegacySession =>
          r ← refresh_get token;
          mret match r with
               | Err e => (c, Err e)
               | Ok session =>
                   let c' := mkEdgeClient (ec_base_url c) (ec_http c) (ec_token c) (ec_expires_at c) (ec_reauth_method c) (ec_mfa_provider c)
                               (Some (as_identity_name session)) (ec_config c) (ec_session_cert c) (refresh_task c) (session_refresh_task c) in
                   (store_token_and_expiry (Legacy (as_token session)) (as_expires_at session) (ec_session_cert c) c', Ok tt)
               end
      end
  end.

(** ** The client's timers

    Those of the token and of the sessions are in [EdgeClient]; the one of the services
    polls for the config types it was started with. *)
Record PolledClient : Type := mkPolled { polled : EdgeClient; service_refresh_task : option (list string) }.

Definition start_service_polling (config_types : list string) (p : PolledClient) : PolledClient :=
  match service_refresh_task p with Some _ => p | None => mkPolled (polled p) (Some config_types) end.

(** [Drop]. *)
Definition client_drop (p : PolledClient) : PolledClient :=
  let c := polled p in
  mkPolled (mkEdgeClient (ec_base_url c) (ec_http c) (ec_token c) (ec_expires_at c) (ec_reauth_method c) (ec_mfa_provider c) (ec_identity_name c)
              (ec_config c) (ec_session_cert c) false false) None.

(** ** What is said

    [c] is the client of an identity's file, before it logs in. *)

(** [c'] is [c] after one login or several in [h]: its token is of one of them, its name of one. *)
Definition authenticated_as (c c' : EdgeClient) (h : history) : Prop :=
  ∃ s s0, session_opened (ec_http c) (ec_base_url c) "cert" "{}" h s ∧ session_opened (ec_http c) (ec_base_url c) "cert" "{}" h s0 ∧
    logged_in_as c c' (Legacy (as_token s)) (as_expires_at s ≫= parse_expires_at cfg) (Some (as_identity_name s0)) false.

(** The requests of a login, or of one of several, and those for pages of services with
    the token of a session that is open. *)
Definition client_may (c : EdgeClient) (h : history) (o : net_op) : Prop :=
  (∃ start, start `prefix_of` h ∧ login_may (ec_http c) (ec_base_url c) "cert" "{}" false start h o) ∨
  ∃ s types offset, session_opened (ec_http c) (ec_base_url c) "cert" "{}" h s ∧
    o = Send (ec_http c) (services_request (ec_base_url c) (Legacy (as_token s)) types offset).

(** The pages from an offset on, as the controller gave them: each but the last leaves
    services to list. *)
Inductive told_pages (http : http_client) (base : string) (h : history) (token : AuthToken) (types : list string) : Z → list Service → Prop :=
| told_last_page offset p data total :
    said h http (services_request base token types offset) p → services_page (reply_of (Ok p)) = Ok (data, total) →
    total <= offset + PAGE_LIMIT → told_pages http base h token types offset data
| told_page offset p data total rest :
    said h http (services_request base token types offset) p → services_page (reply_of (Ok p)) = Ok (data, total) →
    offset + PAGE_LIMIT < total → told_pages http base h token types (offset + PAGE_LIMIT) rest →
    told_pages http base h token types offset (data ++ rest)%list.

Definition listed (c : EdgeClient) (types : list string) (services : list Service) (h : history) : Prop :=
  ∃ s, session_opened (ec_http c) (ec_base_url c) "cert" "{}" h s ∧
    told_pages (ec_http c) (ec_base_url c) h (Legacy (as_token s)) types 0 services.

(** A client made of an identity's file logs in with its certificate. *)
Definition enrolled_client (c : EdgeClient) : Prop := ec_reauth_method c = Cert ∧ ec_session_cert c = None.

(** ** Lemmas *)

Lemma authenticated_as_prefix c c' h h' : h `prefix_of` h' → authenticated_as c c' h → authenticated_as c c' h'.
Proof. intros Hp (s & s0 & Hs & Hs0 & Hl). exists s, s0. split_and!; [by eapply opened_prefix..|done]. Qed.

Lemma authenticate_client_wp c h :
  wp (talk (client_may c)) (authenticate cfg c) (λ x h', match x.2 with Ok _ => authenticated_as c x.1 h' | Err _ => x.1 = c end) h.
Proof.
  eapply wp_talk_weaken; [|eapply wp_mono; [apply authenticate_wp|]].
  - intros h' o Hp Hm. left. by exists h.
  - intros [c' [u|e]] h'; unfold totp_outcome; cbn; [|done]. by intros (s & Hs & Hl); exists s, s.
Qed.

Lemma list_pages_wp http base allowed pages token types offset out h :
  (∀ h' offset, h `prefix_of` h' → allowed h' (Send http (services_request base token types offset))) →
  wp (talk allowed) (list_pages http base pages token types offset out)
    (λ r h', match r with Some (Ok svcs) => ∃ l, svcs = (out ++ l)%list ∧ told_pages http base h' token types offset l | _ => True end) h.
Proof.
  revert offset out h. induction pages as [|pages IH]; intros offset out h Hm; [done|]. cbn [list_pages]. unfold send. cbn [wp mbind task_bind mret task_ret perform fst snd].
  split; [by apply Hm|]. intros [l x] _. cbn [mbind task_bind mret task_ret snd].
  destruct (services_page (reply_of x)) as [[data total]|e] eqn:Ep; [|done]. destruct x as [p|e]; [|done].
  set (h1 := (h ++ [ev (Send http (services_request base token types offset)) (l, Ok p)])%list). assert (Hs : said h1 http (services_request base token types offset) p) by apply said_last.
  destruct (Z.leb_spec total (offset + PAGE_LIMIT)); [exists data; split; [done|]; by eapply told_last_page|].
  eapply (wp_mono _ _ _ _ h1); [apply wp_extends, (IH _ _ h1)|].
  - intros h' o Hp. apply Hm. etrans; [|exact Hp]. by eexists.
  - intros [[svcs|e]|] h' [HQ Hp]; [|done..]. destruct HQ as (l' & -> & Ht). exists (data ++ l')%list. split; [by rewrite (assoc (++)%list)|].
    eapply told_page; [by eapply said_prefix|done..].
Qed.

Lemma reauthenticate_wp c0 c h :
  authenticated_as c0 c h → enrolled_client c0 →
  wp (talk (client_may c0)) (reauthenticate c) (λ r h', match r with Ok c' => authenticated_as c0 c' h' | Err _ => True end) h.
Proof.
  intros (s & s0 & Hs & Hs0 & [(_ & _ & Hn & Hmfa) (Hb & Hh & Hr & Hc & Hsc) Ht]) [Hcert Hnone]. unfold reauthenticate. rewrite Hr, Hcert, Hmfa, Hb, Hh.
  eapply wp_try_call; [|done|].
  - eapply wp_talk_weaken; [|apply (legacy_wp (ec_http c0) (ec_base_url c0) "cert" "{}" false h (login_may (ec_http c0) (ec_base_url c0) "cert" "{}" false h)); done].
    intros h' o Hp Hm. left. by exists h.
  - intros s1 h1 Hs1 Hp. exists s1, s0. split_and!; [done|by eapply opened_prefix|]. split; cbn; rewrite ?Hn, ?Hmfa, ?Hb, ?Hh, ?Hr, ?Hc, ?Hsc, ?Hnone; try done; by split_and!.
Qed.

(** The listing, on every branch: nothing is sent but pages' requests and at most logins,
    the client stays one that has logged in, and the services are those of the pages. *)
Lemma list_services_wp pages types c0 c h :
  authenticated_as c0 c h → enrolled_client c0 →
  wp (talk (client_may c0)) (list_services_with_config_types pages types c)
    (λ x h', authenticated_as c0 x.1 h' ∧ match x.2 with Some (Ok svcs) => listed c0 types svcs h' | _ => True end) h.
Proof.
  intros Ha He. unfold list_services_with_config_types, with_reauth_once.
  assert (Hlist : ∀ c' h', authenticated_as c0 c' h' → ∃ s, ec_token c' = Some (Legacy (as_token s)) ∧
    wp (talk (client_may c0)) (list_pages (ec_http c) (ec_base_url c) pages (Legacy (as_token s)) types 0 [])
      (λ r h1, authenticated_as c0 c' h1 ∧ match r with Some (Ok svcs) => listed c0 types svcs h1 | _ => True end) h').
  { intros c' h' Ha'. pose proof Ha' as (s & s0 & Hs & _ & [(Htok & _) _ _]). exists s. split; [done|].
    destruct Ha as (? & ? & _ & _ & [_ (Hb & Hh & _) _]). rewrite Hb, Hh.
    eapply wp_mono; [apply wp_extends, list_pages_wp|].
    - intros h1 offset Hp. right. exists s, types, offset. split; [by eapply opened_prefix|done].
    - intros r h1 [HQ Hp]. split; [by eapply authenticated_as_prefix|]. destruct r as [[svcs|e]|]; [|done..].
      destruct HQ as (l & -> & Ht). exists s. split; [by eapply opened_prefix|done]. }
  destruct (Hlist c h Ha) as (s & Htok & Hw). rewrite Htok, wp_bind. eapply wp_mono; [exact Hw|].
  intros [[svcs|e]|] h1 [Ha1 Hl]; [by split| |by split]. destruct (is_unauthorized e); [|by split]. cbn [token_session_type].
  rewrite wp_bind. eapply wp_mono; [by apply wp_extends, reauthenticate_wp|]. intros [c'|e'] h2 [Ha2 Hp]; [|split; [by eapply authenticated_as_prefix|done]].
  destruct (Hlist c' h2 Ha2) as (s' & Htok' & Hw'). rewrite Htok', wp_bind. eapply wp_mono; [exact Hw'|]. by intros r h3 HQ.
Qed.

(** However often polling is started, it polls for what it was started with first; and
    no timer outlives the client. *)
Lemma polling_starts_once calls p :
  service_refresh_task (foldl (λ p types, start_service_polling types p) p calls) =
    match service_refresh_task p with Some types => Some types | None => head calls end ∧
  let p' := client_drop (foldl (λ p types, start_service_polling types p) p calls) in
  service_refresh_task p' = None ∧ refresh_task (polled p') = false ∧ session_refresh_task (polled p') = false.
Proof.
  split; [|done]. revert p. induction calls as [|types calls IH]; intros p; cbn; [by destruct (service_refresh_task p)|].
  rewrite IH. unfold start_service_polling. destruct (service_refresh_task p) eqn:E; cbn; by rewrite ?E.
Qed.

(** A refresh that fails leaves the client as it was, and the kind of its session never
    changes; one that is not OIDC's is one request over the client's own TLS client. *)
Lemma refresh_outcome c env :
  let r := converse env (refresh c) [] in
  match ec_token c with
  | None => r = (c, Err NotAuthenticated, [])
  | Some token =>
      (r.1.2 = Ok tt ∨ r.1.1 = c) ∧ (token_session_type <$> ec_token r.1.1) = Some (token_session_type token) ∧
      ec_http r.1.1 = ec_http c ∧ ec_base_url r.1.1 = ec_base_url c ∧
      (token_session_type token = LegacySession → ∃ x, r.2 = [ev (Send (ec_http c) (client_request (ec_base_url c) (GetApiSession token))) x] ∧
         (∀ s, do_refresh_get (reply_of x.2) = Ok s → r.1.2 = Ok tt ∧ ec_token r.1.1 = Some (Legacy (as_token s)) ∧ ec_identity_name r.1.1 = Some (as_identity_name s)))
  end.
Proof.
  intros r. subst r. unfold refresh. destruct (ec_token c) as [[t|acc ref]|] eqn:Et; [| |done]; cbn [token_session_type].
  - rewrite converse_bind. cbn -[do_refresh_get client_request]. set (o := Send _ _). destruct (env [] o) as [l x] eqn:Ee. cbn [fst snd].
    destruct (do_refresh_get (reply_of x)) as [s|e] eqn:Es; cbn -[do_refresh_get client_request]; rewrite ?Et; (split_and!; [by auto|done..|]); intros _; exists (l, x); (split; [done|]); cbn [snd]; rewrite Es; [by intros s' [= <-]|done].
  - rewrite converse_bind. unfold oidc_session_refresh_of. rewrite Et. cbn [mbind option_bind refresh_token]. destruct ref as [subject|]; [|cbn; rewrite Et; by split_and!; auto].
    rewrite converse_try. destruct (converse env (do_oidc_refresh _ _ _ _) []) as [[t|e] h]; cbn; rewrite ?Et; by split_and!; auto.
Qed.

End listing.
