(* ===== verification/CommandLine.v ===== *)
(** * The program's command line: [src/main.rs]

    The flags and arguments of each subcommand, what it reads and writes, and how it
    comes to serve: the enrolment of an identity with its files, the start of the
    proxies and hosts up to an authenticated client, and the start of the interceptor. *)

From S2P Require Import Prelude EdgeWire Address IpAddr DnsMatcher Services InterceptResolver HostTarget Routes Flows Runner TcpProxy.
From S2P Require Import Tasks Rest Http Enroll SessionCert Client OidcLogin Wire Construct Listing.

Local Open Scope string_scope.

(** ** Addresses *)

(** [SocketAddr::from_str]; the scope of an IPv6 address is read and not kept. *)
Definition read_port (s : string) : option (Z * string) :=
  s ← read_char ":" s; read_number 10 (String.length s) true u16_max s.

Definition read_scope_id (s : string) : string :=
  match read_char "%" s with
  | Some s' => match read_number 10 (String.length s') true (2 ^ 32 - 1) s' with Some (_, rest) => rest | None => s end
  | None => s
  end.

Definition read_socket_addr (s : string) : option (SocketAddr * string) :=
  match ('(a, s) ← read_ipv4 s; '(p, s) ← read_port s; Some ((V4 a, p), s)) with
  | Some x => Some x
  | None => s ← read_char "[" s; '(a, s) ← read_ipv6 s; s ← read_char "]" (read_scope_id s); '(p, s) ← read_port s; Some ((V6 a, p), s)
  end.

Definition socket_addr_from_str (s : string) : option SocketAddr :=
  '(a, rest) ← read_socket_addr s; if bool_decide (rest = "") then Some a else None.

Definition ipv4_from_str (s : string) : option Z := '(a, rest) ← read_ipv4 s; if bool_decide (rest = "") then Some a else None.

(** ** Flags *)

(** The value of a server without a port is on port 53. *)
Definition dns_upstream (v : string) : result string SocketAddr :=
  match socket_addr_from_str v with
  | Some sa => Ok sa
  | None =>
      match ip_from_str v with
      | Some ip => Ok (ip, 53%Z)
      | None => Err ("--dns-upstream '" +:+ v +:+ "' inválido (ip o ip:puerto): invalid IP address syntax")
      end
  end.

Fixpoint parse_dns_upstream_flags (args : list string) : result string (list SocketAddr) :=
  match args with
  | [] => Ok []
  | arg :: rest =>
      match strip_prefix "--dns-upstream=" arg with
      | Some v => addr ← dns_upstream v; out ← parse_dns_upstream_flags rest; Ok (addr :: out)
      | None =>
          if bool_decide (arg = "--dns-upstream") then
            match rest with
            | [] => Err "--dns-upstream requiere un valor <ip[:puerto]>"
            | v :: rest => addr ← dns_upstream v; out ← parse_dns_upstream_flags rest; Ok (addr :: out)
            end
          else parse_dns_upstream_flags rest
      end
  end.

Definition parse_utun_cidr (s : string) : result string (Z * Z) :=
  '(addr, prefix) ← ok_or ("utun-cidr inválido '" +:+ s +:+ "': se espera <addr>/<prefix>, p. ej. 10.99.0.1/24") (split_once slash s);
  a ← ok_or ("IPv4 inválida '" +:+ addr +:+ "': invalid IPv4 address syntax") (ipv4_from_str addr);
  p ← ok_or ("prefijo inválido '" +:+ prefix +:+ "'") (parse_unsigned u8_max prefix);
  if (32 <? p)%Z then Err ("prefijo fuera de rango '" +:+ prefix +:+ "': debe ser 0..=32") else Ok (a, p).

(** The first argument that is a flag, and the one after it. *)
Fixpoint parse_out_flag (args : list string) : option string :=
  match args with [] => None | a :: rest => if bool_decide (a = "--out") then head rest else parse_out_flag rest end.

Fixpoint parse_ca_flag (args : list string) : option string :=
  match args with
  | [] => None
  | a :: rest =>
      match strip_prefix "--ca=" a with
      | Some p => Some p
      | None => if bool_decide (a = "--ca") then head rest else parse_ca_flag rest
      end
  end.

Fixpoint parse_keyalg_flag `{EnrollLib} (args : list string) : result EnrollError key_kind :=
  match args with
  | [] => Ok EcP384
  | a :: rest =>
      match strip_prefix "--keyAlg=" a, strip_prefix "-a=" a with
      | Some v, _ | None, Some v => KeyAlg_parse v
      | None, None =>
          if bool_decide (a = "--keyAlg" ∨ a = "-a") then value ← ok_or InvalidKeyAlg (head rest); KeyAlg_parse value
          else parse_keyalg_flag rest
      end
  end.

(** The address to bind and the mappings, in order. *)
Fixpoint parse_multi_args (usage : string) (bind : string) (rest : list string) : result string (string * list (string * Z)) :=
  match rest with
  | [] => Ok (bind, [])
  | a :: rest =>
      if bool_decide (a = "--bind") then
        match rest with [] => Err usage | b :: rest => parse_multi_args usage b rest end
      else
        spec ← parse_service_port a;
        '(bind, specs) ← parse_multi_args usage bind rest;
        Ok (bind, spec :: specs)
  end.

(** ** Paths and files *)

(** The segments of a path, the last first. *)
Definition split_path (s : string) : list string :=
  foldl (λ segs c, match segs with
                   | seg :: segs => if bool_decide (c = slash) then "" :: seg :: segs else (seg +:+ String c "") :: segs
                   | [] => []
                   end) [""] (list_ascii_of_string s).

(** [Path::file_name]: an empty segment or a dot at the end is no component, but for a
    dot that is the whole path. *)
Fixpoint named (segs : list string) : option (string * list string) :=
  match segs with
  | seg :: (_ :: _) as parents => if bool_decide (seg = "" ∨ seg = ".") then named parents else if bool_decide (seg = "..") then None else Some (seg, parents)
  | [seg] => if bool_decide (seg = "" ∨ seg = "." ∨ seg = "..") then None else Some (seg, [])
  | [] => None
  end.

Definition file_stem (name : string) : string :=
  match rsplit_once "."%char name with
  | Some (before, _) => if bool_decide (before = "") then name else before
  | None => name
  end.

Definition with_extension (path ext : string) : string :=
  match named (split_path path) with
  | Some (name, parents) => String.concat "/" (reverse ((file_stem name +:+ "." +:+ ext) :: parents))
  | None => path
  end.

Definition default_out (jwt_path : string) : string := with_extension jwt_path "json".

(** What the files hold, which cannot be written or removed, and the error of an operation. *)
Record files : Type := mkFiles { contents : gmap string string; denied : gset string; io_error : string → string }.

Definition read_to_string (fs : files) (path : string) : result string string := ok_or (io_error fs path) (contents fs !! path).
Definition write_file (fs : files) (path text : string) : result string files :=
  if bool_decide (path ∈ denied fs) then Err (io_error fs path) else Ok (mkFiles (<[path := text]> (contents fs)) (denied fs) (io_error fs)).
Definition remove_file (fs : files) (path : string) : files :=
  if bool_decide (path ∈ denied fs) then fs else mkFiles (delete path (contents fs)) (denied fs) (io_error fs).

(** An error of a subcommand: its message, or an error of the library. *)
Inductive cmd_error : Type := Message (text : string) | EdgeFailed (e : EdgeError) | EnrollFailed (e : EnrollError).

Class ConfigJson := { config_to_json : Config → result string string; config_from_json : string → result string Config }.

(** ** Subcommands *)

Inductive listen_addr : Type := Written (addr : string) | HostPort (host : string) (port : Z).

(** What a subcommand does once it has begun: the loops of the other files. *)
Inductive serving : Type :=
| TcpProxies (c : EdgeClient) (bindings : list (listen_addr * string))
| UdpProxy (c : EdgeClient) (listen : listen_addr) (service : string)
| TcpHost (c : EdgeClient) (service target : string)
| ForwardingHost (c : EdgeClient) (service : string) (cfg : HostV1Config).

(** The operating system: whether a socket can be bound to an address. *)
Section commands.
Context `{JsonLib} `{!RestJson} `{TlsLib} `{EnrollLib} `{CertJson} `{OidcLib} `{WireLib} `{ConfigJson}.
Context (cfg : settings) (binds : listen_addr → result string unit).
(** How a [host.v1] config is read; the bound on the pages of a listing. *)
Context (host_from_value : Json → result string HostV1Config) (pages : nat).

Definition prog_name (args : list string) : string := default "noa" (head args).
Definition usage (args : list string) (text : string) : cmd_error := Message ("usage: " +:+ prog_name args +:+ " " +:+ text).

Definition run_enroll (args : list string) (fs : files) : task net (files * result cmd_error string) :=
  match (if bool_decide (args !! 1%nat = Some "enroll") then args !! 2%nat else None) with
  | Some jwt_path =>
      let out_path := default (default_out jwt_path) (parse_out_flag args) in
      match parse_keyalg_flag args with
      | Err e => mret (fs, Err (EnrollFailed e))
      | Ok key_alg =>
          match (match parse_ca_flag args with
                 | Some path => text ← read_to_string fs path; Ok (Some text)
                 | None => Ok None
                 end) with
          | Err e => mret (fs, Err (Message e))
          | Ok additional_cas =>
              match read_to_string fs jwt_path with
              | Err e => mret (fs, Err (Message e))
              | Ok jwt =>
                  r ← enroll (trim jwt) (mkOptions key_alg None additional_cas);
                  mret match r with
                       | Err e => (fs, Err (EnrollFailed e))
                       | Ok config =>
                           match config_to_json config with
                           | Err e => (fs, Err (Message e))
                           | Ok json =>
                               match write_file fs out_path json with
                               | Err e => (fs, Err (Message e))
                               | Ok fs => (remove_file fs jwt_path, Ok out_path)
                               end
                           end
                       end
              end
          end
      end
  | None => mret (fs, Err (usage args "enroll <token.jwt> [--out <path>] [--keyAlg RSA|EC] [--ca <ca-bundle.pem>]"))
  end.

(** The client of an identity's file, before it logs in. *)
Definition load_identity (fs : files) (path : string) : result cmd_error EdgeClient :=
  text ← map_err Message (read_to_string fs path);
  id ← map_err Message (config_from_json text);
  map_err EdgeFailed (from_identity id).

(** [authenticate().await?]. *)
Definition logged_in_client (c : EdgeClient) : task net (result cmd_error EdgeClient) :=
  '(c, r) ← authenticate cfg c; mret (match r with Ok _ => Ok c | Err e => Err (EdgeFailed e) end).

Definition bound (a : listen_addr) : result cmd_error listen_addr := _ ← map_err Message (binds a); Ok a.

Local Open Scope task_scope.

Definition run_proxy (args : list string) (fs : files) : task net (result cmd_error serving) :=
  match args !! 2%nat, args !! 3%nat, args !! 4%nat with
  | Some listen, Some service, Some identity =>
      c ←! mret (load_identity fs identity);
      c ←! logged_in_client c;
      a ←! mret (bound (Written listen));
      mret (Ok (TcpProxies c [(a, service)]))
  | _, _, _ => mret (Err (usage args "proxy <listen_addr> <service> <identity.json>"))
  end.

(** The first login of [proxy-multi]: the waits, in seconds, between [n] attempts at
    most, and the client once one has succeeded. *)
Fixpoint authenticate_retrying (n : nat) (wait : Z) (c : EdgeClient) : task net (list Z * option EdgeClient) :=
  match n with
  | O => mret ([], None)
  | S n =>
      '(c, r) ← authenticate cfg c;
      match r with
      | Ok _ => mret ([], Some c)
      | Err _ => '(waits, o) ← authenticate_retrying n (Z.min (wait * 2) 30) c; mret (wait :: waits, o)
      end
  end.

Fixpoint bind_all (host : string) (specs : list (string * Z)) : result cmd_error (list (listen_addr * string)) :=
  match specs with
  | [] => Ok []
  | (service, port) :: specs => a ← bound (HostPort host port); rest ← bind_all host specs; Ok ((a, service) :: rest)
  end.

(** [None] while it is still trying to log in, after [n] attempts. *)
Definition run_proxy_multi (n : nat) (args : list string) (fs : files) : task net (list Z * option (result cmd_error serving)) :=
  let u := usage args "proxy-multi <identity.json> [--bind <ip>] <service>:<port>..." in
  let u_text := match u with Message t => t | _ => "" end in
  match (identity ← ok_or u (args !! 2%nat);
         '(bind, specs) ← map_err Message (parse_multi_args u_text "0.0.0.0" (drop 3 args));
         if bool_decide (specs = []) then Err u else c ← load_identity fs identity; Ok (bind, specs, c)) with
  | Err e => mret ([], Some (Err e))
  | Ok (bind, specs, c) =>
      '(waits, o) ← authenticate_retrying n 1 c;
      mret (waits, c ← o; Some (bindings ← bind_all bind specs; Ok (TcpProxies c bindings)))
  end.

Definition run_proxy_udp (args : list string) (fs : files) : task net (result cmd_error serving) :=
  match args !! 2%nat, args !! 3%nat, args !! 4%nat with
  | Some listen, Some service, Some identity =>
      c ←! mret (load_identity fs identity);
      c ←! logged_in_client c;
      a ←! mret (bound (Written listen));
      mret (Ok (UdpProxy c a service))
  | _, _, _ => mret (Err (usage args "proxy-udp <listen_addr> <service> <identity.json>"))
  end.

Definition run_host (args : list string) (fs : files) : task net (result cmd_error serving) :=
  match args !! 2%nat, args !! 3%nat, args !! 4%nat with
  | Some service, Some target, Some identity =>
      c ←! mret (load_identity fs identity);
      c ←! logged_in_client c;
      mret (Ok (TcpHost c service target))
  | _, _, _ => mret (Err (usage args "host <service> <target_addr> <identity.json>"))
  end.

Definition HOST_V1_CONFIG_TYPE : string := "host.v1".

Definition host_v1_config (svc : Service) : result EdgeError (option HostV1Config) :=
  match Services.config svc !! HOST_V1_CONFIG_TYPE with
  | None => Ok None
  | Some value => map_err (ServiceConfig HOST_V1_CONFIG_TYPE) (cfg ← host_from_value value; Ok (Some cfg))
  end.

Definition forwarded_config (services : list Service) (service : string) : result cmd_error HostV1Config :=
  svc ← ok_or (Message ("service '" +:+ service +:+ "' not found")) (List.find (λ s, bool_decide (svc_name s = service)) services);
  found ← map_err EdgeFailed (host_v1_config svc);
  ok_or (Message ("service '" +:+ service +:+ "' has no host.v1 config (forwarding requires it)")) found.

(** A client of a file that has logged in. *)
Definition authenticated_client (fs : files) (identity : string) : task net (result cmd_error EdgeClient) :=
  c ←! mret (load_identity fs identity); logged_in_client c.

(** [None] when the listing has more than [pages] pages. *)
Definition run_host_forward (args : list string) (fs : files) : task net (option (result cmd_error serving)) :=
  match args !! 2%nat, args !! 3%nat with
  | Some service, Some identity =>
      r ← authenticated_client fs identity;
      match r with
      | Err e => mret (Some (Err e))
      | Ok c =>
          '(c, listing) ← list_services_with_config_types cfg pages [HOST_V1_CONFIG_TYPE] c;
          mret (services ← listing;
                Some (services ← map_err EdgeFailed services;
                      host_v1 ← forwarded_config services service;
                      Ok (ForwardingHost c service host_v1)))
      end
  | _, _ => mret (Some (Err (usage args "host-forward <service> <identity.json>")))
  end.

End commands.

(** ** The interceptor *)

Section intercept.
Context `{JsonLib} `{!RestJson} `{TlsLib} `{EnrollLib} `{CertJson} `{OidcLib} `{WireLib} `{ConfigJson} `{NetOps}.
Context (cfg : settings) (from_value : Json → result string InterceptV1Config) (pages : nat).

(** The operating system: names, the device with its address and prefix, the routes;
    and the order in which a hash map is gone through. *)
Record system : Type := mkSystem {
  resolve_host : string → result string (list IpAddr);
  open_device : Z → Z → result string unit;
  open_routes : result string unit;
  hash_order : gmap string Service → list Service
}.

(** The order of [IpAddr]. *)
Definition ip_le (a b : IpAddr) : Prop :=
  match a, b with V4 x, V4 y | V6 x, V6 y => x <= y | V4 _, V6 _ => True | V6 _, V4 _ => False end.
#[export] Instance ip_le_dec a b : Decision (ip_le a b).
Proof. destruct a, b; cbn; apply _. Defined.

(** [Vec::dedup]. *)
Fixpoint dedup (l : list IpAddr) : list IpAddr :=
  match l with
  | a :: ((b :: _) as rest) => if bool_decide (a = b) then dedup rest else a :: dedup rest
  | _ => l
  end.

Definition controller_addrs (sys : system) (url : string) : list IpAddr :=
  match url_host url with
  | Ok (Some host) =>
      match ip_from_str host with
      | Some ip => [ip]
      | None => match resolve_host sys host with Ok resolved => resolved | Err _ => [] end
      end
  | _ => []
  end.

Definition control_plane_addrs (sys : system) (controller_urls : list string) : list IpAddr :=
  dedup (merge_sort ip_le (concat (map (controller_addrs sys) controller_urls))).

Definition controller_urls (id : Config) : list string := cfg_zt_api id :: default [] (zt_apis id).

Definition prime_service_cache (sys : system) (services : list Service) (w : ServiceWatcher) : ServiceWatcher :=
  (process (hash_order sys) services w).2.

(** What the combined runner is started with. *)
Record interceptor : Type := mkInterceptor {
  i_client : EdgeClient;
  i_services : ServiceWatcher;
  i_world : World;
  i_dns_server_ip : Z;
  i_upstream : list SocketAddr
}.

(** The part of [run_intercept] after the listing; the flags are read last. *)
Definition intercept_with (sys : system) (args : list string) (id : Config) (utun_addr prefix : Z) (dns : DnsMatcher) (dns_server_ip : Z)
    (c : EdgeClient) (services : list Service) : result cmd_error interceptor :=
  let watcher := prime_service_cache sys services watcher_new in
  _ ← map_err Message (open_device sys utun_addr prefix);
  _ ← map_err Message (open_routes sys);
  routes ← ok_or (Message "prefijo inválido") (lifecycle_new utun_addr prefix (control_plane_addrs sys (controller_urls id)));
  let w := start from_value dns (Some routes) services in
  upstream_servers ← map_err Message (parse_dns_upstream_flags args);
  Ok (mkInterceptor c watcher w dns_server_ip upstream_servers).

Local Open Scope task_scope.

(** Up to the listing: the device's network, the identity, its client logged in, and the pool. *)
Definition prepare_intercept (fs : files) (utun_cidr identity : string) : task net (result cmd_error (Z * Z * Config * EdgeClient * DnsMatcher * Z)) :=
  utun ←! mret (map_err Message (parse_utun_cidr utun_cidr));
  id ←! mret (text ← map_err Message (read_to_string fs identity); map_err Message (config_from_json text));
  c ←! mret (map_err EdgeFailed (from_identity id));
  c ←! logged_in_client cfg c;
  pool ←! mret (ok_or (Message "utun-cidr inválido para el pool de IP sintética") (seed_and_reserve_dns_pool utun.1 utun.2));
  mret (Ok (utun, id, c, pool.1, pool.2)).

(** [None] when the listing has more than [pages] pages. *)
Definition run_intercept (sys : system) (args : list string) (fs : files) : task net (option (result cmd_error interceptor)) :=
  match args !! 2%nat, args !! 3%nat with
  | Some utun_cidr, Some identity =>
      r ← prepare_intercept fs utun_cidr identity;
      match r with
      | Err e => mret (Some (Err e))
      | Ok (utun_addr, prefix, id, c, dns, dns_server_ip) =>
          '(c, listing) ← list_services_with_config_types cfg pages [INTERCEPT_V1_CONFIG_TYPE] c;
          mret (services ← listing;
                Some (services ← map_err EdgeFailed services; intercept_with sys args id utun_addr prefix dns dns_server_ip c services))
      end
  | _, _ => mret (Some (Err (usage args "intercept <utun-cidr> <identity.json>")))
  end.

End intercept.

(** ** The program *)

Inductive Subcommand : Type := Enrol | Proxy | ProxyMulti | ProxyUdp | HostTcp | HostForward | Intercept.

Definition subcommand (s : string) : option Subcommand :=
  if bool_decide (s = "enroll") then Some Enrol
  else if bool_decide (s = "proxy") then Some Proxy
  else if bool_decide (s = "proxy-multi") then Some ProxyMulti
  else if bool_decide (s = "proxy-udp") then Some ProxyUdp
  else if bool_decide (s = "host") then Some HostTcp
  else if bool_decide (s = "host-forward") then Some HostForward
  else if bool_decide (s = "intercept") then Some Intercept
  else None.

(** How far a run of the program comes before its loops. *)
Inductive outcome `{JsonLib} `{NetOps} : Type :=
| Enrolled (path : string)
| Serving (s : serving)
| Intercepting (i : interceptor)
| Unfinished
| Failed (e : cmd_error)
| Usage.

Section program.
Context `{JsonLib} `{!RestJson} `{TlsLib} `{EnrollLib} `{CertJson} `{OidcLib} `{WireLib} `{ConfigJson} `{NetOps}.
Context (cfg : settings) (sys : system) (binds : listen_addr → result string unit).
Context (host_from_value : Json → result string HostV1Config) (intercept_from_value : Json → result string InterceptV1Config).

Definition served (r : option (result cmd_error serving)) : outcome :=
  match r with Some (Ok s) => Serving s | Some (Err e) => Failed e | None => Unfinished end.

(** [n] bounds the attempts of [proxy-multi] to log in, and the pages of a listing. *)
Definition main (n : nat) (args : list string) (fs : files) : task net (files * outcome) :=
  match args !! 1%nat ≫= subcommand with
  | Some Enrol => '(fs, r) ← run_enroll args fs; mret (fs, match r with Ok out => Enrolled out | Err e => Failed e end)
  | Some Proxy => r ← run_proxy cfg binds args fs; mret (fs, served (Some r))
  | Some ProxyMulti => '(_, r) ← run_proxy_multi cfg binds n args fs; mret (fs, served r)
  | Some ProxyUdp => r ← run_proxy_udp cfg binds args fs; mret (fs, served (Some r))
  | Some HostTcp => r ← run_host cfg args fs; mret (fs, served (Some r))
  | Some HostForward => r ← run_host_forward cfg host_from_value n args fs; mret (fs, served r)
  | Some Intercept =>
      r ← run_intercept cfg intercept_from_value n sys args fs;
      mret (fs, match r with Some (Ok i) => Intercepting i | Some (Err e) => Failed e | None => Unfinished end)
  | None => mret (fs, Usage)
  end.

End program.

(** ** What is sent and served *)

Section spec.
Context `{JsonLib} `{!RestJson} `{TlsLib} `{EnrollLib} `{CertJson} `{OidcLib} `{WireLib} `{ConfigJson} `{NetOps} `{!IpNetLaws}.
Context (cfg : settings) (sys : system) (binds : listen_addr → result string unit).
Context (host_from_value : Json → result string HostV1Config) (intercept_from_value : Json → result string InterceptV1Config).

(** The requests of an identity in some file, and a client that has logged in as one. *)
Definition identity_may (fs : files) (h : history) (o : net_op) : Prop :=
  ∃ path c, load_identity fs path = Ok c ∧ client_may c h o.

Definition identity_of (fs : files) (h : history) (c' : EdgeClient) : Prop :=
  ∃ path c, load_identity fs path = Ok c ∧ authenticated_as cfg c c' h.

Definition served_client (s : serving) : EdgeClient :=
  match s with TcpProxies c _ | UdpProxy c _ _ | TcpHost c _ _ | ForwardingHost c _ _ => c end.

Definition listening (s : serving) : Prop :=
  match s with TcpProxies _ bindings => Forall (λ b, binds b.1 = Ok tt) bindings | UdpProxy _ a _ => binds a = Ok tt | _ => True end.

Lemma logged_in_client_wp c h :
  wp (talk (client_may c)) (logged_in_client cfg c) (λ r h', match r with Ok c' => authenticated_as cfg c c' h' | Err _ => True end) h.
Proof.
  unfold logged_in_client. rewrite wp_bind. eapply wp_mono; [apply authenticate_client_wp|]. intros [c' [u|e]] h'; by cbn.
Qed.

(** A client of a file, logged in, and then the rest. *)
Lemma load_and_login fs path {A} (k : EdgeClient → task net (result cmd_error A)) Q h :
  (∀ e h', Q (Err e) h') → (∀ c' h', identity_of fs h' c' → wp (talk (identity_may fs)) (k c') Q h') →
  wp (talk (identity_may fs)) (try (mret (load_identity fs path)) (λ c, try (logged_in_client cfg c) k)) Q h.
Proof.
  intros HQ Hk. apply wp_try_ret; [done|]. intros c Hc. eapply wp_try_call; [|done|].
  - eapply wp_talk_weaken; [|apply logged_in_client_wp]. intros h' o _ Hm. by exists path, c.
  - intros c' h' Ha _. apply Hk. by exists path, c.
Qed.

Definition started (fs : files) (r : result cmd_error serving) (h : history) : Prop :=
  match r with Ok s => listening s ∧ identity_of fs h (served_client s) | Err _ => True end.

Lemma bound_Ok a a' : bound binds a = Ok a' → a' = a ∧ binds a = Ok tt.
Proof. unfold bound. destruct (binds a) as [[]|e] eqn:E; cbn; [|done]. by intros [= <-]. Qed.

Lemma bind_all_Ok host specs bs : bind_all binds host specs = Ok bs → bs = map (λ sp, (HostPort host sp.2, sp.1)) specs ∧ Forall (λ b, binds b.1 = Ok tt) bs.
Proof.
  revert bs. induction specs as [|[service port] specs IH]; intros bs; cbn; [by intros [= <-]|].
  destruct (bound binds (HostPort host port)) as [a|e] eqn:Ea; cbn; [|done]. apply bound_Ok in Ea as [-> Hb].
  destruct (bind_all binds host specs) as [rest|e]; cbn; [|done]. intros [= <-]. destruct (IH rest eq_refl) as [-> Hr]. split; [done|by constructor].
Qed.

Lemma run_proxy_wp args fs h : wp (talk (identity_may fs)) (run_proxy cfg binds args fs) (started fs) h.
Proof.
  unfold run_proxy. destruct (args !! 2%nat); [|done]. destruct (args !! 3%nat); [|done]. destruct (args !! 4%nat); [|done].
  apply load_and_login; [done|]. intros c' h' Hc. apply wp_try_ret; [done|]. intros a [-> Hb]%bound_Ok. cbn. split; [by repeat constructor|done].
Qed.

Lemma run_proxy_udp_wp args fs h : wp (talk (identity_may fs)) (run_proxy_udp cfg binds args fs) (started fs) h.
Proof.
  unfold run_proxy_udp. destruct (args !! 2%nat); [|done]. destruct (args !! 3%nat); [|done]. destruct (args !! 4%nat); [|done].
  apply load_and_login; [done|]. intros c' h' Hc. apply wp_try_ret; [done|]. by intros a [-> Hb]%bound_Ok.
Qed.

Lemma run_host_wp args fs h : wp (talk (identity_may fs)) (run_host cfg args fs) (started fs) h.
Proof.
  unfold run_host. destruct (args !! 2%nat); [|done]. destruct (args !! 3%nat); [|done]. destruct (args !! 4%nat); [|done].
  apply load_and_login; [done|]. by intros c' h' Hc.
Qed.

(** A subcommand that lists services and then begins. *)
Definition begun (fs : files) (r : option (result cmd_error serving)) (h : history) : Prop :=
  match r with Some r => started fs r h | None => True end.

Lemma load_identity_enrolled fs path c : load_identity fs path = Ok c → enrolled_client c.
Proof.
  unfold load_identity. destruct (read_to_string fs path) as [text|]; cbn; [|done]. destruct (config_from_json text) as [id|]; cbn; [|done].
  destruct (from_identity id) as [c0|] eqn:Ec; cbn; [|done]. intros [= <-]. by destruct (from_identity_Ok _ _ Ec) as (cc & cert & key & _ & _ & _ & ->).
Qed.

(** The listing of a client of a file. *)
Lemma list_identity_wp {A} fs path c c' pages types (k : EdgeClient * option (result EdgeError (list Service)) → task net A) Q h :
  load_identity fs path = Ok c → authenticated_as cfg c c' h →
  (∀ x h', authenticated_as cfg c x.1 h' → (∀ svcs, x.2 = Some (Ok svcs) → listed c types svcs h') → wp (talk (identity_may fs)) (k x) Q h') →
  wp (talk (identity_may fs)) (list_services_with_config_types cfg pages types c' ≫= k) Q h.
Proof.
  intros Hc Ha Hk. rewrite wp_bind. eapply wp_mono.
  - eapply wp_talk_weaken; [|by apply list_services_wp, load_identity_enrolled with fs path]. intros h' o _ Hm. by exists path, c.
  - intros x h' [Ha' Hl]. apply Hk; [done|]. intros svcs E. by rewrite E in Hl.
Qed.

Lemma authenticated_client_wp fs path h :
  wp (talk (identity_may fs)) (authenticated_client cfg fs path)
    (λ r h', match r with Ok c' => ∃ c, load_identity fs path = Ok c ∧ authenticated_as cfg c c' h' | Err _ => True end) h.
Proof.
  unfold authenticated_client. apply wp_try_ret; [done|]. intros c Hc. eapply wp_mono.
  - eapply wp_talk_weaken; [|apply logged_in_client_wp]. intros h' o _ Hm. by exists path, c.
  - intros [c'|e] h' Ha; [by exists c|done].
Qed.

Lemma run_host_forward_wp pages args fs h :
  wp (talk (identity_may fs)) (run_host_forward cfg host_from_value pages args fs) (begun fs) h.
Proof.
  unfold run_host_forward. destruct (args !! 2%nat); [|done]. destruct (args !! 3%nat) as [path|]; [|done]. rewrite wp_bind.
  eapply wp_mono; [apply authenticated_client_wp|]. intros [c'|e] h' Hc; [|done]. destruct Hc as (c & Hc & Ha).
  eapply list_identity_wp; [done..|]. intros [c1 [r|]] h1 Ha1 _; [|done]. cbn in Ha1. cbn [wp mret task_ret mbind option_bind fst snd].
  destruct (map_err EdgeFailed r) as [svcs|]; cbn; [|done]. destruct (forwarded_config _ _ _); cbn; [|done]. split; [done|]. by exists path, c.
Qed.

(** The waits double, up to half a minute. *)
Definition backs_off (wait : Z) (waits : list Z) : Prop := ∀ k w, waits !! k = Some w → w = Z.min (wait * 2 ^ Z.of_nat k) 30.

Lemma backs_off_cons wait waits : 1 <= wait <= 30 → backs_off (Z.min (wait * 2) 30) waits → backs_off wait (wait :: waits).
Proof.
  intros Hw Hb [|k] w; cbn [lookup list_lookup].
  - intros [= <-]. change (2 ^ Z.of_nat 0)%Z with 1%Z. lia.
  - intros Hk. apply Hb in Hk as ->. rewrite Nat2Z.inj_succ, Z.pow_succ_r by lia.
    assert (1 <= 2 ^ Z.of_nat k) by (apply Z.lt_pred_le, Z.pow_pos_nonneg; lia). nia.
Qed.

Lemma authenticate_retrying_wp n wait c h : 1 <= wait <= 30 →
  wp (talk (client_may c)) (authenticate_retrying cfg n wait c)
    (λ x h', backs_off wait x.1 ∧ (length x.1 <= n)%nat ∧ match x.2 with Some c' => authenticated_as cfg c c' h' | None => length x.1 = n end) h.
Proof.
  revert wait h. induction n as [|n IH]; intros wait h Hw; cbn [authenticate_retrying].
  - split; [by intros k w|done].
  - rewrite wp_bind. eapply wp_mono; [apply authenticate_client_wp|]. intros [c' [u|e]] h' Hc; cbn in Hc.
    + split; [by intros k w|]. split; [cbn; lia|done].
    + subst c'. rewrite wp_bind. eapply wp_mono; [apply IH; lia|]. intros [waits o] h'' (Hb & Hl & Ho). cbn in *.
      split; [by apply backs_off_cons|]. split; [lia|]. destruct o; [done|lia].
Qed.

Definition multi_started (n : nat) (fs : files) (x : list Z * option (result cmd_error serving)) (h : history) : Prop :=
  backs_off 1 x.1 ∧ (length x.1 <= n)%nat ∧ match x.2 with Some r => started fs r h | None => length x.1 = n end.

Lemma run_proxy_multi_wp n args fs h : wp (talk (identity_may fs)) (run_proxy_multi cfg binds n args fs) (multi_started n fs) h.
Proof.
  unfold run_proxy_multi. set (r := mbind _ _). destruct r as [[[bind specs] c]|e] eqn:Er; [|split; [by intros k w|split; [cbn; lia|done]]].
  assert (Hc : ∃ path, load_identity fs path = Ok c).
  { subst r. destruct (args !! 2%nat) as [identity|]; cbn in Er; [|done]. destruct (parse_multi_args _ _ _) as [[b sp]|]; cbn in Er; [|done].
    case_bool_decide; [done|]. exists identity. destruct (load_identity fs identity); cbn in Er; [congruence|done]. }
  clear Er r. destruct Hc as [path Hc]. rewrite wp_bind. eapply wp_mono.
  - eapply wp_talk_weaken; [|apply authenticate_retrying_wp; lia]. intros h' o _ Hm. by exists path, c.
  - intros [waits o] h' (Hb & Hl & Ho). split; [done|]. split; [done|]. cbn in *. destruct o as [c'|]; cbn; [|done].
    destruct (bind_all binds bind specs) as [bs|e] eqn:E; cbn; [|done]. apply bind_all_Ok in E as [_ Hbs]. split; [done|]. by exists path, c.
Qed.

(** The interceptor as it starts: its world is the snapshot folded over a fresh pool, a
    device's network and the addresses of the identity's controllers. *)
Definition intercepting (args : list string) (fs : files) (i : interceptor) (h : history) : Prop :=
  ∃ path text id c a p d rl svcs,
    args !! 3%nat = Some path ∧ contents fs !! path = Some text ∧ config_from_json text = Ok id ∧
    from_identity id = Ok c ∧ authenticated_as cfg c (i_client i) h ∧ listed c [INTERCEPT_V1_CONFIG_TYPE] svcs h ∧
    args !! 2%nat ≫= (λ s, match parse_utun_cidr s with Ok ap => Some ap | Err _ => None end) = Some (a, p) ∧
    fresh_dns d ∧ lifecycle_new a p (control_plane_addrs sys (controller_urls id)) = Some rl ∧
    i_services i = prime_service_cache sys svcs watcher_new ∧
    i_world i = start intercept_from_value d (Some rl) svcs ∧ i_dns_server_ip i = wrap_u32 (a + 1) ∧ parse_dns_upstream_flags args = Ok (i_upstream i).

Lemma parse_utun_cidr_Ok s a p : parse_utun_cidr s = Ok (a, p) → u32_ok a ∧ 0 <= p <= 32.
Proof.
  unfold parse_utun_cidr. destruct (split_once slash s) as [[addr prefix]|]; cbn [ok_or mbind result_bind]; [|done].
  destruct (ipv4_from_str addr) as [v|] eqn:Ea; cbn [ok_or mbind result_bind]; [|done]. destruct (parse_unsigned u8_max prefix) as [q|] eqn:Eq; cbn [ok_or mbind result_bind]; [|done]. destruct (Z.ltb_spec 32 q); [done|]. intros [= -> ->].
  unfold ipv4_from_str in Ea. destruct (read_ipv4 addr) as [[v rest]|] eqn:E; cbn [mbind option_bind] in Ea; [|done]. case_bool_decide; [|done]. injection Ea as ->.
  apply read_ipv4_ok in E. apply parse_unsigned_bounds in Eq. split; [unfold u32_ok, u32_max; lia|lia].
Qed.

(** What the listing starts from. *)
Definition prepared (fs : files) (utun_cidr path : string) (x : Z * Z * Config * EdgeClient * DnsMatcher * Z) (h : history) : Prop :=
  let '(a, p, id, c', d, server) := x in
  parse_utun_cidr utun_cidr = Ok (a, p) ∧ fresh_dns d ∧ server = wrap_u32 (a + 1) ∧
  ∃ text c, contents fs !! path = Some text ∧ config_from_json text = Ok id ∧ from_identity id = Ok c ∧ load_identity fs path = Ok c ∧ authenticated_as cfg c c' h.

Lemma prepare_intercept_wp fs utun path h :
  wp (talk (identity_may fs)) (prepare_intercept cfg fs utun path) (λ r h', match r with Ok x => prepared fs utun path x h' | Err _ => True end) h.
Proof.
  unfold prepare_intercept.
  apply wp_try_ret; [done|]. intros [a p] Hap. destruct (parse_utun_cidr utun) as [[a' p']|] eqn:Eu; cbn in Hap; [|done]. injection Hap as -> ->.
  apply wp_try_ret; [done|]. intros id Hid. apply wp_try_ret; [done|]. intros c Hc.
  unfold read_to_string in Hid. destruct (contents fs !! path) as [text|] eqn:Et; cbn in Hid; [|done]. destruct (config_from_json text) as [id'|] eqn:Ei; cbn in Hid; [|done]. injection Hid as ->.
  destruct (from_identity id) as [c0|] eqn:Ec; cbn in Hc; [|done]. injection Hc as ->.
  assert (Hload : load_identity fs path = Ok c) by (unfold load_identity, read_to_string; rewrite Et; cbn; rewrite Ei; cbn; by rewrite Ec).
  eapply wp_try_call; [|done|].
  - eapply wp_talk_weaken; [|apply logged_in_client_wp]. intros h' o _ Hm. by exists path, c.
  - intros c' h' Ha _. apply wp_try_ret; [done|]. intros [d server] Ed. cbn [fst snd] in *.
    destruct (seed_and_reserve_dns_pool a p) as [[d' server']|] eqn:Es; cbn in Ed; [|done]. injection Ed as -> ->. split_and!; [done| | |by exists text, c].
    + apply (seed_and_reserve_fresh a p d server); [|done]. by apply parse_utun_cidr_Ok in Eu as [? _].
    + unfold seed_and_reserve_dns_pool in Es. destruct (seed_pool _ _) as [[] ?]; cbn in Es; [|done]. by injection Es as _ <-.
Qed.

Lemma run_intercept_wp pages args fs h :
  wp (talk (identity_may fs)) (run_intercept cfg intercept_from_value pages sys args fs)
    (λ r h', match r with Some (Ok i) => intercepting args fs i h' | _ => True end) h.
Proof.
  unfold run_intercept. destruct (args !! 2%nat) as [utun|] eqn:E2; [|done]. destruct (args !! 3%nat) as [path|] eqn:E3; [|done].
  rewrite wp_bind. eapply wp_mono; [apply prepare_intercept_wp|]. intros [[[[[[a p] id] c'] d] server]|e] h' Hx; [|done].
  destruct Hx as (Eu & Hd & -> & text & c & Ht & Hid & Hc & Hload & Ha). eapply list_identity_wp; [done..|].
  intros [c1 [[svcs|e]|]] h1 Ha1 Hl; cbn; [|done..]. destruct (intercept_with _ _ _ _ _ _ _ _ _ _) as [i|e] eqn:E; [|done]. unfold intercept_with in E.
  destruct (open_device sys a p); cbn in E; [|done]. destruct (open_routes sys); cbn in E; [|done].
  destruct (lifecycle_new a p _) as [rl|] eqn:El; cbn in E; [|done]. destruct (parse_dns_upstream_flags args) as [ups|] eqn:Ef; cbn in E; [|done]. injection E as <-.
  exists path, text, id, c, a, p, d, rl, svcs. split_and!; try done; [by apply Hl|rewrite E2; cbn [mbind option_bind]; by rewrite Eu].
Qed.

Lemma main_wp n args fs h : args !! 1%nat ≠ Some "enroll" →
  wp (talk (identity_may fs)) (main cfg sys binds host_from_value intercept_from_value n args fs)
    (λ x h', x.1 = fs ∧ match x.2 with
       | Serving s => listening s ∧ identity_of fs h' (served_client s)
       | Intercepting i => intercepting args fs i h'
       | Enrolled _ => False
       | _ => True
       end) h.
Proof.
  intros Hne. unfold main. destruct (args !! 1%nat ≫= subcommand) as [sc|] eqn:E; [|done].
  assert (Hs : sc ≠ Enrol).
  { intros ->. destruct (args !! 1%nat) as [a|]; cbn in E; [|done]. unfold subcommand in E. repeat case_bool_decide; congruence. }
  assert (Hserved : ∀ r h', begun fs r h' → match served r with Serving s => listening s ∧ identity_of fs h' (served_client s)
    | Intercepting i => intercepting args fs i h' | Enrolled _ => False | _ => True end) by by intros [[s|e]|].
  destruct sc; [done|..]; rewrite wp_bind.
  - eapply wp_mono; [apply run_proxy_wp|]. intros r h' Hr. cbn [fst snd]. split; [done|by apply Hserved].
  - eapply wp_mono; [apply run_proxy_multi_wp|]. intros [waits o] h' (_ & _ & Hr). cbn in *. split; [done|]. apply Hserved. by destruct o.
  - eapply wp_mono; [apply run_proxy_udp_wp|]. intros r h' Hr. cbn [fst snd]. split; [done|by apply Hserved].
  - eapply wp_mono; [apply run_host_wp|]. intros r h' Hr. cbn [fst snd]. split; [done|by apply Hserved].
  - eapply wp_mono; [apply run_host_forward_wp|]. intros r h' Hr. cbn [fst snd]. split; [done|by apply Hserved].
  - eapply wp_mono; [apply run_intercept_wp|]. intros [[i|e]|] h' Hr; cbn; by split.
Qed.

(** ** The addresses of the controllers *)

#[local] Instance ip_le_total : Total ip_le.
Proof. intros [x|x] [y|y]; cbn; try (by left); try (by right); lia. Qed.
#[local] Instance ip_le_trans : Transitive ip_le.
Proof. intros [x|x] [y|y] [z|z]; cbn; try done; lia. Qed.

Lemma elem_of_dedup a l : a ∈ dedup l ↔ a ∈ l.
Proof.
  induction l as [|b [|c l] IH]; [done..|]. change (dedup (b :: c :: l)) with (if bool_decide (b = c) then dedup (c :: l) else b :: dedup (c :: l)).
  case_bool_decide as Hbc; rewrite ?elem_of_cons, IH, !elem_of_cons; [|done]. subst. tauto.
Qed.

(** Strictly increasing, so without duplicates. *)
Definition ip_lt (a b : IpAddr) : Prop := ip_le a b ∧ a ≠ b.

Lemma dedup_sorted l : StronglySorted ip_le l → StronglySorted ip_lt (dedup l).
Proof.
  induction 1 as [|b l Hl IH Hb]; [constructor|]. destruct l as [|c l]; [by repeat constructor|].
  change (dedup (b :: c :: l)) with (if bool_decide (b = c) then dedup (c :: l) else b :: dedup (c :: l)). case_bool_decide as Hbc; [done|].
  constructor; [done|]. apply Forall_forall. intros x Hx. rewrite elem_of_dedup in Hx. rewrite Forall_forall in Hb. split; [by apply Hb|]. intros <-.
  apply Hbc. apply elem_of_cons in Hx as [|Hx]; [done|]. inversion Hl as [|? ? _ Hc]; subst. rewrite Forall_forall in Hc. specialize (Hc b Hx).
  assert (Hbc' : ip_le b c) by (apply Hb; set_solver). destruct b, c; cbn in *; try done; f_equal; lia.
Qed.

Lemma control_plane_addrs_spec urls :
  StronglySorted ip_lt (control_plane_addrs sys urls) ∧
  ∀ a, a ∈ control_plane_addrs sys urls ↔ ∃ url, url ∈ urls ∧ a ∈ controller_addrs sys url.
Proof.
  unfold control_plane_addrs. split.
  - apply dedup_sorted. apply Sorted_StronglySorted; [exact ip_le_trans|]. apply Sorted_merge_sort. exact _.
  - intros a. rewrite elem_of_dedup, merge_sort_Permutation, list_elem_of_In, in_concat. split.
    + intros (l & Hl & Ha). apply in_map_iff in Hl as (url & <- & Hu). exists url. by rewrite !list_elem_of_In.
    + intros (url & Hu & Ha). exists (controller_addrs sys url). rewrite in_map_iff, <-list_elem_of_In. split; [|done]. exists url. by rewrite <-list_elem_of_In.
Qed.

Lemma elem_of_controller_urls id url : url ∈ controller_urls id ↔ url = cfg_zt_api id ∨ ∃ apis, zt_apis id = Some apis ∧ url ∈ apis.
Proof.
  unfold controller_urls. rewrite elem_of_cons. destruct (zt_apis id) as [apis|]; cbn; [|set_solver]. split; [|naive_solver].
  intros [->|Ha]; [by left|]. right. by exists apis.
Qed.

Lemma elem_of_controller_addrs url host addr : url_host url = Ok (Some host) →
  addr ∈ controller_addrs sys url ↔
  ip_from_str host = Some addr ∨ (ip_from_str host = None ∧ ∃ resolved, resolve_host sys host = Ok resolved ∧ addr ∈ resolved).
Proof.
  intros Hh. unfold controller_addrs. rewrite Hh. destruct (ip_from_str host) as [ip|]; [rewrite list_elem_of_singleton; naive_solver|].
  destruct (resolve_host sys host) as [l|e]; [naive_solver|]. rewrite elem_of_nil. naive_solver.
Qed.

(** ** The primed cache *)

Lemma primed_settled svcs : is_order (hash_order sys) → NoDup (map svc_name svcs) →
  (process (hash_order sys) svcs (prime_service_cache sys svcs watcher_new)).1.1 = [].
Proof.
  intros Ho Hnd. unfold prime_service_cache, process. cbn [fst snd cache watcher_new].
  rewrite (apply_cache_update_eq (hash_order sys) ∅ svcs) by done. by apply diff_settled.
Qed.

(** ** Enrolment and its files *)

Lemma run_enroll_outcome args fs env : (∀ h o, lawful o (env h o)) →
  let r := converse env (run_enroll args fs) [] in
  match r.1.2 with
  | Err _ => r.1.1 = fs
  | Ok out => ∃ jwt_path jwt opts id json,
      args !! 2%nat = Some jwt_path ∧ out = default (default_out jwt_path) (parse_out_flag args) ∧ contents fs !! jwt_path = Some jwt ∧
      parse_keyalg_flag args = Ok (key_alg opts) ∧ client_identity opts = None ∧
      additional_cas opts = (path ← parse_ca_flag args; contents fs !! path) ∧ (is_Some (parse_ca_flag args) → is_Some (additional_cas opts)) ∧
      all_allowed (enroll_may (trim jwt) (additional_cas opts) (enrolls_with opts)) [] r.2 ∧
      enrolled_identity (trim jwt) (additional_cas opts) opts r.2 id ∧ config_to_json id = Ok json ∧ out ∉ denied fs ∧
      r.1.1 = remove_file (mkFiles (<[out := json]> (contents fs)) (denied fs) (io_error fs)) jwt_path
  end.
Proof.
  intros Henv. unfold run_enroll. case_bool_decide; [|done]. destruct (args !! 2%nat) as [jwt_path|]; [|done].
  destruct (parse_keyalg_flag args) as [alg|e]; [|done].
  set (cas := match parse_ca_flag args with Some _ => _ | None => _ end). destruct cas as [cas'|e] eqn:Ec; [|done].
  assert (Hcas : cas' = (path ← parse_ca_flag args; contents fs !! path) ∧ (is_Some (parse_ca_flag args) → is_Some cas')).
  { subst cas. destruct (parse_ca_flag args) as [path|]; [|injection Ec as <-; by split; [|intros [? ?]]].
    unfold read_to_string in Ec. cbn. destruct (contents fs !! path) eqn:Ep; cbn in Ec; [|done]. injection Ec as <-. split; [done|by eexists]. }
  clear Ec cas. destruct Hcas as [Hc1 Hc2]. unfold read_to_string. destruct (contents fs !! jwt_path) as [jwt|] eqn:Ej; [|done]. cbn [ok_or].
  set (opts := mkOptions alg None cas'). rewrite converse_bind.
  destruct (converse_sound _ env _ _ [] Henv (enroll_wp (trim jwt) (additional_cas opts) opts [] eq_refl)) as (HQ & _ & Hall).
  destruct (converse env (enroll (trim jwt) opts) []) as [[id|e] h]; [|done]. cbn [fst snd] in *.
  destruct (config_to_json id) as [json|e] eqn:Ejs; [|done]. unfold write_file. case_bool_decide as Hd; [done|]. cbn [converse fst snd].
  exists jwt_path, jwt, opts, id, json. by split_and!.
Qed.

End spec.

(** ** Properties *)

Section properties.
Context `{JsonLib} `{!RestJson} `{TlsLib} `{EnrollLib} `{CertJson} `{OidcLib} `{WireLib} `{ConfigJson} `{NetOps} `{!IpNetLaws}.
Context (cfg : settings) (sys : system) (binds : listen_addr → result string unit).
Context (host_from_value : Json → result string HostV1Config) (intercept_from_value : Json → result string InterceptV1Config).

(** A client that the file of an identity gives: its TLS client shows that identity's
    certificate and verifies every server by its CAs. *)
Definition own_tls (id : Config) (c : EdgeClient) : Prop :=
  ∃ cc cert key, client_config id = Ok cc ∧ id_cert (cfg_id id) = "pem:" +:+ cert ∧ id_key (cfg_id id) = "pem:" +:+ key ∧
    ec_http c = mkHttpClient (Roots (cc_roots cc)) (Some (cert, key)) true ∧ ec_base_url c = cfg_zt_api id.

Lemma load_identity_Ok fs path c :
  load_identity fs path = Ok c → ∃ text id, contents fs !! path = Some text ∧ config_from_json text = Ok id ∧ from_identity id = Ok c ∧ own_tls id c.
Proof.
  unfold load_identity, read_to_string. destruct (contents fs !! path) as [text|]; cbn; [|done]. destruct (config_from_json text) as [id|] eqn:Ei; cbn; [|done].
  destruct (from_identity id) as [c0|] eqn:Ec; cbn; [|done]. intros [= <-]. exists text, id. split_and!; [done..|].
  destruct (from_identity_Ok _ _ Ec) as (cc & cert & key & Hcc & Hcert & Hkey & ->). by exists cc, cert, key.
Qed.




(** Where the output is the token's own path - by [--out], or because the token's file
    already ends in [.json] - an enrolment that succeeds leaves no file there: the
    identity is written over the token and then removed as the token. *)
Theorem enrolled_over_token args fs env out :
  (∀ h o, lawful o (env h o)) → (converse env (run_enroll args fs) []).1.2 = Ok out → args !! 2%nat = Some out →
  contents (converse env (run_enroll args fs) []).1.1 !! out = None.
Proof.
  intros Henv Hr Harg. pose proof (run_enroll_outcome args fs env Henv) as Ho. cbv zeta in Ho. rewrite Hr in Ho.
  destruct Ho as (jwt_path & jwt & opts & id & json & Harg' & _ & _ & _ & _ & _ & _ & _ & _ & _ & Hd & ->).
  assert (jwt_path = out) as -> by congruence. unfold remove_file. cbn [denied]. rewrite bool_decide_eq_false_2 by done. cbn. by rewrite lookup_delete_eq.
Qed.

(** [proxy-multi] logs in again after one, two, four seconds and so on up to thirty,
    for as long as it takes, and serves once it has logged in. *)
Theorem proxy_multi_retries n args fs env :
  (∀ h o, lawful o (env h o)) →
  let r := (converse env (run_proxy_multi cfg binds n args fs) []).1 in
  (∀ k w, r.1 !! k = Some w → w = Z.min (2 ^ Z.of_nat k) 30) ∧ (length r.1 <= n)%nat ∧ (r.2 = None → length r.1 = n).
Proof.
  intros Henv r. destruct (converse_sound _ env _ _ [] Henv (run_proxy_multi_wp cfg binds n args fs [])) as ((Hb & Hl & Ho) & _ & _). fold r in Hb, Hl, Ho.
  split_and!; [|done|by intros E; rewrite E in Ho]. intros k w Hk. rewrite (Hb k w Hk). f_equal. lia.
Qed.

End properties.

(** ** Witnesses

    The identity and the controller of the construction, the resolver's services, a
    token in [id.json], and a controller whose name has an address in service a's
    network; it takes the first session's token for expired when services are listed. *)

Section witness.
#[local] Existing Instance string_json.
#[local] Existing Instances demo_tls demo_enroll demo_cert demo_oidc demo_wire.

Definition demo_rest_listing : @RestJson string_json := {|
  error_body := λ _, None;
  session_body := λ _, Err "";
  routers_body := λ _, Err "";
  api_session_body := @api_session_body _ demo_construct_rest;
  services_body := λ _, Ok ([demo_service "a" "web"; demo_service "b" "wild"], 2);
  updates_body := Err
|}.
#[local] Existing Instance demo_rest_listing.

Definition demo_config_json : ConfigJson := {| config_to_json := λ _, Ok "identity"; config_from_json := λ _, Ok Construct.demo_identity |}.
#[local] Existing Instance demo_config_json.

Definition demo_files : files := mkFiles {[ "id.json" := Enroll.demo_jwt; "host" := "web" ]} ∅ (λ path, path +:+ ": not found").
Definition demo_system : system := mkSystem (λ host, if bool_decide (host = "ctrl") then Ok [V4 167837697] else Err "no such host") (λ _ _, Ok tt) (Ok tt) listed_order.
Definition demo_controller : environment := λ h o,
  match o with
  | Send c r => if Construct.to "/services" r && (length h =? 1)%nat then ([], Ok (mkResponse 401 (λ _, None) (Ok "expired") (Ok [])))
                else Construct.demo_server h (Send c r)
  | o => Construct.demo_server h o
  end.

Lemma demo_controller_lawful h o : lawful o (demo_controller h o).
Proof. destruct o as [c r| | | | |]; [|exact (Construct.demo_server_lawful h _)..]. unfold demo_controller. destruct (_ && _); [done|exact (Construct.demo_server_lawful h (Send c r))]. Qed.

Definition no_host (raw : string) : result string HostV1Config := Err "no such config".

Definition demo_program (args : list string) : files * outcome * history :=
  converse demo_controller (main wire_settings demo_system (λ _, Ok tt) no_host demo_from_value 1 args demo_files) [].

Definition demo_proxy : list string := ["noa"; "proxy"; "127.0.0.1:80"; "web"; "id.json"].

Definition proxying (o : outcome) : option (list (listen_addr * string) * option AuthToken) :=
  match o with Serving (TcpProxies c bindings) => Some (bindings, ec_token c) | _ => None end.

Lemma proxying_Some o bindings t : proxying o = Some (bindings, t) → ∃ c, o = Serving (TcpProxies c bindings) ∧ ec_token c = t.
Proof. destruct o as [|[c b| | |]| | | |]; cbn; try done. intros [= <- <-]. by exists c. Qed.


Definition demo_intercept : list string := ["noa"; "intercept"; "100.64.0.1/29"; "id.json"; "--dns-upstream"; "1.1.1.1"].
Definition demo_interceptor : option (result cmd_error interceptor) * history :=
  converse demo_controller (run_intercept wire_settings demo_from_value 1 demo_system demo_intercept demo_files) [].

Definition set_up (r : option (result cmd_error interceptor)) : option (list SocketAddr * Z) :=
  match r with Some (Ok i) => Some (i_upstream i, i_dns_server_ip i) | _ => None end.

Lemma set_up_Some r upstream server : set_up r = Some (upstream, server) → ∃ i, r = Some (Ok i) ∧ i_upstream i = upstream ∧ i_dns_server_ip i = server.
Proof. destruct r as [[i|]|]; cbn; [|done..]. intros [= <- <-]. by exists i. Qed.


Definition demo_enrolment (args : list string) : files * result cmd_error string * history := converse demo_web (run_enroll args demo_files) [].
Definition demo_named : list string := ["noa"; "enroll"; "id.json"; "--out"; "alice.json"].
Definition demo_unnamed : list string := ["noa"; "enroll"; "id.json"; "-a=RSA"].


(** The token's file ends in [.json], and no output is named. *)
Lemma enrolled_over_token_witness :
  default_out "id.json" = "id.json" ∧ (demo_enrolment demo_unnamed).1.2 = Ok "id.json" ∧ contents (demo_enrolment demo_unnamed).1.1 !! "id.json" = None.
Proof.
  assert (E : (demo_enrolment demo_unnamed).1.2 = Ok "id.json") by (vm_compute; reflexivity). split; [vm_compute; reflexivity|]. split; [exact E|].
  exact (enrolled_over_token demo_unnamed demo_files demo_web "id.json" demo_web_lawful E eq_refl).
Defined.

(** A controller that does not answer the first three logins. *)
Definition demo_slow : environment := λ h o,
  match o with
  | Send c r => if (length h <? 3)%nat then ([], Err "refused") else Construct.demo_server h (Send c r)
  | o => Construct.demo_server h o
  end.

Definition demo_multi : list string := ["noa"; "proxy-multi"; "id.json"; "web:8080"; "--bind"; "127.0.0.1"].

Lemma proxy_multi_retries_witness :
  let r := (converse demo_slow (run_proxy_multi wire_settings (λ _, Ok tt) 9 demo_multi demo_files) []).1 in
  r.1 = [1; 2; 4] ∧ is_Some r.2 ∧ ∀ k w, r.1 !! k = Some w → w = Z.min (2 ^ Z.of_nat k) 30.
Proof.
  intros r. split; [vm_compute; reflexivity|]. split; [vm_compute; by eexists|].
  assert (Hl : ∀ h o, lawful o (demo_slow h o)).
  { intros h o. destruct o as [c req| | | | |]; [|exact (Construct.demo_server_lawful h _)..]. unfold demo_slow.
    destruct (length h <? 3)%nat; [done|exact (Construct.demo_server_lawful h _)]. }
  exact (proj1 (proxy_multi_retries wire_settings (λ _, Ok tt) 9 demo_multi demo_files demo_slow Hl)).
Defined.

End witness.
